(* ===== verification/_CoqProject ===== *)
-Q . S2P
Prelude.v
GoStrings.v
GoRuntime.v
GoTime.v
GoJson.v
Recipient.v
Sha256.v
DlqStore.v
Queue.v
Metrics.v
Email.v
Trace.v
Confirm.v
RateLimiter.v
World.v
Threads.v
Relay.v
Backoff.v
DlqWorker.v
DlqAdmin.v
Smtp.v
Listener.v
Version.v
BotHelp.v
BotSender.v
Bot.v
Config.v
MaxClient.v
Sending.v
Main.v
System.v
Delivery.v
Acceptance.v
Drain.v
