(* ===== verification/Prelude.v ===== *)
(** * smtp-to-max-relay: a verification development

    The program receives mail by SMTP and sends it to chats of the MAX messenger.
    A recipient address names a chat ([chatid123@domain], with flags such as
    [.silent]) or an alias for several; each mail becomes text messages and files;
    what cannot be sent waits in a dead-letter queue, in memory and in a JSON
    file, which a worker replays; a bot tells users their address and lets one
    administrator manage aliases and queue.

    ** The parts, and where they are

    - [Recipient]: [internal/recipient].  [parser] is the alias table with the
      domain; [Parse], [SetAliasGroup], [AddAliasTargets], [RemoveAliasTargets],
      [DeleteAlias], [SnapshotAliases], [LoadAliases], [SaveAliases].
    - [Sha256], [DlqStore]: [internal/dlq/store.go].  [FileStore] is the map of
      items and the files of its directory; [Enqueue], [PickDue], [MarkDone],
      [MarkRetry], [Stats], [ListItems], [Get], [persistLocked], [load].  [Queue] is the
      abstract queue it refines: messages with fates, calls with answers, and what a
      restart would find.
    - [Metrics]: [internal/metrics/collector.go], with the Prometheus page and the
      statistics report; floats are IEEE binary64.
    - [Email]: [internal/email].  The choice and naming of attachments.
    - [Trace]: [internal/trace] and the context value of [internal/relay].
    - [Confirm]: [internal/max/admin_confirm.go], the confirmation tokens.
    - [World]: what the parts share (store, alias table and its file, collector,
      confirmations, the calls made to the sender) and the environment [Env].  A call
      of the sender ([call_sender]) is what the limiter tells the collector, then
      the send and its outcome.
    - [Relay]: [internal/relay/service.go]; text preparation, splitting, sending
      with retries, queueing.
    - [Backoff], [DlqWorker], [DlqAdmin]: [internal/dlq/worker.go], [admin.go].
    - [Smtp], [Listener]: [internal/smtp/server.go], a session and the accept loop.
    - [RateLimiter]: [internal/max/limited_sender.go]: the calls of [acquire] as a
      transition system, and what one call tells the shared collector.
    - [Version], [BotHelp], [BotSender], [Bot]: [internal/version] and the other files of
      [internal/max].
    - [MaxClient]: [third_party/max-bot-api-client-go], the HTTP client of the MAX API
      that the repository carries: requests, answers, uploads, polling for updates.
    - [Sending]: a call through limiter, sender and client, as [main] puts them together.
    - [Config], [Main]: [internal/config] and [cmd/smtp-to-max-relay/main.go].
    - [Threads], [System], [Delivery], [Acceptance], [Drain]: no code of their own; goroutines and
      their interleavings, and what holds of the whole program.
    - [GoStrings], [GoRuntime], [GoTime], [GoJson]: the parts of Go's library that the
      source uses: UTF-8, [strings], [strconv], map iteration and [sort.Slice],
      [time], documents of [encoding/json].  This file: byte strings, results and
      errors, 64-bit integers, the tactics and the hint database [go].

    ** How code is modelled

    A string is its bytes, an [int64] a [Z] with [wrap64] where the code computes.  An
    operation under a mutex is a function from the state to its result and the
    next state; an operation that spans several is a computation of the free
    monad [World.M], a sequence of atomic actions on the shared [World].  Its [exec]
    is what it does when nothing else runs; [Threads] interleaves the actions of
    several.  Whatever the code does not decide is an argument: the order
    of a map iteration and of equal elements after [sort.Slice] ([GoRuntime]), the
    Unicode tables ([UnicodeTables]), the clock, random bytes, the outcome of
    every file-system call, every answer of MAX and every cancellation ([Env], one
    oracle per [tick]; for the client, every HTTP response).  Theorems hold for all of them.  Real concurrency is a
    step relation in [RateLimiter] and [Listener], where goroutines interleave at
    every channel operation, and [Threads.pool_run] for the goroutines of
    [Main.program_thread], any number of each, which interleave at every operation
    on the shared state; [Threads.wp] verifies one goroutine against what each of
    its actions must guarantee to the others.  The worker and the
    administration know the relay by the class [Replayer], which [Main] instantiates.

    ** What the theorems show

    - Delivery: [Relay_delivers] (the calls made to MAX are exactly those the
      message requires), [Relay_no_loss], [DATA_reply] (what the SMTP reply promises when nothing
      else runs) and [data_settled] (under every interleaving),
      [done_means_delivered] (an item of the queue is done only once every piece of
      its message was accepted), [queue_drains] (while MAX accepts and the file can be
      written, the worker empties the queue), [splitTextMessage_spec],
      [Parse_attachments], [SendFile_attempts], [success_means_posted] (what the relay
      takes for success, MAX has answered with 2xx), [polling_delivers] (every update
      goes once and in order to the channel the bot reads).
    - The queue: [store_refines_queue] (every sequence of calls and restarts with
      its answers is one of the abstract queue), [store_keeps_messages], [store_crash_safe], [Enqueue_durable],
      [PickDue_spec], [PickDue_exclusive], [Enqueue_deduplicates], [MarkRetry_budget],
      [runOnce_settles], [Replay_settles], [ReplayBatch_accounts], [next_delay_spec].
    - Addresses: [Parse_resolves] against a relational grammar, the alias table's
      invariant, its refinement of finite sets, its file's round trip,
      [advertised_address_resolves].
    - The bot: who can do what, confirmations used once, what [/alias] does.
    - The server: [session_transcript] (every session is a run of an independent
      transcript of SMTP commands, the only one, and ends), the dot-stuffing round
      trip, the invariant of the recipients, [sessions_bounded].
    - The limiter: safety and freedom from deadlock.
    - The collector and the configuration: determinism of the texts, counters,
      histograms, and which environments [Load] accepts.
    - The whole: [program_acts] reduces every interleaving to atomic actions, each
      within the powers of its goroutine's role, and [run_safe] states what each preserves from the state [main] starts with;
      [done_means_delivered] holds of the same interleavings.

    Theorems without a property number record behaviour worth knowing, such as
    [oversize_data_becomes_commands], [recipients_survive_data], [refused_and_queued],
    [Replay_revives_done], [group_targets_unvalidated], [Load_duration_wraps], [metrics_always_on],
    [overflow_guard_incomplete], [PickDue_failure_strands],
    [LoadAliases_order_dependent], [chat_number_undeliverable], [accepted_but_failed] and
    [bad_base_url_ignored].

    ** Bounds and fuel

    Recursion is structural except where a [fuel] says otherwise.  The SMTP command
    loop has the length of its input, enough since each command takes a line
    ([session_transcript]).  [splitTextMessage] has the length of the text, enough
    since each chunk takes a byte ([splitTextMessage_spec]: the chunks make up the
    whole text).  The digits of a number have one more than its binary logarithm.
    The retry loops count the attempts left, which the code bounds.  Loops that run until
    the context ends ([DlqWorker.Run], [MaxClient.poll]) have the number of their
    rounds, and their theorems hold for every number.

    ** Not modelled

    The MIME parser ([enmime]) and the MIME type table are parameters, and so are the
    HTTP transport with the server behind it and [net/url].  The concrete syntax of JSON is not modelled: a
    file or a response holds a document.  Logging, signals, the HTTP server of the metrics page,
    and the bytes of the TCP connection below lines are left out; the input of
    a session is the list of what its reads give, lines and errors such as a deadline
    that has passed.  Memory is unbounded: the slice [ReplayBatch] allocates for the
    given limit, which panics when the limit is huge, is the assumption [allocatable]. *)
From stdpp Require Export base option list list_numbers numbers gmap strings sorting.
From Stdlib Require Export ZArith Lia.
From Stdlib Require Ascii.
Export Stdlib.Strings.Ascii (ascii, ascii_of_N, N_of_ascii, ascii_of_byte, byte_of_ascii,
  ascii_N_embedding, N_ascii_embedding, N_ascii_bounded).
Export (notations) Stdlib.Strings.Ascii.

#[global] Set Default Proof Using "Type".
#[export] Set Warnings "-clear-no-such-hyp,-level-tolerance".

(** ** Byte strings

    A Go [string] or [[]byte] is a list of bytes; string literals in
    [go_scope] denote the UTF-8 bytes of the literal. *)
Abbreviation bytes := (list ascii).

Inductive byte_lit := BLNil | BLCons (a : ascii) (l : byte_lit).

Fixpoint parse_byte_lit (l : list Byte.byte) : byte_lit :=
  match l with
  | [] => BLNil
  | b :: l => BLCons (ascii_of_byte b) (parse_byte_lit l)
  end.

Fixpoint print_byte_lit (l : byte_lit) : list Byte.byte :=
  match l with
  | BLNil => []
  | BLCons a l => byte_of_ascii a :: print_byte_lit l
  end.

Declare Scope go_scope.
Delimit Scope go_scope with go.
#[warnings="-via-type-mismatch"]
String Notation list parse_byte_lit print_byte_lit
  (via byte_lit mapping [[nil] => BLNil, [cons] => BLCons]) : go_scope.

(** The numeric value of a byte and the byte of a value in [0, 256). *)
Definition code (a : ascii) : Z := Z.of_N (N_of_ascii a).
Definition byte_of (z : Z) : ascii := ascii_of_N (Z.to_N z).

(** Byte strings are map keys; this encoding computes faster than the one that
    enumerates [ascii]. *)
#[export] Instance bytes_eq_dec : EqDecision bytes | 0.
Proof. exact (List.list_eq_dec Ascii.ascii_dec). Defined.
#[export] Instance bytes_countable : Countable bytes | 0 :=
  inj_countable' String.string_of_list_ascii String.list_ascii_of_string
    String.list_ascii_of_string_of_list_ascii.

(** ** Results: a value or a Go [error], carried as its [Error()] text *)
Inductive res (A : Type) :=
  | Ok (a : A)
  | Err (e : bytes).
Arguments Ok {A} _.
Arguments Err {A} _.

#[export] Instance res_ret : MRet res := λ A a, Ok a.
#[export] Instance res_bind : MBind res := λ A B f x,
  match x with Ok a => f a | Err e => Err e end.
#[export] Instance res_fmap : FMap res := λ A B f x,
  match x with Ok a => Ok (f a) | Err e => Err e end.

Definition is_ok {A} (r : res A) : bool := match r with Ok _ => true | Err _ => false end.

Lemma is_ok_inv {A} (r : res A) : is_ok r = true → ∃ a, r = Ok a.
Proof. destruct r; [eauto|done]. Qed.

Definition ok_or {A} (d : A) (r : res A) : A := match r with Ok a => a | Err _ => d end.

Lemma ok_pair {A S} (d : A) (p : res A * S) : is_ok p.1 = true → p = (Ok (ok_or d p.1), p.2).
Proof. by destruct p as [[a|e] s]. Qed.

#[export] Instance res_eq_dec {A} `{EqDecision A} : EqDecision (res A).
Proof. solve_decision. Defined.

(** ** Machine integers: Go's [int] and [int64] are 64-bit two's complement *)
Definition int64_min : Z := - 2 ^ 63.
Definition int64_max : Z := 2 ^ 63 - 1.
Definition wrap64 (z : Z) : Z := (z + 2 ^ 63) mod 2 ^ 64 - 2 ^ 63.
Definition wrapu64 (z : Z) : Z := z mod 2 ^ 64.
Definition in_int64 (z : Z) : Prop := (int64_min ≤ z ≤ int64_max)%Z.
(** [x << n] on int64 for a non-negative shift count. *)
Definition shl64 (x n : Z) : Z := wrap64 (Z.shiftl x n).

(** ** Automation *)
Create HintDb go discriminated.

(** Case split on the innermost test of the goal, keeping its equation. *)
Ltac split_if :=
  match goal with
  | |- context [if ?b then _ else _] => destruct b eqn:?
  end.
Ltac split_if_in H :=
  match type of H with
  | context [if ?b then _ else _] => destruct b eqn:?
  end.
(** Boolean tests to propositions. *)
Ltac bprop :=
  repeat match goal with
  | H : (_ && _)%bool = true |- _ => apply andb_true_iff in H; destruct H
  | H : (_ || _)%bool = false |- _ => apply orb_false_iff in H; destruct H
  | H : negb _ = true |- _ => apply negb_true_iff in H
  | H : negb _ = false |- _ => apply negb_false_iff in H
  | H : (_ <? _)%Z = true |- _ => apply Z.ltb_lt in H
  | H : (_ <? _)%Z = false |- _ => apply Z.ltb_ge in H
  | H : (_ <=? _)%Z = true |- _ => apply Z.leb_le in H
  | H : (_ <=? _)%Z = false |- _ => apply Z.leb_gt in H
  | H : (_ =? _)%Z = true |- _ => apply Z.eqb_eq in H
  | H : (_ =? _)%Z = false |- _ => apply Z.eqb_neq in H
  | H : bool_decide _ = true |- _ => apply bool_decide_eq_true_1 in H
  | H : bool_decide _ = false |- _ => apply bool_decide_eq_false_1 in H
  end.

(** ** Facts about machine integers *)
Open Scope Z_scope.

Lemma wrap64_id z : in_int64 z → wrap64 z = z.
Proof. unfold in_int64, wrap64, int64_min, int64_max. intros. rewrite Z.mod_small; lia. Qed.

Lemma wrap64_bounds z : in_int64 (wrap64 z).
Proof.
  unfold in_int64, wrap64, int64_min, int64_max.
  pose proof (Z.mod_pos_bound (z + 2 ^ 63) (2 ^ 64)). lia.
Qed.

(** The wrapped value differs from the exact one by a multiple of [2^64]. *)
Lemma wrap64_cong z : ∃ q, z = wrap64 z + q * 2 ^ 64.
Proof.
  exists ((z + 2 ^ 63) / 2 ^ 64). unfold wrap64.
  pose proof (Z.div_mod (z + 2 ^ 63) (2 ^ 64)). lia.
Qed.

Lemma code_bounds a : 0 ≤ code a < 256.
Proof. unfold code. pose proof (N_ascii_bounded a). lia. Qed.

Lemma byte_of_code a : byte_of (code a) = a.
Proof. unfold byte_of, code. rewrite N2Z.id. apply ascii_N_embedding. Qed.

Lemma code_byte_of z : 0 ≤ z < 256 → code (byte_of z) = z.
Proof. intros. unfold byte_of, code. rewrite N_ascii_embedding; lia. Qed.

Lemma code_inj a b : code a = code b → a = b.
Proof. intros H. by rewrite <- (byte_of_code a), <- (byte_of_code b), H. Qed.

#[export] Hint Resolve wrap64_bounds code_bounds : go.

(** ** Lists: trimming, removing duplicates, prefixes *)
Section lists.
Context {A : Type}.
Implicit Types (l : list A) (p : A → bool).

Fixpoint drop_while p l : list A :=
  match l with
  | [] => []
  | x :: l' => if p x then drop_while p l' else l
  end.

Definition rdrop_while p l : list A := reverse (drop_while p (reverse l)).

(** Remove elements satisfying [p] from both ends. *)
Definition trim_both p l : list A := rdrop_while p (drop_while p l).

(** [l] neither starts nor ends with an element satisfying [p]. *)
Definition trimmed p l : Prop :=
  (∀ x, head l = Some x → p x = false) ∧ (∀ x, last l = Some x → p x = false).

Lemma drop_while_suffix p l : ∃ k, l = k ++ drop_while p l ∧ Forall (λ x, p x = true) k.
Proof.
  induction l as [|x l (k & Hl & Hk)]; simpl.
  - by exists [].
  - destruct (p x) eqn:Hp; [|by exists []].
    exists (x :: k). split; [by rewrite <- app_comm_cons, <- Hl | by constructor].
Qed.

Lemma rdrop_while_prefix p l : ∃ k, l = rdrop_while p l ++ k ∧ Forall (λ x, p x = true) k.
Proof.
  destruct (drop_while_suffix p (reverse l)) as (k & Hl & Hk).
  exists (reverse k). split; [|by apply Forall_reverse].
  unfold rdrop_while. rewrite <- reverse_app, <- Hl. by rewrite reverse_involutive.
Qed.

Lemma drop_while_head p l x : head (drop_while p l) = Some x → p x = false.
Proof. induction l as [|y l IH]; simpl; [done|]. destruct (p y) eqn:?; simpl; naive_solver. Qed.

Lemma drop_while_id p l : (∀ x, head l = Some x → p x = false) → drop_while p l = l.
Proof. destruct l as [|x l]; [done|]. intros H. simpl. by rewrite (H x). Qed.

Lemma rdrop_while_id p l : (∀ x, last l = Some x → p x = false) → rdrop_while p l = l.
Proof.
  intros H. unfold rdrop_while. rewrite drop_while_id; [apply reverse_involutive|].
  intros x. rewrite head_reverse. apply H.
Qed.

Lemma rdrop_while_last p l x : last (rdrop_while p l) = Some x → p x = false.
Proof. unfold rdrop_while. rewrite last_reverse. apply drop_while_head. Qed.

Lemma head_app_prefix (l k : list A) x : head l = Some x → head (l ++ k) = Some x.
Proof. destruct l; naive_solver. Qed.

Lemma trim_both_infix p l : ∃ k1 k2, l = k1 ++ trim_both p l ++ k2.
Proof.
  unfold trim_both. destruct (drop_while_suffix p l) as (k1 & H1 & _).
  destruct (rdrop_while_prefix p (drop_while p l)) as (k2 & H2 & _).
  exists k1, k2. by rewrite <- H2.
Qed.

Lemma trim_both_trimmed p l : trimmed p (trim_both p l).
Proof.
  unfold trim_both. split; intros x Hx.
  - destruct (rdrop_while_prefix p (drop_while p l)) as (k & Hk & _).
    eapply (drop_while_head p l). rewrite Hk. by apply head_app_prefix.
  - by eapply rdrop_while_last.
Qed.

Lemma trim_both_id p l : trimmed p l → trim_both p l = l.
Proof.
  intros [H1 H2]. unfold trim_both. rewrite (drop_while_id p l) by done.
  by apply rdrop_while_id.
Qed.

Lemma trim_both_idemp p l : trim_both p (trim_both p l) = trim_both p l.
Proof. apply trim_both_id, trim_both_trimmed. Qed.

Lemma trimmed_Forall p l : Forall (λ x, p x = false) l → trimmed p l.
Proof.
  rewrite Forall_forall. intros H. split; intros x Hx; apply H.
  - by apply head_Some_elem_of.
  - by apply last_Some_elem_of.
Qed.

Lemma trim_both_Forall (P : A → Prop) p l : Forall P l → Forall P (trim_both p l).
Proof.
  destruct (trim_both_infix p l) as (k1 & k2 & Hl). intros H.
  rewrite Hl, !Forall_app in H. tauto.
Qed.
End lists.

(** Trimming commutes with a map that preserves the predicate. *)
Lemma drop_while_fmap {A B} (f : A → B) (p : B → bool) (l : list A) :
  drop_while p (f <$> l) = f <$> drop_while (p ∘ f) l.
Proof. induction l as [|x l IH]; simpl; [done|]. by destruct (p (f x)). Qed.

Lemma trim_both_fmap {A B} (f : A → B) (p : B → bool) (l : list A) :
  trim_both p (f <$> l) = f <$> trim_both (p ∘ f) l.
Proof.
  unfold trim_both, rdrop_while.
  by rewrite drop_while_fmap, <- !fmap_reverse, drop_while_fmap, <- fmap_reverse.
Qed.

Lemma drop_while_ext {A} (p q : A → bool) (l : list A) :
  (∀ x, p x = q x) → drop_while p l = drop_while q l.
Proof. intros H. induction l as [|x l IH]; simpl; [done|]. by rewrite H, IH. Qed.

Lemma trim_both_ext {A} (p q : A → bool) (l : list A) :
  (∀ x, p x = q x) → trim_both p l = trim_both q l.
Proof.
  intros H. unfold trim_both, rdrop_while. by rewrite !(drop_while_ext p q) by done.
Qed.
