(* ===== verification/GoStrings.v ===== *)
(** * Go strings: UTF-8, and the parts of the [strings] and [strconv]
    packages the program uses

    A string is its bytes.  [decode_rune] is [utf8.DecodeRuneInString]; every
    rune-wise function ([for _, r := range s], [strings.ToLower],
    [strings.TrimSpace], [strings.Fields]) goes through [segs], which cuts a
    string into its runes together with the bytes each one was decoded from.
    The Unicode tables of the Go library are the class [UnicodeTables]. *)
From S2P Require Import Prelude.

Open Scope Z_scope.
Open Scope go_scope.

(** ** UTF-8 *)
Definition RuneError : Z := 0xFFFD.

Definition cont_byte (b : Z) : bool := (0x80 <=? b) && (b <=? 0xBF).

(** [utf8.RuneStart] *)
Definition rune_start (a : ascii) : bool := negb (cont_byte (code a)).

(** The range of the second byte after a three- or four-byte lead byte. *)
Definition second_ok (b0 b1 : Z) : bool :=
  if b0 =? 0xE0 then (0xA0 <=? b1) && (b1 <=? 0xBF)
  else if b0 =? 0xED then (0x80 <=? b1) && (b1 <=? 0x9F)
  else if b0 =? 0xF0 then (0x90 <=? b1) && (b1 <=? 0xBF)
  else if b0 =? 0xF4 then (0x80 <=? b1) && (b1 <=? 0x8F)
  else cont_byte b1.

(** [utf8.DecodeRuneInString] on a non-empty string: the first rune and its
    width; an invalid sequence is [(RuneError, 1)]. *)
Definition decode_rune (s : bytes) : Z * nat :=
  match s with
  | [] => (RuneError, 0%nat)
  | a0 :: s1 =>
    let b0 := code a0 in
    if b0 <? 0x80 then (b0, 1%nat)
    else match s1 with
    | [] => (RuneError, 1%nat)
    | a1 :: s2 =>
      let b1 := code a1 in
      if (0xC2 <=? b0) && (b0 <=? 0xDF) && cont_byte b1 then
        ((b0 - 0xC0) * 64 + (b1 - 0x80), 2%nat)
      else match s2 with
      | [] => (RuneError, 1%nat)
      | a2 :: s3 =>
        let b2 := code a2 in
        if (0xE0 <=? b0) && (b0 <=? 0xEF) && second_ok b0 b1 && cont_byte b2 then
          ((b0 - 0xE0) * 4096 + (b1 - 0x80) * 64 + (b2 - 0x80), 3%nat)
        else match s3 with
        | [] => (RuneError, 1%nat)
        | a3 :: _ =>
          let b3 := code a3 in
          if (0xF0 <=? b0) && (b0 <=? 0xF4) && second_ok b0 b1 && cont_byte b2 && cont_byte b3 then
            ((b0 - 0xF0) * 262144 + (b1 - 0x80) * 4096 + (b2 - 0x80) * 64 + (b3 - 0x80), 4%nat)
          else (RuneError, 1%nat)
        end
      end
    end
  end.

(** The runes of a string, each with the bytes it was decoded from. *)
Fixpoint segs (s : bytes) : list (Z * bytes) :=
  match s with
  | [] => []
  | a :: s1 =>
    let (r, w) := decode_rune s in
    match w with
    | 2%nat => match s1 with b :: s2 => (r, [a; b]) :: segs s2 | _ => [] end
    | 3%nat => match s1 with b :: c :: s3 => (r, [a; b; c]) :: segs s3 | _ => [] end
    | 4%nat => match s1 with b :: c :: d :: s4 => (r, [a; b; c; d]) :: segs s4 | _ => [] end
    | _ => (r, [a]) :: segs s1
    end
  end.

(** [for _, r := range s] visits [runes s]. *)
Definition runes (s : bytes) : list Z := (segs s).*1.

Definition surrogate (r : Z) : bool := (0xD800 <=? r) && (r <=? 0xDFFF).
Definition valid_rune (r : Z) : bool := (0 <=? r) && (r <=? 0x10FFFF) && negb (surrogate r).

(** [utf8.AppendRune]: an invalid rune is written as [RuneError]. *)
Definition encode_valid (r : Z) : bytes :=
  if r <? 0x80 then [byte_of r]
  else if r <? 0x800 then [byte_of (0xC0 + r / 64); byte_of (0x80 + r mod 64)]
  else if r <? 0x10000 then
    [byte_of (0xE0 + r / 4096); byte_of (0x80 + (r / 64) mod 64); byte_of (0x80 + r mod 64)]
  else
    [byte_of (0xF0 + r / 262144); byte_of (0x80 + (r / 4096) mod 64);
     byte_of (0x80 + (r / 64) mod 64); byte_of (0x80 + r mod 64)].

Definition encode_rune (r : Z) : bytes := encode_valid (if valid_rune r then r else RuneError).

Definition encode (rs : list Z) : bytes := concat (encode_rune <$> rs).

(** What [encoding/json] writes for a string: invalid UTF-8 becomes U+FFFD. *)
Definition to_valid_utf8 (s : bytes) : bytes := encode (runes s).

Definition valid_utf8 (s : bytes) : Prop := to_valid_utf8 s = s.

#[export] Instance valid_utf8_dec s : Decision (valid_utf8 s).
Proof. unfold valid_utf8. apply _. Defined.

(** ** [unicode]: white space and the case tables *)
Definition ascii_space (r : Z) : bool := (r =? 32) || ((9 <=? r) && (r <=? 13)).

(** [unicode.IsSpace] *)
Definition is_space (r : Z) : bool :=
  ascii_space r || (r =? 0x85) || (r =? 0xA0) || (r =? 0x1680) ||
  ((0x2000 <=? r) && (r <=? 0x200a)) || (r =? 0x2028) || (r =? 0x2029) ||
  (r =? 0x202f) || (r =? 0x205f) || (r =? 0x3000).

Definition ascii_lower (r : Z) : Z := if (65 <=? r) && (r <=? 90) then r + 32 else r.
Definition ascii_upper (r : Z) : Z := if (97 <=? r) && (r <=? 122) then r - 32 else r.

(** [unicode.ToLower] and [unicode.ToUpper] (the simple case mappings) and
    [strconv.IsPrint] are tables; the facts about them the code relies on are
    the laws of the class. *)
Class UnicodeTables := {
  uni_lower : Z → Z;
  uni_upper : Z → Z;
  uni_print : Z → bool;
  uni_lower_ascii r : 0 ≤ r < 128 → uni_lower r = ascii_lower r;
  uni_upper_ascii r : 0 ≤ r < 128 → uni_upper r = ascii_upper r;
  uni_lower_valid r : valid_rune r = true → valid_rune (uni_lower r) = true;
  uni_upper_valid r : valid_rune r = true → valid_rune (uni_upper r) = true;
  uni_lower_idem r : uni_lower (uni_lower r) = uni_lower r;
  uni_lower_space r : is_space (uni_lower r) = is_space r;
  uni_upper_space r : is_space (uni_upper r) = is_space r;
  (** outside ASCII only U+0131 and U+017F have an ASCII upper case *)
  uni_upper_to_ascii r : 128 ≤ r → uni_upper r < 128 → r = 0x131 ∨ r = 0x17F;
}.

(** [strings.ToLower], [strings.ToUpper]: [strings.Map] over the runes. *)
Definition to_lower `{UnicodeTables} (s : bytes) : bytes := encode (uni_lower <$> runes s).
Definition to_upper `{UnicodeTables} (s : bytes) : bytes := encode (uni_upper <$> runes s).

(** ** [strings] *)
Definition seg_space (g : Z * bytes) : bool := is_space g.1.

Definition unsegs (l : list (Z * bytes)) : bytes := concat l.*2.

(** [strings.TrimSpace] *)
Definition trim_space (s : bytes) : bytes := unsegs (trim_both seg_space (segs s)).

(** [strings.Trim] with an ASCII cutset *)
Definition trim_cutset (cut : bytes) (s : bytes) : bytes :=
  trim_both (λ a, bool_decide (a ∈ cut)) s.

(** [strings.HasPrefix], [HasSuffix], [TrimPrefix] *)
Fixpoint has_prefix (s p : bytes) : bool :=
  match p, s with
  | [], _ => true
  | b :: p', a :: s' => bool_decide (a = b) && has_prefix s' p'
  | _ :: _, [] => false
  end.
Definition has_suffix (s p : bytes) : bool := has_prefix (reverse s) (reverse p).
Definition trim_prefix (s p : bytes) : bytes := if has_prefix s p then drop (length p) s else s.

(** [strings.Contains] *)
Fixpoint contains (s sub : bytes) : bool :=
  has_prefix s sub || match s with [] => false | _ :: s' => contains s' sub end.

(** [strings.Index] of a one-byte substring *)
Fixpoint index_byte (c : ascii) (s : bytes) : option nat :=
  match s with
  | [] => None
  | a :: s' => if decide (a = c) then Some 0%nat else S <$> index_byte c s'
  end.

(** [strings.Split] with a one-byte separator *)
Fixpoint split (c : ascii) (s : bytes) : list bytes :=
  match s with
  | [] => [[]]
  | a :: s' =>
    if decide (a = c) then [] :: split c s'
    else match split c s' with
         | w :: ws => (a :: w) :: ws
         | [] => [[a]]
         end
  end.

(** [s < t] on strings: bytewise lexicographic order *)
Fixpoint bytes_ltb (s t : bytes) : bool :=
  match s, t with
  | _, [] => false
  | [], _ :: _ => true
  | a :: s', b :: t' =>
    (code a <? code b) || ((code a =? code b) && bytes_ltb s' t')
  end.

(** [strings.Join] *)
Fixpoint join (sep : bytes) (l : list bytes) : bytes :=
  match l with
  | [] => []
  | [w] => w
  | w :: l' => w ++ sep ++ join sep l'
  end.

(** [strings.Fields] *)
Fixpoint fields_go (cur : bytes) (l : list (Z * bytes)) : list bytes :=
  match l with
  | [] => if decide (cur = []) then [] else [cur]
  | g :: l' =>
    if seg_space g then (if decide (cur = []) then [] else [cur]) ++ fields_go [] l'
    else fields_go (cur ++ g.2) l'
  end.
Definition fields (s : bytes) : list bytes := fields_go [] (segs s).

(** ** [strconv] and [fmt]: decimal and hexadecimal *)
Definition digit (d : Z) : ascii := byte_of (48 + d).
Definition is_digit (r : Z) : bool := (48 <=? r) && (r <=? 57).

Fixpoint fmt_digits (fuel : nat) (n : Z) (acc : bytes) : bytes :=
  match fuel with
  | O => acc
  | S fuel =>
    if n <? 10 then digit n :: acc
    else fmt_digits fuel (n / 10) (digit (n mod 10) :: acc)
  end.

(** Decimal digits of a non-negative number; [log2 n + 1] divisions suffice. *)
Definition fmt_nat (n : Z) : bytes := fmt_digits (S (Z.to_nat (Z.log2 n))) n [].

(** [strconv.FormatInt(z, 10)], [%d] *)
Definition format_int (z : Z) : bytes :=
  if z <? 0 then "-" ++ fmt_nat (- z) else fmt_nat z.

Fixpoint parse_digits (s : bytes) (acc : Z) : option Z :=
  match s with
  | [] => Some acc
  | a :: s' => if is_digit (code a) then parse_digits s' (acc * 10 + (code a - 48)) else None
  end.

(** [strconv.ParseInt(s, 10, 64)] and [strconv.Atoi]: a sign, then digits,
    then the range check. *)
Definition parse_uint (s : bytes) : option Z :=
  match s with [] => None | _ => parse_digits s 0 end.
Definition parse_int (s : bytes) : option Z :=
  let check z := if (int64_min <=? z) && (z <=? int64_max) then Some z else None in
  match s with
  | a :: s' =>
    if decide (a = "-"%char) then parse_uint s' ≫= λ n, check (- n)
    else if decide (a = "+"%char) then parse_uint s' ≫= check
    else parse_uint s ≫= check
  | [] => None
  end.

Definition hex_digit (d : Z) : ascii := byte_of (if d <? 10 then 48 + d else 87 + d).
(** [%x], [hex.EncodeToString] *)
Definition hex (s : bytes) : bytes :=
  concat ((λ a, [hex_digit (code a / 16); hex_digit (code a mod 16)]) <$> s).

(** [%q], [strconv.Quote] *)
Definition hex_fixed (n : nat) (z : Z) : bytes :=
  (λ i, hex_digit (z / 16 ^ Z.of_nat i mod 16)) <$> reverse (seq 0 n).
Definition dquote : ascii := byte_of 34.
Definition quote_seg `{UnicodeTables} (g : Z * bytes) : bytes :=
  let r := g.1 in
  if (r =? RuneError) && bool_decide (length g.2 = 1%nat) then
    "\x" ++ concat ((λ a, hex_fixed 2 (code a)) <$> g.2)
  else if (r =? 34) || (r =? 92) then "\" ++ g.2
  else if uni_print r then g.2
  else if r =? 7 then "\a" else if r =? 8 then "\b" else if r =? 12 then "\f"
  else if r =? 10 then "\n" else if r =? 13 then "\r" else if r =? 9 then "\t"
  else if r =? 11 then "\v"
  else if (r <? 32) || (r =? 127) then "\x" ++ hex_fixed 2 r
  else if r <? 0x10000 then "\u" ++ hex_fixed 4 r
  else "\U" ++ hex_fixed 8 r.
Definition quote `{UnicodeTables} (s : bytes) : bytes :=
  dquote :: concat (quote_seg <$> segs s) ++ [dquote].

(** [strconv.NumError.Error()] for [ParseInt] and [Atoi]: the digits are read from
    the left, and the first that overflows 64 bits ends the scan. *)
Fixpoint overflows (s : bytes) (n : Z) : bool :=
  match s with
  | [] => true
  | a :: s =>
    if negb (is_digit (code a)) then false
    else if 2 ^ 64 / 10 <? n then true
    else let n1 := n * 10 + (code a - 48) in if 2 ^ 64 <=? n1 then true else overflows s n1
  end.
Definition out_of_range (v : bytes) : bool :=
  let s := match v with a :: s => if decide (a = "-"%char ∨ a = "+"%char) then s else v | [] => [] end in
  bool_decide (s ≠ []) && overflows s 0.
Definition num_error `{UnicodeTables} (fn v : bytes) : bytes :=
  "strconv." ++ fn ++ ": parsing " ++ quote v ++ ": " ++
  (if out_of_range v then "value out of range" else "invalid syntax").

(** ** Loops that keep the first occurrence of each item

    [seen := map[string]struct{}{}; for item in items { if seen … continue }] *)
Fixpoint dedup_go (seen : gset bytes) (l : list bytes) : list bytes :=
  match l with
  | [] => []
  | x :: l' => if decide (x ∈ seen) then dedup_go seen l' else x :: dedup_go ({[x]} ∪ seen) l'
  end.
Definition dedup (l : list bytes) : list bytes := dedup_go ∅ l.

(** * Lemmas *)

(** ** Decoding *)
Lemma unsegs_cons g l : unsegs (g :: l) = g.2 ++ unsegs l.
Proof. done. Qed.

Lemma unsegs_app l k : unsegs (l ++ k) = unsegs l ++ unsegs k.
Proof. unfold unsegs. by rewrite fmap_app, concat_app. Qed.

(** Walk through the tests of [decode_rune]. *)
Ltac decode_cases :=
  repeat match goal with
  | |- context [match ?s with [] => _ | _ :: _ => _ end] => is_var s; destruct s
  | |- context [if ?b then (_, _) else _] => destruct b eqn:?
  end; simpl.

Lemma decode_rune_width a s :
  (1 ≤ (decode_rune (a :: s)).2 ≤ 4)%nat ∧ ((decode_rune (a :: s)).2 ≤ S (length s))%nat.
Proof. unfold decode_rune. cbv zeta. decode_cases; lia. Qed.

Lemma segs_step a s :
  segs (a :: s) =
    ((decode_rune (a :: s)).1, take (decode_rune (a :: s)).2 (a :: s))
    :: segs (drop (decode_rune (a :: s)).2 (a :: s)).
Proof.
  pose proof (decode_rune_width a s) as [Hw Hl].
  cbn [segs]. destruct (decode_rune (a :: s)) as [r w]. simpl in *.
  destruct w as [|[|[|[|[|w]]]]]; try lia; simpl; [done|..].
  - destruct s; simpl in *; [lia|done].
  - destruct s as [|? [|]]; simpl in *; [lia..|done].
  - destruct s as [|? [|? [|]]]; simpl in *; [lia..|done].
Qed.

#[global] Arguments decode_rune : simpl never.
#[global] Arguments segs : simpl never.

(** Induction along the runes of a string. *)
Lemma segs_ind (P : bytes → Prop) :
  P [] →
  (∀ a s, P (drop (decode_rune (a :: s)).2 (a :: s)) → P (a :: s)) →
  ∀ s, P s.
Proof.
  intros Hnil Hcons s.
  induction s as [s IH] using (induction_ltof1 _ length). destruct s as [|a s]; [done|].
  apply Hcons, IH. pose proof (decode_rune_width a s) as [Hw _].
  unfold ltof. rewrite length_drop. cbn [length]. lia.
Qed.

Lemma unsegs_segs s : unsegs (segs s) = s.
Proof.
  induction s as [|a s IH] using segs_ind; [done|].
  rewrite segs_step, unsegs_cons, IH. simpl (_.2). apply take_drop.
Qed.

Lemma segs_nil_inv s : segs s = [] → s = [].
Proof. destruct s; [done|]. by rewrite segs_step. Qed.

Lemma decode_rune_valid s : valid_rune (decode_rune s).1 = true.
Proof.
  unfold decode_rune. cbv zeta.
  destruct s as [|a0 s]; [done|]. pose proof (code_bounds a0).
  destruct (code a0 <? 128) eqn:?; [cbn [fst]; unfold valid_rune, surrogate; lia|].
  destruct s as [|a1 s]; [done|]. pose proof (code_bounds a1).
  unfold second_ok, cont_byte.
  repeat match goal with
  | |- context [match ?s with [] => _ | _ :: _ => _ end] => is_var s; destruct s
  | |- context [if ?b then (_, _) else _] => destruct b eqn:?
  end; try done; cbn [fst]; unfold valid_rune, surrogate; bprop;
  repeat match goal with H : context [if ?b then _ else _] |- _ => destruct b eqn:? end; bprop; lia.
Qed.

Lemma runes_valid s : Forall (λ r, valid_rune r = true) (runes s).
Proof.
  induction s as [|a s IH] using segs_ind; [constructor|].
  unfold runes in *. rewrite segs_step. simpl. constructor; [apply decode_rune_valid | done].
Qed.

Lemma runes_nonneg s r : r ∈ runes s → 0 ≤ r.
Proof.
  intros Hr. eapply Forall_forall in Hr; [|apply runes_valid]. simpl in Hr.
  unfold valid_rune in Hr. bprop. lia.
Qed.

(** ** Encoding *)
Ltac div_lia := Z.to_euclidean_division_equations; lia.

Lemma decode_encode_valid r s :
  valid_rune r = true →
  decode_rune (encode_valid r ++ s) = (r, length (encode_valid r)).
Proof.
  intros Hr. unfold valid_rune, surrogate in Hr.
  assert (0 ≤ r ≤ 0x10FFFF ∧ (r < 0xD800 ∨ 0xDFFF < r)) as [Hr0 Hsur] by lia. clear Hr.
  assert (r / 4096 = r / 64 / 64) as E1 by (by rewrite Z.div_div by lia).
  assert (r / 262144 = r / 64 / 64 / 64) as E2 by (by rewrite !Z.div_div by lia).
  unfold encode_valid. rewrite E1, E2. clear E1 E2.
  repeat split_if; bprop; simpl app; unfold decode_rune; cbv zeta;
    rewrite !code_byte_of by div_lia; unfold second_ok, cont_byte.
  - destruct (Z.ltb_spec r 128); [done|lia].
  - destruct (Z.ltb_spec (192 + r / 64) 128); [div_lia|].
    match goal with |- context [if ?b then (_, 2%nat) else _] => assert (b = true) as -> end.
    { div_lia. }
    simpl. f_equal. div_lia.
  - destruct (Z.ltb_spec (224 + r / 64 / 64) 128); [div_lia|].
    match goal with |- context [if ?b then (_, 2%nat) else _] => assert (b = false) as -> end.
    { apply andb_false_iff. left. apply andb_false_iff. right. apply Z.leb_gt. div_lia. }
    match goal with |- context [if ?b then (_, 3%nat) else _] => assert (b = true) as -> end.
    { repeat split_if; bprop; div_lia. }
    simpl. f_equal. div_lia.
  - destruct (Z.ltb_spec (240 + r / 64 / 64 / 64) 128); [div_lia|].
    match goal with |- context [if ?b then (_, 2%nat) else _] => assert (b = false) as -> end.
    { apply andb_false_iff. left. apply andb_false_iff. right. apply Z.leb_gt. div_lia. }
    match goal with |- context [if ?b then (_, 3%nat) else _] => assert (b = false) as -> end.
    { rewrite !andb_false_iff. left. left. right. apply Z.leb_gt. div_lia. }
    match goal with |- context [if ?b then (_, 4%nat) else _] => assert (b = true) as -> end.
    { repeat split_if; bprop; div_lia. }
    simpl. f_equal. div_lia.
Qed.

Lemma encode_rune_valid r : valid_rune r = true → encode_rune r = encode_valid r.
Proof. unfold encode_rune. by intros ->. Qed.

Lemma encode_rune_cons r : ∃ a s, encode_rune r = a :: s.
Proof. unfold encode_rune, encode_valid. generalize (if valid_rune r then r else RuneError).
  intros z. repeat split_if; eauto. Qed.

Lemma segs_step_ne t :
  t ≠ [] → segs t = ((decode_rune t).1, take (decode_rune t).2 t) :: segs (drop (decode_rune t).2 t).
Proof. destruct t; [done|]. intros _. apply segs_step. Qed.

Lemma segs_encode_rune r s :
  valid_rune r = true → segs (encode_rune r ++ s) = (r, encode_rune r) :: segs s.
Proof.
  intros Hr. destruct (encode_rune_cons r) as (a & s' & Ha).
  rewrite segs_step_ne by (by rewrite Ha).
  rewrite encode_rune_valid, decode_encode_valid by done. cbn [fst snd].
  by rewrite take_app_length, drop_app_length.
Qed.

Lemma encode_cons r rs : encode (r :: rs) = encode_rune r ++ encode rs.
Proof. done. Qed.

Lemma segs_encode rs :
  Forall (λ r, valid_rune r = true) rs → segs (encode rs) = (λ r, (r, encode_rune r)) <$> rs.
Proof.
  induction 1 as [|r rs Hr _ IH]; [done|].
  rewrite encode_cons, segs_encode_rune by done. by rewrite IH.
Qed.

Lemma runes_encode rs : Forall (λ r, valid_rune r = true) rs → runes (encode rs) = rs.
Proof.
  intros H. unfold runes. rewrite segs_encode by done.
  rewrite <- list_fmap_compose. apply list_fmap_id.
Qed.

Lemma unsegs_encoded rs : unsegs ((λ r, (r, encode_rune r)) <$> rs) = encode rs.
Proof. unfold unsegs, encode. by rewrite <- list_fmap_compose. Qed.

Lemma valid_utf8_encode rs : Forall (λ r, valid_rune r = true) rs → valid_utf8 (encode rs).
Proof. intros H. unfold valid_utf8, to_valid_utf8. by rewrite runes_encode. Qed.

Lemma valid_utf8_to_valid s : valid_utf8 (to_valid_utf8 s).
Proof. apply valid_utf8_encode, runes_valid. Qed.

Lemma segs_valid s : valid_utf8 s → segs s = (λ r, (r, encode_rune r)) <$> runes s.
Proof.
  unfold valid_utf8, to_valid_utf8. intros H. rewrite <- H at 1.
  by rewrite segs_encode by apply runes_valid.
Qed.

(** ** Case mapping and trimming *)
Section case.
Context `{UnicodeTables}.

Lemma lower_runes_valid s : Forall (λ r, valid_rune r = true) (uni_lower <$> runes s).
Proof. apply Forall_fmap. eapply Forall_impl; [apply runes_valid|]. intros r. apply uni_lower_valid. Qed.

Lemma runes_to_lower s : runes (to_lower s) = uni_lower <$> runes s.
Proof. apply runes_encode, lower_runes_valid. Qed.

Lemma valid_utf8_to_lower s : valid_utf8 (to_lower s).
Proof. apply valid_utf8_encode, lower_runes_valid. Qed.

Lemma to_lower_idemp s : to_lower (to_lower s) = to_lower s.
Proof.
  unfold to_lower at 1. rewrite runes_to_lower, <- list_fmap_compose. unfold to_lower. f_equal.
  apply list_fmap_ext. intros. apply uni_lower_idem.
Qed.
End case.

Definition rune_space : Z → bool := is_space.

(** Trimming valid UTF-8 is trimming its runes. *)
Lemma trim_space_runes s :
  valid_utf8 s → trim_space s = encode (trim_both is_space (runes s)).
Proof.
  intros Hs. unfold trim_space. rewrite segs_valid by done.
  rewrite trim_both_fmap. rewrite unsegs_encoded. done.
Qed.

Lemma runes_trim_space s :
  valid_utf8 s → runes (trim_space s) = trim_both is_space (runes s).
Proof.
  intros Hs. rewrite trim_space_runes by done.
  apply runes_encode, trim_both_Forall, runes_valid.
Qed.

Lemma valid_utf8_trim_space s : valid_utf8 s → valid_utf8 (trim_space s).
Proof.
  intros Hs. rewrite trim_space_runes by done.
  apply valid_utf8_encode, trim_both_Forall, runes_valid.
Qed.

Lemma trim_space_idemp_valid s : valid_utf8 s → trim_space (trim_space s) = trim_space s.
Proof.
  intros Hs. rewrite (trim_space_runes (trim_space s)) by by apply valid_utf8_trim_space.
  rewrite runes_trim_space, trim_both_idemp by done. by rewrite trim_space_runes.
Qed.

(** The normal form of alias names and targets: [TrimSpace(ToLower(s))]. *)
Definition norm `{UnicodeTables} (s : bytes) : bytes := trim_space (to_lower s).

Section norm.
Context `{UnicodeTables}.

Lemma valid_utf8_norm s : valid_utf8 (norm s).
Proof. apply valid_utf8_trim_space, valid_utf8_to_lower. Qed.

Lemma runes_norm s : runes (norm s) = trim_both is_space (uni_lower <$> runes s).
Proof. unfold norm. by rewrite runes_trim_space, runes_to_lower by apply valid_utf8_to_lower. Qed.

Lemma to_lower_norm s : to_lower (norm s) = norm s.
Proof.
  unfold to_lower. rewrite runes_norm.
  assert (∀ l, uni_lower <$> trim_both is_space (uni_lower <$> l)
            = trim_both is_space (uni_lower <$> l)) as ->.
  { intros l. rewrite trim_both_fmap, <- list_fmap_compose.
    apply list_fmap_ext. intros. apply uni_lower_idem. }
  unfold norm. rewrite trim_space_runes by apply valid_utf8_to_lower.
  by rewrite runes_to_lower.
Qed.

Lemma norm_idemp s : norm (norm s) = norm s.
Proof.
  unfold norm at 1. rewrite to_lower_norm. apply trim_space_idemp_valid, valid_utf8_to_lower.
Qed.

Lemma trim_space_norm s : trim_space (norm s) = norm s.
Proof. apply trim_space_idemp_valid, valid_utf8_to_lower. Qed.

(** Lower-casing and trimming commute on valid UTF-8. *)
Lemma to_lower_trim_space s : valid_utf8 s → to_lower (trim_space s) = norm s.
Proof.
  intros Hs. unfold norm. rewrite (trim_space_runes (to_lower s)) by apply valid_utf8_to_lower.
  unfold to_lower at 1. rewrite runes_trim_space, runes_to_lower by done.
  rewrite trim_both_fmap. do 2 f_equal. apply trim_both_ext. intros r. simpl.
  by rewrite uni_lower_space.
Qed.
End norm.

(** ** ASCII strings *)
Definition is_ascii (s : bytes) : bool := forallb (λ a, code a <? 128) s.

Lemma is_ascii_cons a s : is_ascii (a :: s) = (code a <? 128) && is_ascii s.
Proof. done. Qed.

Lemma is_ascii_app s t : is_ascii (s ++ t) = is_ascii s && is_ascii t.
Proof. apply forallb_app. Qed.

Lemma segs_ascii_cons a s : (code a <? 128) = true → segs (a :: s) = (code a, [a]) :: segs s.
Proof. intros Ha. rewrite segs_step. unfold decode_rune. by rewrite Ha. Qed.

Lemma segs_ascii_app s t :
  is_ascii s = true → segs (s ++ t) = ((λ a, (code a, [a])) <$> s) ++ segs t.
Proof.
  induction s as [|a s IH]; [done|]. rewrite is_ascii_cons. intros Hs. bprop.
  rewrite <- app_comm_cons, segs_ascii_cons by (by apply Z.ltb_lt). by rewrite IH.
Qed.

Lemma segs_ascii s : is_ascii s = true → segs s = (λ a, (code a, [a])) <$> s.
Proof. intros Hs. rewrite <- (app_nil_r s) at 1. rewrite segs_ascii_app by done. apply app_nil_r. Qed.

Lemma runes_ascii s : is_ascii s = true → runes s = code <$> s.
Proof. intros Hs. unfold runes. rewrite segs_ascii by done. by rewrite <- list_fmap_compose. Qed.

Lemma encode_ascii s : is_ascii s = true → encode (code <$> s) = s.
Proof.
  induction s as [|a s IH]; [done|]. rewrite is_ascii_cons. intros Hs. bprop.
  rewrite fmap_cons, encode_cons, IH by done. pose proof (code_bounds a).
  rewrite encode_rune_valid by (unfold valid_rune, surrogate; lia).
  unfold encode_valid. destruct (Z.ltb_spec (code a) 128); [|lia]. by rewrite byte_of_code.
Qed.

Lemma valid_utf8_ascii s : is_ascii s = true → valid_utf8 s.
Proof. intros Hs. unfold valid_utf8, to_valid_utf8. by rewrite runes_ascii, encode_ascii. Qed.

(** An ASCII string without upper-case letters or surrounding white space is
    its own normal form. *)
Definition plain_byte (a : ascii) : bool :=
  (33 <=? code a) && (code a <=? 126) && negb ((65 <=? code a) && (code a <=? 90)).

Lemma plain_ascii s : forallb plain_byte s = true → is_ascii s = true.
Proof.
  unfold is_ascii. rewrite !forallb_forall. intros Hs a Ha. specialize (Hs a Ha).
  unfold plain_byte in Hs. lia.
Qed.

Lemma plain_not_space a : plain_byte a = true → is_space (code a) = false.
Proof. unfold plain_byte, is_space, ascii_space. lia. Qed.

Lemma trim_space_plain s : forallb plain_byte s = true → trim_space s = s.
Proof.
  intros Hs. unfold trim_space. rewrite trim_both_id; [apply unsegs_segs|].
  apply trimmed_Forall. rewrite segs_ascii by by apply plain_ascii.
  apply Forall_fmap, Forall_forall. intros a Ha. apply plain_not_space.
  rewrite forallb_forall in Hs. by apply Hs, list_elem_of_In.
Qed.

Lemma to_lower_plain `{UnicodeTables} s : forallb plain_byte s = true → to_lower s = s.
Proof.
  intros Hs. unfold to_lower. rewrite runes_ascii by by apply plain_ascii.
  assert (uni_lower <$> (code <$> s) = code <$> s) as ->.
  { rewrite <- list_fmap_compose. apply list_fmap_ext. intros i a Ha%list_elem_of_lookup_2. simpl.
    rewrite forallb_forall in Hs. apply list_elem_of_In in Ha. specialize (Hs a Ha).
    unfold plain_byte in Hs. rewrite uni_lower_ascii by lia. unfold ascii_lower.
    destruct ((65 <=? code a) && (code a <=? 90)) eqn:?; lia. }
  apply encode_ascii. by apply plain_ascii.
Qed.

Lemma norm_plain `{UnicodeTables} s : forallb plain_byte s = true → norm s = s.
Proof. intros Hs. unfold norm. rewrite to_lower_plain by done. by apply trim_space_plain. Qed.

(** ** Prefixes, separators *)
Lemma has_prefix_spec s p : has_prefix s p = true ↔ p `prefix_of` s.
Proof.
  revert s. induction p as [|b p IH]; intros [|a s]; simpl.
  - split; [intros _; apply prefix_nil | done].
  - split; [intros _; apply prefix_nil | done].
  - split; [done|]. by intros ?%prefix_nil_not.
  - rewrite andb_true_iff, IH, bool_decide_eq_true. split.
    + intros [-> ?]. by apply prefix_cons.
    + intros Hp. split; [by apply prefix_cons_inv_1 in Hp | by apply prefix_cons_inv_2 in Hp].
Qed.

Lemma has_prefix_app p s : has_prefix (p ++ s) p = true.
Proof. apply has_prefix_spec. by apply prefix_app_r. Qed.

Lemma has_prefix_inv s p : has_prefix s p = true → ∃ k, s = p ++ k.
Proof. by intros [k ?]%has_prefix_spec; exists k. Qed.

Lemma has_suffix_app s p : has_suffix (s ++ p) p = true.
Proof. unfold has_suffix. rewrite reverse_app. apply has_prefix_app. Qed.

Lemma has_suffix_inv s p : has_suffix s p = true → ∃ k, s = k ++ p.
Proof.
  intros [k Hk]%has_prefix_inv. exists (reverse k).
  by rewrite <- (reverse_involutive s), Hk, reverse_app, reverse_involutive.
Qed.

Lemma trim_prefix_app p s : trim_prefix (p ++ s) p = s.
Proof. unfold trim_prefix. by rewrite has_prefix_app, drop_app_length. Qed.

Lemma index_byte_app c s t : c ∉ s → index_byte c (s ++ c :: t) = Some (length s).
Proof.
  induction s as [|a s IH]; simpl; intros Hc; [by rewrite decide_True|].
  rewrite decide_False by set_solver. by (rewrite IH by set_solver).
Qed.

Lemma index_byte_None c s : index_byte c s = None ↔ c ∉ s.
Proof.
  induction s as [|a s IH]; simpl; [set_solver|]. case_decide; [set_solver|].
  rewrite fmap_None, IH. set_solver.
Qed.

Lemma index_byte_Some c s i :
  index_byte c s = Some i → s = take i s ++ c :: drop (S i) s ∧ c ∉ take i s.
Proof.
  revert i. induction s as [|a s IH]; simpl; intros i; [done|]. case_decide as Ha.
  - intros [= <-]. subst. simpl. rewrite drop_0. split; [done|set_solver].
  - intros (j & Hj & ->)%fmap_Some. destruct (IH j Hj) as [E Hn]. simpl.
    split; [by rewrite <- E | set_solver].
Qed.

Lemma split_ne c s : split c s ≠ [].
Proof. induction s as [|a s IH]; simpl; [done|]. case_decide; [done|]. by destruct (split c s). Qed.

Lemma split_app c s t : c ∉ s → split c (s ++ c :: t) = s :: split c t.
Proof.
  induction s as [|a s IH]; simpl; intros Hc; [by rewrite decide_True|].
  rewrite decide_False by set_solver. by rewrite IH by set_solver.
Qed.

Lemma split_notin c s : c ∉ s → split c s = [s].
Proof.
  induction s as [|a s IH]; simpl; intros Hc; [done|].
  rewrite decide_False by set_solver. by rewrite IH by set_solver.
Qed.

Lemma split_two c s x y : split c s = [x; y] → s = x ++ c :: y ∧ c ∉ x ∧ c ∉ y.
Proof.
  destruct (decide (c ∈ s)) as [(l & k & -> & Hl)%list_elem_of_split_l|Hn].
  - rewrite split_app by done. intros [= -> Hk].
    destruct (decide (c ∈ k)) as [(l' & k' & -> & Hl')%list_elem_of_split_l|Hn'].
    + rewrite split_app in Hk by done. injection Hk as _ Hk. by apply split_ne in Hk.
    + rewrite split_notin in Hk by done. injection Hk as ->. done.
  - by rewrite split_notin.
Qed.

Lemma join_split c s : join [c] (split c s) = s.
Proof.
  induction s as [|a s IH]; [done|]. simpl. case_decide as Ha.
  - subst. pose proof (split_ne c s). simpl. destruct (split c s); [done|]. by rewrite <- IH.
  - destruct (split c s) as [|w ws]; [by rewrite <- IH|]. rewrite <- IH. by destruct ws.
Qed.

Lemma elem_of_split c s w : w ∈ split c s → c ∉ w ∧ ∀ a, a ∈ w → a ∈ s.
Proof.
  revert w. induction s as [|a s IH]; simpl; intros w.
  - intros ->%list_elem_of_singleton. set_solver.
  - case_decide as Ha.
    + intros [->|Hw]%elem_of_cons; [set_solver|]. apply IH in Hw. set_solver.
    + destruct (split c s) as [|w' ws] eqn:E; [by apply split_ne in E|].
      intros [->|Hw]%elem_of_cons.
      * destruct (IH w') as [? ?]; [set_solver|]. set_solver.
      * destruct (IH w) as [? ?]; set_solver.
Qed.

(** ** Decimal numbers *)
Lemma code_digit d : 0 ≤ d ≤ 9 → code (digit d) = 48 + d.
Proof. intros. unfold digit. rewrite code_byte_of; lia. Qed.

Definition all_digits (s : bytes) : bool := forallb (λ a, is_digit (code a)) s.

Lemma fmt_digits_spec fuel n acc :
  0 ≤ n < 10 ^ Z.of_nat fuel →
  ∃ ds, fmt_digits fuel n acc = ds ++ acc ∧ all_digits ds = true ∧ (fuel ≠ O → ds ≠ []) ∧
    ∀ t z, parse_digits (ds ++ t) z = parse_digits t (z * 10 ^ Z.of_nat (length ds) + n).
Proof.
  revert n acc. induction fuel as [|fuel IH]; intros n acc Hn.
  - assert (n = 0) as -> by (simpl in Hn; lia). exists []. simpl. split_and!; try done.
    intros. f_equal. lia.
  - cbn [fmt_digits]. destruct (Z.ltb_spec n 10).
    + exists [digit n]. simpl. unfold is_digit. rewrite code_digit by lia. split_and!; [done| |done|].
      * destruct (Z.leb_spec 48 (48 + n)), (Z.leb_spec (48 + n) 57); simpl; lia.
      * intros t z. destruct (Z.leb_spec 48 (48 + n)), (Z.leb_spec (48 + n) 57); simpl; try lia.
        f_equal. lia.
    + rewrite Nat2Z.inj_succ, Z.pow_succ_r in Hn by lia.
      destruct (IH (n / 10) (digit (n mod 10) :: acc)) as (ds & E & Hd & Hne & Hp); [div_lia|].
      assert (0 ≤ n mod 10 ≤ 9) by div_lia.
      exists (ds ++ [digit (n mod 10)]). rewrite E, <- app_assoc. split_and!; [done| | |].
      * unfold all_digits in *. rewrite forallb_app, Hd. simpl. unfold is_digit.
        rewrite code_digit by done. lia.
      * intros _. by destruct ds.
      * intros t z. rewrite <- app_assoc, Hp, length_app. simpl. unfold is_digit.
        rewrite code_digit by done.
        destruct (Z.leb_spec 48 (48 + n mod 10)), (Z.leb_spec (48 + n mod 10) 57); simpl; try lia.
        f_equal. replace (Z.of_nat (length ds + 1)) with (Z.succ (Z.of_nat (length ds))) by lia.
        rewrite Z.pow_succ_r by lia. div_lia.
Qed.

Lemma log2_fuel n : 0 ≤ n → n < 10 ^ Z.of_nat (S (Z.to_nat (Z.log2 n))).
Proof.
  intros Hn. pose proof (Z.log2_nonneg n).
  replace (Z.of_nat (S (Z.to_nat (Z.log2 n)))) with (Z.succ (Z.log2 n)) by lia.
  destruct (decide (n = 0)) as [->|]; [simpl; lia|].
  destruct (Z.log2_spec n) as [_ ?]; [lia|].
  eapply Z.lt_le_trans; [done|]. apply Z.pow_le_mono_l. lia.
Qed.

Lemma fmt_nat_spec n :
  0 ≤ n → all_digits (fmt_nat n) = true ∧ fmt_nat n ≠ [] ∧ parse_uint (fmt_nat n) = Some n.
Proof.
  intros Hn. unfold fmt_nat.
  destruct (fmt_digits_spec (S (Z.to_nat (Z.log2 n))) n []) as (ds & E & Hd & Hne & Hp).
  { split; [done|]. by apply log2_fuel. }
  rewrite E, app_nil_r. split_and!; [done|by apply Hne|].
  unfold parse_uint. specialize (Hp [] 0). rewrite app_nil_r in Hp. simpl in Hp.
  destruct ds; [by destruct (Hne ltac:(done))|]. by rewrite Hp.
Qed.

(** [ParseInt(FormatInt(z))] is [z] for every int64. *)
Lemma parse_format_int z : in_int64 z → parse_int (format_int z) = Some z.
Proof.
  intros Hz. unfold in_int64 in Hz. unfold format_int. destruct (Z.ltb_spec z 0).
  - destruct (fmt_nat_spec (- z)) as (_ & _ & Hp); [lia|]. simpl. rewrite Hp. simpl.
    rewrite Z.opp_involutive.
    destruct (Z.leb_spec int64_min z), (Z.leb_spec z int64_max); simpl; lia || done.
  - destruct (fmt_nat_spec z) as (Hd & Hne & Hp); [lia|].
    unfold parse_int. destruct (fmt_nat z) as [|a s] eqn:E; [done|].
    unfold all_digits in Hd. simpl in Hd. bprop. unfold is_digit in *.
    rewrite decide_False by (intros ->; vm_compute in H0; lia).
    rewrite decide_False by (intros ->; vm_compute in H0; lia).
    rewrite Hp. simpl.
    destruct (Z.leb_spec int64_min z), (Z.leb_spec z int64_max); simpl; lia || done.
Qed.

Lemma all_digits_plain s : all_digits s = true → forallb plain_byte s = true.
Proof.
  unfold all_digits. rewrite !forallb_forall. intros Hs a Ha. specialize (Hs a Ha).
  unfold is_digit in Hs. unfold plain_byte. lia.
Qed.

Lemma format_int_plain z : forallb plain_byte (format_int z) = true.
Proof.
  unfold format_int. destruct (Z.ltb_spec z 0).
  - destruct (fmt_nat_spec (- z)) as (Hd & _); [lia|]. simpl. by apply all_digits_plain.
  - destruct (fmt_nat_spec z) as (Hd & _); [lia|]. by apply all_digits_plain.
Qed.

(** ** Hexadecimal *)
Lemma hex_cons a s : hex (a :: s) = hex_digit (code a / 16) :: hex_digit (code a mod 16) :: hex s.
Proof. done. Qed.

Lemma code_hex_digit d : 0 ≤ d < 16 → code (hex_digit d) = if d <? 10 then 48 + d else 87 + d.
Proof. intros. unfold hex_digit. destruct (Z.ltb_spec d 10); rewrite code_byte_of; lia. Qed.

Lemma hex_digit_inj d e : 0 ≤ d < 16 → 0 ≤ e < 16 → hex_digit d = hex_digit e → d = e.
Proof.
  intros Hd He E. apply (f_equal code) in E. rewrite !code_hex_digit in E by done.
  destruct (Z.ltb_spec d 10), (Z.ltb_spec e 10); lia.
Qed.

#[export] Instance hex_inj : Inj (=) (=) hex.
Proof.
  intros s. induction s as [|a s IH]; intros [|b t]; [done| | |].
  - by rewrite hex_cons.
  - by rewrite hex_cons.
  - rewrite !hex_cons. intros [= E1 E2 E3]. pose proof (code_bounds a). pose proof (code_bounds b).
    apply hex_digit_inj in E1; [|div_lia..]. apply hex_digit_inj in E2; [|div_lia..].
    f_equal; [|by apply IH]. apply code_inj. div_lia.
Qed.

Lemma hex_no_bar s : "|"%char ∉ hex s.
Proof.
  induction s as [|a s IH]; [apply not_elem_of_nil|]. rewrite hex_cons, !not_elem_of_cons.
  pose proof (code_bounds a).
  split_and!; [..|done]; intros E; apply (f_equal code) in E;
    rewrite code_hex_digit in E by div_lia; split_if_in E; bprop;
    change (code "|"%char) with 124 in E; div_lia.
Qed.

(** ** Removing duplicates *)
Lemma elem_of_dedup_go seen l x : x ∈ dedup_go seen l ↔ x ∈ l ∧ x ∉ seen.
Proof.
  revert seen. induction l as [|y l IH]; intros seen; simpl; [set_solver|].
  case_decide; rewrite ?elem_of_cons, IH; [set_solver|].
  destruct (decide (x = y)); set_solver.
Qed.

Lemma elem_of_dedup l x : x ∈ dedup l ↔ x ∈ l.
Proof. unfold dedup. rewrite elem_of_dedup_go. set_solver. Qed.

Lemma NoDup_dedup_go seen l : NoDup (dedup_go seen l).
Proof.
  revert seen. induction l as [|y l IH]; intros seen; simpl; [constructor|].
  case_decide; [done|]. constructor; [|done]. rewrite elem_of_dedup_go. set_solver.
Qed.

Lemma NoDup_dedup l : NoDup (dedup l).
Proof. apply NoDup_dedup_go. Qed.

Lemma dedup_go_id seen l : NoDup l → (∀ x, x ∈ l → x ∉ seen) → dedup_go seen l = l.
Proof.
  intros Hl. revert seen. induction Hl as [|x l Hx Hl IH]; intros seen Hs; simpl; [done|].
  rewrite decide_False by set_solver. by rewrite IH by set_solver.
Qed.

Lemma dedup_NoDup l : NoDup l → dedup l = l.
Proof. intros. apply dedup_go_id; [done|]. set_solver. Qed.

Lemma dedup_Forall P l : Forall P l → Forall P (dedup l).
Proof. rewrite !Forall_forall. intros H x. rewrite elem_of_dedup. apply H. Qed.

(** ** A concrete table: ASCII, Latin-1, basic Cyrillic, and the code points
    whose case mapping crosses into ASCII *)
Definition basic_lower (r : Z) : Z :=
  if (65 <=? r) && (r <=? 90) then r + 32
  else if (0xC0 <=? r) && (r <=? 0xDE) && negb (r =? 0xD7) then r + 32
  else if (0x410 <=? r) && (r <=? 0x42F) then r + 32
  else if (0x400 <=? r) && (r <=? 0x40F) then r + 80
  else if r =? 0x130 then 0x69
  else if r =? 0x212A then 0x6B
  else r.

Definition basic_upper (r : Z) : Z :=
  if (97 <=? r) && (r <=? 122) then r - 32
  else if (0xE0 <=? r) && (r <=? 0xFE) && negb (r =? 0xF7) then r - 32
  else if (0x430 <=? r) && (r <=? 0x44F) then r - 32
  else if (0x450 <=? r) && (r <=? 0x45F) then r - 80
  else if r =? 0x131 then 0x49
  else if r =? 0x17F then 0x53
  else r.

Definition basic_print (r : Z) : bool :=
  ((32 <=? r) && (r <=? 126)) || ((0xA1 <=? r) && (r <=? 0xFF) && negb (r =? 0xAD))
  || ((0x400 <=? r) && (r <=? 0x45F)).

Ltac table_lia :=
  intros; unfold basic_lower, basic_upper, ascii_lower, ascii_upper, valid_rune, surrogate,
    is_space, ascii_space in *;
  repeat match goal with
  | |- context [if ?b then _ else _] =>
      lazymatch b with context [if _ then _ else _] => fail | _ => destruct b eqn:? end
  end; lia.

Definition basic_unicode : UnicodeTables.
Proof.
  refine {| uni_lower := basic_lower; uni_upper := basic_upper; uni_print := basic_print |}; try table_lia.
  intros r Hr. unfold basic_upper. repeat split_if; bprop; lia.
Defined.

Example to_lower_cyrillic : @to_lower basic_unicode "ПРИВЕТ Ops" = "привет ops".
Proof. reflexivity. Qed.
Example trim_nbsp : trim_space (byte_of 0xC2 :: byte_of 0xA0 :: "a b" ++ [byte_of 9]) = "a b".
Proof. reflexivity. Qed.
Example fields_example : fields "  /alias  ops chatid1 " = ["/alias"; "ops"; "chatid1"].
Proof. reflexivity. Qed.
Example format_int_example : format_int (-73211480961715) = "-73211480961715".
Proof. reflexivity. Qed.
Example quote_example : @quote basic_unicode ("a" ++ [dquote; byte_of 10; byte_of 0xFF])
  = dquote :: "a\" ++ dquote :: "\n\xff" ++ [dquote].
Proof. reflexivity. Qed.

(** ** Normal forms of concatenations *)
Section norm_app.
Context `{UnicodeTables}.

Lemma runes_ascii_app s t : is_ascii s = true → runes (s ++ t) = (code <$> s) ++ runes t.
Proof.
  intros Hs. unfold runes. rewrite segs_ascii_app by done.
  by rewrite fmap_app, <- list_fmap_compose.
Qed.

Lemma norm_id_runes s : norm s = s ↔
  valid_utf8 s ∧ uni_lower <$> runes s = runes s ∧ trimmed is_space (runes s).
Proof.
  split.
  - intros Hs. split_and!.
    + rewrite <- Hs. apply valid_utf8_norm.
    + rewrite <- Hs at 1. rewrite <- runes_to_lower, to_lower_norm. by rewrite Hs.
    + rewrite <- Hs, runes_norm. apply trim_both_trimmed.
  - intros (Hv & Hl & Ht). rewrite <- to_lower_trim_space by done.
    rewrite trim_space_runes, trim_both_id by done.
    unfold to_lower. rewrite runes_encode by apply runes_valid. rewrite Hl. exact Hv.
Qed.

(** A plain non-empty prefix keeps a normal form normal. *)
Lemma norm_plain_app s d :
  s ≠ [] → forallb plain_byte s = true → norm d = d → norm (s ++ d) = s ++ d.
Proof.
  intros Hne Hs [Hv [Hl Ht]]%norm_id_runes. pose proof (plain_ascii s Hs) as Ha.
  apply norm_id_runes. rewrite runes_ascii_app by done. split_and!.
  - unfold valid_utf8, to_valid_utf8. rewrite runes_ascii_app by done.
    unfold encode. rewrite fmap_app, concat_app. fold (encode (code <$> s)).
    rewrite encode_ascii by done. f_equal. exact Hv.
  - rewrite fmap_app, Hl. f_equal. rewrite <- runes_ascii, <- runes_to_lower by done.
    by rewrite to_lower_plain.
  - assert (Forall (λ r, is_space r = false) (code <$> s)) as Hns.
    { apply Forall_fmap, Forall_forall. intros a Hin. apply plain_not_space.
      rewrite forallb_forall in Hs. by apply Hs, list_elem_of_In. }
    destruct Ht as [Hh Hla]. split; intros x Hx.
    + rewrite Forall_forall in Hns. apply Hns. destruct s; [done|]. simpl in *. set_solver.
    + rewrite last_app in Hx. destruct (last (runes d)) eqn:E.
      * apply Hla. congruence.
      * rewrite Forall_forall in Hns. apply Hns. by apply last_Some_elem_of.
Qed.
End norm_app.

(** ** The order on strings *)
Lemma bytes_ltb_irrefl s : bytes_ltb s s = false.
Proof. induction s as [|a s IH]; [done|]. simpl. rewrite IH. lia. Qed.

Lemma bytes_ltb_trans s t u : bytes_ltb s t = true → bytes_ltb t u = true → bytes_ltb s u = true.
Proof.
  revert t u. induction s as [|a s IH]; intros [|b t] [|c u]; simpl; try done.
  intros H1 H2. specialize (IH t u).
  destruct (bytes_ltb s t), (bytes_ltb t u); [rewrite IH by done|..]; lia.
Qed.

Lemma bytes_ltb_total s t : bytes_ltb s t = false → bytes_ltb t s = false → s = t.
Proof.
  revert t. induction s as [|a s IH]; intros [|b t]; simpl; try done. intros H1 H2.
  assert (code a = code b) as E by lia. rewrite E, Z.eqb_refl, Z.ltb_irrefl in *. simpl in *.
  f_equal; [by apply code_inj | by apply IH].
Qed.

Lemma bytes_ltb_neg s t u : bytes_ltb s t = false → bytes_ltb t u = false → bytes_ltb s u = false.
Proof.
  intros H1 H2. destruct (bytes_ltb s u) eqn:E; [|done]. exfalso.
  destruct (bytes_ltb t s) eqn:E1.
  - rewrite (bytes_ltb_trans t s u) in H2; done.
  - assert (s = t) as -> by by apply bytes_ltb_total. congruence.
Qed.

(** ** A rune below 128 was decoded from one byte *)
Lemma decode_rune_small a s :
  (decode_rune (a :: s)).1 < 128 → code a < 128 ∧ decode_rune (a :: s) = (code a, 1%nat).
Proof.
  unfold decode_rune. cbv zeta. pose proof (code_bounds a).
  destruct (Z.ltb_spec (code a) 128); [by intros _|].
  destruct s as [|a1 s]; [by unfold RuneError|]. pose proof (code_bounds a1).
  unfold second_ok, cont_byte.
  repeat match goal with
  | |- context [match ?s with [] => _ | _ :: _ => _ end] => is_var s; destruct s
  | |- context [if ?b then (_, _) else _] => destruct b eqn:?
  end; cbn [fst]; unfold RuneError; bprop; intros;
  repeat match goal with H : context [if ?b then _ else _] |- _ => destruct b eqn:? end; bprop; lia.
Qed.

Lemma runes_small_ascii s : Forall (λ r, r < 128) (runes s) → is_ascii s = true.
Proof.
  induction s as [|a s IH] using segs_ind; [done|].
  unfold runes in *. rewrite segs_step. rewrite fmap_cons. cbn [fst].
  intros [Hr Hs]%Forall_cons. apply decode_rune_small in Hr as [Ha E]. rewrite E in *.
  cbn [fst snd] in *. rewrite is_ascii_cons. apply andb_true_iff. split; [lia|].
  apply IH. exact Hs.
Qed.

Lemma runes_digits s : forallb is_digit (runes s) = all_digits s.
Proof.
  destruct (all_digits s) eqn:E.
  - pose proof (plain_ascii _ (all_digits_plain _ E)) as Ha.
    rewrite runes_ascii by done. unfold all_digits in E. rewrite forallb_forall in E |- *.
    intros r Hr. apply list_elem_of_In in Hr. apply list_elem_of_fmap in Hr as (a & -> & Hin).
    by apply E, list_elem_of_In.
  - destruct (forallb is_digit (runes s)) eqn:E'; [|done]. exfalso.
    assert (is_ascii s = true) as Ha.
    { apply runes_small_ascii, Forall_forall. intros r Hr. rewrite forallb_forall in E'.
      apply list_elem_of_In in Hr. specialize (E' r Hr). unfold is_digit in E'. lia. }
    rewrite runes_ascii in E' by done. unfold all_digits in E.
    assert (forallb (λ a, is_digit (code a)) s = true) as Hd; [|congruence].
    rewrite forallb_forall in E' |- *. intros a Hin. apply E', list_elem_of_In, list_elem_of_fmap.
    exists a. split; [done|]. by apply list_elem_of_In.
Qed.

(** Splitting and [existsb] *)
Lemma existsb_split {A} (P : A → Prop) `{∀ x, Decision (P x)} (l : list A) :
  existsb (λ x, bool_decide (P x)) l = bool_decide (Exists P l).
Proof.
  induction l as [|x l IH]; simpl.
  - done.
  - rewrite IH. apply eq_bool_prop_intro. rewrite orb_True, !bool_decide_spec, Exists_cons. done.
Qed.
