(* ===== verification/GoRuntime.v ===== *)
(** * The Go runtime: map iteration, [sort.Slice], [time]

    Go fixes neither the order in which [range] visits a map nor the order in
    which [sort.Slice] leaves elements that compare equal.  Both choices are a
    [GoRuntime]: the operations that depend on them take one, and their
    theorems hold for every one.  [stable_runtime] is a concrete choice. *)
From S2P Require Import Prelude GoStrings.

Open Scope Z_scope.

(** ** Comparators *)
Record StrictWeak {A} (less : A → A → bool) : Prop := {
  sw_irrefl x : less x x = false;
  sw_trans x y z : less x y = true → less y z = true → less x z = true;
  sw_neg x y z : less x y = false → less y z = false → less x z = false;
}.

(** Comparators that compare an integer key, ascending or descending. *)
Lemma strict_weak_key {A} (key : A → Z) : StrictWeak (λ x y, key x <? key y).
Proof. split; lia. Qed.
Lemma strict_weak_key_desc {A} (key : A → Z) : StrictWeak (λ x y, key y <? key x).
Proof. split; lia. Qed.
#[export] Hint Resolve strict_weak_key strict_weak_key_desc : go.

Class GoRuntime := {
  (** [for k, v := range m] *)
  map_range {K} {HE : EqDecision K} {HC : Countable K} {V} : gmap K V → list (K * V);
  map_range_perm {K} {HE : EqDecision K} {HC : Countable K} {V} (m : gmap K V) :
    map_range m ≡ₚ map_to_list m;
  (** [sort.Slice(l, less)] *)
  sort_slice {A} : (A → A → bool) → list A → list A;
  sort_slice_perm {A} (less : A → A → bool) l : sort_slice less l ≡ₚ l;
  sort_slice_sorted {A} (less : A → A → bool) l :
    StrictWeak less → StronglySorted (λ x y, less y x = false) (sort_slice less l);
}.

(** ** A concrete runtime: insertion sort, and the map's canonical order *)
Section insertion.
Context {A} (less : A → A → bool).

Fixpoint insert_sorted (x : A) (l : list A) : list A :=
  match l with
  | [] => [x]
  | y :: l' => if less y x then y :: insert_sorted x l' else x :: l
  end.

Definition insertion_sort (l : list A) : list A := foldr insert_sorted [] l.

Lemma insert_sorted_perm x l : insert_sorted x l ≡ₚ x :: l.
Proof.
  induction l as [|y l IH]; simpl; [done|]. split_if; [|done].
  rewrite IH. by constructor.
Qed.

Lemma insertion_sort_perm l : insertion_sort l ≡ₚ l.
Proof. induction l as [|x l IH]; simpl; [done|]. by rewrite insert_sorted_perm, IH. Qed.

Lemma insert_sorted_sorted x l :
  StrictWeak less →
  StronglySorted (λ x y, less y x = false) l →
  StronglySorted (λ x y, less y x = false) (insert_sorted x l).
Proof.
  intros [Hirr Htr Hneg]. induction 1 as [|y l Hl IH Hy]; simpl; [by repeat constructor|].
  destruct (less y x) eqn:E.
  - constructor; [done|]. rewrite insert_sorted_perm. constructor; [|done].
    destruct (less x y) eqn:E'; [|done]. pose proof (Htr x y x E' E) as Hx. by rewrite Hirr in Hx.
  - constructor; [by constructor|]. constructor; [done|].
    eapply Forall_impl; [apply Hy|]. intros z Hz. by apply (Hneg z y x).
Qed.

Lemma insertion_sort_sorted l :
  StrictWeak less → StronglySorted (λ x y, less y x = false) (insertion_sort l).
Proof. intros. induction l; simpl; [constructor|]. by apply insert_sorted_sorted. Qed.
End insertion.

Definition stable_runtime : GoRuntime := {|
  map_range K _ _ V m := map_to_list m;
  map_range_perm K _ _ V m := reflexivity _;
  sort_slice A less l := insertion_sort less l;
  sort_slice_perm A less l := insertion_sort_perm less l;
  sort_slice_sorted A less l H := insertion_sort_sorted less l H;
|}.

(** The same sort, visiting maps in the opposite order. *)
Program Definition reversed_runtime : GoRuntime := {|
  map_range K _ _ V m := reverse (map_to_list m);
  sort_slice A less l := insertion_sort less l;
  sort_slice_perm A less l := insertion_sort_perm less l;
  sort_slice_sorted A less l H := insertion_sort_sorted less l H;
|}.
Next Obligation. intros K HE HC V m. apply reverse_Permutation. Qed.

(** Consequences used by the components. *)
Section laws.
Context `{GoRuntime}.

Lemma elem_of_map_range `{Countable K} {V} (m : gmap K V) k v : (k, v) ∈ map_range m ↔ m !! k = Some v.
Proof. rewrite map_range_perm. apply elem_of_map_to_list. Qed.

Lemma NoDup_map_range_fst `{Countable K} {V} (m : gmap K V) : NoDup (map_range m).*1.
Proof. rewrite map_range_perm. apply NoDup_fst_map_to_list. Qed.

Lemma length_map_range `{Countable K} {V} (m : gmap K V) : length (map_range m) = size m.
Proof. rewrite map_range_perm. apply length_map_to_list. Qed.

Lemma length_sort_slice {A} (less : A → A → bool) l : length (sort_slice less l) = length l.
Proof. by rewrite sort_slice_perm. Qed.

Lemma elem_of_sort_slice {A} (less : A → A → bool) l x : x ∈ sort_slice less l ↔ x ∈ l.
Proof. by rewrite sort_slice_perm. Qed.
End laws.

Lemma NoDup_fst_filter {A B} (P : A * B → Prop) `{∀ x, Decision (P x)} (l : list (A * B)) :
  NoDup l.*1 → NoDup (filter P l).*1.
Proof.
  induction l as [|x l IH]; simpl; [done|]. intros [Hx Hl]%NoDup_cons.
  rewrite filter_cons. case_decide; simpl; [|auto]. apply NoDup_cons. split; [|auto].
  intros (y & E & [_ Hy]%list_elem_of_filter)%list_elem_of_fmap.
  apply Hx. rewrite E. by apply list_elem_of_fmap_2.
Qed.

(** The first [n] elements of a sorted list come before all others. *)
Lemma StronglySorted_take_drop {A} (R : A → A → Prop) n l x y :
  StronglySorted R l → x ∈ take n l → y ∈ drop n l → R x y.
Proof.
  intros Hs Hx Hy. rewrite <- (take_drop n l) in Hs.
  revert Hs Hx. generalize (take n l) as k. induction k as [|z k IH]; [set_solver|].
  simpl. intros [Hs Hz]%StronglySorted_inv [->|Hx]%elem_of_cons; [|by apply IH].
  rewrite Forall_forall in Hz. apply Hz. set_solver.
Qed.

(** ** [time]

    A [time.Time] is a number of nanoseconds since Go's zero time
    (0001-01-01T00:00:00Z); a [time.Duration] is an int64 of nanoseconds. *)
Abbreviation time := Z.
Abbreviation duration := Z.

Definition Millisecond : duration := 1000000.
Definition Second : duration := 1000 * Millisecond.
Definition Minute : duration := 60 * Second.
Definition Hour : duration := 60 * Minute.

Definition is_zero (t : time) : bool := t =? 0.
Definition before (t u : time) : bool := t <? u.
Definition after (t u : time) : bool := u <? t.
Definition time_add (t : time) (d : duration) : time := t + d.
(** [t.Sub(u)] saturates at the int64 bounds. *)
Definition time_sub (t u : time) : duration := Z.max int64_min (Z.min int64_max (t - u)).

(** Seconds between the zero time and the Unix epoch; [t.UnixNano()]. *)
Definition unix_epoch : time := 62135596800 * Second.
Definition unix_nano (t : time) : Z := wrap64 (t - unix_epoch).

(** Times [encoding/json] can write: years 0 to 9999. *)
Definition json_time_ok (t : time) : bool :=
  (- 366 * 24 * Hour <=? t) && (t <? 3652059 * 24 * Hour).
