(* ===== verification/GoTime.v ===== *)
(** * Text of durations and times: [time.Duration.String], [Round],
    [time.Time.Format(time.RFC3339)] for UTC times *)
From S2P Require Import Prelude GoStrings GoRuntime.

Open Scope Z_scope.
Open Scope go_scope.

Definition less_than_half (x y : Z) : bool := wrapu64 (wrapu64 x + wrapu64 x) <? wrapu64 y.

(** [d.Round(m)] *)
Definition Round (d m : duration) : duration :=
  if m <=? 0 then d else
  let r := Z.rem d m in
  if d <? 0 then
    let r := - r in
    if less_than_half r m then wrap64 (d + r)
    else let d1 := wrap64 (d - m + r) in if d1 <? d then d1 else int64_min
  else if less_than_half r m then d - r
  else let d1 := wrap64 (d + m - r) in if d <? d1 then d1 else int64_max.

(** [v] in decimal with at least [n] digits. *)
Definition pad (n : nat) (v : Z) : bytes :=
  replicate (n - length (fmt_nat v)) "0"%char ++ fmt_nat v.

(** The fraction [v / 10^prec] without trailing zeros, with its point. *)
Definition fmt_frac (prec : nat) (v : Z) : bytes :=
  if v =? 0 then [] else "." ++ rdrop_while (λ a, bool_decide (a = "0"%char)) (pad prec v).

(** [d.String()] *)
Definition duration_string (d : duration) : bytes :=
  let u := Z.abs d in
  (if d <? 0 then "-" else "") ++
  if u =? 0 then "0s"
  else if u <? 1000 then fmt_nat u ++ "ns"
  else if u <? Millisecond then fmt_nat (u / 1000) ++ fmt_frac 3 (u mod 1000) ++ "µs"
  else if u <? Second then fmt_nat (u / Millisecond) ++ fmt_frac 6 (u mod Millisecond) ++ "ms"
  else
    let s := u / Second in
    let m := s / 60 in
    let h := m / 60 in
    (if 0 <? h then fmt_nat h ++ "h" else "") ++
    (if 0 <? m then fmt_nat (m mod 60) ++ "m" else "") ++
    fmt_nat (s mod 60) ++ fmt_frac 9 (u mod Second) ++ "s".

(** Year and day of the year (from 0) of a day counted from 0001-01-01. *)
Definition year_day (d : Z) : Z * Z :=
  let n400 := d / 146097 in
  let d := d mod 146097 in
  let n100 := Z.min 3 (d / 36524) in
  let d := d - n100 * 36524 in
  let n4 := d / 1461 in
  let d := d mod 1461 in
  let n1 := Z.min 3 (d / 365) in
  (1 + 400 * n400 + 100 * n100 + 4 * n4 + n1, d - n1 * 365).

Definition is_leap (y : Z) : bool :=
  (y mod 4 =? 0) && (negb (y mod 100 =? 0) || (y mod 400 =? 0)).
Definition month_days (leap : bool) : list Z :=
  [31; if leap then 29 else 28; 31; 30; 31; 30; 31; 31; 30; 31; 30; 31].

(** Month and day of the month, both from 1. *)
Fixpoint month_day (months : list Z) (m yday : Z) : Z * Z :=
  match months with
  | n :: months => if yday <? n then (m, yday + 1) else month_day months (m + 1) (yday - n)
  | [] => (m, yday + 1)
  end.

Definition rfc3339 (t : time) : bytes :=
  let day := t / (24 * Hour) in
  let s := t mod (24 * Hour) / Second in
  let '(y, yd) := year_day day in
  let '(m, d) := month_day (month_days (is_leap y)) 1 yd in
  (if y <? 0 then "-" else "") ++ pad 4 (Z.abs y) ++ "-" ++ pad 2 m ++ "-" ++ pad 2 d ++ "T" ++
  pad 2 (s / 3600) ++ ":" ++ pad 2 (s / 60 mod 60) ++ ":" ++ pad 2 (s mod 60) ++ "Z".

(** Examples from the Go documentation and known dates. *)
Example duration_examples :
  (duration_string <$> [0; 1; 1100; 2200000; 3300 * Millisecond; 4 * Minute + 5 * Second;
     4 * Minute + 5001 * Millisecond; 5 * Hour + 6 * Minute + 7001 * Millisecond; - 1500 * Millisecond]) =
  ["0s"; "1ns"; "1.1µs"; "2.2ms"; "3.3s"; "4m5s"; "4m5.001s"; "5h6m7.001s"; "-1.5s"].
Proof. vm_compute. reflexivity. Qed.
Example round_examples :
  ((λ d, duration_string (Round d Second)) <$> [1499 * Millisecond; 1500 * Millisecond; - 1500 * Millisecond; 59999 * Millisecond]) =
  ["1s"; "2s"; "-2s"; "1m0s"].
Proof. vm_compute. reflexivity. Qed.
Example rfc3339_examples :
  (rfc3339 <$> [0; unix_epoch; unix_epoch + 951782400 * Second; unix_epoch + 1735689599 * Second]) =
  ["0001-01-01T00:00:00Z"; "1970-01-01T00:00:00Z"; "2000-02-29T00:00:00Z"; "2024-12-31T23:59:59Z"].
Proof. vm_compute. reflexivity. Qed.
