(* ===== verification/GoJson.v ===== *)
(** * JSON documents and files

    [encoding/json] is modelled at the level of documents: a [json] value is
    what the decoder sees once the text is parsed (strings are then valid
    UTF-8), and what the encoder writes.  The concrete syntax (indentation,
    escapes, base64, RFC 3339) is not modelled. *)
From S2P Require Import Prelude GoStrings GoRuntime.

Open Scope Z_scope.
Open Scope go_scope.

#[warnings="-register-all"]
Inductive json :=
  | JNull
  | JBool (b : bool)
  | JNum (n : Z)
  (** A number written with a fraction or an exponent. *)
  | JReal (literal : bytes)
  | JStr (s : bytes)
  | JArr (l : list json)
  | JObj (kvs : list (bytes * json)).

(** The kind a decoding error names. *)
Definition json_kind (v : json) : bytes :=
  match v with
  | JNull => "null" | JBool _ => "bool" | JNum _ | JReal _ => "number"
  | JStr _ => "string" | JArr _ => "array" | JObj _ => "object"
  end.

(** [json.Marshal] of a Go string: invalid UTF-8 becomes U+FFFD. *)
Definition marshal_string (s : bytes) : json := JStr (to_valid_utf8 s).

(** [json.Unmarshal(v, &s)] for [var s string]: [null] leaves [s] empty. *)
Definition unmarshal_string (v : json) : option bytes :=
  match v with JStr s => Some s | JNull => Some [] | _ => None end.

(** [json.Unmarshal(v, &l)] for [var l []string]. *)
Definition unmarshal_strings (v : json) : option (list bytes) :=
  match v with
  | JArr l => mapM unmarshal_string l
  | JNull => Some []
  | _ => None
  end.

(** [json.Unmarshal(v, &m)] for [var m map[string]json.RawMessage]: of two
    equal keys the later one wins. *)
Definition unmarshal_raw_map (v : json) : option (gmap bytes json) :=
  match v with
  | JObj kvs => Some (foldl (λ m kv, <[kv.1 := kv.2]> m) ∅ kvs)
  | JNull => Some ∅
  | _ => None
  end.

(** ** Decoding into structs

    A decoder takes the value and what the variable holds, and gives what it holds
    then and whether there was no error; after an error in one field the decoder
    goes on with the others. *)
Definition decoder (A : Type) : Type := json → A → A * bool.

Definition decode_string : decoder bytes := λ v s,
  match v with JStr t => (t, true) | JNull => (s, true) | _ => (s, false) end.
Definition decode_bool : decoder bool := λ v b,
  match v with JBool c => (c, true) | JNull => (b, true) | _ => (b, false) end.
Definition decode_int64 : decoder Z := λ v z,
  match v with
  | JNum n => if (int64_min <=? n) && (n <=? int64_max) then (n, true) else (z, false)
  | JNull => (z, true)
  | _ => (z, false)
  end.
(** A pointer; a nil one is given a [zero] value to decode into. *)
Definition decode_pointer {A} (zero : A) (d : decoder A) : decoder (option A) := λ v p,
  match v with
  | JNull => (None, true)
  | _ => let '(a, ok) := d v (default zero p) in (Some a, ok)
  end.
(** [[]json.RawMessage] *)
Definition decode_raw_list : decoder (list json) := λ v l,
  match v with JArr l' => (l', true) | JNull => ([], true) | _ => (l, false) end.

(** The key of an object names a field if it is equal to the field's name up to
    simple case folding; besides the ASCII letters the long s and the Kelvin sign
    fold to ASCII. *)
Definition fold_rune (r : Z) : Z :=
  if r =? 0x17F then code "S" else if r =? 0x212A then code "K" else ascii_upper r.
Definition same_key (key name : bytes) : bool :=
  bool_decide (fold_rune <$> runes key = fold_rune <$> runes name).

Definition field {A B} (name : bytes) (get : A → B) (set : B → A → A) (d : decoder B) : bytes * decoder A :=
  (name, λ v a, let '(b, ok) := d v (get a) in (set b a, ok)).

(** The pairs of the object in turn; keys that name no field are ignored. *)
Definition decode_pair {A} (fields : list (bytes * decoder A)) (st : A * bool) (kv : bytes * json) : A * bool :=
  match List.find (λ f, same_key kv.1 f.1) fields with
  | Some f => let '(a, ok) := f.2 kv.2 st.1 in (a, st.2 && ok)
  | None => st
  end.
Definition decode_struct {A} (fields : list (bytes * decoder A)) : decoder A := λ v a,
  match v with
  | JObj kvs => foldl (decode_pair fields) (a, true) kvs
  | JNull => (a, true)
  | _ => (a, false)
  end.

(** The content of a file holding a document of type [D]: no bytes, bytes that
    do not parse (with the decoder's error), or a document. *)
Inductive file_content (D : Type) :=
  | Blank
  | Malformed (e : bytes)
  | Doc (d : D).
Arguments Blank {D}.
Arguments Malformed {D} _.
Arguments Doc {D} _.

(** The outcome of [os.ReadFile]. *)
Inductive read_result (D : Type) :=
  | NotExist
  | ReadErr (e : bytes)
  | Read (c : file_content D).
Arguments NotExist {D}.
Arguments ReadErr {D} _.
Arguments Read {D} _.

Lemma mapM_unmarshal_strings l :
  Forall valid_utf8 l → mapM unmarshal_string (marshal_string <$> l) = Some l.
Proof. intros H. apply mapM_Some. induction H as [|s l Hs _ IH]; constructor; [|done]. simpl. by rewrite Hs. Qed.

(** The entries of a map in key order, as the encoder writes them. *)
Definition sorted_entries {V} (m : gmap bytes V) : list (bytes * V) :=
  insertion_sort (λ x y, bytes_ltb x.1 y.1) (map_to_list m).

Lemma sorted_entries_perm {V} (m : gmap bytes V) : sorted_entries m ≡ₚ map_to_list m.
Proof. apply insertion_sort_perm. Qed.

Lemma foldl_insert_lookup {V} (kvs : list (bytes * V)) (m : gmap bytes V) k :
  NoDup kvs.*1 →
  foldl (λ m kv, <[kv.1 := kv.2]> m) m kvs !! k =
    match (list_to_map kvs : gmap bytes V) !! k with Some v => Some v | None => m !! k end.
Proof.
  revert m. induction kvs as [|[k' v] kvs IH]; intros m; simpl; [by rewrite lookup_empty|].
  intros [Hk Hnd]%NoDup_cons. rewrite IH by done.
  destruct (decide (k = k')) as [->|Hne].
  - rewrite (not_elem_of_list_to_map_1 kvs) by done. by rewrite !lookup_insert_eq.
  - by rewrite !lookup_insert_ne by done.
Qed.

(** Reading back an object that was written from a map. *)
Lemma foldl_insert_map {V} (kvs : list (bytes * V)) (m : gmap bytes V) :
  kvs ≡ₚ map_to_list m → foldl (λ m kv, <[kv.1 := kv.2]> m) ∅ kvs = m.
Proof.
  intros Hp. assert (NoDup kvs.*1) as Hnd by (rewrite Hp; apply NoDup_fst_map_to_list).
  apply map_eq. intros k. rewrite foldl_insert_lookup by done. rewrite lookup_empty.
  rewrite <- (list_to_map_to_list m).
  rewrite (list_to_map_proper kvs (map_to_list m)) by done. by destruct (_ !! k).
Qed.
