(* ===== verification/Recipient.v ===== *)
(** * Recipient resolution: [internal/recipient/parser.go] and [alias.go]

    The alias table, its mutation by the bot's admin commands, its file, and
    the parser that turns a recipient address into MAX chat targets.  The
    [RWMutex] makes each operation atomic, so each is one function of the
    table.  A nil alias map reads like an empty one and is replaced by an empty
    one before it is written, so both are [∅]. *)
From S2P Require Import Prelude GoStrings GoRuntime GoJson.

Open Scope Z_scope.
Open Scope go_scope.

Record RecipientTarget := mkTarget {
  ChatID : bytes;
  Silent : bool;
  Local : bytes;
}.

Record ParsedRecipient := mkParsed {
  Targets : list RecipientTarget;
  RawLocal : bytes;
  RawAddr : bytes;
  SourceLocal : bytes;
  AliasUsed : bool;
}.

Record parser := mkParser {
  allowedDomain : bytes;
  aliases : gmap bytes (list bytes);
}.

Definition chatIDPrefix : bytes := "chatid".

(** ** Parsing *)
Section parse.
Context `{UnicodeTables}.

Definition NewParser (domain : bytes) (al : gmap bytes (list bytes)) : parser :=
  {| allowedDomain := to_lower (trim_space domain); aliases := al |}.

Definition hasFlag (flags target : bytes) : bool :=
  if decide (flags = []) then false
  else existsb (λ f, bool_decide (trim_space f = target)) (split "."%char flags).

Definition parsePrefixedChatID (value address : bytes) : res bytes :=
  let value := trim_space value in
  if decide (value = []) then Err ("chat id is empty: " ++ address) else
  let negative := has_prefix value "-" in
  let value := if negative then trim_prefix value "-" else value in
  if decide (negative = true ∧ value = []) then Err ("chat id is empty: " ++ address) else
  if forallb is_digit (runes value) then Ok (if negative then "-" ++ value else value)
  else Err ("invalid prefixed chat id: " ++ address).

Definition parseChatIDBase (base address : bytes) : res bytes :=
  if has_prefix base chatIDPrefix then
    parsePrefixedChatID (trim_prefix base chatIDPrefix) address
  else if contains base "!" || contains base "_" then
    Err ("thread addressing is not supported: " ++ address)
  else Err ("recipient must use chatid format: " ++ address).

(** The base and the flags of a local part: before and after the first dot. *)
Definition split_flags (local : bytes) : bytes * bytes :=
  match index_byte "."%char local with
  | Some idx => (take idx local, drop (S idx) local)
  | None => (local, [])
  end.

(** The body of [Parse]'s loop over the locals. *)
Definition parse_target (address targetLocal : bytes) : res RecipientTarget :=
  let '(base, flags) := split_flags targetLocal in
  chatID ← parseChatIDBase base address;
  if decide (chatID = []) then Err "chat id is empty"
  else Ok (mkTarget chatID (hasFlag flags "silent") targetLocal).

Definition Parse (p : parser) (address : bytes) : res ParsedRecipient :=
  let addr := trim_space (to_lower address) in
  match split "@"%char addr with
  | [local; domain] =>
    if decide (domain ≠ allowedDomain p) then Err ("unsupported domain: " ++ domain) else
    let mapped := aliases p !! local in
    let locals := default [local] mapped in
    targets ← mapM (parse_target address) locals;
    if decide (targets = []) then Err "no recipient targets resolved"
    else Ok {| Targets := targets; RawLocal := join "," locals; RawAddr := address;
               SourceLocal := local; AliasUsed := bool_decide (is_Some mapped) |}
  | _ => Err ("invalid recipient format: " ++ address)
  end.

Definition ValidateAliasTarget (local : bytes) : option bytes :=
  let value := trim_space (to_lower local) in
  if decide (value = []) then Some "alias target must not be empty" else
  match parseChatIDBase (split_flags value).1 value with
  | Ok _ => None
  | Err e => Some e
  end.

(** ** The alias table *)
Definition normalizeAliasTargets (targets : list bytes) : list bytes :=
  dedup (filter (λ t, t ≠ []) (norm <$> targets)).

Definition set_aliases (p : parser) (m : gmap bytes (list bytes)) : parser :=
  {| allowedDomain := allowedDomain p; aliases := m |}.

Definition SetAliasGroup (p : parser) (alias : bytes) (targets : list bytes) : parser :=
  let key := trim_space (to_lower alias) in
  if decide (key = [] ∨ targets = []) then p else
  let normalizedTargets := normalizeAliasTargets targets in
  if decide (normalizedTargets = []) then p
  else set_aliases p (<[key := normalizedTargets]> (aliases p)).

(** Both loops of the merge share [seen]: existing targets first. *)
Definition AddAliasTargets (p : parser) (alias : bytes) (targets : list bytes) : parser :=
  let key := trim_space (to_lower alias) in
  if decide (key = [] ∨ targets = []) then p else
  let toAdd := normalizeAliasTargets targets in
  if decide (toAdd = []) then p else
  let existing := default [] (aliases p !! key) in
  let merged := dedup (existing ++ toAdd) in
  if decide (merged = []) then p else set_aliases p (<[key := merged]> (aliases p)).

Definition RemoveAliasTargets (p : parser) (alias : bytes) (targets : list bytes) : parser :=
  let key := trim_space (to_lower alias) in
  if decide (key = [] ∨ targets = []) then p else
  let toRemove := normalizeAliasTargets targets in
  if decide (toRemove = []) then p else
  match aliases p !! key with
  | None => p
  | Some existing =>
    if decide (existing = []) then p else
    let updated := filter (λ item, item ∉ (list_to_set toRemove : gset bytes)) existing in
    if decide (updated = []) then set_aliases p (delete key (aliases p))
    else set_aliases p (<[key := updated]> (aliases p))
  end.

Definition DeleteAlias (p : parser) (alias : bytes) : parser :=
  let key := trim_space (to_lower alias) in
  if decide (key = []) then p else set_aliases p (delete key (aliases p)).

(** A deep copy. *)
Definition SnapshotAliases (p : parser) : gmap bytes (list bytes) := aliases p.

(** ** The alias file: [alias.go] *)
Definition parseAliasValue (value : json) : res (list bytes) :=
  match unmarshal_string value with
  | Some single =>
    let single := trim_space (to_lower single) in
    if decide (single = []) then Err "alias target must not be empty" else Ok [single]
  | None =>
    match unmarshal_strings value with
    | None => Err "alias target must be string or string[]"
    | Some l =>
      let normalized := dedup (filter (λ t, t ≠ []) (norm <$> l)) in
      if decide (normalized = []) then Err "alias target list must not be empty"
      else Ok normalized
    end
  end.

(** The loop of [LoadAliases] over the entries of [raw], in range order. *)
Fixpoint load_entries (raw : list (bytes * json)) (acc : gmap bytes (list bytes)) :
    res (gmap bytes (list bytes)) :=
  match raw with
  | [] => Ok acc
  | (alias, value) :: raw =>
    match parseAliasValue value with
    | Err e => Err ("invalid alias " ++ quote alias ++ ": " ++ e)
    | Ok targets =>
      let normalizedAlias := trim_space (to_lower alias) in
      if decide (normalizedAlias = [] ∨ targets = []) then load_entries raw acc
      else load_entries raw (<[normalizedAlias := targets]> acc)
    end
  end.

Definition LoadAliases `{GoRuntime} (file : read_result json) : res (gmap bytes (list bytes)) :=
  match file with
  | NotExist => Ok ∅
  | ReadErr e => Err e
  | Read Blank => Ok ∅
  | Read (Malformed e) => Err e
  | Read (Doc d) =>
    match unmarshal_raw_map d with
    | None => Err ("json: cannot unmarshal " ++ json_kind d ++
                 " into Go value of type map[string]json.RawMessage")
    | Some raw => load_entries (map_range raw) ∅
    end
  end.

(** [MkdirAll], then [WriteFile] in place: the directory step may fail and
    leave the file alone, the write may fail and leave anything behind. *)
Inductive SaveIO :=
  | SaveOk
  | SaveMkdirErr (e : bytes)
  | SaveWriteErr (e : bytes) (left_behind : file_content json).

Definition aliases_doc (m : gmap bytes (list bytes)) : json :=
  JObj ((λ kv, (to_valid_utf8 kv.1, JArr (marshal_string <$> kv.2))) <$> sorted_entries m).

Definition SaveAliases (io : SaveIO) (file : read_result json) (m : gmap bytes (list bytes)) :
    option bytes * read_result json :=
  match io with
  | SaveOk => (None, Read (Doc (aliases_doc m)))
  | SaveMkdirErr e => (Some e, file)
  | SaveWriteErr e left_behind => (Some e, Read left_behind)
  end.
End parse.

(** * Specification of the address grammar *)

(** A decimal chat id with an optional minus sign. *)
Inductive chat_id_syntax : bytes → Prop :=
  | chat_id_pos ds : ds ≠ [] → all_digits ds = true → chat_id_syntax ds
  | chat_id_neg ds : ds ≠ [] → all_digits ds = true → chat_id_syntax ("-" ++ ds).

(** [names_target local t]: the local part [chatid<id>] or
    [chatid<id>.<flags>] names the chat [<id>], silently iff one of the
    dot-separated flags is [silent]. *)
Inductive names_target (local : bytes) : RecipientTarget → Prop :=
  | names_target_intro rest flags :
      "."%char ∉ rest →
      local = "chatid" ++ rest ∧ flags = [] ∨ local = "chatid" ++ rest ++ "." ++ flags →
      chat_id_syntax (trim_space rest) →
      names_target local
        (mkTarget (trim_space rest)
           (bool_decide (("silent" : bytes) ∈ trim_space <$> split "."%char flags)) local).

(** What a parse of [address] must return, stated on the table. *)
Inductive resolves `{UnicodeTables} (p : parser) (address : bytes) : ParsedRecipient → Prop :=
  | resolves_intro local locals targets :
      norm address = local ++ "@" ++ allowedDomain p →
      "@"%char ∉ local → "@"%char ∉ allowedDomain p →
      locals = default [local] (aliases p !! local) →
      locals ≠ [] →
      Forall2 names_target locals targets →
      resolves p address
        {| Targets := targets; RawLocal := join "," locals; RawAddr := address;
           SourceLocal := local; AliasUsed := bool_decide (is_Some (aliases p !! local)) |}.

(** The invariant of an alias table. *)
Definition alias_targets_wf `{UnicodeTables} (ts : list bytes) : Prop :=
  ts ≠ [] ∧ NoDup ts ∧ Forall (λ t, norm t = t ∧ t ≠ []) ts.
Definition aliases_wf `{UnicodeTables} (m : gmap bytes (list bytes)) : Prop :=
  map_Forall (λ k ts, norm k = k ∧ k ≠ [] ∧ alias_targets_wf ts) m.

(** The operations of the [AliasAdmin] interface, and their abstract meaning
    on a table of target sets. *)
Inductive alias_op :=
  | OpSet (alias : bytes) (targets : list bytes)
  | OpAdd (alias : bytes) (targets : list bytes)
  | OpRemove (alias : bytes) (targets : list bytes)
  | OpDelete (alias : bytes).

Definition apply_op `{UnicodeTables} (p : parser) (o : alias_op) : parser :=
  match o with
  | OpSet a ts => SetAliasGroup p a ts
  | OpAdd a ts => AddAliasTargets p a ts
  | OpRemove a ts => RemoveAliasTargets p a ts
  | OpDelete a => DeleteAlias p a
  end.

Definition norm_set `{UnicodeTables} (ts : list bytes) : gset bytes :=
  list_to_set (norm <$> ts) ∖ {[ [] ]}.

(** An alias with no targets left is no alias. *)
Definition put_targets (k : bytes) (s : gset bytes) (m : gmap bytes (gset bytes)) :=
  if decide (s = ∅) then delete k m else <[k := s]> m.

Definition spec_op `{UnicodeTables} (m : gmap bytes (gset bytes)) (o : alias_op) :
    gmap bytes (gset bytes) :=
  match o with
  | OpSet a ts =>
    if decide (norm a = [] ∨ norm_set ts = ∅) then m else <[norm a := norm_set ts]> m
  | OpAdd a ts =>
    if decide (norm a = [] ∨ norm_set ts = ∅) then m
    else <[norm a := default ∅ (m !! norm a) ∪ norm_set ts]> m
  | OpRemove a ts =>
    if decide (norm a = []) then m
    else match m !! norm a with
         | Some s => put_targets (norm a) (s ∖ norm_set ts) m
         | None => m
         end
  | OpDelete a => if decide (norm a = []) then m else delete (norm a) m
  end.

Definition alias_sets (m : gmap bytes (list bytes)) : gmap bytes (gset bytes) :=
  (list_to_set : list bytes → gset bytes) <$> m.

(** * Lemmas *)
Section lemmas.
Context `{UnicodeTables}.

Lemma split_flags_spec local :
  ∃ base flags, split_flags local = (base, flags) ∧ "."%char ∉ base ∧
    (local = base ∧ flags = [] ∨ local = base ++ "." ++ flags).
Proof.
  unfold split_flags. destruct (index_byte _ local) as [i|] eqn:E.
  - apply index_byte_Some in E as [E Hi]. eauto 10.
  - apply index_byte_None in E. eauto 10.
Qed.

Lemma split_flags_unique local base flags :
  "."%char ∉ base → (local = base ∧ flags = [] ∨ local = base ++ "." ++ flags) →
  split_flags local = (base, flags).
Proof.
  unfold split_flags. intros Hb [[-> ->]| ->].
  - by rewrite (proj2 (index_byte_None _ base) Hb).
  - simpl app. rewrite index_byte_app by done. rewrite take_app_length.
    rewrite (drop_app_ge base) by lia. by replace (S (length base) - length base)%nat with 1%nat by lia.
Qed.

Lemma hasFlag_spec flags target :
  target ≠ [] → hasFlag flags target = bool_decide (target ∈ trim_space <$> split "."%char flags).
Proof.
  intros Ht. unfold hasFlag. case_decide as Hf.
  - subst. symmetry. apply bool_decide_eq_false. simpl. change (trim_space []) with ([] : bytes).
    set_solver.
  - rewrite existsb_split. apply bool_decide_ext. rewrite Exists_exists, list_elem_of_fmap.
    naive_solver.
Qed.

Lemma has_prefix_minus_digit a s :
  is_digit (code a) = true → has_prefix (a :: s) "-" = false.
Proof.
  intros Ha. simpl. rewrite bool_decide_eq_false_2; [done|]. intros ->. by vm_compute in Ha.
Qed.

Lemma all_digits_minus ds : all_digits ("-" ++ ds) = false.
Proof. done. Qed.

Lemma parsePrefixedChatID_Ok value address id :
  parsePrefixedChatID value address = Ok id ↔ trim_space value = id ∧ chat_id_syntax id.
Proof.
  unfold parsePrefixedChatID. rewrite !runes_digits. generalize (trim_space value) as v. intros v.
  destruct (decide (v = [])) as [->|Hne].
  { split; [done|]. intros [<- Hs]. by inversion Hs. }
  destruct v as [|a v]; [done|].
  destruct (has_prefix (a :: v) "-") eqn:Hp.
  - apply has_prefix_inv in Hp as [ds E]. rewrite E. clear E Hne. cbn match.
    rewrite trim_prefix_app.
    destruct (decide (true = true ∧ ds = [])) as [[_ ->]|Hds].
    { split; [done|]. intros [<- Hs]. by inversion Hs; subst. }
    destruct (all_digits ds) eqn:Hd.
    + split; [|naive_solver]. intros [= <-]. split; [done|]. apply (chat_id_neg ds); naive_solver.
    + split; [done|]. intros [<- Hs]. inversion Hs; subst; pose proof (all_digits_minus ds); congruence.
  - rewrite decide_False by naive_solver.
    destruct (all_digits (a :: v)) eqn:Hd.
    + split; [|naive_solver]. intros [= <-]. split; [done|]. by constructor.
    + split; [done|]. intros [<- Hs]. inversion Hs as [|ds]; subst; [congruence|].
      pose proof (has_prefix_app "-" v) as Hp'. simpl app in Hp'. congruence.
Qed.

Lemma parseChatIDBase_Ok base address id :
  parseChatIDBase base address = Ok id ↔
  ∃ rest, base = "chatid" ++ rest ∧ trim_space rest = id ∧ chat_id_syntax id.
Proof.
  unfold parseChatIDBase. destruct (has_prefix base chatIDPrefix) eqn:Hp.
  - apply has_prefix_inv in Hp as [rest ->]. rewrite trim_prefix_app, parsePrefixedChatID_Ok.
    split; [by eauto|]. intros (rest' & E & ?). by simplify_list_eq.
  - split.
    + by case_match.
    + intros (rest & -> & _). by rewrite has_prefix_app in Hp.
Qed.

Lemma chat_id_syntax_ne id : chat_id_syntax id → id ≠ [].
Proof. by intros []. Qed.

Lemma parse_target_Ok address local t :
  parse_target address local = Ok t ↔ names_target local t.
Proof.
  unfold parse_target. split.
  - destruct (split_flags_spec local) as (base & flags & -> & Hb & Hl). simpl.
    destruct (parseChatIDBase base address) as [id|e] eqn:Ep; simpl; [|done].
    apply parseChatIDBase_Ok in Ep as (rest & -> & <- & Hid).
    rewrite decide_False by by apply chat_id_syntax_ne.
    rewrite hasFlag_spec by done. intros [= <-].
    apply names_target_intro; [set_solver| by rewrite <- app_assoc in Hl | done].
  - intros [rest flags Hr Hl Hid].
    rewrite (split_flags_unique local ("chatid" ++ rest) flags) by
      (set_solver || by rewrite <- app_assoc).
    assert (parseChatIDBase ("chatid" ++ rest) address = Ok (trim_space rest)) as ->
      by (apply parseChatIDBase_Ok; eauto).
    simpl. rewrite decide_False by by apply chat_id_syntax_ne. by rewrite hasFlag_spec.
Qed.

Lemma mapM_res_Ok {A B} (f : A → res B) l k :
  mapM f l = Ok k ↔ Forall2 (λ x y, f x = Ok y) l k.
Proof.
  revert k. induction l as [|x l IH]; intros k; simpl.
  - split; [by intros [= <-] | by intros ->%Forall2_nil_inv_l].
  - destruct (f x) as [y|e] eqn:Hx; simpl.
    + destruct (mapM f l) as [k'|e] eqn:Hm; simpl; split; try done.
      * intros [= <-]. constructor; [done|]. by apply IH.
      * inversion 1 as [|? y' ? k'' Hy Hk]; subst.
        apply IH in Hk. rewrite Hx in Hy. by simplify_eq.
      * inversion 1 as [|? y' ? k'' Hy Hk]; subst. by apply IH in Hk.
    + split; [done|]. inversion 1; congruence.
Qed.
End lemmas.

(** ** The alias table *)
Section table.
Context `{UnicodeTables}.

Lemma elem_of_normalize ts x : x ∈ normalizeAliasTargets ts ↔ x ∈ norm <$> ts ∧ x ≠ [].
Proof. unfold normalizeAliasTargets. rewrite elem_of_dedup, list_elem_of_filter. tauto. Qed.

Lemma normalize_Forall ts : Forall (λ t, norm t = t ∧ t ≠ []) (normalizeAliasTargets ts).
Proof.
  apply Forall_forall. intros x [Hx Hne]%elem_of_normalize.
  apply list_elem_of_fmap in Hx as (t & -> & _). by rewrite norm_idemp.
Qed.

Lemma normalize_wf ts : normalizeAliasTargets ts ≠ [] → alias_targets_wf (normalizeAliasTargets ts).
Proof. intros. unfold alias_targets_wf. split_and!; [done | apply NoDup_dedup | apply normalize_Forall]. Qed.

Lemma list_to_set_normalize ts : list_to_set (normalizeAliasTargets ts) = norm_set ts.
Proof.
  apply set_eq. intros x. unfold norm_set.
  rewrite elem_of_list_to_set, elem_of_normalize, elem_of_difference, elem_of_list_to_set.
  set_solver.
Qed.

Lemma normalize_nil ts : normalizeAliasTargets ts = [] ↔ norm_set ts = ∅.
Proof.
  rewrite <- list_to_set_normalize.
  destruct (normalizeAliasTargets ts) as [|t l]; [by split|]. split; [done|]. set_solver.
Qed.

Lemma norm_set_nil : norm_set [] = ∅.
Proof. unfold norm_set. set_solver. Qed.

Lemma aliases_wf_insert m k ts :
  aliases_wf m → norm k ≠ [] → alias_targets_wf ts → aliases_wf (<[norm k := ts]> m).
Proof. intros Hm Hk Hts. apply map_Forall_insert_2; [|done]. by rewrite norm_idemp. Qed.

Lemma aliases_wf_lookup m k ts : aliases_wf m → m !! k = Some ts → alias_targets_wf ts.
Proof. intros Hm Hk. by apply Hm in Hk as (_ & _ & ?). Qed.

Lemma merge_wf ts us :
  Forall (λ t, norm t = t ∧ t ≠ []) ts → alias_targets_wf us → alias_targets_wf (dedup (ts ++ us)).
Proof.
  intros Hts (Hne & _ & Hus). unfold alias_targets_wf. split_and!.
  - destruct us as [|u us]; [done|]. intros E. apply (not_elem_of_nil u).
    rewrite <- E, elem_of_dedup. set_solver.
  - apply NoDup_dedup.
  - apply dedup_Forall. by apply Forall_app.
Qed.

Lemma filter_wf ts (P : bytes → Prop) `{∀ x, Decision (P x)} :
  alias_targets_wf ts → filter P ts ≠ [] → alias_targets_wf (filter P ts).
Proof.
  intros (_ & Hnd & Hf) Hne. unfold alias_targets_wf. split_and!; [done | by apply NoDup_filter |].
  rewrite Forall_forall in *. intros x [_ Hx]%list_elem_of_filter. by apply Hf.
Qed.

(** The two early returns of the mutators are one guard. *)
Lemma alias_guard {X} (a : bytes) (ts : list bytes) (x y : X) :
  (if decide (norm a = [] ∨ ts = []) then x
   else if decide (normalizeAliasTargets ts = []) then x else y)
  = if decide (norm a = [] ∨ norm_set ts = ∅) then x else y.
Proof.
  pose proof (normalize_nil ts).
  assert (ts = [] → norm_set ts = ∅) by (intros ->; apply norm_set_nil).
  repeat case_decide; naive_solver.
Qed.

Lemma list_to_set_dedup ts : list_to_set (dedup ts) = (list_to_set ts : gset bytes).
Proof. apply set_eq. intros x. by rewrite !elem_of_list_to_set, elem_of_dedup. Qed.

Lemma alias_sets_insert k ts m :
  alias_sets (<[k := ts]> m) = <[k := list_to_set ts]> (alias_sets m).
Proof. apply fmap_insert. Qed.

Lemma alias_sets_delete k m : alias_sets (delete k m) = delete k (alias_sets m).
Proof. apply fmap_delete. Qed.

Lemma alias_sets_lookup k m : alias_sets m !! k = list_to_set <$> m !! k.
Proof. apply lookup_fmap. Qed.

(** Removing targets from one alias, on the abstract table. *)
Lemma remove_targets_spec m k ts us :
  m !! k = Some us → us ≠ [] →
  alias_sets
    (if decide (filter (λ item, item ∉ (list_to_set ts : gset bytes)) us = []) then delete k m
     else <[k := filter (λ item, item ∉ (list_to_set ts : gset bytes)) us]> m)
  = put_targets k (list_to_set us ∖ list_to_set ts) (alias_sets m).
Proof.
  intros Hk Hne.
  assert (list_to_set (filter (λ item, item ∉ (list_to_set ts : gset bytes)) us)
          = (list_to_set us ∖ list_to_set ts : gset bytes)) as Hset.
  { apply set_eq. intros x. rewrite elem_of_difference, !elem_of_list_to_set, list_elem_of_filter.
    rewrite elem_of_list_to_set. tauto. }
  unfold put_targets. rewrite <- Hset.
  destruct (filter _ us) as [|u l].
  - rewrite !decide_True by done. apply alias_sets_delete.
  - rewrite !decide_False by set_solver. apply alias_sets_insert.
Qed.
End table.


(** Expose the normal forms and merge the guards of an alias operation. *)
Ltac alias_unfold :=
  unfold SetAliasGroup, AddAliasTargets, RemoveAliasTargets, DeleteAlias; cbv zeta;
  repeat match goal with |- context [trim_space (to_lower ?a)] => fold (norm a) end;
  rewrite ?alias_guard.

Lemma resolves_Parse `{UnicodeTables} p address pr : resolves p address pr → Parse p address = Ok pr.
Proof.
  intros [local locals ts En Hl Hd Hls Hne Hts]. unfold Parse. fold (norm address). rewrite En. simpl app.
  rewrite split_app, split_notin by done.
  rewrite decide_False by naive_solver.
  assert (mapM (parse_target address) locals = Ok ts) as Em.
  { apply mapM_res_Ok. eapply Forall2_impl; [done|]. intros ??. apply parse_target_Ok. }
  rewrite <- Hls, Em. simpl. rewrite decide_False; [done|]. intros ->.
  by apply Forall2_nil_inv_r in Hts.
Qed.

(** C10. Recipient parsing is sound and complete for the address grammar:
    [Parse] returns a result exactly when the trimmed, lower-cased address is
    [local@domain] for the configured domain, every local part the alias table
    maps [local] to (or [local] itself) reads [chatid<id>[.flags]], and then it
    returns one target per local part, in order, with that id and that flag. *)
Theorem Parse_resolves `{UnicodeTables} p address pr :
  Parse p address = Ok pr ↔ resolves p address pr.
Proof.
  split; [|apply resolves_Parse]. unfold Parse. fold (norm address).
  destruct (split "@"%char (norm address)) as [|local [|domain [|]]] eqn:Es; try done.
  apply split_two in Es as (En & Hl & Hd).
  case_decide as Hdom; [done|]. subst domain.
  destruct (mapM _ _) as [ts|e] eqn:Em; simpl; [|done].
  apply mapM_res_Ok in Em. case_decide as Hts; [done|]. intros [= <-].
  eapply resolves_intro; try done.
  + intros E. rewrite E in Em. by apply Forall2_nil_inv_l in Em.
  + eapply Forall2_impl; [done|]. intros ??. apply parse_target_Ok.
Qed.

Lemma apply_op_wf `{UnicodeTables} p o :
  aliases_wf (aliases p) → aliases_wf (aliases (apply_op p o)).
Proof.
  intros Hp. destruct o as [a ts|a ts|a ts|a]; simpl; alias_unfold; case_decide as Hg; try done; simpl.
  - apply aliases_wf_insert; [done|naive_solver|]. apply normalize_wf. rewrite normalize_nil. naive_solver.
  - assert (alias_targets_wf (dedup (default [] (aliases p !! norm a) ++ normalizeAliasTargets ts))).
    { apply merge_wf; [|apply normalize_wf; rewrite normalize_nil; naive_solver].
      destruct (aliases p !! norm a) as [us|] eqn:E; simpl; [|constructor].
      by apply (aliases_wf_lookup _ _ _ Hp) in E as (_ & _ & ?). }
    case_decide; [done|]. apply aliases_wf_insert; naive_solver.
  - destruct (aliases p !! norm a) as [us|] eqn:E; [|done]. repeat case_decide; simpl; try done.
    + by apply map_Forall_delete.
    + apply aliases_wf_insert; [done|naive_solver|].
      apply filter_wf; [|done]. by eapply aliases_wf_lookup.
  - by apply map_Forall_delete.
Qed.

(** Every operation of the alias admin interface keeps the alias table
    well formed: names and targets in normal form and non-empty, every alias
    with at least one target and no target twice. *)
Theorem alias_op_preserves_wf `{UnicodeTables} p o :
  aliases_wf (aliases p) → aliases_wf (aliases (apply_op p o)).
Proof. apply apply_op_wf. Qed.

(** C30. The alias operations implement set operations: on a well-formed table,
    [SetAliasGroup] replaces the targets of an alias, [AddAliasTargets] adds a
    set, [RemoveAliasTargets] subtracts one and drops an alias left without
    targets, and [DeleteAlias] drops an alias (all after normalization). *)
Theorem alias_op_refines_spec `{UnicodeTables} p o :
  aliases_wf (aliases p) →
  alias_sets (aliases (apply_op p o)) = spec_op (alias_sets (aliases p)) o.
Proof.
  intros Hp. destruct o as [a ts|a ts|a ts|a]; simpl; alias_unfold; case_decide as Hg; try done; simpl.
  - by rewrite alias_sets_insert, list_to_set_normalize.
  - rewrite alias_sets_lookup.
    assert (dedup (default [] (aliases p !! norm a) ++ normalizeAliasTargets ts) ≠ []) as Hd.
    { intros E. apply Hg. right. rewrite <- normalize_nil. destruct (normalizeAliasTargets ts) as [|u us]; [done|].
      exfalso. apply (not_elem_of_nil u). rewrite <- E, elem_of_dedup. set_solver. }
    rewrite decide_False by done. simpl.
    rewrite alias_sets_insert, list_to_set_dedup, list_to_set_app_L, list_to_set_normalize.
    by destruct (aliases p !! norm a).
  - case_decide as Ha; [done|]. rewrite alias_sets_lookup.
    destruct (aliases p !! norm a) as [us|] eqn:E; [|done]. simpl.
    destruct Hg as [?|Hg]; [done|]. pose proof (aliases_wf_lookup _ _ _ Hp E) as (Hne & _).
    unfold put_targets. rewrite Hg, difference_empty_L, decide_False by (destruct us; set_solver).
    rewrite insert_id; [done|]. by rewrite alias_sets_lookup, E.
  - rewrite decide_False by naive_solver. rewrite alias_sets_lookup.
    destruct (aliases p !! norm a) as [us|] eqn:E; [|done]. simpl.
    pose proof (aliases_wf_lookup _ _ _ Hp E) as (Hne & _).
    rewrite decide_False by done. rewrite <- list_to_set_normalize, <- remove_targets_spec by done.
    by case_decide.
  - apply alias_sets_delete.
Qed.

(** ** The alias file *)
Section file.
Context `{UnicodeTables} `{GoRuntime}.

Lemma parseAliasValue_wf v ts : parseAliasValue v = Ok ts → alias_targets_wf ts.
Proof.
  unfold parseAliasValue. destruct (unmarshal_string v) as [s|].
  - fold (norm s). case_decide as Hs; [done|]. intros [= <-]. unfold alias_targets_wf. split_and!.
    + done.
    + apply NoDup_singleton.
    + apply Forall_singleton. by rewrite norm_idemp.
  - destruct (unmarshal_strings v) as [l|]; [|done]. fold (normalizeAliasTargets l).
    case_decide; [done|]. intros [= <-]. by apply normalize_wf.
Qed.

Lemma load_entries_wf raw acc m : load_entries raw acc = Ok m → aliases_wf acc → aliases_wf m.
Proof.
  revert acc. induction raw as [|[a v] raw IH]; intros acc; simpl; [by intros [= <-]|].
  destruct (parseAliasValue v) as [ts|] eqn:E; [|done]. fold (norm a). case_decide as Hg; [by apply IH|].
  intros Hl Hacc. eapply IH; [done|]. apply aliases_wf_insert; [done|naive_solver|].
  by eapply parseAliasValue_wf.
Qed.

Lemma norm_valid_utf8 s : norm s = s → valid_utf8 s.
Proof. intros <-. apply valid_utf8_norm. Qed.

Lemma parseAliasValue_saved ts :
  alias_targets_wf ts → parseAliasValue (JArr (marshal_string <$> ts)) = Ok ts.
Proof.
  intros (Hne & Hnd & Hts). unfold parseAliasValue. cbn [unmarshal_string unmarshal_strings].
  rewrite mapM_unmarshal_strings.
  2: { eapply Forall_impl; [exact Hts|]. intros t [Ht _]. by apply norm_valid_utf8. }
  assert (filter (λ t, t ≠ []) (norm <$> ts) = ts) as ->.
  { clear Hne Hnd. induction Hts as [|t ts [Ht Hne] _ IH]; [done|]. rewrite fmap_cons, filter_cons, Ht.
    by rewrite decide_True, IH. }
  rewrite dedup_NoDup by done. by rewrite decide_False.
Qed.

Definition saved_entry (kv : bytes * list bytes) : bytes * json :=
  (kv.1, JArr (marshal_string <$> kv.2)).

Lemma load_entries_saved l acc :
  Forall (λ kv, norm kv.1 = kv.1 ∧ kv.1 ≠ [] ∧ alias_targets_wf kv.2) l →
  load_entries (saved_entry <$> l) acc = Ok (foldl (λ m kv, <[kv.1 := kv.2]> m) acc l).
Proof.
  intros Hl. revert acc. induction Hl as [|[k ts] l (Hk & Hne & Hts) _ IH]; intros acc; [done|].
  cbn [fmap list_fmap saved_entry load_entries fst snd] in *. rewrite parseAliasValue_saved by done.
  fold (norm k). rewrite Hk, decide_False by (destruct Hts; naive_solver). apply IH.
Qed.

Lemma aliases_wf_entries m l :
  aliases_wf m → l ≡ₚ map_to_list m →
  Forall (λ kv, norm kv.1 = kv.1 ∧ kv.1 ≠ [] ∧ alias_targets_wf kv.2) l.
Proof.
  intros Hm Hl. apply Forall_forall. intros [k ts] Hin. rewrite Hl in Hin.
  apply elem_of_map_to_list in Hin. by apply Hm in Hin.
Qed.

Lemma unmarshal_aliases_doc m :
  aliases_wf m →
  unmarshal_raw_map (aliases_doc m) = Some ((λ ts, JArr (marshal_string <$> ts)) <$> m).
Proof.
  intros Hm. unfold aliases_doc. simpl. f_equal.
  pose proof (aliases_wf_entries m _ Hm (sorted_entries_perm m)) as Hf.
  replace ((λ kv, (to_valid_utf8 kv.1, JArr (marshal_string <$> kv.2))) <$> sorted_entries m)
    with (saved_entry <$> sorted_entries m).
  2: { apply list_fmap_ext. intros i [k ts] Hin%list_elem_of_lookup_2. rewrite Forall_forall in Hf.
       apply Hf in Hin as [Hk _]. simpl in *. unfold saved_entry. simpl. f_equal.
       symmetry. by apply norm_valid_utf8. }
  apply foldl_insert_map. rewrite map_to_list_fmap, sorted_entries_perm.
  apply reflexive_eq, list_fmap_ext. by intros i [k ts] _.
Qed.
End file.

Lemma LoadAliases_wf `{UnicodeTables} `{GoRuntime} file m :
  LoadAliases file = Ok m → aliases_wf m.
Proof.
  unfold LoadAliases. destruct file as [|e|[|e|d]]; try done.
  - intros [= <-]. apply map_Forall_empty.
  - intros [= <-]. apply map_Forall_empty.
  - destruct (unmarshal_raw_map d) as [raw|]; [|done].
    intros Hl. eapply load_entries_wf; [done|]. apply map_Forall_empty.
Qed.

(** C34. Loading the alias file yields a well-formed table, for every document
    the file may hold and every map iteration order. *)
Theorem LoadAliases_establishes_wf `{UnicodeTables} `{GoRuntime} file m :
  LoadAliases file = Ok m → aliases_wf m.
Proof. apply LoadAliases_wf. Qed.

Lemma LoadAliases_saved `{UnicodeTables} `{GoRuntime} file m :
  aliases_wf m → LoadAliases (SaveAliases SaveOk file m).2 = Ok m.
Proof.
  intros Hm. cbn [SaveAliases snd]. unfold LoadAliases. rewrite unmarshal_aliases_doc by done.
  pose proof (map_range_perm ((λ ts, JArr (marshal_string <$> ts)) <$> m)) as Hp.
  rewrite map_to_list_fmap in Hp.
  apply Permutation_map_inv in Hp as (l & El & Hl). rewrite El.
  replace (map _ l) with (saved_entry <$> l) by (apply list_fmap_ext; by intros i [k ts] _).
  rewrite load_entries_saved by (eapply aliases_wf_entries; [done|by symmetry]).
  f_equal. by apply foldl_insert_map.
Qed.

(** C35. Round trip of the alias file: after a successful [SaveAliases] of a
    well-formed table, [LoadAliases] returns that very table. *)
Theorem LoadAliases_SaveAliases `{UnicodeTables} `{GoRuntime} file m :
  aliases_wf m → LoadAliases (SaveAliases SaveOk file m).2 = Ok m.
Proof. apply LoadAliases_saved. Qed.

(** Start the service on an alias file, then resolve an address. *)
Definition resolve_with `{UnicodeTables} (rt : GoRuntime) (file : read_result json)
    (domain address : bytes) : res ParsedRecipient :=
  m ← LoadAliases file; Parse (NewParser domain m) address.

(** When two names of the alias file normalize to the same alias, what
    [LoadAliases] keeps depends on the map iteration order: two starts of the
    service on the same file can resolve the same address to different chats. *)
Theorem LoadAliases_order_dependent :
  ∃ (rt1 rt2 : GoRuntime) file pr1 pr2,
    @resolve_with basic_unicode rt1 file "relay.local" "ops@relay.local" = Ok pr1 ∧
    @resolve_with basic_unicode rt2 file "relay.local" "ops@relay.local" = Ok pr2 ∧
    ChatID <$> Targets pr1 = ["1"] ∧ ChatID <$> Targets pr2 = ["2"].
Proof.
  exists stable_runtime, reversed_runtime,
    (Read (Doc (JObj [("Ops" : bytes, JStr "chatid1"); ("ops" : bytes, JStr "chatid2")]))).
  do 2 eexists. split_and!; by vm_compute.
Qed.

(** * Witnesses *)
Definition wit_aliases : gmap bytes (list bytes) :=
  {[ ("alerts" : bytes) := ["chatid123"; "chatid456.silent"] ]}.

Lemma wit_aliases_wf : @aliases_wf basic_unicode wit_aliases.
Proof.
  apply map_Forall_singleton. unfold alias_targets_wf.
  split_and!; [by vm_compute|done|done| |].
  - apply NoDup_cons. split; [|apply NoDup_singleton]. by intros ?%list_elem_of_singleton.
  - rewrite !Forall_cons, Forall_nil. split_and!; first [by vm_compute | done].
Qed.

Lemma alias_op_preserves_wf_witness :
  @aliases_wf basic_unicode (aliases (mkParser "relay.local" wit_aliases)) ∧
  @aliases_wf basic_unicode
    (aliases (@apply_op basic_unicode (mkParser "relay.local" wit_aliases) (OpAdd "Alerts" ["ChatId7 "]))).
Proof.
  split; [exact wit_aliases_wf|].
  apply (@alias_op_preserves_wf basic_unicode (mkParser "relay.local" wit_aliases)). exact wit_aliases_wf.
Defined.

Lemma alias_op_refines_spec_witness :
  alias_sets (aliases (@apply_op basic_unicode (mkParser "relay.local" wit_aliases)
    (OpRemove "alerts" ["chatid123"])))
  = @spec_op basic_unicode (alias_sets wit_aliases) (OpRemove "alerts" ["chatid123"]).
Proof.
  apply (@alias_op_refines_spec basic_unicode (mkParser "relay.local" wit_aliases)).
  exact wit_aliases_wf.
Defined.

Definition wit_file : read_result json :=
  Read (Doc (JObj [("Ops " : bytes, JArr [JStr "ChatID1"; JStr "chatid1"; JNull])])).

Lemma LoadAliases_establishes_wf_witness :
  ∃ m, @LoadAliases basic_unicode stable_runtime wit_file = Ok m ∧ @aliases_wf basic_unicode m.
Proof.
  assert (is_ok (@LoadAliases basic_unicode stable_runtime wit_file) = true) as [m Hm]%is_ok_inv
    by by vm_compute.
  exists m. split; [exact Hm|].
  by apply (@LoadAliases_establishes_wf basic_unicode stable_runtime wit_file).
Defined.

Lemma LoadAliases_SaveAliases_witness :
  @LoadAliases basic_unicode stable_runtime (SaveAliases SaveOk NotExist wit_aliases).2 = Ok wit_aliases.
Proof. apply (@LoadAliases_SaveAliases basic_unicode stable_runtime). exact wit_aliases_wf. Defined.

(** The parser on the addresses of the repository's tests. *)
Example Parse_negative :
  @Parse basic_unicode (@NewParser basic_unicode " Relay.local" ∅) "ChatID-73211480961715.silent@relay.LOCAL"
  = Ok {| Targets := [mkTarget "-73211480961715" true "chatid-73211480961715.silent"];
          RawLocal := "chatid-73211480961715.silent";
          RawAddr := "ChatID-73211480961715.silent@relay.LOCAL";
          SourceLocal := "chatid-73211480961715.silent"; AliasUsed := false |}.
Proof. by vm_compute. Qed.
Example Parse_thread :
  @Parse basic_unicode (@NewParser basic_unicode "relay.local" ∅) "123!7@relay.local"
  = Err "thread addressing is not supported: 123!7@relay.local".
Proof. by vm_compute. Qed.
