(* ===== verification/Sha256.v ===== *)
(** * SHA-256 ([crypto/sha256])

    The hash behind the DLQ's item ids and payload fingerprints (FIPS 180-4),
    on words of 32 bits held in [Z].  Nothing in the development depends on
    more than its being a function; the test vectors below pin it down. *)
From S2P Require Import Prelude GoStrings.

Open Scope Z_scope.
Open Scope go_scope.

Definition add32 (x y : Z) : Z := (x + y) mod 2 ^ 32.
Definition rotr32 (n x : Z) : Z :=
  Z.lor (Z.shiftr x n) (Z.land (Z.shiftl x (32 - n)) 0xffffffff).
Definition sigma (a b c x : Z) : Z := Z.lxor (rotr32 a x) (Z.lxor (rotr32 b x) (Z.shiftr x c)).
Definition Sigma (a b c x : Z) : Z := Z.lxor (rotr32 a x) (Z.lxor (rotr32 b x) (rotr32 c x)).
Definition Ch (x y z : Z) : Z := Z.lxor (Z.land x y) (Z.land (Z.lxor x 0xffffffff) z).
Definition Maj (x y z : Z) : Z := Z.lxor (Z.land x y) (Z.lxor (Z.land x z) (Z.land y z)).

(** The constants of FIPS 180-4: 32 bits of the fractional parts of the cube roots
    of the first 64 primes, and of the square roots of the first 8. *)
Definition prime_below_312 (n : Z) : bool :=
  forallb (λ d, (n <=? d) || negb (n mod d =? 0)) (seqZ 2 16).
Definition primes : list Z := filter (λ n, prime_below_312 n = true) (seqZ 2 310).

(** The integer part of the [e]-th root of [n]: [bits] bits, the highest first. *)
Fixpoint root (e : Z) (bits : nat) (r n : Z) : Z :=
  match bits with
  | O => r
  | S k =>
    let r' := r + 2 ^ Z.of_nat k in
    root e k (if r' ^ e <=? n then r' else r) n
  end.
Definition root_fraction (e p : Z) : Z := root e 40 0 (p * 2 ^ (32 * e)) mod 2 ^ 32.

Definition sha_k : list Z := Eval vm_compute in root_fraction 3 <$> primes.
Definition sha_h0 : list Z := Eval vm_compute in root_fraction 2 <$> take 8 primes.

(** Message schedule: the last 16 words, newest first, and the words so far in
    reverse. *)
Fixpoint schedule (n : nat) (ws : list Z) : list Z :=
  match n with
  | O => ws
  | S n =>
    let w i := nth i ws 0 in
    let x := add32 (add32 (sigma 17 19 10 (w 1%nat)) (w 6%nat))
                   (add32 (sigma 7 18 3 (w 14%nat)) (w 15%nat)) in
    schedule n (x :: ws)
  end.

Definition round (st : list Z) (kw : Z * Z) : list Z :=
  match st with
  | [a; b; c; d; e; f; g; h] =>
    let t1 := add32 (add32 h (Sigma 6 11 25 e)) (add32 (Ch e f g) (add32 kw.1 kw.2)) in
    let t2 := add32 (Sigma 2 13 22 a) (Maj a b c) in
    [add32 t1 t2; a; b; c; add32 d t1; e; f; g]
  | _ => st
  end.

Definition word (a b c d : ascii) : Z :=
  ((code a * 256 + code b) * 256 + code c) * 256 + code d.

(** Compress the blocks of a padded message. *)
Fixpoint compress (block : list Z) (n : nat) (msg : bytes) (st : list Z) : list Z :=
  match msg with
  | a :: b :: c :: d :: msg' =>
    let block := word a b c d :: block in
    match n with
    | O =>
      let ws := reverse (schedule 48 block) in
      compress [] 15 msg' (zip_with add32 st (foldl round st (zip sha_k ws)))
    | S n => compress block n msg' st
    end
  | _ => st
  end.

Definition be_bytes (n : nat) (z : Z) : bytes :=
  (λ i, byte_of (z / 256 ^ Z.of_nat i mod 256)) <$> reverse (seq 0 n).

Definition sha_pad (s : bytes) : bytes :=
  let l := Z.of_nat (length s) in
  s ++ [byte_of 0x80] ++ replicate (Z.to_nat ((55 - l) mod 64)) (byte_of 0) ++ be_bytes 8 (8 * l).

Definition sha256 (s : bytes) : bytes :=
  concat (be_bytes 4 <$> compress [] 15 (sha_pad s) sha_h0).

(** The digest has 32 bytes. *)
Lemma length_round st kw : length st = 8%nat → length (round st kw) = 8%nat.
Proof.
  intros Hst. destruct st as [|? [|? [|? [|? [|? [|? [|? [|? [|]]]]]]]]]; try discriminate Hst.
  reflexivity.
Qed.

Lemma length_rounds kws st : length st = 8%nat → length (foldl round st kws) = 8%nat.
Proof.
  revert st. induction kws as [|kw kws IH]; intros st Hst; [exact Hst|].
  cbn [foldl]. apply IH, length_round, Hst.
Qed.

Lemma length_compress m : ∀ block n st, length st = 8%nat → length (compress block n m st) = 8%nat.
Proof.
  induction m as [m IH] using (induction_ltof1 _ length). intros block n st Hst.
  destruct m as [|a [|b [|c [|d m]]]]; [exact Hst..|]. cbn [compress].
  destruct n; (apply IH; [unfold ltof; cbn [length]; lia|]); [|exact Hst].
  rewrite length_zip_with, length_rounds, Hst by exact Hst. reflexivity.
Qed.

Lemma length_sha256 s : length (sha256 s) = 32%nat.
Proof.
  unfold sha256. pose proof (length_compress (sha_pad s) [] 15 sha_h0 eq_refl) as Hl.
  revert Hl. generalize (compress [] 15 (sha_pad s) sha_h0). intros st.
  intros Hst. destruct st as [|? [|? [|? [|? [|? [|? [|? [|? [|]]]]]]]]]; try discriminate Hst.
  reflexivity.
Qed.

Example sha256_empty :
  hex (sha256 []) = "e3b0c44298fc1c149afbf4c8996fb92427ae41e4649b934ca495991b7852b855".
Proof. by vm_compute. Qed.
Example sha256_abc :
  hex (sha256 "abc") = "ba7816bf8f01cfea414140de5dae2223b00361a396177a9cb410ff61f20015ad".
Proof. by vm_compute. Qed.
Example sha256_two_blocks :
  hex (sha256 "abcdbcdecdefdefgefghfghighijhijkijkljklmklmnlmnomnopnopq")
  = "248d6a61d20638b8e5c026930c3e6039a33ce45964ff2167f6ecedd419db06c1".
Proof. by vm_compute. Qed.

#[global] Opaque sha256.
