(* ===== verification/DlqStore.v ===== *)
(** * The dead-letter queue store: [internal/dlq/store.go]

    Undelivered messages, in memory and in a JSON file that is replaced
    atomically.  The store's mutex makes every operation atomic, so each is a
    function from the store to its result and the next store.  What the
    operations take from outside is an argument: the clock, the random bytes of
    an item id, the outcome of the file-system calls, and (through
    [GoRuntime]) the map iteration order. *)
From S2P Require Import Prelude GoStrings GoRuntime GoJson Sha256.

Open Scope Z_scope.
Open Scope go_scope.

(** [type Status string] *)
Abbreviation Status := bytes.
Definition StatusPending : Status := "pending".
Definition StatusProcessing : Status := "processing".
Definition StatusDone : Status := "done".
Definition StatusFailed : Status := "failed".

Record Item := mkItem {
  ID : bytes;
  Fingerprint : bytes;
  Recipient : bytes;
  RawMessage : bytes;
  LastError : bytes;
  status : Status;
  Attempt : Z;
  NextRetryAt : time;
  CreatedAt : time;
  UpdatedAt : time;
}.

(** Field updates. *)
Definition with_status (st : Status) (it : Item) : Item :=
  mkItem (ID it) (Fingerprint it) (Recipient it) (RawMessage it) (LastError it) st
    (Attempt it) (NextRetryAt it) (CreatedAt it) (UpdatedAt it).
Definition with_updated (t : time) (it : Item) : Item :=
  mkItem (ID it) (Fingerprint it) (Recipient it) (RawMessage it) (LastError it) (status it)
    (Attempt it) (NextRetryAt it) (CreatedAt it) t.
Definition with_last_error (err : option bytes) (it : Item) : Item :=
  match err with
  | None => it
  | Some e => mkItem (ID it) (Fingerprint it) (Recipient it) (RawMessage it) e (status it)
                (Attempt it) (NextRetryAt it) (CreatedAt it) (UpdatedAt it)
  end.
Definition with_attempt (n : Z) (it : Item) : Item :=
  mkItem (ID it) (Fingerprint it) (Recipient it) (RawMessage it) (LastError it) (status it)
    n (NextRetryAt it) (CreatedAt it) (UpdatedAt it).
Definition with_next_retry (t : time) (it : Item) : Item :=
  mkItem (ID it) (Fingerprint it) (Recipient it) (RawMessage it) (LastError it) (status it)
    (Attempt it) t (CreatedAt it) (UpdatedAt it).
Definition with_fingerprint (f : bytes) (it : Item) : Item :=
  mkItem (ID it) f (Recipient it) (RawMessage it) (LastError it) (status it)
    (Attempt it) (NextRetryAt it) (CreatedAt it) (UpdatedAt it).

Definition zero_item : Item := mkItem [] [] [] [] [] [] 0 0 0 0.

(** The store and the files it works on: [path] and [path ++ ".tmp"]. *)
Record FileStore := mkStore {
  path : bytes;
  items : gmap bytes Item;
  disk : gmap bytes (file_content (list Item));
}.

Definition set_items (s : FileStore) (m : gmap bytes Item) : FileStore :=
  mkStore (path s) m (disk s).
Definition put_item (s : FileStore) (id : bytes) (it : Item) : FileStore :=
  set_items s (<[id := it]> (items s)).
Definition set_file (s : FileStore) (p : bytes) (c : file_content (list Item)) : FileStore :=
  mkStore (path s) (items s) (<[p := c]> (disk s)).
Definition remove_file (s : FileStore) (p : bytes) : FileStore :=
  mkStore (path s) (items s) (delete p (disk s)).
Definition tmp_path (s : FileStore) : bytes := path s ++ ".tmp".

(** Pending or being processed: not yet delivered and not given up. *)
Definition live (it : Item) : bool :=
  bool_decide (status it = StatusPending) || bool_decide (status it = StatusProcessing).

(** ** Hashes *)
Definition fingerprint_input (recipient rawMessage : bytes) : bytes :=
  recipient ++ "|" ++ hex rawMessage.
Definition payloadFingerprint (recipient rawMessage : bytes) : bytes :=
  hex (sha256 (fingerprint_input recipient rawMessage)).
Definition new_item_id (now : time) (rnd rawMessage : bytes) : bytes :=
  hex (sha256 (format_int (unix_nano now) ++ "|" ++ hex rnd ++ "|" ++ hex rawMessage)).

(** ** Persistence *)

(** What [json.MarshalIndent] writes for an item, as the decoder reads it back. *)
Definition json_item (it : Item) : Item :=
  mkItem (to_valid_utf8 (ID it)) (to_valid_utf8 (Fingerprint it)) (to_valid_utf8 (Recipient it))
    (RawMessage it) (to_valid_utf8 (LastError it)) (to_valid_utf8 (status it))
    (Attempt it) (NextRetryAt it) (CreatedAt it) (UpdatedAt it).
Definition item_times_ok (it : Item) : bool :=
  json_time_ok (NextRetryAt it) && json_time_ok (CreatedAt it) && json_time_ok (UpdatedAt it).
Definition marshal_items (l : list Item) : res (list Item) :=
  if forallb item_times_ok l then Ok (json_item <$> l)
  else Err "json: error calling MarshalJSON for type time.Time: Time.MarshalJSON: year outside of range [0,9999]".

(** The outcome of [MkdirAll], [WriteFile] and [Rename]; a failed write leaves
    anything in the temporary file. *)
Inductive persist_io :=
  | PersistOk
  | MkdirFails (e : bytes)
  | WriteFails (e : bytes) (left_behind : file_content (list Item))
  | RenameFails (e : bytes).

Section store.
Context `{GoRuntime}.

Definition persistLocked (io : persist_io) (s : FileStore) : option bytes * FileStore :=
  match io with
  | MkdirFails e => (Some e, s)
  | _ =>
    let sorted := sort_slice (λ x y, before (CreatedAt x) (CreatedAt y)) (map_range (items s)).*2 in
    match marshal_items sorted with
    | Err e => (Some e, s)
    | Ok data =>
      match io with
      | WriteFails e left_behind => (Some e, set_file s (tmp_path s) left_behind)
      | RenameFails e => (Some e, set_file s (tmp_path s) (Doc data))
      | _ => (None, remove_file (set_file s (path s) (Doc data)) (tmp_path s))
      end
    end
  end.

(** Persist, then return [it] or the error. *)
Definition persist_and_return {A} (io : persist_io) (s : FileStore) (a : A) : res A * FileStore :=
  match persistLocked io s with
  | (Some e, s') => (Err e, s')
  | (None, s') => (Ok a, s')
  end.

(** [load] on the decoded file; [NewFileStore]. *)
Definition load_item (it : Item) : Item :=
  let it := if decide (status it = StatusProcessing) then with_status StatusPending it else it in
  if decide (Fingerprint it = []) then
    with_fingerprint (payloadFingerprint (Recipient it) (RawMessage it)) it
  else it.

Definition load (read_err : option bytes) (s : FileStore) : option bytes * FileStore :=
  match read_err with
  | Some e => (Some e, s)
  | None =>
    match disk s !! path s with
    | None | Some Blank => (None, s)
    | Some (Malformed e) => (Some e, s)
    | Some (Doc l) =>
      (None, set_items s (foldl (λ m it, <[ID it := it]> m) (items s) (load_item <$> l)))
    end
  end.

Definition NewFileStore (read_err : option bytes) (p : bytes)
    (d : gmap bytes (file_content (list Item))) : res FileStore :=
  match load read_err (mkStore p ∅ d) with
  | (Some e, _) => Err e
  | (None, s) => Ok s
  end.

(** ** Operations *)
Definition is_duplicate (fingerprint : bytes) (existing : Item) : bool :=
  bool_decide (Fingerprint existing ≠ []) &&
  bool_decide (Fingerprint existing = fingerprint) && live existing.

Definition Enqueue (now : time) (rnd : bytes) (io : persist_io) (s : FileStore)
    (recipient rawMessage : bytes) (lastErr : option bytes) : res Item * FileStore :=
  let fingerprint := payloadFingerprint recipient rawMessage in
  match List.find (is_duplicate fingerprint) (map_range (items s)).*2 with
  | Some existing =>
    let existing := with_updated now (with_last_error lastErr existing) in
    persist_and_return io (put_item s (ID existing) existing) existing
  | None =>
    let item := with_last_error lastErr
      {| ID := new_item_id now rnd rawMessage; Fingerprint := fingerprint;
         Recipient := recipient; RawMessage := rawMessage; LastError := [];
         status := StatusPending; Attempt := 0;
         NextRetryAt := now; CreatedAt := now; UpdatedAt := now |} in
    persist_and_return io (put_item s (ID item) item) item
  end.

Definition get_item (s : FileStore) (id : bytes) : Item := default zero_item (items s !! id).

Definition is_due (now : time) (it : Item) : bool :=
  bool_decide (status it = StatusPending) && negb (after (NextRetryAt it) now).

(** The loop that marks the chosen ids as processing. *)
Fixpoint pick_items (now : time) (s : FileStore) (ids : list bytes) : list Item * FileStore :=
  match ids with
  | [] => ([], s)
  | id :: ids =>
    let item := with_updated now (with_status StatusProcessing (get_item s id)) in
    let '(out, s') := pick_items now (put_item s id item) ids in
    (item :: out, s')
  end.

Definition due_ids (now : time) (s : FileStore) : list bytes :=
  (filter (λ kv, is_due now kv.2 = true) (map_range (items s))).*1.

Definition PickDue (io : persist_io) (s : FileStore) (limit : Z) (now : time) :
    res (list Item) * FileStore :=
  let limit := if limit <=? 0 then 10 else limit in
  let ids := sort_slice (λ i j, before (NextRetryAt (get_item s i)) (NextRetryAt (get_item s j)))
               (due_ids now s) in
  let ids := take (Z.to_nat limit) ids in
  let '(out, s') := pick_items now s ids in
  if decide (out = []) then (Ok out, s') else persist_and_return io s' out.

Definition not_found (id : bytes) : bytes := "dlq item not found: " ++ id.

Definition MarkDone (now : time) (io : persist_io) (s : FileStore) (id : bytes) :
    option bytes * FileStore :=
  match items s !! id with
  | None => (Some (not_found id), s)
  | Some item =>
    persistLocked io (put_item s id (with_updated now (with_status StatusDone item)))
  end.

Definition retry_item (now nextRetryAt : time) (lastErr : option bytes) (maxRetries : Z)
    (item : Item) : Item :=
  let item := with_last_error lastErr
    (with_updated now (with_attempt (wrap64 (Attempt item + 1)) item)) in
  if (0 <? maxRetries) && (maxRetries <=? Attempt item) then with_status StatusFailed item
  else with_next_retry nextRetryAt (with_status StatusPending item).

Definition MarkRetry (now : time) (io : persist_io) (s : FileStore) (id : bytes)
    (nextRetryAt : time) (lastErr : option bytes) (maxRetries : Z) : option bytes * FileStore :=
  match items s !! id with
  | None => (Some (not_found id), s)
  | Some item =>
    persistLocked io (put_item s id (retry_item now nextRetryAt lastErr maxRetries item))
  end.

(** Counters (a store never holds [2^64] items). *)
Record StatsT := mkStats { Pending : Z; Failed : Z; Done : Z }.

Definition count_item (st : StatsT) (it : Item) : StatsT :=
  if live it then mkStats (Pending st + 1) (Failed st) (Done st)
  else if decide (status it = StatusFailed) then mkStats (Pending st) (Failed st + 1) (Done st)
  else if decide (status it = StatusDone) then mkStats (Pending st) (Failed st) (Done st + 1)
  else st.

Definition Stats (s : FileStore) : StatsT :=
  foldl count_item (mkStats 0 0 0) (map_range (items s)).*2.

Definition older (oldest : time) (it : Item) : time :=
  if negb (live it) then oldest
  else if is_zero oldest || before (CreatedAt it) oldest then CreatedAt it
  else oldest.

(** [(age, true)] is [Some age]. *)
Definition OldestPendingAge (s : FileStore) (now : time) : option duration :=
  let oldest := foldl older 0 (map_range (items s)).*2 in
  if is_zero oldest then None
  else if before now oldest then Some 0
  else Some (time_sub now oldest).

Definition Get (s : FileStore) (id : bytes) : option Item := items s !! id.

Definition ListItems (s : FileStore) (limit : Z) : list Item :=
  let limit := if limit <=? 0 then 20 else limit in
  take (Z.to_nat limit)
    (sort_slice (λ x y, after (UpdatedAt x) (UpdatedAt y)) (map_range (items s)).*2).
End store.

(** ** The store as a state machine

    The mutating calls, with what each takes from outside. *)
Inductive store_op :=
  | OpEnqueue (rnd recipient rawMessage : bytes) (lastErr : option bytes)
  | OpPickDue (limit : Z)
  | OpMarkDone (id : bytes)
  | OpMarkRetry (id : bytes) (nextRetryAt : time) (lastErr : option bytes) (maxRetries : Z).

Definition run_op (rt : GoRuntime) (now : time) (io : persist_io) (s : FileStore) (o : store_op) :
    FileStore :=
  match o with
  | OpEnqueue rnd r m e => (Enqueue now rnd io s r m e).2
  | OpPickDue limit => (PickDue io s limit now).2
  | OpMarkDone id => (MarkDone now io s id).2
  | OpMarkRetry id next e n => (MarkRetry now io s id next e n).2
  end.

(** A new item id is fresh: no SHA-256 collision with an id in use. *)
Definition op_fresh (now : time) (s : FileStore) (o : store_op) : Prop :=
  match o with
  | OpEnqueue rnd _ m _ => items s !! new_item_id now rnd m = None
  | _ => True
  end.

Inductive store_step (P : store_op → Prop) (s : FileStore) : FileStore → Prop :=
  | store_step_op rt now io o :
      P o → op_fresh now s o → store_step P s (run_op rt now io s o).

(** * Specification *)

(** The map key of an item is its id. *)
Definition store_wf (s : FileStore) : Prop := map_Forall (λ id it, ID it = id) (items s).

(** Ids survive the JSON encoding. *)
Definition ids_valid (s : FileStore) : Prop := map_Forall (λ id it, valid_utf8 id) (items s).

(** What an item is about never changes. *)
Definition same_message (it it' : Item) : Prop :=
  ID it' = ID it ∧ Fingerprint it' = Fingerprint it ∧ Recipient it' = Recipient it ∧
  RawMessage it' = RawMessage it ∧ CreatedAt it' = CreatedAt it.

Definition mark_processing (now : time) (it : Item) : Item :=
  with_updated now (with_status StatusProcessing it).

(** The ids of live items that carry a fingerprint. *)
Definition live_ids (fp : bytes) (s : FileStore) : gset bytes :=
  dom (filter (λ kv, live kv.2 = true ∧ Fingerprint kv.2 = fp) (items s)).

(** An operation that is not [MarkDone] or [MarkRetry] of [id]. *)
Definition not_marking (id : bytes) (o : store_op) : Prop :=
  match o with
  | OpMarkDone i | OpMarkRetry i _ _ _ => i ≠ id
  | _ => True
  end.

(** What a restart makes of an item. *)
Definition recover (it : Item) : Item := load_item (json_item it).

Definition effective_limit (dflt limit : Z) : nat := Z.to_nat (if limit <=? 0 then dflt else limit).

(** * Lemmas *)

#[export] Instance same_message_preorder : PreOrder same_message.
Proof. split; [by intros it | intros x y z; unfold same_message; naive_solver congruence]. Qed.

Lemma live_spec it : live it = true ↔ status it = StatusPending ∨ status it = StatusProcessing.
Proof. unfold live. rewrite orb_true_iff, !bool_decide_eq_true. done. Qed.

Lemma with_last_error_same e it :
  same_message it (with_last_error e it) ∧ status (with_last_error e it) = status it ∧
  Attempt (with_last_error e it) = Attempt it ∧ NextRetryAt (with_last_error e it) = NextRetryAt it.
Proof. destruct e; unfold same_message; by split_and!. Qed.

Lemma retry_item_same now next e n it : same_message it (retry_item now next e n it).
Proof. unfold retry_item. cbv zeta. destruct e; split_if; unfold same_message; by split_and!. Qed.

Section lemmas.
Context `{GoRuntime}.

Lemma tmp_path_ne s : tmp_path s ≠ path s.
Proof.
  unfold tmp_path. intros E. apply (f_equal length) in E. rewrite length_app in E. simpl in E. lia.
Qed.

Lemma persistLocked_items io s :
  items (persistLocked io s).2 = items s ∧ path (persistLocked io s).2 = path s.
Proof. unfold persistLocked. by destruct io; try done; destruct (marshal_items _). Qed.

Lemma persist_and_return_items {A} io s (a : A) :
  items (persist_and_return io s a).2 = items s ∧ path (persist_and_return io s a).2 = path s.
Proof.
  unfold persist_and_return. pose proof (persistLocked_items io s).
  by destruct (persistLocked io s) as [[e|] s'].
Qed.

(** A failed persist leaves the main file alone; a successful one replaces it
    by the snapshot of all items. *)
Lemma persistLocked_file io s :
  (∃ e, (persistLocked io s).1 = Some e ∧
     disk (persistLocked io s).2 !! path s = disk s !! path s) ∨
  ((persistLocked io s).1 = None ∧ ∃ l, l ≡ₚ (map_range (items s)).*2 ∧
     disk (persistLocked io s).2 !! path s = Some (Doc (json_item <$> l))).
Proof.
  unfold persistLocked, marshal_items. pose proof (tmp_path_ne s).
  destruct io; [|by eauto|..]; split_if; try by eauto.
  - right. split; [done|]. eexists. split; [apply sort_slice_perm|].
    simpl. rewrite lookup_delete_ne by done. apply lookup_insert_eq.
  - left. eexists. split; [done|]. simpl. by rewrite lookup_insert_ne.
  - left. eexists. split; [done|]. simpl. by rewrite lookup_insert_ne.
Qed.

(** ** Reloading a snapshot *)
Lemma ID_recover it : ID (recover it) = to_valid_utf8 (ID it).
Proof. unfold recover, load_item. cbv zeta. by repeat case_decide. Qed.

Lemma foldl_insert_ID (f : Item → Item) l (m : gmap bytes Item) :
  foldl (λ m it, <[ID it := it]> m) m (f <$> l) =
  foldl (λ m kv, <[kv.1 := kv.2]> m) m ((λ it, (ID (f it), f it)) <$> l).
Proof. revert m. induction l as [|it l IH]; intros m; [done|]. apply IH. Qed.

Lemma reload_snapshot s l :
  store_wf s → ids_valid s → l ≡ₚ (map_range (items s)).*2 →
  foldl (λ m it, <[ID it := it]> m) ∅ (load_item <$> (json_item <$> l)) = recover <$> items s.
Proof.
  intros Hwf Hv Hl. rewrite <- list_fmap_compose.
  change (load_item ∘ json_item) with recover.
  rewrite foldl_insert_ID. apply foldl_insert_map.
  rewrite Hl, map_range_perm, <- list_fmap_compose, map_to_list_fmap.
  apply reflexive_eq, list_fmap_ext. intros i [id it] Hi%list_elem_of_lookup_2. simpl.
  apply elem_of_map_to_list in Hi. unfold prod_map. simpl. f_equal.
  rewrite ID_recover, (Hwf _ _ Hi). exact (Hv _ _ Hi).
Qed.

Lemma persist_reload io s :
  store_wf s → ids_valid s → (persistLocked io s).1 = None →
  ∃ s'', NewFileStore None (path s) (disk (persistLocked io s).2) = Ok s'' ∧
         items s'' = recover <$> items s.
Proof.
  intros Hwf Hv Hok. destruct (persistLocked_file io s) as [(e & E & _)|(_ & l & Hl & Hd)]; [congruence|].
  unfold NewFileStore, load. cbn [disk path]. rewrite Hd. eexists. split; [done|]. simpl.
  by apply reload_snapshot.
Qed.

(** ** Enqueue *)
Lemma find_dup_Some fp s it :
  List.find (is_duplicate fp) (map_range (items s)).*2 = Some it →
  ∃ id, items s !! id = Some it ∧ live it = true ∧ Fingerprint it = fp.
Proof.
  intros [Hin Hd]%List.find_some. apply list_elem_of_In, list_elem_of_fmap in Hin as ([id it'] & -> & Hin).
  rewrite elem_of_map_range in Hin. unfold is_duplicate in Hd. bprop. eauto.
Qed.

Lemma find_dup_None fp s id it :
  List.find (is_duplicate fp) (map_range (items s)).*2 = None → fp ≠ [] →
  items s !! id = Some it → Fingerprint it = fp → live it = false.
Proof.
  intros Hf Hne Hi <-. apply not_true_is_false. intros Hl.
  assert (is_duplicate (Fingerprint it) it = true) as Hd.
  { unfold is_duplicate. rewrite Hl. by rewrite !bool_decide_eq_true_2. }
  eapply List.find_none in Hf; [by rewrite Hd in Hf|].
  apply list_elem_of_In, list_elem_of_fmap. exists (id, it). split; [done|]. by apply elem_of_map_range.
Qed.

Lemma payloadFingerprint_ne r m : payloadFingerprint r m ≠ [].
Proof.
  unfold payloadFingerprint. pose proof (length_sha256 (fingerprint_input r m)).
  destruct (sha256 _) as [|a l]; [done|]. by rewrite hex_cons.
Qed.

Definition fresh_item (now : time) (rnd r m : bytes) (e : option bytes) : Item :=
  with_last_error e
    {| ID := new_item_id now rnd m; Fingerprint := payloadFingerprint r m; Recipient := r;
       RawMessage := m; LastError := []; status := StatusPending; Attempt := 0;
       NextRetryAt := now; CreatedAt := now; UpdatedAt := now |}.

Lemma fresh_item_spec now rnd r m e :
  ID (fresh_item now rnd r m e) = new_item_id now rnd m ∧
  Fingerprint (fresh_item now rnd r m e) = payloadFingerprint r m ∧
  live (fresh_item now rnd r m e) = true ∧ status (fresh_item now rnd r m e) = StatusPending ∧
  Attempt (fresh_item now rnd r m e) = 0.
Proof. unfold fresh_item. by destruct e. Qed.

(** The two branches of [Enqueue]. *)
Lemma Enqueue_cases now rnd io s r m e :
  (∃ id it, items s !! id = Some it ∧ live it = true ∧ Fingerprint it = payloadFingerprint r m ∧
     let it' := with_updated now (with_last_error e it) in
     Enqueue now rnd io s r m e = persist_and_return io (put_item s (ID it') it') it') ∨
  (∀ id it, items s !! id = Some it → Fingerprint it = payloadFingerprint r m → live it = false) ∧
  let it' := fresh_item now rnd r m e in
  Enqueue now rnd io s r m e = persist_and_return io (put_item s (ID it') it') it'.
Proof.
  unfold Enqueue. cbv zeta.
  destruct (List.find _ _) as [it|] eqn:Ef.
  - left. apply find_dup_Some in Ef as (id & ? & ? & ?). by exists id, it.
  - right. split; [|done]. intros id it Hi Hfp.
    eapply find_dup_None; [done|apply payloadFingerprint_ne|done|done].
Qed.

Lemma persist_and_return_Ok {A} io s (a b : A) s' :
  persist_and_return io s a = (Ok b, s') → b = a ∧ items s' = items s.
Proof.
  intros E. pose proof (persist_and_return_items io s a) as [Hi _]. rewrite E in Hi. simpl in Hi.
  split; [|done]. unfold persist_and_return in E. destruct (persistLocked io s) as [[?|] ?]; congruence.
Qed.

Lemma elem_of_live_ids fp s id :
  id ∈ live_ids fp s ↔ ∃ it, items s !! id = Some it ∧ live it = true ∧ Fingerprint it = fp.
Proof.
  unfold live_ids. rewrite elem_of_dom. unfold is_Some. setoid_rewrite map_lookup_filter_Some.
  naive_solver.
Qed.

Lemma live_ids_put fp s s' id it :
  items s' = <[id := it]> (items s) →
  live_ids fp s' =
    if live it && bool_decide (Fingerprint it = fp) then {[id]} ∪ live_ids fp s
    else live_ids fp s ∖ {[id]}.
Proof.
  intros E. apply set_eq. intros j.
  assert (j ∈ live_ids fp s' ↔
    (j = id ∧ live it = true ∧ Fingerprint it = fp) ∨ (j ≠ id ∧ j ∈ live_ids fp s)) as ->.
  { rewrite !elem_of_live_ids, E. destruct (decide (j = id)) as [->|Hne].
    - rewrite lookup_insert_eq. naive_solver.
    - rewrite lookup_insert_ne by done. naive_solver. }
  split_if; bprop.
  - destruct (decide (j = id)); set_solver.
  - apply andb_false_iff in Heqb. rewrite bool_decide_eq_false in Heqb.
    destruct Heqb as [Hl|Hl]; rewrite ?Hl; set_solver.
Qed.

(** ** PickDue *)
Lemma pick_items_spec now s ids :
  NoDup ids →
  (pick_items now s ids).1 = mark_processing now ∘ get_item s <$> ids ∧
  (∀ id, items (pick_items now s ids).2 !! id =
     if decide (id ∈ ids) then Some (mark_processing now (get_item s id)) else items s !! id) ∧
  path (pick_items now s ids).2 = path s ∧ disk (pick_items now s ids).2 = disk s.
Proof.
  intros Hnd. revert s. induction Hnd as [|id ids Hid Hnd IH]; intros s; [done|].
  cbn [pick_items]. set (s1 := put_item s id (with_updated now (with_status StatusProcessing (get_item s id)))).
  destruct (IH s1) as (H1 & H2 & H3 & H4).
  destruct (pick_items now s1 ids) as [out s'] eqn:E. simpl in *.
  assert (∀ j, j ≠ id → get_item s1 j = get_item s j) as Hget.
  { intros j Hj. unfold get_item, s1. simpl. by rewrite lookup_insert_ne. }
  split_and!; [| |done|done].
  - rewrite H1. f_equal. apply list_fmap_ext. intros i j Hj%list_elem_of_lookup_2. simpl.
    by rewrite Hget by (intros ->; done).
  - intros j. rewrite H2. destruct (decide (j = id)) as [->|Hne].
    + rewrite decide_False, decide_True by set_solver. unfold s1. simpl. by rewrite lookup_insert_eq.
    + destruct (decide (j ∈ ids)).
      * rewrite decide_True by set_solver. by rewrite Hget.
      * rewrite decide_False by set_solver. unfold s1. simpl. by rewrite lookup_insert_ne.
Qed.

Lemma elem_of_due_ids now s id :
  id ∈ due_ids now s ↔ ∃ it, items s !! id = Some it ∧ is_due now it = true.
Proof.
  unfold due_ids. rewrite list_elem_of_fmap. split.
  - intros ([i it] & -> & [Hd Hin]%list_elem_of_filter). rewrite elem_of_map_range in Hin. eauto.
  - intros (it & Hi & Hd). exists (id, it). split; [done|]. apply list_elem_of_filter.
    split; [done|]. by apply elem_of_map_range.
Qed.

Lemma NoDup_due_ids now s : NoDup (due_ids now s).
Proof.
  apply NoDup_fst_filter, NoDup_map_range_fst.
Qed.

(** The ids [PickDue] chooses. *)
Definition picked_ids (s : FileStore) (limit : Z) (now : time) : list bytes :=
  take (effective_limit 10 limit)
    (sort_slice (λ i j, before (NextRetryAt (get_item s i)) (NextRetryAt (get_item s j)))
       (due_ids now s)).

Lemma NoDup_picked_ids s limit now : NoDup (picked_ids s limit now).
Proof.
  unfold picked_ids. eapply sublist_NoDup; [|apply sublist_take].
  rewrite sort_slice_perm. apply NoDup_due_ids.
Qed.

Lemma picked_is_due s limit now id :
  id ∈ picked_ids s limit now → ∃ it, items s !! id = Some it ∧ is_due now it = true.
Proof.
  intros Hid. apply elem_of_due_ids. rewrite <- elem_of_sort_slice.
  eapply elem_of_take in Hid as (i & Hi & _). by eapply list_elem_of_lookup_2.
Qed.

Lemma PickDue_eq io s limit now :
  PickDue io s limit now =
    let '(out, s') := pick_items now s (picked_ids s limit now) in
    if decide (out = []) then (Ok out, s') else persist_and_return io s' out.
Proof. done. Qed.

(** The in-memory effect of [PickDue], whether or not persisting succeeds. *)
Lemma PickDue_items io s limit now id :
  items (PickDue io s limit now).2 !! id =
    if decide (id ∈ picked_ids s limit now) then Some (mark_processing now (get_item s id))
    else items s !! id.
Proof.
  rewrite PickDue_eq.
  pose proof (pick_items_spec now s _ (NoDup_picked_ids s limit now)) as (_ & Hi & _).
  destruct (pick_items _ _ _) as [out s']. case_decide; [apply Hi|].
  destruct (persist_and_return_items io s' out) as [-> _]. apply Hi.
Qed.

Lemma PickDue_result io s limit now out s' :
  PickDue io s limit now = (Ok out, s') →
  out = mark_processing now ∘ get_item s <$> picked_ids s limit now.
Proof.
  rewrite PickDue_eq.
  pose proof (pick_items_spec now s _ (NoDup_picked_ids s limit now)) as (Ho & _).
  destruct (pick_items _ _ _) as [out' s1]. simpl in Ho. case_decide; [congruence|].
  intros [-> _]%persist_and_return_Ok. done.
Qed.

(** Ids of picked items are the picked ids. *)
Lemma PickDue_result_ids io s limit now out s' :
  store_wf s → PickDue io s limit now = (Ok out, s') → ID <$> out = picked_ids s limit now.
Proof.
  intros Hwf ->%PickDue_result. rewrite <- list_fmap_compose.
  rewrite <- (list_fmap_id (picked_ids s limit now)) at 2. apply list_fmap_ext.
  intros k id Hk%list_elem_of_lookup_2. apply picked_is_due in Hk as (it & Hi & _). simpl.
  unfold get_item. rewrite Hi. simpl. by apply Hwf in Hi.
Qed.
End lemmas.

(** ** One step *)

Lemma put_item_lookup s k it id :
  items (put_item s k it) !! id = if decide (id = k) then Some it else items s !! id.
Proof.
  simpl. case_decide as E; [subst; apply lookup_insert_eq | by apply lookup_insert_ne].
Qed.

(** What a mutating operation does to one item: nothing, a message-preserving
    update, or (for [Enqueue]) the creation of a fresh pending item. *)
Inductive item_change (o : store_op) (id : bytes) : option Item → option Item → Prop :=
  | item_same x : item_change o id x x
  | item_created now rnd r m e :
      o = OpEnqueue rnd r m e → id = new_item_id now rnd m →
      item_change o id None (Some (fresh_item now rnd r m e))
  | item_refreshed now e it :
      live it = true →
      item_change o id (Some it) (Some (with_updated now (with_last_error e it)))
  | item_picked now it :
      is_due now it = true → item_change o id (Some it) (Some (mark_processing now it))
  | item_done now it :
      o = OpMarkDone id →
      item_change o id (Some it) (Some (with_updated now (with_status StatusDone it)))
  | item_retried now next e n it :
      o = OpMarkRetry id next e n →
      item_change o id (Some it) (Some (retry_item now next e n it)).

Lemma run_op_change rt now io s o id :
  store_wf s → op_fresh now s o →
  item_change o id (items s !! id) (items (run_op rt now io s o) !! id).
Proof.
  intros Hwf Hfr. destruct o as [rnd r m e|limit|k|k next e n]; simpl in *.
  - destruct (Enqueue_cases now rnd io s r m e) as [(k & it & Hk & Hl & Hfp & E)|[_ E]];
      cbv zeta in E; rewrite E; match goal with |- context [persist_and_return io ?x ?y] =>
        destruct (persist_and_return_items io x y) as [-> _] end; rewrite put_item_lookup.
    + destruct (with_last_error_same e it) as [[Hid _] _].
      case_decide as Ei; [|constructor].
      assert (id = k) as ->.
      { rewrite Ei. change (ID (with_last_error e it) = k). rewrite Hid. by apply Hwf in Hk. }
      rewrite Hk. by constructor.
    + destruct (fresh_item_spec now rnd r m e) as [Hid _].
      case_decide as Ei; [|constructor]. rewrite Hid in Ei. rewrite Ei, Hfr.
      by eapply item_created.
  - rewrite PickDue_items. case_decide as Hin; [|constructor].
    apply picked_is_due in Hin as (it & Hi & Hd). unfold get_item. rewrite Hi. simpl.
    by constructor.
  - unfold MarkDone. destruct (items s !! k) as [it|] eqn:Hk; [|constructor].
    match goal with |- context [persistLocked io ?x] => destruct (persistLocked_items io x) as [-> _] end.
    rewrite put_item_lookup. case_decide as Ei; [|constructor]. subst k. rewrite Hk. by constructor.
  - unfold MarkRetry. destruct (items s !! k) as [it|] eqn:Hk; [|constructor].
    match goal with |- context [persistLocked io ?x] => destruct (persistLocked_items io x) as [-> _] end.
    rewrite put_item_lookup. case_decide as Ei; [|constructor]. subst k. rewrite Hk.
    by eapply item_retried.
Qed.

Lemma is_due_spec now it :
  is_due now it = true ↔ status it = StatusPending ∧ NextRetryAt it ≤ now.
Proof.
  unfold is_due, after. rewrite andb_true_iff, bool_decide_eq_true, negb_true_iff, Z.ltb_ge. done.
Qed.

(** An item that existed keeps its message; only [MarkDone] and [MarkRetry] of
    it make a live item dead. *)
Lemma item_change_keeps o id it y :
  item_change o id (Some it) y →
  ∃ it', y = Some it' ∧ same_message it it' ∧ (not_marking id o → live it = true → live it' = true).
Proof.
  inversion 1; subst; (eexists; split; [done|]).
  - done.
  - pose proof (with_last_error_same e it) as [? [Hs _]].
    split; [done|]. intros _ Hl. rewrite live_spec in *. simpl. by rewrite Hs.
  - split; [done|]. intros _ Hl. by apply live_spec; right.
  - split; [done|]. intros Hn. by destruct Hn.
  - split; [by apply retry_item_same|]. intros Hn. by destruct Hn.
Qed.

(** [Enqueue] adds at most its new id. *)
Lemma Enqueue_new_id `{GoRuntime} now rnd io s r m e id :
  store_wf s → items s !! id = None → id ≠ new_item_id now rnd m →
  items (Enqueue now rnd io s r m e).2 !! id = None.
Proof.
  intros Hwf Hi Hne.
  destruct (Enqueue_cases now rnd io s r m e) as [(k & it & Hk & _ & _ & ->)|[_ ->]];
    match goal with |- context [persist_and_return ?io ?x ?i] =>
      destruct (persist_and_return_items io x i) as [-> _] end; rewrite put_item_lookup, decide_False; try done.
  - cbn. destruct (with_last_error_same e it) as ((-> & _) & _). rewrite (Hwf _ _ Hk). congruence.
  - cbn. by destruct (fresh_item_spec now rnd r m e) as [-> _].
Qed.

Lemma item_change_ID o id x it' :
  item_change o id x (Some it') → (∀ it, x = Some it → ID it = id) → ID it' = id.
Proof.
  intros Hc Hx. destruct x as [it|].
  - apply item_change_keeps in Hc as (? & [= <-] & (-> & _) & _). by apply Hx.
  - inversion Hc; subst. by apply fresh_item_spec.
Qed.

Lemma store_step_wf P s s' : store_wf s → store_step P s s' → store_wf s'.
Proof.
  intros Hwf [rt now io o HP Hfr] id it' Hi.
  pose proof (run_op_change rt now io s o id Hwf Hfr) as Hc. rewrite Hi in Hc.
  eapply item_change_ID; [done|]. intros it Hi'. by apply Hwf in Hi'.
Qed.

Lemma store_steps_wf P s s' : store_wf s → rtc (store_step P) s s' → store_wf s'.
Proof. intros Hwf. induction 1; [done|]. eauto using store_step_wf. Qed.

Lemma hex_digit_plain d : 0 ≤ d < 16 → plain_byte (hex_digit d) = true.
Proof.
  intros. unfold plain_byte. rewrite code_hex_digit by done.
  split_if; bprop; rewrite !andb_true_iff, negb_true_iff, andb_false_iff; lia.
Qed.

Lemma hex_plain s : forallb plain_byte (hex s) = true.
Proof.
  induction s as [|a s IH]; [done|]. rewrite hex_cons. pose proof (code_bounds a).
  cbn [forallb]. rewrite IH, !hex_digit_plain; [done| |].
  - apply Z.mod_pos_bound. lia.
  - split; [apply Z.div_pos; lia | apply Z.div_lt_upper_bound; lia].
Qed.

Lemma new_item_id_valid now rnd m : valid_utf8 (new_item_id now rnd m).
Proof. apply valid_utf8_ascii, plain_ascii, hex_plain. Qed.

Lemma item_change_valid o id x it' :
  item_change o id x (Some it') → (∀ it, x = Some it → valid_utf8 id) → valid_utf8 id.
Proof. inversion 1; subst; eauto. intros _. apply new_item_id_valid. Qed.

Lemma store_step_ids_valid P s s' :
  store_wf s → ids_valid s → store_step P s s' → ids_valid s'.
Proof.
  intros Hwf Hv [rt now io o HP Hfr] id it' Hi.
  pose proof (run_op_change rt now io s o id Hwf Hfr) as Hc. rewrite Hi in Hc.
  eapply item_change_valid; [done|]. intros it Hi'. by apply Hv in Hi'.
Qed.

(** The file after a step: as before, or a loadable snapshot of the store. *)
Definition file_saved (s : FileStore) : Prop :=
  ∃ s'', NewFileStore None (path s) (disk s) = Ok s'' ∧ items s'' = recover <$> items s.

Lemma persistLocked_saved `{GoRuntime} io s s0 :
  store_wf s → ids_valid s → path s = path s0 → disk s = disk s0 →
  let s' := (persistLocked io s).2 in
  path s' = path s0 ∧ (disk s' !! path s0 = disk s0 !! path s0 ∨ file_saved s').
Proof.
  intros Hwf Hv Hp Hd s'. destruct (persistLocked_items io s) as [Hi Hpp].
  split; [unfold s'; congruence|].
  destruct (persistLocked_file io s) as [(e & _ & Hf)|(Hok & _)].
  - left. unfold s'. rewrite <- Hp, Hf, Hd. done.
  - right. destruct (persist_reload io s Hwf Hv Hok) as (s'' & H1 & H2).
    exists s''. unfold s'. by rewrite Hpp, Hi.
Qed.

Lemma persist_and_return_2 `{GoRuntime} {A} io s (a : A) :
  (persist_and_return io s a).2 = (persistLocked io s).2.
Proof. unfold persist_and_return. by destruct (persistLocked io s) as [[?|] ?]. Qed.

Lemma run_op_file rt now io s o :
  store_wf s → ids_valid s → op_fresh now s o →
  let s' := run_op rt now io s o in
  path s' = path s ∧ (disk s' !! path s = disk s !! path s ∨ file_saved s').
Proof.
  intros Hwf Hv Hfr s'.
  assert (store_wf s' ∧ ids_valid s') as [Hwf' Hv'].
  { pose proof (store_step_op (λ _, True) s rt now io o I Hfr) as Hst.
    split; [by eapply store_step_wf | by eapply store_step_ids_valid]. }
  assert (∀ s1, items s1 = items s' → path s1 = path s → disk s1 = disk s →
    s' = (persistLocked io s1).2 → path s' = path s ∧
    (disk s' !! path s = disk s !! path s ∨ file_saved s')) as Hgo.
  { intros s1 Hi Hp Hd E. pose proof (persistLocked_saved io s1 s) as Hps. cbv zeta in Hps.
    rewrite <- E in Hps. apply Hps; try done; unfold store_wf, ids_valid; by rewrite Hi. }
  unfold s' in *. destruct o as [rnd r m e|limit|k|k next e n]; simpl in *.
  - destruct (Enqueue_cases now rnd io s r m e) as [(k & it & _ & _ & _ & E)|[_ E]];
      cbv zeta in E; rewrite E in *; rewrite persist_and_return_2 in *;
      match type of Hgo with context [persistLocked io ?x] =>
        apply (Hgo x); [by destruct (persistLocked_items io x)|done..] end.
  - rewrite PickDue_eq in *.
    pose proof (pick_items_spec now s _ (NoDup_picked_ids s limit now)) as (_ & _ & Hp & Hd).
    destruct (pick_items _ _ _) as [out s1]. simpl in Hp, Hd. case_decide.
    + simpl. split; [done|]. left. by rewrite Hd.
    + rewrite persist_and_return_2 in *.
      apply (Hgo s1); [by destruct (persistLocked_items io s1)|done..].
  - unfold MarkDone in *. destruct (items s !! k) as [it|]; [|by auto].
    match type of Hgo with context [persistLocked io ?x] =>
      apply (Hgo x); [by destruct (persistLocked_items io x)|done..] end.
  - unfold MarkRetry in *. destruct (items s !! k) as [it|]; [|by auto].
    match type of Hgo with context [persistLocked io ?x] =>
      apply (Hgo x); [by destruct (persistLocked_items io x)|done..] end.
Qed.

(** Both branches of [Enqueue] put one live item with the message's fingerprint. *)
Lemma Enqueue_put `{GoRuntime} now rnd io s r m e :
  store_wf s → items s !! new_item_id now rnd m = None →
  let fp := payloadFingerprint r m in
  ∃ it, Enqueue now rnd io s r m e = persist_and_return io (put_item s (ID it) it) it ∧
    Fingerprint it = fp ∧ live it = true ∧
    (∀ fp', fp' ≠ fp → ID it ∉ live_ids fp' s) ∧
    (ID it ∈ live_ids fp s ∨ live_ids fp s = ∅ ∧ ID it = new_item_id now rnd m).
Proof.
  intros Hwf Hfr fp.
  destruct (Enqueue_cases now rnd io s r m e) as [(k & it & Hk & Hl & Hfp & E)|[Hno E]]; cbv zeta in E.
  - destruct (with_last_error_same e it) as [(H1 & H2 & _) [H3 _]].
    eexists. split; [exact E|].
    change (ID (with_updated now (with_last_error e it))) with (ID (with_last_error e it)).
    change (Fingerprint (with_updated now (with_last_error e it))) with (Fingerprint (with_last_error e it)).
    rewrite H1, H2. rewrite live_spec in *. simpl. rewrite H3, (Hwf _ _ Hk). split_and!; [done|done| |].
    + intros fp' Hne (? & ? & ? & ?)%elem_of_live_ids. naive_solver.
    + left. apply elem_of_live_ids. exists it. by rewrite live_spec.
  - destruct (fresh_item_spec now rnd r m e) as (Hid & Hfp' & Hl' & _).
    eexists. split; [exact E|]. rewrite Hid. split_and!; [done|done| |].
    + intros fp' Hne (? & ? & ?)%elem_of_live_ids. congruence.
    + right. split; [|done]. apply set_eq. intros j. rewrite elem_of_live_ids. split; [|set_solver].
      intros (x & Hx & Hlx & Hfx). by rewrite (Hno j x Hx Hfx) in Hlx.
Qed.

(** Every fingerprint is that of its message. *)
Definition fingerprints_ok (s : FileStore) : Prop :=
  map_Forall (λ _ it, Fingerprint it = payloadFingerprint (Recipient it) (RawMessage it)) (items s).

Lemma store_step_fingerprints P s s' :
  store_wf s → fingerprints_ok s → store_step P s s' → fingerprints_ok s'.
Proof.
  intros Hwf Hf [rt now io o HP Hfr] id it' Hi.
  pose proof (run_op_change rt now io s o id Hwf Hfr) as Hc. rewrite Hi in Hc.
  destruct (items s !! id) as [it|] eqn:Hs.
  - apply item_change_keeps in Hc as (? & [= <-] & (_ & -> & -> & -> & _) & _). by apply (Hf id).
  - inversion Hc; subst. by destruct e.
Qed.

Lemma fingerprint_input_inj r m r' m' :
  fingerprint_input r m = fingerprint_input r' m' → r = r' ∧ m = m'.
Proof.
  unfold fingerprint_input. intros E%(f_equal reverse). rewrite !reverse_app in E.
  change (reverse "|") with ("|" : bytes) in E. rewrite <- !app_assoc in E. simpl in E.
  assert ("|"%char ∉ reverse (hex m)) as H1 by (rewrite elem_of_reverse; apply hex_no_bar).
  assert ("|"%char ∉ reverse (hex m')) as H2 by (rewrite elem_of_reverse; apply hex_no_bar).
  pose proof (f_equal (index_byte "|"%char) E) as Ei. rewrite !index_byte_app in Ei by done.
  injection Ei as Ei. apply app_inj_1 in E as [E1 E2]; [|done].
  injection E2 as E2. apply (inj reverse) in E1, E2. by apply (inj hex) in E1.
Qed.

(** Two different strings with the same SHA-256 digest. *)
Definition collide (x y : bytes) : Prop := x ≠ y ∧ sha256 x = sha256 y.

Lemma payloadFingerprint_inj r m r' m' :
  payloadFingerprint r m = payloadFingerprint r' m' →
  (r = r' ∧ m = m') ∨ collide (fingerprint_input r m) (fingerprint_input r' m').
Proof.
  unfold payloadFingerprint. intros E%(inj hex).
  destruct (decide (fingerprint_input r m = fingerprint_input r' m')) as [Ei|Hne].
  - left. by apply fingerprint_input_inj.
  - by right.
Qed.

Definition empty_store (p : bytes) : FileStore := mkStore p ∅ ∅.
Lemma empty_store_wf p : store_wf (empty_store p).
Proof. apply map_Forall_empty. Qed.
Lemma empty_store_valid p : ids_valid (empty_store p).
Proof. apply map_Forall_empty. Qed.
#[export] Hint Resolve empty_store_wf empty_store_valid : go.

(** ** List *)
Lemma elem_of_ListItems `{GoRuntime} s limit it :
  it ∈ ListItems s limit → ∃ id, items s !! id = Some it.
Proof.
  unfold ListItems. cbv zeta. intros (i & Hi & _)%elem_of_take. apply list_elem_of_lookup_2 in Hi.
  rewrite elem_of_sort_slice, list_elem_of_fmap in Hi. destruct Hi as ([id x] & -> & Hx).
  exists id. by apply elem_of_map_range.
Qed.

Lemma NoDup_ListItems `{GoRuntime} s limit : store_wf s → NoDup (ID <$> ListItems s limit).
Proof.
  intros Hwf. unfold ListItems. cbv zeta. rewrite fmap_take.
  eapply sublist_NoDup; [|apply sublist_take].
  rewrite sort_slice_perm, <- list_fmap_compose.
  rewrite (list_fmap_ext (ID ∘ snd) fst (map_range (items s))); [apply NoDup_map_range_fst|].
  intros i [id it] Hi%list_elem_of_lookup_2. rewrite elem_of_map_range in Hi. by apply Hwf in Hi.
Qed.

(** A concrete store with one pending item, for the witnesses. *)
Definition one_item_store : FileStore :=
  (Enqueue (H:=stable_runtime) unix_epoch "rnd" PersistOk (empty_store "/tmp/dlq.json")
     "chat" "mail" None).2.
Definition one_item_id : bytes := new_item_id unix_epoch "rnd" "mail".
Definition one_item : Item := fresh_item unix_epoch "rnd" "chat" "mail" None.

Lemma one_item_step P : P (OpEnqueue "rnd" "chat" "mail" None) →
  store_step P (empty_store "/tmp/dlq.json") one_item_store.
Proof.
  intros HP. apply (store_step_op P (empty_store "/tmp/dlq.json") stable_runtime unix_epoch PersistOk
    (OpEnqueue "rnd" "chat" "mail" None)); [done|]. apply lookup_empty.
Qed.
Lemma one_item_store_wf : store_wf one_item_store.
Proof. eapply (store_step_wf (λ _, True)); [|by apply one_item_step]. auto with go. Qed.
Lemma one_item_store_valid : ids_valid one_item_store.
Proof. eapply (store_step_ids_valid (λ _, True)); [| |by apply one_item_step]; auto with go. Qed.
Lemma one_item_store_items : items one_item_store = {[ one_item_id := one_item ]}.
Proof.
  destruct (Enqueue_cases (H:=stable_runtime) unix_epoch "rnd" PersistOk (empty_store "/tmp/dlq.json")
    "chat" "mail" None) as [(k & it & Hk & _)|[_ E]]; [done|].
  unfold one_item_store. cbv zeta in E. rewrite E.
  match goal with |- context [@persist_and_return ?rt _ ?io ?x ?y] =>
    destruct (@persist_and_return_items rt _ io x y) as [-> _] end.
  reflexivity.
Qed.
Lemma one_item_store_lookup : items one_item_store !! one_item_id = Some one_item.
Proof. rewrite one_item_store_items. apply lookup_singleton_eq. Qed.
Lemma one_item_store_fresh : items one_item_store !! new_item_id unix_epoch "rnd2" "mail" = None.
Proof. vm_compute. reflexivity. Qed.

(** * Properties *)

(** The one item that [Enqueue] writes. *)
Lemma Enqueue_one_item `{GoRuntime} now rnd io s r m e :
  store_wf s → items s !! new_item_id now rnd m = None →
  let fp := payloadFingerprint r m in
  let s' := (Enqueue now rnd io s r m e).2 in
  ∃ it, items s' !! ID it = Some it ∧ (∀ id, id ≠ ID it → items s' !! id = items s !! id) ∧
    Fingerprint it = fp ∧
    ((∃ it0, items s !! ID it = Some it0 ∧ live it0 = true ∧ Fingerprint it0 = fp ∧
        it = {| ID := ID it0; Fingerprint := fp; Recipient := Recipient it0; RawMessage := RawMessage it0;
                LastError := default (LastError it0) e; status := status it0; Attempt := Attempt it0;
                NextRetryAt := NextRetryAt it0; CreatedAt := CreatedAt it0; UpdatedAt := now |}) ∨
     live_ids fp s = ∅ ∧ items s !! ID it = None ∧
       it = {| ID := new_item_id now rnd m; Fingerprint := fp; Recipient := r; RawMessage := m;
               LastError := default [] e; status := StatusPending; Attempt := 0;
               NextRetryAt := now; CreatedAt := now; UpdatedAt := now |}).
Proof.
  intros Hwf Hfr fp s'. unfold s'.
  destruct (Enqueue_cases now rnd io s r m e) as [(k & x & Hk & Hl & Hx & E)|[Hn E]]; cbv zeta in E; rewrite E.
  - exists (with_updated now (with_last_error e x)). rewrite (proj1 (persist_and_return_items _ _ _)).
    cbn [put_item set_items items]. rewrite lookup_insert_eq. split; [done|].
    split; [intros id Hid; by rewrite lookup_insert_ne|]. fold fp in Hx. split; [by destruct e|].
    left. exists x. rewrite <- Hx. pose proof (Hwf k x Hk) as Hid. simpl in Hid. rewrite <- Hid in Hk.
    split_and!; [by destruct e|done..|by destruct e].
  - exists (fresh_item now rnd r m e). rewrite (proj1 (persist_and_return_items _ _ _)).
    cbn [put_item set_items items]. rewrite lookup_insert_eq. split; [done|].
    split; [intros id Hid; by rewrite lookup_insert_ne|]. split; [by destruct e|].
    right. split_and!; [|by destruct e|by destruct e].
    apply set_eq. intros id. rewrite elem_of_live_ids. split; [|set_solver].
    intros (it & Hi & Hlive & Hfp). by rewrite (Hn id it Hi Hfp) in Hlive.
Qed.

(** C18. Deduplication.  [Enqueue] changes one item only: the live item of the same
    fingerprint if there is one, of which only the last error and the time of change
    change, and else a new pending item for the recipient and message, with no
    attempts and due now; every other item stays as it is.  So after [Enqueue] the ids
    of the live items that carry the message's fingerprint are those there were, or
    the one new id if there were none, and other messages keep theirs; and an
    accepted call returns that item, live in the store under its id. *)
Theorem Enqueue_deduplicates `{GoRuntime} now rnd io s r m e :
  store_wf s → items s !! new_item_id now rnd m = None →
  let fp := payloadFingerprint r m in
  let s' := (Enqueue now rnd io s r m e).2 in
  (∃ it, items s' !! ID it = Some it ∧ (∀ id, id ≠ ID it → items s' !! id = items s !! id) ∧
     Fingerprint it = fp ∧
     ((∃ it0, items s !! ID it = Some it0 ∧ live it0 = true ∧ Fingerprint it0 = fp ∧
         it = {| ID := ID it0; Fingerprint := fp; Recipient := Recipient it0; RawMessage := RawMessage it0;
                 LastError := default (LastError it0) e; status := status it0; Attempt := Attempt it0;
                 NextRetryAt := NextRetryAt it0; CreatedAt := CreatedAt it0; UpdatedAt := now |}) ∨
      live_ids fp s = ∅ ∧ items s !! ID it = None ∧
        it = {| ID := new_item_id now rnd m; Fingerprint := fp; Recipient := r; RawMessage := m;
                LastError := default [] e; status := StatusPending; Attempt := 0;
                NextRetryAt := now; CreatedAt := now; UpdatedAt := now |})) ∧
  live_ids fp s' = (if decide (live_ids fp s = ∅) then {[ new_item_id now rnd m ]}
                    else live_ids fp s) ∧
  (∀ fp', fp' ≠ fp → live_ids fp' s' = live_ids fp' s) ∧
  (∀ it, (Enqueue now rnd io s r m e).1 = Ok it →
     ID it ∈ live_ids fp s' ∧ items s' !! ID it = Some it).
Proof.
  intros Hwf Hfr fp s'. unfold s'. split; [by apply Enqueue_one_item|].
  destruct (Enqueue_put now rnd io s r m e Hwf Hfr) as (it & E & Hfp & Hl & Hother & Hk).
  fold fp in Hfp, Hother, Hk.
  assert (items (Enqueue now rnd io s r m e).2 = <[ID it := it]> (items s)) as Hs.
  { rewrite E. by destruct (persist_and_return_items io (put_item s (ID it) it) it). }
  assert (live_ids fp (Enqueue now rnd io s r m e).2 = {[ID it]} ∪ live_ids fp s) as Hfps.
  { by rewrite (live_ids_put fp _ _ _ _ Hs), Hl, Hfp, bool_decide_eq_true_2. }
  split_and!.
  - rewrite Hfps. destruct Hk as [Hk|[-> ->]]; [|set_solver]. rewrite decide_False; set_solver.
  - intros fp' Hne. rewrite (live_ids_put fp' _ _ _ _ Hs), Hfp, bool_decide_eq_false_2, andb_false_r by done.
    specialize (Hother fp' Hne). set_solver.
  - intros a Ha. rewrite Hfps, Hs, E in *. destruct (persist_and_return io _ it) as [o so] eqn:Ep.
    simpl in Ha. subst o. apply persist_and_return_Ok in Ep as [-> _].
    rewrite lookup_insert_eq. set_solver.
Qed.

Lemma Enqueue_deduplicates_witness :
  store_wf one_item_store ∧ live_ids (payloadFingerprint "chat" "mail")
    (Enqueue (H:=stable_runtime) unix_epoch "rnd2" (RenameFails "no space") one_item_store
       "chat" "mail" None).2 =
    live_ids (payloadFingerprint "chat" "mail") one_item_store.
Proof.
  split; [exact one_item_store_wf|].
  destruct (Enqueue_deduplicates (H:=stable_runtime) unix_epoch "rnd2" (RenameFails "no space")
    one_item_store "chat" "mail" None one_item_store_wf one_item_store_fresh) as (_ & -> & _).
  rewrite decide_False; [done|]. intros E.
  assert (one_item_id ∈ live_ids (payloadFingerprint "chat" "mail") one_item_store) as Hin.
  { apply elem_of_live_ids. eexists. split; [exact one_item_store_lookup|]. by split. }
  by rewrite E in Hin.
Defined.

Lemma store_steps_keep P s s' :
  store_wf s → rtc (store_step P) s s' →
  ∀ id it, items s !! id = Some it →
  ∃ it', items s' !! id = Some it' ∧ same_message it it' ∧
    ((∀ o, P o → not_marking id o) → live it = true → live it' = true).
Proof.
  intros Hwf Hst. induction Hst as [s|s s1 s2 Hst _ IH]; intros id it Hi.
  { exists it. split_and!; [done|reflexivity|done]. }
  pose proof (store_step_wf P s s1 Hwf Hst) as Hwf1. destruct Hst as [rt now io o HP Hfr].
  pose proof (run_op_change rt now io s o id Hwf Hfr) as Hc. rewrite Hi in Hc.
  apply item_change_keeps in Hc as (it1 & Hi1 & Hm1 & Hl1).
  destruct (IH Hwf1 id it1 Hi1) as (it2 & Hi2 & Hm2 & Hl2).
  exists it2. split_and!; [done|by etrans|]. eauto.
Qed.

(** C12. No message is lost.  Whatever sequence of operations runs, with whatever
    outcomes of the file system, every item stays in the store under its id
    with its recipient, message, fingerprint and creation time unchanged; and a
    live item stays live unless [MarkDone] or [MarkRetry] is called on it. *)
Theorem store_keeps_messages P s s' :
  store_wf s → rtc (store_step P) s s' →
  ∀ id it, items s !! id = Some it →
  ∃ it', items s' !! id = Some it' ∧ same_message it it' ∧
    ((∀ o, P o → not_marking id o) → live it = true → live it' = true).
Proof. apply store_steps_keep. Qed.

Lemma store_keeps_messages_witness :
  ∃ it', items (PickDue (H:=stable_runtime) PersistOk one_item_store 5 unix_epoch).2 !! one_item_id = Some it' ∧
    RawMessage it' = "mail" ∧ live it' = true.
Proof.
  destruct (store_keeps_messages (not_marking one_item_id) one_item_store
    (PickDue (H:=stable_runtime) PersistOk one_item_store 5 unix_epoch).2 one_item_store_wf)
    with one_item_id one_item as (it' & Hi & (_ & _ & _ & Hr & _) & Hl).
  - apply rtc_once. by apply (store_step_op _ one_item_store stable_runtime unix_epoch PersistOk (OpPickDue 5)).
  - exact one_item_store_lookup.
  - exists it'. split_and!; [done| |by apply Hl]. rewrite Hr. done.
Defined.

Lemma picked_mem `{GoRuntime} s limit now id :
  let sorted := sort_slice (λ i j, before (NextRetryAt (get_item s i)) (NextRetryAt (get_item s j)))
                  (due_ids now s) in
  id ∈ due_ids now s →
  id ∈ picked_ids s limit now ∨ id ∈ drop (effective_limit 10 limit) sorted.
Proof.
  intros sorted Hd. rewrite <- (elem_of_sort_slice _ _ id : _ ∈ sorted ↔ _) in Hd.
  by rewrite <- (take_drop (effective_limit 10 limit) sorted), elem_of_app in Hd.
Qed.

(** What the caller of [PickDue] gets and what the store then holds. *)
Lemma PickDue_out `{GoRuntime} io s limit now out s' :
  store_wf s → PickDue io s limit now = (Ok out, s') →
  NoDup (ID <$> out) ∧
  (∀ it, it ∈ out → items s' !! ID it = Some it ∧
     ∃ it0, items s !! ID it = Some it0 ∧ is_due now it0 = true ∧ it = mark_processing now it0) ∧
  (∀ id, id ∉ ID <$> out → items s' !! id = items s !! id).
Proof.
  intros Hwf E. pose proof (PickDue_result_ids io s limit now out s' Hwf E) as Hids.
  pose proof (PickDue_result io s limit now out s' E) as Hout.
  pose proof (PickDue_items io s limit now) as Hi. rewrite E in Hi. cbn [snd] in Hi.
  rewrite Hids. split_and!.
  - apply NoDup_picked_ids.
  - intros it Hit. assert (ID it ∈ picked_ids s limit now) as Hin by (rewrite <- Hids; by apply list_elem_of_fmap_2).
    rewrite Hi, decide_True by done. rewrite Hout in Hit.
    apply list_elem_of_fmap in Hit as (id & -> & Hid). destruct (picked_is_due s limit now id Hid) as (it0 & H0 & Hd).
    assert (ID (mark_processing now (get_item s id)) = id) as Hidid.
    { unfold get_item. rewrite H0. simpl. by apply Hwf in H0. }
    cbn [compose]. rewrite Hidid. split; [done|]. exists it0. split_and!; [done|done|].
    unfold get_item. by rewrite H0.
  - intros id Hid. by rewrite Hi, decide_False.
Qed.

(** C16. What [PickDue] hands out: distinct items that were pending and due, at
    most [limit] of them (10 if [limit] is not positive), earliest retry time
    first; each is now processing and no other item has changed; and a due
    item is left out only if the batch is full of items due no later. *)
Theorem PickDue_spec `{GoRuntime} io s limit now out s' :
  store_wf s → PickDue io s limit now = (Ok out, s') →
  NoDup (ID <$> out) ∧ (length out ≤ effective_limit 10 limit)%nat ∧
  StronglySorted (λ x y, NextRetryAt x ≤ NextRetryAt y) out ∧
  (∀ it, it ∈ out → items s' !! ID it = Some it ∧
     ∃ it0, items s !! ID it = Some it0 ∧ is_due now it0 = true ∧ it = mark_processing now it0) ∧
  (∀ id, id ∉ ID <$> out → items s' !! id = items s !! id) ∧
  (∀ id it0, items s !! id = Some it0 → is_due now it0 = true → id ∉ ID <$> out →
     length out = effective_limit 10 limit ∧ ∀ it, it ∈ out → NextRetryAt it ≤ NextRetryAt it0).
Proof.
  intros Hwf E. pose proof (PickDue_result_ids io s limit now out s' Hwf E) as Hids.
  pose proof (PickDue_result io s limit now out s' E) as Hout.
  destruct (PickDue_out io s limit now out s' Hwf E) as (Hnd & Hit & Hother).
  set (key := λ i, NextRetryAt (get_item s i)).
  set (sorted := sort_slice (λ i j, before (key i) (key j)) (due_ids now s)).
  assert (StronglySorted (λ i j, before (key j) (key i) = false) sorted) as Hs
    by (apply sort_slice_sorted; unfold before; auto with go).
  assert (picked_ids s limit now = take (effective_limit 10 limit) sorted) as Hp by done.
  split_and!; [done| | |done|done|].
  - rewrite Hout, length_fmap, Hp. apply firstn_le_length.
  - rewrite Hout, Hp. clear -Hs. rewrite <- (take_drop (effective_limit 10 limit) sorted) in Hs.
    apply StronglySorted_app in Hs as (_ & Hs & _). revert Hs. generalize (take (effective_limit 10 limit) sorted).
    induction 1 as [|i l Hl IH Hf]; cbn; constructor; [done|]. apply Forall_fmap.
    eapply Forall_impl; [exact Hf|]. unfold before. cbn. intros j Hj%Z.ltb_ge. exact Hj.
  - rewrite Hids. intros id it0 H0 Hd Hid.
    destruct (picked_mem s limit now id) as [?|Hdrop]; [apply elem_of_due_ids; by eauto|done|].
    split.
    + rewrite Hout, length_fmap, Hp, length_take. apply list_elem_of_lookup_1 in Hdrop as (k & Hk).
      rewrite lookup_drop in Hk. apply lookup_lt_Some in Hk.
      change (effective_limit 10 limit + k < length sorted)%nat in Hk. lia.
    + intros x Hx. rewrite Hout in Hx. apply list_elem_of_fmap in Hx as (j & -> & Hj).
      rewrite Hp in Hj. pose proof (StronglySorted_take_drop _ _ _ _ _ Hs Hj Hdrop) as Hle.
      cbn. unfold key, before in Hle. unfold get_item at 1 in Hle. rewrite H0 in Hle. by apply Z.ltb_ge in Hle.
Qed.

Definition picked_one : Item := mark_processing unix_epoch one_item.
Definition picked_store : FileStore :=
  (PickDue (H:=stable_runtime) PersistOk one_item_store 5 unix_epoch).2.

Lemma PickDue_one :
  PickDue (H:=stable_runtime) PersistOk one_item_store 5 unix_epoch = (Ok [picked_one], picked_store).
Proof.
  rewrite (surjective_pairing (PickDue _ _ _ _)). apply (f_equal (λ o, (o, picked_store))).
  vm_compute. reflexivity.
Qed.

Lemma picked_store_lookup : items picked_store !! one_item_id = Some picked_one.
Proof.
  unfold picked_store. rewrite PickDue_items, decide_True.
  - unfold get_item. by rewrite one_item_store_lookup.
  - rewrite <- (PickDue_result_ids (H:=stable_runtime) PersistOk one_item_store 5 unix_epoch
      [picked_one] picked_store one_item_store_wf PickDue_one). by apply list_elem_of_singleton.
Qed.

Lemma PickDue_spec_witness :
  store_wf one_item_store ∧ items picked_store !! one_item_id = Some picked_one.
Proof.
  split; [exact one_item_store_wf|].
  destruct (PickDue_spec (H:=stable_runtime) PersistOk one_item_store 5 unix_epoch [picked_one] picked_store
    one_item_store_wf PickDue_one) as (_ & _ & _ & Hit & _).
  destruct (Hit picked_one) as [Hi _]; [by apply list_elem_of_singleton|]. exact Hi.
Defined.

(** Processing items stay processing until they are marked. *)
Definition processing (s : FileStore) (id : bytes) : Prop :=
  ∃ it, items s !! id = Some it ∧ status it = StatusProcessing.

Lemma store_step_processing P s s' id :
  store_wf s → (∀ o, P o → not_marking id o) → processing s id → store_step P s s' → processing s' id.
Proof.
  intros Hwf HP (it & Hi & Hst) [rt now io o Ho Hfr].
  pose proof (run_op_change rt now io s o id Hwf Hfr) as Hc. rewrite Hi in Hc.
  unfold processing. apply HP in Ho. destruct (items (run_op rt now io s o) !! id) as [it'|]; [|by inversion Hc].
  exists it'. split; [done|].
  inversion Hc; subst; simpl in Ho; try done. by rewrite <- Hst; apply with_last_error_same.
Qed.

Lemma processing_not_picked (rt : GoRuntime) s1 s2 io limit now out s3 id :
  store_wf s1 → processing s1 id → rtc (store_step (not_marking id)) s1 s2 →
  PickDue io s2 limit now = (Ok out, s3) → id ∉ ID <$> out.
Proof.
  intros Hwf1 Hp Hst H2.
  assert (store_wf s2 ∧ processing s2 id) as [Hwf2 Hp2].
  { clear H2. induction Hst as [|a b c Hst _ IH]; [done|].
    apply IH; [by eapply store_step_wf | by eapply store_step_processing]. }
  rewrite (PickDue_result_ids io s2 limit now out s3 Hwf2 H2).
  destruct Hp2 as (it & Hi & Hst2). intros (it' & Hi' & [Hpend _]%is_due_spec)%picked_is_due.
  simplify_eq. by rewrite Hst2 in Hpend.
Qed.

Lemma PickDue_processing (rt : GoRuntime) io s limit now r s1 id :
  store_wf s → id ∈ picked_ids s limit now → PickDue io s limit now = (r, s1) →
  store_wf s1 ∧ processing s1 id.
Proof.
  intros Hwf Hid H1. pose proof (PickDue_items io s limit now id) as Hi. rewrite H1 in Hi. cbn [snd] in Hi.
  rewrite decide_True in Hi by done. split; [|by eexists].
  pose proof (store_step_op (λ _, True) s rt now io (OpPickDue limit) I I) as Hs.
  simpl in Hs. rewrite H1 in Hs. by eapply store_step_wf.
Qed.

(** C17. No item is handed out twice.  Once [PickDue] returns an item, no later
    [PickDue] returns it again, whatever happens in between, until [MarkDone] or
    [MarkRetry] is called on it (or the process restarts). *)
Theorem PickDue_exclusive (rt rt' : GoRuntime) io s limit now out s1 s2 io' limit' now' out' s3 id :
  store_wf s →
  PickDue (H:=rt) io s limit now = (Ok out, s1) → id ∈ ID <$> out →
  rtc (store_step (not_marking id)) s1 s2 →
  PickDue (H:=rt') io' s2 limit' now' = (Ok out', s3) →
  id ∉ ID <$> out'.
Proof.
  intros Hwf H1 Hid Hst H2. rewrite (PickDue_result_ids (H:=rt) io s limit now out s1 Hwf H1) in Hid.
  destruct (PickDue_processing rt io s limit now _ s1 id Hwf Hid H1). by eapply processing_not_picked.
Qed.

Definition two_item_store : FileStore :=
  (Enqueue (H:=stable_runtime) unix_epoch "rnd2" PersistOk picked_store "chat2" "mail2" None).2.
Definition second_pick : res (list Item) * FileStore :=
  PickDue (H:=reversed_runtime) PersistOk two_item_store 0 (unix_epoch + Hour).

Lemma second_pick_ok : is_ok second_pick.1 = true ∧ length (ok_or [] second_pick.1) = 1%nat.
Proof. vm_compute. split; reflexivity. Qed.

Lemma two_item_step :
  rtc (store_step (not_marking one_item_id)) picked_store two_item_store.
Proof.
  apply rtc_once. apply (store_step_op _ picked_store stable_runtime unix_epoch PersistOk
    (OpEnqueue "rnd2" "chat2" "mail2" None)); [exact I|]. vm_compute. reflexivity.
Qed.

Lemma PickDue_exclusive_witness :
  length (ok_or [] second_pick.1) = 1%nat ∧ one_item_id ∉ ID <$> ok_or [] second_pick.1.
Proof.
  split; [apply second_pick_ok|].
  refine (PickDue_exclusive stable_runtime reversed_runtime PersistOk one_item_store 5 unix_epoch
    [picked_one] picked_store two_item_store PersistOk 0 (unix_epoch + Hour) _ _ one_item_id
    one_item_store_wf PickDue_one _ two_item_step (ok_pair [] second_pick (proj1 second_pick_ok))).
  by apply list_elem_of_singleton.
Defined.

(** A loaded store is keyed by the ids of its items. *)
Lemma NewFileStore_wf read_err p d s : NewFileStore read_err p d = Ok s → store_wf s.
Proof.
  assert (∀ (l : list Item) (m : gmap bytes Item), map_Forall (λ id it, ID it = id) m →
    map_Forall (λ id it, ID it = id) (foldl (λ m it, <[ID it := it]> m) m l)) as Hl.
  { induction l as [|it l IH]; intros m Hm; [done|]. by apply IH, map_Forall_insert_2. }
  unfold NewFileStore, load. cbn [disk path]. destruct read_err as [e|]; [done|].
  destruct (d !! p) as [[]|]; intros; simplify_eq; try apply map_Forall_empty. apply Hl, map_Forall_empty.
Qed.

(** Loading depends only on the content of the store's file. *)
Lemma NewFileStore_file p d d' s :
  NewFileStore None p d = Ok s → d' !! p = d !! p →
  ∃ s', NewFileStore None p d' = Ok s' ∧ items s' = items s.
Proof.
  unfold NewFileStore, load. cbn [disk path]. intros Hs ->.
  destruct (d !! p) as [[]|]; simplify_eq; by eexists.
Qed.

Lemma store_steps_crash P s s' :
  store_wf s → ids_valid s → rtc (store_step P) s s' →
  disk s' !! path s = disk s !! path s ∨
  ∃ s1 s2, rtc (store_step P) s s1 ∧ rtc (store_step P) s1 s' ∧
    NewFileStore None (path s) (disk s') = Ok s2 ∧ items s2 = recover <$> items s1.
Proof.
  intros Hwf Hv Hst.
  assert (path s' = path s ∧ store_wf s' ∧ ids_valid s' ∧
    (disk s' !! path s = disk s !! path s ∨
     ∃ s1 s2, rtc (store_step P) s s1 ∧ rtc (store_step P) s1 s' ∧
       NewFileStore None (path s) (disk s') = Ok s2 ∧ items s2 = recover <$> items s1)) as (_ & _ & _ & H);
    [|exact H].
  revert s' Hst. refine (rtc_ind_r _ s _ _); [by auto|]. intros x y Hst Hxy (Hp & Hwfx & Hvx & Hf).
  pose proof (store_step_wf P x y Hwfx Hxy). pose proof (store_step_ids_valid P x y Hwfx Hvx Hxy).
  pose proof Hxy as Hstep. destruct Hstep as [rt now io o Ho Hfr].
  destruct (run_op_file rt now io x o Hwfx Hvx Hfr) as [Hpy Hfy].
  split_and!; [congruence|done|done|]. rewrite Hp in Hfy, Hpy. destruct Hfy as [Hfy|(s2 & Hl & Hi)].
  - rewrite Hfy. destruct Hf as [Hf|(s1 & s2 & H1 & H2 & H3 & H4)]; [by left|right].
    destruct (NewFileStore_file _ _ _ _ H3 Hfy) as (s3 & Hl3 & Hi3).
    exists s1, s3. split_and!; [done|by eapply rtc_r|done|by rewrite Hi3].
  - right. exists (run_op rt now io x o), s2. split_and!; [by eapply rtc_r|reflexivity| |done].
    by rewrite Hpy in Hl.
Qed.

(** C13. Atomic persistence.  After any sequence of operations, with any failures
    of the file system in between, the store's file is the one it started
    with or a snapshot of the store at some moment of the sequence: loading it
    gives every item of that moment, those being processed as pending. *)
Theorem store_crash_safe P s s' :
  store_wf s → ids_valid s → rtc (store_step P) s s' →
  disk s' !! path s = disk s !! path s ∨
  ∃ s1 s2, rtc (store_step P) s s1 ∧ rtc (store_step P) s1 s' ∧
    NewFileStore None (path s) (disk s') = Ok s2 ∧ items s2 = recover <$> items s1.
Proof. apply store_steps_crash. Qed.

Lemma store_crash_safe_witness :
  ∃ s1 s2, rtc (store_step (λ _, True)) (empty_store "/tmp/dlq.json") s1 ∧
    rtc (store_step (λ _, True)) s1 picked_store ∧
    NewFileStore None "/tmp/dlq.json" (disk picked_store) = Ok s2 ∧ items s2 = recover <$> items s1.
Proof.
  destruct (store_crash_safe (λ _, True) (empty_store "/tmp/dlq.json") picked_store) as [E|H];
    [auto with go..| | |exact H].
  - eapply rtc_l; [by apply one_item_step|]. apply rtc_once.
    by apply (store_step_op _ one_item_store stable_runtime unix_epoch PersistOk (OpPickDue 5)).
  - exfalso. revert E. assert (is_Some (disk picked_store !! path (empty_store "/tmp/dlq.json"))) as [d ->].
    { apply (bool_decide_unpack _). vm_compute. exact I. }
    done.
Defined.

Lemma recover_live it :
  live it = true → status (recover it) = StatusPending ∧ RawMessage (recover it) = RawMessage it.
Proof.
  intros [H|H]%live_spec; unfold recover, load_item, json_item; cbv zeta; cbn [status]; rewrite H;
    by repeat case_decide.
Qed.

Lemma Enqueue_payload `{GoRuntime} now rnd io s r m e it :
  fingerprints_ok s → (Enqueue now rnd io s r m e).1 = Ok it →
  (Recipient it = r ∧ RawMessage it = m) ∨
  collide (fingerprint_input (Recipient it) (RawMessage it)) (fingerprint_input r m).
Proof.
  intros Hfp Hok.
  destruct (Enqueue_cases now rnd io s r m e) as [(k & x & Hk & _ & Hx & E)|[_ E]]; cbv zeta in E;
    rewrite E in Hok; destruct (persist_and_return _ _ _) as [o so] eqn:Ep; simpl in Hok; subst o;
    apply persist_and_return_Ok in Ep as [-> _].
  - pose proof (with_last_error_same e x) as [(_ & _ & Hr & Hm & _) _]. simpl. rewrite Hr, Hm.
    pose proof (Hfp k x Hk) as Hf. simpl in Hf. rewrite Hf in Hx. by apply payloadFingerprint_inj.
  - left. by destruct e.
Qed.

(** What a restart keeps of an item: text that is not valid UTF-8 is repaired. *)
Lemma recover_fields it :
  ID (recover it) = to_valid_utf8 (ID it) ∧ Recipient (recover it) = to_valid_utf8 (Recipient it) ∧
  LastError (recover it) = to_valid_utf8 (LastError it) ∧ Attempt (recover it) = Attempt it ∧
  NextRetryAt (recover it) = NextRetryAt it ∧ CreatedAt (recover it) = CreatedAt it ∧ UpdatedAt (recover it) = UpdatedAt it.
Proof. unfold recover, load_item. cbv zeta. by repeat case_decide. Qed.

(** C14. An accepted message survives a restart.  When [Enqueue] returns an item, the
    file on disk loads, and the loaded store has the item under its id, pending, with
    its raw message byte for byte, its recipient and last error (with invalid UTF-8
    repaired, as the JSON file holds text), its attempts and its times; the item is
    about the recipient and message the caller gave, unless the two messages have
    the same SHA-256 digest; so if the given recipient is valid UTF-8, the reloaded
    item is for that recipient and message. *)
Theorem Enqueue_durable `{GoRuntime} now rnd io s r m e it s' :
  store_wf s → ids_valid s → fingerprints_ok s → items s !! new_item_id now rnd m = None →
  Enqueue now rnd io s r m e = (Ok it, s') →
  (∃ s2 it2, NewFileStore None (path s) (disk s') = Ok s2 ∧ items s2 !! ID it = Some it2 ∧ ID it2 = ID it ∧
     status it2 = StatusPending ∧ RawMessage it2 = RawMessage it ∧
     Recipient it2 = to_valid_utf8 (Recipient it) ∧ LastError it2 = to_valid_utf8 (LastError it) ∧
     Attempt it2 = Attempt it ∧ NextRetryAt it2 = NextRetryAt it ∧
     CreatedAt it2 = CreatedAt it ∧ UpdatedAt it2 = UpdatedAt it ∧
     (valid_utf8 r → (Recipient it2 = r ∧ RawMessage it2 = m) ∨
        collide (fingerprint_input (Recipient it) (RawMessage it)) (fingerprint_input r m))) ∧
  ((Recipient it = r ∧ RawMessage it = m) ∨
   collide (fingerprint_input (Recipient it) (RawMessage it)) (fingerprint_input r m)).
Proof.
  intros Hwf Hv Hfp Hfr E.
  assert ((Recipient it = r ∧ RawMessage it = m) ∨
    collide (fingerprint_input (Recipient it) (RawMessage it)) (fingerprint_input r m)) as Hgiven.
  { apply (Enqueue_payload now rnd io s r m e); [done|by rewrite E]. }
  split; [|exact Hgiven].
  destruct (Enqueue_put now rnd io s r m e Hwf Hfr) as (x & Ex & _ & Hl & _).
  assert (store_wf (put_item s (ID x) x) ∧ ids_valid (put_item s (ID x) x)) as [Hwf1 Hv1].
  { pose proof (store_step_op (λ _, True) s _ now io (OpEnqueue rnd r m e) I Hfr) as Hst.
    pose proof (store_step_wf _ _ _ Hwf Hst) as H1.
    pose proof (store_step_ids_valid _ _ _ Hwf Hv Hst) as H2. unfold store_wf, ids_valid in *. simpl in H1, H2.
    rewrite Ex in H1, H2. by rewrite (proj1 (persist_and_return_items _ _ _)) in H1, H2. }
  rewrite Ex in E. unfold persist_and_return in E.
  pose proof (persist_reload io _ Hwf1 Hv1) as Hre. destruct (persistLocked _ _) as [[?|] ?] eqn:Ep; [done|].
  simplify_eq. destruct Hre as (s2 & H2 & Hi2); [done|]. exists s2, (recover it).
  destruct (recover_live it Hl) as [Hst Hraw]. destruct (recover_fields it) as (Hid & Hrcp & Hf).
  assert (valid_utf8 (ID it)) as Hvid.
  { apply (Hv1 _ it). cbn. apply lookup_insert_eq. }
  rewrite Hvid in Hid. rewrite Hst, Hraw, Hrcp. split_and!; try done; try apply Hf.
  - rewrite Hi2, lookup_fmap, put_item_lookup, decide_True by done. done.
  - intros Hr. destruct Hgiven as [[-> ->]|Hc]; [by left|by right].
Qed.

Lemma Enqueue_durable_witness :
  ∃ s2 it2, NewFileStore None "/tmp/dlq.json" (disk one_item_store) = Ok s2 ∧
    items s2 !! one_item_id = Some it2 ∧ status it2 = StatusPending ∧ RawMessage it2 = "mail" ∧ Recipient it2 = "chat".
Proof.
  destruct (Enqueue_durable (H:=stable_runtime) unix_epoch "rnd" PersistOk (empty_store "/tmp/dlq.json")
    "chat" "mail" None one_item one_item_store) as [H _];
    [auto with go..| | | |destruct H as (s2 & it2 & H1 & H2 & _ & H3 & H4 & H5 & _); exists s2, it2;
      refine (conj H1 (conj H2 (conj H3 (conj H4 _)))); rewrite H5; vm_compute; reflexivity].
  - apply map_Forall_empty.
  - apply lookup_empty.
  - unfold one_item_store. rewrite (surjective_pairing (Enqueue _ _ _ _ _ _ _)) at 1.
    apply (f_equal (λ o, (o, one_item_store))). vm_compute. reflexivity.
Defined.

(** ** Retries *)

(** A run of [MarkRetry] calls for one item, each with its clock, file-system
    outcome, next time and error. *)
Definition retry_all `{GoRuntime} (maxRetries : Z) (s : FileStore) (id : bytes)
    (calls : list (time * persist_io * time * option bytes)) : FileStore :=
  foldl (λ s '(now, io, next, e), (MarkRetry now io s id next e maxRetries).2) s calls.

Lemma MarkRetry_lookup `{GoRuntime} now io s id next e n it :
  items s !! id = Some it →
  items (MarkRetry now io s id next e n).2 !! id = Some (retry_item now next e n it).
Proof.
  intros Hi. unfold MarkRetry. rewrite Hi.
  match goal with |- context [persistLocked io ?x] => destruct (persistLocked_items io x) as [-> _] end.
  by rewrite put_item_lookup, decide_True.
Qed.

Lemma retry_item_spec now next e n it :
  in_int64 (Attempt it + 1) →
  Attempt (retry_item now next e n it) = Attempt it + 1 ∧
  (status (retry_item now next e n it) =
     if (0 <? n) && (n <=? Attempt it + 1) then StatusFailed else StatusPending) ∧
  NextRetryAt (retry_item now next e n it) =
     if (0 <? n) && (n <=? Attempt it + 1) then NextRetryAt it else next.
Proof.
  intros Hb. unfold retry_item. cbv zeta.
  set (it' := with_last_error e _).
  destruct (with_last_error_same e (with_updated now (with_attempt (wrap64 (Attempt it + 1)) it)))
    as (_ & _ & Ha & Hn). fold it' in Ha, Hn. cbn in Ha, Hn. rewrite wrap64_id in Ha by done.
  rewrite Ha. by split_if.
Qed.

(** The retry budget.  [MarkRetry] counts one attempt per call whatever the
    file system does; after [k ≥ 1] calls the item has failed for good exactly
    when a budget is set and the attempts have reached it, and is otherwise
    pending again at the time the last call chose; its message is untouched. *)
Theorem MarkRetry_budget `{GoRuntime} maxRetries s id it calls now io next e :
  items s !! id = Some it → 0 ≤ Attempt it →
  Attempt it + Z.of_nat (length calls) + 1 ≤ int64_max →
  let n := Attempt it + Z.of_nat (length calls) + 1 in
  ∃ it', items (retry_all maxRetries s id (calls ++ [(now, io, next, e)])) !! id = Some it' ∧
    same_message it it' ∧ Attempt it' = n ∧
    (status it' = if (0 <? maxRetries) && (maxRetries <=? n) then StatusFailed else StatusPending) ∧
    (status it' = StatusPending → NextRetryAt it' = next).
Proof.
  intros Hi H0 Hmax n.
  assert (∃ x, items (retry_all maxRetries s id calls) !! id = Some x ∧ same_message it x ∧
    Attempt x = Attempt it + Z.of_nat (length calls)) as (x & Hx & Hm & Ha).
  { clear n. induction calls as [|[[[now' io'] next'] e'] calls IH] using rev_ind.
    { exists it. split_and!; [done|reflexivity|simpl; lia]. }
    rewrite length_app in *. simpl in *. destruct IH as (x & Hx & Hm & Ha); [lia|].
    unfold retry_all in *. rewrite foldl_snoc. eexists. split; [by apply MarkRetry_lookup|].
    destruct (retry_item_spec now' next' e' maxRetries x) as [-> _].
    { unfold in_int64, int64_min in *. unfold int64_max in *. lia. }
    split; [|lia]. etrans; [exact Hm|]. apply retry_item_same. }
  unfold retry_all in *. rewrite foldl_snoc. eexists. split; [by apply MarkRetry_lookup|].
  destruct (retry_item_spec now next e maxRetries x) as (Ha' & Hs & Hn).
  { unfold in_int64, int64_min in *. unfold int64_max in *. lia. }
  rewrite Ha in *. fold n in Ha', Hs, Hn. split_and!; [etrans; [exact Hm|apply retry_item_same]|done|done|].
  rewrite Hs, Hn. by split_if.
Qed.

Lemma MarkRetry_budget_witness :
  ∃ it', items (retry_all (H:=stable_runtime) 2 picked_store one_item_id
      [(unix_epoch, PersistOk, unix_epoch + Minute, Some "timeout" : option bytes);
       (unix_epoch + Minute, MkdirFails "read-only", unix_epoch + Hour, None)]) !! one_item_id = Some it' ∧
    status it' = StatusFailed.
Proof.
  destruct (MarkRetry_budget (H:=stable_runtime) 2 picked_store one_item_id picked_one
    [(unix_epoch, PersistOk, unix_epoch + Minute, Some "timeout")]
    (unix_epoch + Minute) (MkdirFails "read-only") (unix_epoch + Hour) None)
    as (it' & Hi & _ & _ & Hs & _).
  - exact picked_store_lookup.
  - done.
  - done.
  - exists it'. split; [exact Hi|exact Hs].
Defined.

(** ** Observers *)
Definition count (p : Item → bool) (s : FileStore) : Z :=
  Z.of_nat (size (filter (λ kv, p kv.2 = true) (items s))).

Lemma count_range `{GoRuntime} p s :
  count p s = Z.of_nat (length (filter (λ it, p it = true) (map_range (items s)).*2)).
Proof.
  unfold count. f_equal. rewrite <- length_map_to_list.
  assert (∀ l : list (bytes * Item), length (filter (λ it, p it = true) l.*2) =
    length (filter (λ kv, p kv.2 = true) l)) as ->.
  { induction l as [|kv l IH]; [done|]. cbn [fmap list_fmap]. rewrite !filter_cons.
    case_decide; simpl; by rewrite IH. }
  apply Permutation_length, NoDup_Permutation.
  - apply NoDup_map_to_list.
  - apply NoDup_filter. rewrite map_range_perm. apply NoDup_map_to_list.
  - intros [k it]. rewrite elem_of_map_to_list, map_lookup_filter_Some, list_elem_of_filter, elem_of_map_range.
    naive_solver.
Qed.

Lemma Stats_foldl l st :
  foldl count_item st l =
    mkStats (Pending st + Z.of_nat (length (filter (λ it, live it = true) l)))
      (Failed st + Z.of_nat (length (filter (λ it, bool_decide (status it = StatusFailed) = true) l)))
      (Done st + Z.of_nat (length (filter (λ it, bool_decide (status it = StatusDone) = true) l))).
Proof.
  revert st. induction l as [|it l IH]; intros st.
  { destruct st as [a b c]. cbn. f_equal; lia. }
  cbn [foldl]. rewrite IH, !filter_cons. unfold count_item.
  assert (status it = StatusFailed → live it = false) as H1 by (unfold live; by intros ->).
  assert (status it = StatusDone → live it = false) as H2 by (unfold live; by intros ->).
  assert (status it = StatusDone → status it ≠ StatusFailed) as H3 by by intros ->.
  destruct (live it).
  - rewrite !bool_decide_eq_false_2 by (intros E; first [by specialize (H1 E)|by specialize (H2 E)]).
    rewrite (decide_True (P:=true = true)), !(decide_False (P:=false = true)) by done. cbn. f_equal. lia.
  - case_bool_decide as E1; case_bool_decide as E2; [by destruct H3|..];
      rewrite ?(decide_True _ _ E1), ?(decide_False _ _ E1), ?(decide_True _ _ E2), ?(decide_False _ _ E2);
      rewrite ?(decide_True (P:=true = true)), ?(decide_False (P:=false = true)) by done; cbn; f_equal; lia.
Qed.

(** [Stats] counts: pending and processing items together, failed and done
    ones each, whatever order the map is visited in. *)
Theorem Stats_spec `{GoRuntime} s :
  Stats s = mkStats (count live s) (count (λ it, bool_decide (status it = StatusFailed)) s)
              (count (λ it, bool_decide (status it = StatusDone)) s).
Proof. unfold Stats. by rewrite Stats_foldl, !count_range. Qed.

Lemma older_foldl l o :
  Forall (λ it, live it = true → 0 < CreatedAt it) l → 0 ≤ o →
  let o' := foldl older o l in
  0 ≤ o' ∧ (o' = 0 → o = 0) ∧ (0 < o → o' ≤ o) ∧
  Forall (λ it, live it = true → 0 < o' ≤ CreatedAt it) l ∧
  (o' = o ∨ Exists (λ it, live it = true ∧ CreatedAt it = o') l).
Proof.
  intros Hl. revert o. induction Hl as [|it l Hit _ IH]; intros o Ho; cbn [foldl].
  { cbv zeta. split_and!; first [lia | constructor; fail | by left]. }
  assert (0 ≤ older o it ∧ (older o it = 0 → o = 0) ∧ (0 < o → older o it ≤ o) ∧
    (live it = true → 0 < older o it ≤ CreatedAt it) ∧
    (older o it = o ∨ live it = true ∧ CreatedAt it = older o it)) as (H1 & H2 & H3 & H4 & H5).
  { unfold older, is_zero, before. destruct (live it); simpl; [|by auto with lia].
    specialize (Hit eq_refl). split_if; [split_and!; intros; try lia; by right|].
    bprop. split_and!; intros; lia. }
  destruct (IH _ H1) as (I1 & I2 & I3 & I4 & I5). set (o' := foldl older _ l) in *.
  split_and!; [lia|intros E; by apply H2, I2|intros; destruct (decide (0 < older o it)); lia| |].
  - constructor; [|done]. intros Hlv. specialize (H4 Hlv). lia.
  - destruct I5 as [->|I5]; [|right; by right]. destruct H5 as [->|[? ?]]; [by left|right; by left].
Qed.

(** [OldestPendingAge] answers nothing exactly when no live item is left, and
    otherwise the age of the oldest live item, 0 if that lies in the future. *)
Theorem OldestPendingAge_spec `{GoRuntime} s now :
  map_Forall (λ _ it, live it = true → 0 < CreatedAt it) (items s) →
  match OldestPendingAge s now with
  | None => map_Forall (λ _ it, live it = false) (items s)
  | Some age => ∃ id it, items s !! id = Some it ∧ live it = true ∧
      (∀ id' it', items s !! id' = Some it' → live it' = true → CreatedAt it ≤ CreatedAt it') ∧
      age = if before now (CreatedAt it) then 0 else time_sub now (CreatedAt it)
  end.
Proof.
  intros Hpos. unfold OldestPendingAge. cbv zeta. set (l := (map_range (items s)).*2).
  assert (∀ it, it ∈ l ↔ ∃ id, items s !! id = Some it) as Hl.
  { intros it. unfold l. rewrite list_elem_of_fmap. split.
    - intros ([id x] & -> & Hx). rewrite elem_of_map_range in Hx. eauto.
    - intros [id Hi]. exists (id, it). by rewrite elem_of_map_range. }
  destruct (older_foldl l 0) as (H1 & _ & _ & H4 & H5); [|lia|].
  { apply Forall_forall. intros it [id Hi]%Hl. by apply (Hpos id). }
  rewrite Forall_forall in H4. rewrite Exists_exists in H5. set (o := foldl older 0 l) in *.
  unfold is_zero. destruct (o =? 0) eqn:Ez; bprop.
  - intros id it Hi. apply not_true_is_false. intros Hlv.
    assert (it ∈ l) as Hin by (apply Hl; eauto). specialize (H4 it Hin Hlv). lia.
  - destruct H5 as [?|(it & [id Hi]%Hl & Hlv & Hc)]; [lia|].
    assert (∀ id' it', items s !! id' = Some it' → live it' = true → CreatedAt it ≤ CreatedAt it') as Hmin.
    { intros id' it' Hi' Hlv'. rewrite Hc. apply H4; [|done]. apply Hl. eauto. }
    rewrite <- Hc. split_if; exists id, it; rewrite Heqb; done.
Qed.

Lemma OldestPendingAge_spec_witness :
  OldestPendingAge (H:=stable_runtime) picked_store (unix_epoch + Minute) = Some Minute ∧
  ∃ id it, items picked_store !! id = Some it ∧ live it = true.
Proof.
  assert (OldestPendingAge (H:=stable_runtime) picked_store (unix_epoch + Minute) = Some Minute) as E
    by (vm_compute; reflexivity).
  split; [exact E|].
  pose proof (OldestPendingAge_spec (H:=stable_runtime) picked_store (unix_epoch + Minute)) as Hspec.
  rewrite E in Hspec. clear E. destruct Hspec as (id & it & Hi & Hl & _);
    [|exact (ex_intro _ id (ex_intro _ it (conj Hi Hl)))].
  apply (bool_decide_unpack _). vm_compute. exact I.
Defined.

(** A batch whose persisting fails is stranded: [PickDue] has already marked
    its items as processing, returns none of them to the caller, and while the
    process runs no [PickDue] ever returns them again, because nobody marks an
    item it was never given. *)
Theorem PickDue_failure_strands (rt rt' : GoRuntime) io s limit now e s1 s2 io' limit' now' out s3 id :
  store_wf s → id ∈ picked_ids (H:=rt) s limit now →
  PickDue (H:=rt) io s limit now = (Err e, s1) →
  rtc (store_step (not_marking id)) s1 s2 →
  PickDue (H:=rt') io' s2 limit' now' = (Ok out, s3) →
  processing s1 id ∧ id ∉ ID <$> out.
Proof.
  intros Hwf Hid H1 Hst H2.
  destruct (PickDue_processing rt io s limit now _ s1 id Hwf Hid H1). split; [done|].
  by eapply processing_not_picked.
Qed.

Definition stranded_store : FileStore :=
  (PickDue (H:=stable_runtime) (RenameFails "no space") one_item_store 5 unix_epoch).2.

Lemma stranded_eq :
  PickDue (H:=stable_runtime) (RenameFails "no space") one_item_store 5 unix_epoch =
    (Err "no space", stranded_store) ∧
  PickDue (H:=stable_runtime) PersistOk stranded_store 5 (unix_epoch + Hour) = (Ok [], stranded_store).
Proof.
  assert (∀ A S (p : A * S) a, p.1 = a → p = (a, p.2)) as Hp by by intros ???? <-; destruct p.
  split; [apply Hp; vm_compute; reflexivity|].
  rewrite PickDue_eq. assert (picked_ids (H:=stable_runtime) stranded_store 5 (unix_epoch + Hour) = []) as ->
    by (vm_compute; reflexivity). reflexivity.
Qed.

Lemma PickDue_failure_strands_witness :
  processing stranded_store one_item_id ∧ one_item_id ∉ ID <$> ([] : list Item).
Proof.
  refine (PickDue_failure_strands stable_runtime stable_runtime (RenameFails "no space") one_item_store 5
    unix_epoch "no space" stranded_store stranded_store PersistOk 5 (unix_epoch + Hour) [] stranded_store
    one_item_id one_item_store_wf _ (proj1 stranded_eq) (rtc_refl _ _) (proj2 stranded_eq)).
  rewrite <- (PickDue_result_ids (H:=stable_runtime) PersistOk one_item_store 5 unix_epoch
    [picked_one] picked_store one_item_store_wf PickDue_one). by apply list_elem_of_singleton.
Defined.
