(* ===== verification/Queue.v ===== *)
(** * The queue, abstractly

    What the clients of [internal/dlq/store.go] may rely on, without times, errors, JSON
    or the file system: each message has a fate, each call moves some, and is saved
    if the call succeeds; a restart goes back to what was saved last.  The store
    refines this queue. *)
From S2P Require Import Prelude GoStrings GoRuntime GoJson DlqStore.

Open Scope Z_scope.
Open Scope go_scope.

Inductive fate := Waiting | Taken | Delivered | GivenUp | Unknown (st : bytes).
#[export] Instance fate_eq_dec : EqDecision fate.
Proof. solve_decision. Defined.

(** The digest tells mails apart. *)
Record entry := mkEntry { e_rcpt : bytes; e_msg : bytes; e_digest : bytes; e_tries : Z; e_fate : fate }.
Abbreviation entries := (gmap bytes entry).
(** What the process holds, and what a restart would find, unless the file is broken. *)
Record queue := mkQueue { held : entries; saved : option entries }.

Definition set_fate (f : fate) (e : entry) : entry := mkEntry (e_rcpt e) (e_msg e) (e_digest e) (e_tries e) f.
(** Still to be delivered. *)
Definition unsettled (e : entry) : Prop := e_fate e = Waiting ∨ e_fate e = Taken.
Definition take_all (ids : list bytes) (q : entries) : entries :=
  map_imap (λ id e, Some (if decide (id ∈ ids) then set_fate Taken e else e)) q.
(** One more try; the last if the budget, when there is one, is used up. *)
Definition tried (budget : Z) (e : entry) : entry :=
  let n := wrap64 (e_tries e + 1) in
  mkEntry (e_rcpt e) (e_msg e) (e_digest e) n
    (if (0 <? budget) && (budget <=? n) then GivenUp else Waiting).
(** What a restart makes of an entry: who had taken it is gone; a recipient that is not
    UTF-8 has lost its invalid bytes. *)
Definition revive (e : entry) : entry :=
  mkEntry (to_valid_utf8 (e_rcpt e)) (e_msg e) (e_digest e) (e_tries e)
    (if decide (e_fate e = Taken) then Waiting else e_fate e).

(** A call with its answer. *)
Inductive queue_call :=
  | CEnqueue (r m : bytes) (answer : res bytes)
  | CPickDue (limit : nat) (answer : res (list bytes))
  | CMarkDone (id : bytes) (answer : option bytes)
  | CMarkRetry (id : bytes) (budget : Z) (answer : option bytes)
  | CRestart.

(** The call has changed something and reports no error. *)
Definition saves (c : queue_call) : bool :=
  match c with
  | CEnqueue _ _ a => is_ok a
  | CPickDue _ (Ok (_ :: _)) => true
  | CMarkDone _ None | CMarkRetry _ _ None => true
  | _ => false
  end.

(** The value, or the error of a disk that fails. *)
Definition answers {A} (a : A) (r : res A) : Prop := r = Ok a ∨ ∃ e, r = Err e.

Section queue.
Context (digest : bytes → bytes → bytes).

(** What a call does to what is held. *)
Inductive call_step (q : entries) : queue_call → entries → Prop :=
  | c_enqueue_new r m id a :
      q !! id = None → (∀ k e, q !! k = Some e → e_digest e = digest r m → ¬ unsettled e) → answers id a →
      call_step q (CEnqueue r m a) (<[id := mkEntry r m (digest r m) 0 Waiting]> q)
  | c_enqueue_known r m id e a :
      q !! id = Some e → e_digest e = digest r m → unsettled e → answers id a →
      call_step q (CEnqueue r m a) q
  | c_pick limit ids a :
      NoDup ids → (length ids ≤ limit)%nat →
      (∀ id, id ∈ ids → ∃ e, q !! id = Some e ∧ e_fate e = Waiting) → answers ids a →
      call_step q (CPickDue limit a) (take_all ids q)
  | c_done id e a : q !! id = Some e → call_step q (CMarkDone id a) (<[id := set_fate Delivered e]> q)
  | c_done_unknown id : q !! id = None → call_step q (CMarkDone id (Some (not_found id))) q
  | c_retry id budget e a : q !! id = Some e → call_step q (CMarkRetry id budget a) (<[id := tried budget e]> q)
  | c_retry_unknown id budget :
      q !! id = None → call_step q (CMarkRetry id budget (Some (not_found id))) q.

Inductive queue_step (q : queue) : queue_call → queue → Prop :=
  | q_call c m :
      call_step (held q) c m →
      queue_step q c (mkQueue m (if saves c then Some (revive <$> m) else saved q))
  | q_restart m : saved q = Some m → queue_step q CRestart (mkQueue m (Some m)).

Inductive queue_run (q : queue) : list queue_call → queue → Prop :=
  | queue_run_nil : queue_run q [] q
  | queue_run_cons c q1 calls q' : queue_step q c q1 → queue_run q1 calls q' → queue_run q (c :: calls) q'.
End queue.

(** ** The abstraction *)
Definition fate_of (st : Status) : fate :=
  if decide (st = StatusPending) then Waiting
  else if decide (st = StatusProcessing) then Taken
  else if decide (st = StatusDone) then Delivered
  else if decide (st = StatusFailed) then GivenUp
  else Unknown st.
Definition entry_of (it : Item) : entry :=
  mkEntry (Recipient it) (RawMessage it) (Fingerprint it) (Attempt it) (fate_of (status it)).
Definition held_by (s : FileStore) : entries := entry_of <$> items s.
Definition saved_by (s : FileStore) : option entries :=
  match NewFileStore None (path s) (disk s) with Ok s' => Some (held_by s') | Err _ => None end.
Definition queue_of (s : FileStore) : queue := mkQueue (held_by s) (saved_by s).

Definition call_of (rt : GoRuntime) (now : time) (io : persist_io) (s : FileStore) (o : store_op) : queue_call :=
  match o with
  | OpEnqueue rnd r m e => CEnqueue r m (ID <$> (Enqueue now rnd io s r m e).1)
  | OpPickDue limit => CPickDue (effective_limit 10 limit) (res_fmap _ _ (fmap ID) (PickDue io s limit now).1)
  | OpMarkDone id => CMarkDone id (MarkDone now io s id).1
  | OpMarkRetry id next e budget => CMarkRetry id budget (MarkRetry now io s id next e budget).1
  end.

(** A run of the store with its calls and their answers; a restart reads the file. *)
Inductive store_run (s : FileStore) : list queue_call → FileStore → Prop :=
  | store_run_nil : store_run s [] s
  | store_run_call rt now io o calls s' :
      op_fresh now s o → store_run (run_op rt now io s o) calls s' →
      store_run s (call_of rt now io s o :: calls) s'
  | store_run_restart s1 calls s' :
      NewFileStore None (path s) (disk s) = Ok s1 → store_run s1 calls s' → store_run s (CRestart :: calls) s'.

(** ** Invariant

    What is decoded from JSON is valid UTF-8; what is in memory survives encoding. *)
Definition legible (it : Item) : Prop :=
  valid_utf8 (ID it) ∧ valid_utf8 (Fingerprint it) ∧ Fingerprint it ≠ [] ∧ valid_utf8 (status it).
Definition file_decoded (s : FileStore) : Prop :=
  ∀ l, disk s !! path s = Some (Doc l) → Forall (λ it, json_item it = it) l.
Record store_ok (s : FileStore) : Prop := {
  ok_wf : store_wf s;
  ok_legible : map_Forall (λ _ it, legible it) (items s);
  ok_file : file_decoded s;
}.

(** ** Lemmas *)
Lemma held_lookup s id : held_by s !! id = entry_of <$> items s !! id.
Proof. apply lookup_fmap. Qed.
Lemma held_insert s s' id it :
  items s' = <[id := it]> (items s) → held_by s' = <[id := entry_of it]> (held_by s).
Proof. unfold held_by. intros ->. apply fmap_insert. Qed.

Lemma unsettled_live it : unsettled (entry_of it) ↔ live it = true.
Proof.
  unfold unsettled, entry_of, fate_of. cbn. rewrite live_spec.
  repeat case_decide; split; (intros [?|?] || intros ?); subst; auto; try done; naive_solver.
Qed.

Lemma persist_held `{GoRuntime} io s id it :
  held_by (persistLocked io (put_item s id it)).2 = <[id := entry_of it]> (held_by s).
Proof. apply held_insert. apply persistLocked_items. Qed.

Lemma persist_put `{GoRuntime} io s it :
  held_by (persist_and_return io (put_item s (ID it) it) it).2 = <[ID it := entry_of it]> (held_by s) ∧
  answers (ID it) (ID <$> (persist_and_return io (put_item s (ID it) it) it).1).
Proof.
  split.
  - apply held_insert. apply persist_and_return_items.
  - unfold persist_and_return. destruct (persistLocked io _) as [[e|] s']; [right; by exists e|by left].
Qed.

Lemma enqueue_refines (rt : GoRuntime) now rnd io s r m e :
  store_wf s → items s !! new_item_id now rnd m = None →
  call_step payloadFingerprint (held_by s) (CEnqueue r m (ID <$> (Enqueue now rnd io s r m e).1))
    (held_by (Enqueue now rnd io s r m e).2).
Proof.
  intros Hwf Hfr. destruct (Enqueue_cases now rnd io s r m e) as [(id & it & Hi & Hl & Hf & E)|[Hn E]];
    cbv zeta in E; rewrite E;
    match goal with |- context [persist_and_return io _ ?x] => destruct (persist_put io s x) as [-> Ha] end.
  - set (it' := with_updated now (with_last_error e it)) in *.
    assert (ID it' = id ∧ entry_of it' = entry_of it) as [Hid He].
    { destruct (with_last_error_same e it) as ((Hid & Hf' & Hr & Hm & _) & Hst & Hat & _).
      split; [by rewrite <- (Hwf _ _ Hi), <- Hid|]. unfold entry_of. cbn. by rewrite Hf', Hr, Hm, Hst, Hat. }
    rewrite Hid, He in *. assert (held_by s !! id = Some (entry_of it)) as Hq by by rewrite held_lookup, Hi.
    rewrite insert_id by done. eapply c_enqueue_known; [exact Hq|exact Hf|by apply unsettled_live|exact Ha].
  - destruct (fresh_item_spec now rnd r m e) as (Hid & Hf & _ & Hst & Hat). rewrite Hid in *.
    replace (entry_of (fresh_item now rnd r m e)) with (mkEntry r m (payloadFingerprint r m) 0 Waiting).
    + eapply c_enqueue_new; [by rewrite held_lookup, Hfr| |exact Ha].
      intros k en. rewrite held_lookup. intros (it & Hi & ->)%fmap_Some Hs Hu%unsettled_live.
      by rewrite (Hn k it Hi) in Hu.
    + unfold entry_of. rewrite Hf, Hst, Hat. by destruct e.
Qed.

Lemma pick_refines (rt : GoRuntime) now io s limit :
  store_wf s →
  call_step payloadFingerprint (held_by s) (CPickDue (effective_limit 10 limit) (res_fmap _ _ (fmap ID) (PickDue io s limit now).1))
    (held_by (PickDue io s limit now).2).
Proof.
  intros Hwf. set (ids := picked_ids s limit now).
  assert (held_by (PickDue io s limit now).2 = take_all ids (held_by s)) as ->.
  { apply map_eq. intros id. unfold take_all. rewrite map_lookup_imap, !held_lookup, PickDue_items.
    fold ids. case_decide as Hid; [|by destruct (items s !! id)].
    destruct (picked_is_due s limit now id Hid) as (it & Hi & _). unfold get_item. by rewrite Hi. }
  apply c_pick.
  - apply NoDup_picked_ids.
  - unfold ids, picked_ids. rewrite length_take. lia.
  - intros id Hid. destruct (picked_is_due s limit now id Hid) as (it & Hi & Hd).
    exists (entry_of it). rewrite held_lookup, Hi. split; [done|].
    apply is_due_spec in Hd as [Hst _]. unfold entry_of, fate_of. cbn. by rewrite Hst.
  - destruct (PickDue io s limit now) as [[out|e] s'] eqn:E; [left|right; by exists e].
    cbn. by rewrite (PickDue_result_ids io s limit now out s' Hwf E).
Qed.

Lemma retry_entry now next e n it :
  entry_of (retry_item now next e n it) = tried n (entry_of it).
Proof.
  unfold retry_item, tried, entry_of. cbv zeta.
  set (it1 := with_updated now (with_attempt (wrap64 (Attempt it + 1)) it)).
  destruct (with_last_error_same e it1) as ((_ & Hf & Hr & Hm & _) & _ & Ha & _).
  rewrite Ha. cbn. split_if; cbn; by rewrite Hf, Hr, Hm, Ha.
Qed.

Lemma call_refines rt now io s o :
  store_wf s → op_fresh now s o →
  call_step payloadFingerprint (held_by s) (call_of rt now io s o) (held_by (run_op rt now io s o)).
Proof.
  intros Hwf Hfr. destruct o as [rnd r m e|limit|id|id next e n]; cbn.
  - by apply enqueue_refines.
  - by apply pick_refines.
  - unfold MarkDone. destruct (items s !! id) as [it|] eqn:Hi.
    + rewrite persist_held.
      apply (c_done _ _ id (entry_of it)). by rewrite held_lookup, Hi.
    + cbn [fst snd]. apply c_done_unknown. by rewrite held_lookup, Hi.
  - unfold MarkRetry. destruct (items s !! id) as [it|] eqn:Hi.
    + rewrite persist_held, retry_entry.
      apply c_retry. by rewrite held_lookup, Hi.
    + cbn [fst snd]. apply c_retry_unknown. by rewrite held_lookup, Hi.
Qed.

(** ** What a call saves *)
Lemma json_item_idemp it : json_item (json_item it) = json_item it.
Proof. unfold json_item. cbn. by rewrite !valid_utf8_to_valid. Qed.

Lemma recover_entry it :
  legible it → entry_of (recover it) = revive (entry_of it) ∧ legible (recover it).
Proof.
  intros (Hid & Hf & Hne & Hst). unfold recover, load_item, json_item. cbv zeta. cbn [status].
  rewrite Hid, Hf, Hst. destruct (decide (status it = StatusProcessing)) as [Hp|Hp];
    cbn [Fingerprint with_status]; rewrite decide_False by done; unfold entry_of, revive, legible, with_status; cbn.
  - by rewrite Hp.
  - split; [|done]. f_equal. unfold fate_of. repeat case_decide; done.
Qed.

Lemma saved_same s s' : path s' = path s → disk s' !! path s = disk s !! path s → saved_by s' = saved_by s.
Proof. unfold saved_by, NewFileStore, load. cbn [disk path]. intros -> ->. by destruct (disk s !! path s) as [[]|]. Qed.

Lemma persist_saved `{GoRuntime} io s :
  store_wf s → map_Forall (λ _ it, legible it) (items s) →
  let r := persistLocked io s in
  saved_by r.2 = match r.1 with Some _ => saved_by s | None => Some (revive <$> held_by s) end ∧
  (file_decoded s → file_decoded r.2).
Proof.
  intros Hwf Hl r. destruct (persistLocked_items io s) as [_ Hp].
  assert (ids_valid s) as Hv by (intros id it Hi; rewrite <- (Hwf _ _ Hi); by apply (Hl _ _ Hi)).
  destruct (persistLocked_file io s) as [(e & He & Hd)|(He & l & _ & Hd)]; fold r in He, Hd, Hp; rewrite He.
  - split; [by apply saved_same|]. intros Hf l. rewrite Hp, Hd. apply Hf.
  - split.
    + destruct (persist_reload io s Hwf Hv He) as (s2 & H2 & Hi). fold r in H2. unfold saved_by.
      rewrite Hp, H2. f_equal. unfold held_by. rewrite Hi, <- !map_fmap_compose. apply map_fmap_ext.
      intros id it Hit. by apply recover_entry, (Hl id).
    + intros _ l'. rewrite Hp, Hd. intros [= <-]. apply Forall_forall.
      intros it (x & -> & _)%list_elem_of_fmap. apply json_item_idemp.
Qed.

(** An operation ends by persisting, or touches no file. *)
Lemma run_op_persists rt now io s o :
  (saves (call_of rt now io s o) = false ∧ path (run_op rt now io s o) = path s ∧
     disk (run_op rt now io s o) = disk s) ∨
  ∃ s1, path s1 = path s ∧ disk s1 = disk s ∧ run_op rt now io s o = (persistLocked io s1).2 ∧
    saves (call_of rt now io s o) = bool_decide ((persistLocked io s1).1 = None).
Proof.
  destruct o as [rnd r m e|limit|id|id next e n]; cbn.
  - right. destruct (Enqueue_cases now rnd io s r m e) as [(id & it & _ & _ & _ & E)|[_ E]];
      cbv zeta in E; rewrite E; match goal with |- context [persist_and_return _ ?s1 _] => exists s1 end;
      rewrite persist_and_return_2; unfold persist_and_return; (split_and!; [done..|]);
      by destruct (persistLocked io _) as [[?|] ?].
  - rewrite PickDue_eq. pose proof (pick_items_spec now s _ (NoDup_picked_ids s limit now)) as (_ & _ & Hp & Hd).
    destruct (pick_items _ _ _) as [out s1]. cbn in Hp, Hd. case_decide as Ho; [left; by subst|right].
    exists s1. rewrite persist_and_return_2. unfold persist_and_return. split_and!; [done..|].
    destruct out; [done|]. by destruct (persistLocked io _) as [[?|] ?].
  - unfold MarkDone. destruct (items s !! id) as [it|]; [right|by left].
    match goal with |- context [persistLocked io ?s1] => exists s1 end. split_and!; [done..|].
    by destruct (persistLocked io _) as [[?|] ?].
  - unfold MarkRetry. destruct (items s !! id) as [it|]; [right|by left].
    match goal with |- context [persistLocked io ?s1] => exists s1 end. split_and!; [done..|].
    by destruct (persistLocked io _) as [[?|] ?].
Qed.

(** ** The invariant is kept *)
Lemma payloadFingerprint_valid r m : valid_utf8 (payloadFingerprint r m).
Proof. apply valid_utf8_ascii, plain_ascii, hex_plain. Qed.

Lemma item_change_legible o id x it' :
  item_change o id x (Some it') → (∀ it, x = Some it → legible it) → legible it'.
Proof.
  assert (∀ it st t, legible it → valid_utf8 st → legible (with_updated t (with_status st it))) as Hst
    by by intros it st t (? & ? & ? & _) ?.
  intros Hc Hx. inversion Hc as [|now rnd r m e _ _|now e it _|now it _|now it _|now next e n it _]; subst.
  - by apply Hx.
  - destruct (fresh_item_spec now rnd r m e) as (Hid & Hf & _ & Hs & _). unfold legible. rewrite Hid, Hf, Hs.
    split_and!; [apply new_item_id_valid|apply payloadFingerprint_valid|apply payloadFingerprint_ne|done].
  - destruct (with_last_error_same e it) as ((H1 & H2 & _) & H3 & _). specialize (Hx it eq_refl).
    unfold legible in *. cbn. by rewrite H1, H2, H3.
  - apply Hst; [by apply Hx|done].
  - apply Hst; [by apply Hx|done].
  - destruct (retry_item_same now next e n it) as (H1 & H2 & _). destruct (Hx it eq_refl) as (? & ? & ? & ?).
    unfold legible. rewrite H1, H2. split_and!; [done..|]. unfold retry_item. cbv zeta. by split_if.
Qed.

Lemma run_op_ok rt now io s o :
  store_ok s → op_fresh now s o →
  store_ok (run_op rt now io s o) ∧
  saved_by (run_op rt now io s o) =
    if saves (call_of rt now io s o) then Some (revive <$> held_by (run_op rt now io s o)) else saved_by s.
Proof.
  intros [Hwf Hl Hf] Hfr. pose proof (store_step_op (λ _, True) s rt now io o I Hfr) as Hst.
  pose proof (store_step_wf _ _ _ Hwf Hst) as Hwf'.
  assert (map_Forall (λ _ it, legible it) (items (run_op rt now io s o))) as Hl'.
  { intros id it' Hi. pose proof (run_op_change rt now io s o id Hwf Hfr) as Hc. rewrite Hi in Hc.
    eapply item_change_legible; [exact Hc|]. intros it Hit. by apply (Hl id). }
  destruct (run_op_persists rt now io s o) as [(Hs & Hp & Hd)|(s1 & Hp & Hd & E & Hs)]; rewrite Hs.
  - split; [|apply saved_same; [done|by rewrite Hd]]. split; [done|done|]. intros l. rewrite Hp, Hd. apply Hf.
  - pose proof (proj1 (persistLocked_items io s1)) as Hi. rewrite <- E in Hi.
    assert (store_wf s1 ∧ map_Forall (λ _ it, legible it) (items s1)) as [Hwf1 Hl1]
      by (unfold store_wf; by rewrite <- Hi).
    destruct (persist_saved io s1 Hwf1 Hl1) as [Hsv Hfd]. rewrite <- E in Hsv, Hfd. split.
    + split; [done|done|]. apply Hfd. intros l. rewrite Hp, Hd. apply Hf.
    + rewrite Hsv. unfold held_by. rewrite Hi. destruct (persistLocked io s1).1; [|done].
      apply saved_same; [done|by rewrite Hd].
Qed.

(** A store read from a file, and what it makes of the next restart. *)
Lemma load_legible it : json_item it = it → legible (load_item it).
Proof.
  destruct it as [i f r m e st a n c u]. unfold json_item. cbn. intros [= Hi Hf _ _ Hst].
  unfold load_item, legible. cbv zeta. cbn [status].
  destruct (decide (st = StatusProcessing)); cbn [with_status Fingerprint]; case_decide; cbn;
    (split_and!; [done| |try done; apply payloadFingerprint_ne|done]); done || apply payloadFingerprint_valid.
Qed.

Lemma NewFileStore_ok p d s :
  NewFileStore None p d = Ok s → (∀ l, d !! p = Some (Doc l) → Forall (λ it, json_item it = it) l) →
  store_ok s ∧ path s = p ∧ disk s = d.
Proof.
  intros Hs Hf. pose proof (NewFileStore_wf _ _ _ _ Hs) as Hwf. revert Hs. unfold NewFileStore, load. cbn [disk path].
  assert (∀ (l : list Item) (m : gmap bytes Item), Forall legible l → map_Forall (λ _ it, legible it) m →
    map_Forall (λ _ it, legible it) (foldl (λ m it, <[ID it := it]> m) m l)) as Hl.
  { intros l m Hl. revert m. induction Hl as [|it l Hit _ IH]; intros m Hm; [done|]. by apply IH, map_Forall_insert_2. }
  destruct (d !! p) as [[|e|l]|] eqn:Ed; intros; simplify_eq; (split; [|done]);
    (split; [done| |intros l'; cbn; rewrite Ed; apply Hf]); try apply map_Forall_empty.
  apply Hl; [|apply map_Forall_empty]. apply Forall_fmap. eapply Forall_impl; [by apply Hf|]. apply load_legible.
Qed.

(** ** Refinement *)

(** C5. The store refines the abstract queue.  Whatever calls are made, with
    whatever clocks, random bytes, map order and disk failures, and wherever the
    process restarts, the answers are those of the queue, the store holds what the
    queue holds, and its file what the queue has saved.  So an accepted mail waits,
    unless the same mail is already unsettled; [PickDue] takes waiting messages only,
    none twice and at most the limit; a message marked done is delivered, a
    retried one waits again or is given up when the budget is used; an unknown id is
    refused; and a restart finds the state after the last call that changed
    something and reported no error, what had been taken waiting again. *)
Theorem store_refines_queue s calls s' :
  store_ok s → store_run s calls s' →
  queue_run payloadFingerprint (queue_of s) calls (queue_of s') ∧ store_ok s'.
Proof.
  intros Hok Hr. induction Hr as [s|s rt now io o calls s' Hfr _ IH|s s1 calls s' Hl _ IH].
  - split; [constructor|done].
  - destruct (run_op_ok rt now io s o Hok Hfr) as [Hok1 Hs]. destruct (IH Hok1) as [Hq ?]. split; [|done].
    econstructor; [|exact Hq]. unfold queue_of at 2. rewrite Hs. apply (q_call _ (queue_of s)).
    apply call_refines; [apply Hok|done].
  - destruct (NewFileStore_ok _ _ _ Hl (ok_file _ Hok)) as (Hok1 & Hp & Hd).
    destruct (IH Hok1) as [Hq ?]. split; [|done]. econstructor; [|exact Hq].
    assert (saved_by s = Some (held_by s1)) as Hs by (unfold saved_by; by rewrite Hl).
    unfold queue_of at 2. rewrite (saved_same s s1) by (rewrite ?Hp, ?Hd; done). rewrite Hs. by apply q_restart.
Qed.

(** A mail is queued and taken; the file cannot be written when it is retried for the
    last time; after a restart it waits again. *)
Definition example_calls : list queue_call :=
  [CEnqueue "chat" "mail" (Ok one_item_id); CPickDue 5 (Ok [one_item_id]);
   CMarkRetry one_item_id 1 (Some "no space"); CRestart; CMarkDone "other" (Some (not_found "other"))].
Definition queued := run_op stable_runtime unix_epoch PersistOk (empty_store "/tmp/dlq.json") (OpEnqueue "rnd" "chat" "mail" None).
Definition taken := run_op stable_runtime unix_epoch PersistOk queued (OpPickDue 5).
Definition given_up :=
  run_op stable_runtime unix_epoch (RenameFails "no space") taken (OpMarkRetry one_item_id 0 None 1).
Definition restarted : FileStore := ok_or given_up (NewFileStore None (path given_up) (disk given_up)).
Definition example_end := run_op stable_runtime unix_epoch PersistOk restarted (OpMarkDone "other").

Lemma example_calls_eq :
  example_calls =
    [call_of stable_runtime unix_epoch PersistOk (empty_store "/tmp/dlq.json") (OpEnqueue "rnd" "chat" "mail" None);
     call_of stable_runtime unix_epoch PersistOk queued (OpPickDue 5);
     call_of stable_runtime unix_epoch (RenameFails "no space") taken (OpMarkRetry one_item_id 0 None 1);
     CRestart;
     call_of stable_runtime unix_epoch PersistOk restarted (OpMarkDone "other")].
Proof. vm_compute. reflexivity. Qed.

Lemma example_store_run : store_run (empty_store "/tmp/dlq.json") example_calls example_end.
Proof.
  rewrite example_calls_eq. do 3 (constructor; [first [exact I|apply lookup_empty]|]).
  apply (store_run_restart _ restarted); [|constructor; [exact I|constructor]].
  assert (is_ok (NewFileStore None (path given_up) (disk given_up)) = true) as Hok by (vm_compute; reflexivity).
  unfold restarted. change (run_op _ _ _ taken _) with given_up. by destruct (NewFileStore _ _ _).
Qed.

Lemma store_refines_queue_witness :
  queue_run payloadFingerprint (mkQueue ∅ (Some ∅)) example_calls (queue_of example_end) ∧
  e_fate <$> held_by given_up !! one_item_id = Some GivenUp ∧
  e_fate <$> held_by example_end !! one_item_id = Some Waiting.
Proof.
  split; [|split; apply (bool_decide_unpack _); vm_compute; exact I].
  refine (proj1 (store_refines_queue (empty_store "/tmp/dlq.json") example_calls example_end _ example_store_run)).
  split; [apply empty_store_wf|apply map_Forall_empty|discriminate].
Defined.
