(* ===== verification/Metrics.v ===== *)
(** * The metrics collector: [internal/metrics/collector.go]

    Counters, delivery events, latency histograms, and the two texts made of
    them (the Prometheus page and the report the bot sends).  The atomics and
    the mutex make every method one step.  [float64] is IEEE binary64, computed
    by the Standard Library's [SpecFloat]. *)
From Stdlib Require Import Floats.SpecFloat.
From S2P Require Import Prelude GoStrings GoRuntime.

Open Scope Z_scope.
Open Scope go_scope.

(** ** float64 *)
Abbreviation float64 := spec_float.
Definition float_of_int (z : Z) : float64 := binary_normalize 53 1024 z 0 false.
Definition fadd (x y : float64) : float64 := SFadd 53 1024 x y.
Definition fdiv (x y : float64) : float64 := SFdiv 53 1024 x y.
(** The literal [n / d]: the double nearest to the quotient. *)
Definition float_lit (n d : Z) : float64 := fdiv (float_of_int n) (float_of_int d).

(** [d.Seconds()] *)
Definition Seconds (d : duration) : float64 :=
  fadd (float_of_int (Z.quot d Second)) (fdiv (float_of_int (Z.rem d Second)) (float_of_int 1000000000)).

(** [uint64(f)] for a finite non-negative [f] below [2^64]. *)
Definition uint64_of_float (f : float64) : Z :=
  match f with
  | S754_finite false m e => Z.shiftl (Zpos m) e
  | _ => 0
  end.

(** The quotient of [n] by [d > 0], rounded to nearest, ties to even. *)
Definition div_half_even (n d : Z) : Z :=
  let q := n / d in
  let r := n mod d in
  if 2 * r <? d then q else if d <? 2 * r then q + 1 else if Z.even q then q else q + 1.

(** [n / 10^k] in decimal with exactly [k] fractional digits, for [n ≥ 0]. *)
Definition format_fixed (k : nat) (n : Z) : bytes :=
  let frac := fmt_nat (n mod 10 ^ Z.of_nat k) in
  fmt_nat (n / 10 ^ Z.of_nat k) ++ "." ++ replicate (k - length frac) "0"%char ++ frac.

(** [fmt.Sprintf("%.6f", v)] *)
Definition formatPromFloat (v : float64) : bytes :=
  match v with
  | S754_zero s => (if s then "-" else "") ++ "0.000000"
  | S754_infinity s => (if s then "-" else "+") ++ "Inf"
  | S754_nan => "NaN"
  | S754_finite s m e =>
    let micros := if 0 <=? e then Zpos m * 2 ^ e * 1000000
                  else div_half_even (Zpos m * 1000000) (2 ^ (- e)) in
    (if s then "-" else "") ++ format_fixed 6 micros
  end.

(** ** State *)
Inductive counter :=
  | received | relayed | failed | textSent | filesSent
  | dlqEnqueued | dlqReplayed | dlqReplayFailed
  | dlqPending | dlqFailed | dlqDone | dlqOldestSec
  | maxSendRateLimited | maxSendQueueDepth | maxSendQueueDrop.

#[export] Instance counter_eq_dec : EqDecision counter.
Proof. solve_decision. Defined.

Record deliveryKey := mkDeliveryKey {
  Address : bytes;
  Delivered : bool;
  MaxRecipient : bytes;
  RecipientName : bytes;
}.

#[export] Instance deliveryKey_eq_dec : EqDecision deliveryKey.
Proof. solve_decision. Defined.
#[export] Instance deliveryKey_countable : Countable deliveryKey :=
  inj_countable' (λ k, (Address k, Delivered k, MaxRecipient k, RecipientName k))
    (λ '(a, d, m, r), mkDeliveryKey a d m r) (λ k, ltac:(by destruct k)).

Record deliveryEvent := mkEvent { At : time; Key : deliveryKey }.

Definition maxStoredDeliveryEvents : nat := Z.to_nat 50000.

Definition latencyBucketUpperBounds : list float64 :=
  [float_lit 1 100; float_lit 5 100; float_lit 1 10; float_lit 25 100; float_lit 5 10;
   float_of_int 1; float_of_int 2; float_of_int 5; float_of_int 10].

Record latencyHistogram := mkHistogram { buckets : list Z; sum : float64; observations : Z }.

Record Collector := mkCollector {
  counters : counter → Z;
  deliveryByAddress : gmap deliveryKey Z;
  deliveryEvents : list deliveryEvent;
  latencies : gmap bytes latencyHistogram;
}.

Definition NewCollector : Collector := mkCollector (λ _, 0) ∅ [] ∅.

(** ** Counters: [atomic.Uint64] *)
Definition set_counter (x : counter) (v : Z) (c : Collector) : Collector :=
  mkCollector (λ y, if decide (y = x) then v else counters c y)
    (deliveryByAddress c) (deliveryEvents c) (latencies c).
Definition add_counter (x : counter) (c : Collector) : Collector :=
  set_counter x (wrapu64 (counters c x + 1)) c.

Definition IncReceived := add_counter received.
Definition IncRelayed := add_counter relayed.
Definition IncFailed := add_counter failed.
Definition IncTextSent := add_counter textSent.
Definition IncFilesSent := add_counter filesSent.
Definition IncDLQEnqueued := add_counter dlqEnqueued.
Definition IncDLQReplayed := add_counter dlqReplayed.
Definition IncDLQReplayFailed := add_counter dlqReplayFailed.
Definition IncMaxSendRateLimited := add_counter maxSendRateLimited.
Definition SetMaxSendQueueDepth (v : Z) := set_counter maxSendQueueDepth v.
Definition IncMaxSendQueueDropped := add_counter maxSendQueueDrop.
Definition SetDLQBacklog (pending failed done oldestPendingSeconds : Z) (c : Collector) : Collector :=
  set_counter dlqOldestSec oldestPendingSeconds
    (set_counter dlqDone done (set_counter dlqFailed failed (set_counter dlqPending pending c))).

(** ** Observations *)

(** Keep the last [n] elements. *)
Definition keep_last {A} (n : nat) (l : list A) : list A :=
  if (n <? length l)%nat then drop (length l - n) l else l.

Definition delivery_key `{UnicodeTables} (address : bytes) (delivered : bool)
    (maxRecipientID recipientName : bytes) : deliveryKey :=
  {| Address := trim_space (to_lower address); Delivered := delivered;
     MaxRecipient := trim_space maxRecipientID; RecipientName := trim_space recipientName |}.

Definition ObserveDelivery `{UnicodeTables} (now : time) (address : bytes) (delivered : bool)
    (maxRecipientID recipientName : bytes) (c : Collector) : Collector :=
  let key := delivery_key address delivered maxRecipientID recipientName in
  mkCollector (counters c)
    (<[key := wrapu64 (default 0 (deliveryByAddress c !! key) + 1)]> (deliveryByAddress c))
    (keep_last maxStoredDeliveryEvents (deliveryEvents c ++ [mkEvent now key]))
    (latencies c).

Definition observe_bucket (seconds : float64) (ub : float64) (n : Z) : Z :=
  if SFleb seconds ub then wrapu64 (n + 1) else n.

Definition ObserveLatency `{UnicodeTables} (stage : bytes) (d : duration) (c : Collector) : Collector :=
  let stage := trim_space (to_lower stage) in
  if decide (stage = []) then c else
  let seconds := Seconds d in
  let seconds := if SFltb seconds (S754_zero false) then S754_zero false else seconds in
  let h := default (mkHistogram (replicate (length latencyBucketUpperBounds) 0) (S754_zero false) 0)
             (latencies c !! stage) in
  let h := mkHistogram (zip_with (observe_bucket seconds) latencyBucketUpperBounds (buckets h))
             (fadd (sum h) seconds) (wrapu64 (observations h + 1)) in
  mkCollector (counters c) (deliveryByAddress c) (deliveryEvents c) (<[stage := h]> (latencies c)).

(** ** The Prometheus page *)
Definition boolLabel (v : bool) : bytes := if v then "true" else "false".

(** [strings.NewReplacer]: a backslash becomes two, a double quote and a newline are
    escaped with one. *)
Fixpoint escapeLabel (v : bytes) : bytes :=
  match v with
  | [] => []
  | a :: v =>
    (if code a =? 92 then [byte_of 92; byte_of 92]
     else if code a =? 34 then [byte_of 92; byte_of 34]
     else if code a =? 10 then [byte_of 92; "n"%char]
     else [a]) ++ escapeLabel v
  end.

Definition key_ltb (x y : deliveryKey) : bool :=
  if decide (Address x ≠ Address y) then bytes_ltb (Address x) (Address y)
  else if decide (Delivered x ≠ Delivered y) then negb (Delivered x) && Delivered y
  else if decide (MaxRecipient x ≠ MaxRecipient y) then bytes_ltb (MaxRecipient x) (MaxRecipient y)
  else bytes_ltb (RecipientName x) (RecipientName y).

Section text.
Context `{UnicodeTables}.

Definition delivery_line (c : Collector) (k : deliveryKey) : bytes :=
  "smtp_relay_delivery_total{address=" ++ quote (escapeLabel (Address k)) ++
  ",delivered=" ++ quote (boolLabel (Delivered k)) ++
  ",max_recipient_id=" ++ quote (escapeLabel (MaxRecipient k)) ++
  ",max_recipient_name=" ++ quote (escapeLabel (RecipientName k)) ++ "} " ++
  format_int (default 0 (deliveryByAddress c !! k)).

Definition deliveryMetricLines `{GoRuntime} (c : Collector) : list bytes :=
  delivery_line c <$> sort_slice key_ltb (map_range (deliveryByAddress c)).*1.

Definition latency_lines (stage : bytes) (h : latencyHistogram) : list bytes :=
  zip_with (λ ub n, "smtp_relay_latency_seconds_bucket{stage=" ++ quote (escapeLabel stage) ++
              ",le=" ++ quote (formatPromFloat ub) ++ "} " ++ format_int n)
    latencyBucketUpperBounds (buckets h) ++
  ["smtp_relay_latency_seconds_bucket{stage=" ++ quote (escapeLabel stage) ++ ",le=" ++
     [dquote] ++ "+Inf" ++ [dquote] ++ "} " ++ format_int (observations h);
   "smtp_relay_latency_seconds_sum{stage=" ++ quote (escapeLabel stage) ++ "} " ++ formatPromFloat (sum h);
   "smtp_relay_latency_seconds_count{stage=" ++ quote (escapeLabel stage) ++ "} " ++
     format_int (observations h)].

Definition latencyMetricLines `{GoRuntime} (c : Collector) : list bytes :=
  concat ((λ stage, match latencies c !! stage with Some h => latency_lines stage h | None => [] end) <$>
    sort_slice bytes_ltb (map_range (latencies c)).*1).

(** The counters in the order of the page. *)
Definition counter_lines : list (bytes * counter) :=
  [("smtp_relay_received_total", received); ("smtp_relay_relayed_total", relayed);
   ("smtp_relay_failed_total", failed); ("smtp_relay_text_sent_total", textSent);
   ("smtp_relay_files_sent_total", filesSent); ("smtp_relay_dlq_enqueued_total", dlqEnqueued);
   ("smtp_relay_dlq_replayed_total", dlqReplayed);
   ("smtp_relay_dlq_replay_failed_total", dlqReplayFailed);
   ("smtp_relay_dlq_pending", dlqPending); ("smtp_relay_dlq_failed", dlqFailed);
   ("smtp_relay_dlq_done", dlqDone); ("smtp_relay_dlq_oldest_pending_seconds", dlqOldestSec);
   ("max_send_rate_limited_total", maxSendRateLimited); ("max_send_queue_depth", maxSendQueueDepth);
   ("max_send_queue_dropped_total", maxSendQueueDrop)].

(** The body [Handler] writes when no other call interleaves. *)
Definition Handler `{GoRuntime} (c : Collector) : bytes :=
  concat ((λ l, l ++ [byte_of 10]) <$>
    ((λ '(name, x), name ++ " " ++ format_int (counters c x)) <$> counter_lines) ++
    deliveryMetricLines c ++ latencyMetricLines c).
End text.

(** ** The report *)
Record recipientStats := mkStats { Total : Z; DeliveredN : Z; FailedN : Z }.

Definition formatRecipientLabel (name id : bytes) : bytes :=
  let cleanName := trim_space name in
  let cleanName := if decide (cleanName = []) then "unknown" else cleanName in
  let cleanID := trim_space id in
  let cleanID := if decide (cleanID = []) then "unknown" else cleanID in
  cleanName ++ " (id=" ++ cleanID ++ ")".

Definition top_ltb {V} (total : V → Z) (x y : bytes * V) : bool :=
  if decide (total x.2 ≠ total y.2) then total y.2 <? total x.2 else bytes_ltb x.1 y.1.

Definition top {V} `{GoRuntime} (total : V → Z) (m : gmap bytes V) (k : Z) : list (bytes * V) :=
  let items := sort_slice (top_ltb total) (map_range m) in
  if (0 <? k) && (k <? Z.of_nat (length items)) then take (Z.to_nat k) items else items.

Definition topK `{GoRuntime} (m : gmap bytes Z) (k : Z) : list (bytes * Z) := top id m k.
Definition topRecipientStats `{GoRuntime} (m : gmap bytes recipientStats) (k : Z) :
    list (bytes * recipientStats) := top Total m k.

Record report := mkReport {
  total : Z; delivered : Z; failedN : Z;
  byAddress : gmap bytes Z; byRecipient : gmap bytes Z; recipientAgg : gmap bytes recipientStats;
}.

Definition incr (k : bytes) (m : gmap bytes Z) : gmap bytes Z := <[k := default 0 (m !! k) + 1]> m.

(** The body of the loop over the events. *)
Definition count_event (since : time) (r : report) (ev : deliveryEvent) : report :=
  if before (At ev) since then r else
  let recipientKey := formatRecipientLabel (RecipientName (Key ev)) (MaxRecipient (Key ev)) in
  let agg := default (mkStats 0 0 0) (recipientAgg r !! recipientKey) in
  if Delivered (Key ev) then
    {| total := total r + 1; delivered := delivered r + 1; failedN := failedN r;
       byAddress := incr (Address (Key ev)) (byAddress r);
       byRecipient := incr recipientKey (byRecipient r);
       recipientAgg := <[recipientKey := mkStats (Total agg + 1) (DeliveredN agg + 1) (FailedN agg)]>
                         (recipientAgg r) |}
  else
    {| total := total r + 1; delivered := delivered r; failedN := failedN r + 1;
       byAddress := incr (Address (Key ev)) (byAddress r);
       byRecipient := byRecipient r;
       recipientAgg := <[recipientKey := mkStats (Total agg + 1) (DeliveredN agg) (FailedN agg + 1)]>
                         (recipientAgg r) |}.

Definition count_events (since : time) (evs : list deliveryEvent) : report :=
  foldl (count_event since) (mkReport 0 0 0 ∅ ∅ ∅) evs.

Definition top_lines (l : list (bytes * Z)) : list bytes :=
  (λ kv, "- " ++ kv.1 ++ ": " ++ format_int kv.2) <$> l.

Definition report_lines `{GoRuntime} (days : Z) (r : report) : list bytes :=
  ["Статистика за " ++ format_int days ++ " дней:"; "Принято: " ++ format_int (total r);
   "Доставлено: " ++ format_int (delivered r); "Ошибок: " ++ format_int (failedN r)] ++
  (if (0 <? size (byAddress r))%nat then "Топ адресов:" :: top_lines (topK (byAddress r) 5) else []) ++
  (if (0 <? size (byRecipient r))%nat
   then "Топ получателей MAX:" :: top_lines (topK (byRecipient r) 5) else []) ++
  (if (0 <? size (recipientAgg r))%nat then
     ["Агрегировано по получателям MAX:";
      "- Уникальных получателей: " ++ format_int (Z.of_nat (size (recipientAgg r)))] ++
     ((λ kv, "- " ++ kv.1 ++ ": всего " ++ format_int (Total kv.2) ++ ", доставлено " ++
        format_int (DeliveredN kv.2) ++ ", ошибок " ++ format_int (FailedN kv.2)) <$>
        topRecipientStats (recipientAgg r) 5)
   else []).

Definition BuildLastDaysReport `{GoRuntime} (now : time) (days : Z) (c : Collector) : bytes :=
  let days := if days <=? 0 then 7 else days in
  let since := time_add now (wrap64 (- days * (24 * Hour))) in
  join [byte_of 10] (report_lines days (count_events since (deliveryEvents c))).

(** * Specification and lemmas *)

Lemma length_keep_last {A} n (l : list A) : length (keep_last n l) = Nat.min n (length l).
Proof. unfold keep_last. destruct (Nat.ltb_spec n (length l)); rewrite ?length_drop; lia. Qed.

Lemma keep_last_eq {A} n (l : list A) : keep_last n l = drop (length l - n) l.
Proof.
  unfold keep_last. destruct (Nat.ltb_spec n (length l)) as [?|?]; [done|].
  replace (length l - n)%nat with 0%nat by lia. done.
Qed.

Lemma keep_last_snoc {A} n (l : list A) x :
  keep_last n (keep_last n l ++ [x]) = keep_last n (l ++ [x]).
Proof.
  rewrite !keep_last_eq, !length_app, length_drop. simpl.
  destruct (decide (n = 0%nat)) as [->|?].
  { rewrite !drop_ge; [done| |]; rewrite length_app, ?length_drop; simpl; lia. }
  rewrite !drop_app_le by (rewrite ?length_drop; lia). rewrite drop_drop.
  f_equal. f_equal. lia.
Qed.

(** One observed delivery: its time and the arguments of the call. *)
Definition observation : Type := time * (bytes * bool * bytes * bytes).
Definition obs_key `{UnicodeTables} (o : observation) : deliveryKey :=
  let '(_, (a, d, i, n)) := o in delivery_key a d i n.
Definition observe_all `{UnicodeTables} (c : Collector) (l : list observation) : Collector :=
  foldl (λ c '(t, (a, d, i, n)), ObserveDelivery t a d i n c) c l.

Lemma observe_all_snoc `{UnicodeTables} c l t a d i n :
  observe_all c (l ++ [(t, (a, d, i, n))]) = ObserveDelivery t a d i n (observe_all c l).
Proof. unfold observe_all. by rewrite foldl_snoc. Qed.

Definition occurrences `{EqDecision A} (x : A) (l : list A) : Z :=
  Z.of_nat (length (filter (λ y, y = x) l)).

Lemma occurrences_snoc `{EqDecision A} (x y : A) l :
  occurrences x (l ++ [y]) = occurrences x l + if decide (y = x) then 1 else 0.
Proof.
  unfold occurrences. rewrite filter_app, length_app, filter_cons, filter_nil.
  case_decide; simpl; lia.
Qed.

(** ** float comparison *)
(** The value's place in the order of the floats, sign and magnitude. *)
Definition float_key (x : float64) : Z * (Z * Z) :=
  match x with
  | S754_infinity true => (-2, (0, 0))
  | S754_finite true m e => (-1, (- e, - Zpos m))
  | S754_zero _ | S754_nan => (0, (0, 0))
  | S754_finite false m e => (1, (e, Zpos m))
  | S754_infinity false => (2, (0, 0))
  end.
Definition lex_le (x y : Z * (Z * Z)) : Prop :=
  x.1 < y.1 ∨ x.1 = y.1 ∧ (x.2.1 < y.2.1 ∨ x.2.1 = y.2.1 ∧ x.2.2 ≤ y.2.2).

Ltac solve_key :=
  solve [split; [first [done | intros _; split_and!; [done|done|lia]] | intros (?&?&?); first [done|lia|congruence]]].
Lemma SFleb_key x y :
  SFleb x y = true ↔ x ≠ S754_nan ∧ y ≠ S754_nan ∧ lex_le (float_key x) (float_key y).
Proof.
  unfold lex_le. destruct x as [s1|[]| |[] m1 e1], y as [s2|[]| |[] m2 e2]; cbn; try solve_key;
    destruct (Z.compare_spec e1 e2); cbn; try solve_key;
    change (Pos.compare_cont Eq m1 m2) with (Pos.compare m1 m2);
    destruct (Pos.compare_spec m1 m2); cbn; solve_key.
Qed.

Lemma SFleb_trans x y z : SFleb x y = true → SFleb y z = true → SFleb x z = true.
Proof. rewrite !SFleb_key. unfold lex_le. intros (?&?&H1) (?&?&H2). split_and!; [done|done|lia]. Qed.

Lemma bounds_ascending :
  StronglySorted (λ a b, SFleb a b = true) latencyBucketUpperBounds.
Proof. vm_compute. repeat constructor. Qed.

(** Cumulative histogram: each bucket counts at most what the next counts. *)
Definition cumulative (h : latencyHistogram) : Prop :=
  length (buckets h) = length latencyBucketUpperBounds ∧
  StronglySorted Z.le (buckets h ++ [observations h]).

(** A bucket that does not overflow. *)
Definition count_bucket (seconds ub : float64) (n : Z) : Z := if SFleb seconds ub then n + 1 else n.
Lemma wrapu64_id z : 0 ≤ z < 2 ^ 64 → wrapu64 z = z.
Proof. apply Z.mod_small. Qed.
Lemma observe_count_buckets s ubs bs c :
  Forall (λ n, 0 ≤ n ≤ c) bs → c + 1 < 2 ^ 64 →
  zip_with (observe_bucket s) ubs bs = zip_with (count_bucket s) ubs bs.
Proof.
  intros Hb Hc. revert ubs. induction Hb as [|n bs Hn _ IH]; intros [|u ubs]; try done.
  cbn [zip_with]. rewrite IH. f_equal. unfold observe_bucket, count_bucket. by rewrite wrapu64_id by lia.
Qed.

Lemma count_bucket_le s a b n m :
  SFleb a b = true → n ≤ m → count_bucket s a n ≤ count_bucket s b m.
Proof.
  intros Hab Hnm. unfold count_bucket. destruct (SFleb s a) eqn:E; [|split_if; lia].
  by rewrite (SFleb_trans s a b E Hab); lia.
Qed.

Lemma count_bucket_bounds s a n : n ≤ count_bucket s a n ≤ n + 1.
Proof. unfold count_bucket. split_if; lia. Qed.

Lemma count_buckets_sorted s ubs bs c :
  StronglySorted (λ a b, SFleb a b = true) ubs → length bs = length ubs →
  StronglySorted Z.le (bs ++ [c]) → StronglySorted Z.le (zip_with (count_bucket s) ubs bs ++ [c + 1]).
Proof.
  intros Hu. revert bs. induction Hu as [|u ubs Hu IH Hall]; intros [|b bs] Hlen; try done; simpl.
  { intros _. by repeat constructor. }
  intros [Hs Hb]%StronglySorted_inv. constructor; [apply IH; [by injection Hlen|done]|].
  rewrite Forall_app in Hb. destruct Hb as [Hb Hc]. apply Forall_cons in Hc as [Hc _].
  apply Forall_app. split; [|constructor; [|constructor]].
  - injection Hlen as Hlen. clear IH Hs Hu. revert bs Hb Hlen.
    induction ubs as [|u' ubs IH]; intros [|b' bs]; try done; simpl. intros Hb Hlen.
    apply Forall_cons in Hb as [??]. apply Forall_cons in Hall as [??].
    constructor; [by apply count_bucket_le|]. apply IH; [done|done|by injection Hlen].
  - pose proof (count_bucket_bounds s u b). lia.
Qed.

(** ** Orders *)
Record StrictTotal {K} (ltb : K → K → bool) : Prop := {
  st_irrefl a : ltb a a = false;
  st_trans a b c : ltb a b = true → ltb b c = true → ltb a c = true;
  st_total a b : ltb a b = false → ltb b a = false → a = b;
}.

Lemma bytes_ltb_strict_total : StrictTotal bytes_ltb.
Proof. split; [apply bytes_ltb_irrefl|apply bytes_ltb_trans|apply bytes_ltb_total]. Qed.
Lemma Z_gtb_strict_total : StrictTotal (λ a b, b <? a).
Proof. split; lia. Qed.
Lemma bool_strict_total : StrictTotal (λ a b : bool, negb a && b).
Proof. split; [by intros []|by intros [] [] []|by intros [] []]. Qed.
#[export] Hint Resolve bytes_ltb_strict_total Z_gtb_strict_total bool_strict_total : go.

Lemma strict_weak_total {A K} (ltb : K → K → bool) (key : A → K) :
  StrictTotal ltb → StrictWeak (λ x y, ltb (key x) (key y)).
Proof.
  intros [i t tot]. split; [by intros|by intros x y z; apply t|]. intros x y z Hxy Hyz.
  destruct (ltb (key x) (key z)) eqn:E; [|done].
  destruct (ltb (key z) (key y)) eqn:E'; [by rewrite (t _ _ _ E E') in Hxy|].
  rewrite (tot _ _ Hyz E') in Hxy. congruence.
Qed.

(** Compare on [key], and by [less2] where the keys agree. *)
Lemma strict_weak_lex {A} `{EqDecision K} (ltb : K → K → bool) (key : A → K) (less2 : A → A → bool) :
  StrictTotal ltb → StrictWeak less2 →
  StrictWeak (λ x y, if decide (key x ≠ key y) then ltb (key x) (key y) else less2 x y).
Proof.
  intros [i t tot] [i2 t2 n2].
  assert (∀ a b, ltb a b = true → ltb b a = false) as Hasym.
  { intros a b Hab. destruct (ltb b a) eqn:E; [|done]. pose proof (t _ _ _ Hab E). by rewrite i in *. }
  assert (∀ a b, a ≠ b → ltb a b = false → ltb b a = true) as Hneg.
  { intros a b Hne Hab. destruct (ltb b a) eqn:E; [done|]. by destruct Hne; apply tot. }
  split.
  - intros x. by rewrite decide_False by (intros H; by destruct H).
  - intros x y z. repeat case_decide; intros L1 L2;
      repeat match goal with H : ¬ (_ ≠ _) |- _ => apply dec_stable in H end; try congruence.
    + by eapply t.
    + replace (key z) with (key x) in L2. by rewrite (Hasym _ _ L1) in L2.
    + by eapply t2.
  - intros x y z. repeat case_decide; intros L1 L2;
      repeat match goal with H : ¬ (_ ≠ _) |- _ => apply dec_stable in H end; try congruence.
    + apply Hasym, (t _ (key y)); apply Hneg; done || by apply not_eq_sym.
    + exfalso. replace (key z) with (key x) in L2. apply Hneg in L1; congruence.
    + by eapply n2.
Qed.

Lemma sort_slice_unique {A} (rt1 rt2 : GoRuntime) (less : A → A → bool) l1 l2 :
  StrictWeak less → l1 ≡ₚ l2 →
  (∀ x y, x ∈ l1 → y ∈ l1 → less x y = false → less y x = false → x = y) →
  @sort_slice rt1 A less l1 = @sort_slice rt2 A less l2.
Proof.
  intros Hw Hp Htot. apply (StronglySorted_unique_strong (λ x y, less y x = false)).
  - intros x y. rewrite !sort_slice_perm, <- Hp. intros Hx Hy H1 H2. by apply Htot.
  - by apply sort_slice_sorted.
  - by apply sort_slice_sorted.
  - by rewrite !sort_slice_perm.
Qed.

Lemma top_ltb_weak {V} (total : V → Z) : StrictWeak (top_ltb total).
Proof.
  apply (strict_weak_lex (λ a b, b <? a) (λ kv : bytes * V, total kv.2)); [auto with go|].
  apply (strict_weak_total bytes_ltb fst). auto with go.
Qed.

Lemma key_ltb_weak : StrictWeak key_ltb.
Proof.
  apply (strict_weak_lex bytes_ltb Address); [auto with go|].
  apply (strict_weak_lex (λ a b : bool, negb a && b) Delivered); [auto with go|].
  apply (strict_weak_lex bytes_ltb MaxRecipient); [auto with go|].
  apply (strict_weak_total bytes_ltb RecipientName). auto with go.
Qed.

Lemma key_ltb_total x y : key_ltb x y = false → key_ltb y x = false → x = y.
Proof.
  unfold key_ltb. repeat case_decide; intros L1 L2;
    repeat match goal with H : ¬ (_ ≠ _) |- _ => apply dec_stable in H end; try congruence;
    try (exfalso; by eauto using bytes_ltb_total).
  - destruct (Delivered x), (Delivered y); simpl in *; congruence.
  - pose proof (bytes_ltb_total _ _ L1 L2). destruct x, y; simpl in *; congruence.
Qed.

Lemma map_range_key {V} `{GoRuntime} (m : gmap bytes V) x y :
  x ∈ map_range m → y ∈ map_range m → x.1 = y.1 → x = y.
Proof.
  destruct x as [k v], y as [k' v']. rewrite !elem_of_map_range. simpl. intros ?? ->. congruence.
Qed.

Lemma top_deterministic {V} (rt1 rt2 : GoRuntime) (total : V → Z) m k :
  @top V rt1 total m k = @top V rt2 total m k.
Proof.
  unfold top. cbv zeta.
  rewrite (sort_slice_unique rt1 rt2 (top_ltb total) (@map_range rt1 _ _ _ _ m) (@map_range rt2 _ _ _ _ m));
    [done|apply top_ltb_weak|by rewrite !map_range_perm|].
  intros x y Hx Hy. unfold top_ltb. repeat case_decide;
    repeat match goal with H : ¬ (_ ≠ _) |- _ => apply dec_stable in H end; try congruence; intros L1 L2.
  - exfalso. lia.
  - apply (@map_range_key V rt1 m x y Hx Hy). by apply bytes_ltb_total.
Qed.

(** * Properties *)

(** C36. The report and the Prometheus page depend only on the collector: whatever
    order Go visits its maps in and however [sort.Slice] treats equal elements,
    the text is the same. *)
Theorem texts_deterministic `{UnicodeTables} (rt1 rt2 : GoRuntime) now days c :
  @BuildLastDaysReport rt1 now days c = @BuildLastDaysReport rt2 now days c ∧
  @Handler _ rt1 c = @Handler _ rt2 c.
Proof.
  split.
  - unfold BuildLastDaysReport, report_lines, topK, topRecipientStats. cbv zeta.
    by rewrite !(top_deterministic rt1 rt2).
  - unfold Handler, deliveryMetricLines, latencyMetricLines.
    rewrite (sort_slice_unique rt1 rt2 key_ltb _ (@map_range rt2 _ _ _ _ (deliveryByAddress c)).*1),
      (sort_slice_unique rt1 rt2 bytes_ltb _ (@map_range rt2 _ _ _ _ (latencies c)).*1);
      try by rewrite !map_range_perm.
    + done.
    + apply (strict_weak_total bytes_ltb id). auto with go.
    + intros x y _ _. apply bytes_ltb_total.
    + apply key_ltb_weak.
    + intros x y _ _. apply key_ltb_total.
Qed.

(** After any sequence of observed deliveries, the stored events are the last
    50000 of them, oldest first, and each counter [deliveryByAddress] holds is
    the number of observations with its normalised key, modulo 2^64. *)
Theorem observations_recorded `{UnicodeTables} l :
  let c := observe_all NewCollector l in
  deliveryEvents c = keep_last maxStoredDeliveryEvents ((λ o, mkEvent o.1 (obs_key o)) <$> l) ∧
  (length (deliveryEvents c) ≤ maxStoredDeliveryEvents)%nat ∧
  ∀ k, default 0 (deliveryByAddress c !! k) = wrapu64 (occurrences k (obs_key <$> l)).
Proof.
  intros c.
  assert (deliveryEvents c = keep_last maxStoredDeliveryEvents ((λ o, mkEvent o.1 (obs_key o)) <$> l) ∧
    ∀ k, default 0 (deliveryByAddress c !! k) = wrapu64 (occurrences k (obs_key <$> l))) as [He Hk].
  { unfold c. clear c. induction l as [|[t [[[a d] i] n]] l [IHe IHk]] using rev_ind; [done|].
    rewrite observe_all_snoc, !fmap_app. set (c := observe_all NewCollector l) in *. split.
    - unfold ObserveDelivery. cbn [deliveryEvents]. rewrite IHe. apply keep_last_snoc.
    - intros k. unfold ObserveDelivery. cbn [deliveryByAddress fmap list_fmap].
      rewrite occurrences_snoc. cbn [obs_key]. case_decide as E.
      + rewrite E, lookup_insert_eq. cbn [default]. rewrite IHk. apply Z.add_mod_idemp_l. lia.
      + rewrite lookup_insert_ne by done. by rewrite IHk, Z.add_0_r. }
  split_and!; [done| |done]. rewrite He, length_keep_last. lia.
Qed.

(** Observed latencies. *)
Definition observe_latencies `{UnicodeTables} (c : Collector) (l : list (bytes * duration)) : Collector :=
  foldl (λ c '(stage, d), ObserveLatency stage d c) c l.

(** Every latency histogram is cumulative, as Prometheus requires, until its
    counters wrap around: bucket counts never decrease along the ascending bounds
    and never exceed the number of observations, and every stage name is normalised
    and not empty. *)
Theorem histograms_cumulative `{UnicodeTables} l :
  Z.of_nat (length l) < 2 ^ 64 →
  map_Forall (λ stage h, cumulative h ∧ stage ≠ []) (latencies (observe_latencies NewCollector l)).
Proof.
  intros Hl. cut (map_Forall (λ stage h, (cumulative h ∧ Forall (λ n, 0 ≤ n ≤ observations h) (buckets h) ∧
    0 ≤ observations h ≤ Z.of_nat (length l)) ∧ stage ≠ []) (latencies (observe_latencies NewCollector l))).
  { intros Hall stage h Hh. destruct (Hall stage h Hh) as ((? & _) & ?). done. }
  induction l as [|[stage d] l IH] using rev_ind; [apply map_Forall_empty|].
  rewrite length_app in *. cbn [length] in *. specialize (IH ltac:(lia)).
  unfold observe_latencies. rewrite foldl_snoc. fold (observe_latencies NewCollector l).
  set (c := observe_latencies NewCollector l) in *.
  assert (map_Forall (λ stage h, (cumulative h ∧ Forall (λ n, 0 ≤ n ≤ observations h) (buckets h) ∧
    0 ≤ observations h ≤ Z.of_nat (length l + 1)) ∧ stage ≠ []) (latencies c)) as IH'.
  { intros k h Hh. destruct (IH k h Hh) as ((? & ? & ?) & ?). split_and!; try done; lia. }
  unfold ObserveLatency. cbv zeta. case_decide as Hst; [done|]. cbn [latencies].
  apply map_Forall_insert_2; [|done]. split; [|done].
  set (h := default _ _).
  assert (cumulative h ∧ Forall (λ n, 0 ≤ n ≤ observations h) (buckets h) ∧
    0 ≤ observations h ≤ Z.of_nat (length l)) as ([Hlen Hs] & Hb & Ho).
  { unfold h. destruct (latencies c !! _) as [h'|] eqn:E; [by apply (IH _ _ E)|].
    split; [split; [done|by repeat constructor]|]. split; [by repeat constructor|cbn; lia]. }
  cbn [buckets observations]. rewrite wrapu64_id by lia. rewrite (observe_count_buckets _ _ _ _ Hb) by lia.
  split_and!; [split| |lia|lia].
  - cbn [buckets]. rewrite length_zip_with, Hlen. lia.
  - cbn [buckets observations]. apply count_buckets_sorted; [apply bounds_ascending|done|done].
  - generalize latencyBucketUpperBounds. clear -Hb. induction Hb as [|n bs Hn _ IH]; intros [|u ubs]; try constructor.
    + pose proof (count_bucket_bounds
        (if SFltb (Seconds d) (S754_zero false) then S754_zero false else Seconds d) u n). lia.
    + apply IH.
Qed.

(** The deliveries the report is about. *)
Definition recent (since : time) (evs : list deliveryEvent) : list deliveryEvent :=
  filter (λ ev, before (At ev) since = false) evs.
Definition label (ev : deliveryEvent) : bytes :=
  formatRecipientLabel (RecipientName (Key ev)) (MaxRecipient (Key ev)).

Lemma lookup_incr k m k' :
  default 0 (incr k m !! k') = default 0 (m !! k') + if decide (k = k') then 1 else 0.
Proof.
  unfold incr. case_decide as E; [by subst; rewrite lookup_insert_eq|].
  rewrite lookup_insert_ne by done. lia.
Qed.

(** The report counts the events since its start: the totals are the numbers
    of recent, delivered and failed events, the address table counts them per
    address, the recipient table the delivered ones per recipient label, and
    the aggregate splits all of them per label. *)
Theorem count_events_spec since evs :
  let r := count_events since evs in
  let evs := recent since evs in
  total r = Z.of_nat (length evs) ∧
  delivered r = occurrences true (Delivered ∘ Key <$> evs) ∧
  failedN r = occurrences false (Delivered ∘ Key <$> evs) ∧
  (∀ a, default 0 (byAddress r !! a) = occurrences a (Address ∘ Key <$> evs)) ∧
  (∀ n, default 0 (byRecipient r !! n) = occurrences (n, true) ((λ e, (label e, Delivered (Key e))) <$> evs)) ∧
  (∀ n, let s := default (mkStats 0 0 0) (recipientAgg r !! n) in
     Total s = occurrences n (label <$> evs) ∧
     DeliveredN s = occurrences (n, true) ((λ e, (label e, Delivered (Key e))) <$> evs) ∧
     FailedN s = occurrences (n, false) ((λ e, (label e, Delivered (Key e))) <$> evs)).
Proof.
  cbv zeta. unfold count_events, recent. induction evs as [|ev evs IH] using rev_ind; [done|].
  rewrite foldl_snoc, filter_app. set (r := foldl _ _ evs) in *.
  destruct IH as (IH1 & IH2 & IH3 & IH4 & IH5 & IH6).
  unfold count_event. rewrite filter_cons, filter_nil.
  destruct (before (At ev) since); [rewrite decide_False by done; rewrite app_nil_r; done|].
  rewrite decide_True by done. rewrite length_app, !fmap_app. cbn [fmap list_fmap compose].
  fold (label ev).
  assert (∀ n b b', occurrences (n, b) ((λ e, (label e, Delivered (Key e))) <$> recent since evs) +
    (if decide ((label ev, b') = (n, b)) then 1 else 0) =
    occurrences (n, b) ((λ e, (label e, Delivered (Key e))) <$> recent since evs) +
    if decide (label ev = n ∧ b' = b) then 1 else 0) as Hdec.
  { intros. f_equal. repeat case_decide; naive_solver. }
  unfold recent in Hdec.
  destruct (Delivered (Key ev)); cbn [total delivered failedN byAddress byRecipient recipientAgg length];
    (split_and!; [lia|rewrite occurrences_snoc, IH2; case_decide; done || lia
      |rewrite occurrences_snoc, IH3; case_decide; done || lia| | |]).
  - intros a. by rewrite lookup_incr, IH4, occurrences_snoc.
  - intros n. rewrite lookup_incr, IH5, occurrences_snoc, Hdec. repeat case_decide; tauto || lia.
  - intros n. rewrite !occurrences_snoc, !Hdec. destruct (IH6 n) as (H1 & H2 & H3).
    destruct (decide (label ev = n)) as [<-|Hne].
    + rewrite lookup_insert_eq. cbn. rewrite H1, H2, H3. repeat case_decide; naive_solver lia.
    + rewrite lookup_insert_ne by done. rewrite H1, H2, H3. repeat case_decide; naive_solver lia.
  - intros a. by rewrite lookup_incr, IH4, occurrences_snoc.
  - intros n. rewrite IH5, occurrences_snoc, Hdec. case_decide; [naive_solver|lia].
  - intros n. rewrite !occurrences_snoc, !Hdec. destruct (IH6 n) as (H1 & H2 & H3).
    destruct (decide (label ev = n)) as [<-|Hne].
    + rewrite lookup_insert_eq. cbn. rewrite H1, H2, H3. repeat case_decide; naive_solver lia.
    + rewrite lookup_insert_ne by done. rewrite H1, H2, H3. repeat case_decide; naive_solver lia.
Qed.

(** Prometheus reads back a label that contains a backslash, a quote or a
    newline as a different text, because the label is escaped twice: once by
    [escapeLabel] and once by the [%q] verb.  (A quoted label should be the
    quoted original.) *)
Theorem labels_escaped_twice :
  quote (H:=basic_unicode) (escapeLabel ("dom" ++ [byte_of 92] ++ "user")) ≠
    quote (H:=basic_unicode) ("dom" ++ [byte_of 92] ++ "user") ∧
  ∀ v : bytes, forallb (λ a, negb (existsb (Z.eqb (code a)) [92; 34; 10])) v = true → escapeLabel v = v.
Proof.
  split; [by vm_compute|]. induction v as [|a v IH]; [done|]. cbn [forallb existsb]. intros [Ha Hv]%andb_true_iff.
  rewrite !negb_true_iff, !orb_false_iff in Ha. destruct Ha as (H1 & H2 & H3 & _).
  cbn [escapeLabel]. by rewrite H1, H2, H3, IH.
Qed.
