(* ===== verification/Email.v ===== *)
(** * E-mail: [internal/email/model.go], [internal/email/parser.go]

    What a message is turned into, and how the MIME parts the [enmime] library
    finds become attachments.  [enmime.ReadEnvelope] and the system's MIME table
    ([mime.ExtensionsByType]) are parameters. *)
From S2P Require Import Prelude GoStrings.

Open Scope Z_scope.
Open Scope go_scope.

Record Attachment := mkAttachment {
  Filename : bytes;
  ContentType : bytes;
  SizeBytes : Z;
  Data : bytes;
}.

Record ParsedEmail := mkEmail {
  Subject : bytes;
  From : bytes;
  To : list bytes;
  TextBody : bytes;
  HTMLBody : bytes;
  Attachments : list Attachment;
  MessageID : bytes;
}.

(** What the code reads of an [enmime.Part]; [TextContent] is the result of the
    method of that name. *)
Record Part := mkPart {
  PartID : bytes;
  FileName : bytes;
  ContentID : bytes;
  PartContentType : bytes;
  Content : bytes;
  TextContent : bool;
}.

(** What it reads of an [enmime.Envelope]; a part pointer may be nil. *)
Record Envelope := mkEnvelope {
  GetHeader : bytes → bytes;
  Text : bytes;
  HTML : bytes;
  EnvAttachments : list (option Part);
  Inlines : list (option Part);
  OtherParts : list (option Part);
}.

Section parser.
Context `{UnicodeTables}.
(** [enmime.ReadEnvelope] *)
Context (ReadEnvelope : bytes → res Envelope).
(** [mime.ExtensionsByType]; an error is [None]. *)
Context (ExtensionsByType : bytes → option (list bytes)).

Definition shouldExposeAsAttachment (part : option Part) (includeText : bool) : bool :=
  match part with
  | None => false
  | Some part =>
    if decide (Content part = []) then false else
    let contentType := to_lower (trim_space (PartContentType part)) in
    if has_prefix contentType "multipart/" then false else
    if includeText then true else
    if TextContent part then false else
    has_prefix contentType "image/" || has_prefix contentType "audio/" ||
    has_prefix contentType "video/" || bool_decide (trim_space (FileName part) ≠ []) ||
    bool_decide (trim_space (ContentID part) ≠ [])
  end.

Definition token_rune (r : Z) : bool :=
  ((97 <=? r) && (r <=? 122)) || ((65 <=? r) && (r <=? 90)) || ((48 <=? r) && (r <=? 57)).

(** The loop of [sanitizeAttachmentToken]. *)
Fixpoint sanitize_runes (rs : list Z) (lastDash : bool) : bytes :=
  match rs with
  | [] => []
  | r :: rs =>
    if token_rune r then encode_rune r ++ sanitize_runes rs false
    else if lastDash then sanitize_runes rs true
    else "-" ++ sanitize_runes rs true
  end.

Definition sanitizeAttachmentToken (value : bytes) : bytes :=
  let value := trim_cutset "<>" (trim_space value) in
  if decide (value = []) then [] else trim_cutset "-" (sanitize_runes (runes value) false).

Definition attachmentFileName (part : Part) : bytes :=
  let name := trim_space (FileName part) in
  if decide (name ≠ []) then name else
  let base := sanitizeAttachmentToken (ContentID part) in
  let base :=
    if decide (base = []) then
      let id := sanitizeAttachmentToken (PartID part) in
      if decide (id ≠ []) then "part" ++ "-" ++ id else "part"
    else base in
  let ext :=
    match ExtensionsByType (trim_space (PartContentType part)) with
    | Some (e :: _) => e
    | _ => ".bin"
    end in
  base ++ ext.

Definition attachment_of (part : Part) : Attachment :=
  {| Filename := attachmentFileName part; ContentType := PartContentType part;
     SizeBytes := Z.of_nat (length (Content part)); Data := Content part |}.

(** The [seen] map is shared by the calls: it is returned. *)
Fixpoint appendPartsAsAttachments (dst : list Attachment) (parts : list (option Part))
    (includeText : bool) (seen : gset bytes) : list Attachment * gset bytes :=
  match parts with
  | [] => (dst, seen)
  | part :: parts =>
    if negb (shouldExposeAsAttachment part includeText)
    then appendPartsAsAttachments dst parts includeText seen
    else match part with
    | None => appendPartsAsAttachments dst parts includeText seen
    | Some part =>
      if decide (PartID part ∈ seen) then appendPartsAsAttachments dst parts includeText seen
      else appendPartsAsAttachments (dst ++ [attachment_of part]) parts includeText
             ({[PartID part]} ∪ seen)
    end
  end.

(** [NewParser(maxBytes).Parse] *)
Definition Parse (maxBytes : Z) (raw : bytes) : res ParsedEmail :=
  if maxBytes <? Z.of_nat (length raw) then
    Err ("message too large: " ++ format_int (Z.of_nat (length raw)) ++ " > " ++ format_int maxBytes)
  else
  match ReadEnvelope raw with
  | Err e => Err ("read message: " ++ e)
  | Ok env =>
    let '(atts, seen) := appendPartsAsAttachments [] (EnvAttachments env) true ∅ in
    let '(atts, seen) := appendPartsAsAttachments atts (Inlines env) false seen in
    let '(atts, seen) := appendPartsAsAttachments atts (OtherParts env) false seen in
    let to := GetHeader env "To" in
    Ok {| Subject := GetHeader env "Subject"; From := GetHeader env "From";
          To := if decide (to ≠ []) then [to] else [];
          TextBody := Text env; HTMLBody := HTML env; Attachments := atts;
          MessageID := GetHeader env "Message-Id" |}
  end.
End parser.

(** * Specification and lemmas *)

(** The parts that become attachments, before repeated ids are dropped. *)
Definition exposed `{UnicodeTables} (includeText : bool) (parts : list (option Part)) : list Part :=
  omap (λ part, if shouldExposeAsAttachment part includeText then part else None) parts.
Definition candidates `{UnicodeTables} (env : Envelope) : list Part :=
  exposed true (EnvAttachments env) ++ exposed false (Inlines env) ++ exposed false (OtherParts env).

(** The first part of each id that is not in [seen]. *)
Fixpoint keep_new (seen : gset bytes) (l : list Part) : list Part :=
  match l with
  | [] => []
  | p :: l => if decide (PartID p ∈ seen) then keep_new seen l else p :: keep_new ({[PartID p]} ∪ seen) l
  end.
Definition part_ids (l : list Part) : gset bytes := list_to_set (PartID <$> l).

Lemma keep_new_app seen l1 l2 : keep_new seen (l1 ++ l2) = keep_new seen l1 ++ keep_new (part_ids l1 ∪ seen) l2.
Proof.
  unfold part_ids. revert seen. induction l1 as [|p l1 IH]; intros seen; cbn.
  { by rewrite (left_id_L ∅ _). }
  case_decide; rewrite IH.
  - do 2 f_equal. set_solver.
  - cbn. do 3 f_equal. set_solver.
Qed.

Lemma keep_new_sublist seen l : sublist (keep_new seen l) l.
Proof. revert seen. induction l as [|p l IH]; intros seen; cbn; [done|]. case_decide; by constructor. Qed.

Lemma elem_of_keep_new seen l p :
  p ∈ keep_new seen l ↔ PartID p ∉ seen ∧ ∃ i, list_find (λ q, PartID q = PartID p) l = Some (i, p).
Proof.
  revert seen. induction l as [|q l IH]; intros seen; cbn.
  { split; [by intros ?%elem_of_nil|naive_solver]. }
  destruct (decide (PartID q ∈ seen)) as [Hq|Hq], (decide (PartID q = PartID p)) as [Hid|Hid].
  - rewrite IH. rewrite Hid in Hq. by split; intros [Hn _].
  - rewrite IH. destruct (list_find _ l) as [[i x]|]; cbn; (split; intros [Hn (j & Hj)]; [|try done]).
    + injection Hj as -> ->. split; [done|by eexists].
    + injection Hj as <- ->. split; [done|by eexists].
    + done.
  - rewrite elem_of_cons, IH. split.
    + intros [->|[Hn _]]; [split; [done|by eexists]|set_solver].
    + intros [_ (i & [= <- <-])]. by left.
  - rewrite elem_of_cons, IH. destruct (list_find _ l) as [[i x]|]; cbn; split.
    + intros [->|[Hn (j & [= -> ->])]]; [done|]. split; [set_solver|by eexists].
    + intros [Hn (j & [= ? ->])]. right. split; [set_solver|by eexists].
    + intros [->|[_ (j & ?)]]; done.
    + intros [_ (j & ?)]; done.
Qed.

Lemma keep_new_NoDup seen l : NoDup (PartID <$> keep_new seen l).
Proof.
  revert seen. induction l as [|p l IH]; intros seen; cbn; [constructor|].
  case_decide; [done|]. cbn. constructor; [|done].
  intros (q & Heq & Hq)%list_elem_of_fmap. apply elem_of_keep_new in Hq as [Hn _]. set_solver.
Qed.

(** Sanitised tokens: letters, digits and dashes. *)
Definition token_byte (a : ascii) : bool := token_rune (code a) || bool_decide (a = "-"%char).

Section parser_proofs.
Context `{UnicodeTables} (ExtensionsByType : bytes → option (list bytes)).

Lemma exposed_content includeText parts p : p ∈ exposed includeText parts → Content p ≠ [].
Proof.
  unfold exposed. intros (x & _ & Hx)%list_elem_of_omap. destruct x as [x|]; [|by destruct includeText].
  unfold shouldExposeAsAttachment in Hx. by repeat case_match; simplify_eq.
Qed.
Lemma candidates_content env p : p ∈ candidates env → Content p ≠ [].
Proof. unfold candidates. rewrite !elem_of_app. intros [Hp|[Hp|Hp]]; by eapply exposed_content. Qed.

Lemma appendPartsAsAttachments_spec dst parts includeText seen :
  appendPartsAsAttachments ExtensionsByType dst parts includeText seen =
  (dst ++ (attachment_of ExtensionsByType <$> keep_new seen (exposed includeText parts)),
   part_ids (exposed includeText parts) ∪ seen).
Proof.
  revert dst seen. induction parts as [|part parts IH]; intros dst seen; cbn [appendPartsAsAttachments].
  { unfold part_ids. cbn. by rewrite app_nil_r, (left_id_L ∅ _). }
  unfold exposed. cbn [omap list_omap]. destruct (shouldExposeAsAttachment part includeText); cbn [negb]; [|apply IH].
  destruct part as [part|]; [|apply IH]. fold (exposed includeText parts). cbn [keep_new].
  unfold part_ids. cbn [fmap list_fmap list_to_set]. fold (part_ids (exposed includeText parts)).
  case_decide; rewrite IH.
  - f_equal. set_solver.
  - cbn. rewrite <- app_assoc. f_equal. set_solver.
Qed.

Lemma attachmentFileName_ne part : attachmentFileName ExtensionsByType part ≠ [].
Proof.
  unfold attachmentFileName. cbv zeta. repeat case_decide; try done.
  all: intros [Hb _]%app_eq_nil; try done.
Qed.

Lemma Parse_Attachments ReadEnvelope maxBytes raw env em :
  ReadEnvelope raw = Ok env → Parse ReadEnvelope ExtensionsByType maxBytes raw = Ok em →
  Attachments em = attachment_of ExtensionsByType <$> keep_new ∅ (candidates env).
Proof.
  intros He. unfold Parse. destruct (_ <? _); [done|]. rewrite He, !appendPartsAsAttachments_spec.
  intros [= <-]. cbn [Attachments]. unfold candidates. rewrite !keep_new_app, !fmap_app, <- !app_assoc.
  repeat f_equal; set_solver.
Qed.
End parser_proofs.

(** * Properties *)

(** C25. What a message's attachments are: every part with content that is to be
    exposed becomes one, in the order attachments, inline parts, others, with its
    name, type and exact bytes, and of parts with the same id only the first;
    nothing else does.  Every attachment has content, its size and a name. *)
Theorem Parse_attachments `{UnicodeTables} ReadEnvelope ExtensionsByType maxBytes raw env em :
  ReadEnvelope raw = Ok env → Parse ReadEnvelope ExtensionsByType maxBytes raw = Ok em →
  ∃ ps, Attachments em = attachment_of ExtensionsByType <$> ps ∧
    sublist ps (candidates env) ∧ NoDup (PartID <$> ps) ∧
    (∀ p, p ∈ ps ↔ ∃ i, list_find (λ q, PartID q = PartID p) (candidates env) = Some (i, p)) ∧
    Forall (λ a, Data a ≠ [] ∧ SizeBytes a = Z.of_nat (length (Data a)) ∧ Filename a ≠ []) (Attachments em).
Proof.
  intros He Hp. exists (keep_new ∅ (candidates env)).
  pose proof (Parse_Attachments _ _ _ _ _ _ He Hp) as Ha.
  split_and!; [exact Ha|apply keep_new_sublist|apply keep_new_NoDup| |].
  - intros p. rewrite elem_of_keep_new. set_solver.
  - rewrite Ha, Forall_fmap, Forall_forall. intros p Hin. cbn.
    split_and!; [|done|apply attachmentFileName_ne].
    apply (candidates_content env). eapply elem_of_sublist; [exact Hin|apply keep_new_sublist].
Qed.

(** A message with an attachment, the same part again inline, and an inline image. *)
Definition demo_part (id name ctype content : bytes) : Part := mkPart id name [] ctype content false.
Definition demo_envelope : Envelope :=
  mkEnvelope (λ _, []) "hello" [] [Some (demo_part "1" "a.txt" "text/plain" "abc")]
    [Some (demo_part "1" "a.txt" "text/plain" "abc"); None; Some (demo_part "2" [] "image/png" "img")] [].

Lemma Parse_attachments_witness :
  ∃ em, Parse (H:=basic_unicode) (λ _, Ok demo_envelope) (λ _, Some [".png"]) 100 "raw" = Ok em ∧
    Attachments em = [mkAttachment "a.txt" "text/plain" 3 "abc"; mkAttachment "part-2.png" "image/png" 3 "img"] ∧
    NoDup (Data <$> Attachments em) ∧ Forall (λ a, Filename a ≠ []) (Attachments em).
Proof.
  eexists. split; [vm_compute; reflexivity|]. split; [reflexivity|].
  match goal with |- context [Attachments ?em] =>
    destruct (Parse_attachments (H:=basic_unicode) (λ _, Ok demo_envelope) (λ _, Some [".png"]) 100 "raw"
      demo_envelope em) as (ps & _ & _ & _ & _ & Hf) end.
  - reflexivity.
  - vm_compute. reflexivity.
  - split; [apply (bool_decide_unpack _); vm_compute; exact I|].
    eapply Forall_impl; [exact Hf|]. cbn. tauto.
Defined.
