(* ===== verification/Trace.v ===== *)
(** * Request contexts: [internal/trace/context.go] and the bypass flag of
    [internal/relay/service.go]

    Of a [context.Context] the program reads two values it stores there itself:
    the request id and the flag that a replay must not queue again. *)
From S2P Require Import Prelude GoStrings.

Open Scope go_scope.

Record Ctx := mkCtx {
  request_id : option bytes;
  dlq_bypass : option bool;
}.

Definition Background : Ctx := mkCtx None None.

Definition WithRequestID (ctx : Ctx) (requestID : bytes) : Ctx :=
  let requestID := trim_space requestID in
  if decide (requestID = []) then ctx else mkCtx (Some requestID) (dlq_bypass ctx).

Definition RequestID (ctx : Ctx) : bytes :=
  match request_id ctx with Some v => trim_space v | None => [] end.

Definition Prefix (ctx : Ctx) : bytes :=
  let requestID := RequestID ctx in
  if decide (requestID ≠ []) then "[req=" ++ requestID ++ "] " else [].

Definition WithDLQBypass (ctx : Ctx) : Ctx := mkCtx (request_id ctx) (Some true).
Definition shouldBypassDLQ (ctx : Ctx) : bool := default false (dlq_bypass ctx).
