(* ===== verification/Confirm.v ===== *)
(** * Confirmation tokens: [internal/max/admin_confirm.go]

    A dangerous command is stored under a random token and runs when the
    administrator sends the token back from the same chat in time.  The stored
    closures are the two replay commands, so they are data here; [bot_runtime.go]
    runs them.  The mutex makes each operation atomic. *)
From S2P Require Import Prelude GoStrings GoRuntime.

Open Scope Z_scope.
Open Scope go_scope.

(** The closures [bot_runtime.go] passes to [registerConfirm]; the context and the
    queue administration they capture are those of the bot. *)
Inductive confirm_execute :=
  | ExecReplay (id : bytes)
  | ExecReplayBatch (limit : Z) (mode : bytes).

Record confirmAction := mkConfirm { expiresAt : time; execute : confirm_execute }.

Abbreviation confirm_table := (gmap bytes confirmAction).

Definition confirmKey (chatID : Z) (token : bytes) : bytes :=
  format_int chatID ++ ":" ++ trim_space token.

(** A digit of [strconv.FormatInt(z, 36)]. *)
Definition digit36 (d : Z) : ascii := byte_of (if d <? 10 then 48 + d else 87 + d).
Fixpoint fmt_base36 (fuel : nat) (n : Z) (acc : bytes) : bytes :=
  match fuel with
  | O => acc
  | S fuel =>
    if n <? 36 then digit36 n :: acc else fmt_base36 fuel (n / 36) (digit36 (n mod 36) :: acc)
  end.
Definition format_base36 (z : Z) : bytes :=
  let n := Z.abs z in
  (if z <? 0 then "-" else []) ++ fmt_base36 (S (Z.to_nat (Z.log2 n))) n [].

(** [randomToken]: [rnd] is what [rand.Read] filled the buffer with, or [None] if
    it failed; [now] is read only then. *)
Definition randomToken (rnd : option bytes) (now : time) : bytes :=
  match rnd with
  | Some buf => hex buf
  | None => format_base36 (unix_nano now)
  end.

Definition purgeExpiredLocked (now : time) (m : confirm_table) : confirm_table :=
  filter (λ kv, negb (after now (expiresAt kv.2)) = true) m.

(** [registerConfirm] with its token drawn. *)
Definition registerConfirm (now : time) (chatID : Z) (token : bytes) (ttl : duration)
    (execute : confirm_execute) (m : confirm_table) : confirm_table :=
  let ttl := if ttl <=? 0 then 5 * Minute else ttl in
  <[confirmKey chatID token := mkConfirm (time_add now ttl) execute]> (purgeExpiredLocked now m).

(** [consumeConfirm] up to the call of the action. *)
Definition consumeConfirm (now : time) (chatID : Z) (token : bytes) (m : confirm_table) :
    option confirm_execute * confirm_table :=
  let key := confirmKey chatID token in
  match m !! key with
  | Some action =>
    if after now (expiresAt action) then (None, delete key m) else (Some (execute action), delete key m)
  | None => (None, delete key m)
  end.

(** * Specification: the operations so far *)
Inductive confirm_op :=
  | Register (now : time) (chatID : Z) (token : bytes) (ttl : duration) (x : confirm_execute)
  | Consume (now : time) (chatID : Z) (token : bytes).

Definition op_time (o : confirm_op) : time :=
  match o with Register t _ _ _ _ | Consume t _ _ => t end.
Definition op_chat (o : confirm_op) : Z :=
  match o with Register _ c _ _ _ | Consume _ c _ => c end.
Definition op_token (o : confirm_op) : bytes :=
  match o with Register _ _ k _ _ | Consume _ _ k => k end.
Definition op_key (o : confirm_op) : bytes := confirmKey (op_chat o) (op_token o).

Definition apply_op (m : confirm_table) (o : confirm_op) : confirm_table :=
  match o with
  | Register t c k ttl x => registerConfirm t c k ttl x m
  | Consume t c k => (consumeConfirm t c k m).2
  end.
Definition run (ops : list confirm_op) : confirm_table := foldl apply_op ∅ ops.

(** The operation is about this chat and token. *)
Definition about (chatID : Z) (token : bytes) (o : confirm_op) : Prop :=
  op_chat o = chatID ∧ trim_space (op_token o) = trim_space token.

Definition lifetime (ttl : duration) : duration := if ttl <=? 0 then 5 * Minute else ttl.

(** * Lemmas *)
Lemma fmt_nat_no_colon n : 0 ≤ n → ":"%char ∉ fmt_nat n.
Proof.
  intros Hn Hin. destruct (fmt_nat_spec n Hn) as (Hd & _). unfold all_digits in Hd.
  rewrite forallb_forall in Hd. by specialize (Hd _ (proj1 (list_elem_of_In _ _) Hin)).
Qed.

Lemma confirmKey_inj c k c' k' :
  in_int64 c → in_int64 c' → confirmKey c k = confirmKey c' k' → c = c' ∧ trim_space k = trim_space k'.
Proof.
  intros Hc Hc' E. unfold confirmKey in E.
  assert (∀ z, ":"%char ∉ format_int z) as Hno.
  { intros z Hin. unfold format_int in Hin. destruct (Z.ltb_spec z 0).
    - apply elem_of_cons in Hin as [Hin|Hin]; [done|]. apply (fmt_nat_no_colon (- z)); [lia|done].
    - by apply (fmt_nat_no_colon z). }
  assert (format_int c = format_int c' ∧ trim_space k = trim_space k') as [Ef Ek].
  { pose proof (index_byte_app ":"%char (format_int c) (trim_space k) (Hno c)) as H1.
    pose proof (index_byte_app ":"%char (format_int c') (trim_space k') (Hno c')) as H2.
    change (format_int c ++ ":" ++ trim_space k) with (format_int c ++ ":"%char :: trim_space k) in E.
    change (format_int c' ++ ":" ++ trim_space k') with (format_int c' ++ ":"%char :: trim_space k') in E.
    rewrite E, H2 in H1. injection H1 as Hl. apply app_inj_1 in E as [? E]; [|done]. by injection E. }
  split; [|done]. pose proof (parse_format_int c Hc) as P1. rewrite Ef, parse_format_int in P1 by done. congruence.
Qed.

Lemma op_key_about c k o :
  in_int64 c → in_int64 (op_chat o) → op_key o = confirmKey c k ↔ about c k o.
Proof.
  intros Hc Ho. unfold op_key, about. split; [by apply confirmKey_inj|].
  unfold confirmKey. by intros [-> ->].
Qed.

(** One operation and one entry. *)
Lemma apply_op_other m o key e x :
  op_key o ≠ key → apply_op m o !! key = Some (mkConfirm e x) → m !! key = Some (mkConfirm e x).
Proof.
  intros Hk. destruct o as [t c k ttl y|t c k]; cbn [apply_op].
  - unfold registerConfirm. cbv zeta. rewrite lookup_insert_ne by exact Hk.
    by intros [? _]%map_lookup_filter_Some.
  - unfold consumeConfirm. cbv zeta. repeat case_match; cbn [snd]; by intros [_ ?]%lookup_delete_Some.
Qed.

Lemma apply_op_keeps m o key e x :
  op_key o ≠ key → op_time o ≤ e → m !! key = Some (mkConfirm e x) → apply_op m o !! key = Some (mkConfirm e x).
Proof.
  intros Hk Ht Hm. destruct o as [t c k ttl y|t c k]; cbn [apply_op op_time] in *.
  - unfold registerConfirm. cbv zeta. rewrite lookup_insert_ne by exact Hk.
    apply map_lookup_filter_Some. split; [done|]. cbn. unfold after.
    destruct (Z.ltb_spec e t); [lia|done].
  - unfold consumeConfirm. cbv zeta. repeat case_match; cbn [snd]; by rewrite lookup_delete_ne.
Qed.

Lemma run_snoc ops o : run (ops ++ [o]) = apply_op (run ops) o.
Proof. unfold run. by rewrite foldl_app. Qed.

(** An entry comes from the last operation with its key. *)
Lemma run_entry ops key e x :
  run ops !! key = Some (mkConfirm e x) →
  ∃ pre t c k ttl post, ops = pre ++ Register t c k ttl x :: post ∧ confirmKey c k = key ∧
    e = time_add t (lifetime ttl) ∧ Forall (λ o, op_key o ≠ key) post.
Proof.
  induction ops as [|o ops IH] using rev_ind; [done|]. rewrite run_snoc. intros H.
  destruct (decide (op_key o = key)) as [Hk|Hk].
  - destruct o as [t c k ttl y|t c k]; cbn [apply_op] in H; change (confirmKey c k = key) in Hk.
    + unfold registerConfirm in H. rewrite Hk, lookup_insert_eq in H. injection H as <- <-.
      exists ops, t, c, k, ttl, []. by split_and!.
    + unfold consumeConfirm in H. rewrite Hk in H. cbv zeta in H.
      repeat case_match; cbn [snd] in H; by rewrite lookup_delete_eq in H.
  - apply apply_op_other in H; [|done].
    destruct (IH H) as (pre & t & c & k & ttl & post & -> & Hkey & He & Hf).
    exists pre, t, c, k, ttl, (post ++ [o]). rewrite <- app_assoc. split_and!; [done..|].
    apply Forall_app. split; [done|]. by constructor.
Qed.

Lemma entry_run pre t c k ttl x post key :
  confirmKey c k = key → Forall (λ o, op_key o ≠ key ∧ op_time o ≤ time_add t (lifetime ttl)) post →
  run (pre ++ Register t c k ttl x :: post) !! key = Some (mkConfirm (time_add t (lifetime ttl)) x).
Proof.
  intros Hk. induction post as [|o post IH] using rev_ind.
  - intros _. rewrite run_snoc. cbn [apply_op]. unfold registerConfirm. rewrite Hk. apply lookup_insert_eq.
  - intros [Hp [[Ho Ht] _]%Forall_cons]%Forall_app. rewrite app_comm_cons, app_assoc, run_snoc.
    apply apply_op_keeps; [done..|]. by apply IH.
Qed.

(** * Properties *)

(** C26. A token runs its command once, in its chat, in time.  At [now], after any
    operations, a token sent from a chat runs the command [x] exactly when it
    was registered for [x] in that chat, its lifetime has not passed, and it has
    been neither used nor registered again since. *)
Theorem confirm_exactly_once ops now chatID token x :
  in_int64 chatID → Forall (λ o, in_int64 (op_chat o) ∧ op_time o ≤ now) ops →
  (consumeConfirm now chatID token (run ops)).1 = Some x ↔
  ∃ pre t token' ttl post, ops = pre ++ Register t chatID token' ttl x :: post ∧
    trim_space token' = trim_space token ∧ now ≤ t + lifetime ttl ∧
    Forall (λ o, ¬ about chatID token o) post.
Proof.
  intros Hc Hops. unfold consumeConfirm. cbv zeta. set (key := confirmKey chatID token). split.
  - destruct (run ops !! key) as [[e y]|] eqn:Hr; [|done]. cbn [expiresAt execute].
    destruct (after now e) eqn:Ha; [done|]. intros [= ->].
    destruct (run_entry _ _ _ _ Hr) as (pre & t & c & k & ttl & post & -> & Hk & -> & Hf).
    apply Forall_app in Hops as [_ [[Hc' _] Hops]%Forall_cons].
    destruct (confirmKey_inj c k chatID token Hc' Hc Hk) as [-> Ht].
    exists pre, t, k, ttl, post. split_and!; [done|done|unfold after in Ha; revert Ha; unfold time_add; lia|].
    rewrite Forall_forall in *. intros o Ho. rewrite <- op_key_about; [by apply Hf|done|by apply Hops].
  - intros (pre & t & k & ttl & post & -> & Hk & Hnow & Hf).
    apply Forall_app in Hops as [_ [_ Hops]%Forall_cons].
    rewrite (entry_run pre t chatID k ttl x post key).
    + cbn [expiresAt execute]. unfold after, time_add. destruct (Z.ltb_spec (t + lifetime ttl) now); [lia|done].
    + unfold key, confirmKey. by rewrite Hk.
    + rewrite Forall_forall in *. intros o Ho. destruct (Hops o Ho) as [Hin Ht]. split.
      * unfold key. rewrite op_key_about; [by apply Hf|done|done].
      * unfold time_add. lia.
Qed.

(** A token used once is used up: the second attempt and another chat's fail. *)
Lemma confirm_exactly_once_witness :
  let ops := [Register 0 100 "t1" 0 (ExecReplay "a"); Register 5 100 "t2" 0 (ExecReplay "b"); Consume 6 7 "t1"] in
  (consumeConfirm 10 100 " t1" (run ops)).1 = Some (ExecReplay "a") ∧
  (consumeConfirm 10 100 "t1" (run (ops ++ [Consume 9 100 "t1"]))).1 = None.
Proof.
  assert (∀ z, 0 ≤ z ≤ 100 → in_int64 z) as Hin by (intros z Hz; unfold in_int64, int64_min, int64_max; lia).
  split; [|vm_compute; reflexivity].
  apply confirm_exactly_once; [apply Hin; lia|repeat (constructor; [split; [apply Hin|]; simpl; lia|]); constructor|].
  exists [], 0, "t1", 0, [Register 5 100 "t2" 0 (ExecReplay "b"); Consume 6 7 "t1"].
  split_and!; [reflexivity|reflexivity|vm_compute; discriminate|].
  repeat constructor; unfold about; cbn; intros [? E]; [vm_compute in E|]; discriminate.
Defined.
