(* ===== verification/RateLimiter.v ===== *)
(** * The rate limiter: [internal/max/limited_sender.go]

    A token bucket in front of the sender, shared by all the goroutines that
    send.  [tokens] and [queueSlots] are buffered channels of units, so their
    state is how many units they hold.  The model is a transition system over
    the limiter, the calls in progress and the ticks of the refill loop; the
    scheduler and the clock choose which step comes next. *)
From S2P Require Import Prelude GoStrings GoRuntime GoTime Metrics.

Open Scope Z_scope.
Open Scope go_scope.

Record RateLimiterConfig := mkConfig {
  RPS : Z;
  Burst : Z;
  QueueCapacity : Z;
  QueueWait : duration;
}.

(** The limiter's own numbers after [NewRateLimitedSender] has applied its
    defaults. *)
Record Limits := mkLimits {
  burst : nat;
  capacity : nat;
  queueWait : duration;
  refill_interval : duration;
}.

(** [None]: sends are not limited ([cfg.RPS <= 0]). *)
Definition limits_of (cfg : RateLimiterConfig) : option Limits :=
  if RPS cfg <=? 0 then None else
  let b := if Burst cfg <=? 0 then 1 else Burst cfg in
  let c := if QueueCapacity cfg <? 0 then 0 else QueueCapacity cfg in
  let q := if QueueWait cfg <=? 0 then 500 * Millisecond else QueueWait cfg in
  let i := Z.quot Second (RPS cfg) in
  Some (mkLimits (Z.to_nat b) (Z.to_nat c) q (if i <=? 0 then 1 else i)).

(** [QueueTimeoutError.Error()] *)
Definition queue_timeout (d : duration) : bytes :=
  "max send queue timeout: waited " ++ duration_string d.

(** Where a call to [acquire] is. *)
Inductive phase :=
  | Entering                 (** before the first [select] *)
  | Queueing                 (** no token was free *)
  | Counting                 (** has a slot; about to add itself to the depth *)
  | Publishing (v : Z)       (** about to set the gauge to [v] *)
  | Waiting                  (** in the last [select] *)
  | Leaving (r : option bytes)    (** decided, still has its slot *)
  | Uncounting (r : option bytes) (** gave back its slot; about to subtract itself *)
  | Unpublishing (r : option bytes) (v : Z) (** about to set the gauge to [v] *)
  | Returned (r : option bytes).

Record State := mkState {
  tokens : nat;
  slots : nat;
  queueDepth : Z;
  calls : gmap nat phase;
  metrics : Collector;
  (** Ghost: tokens added by the refill loop, and calls let through. *)
  refills : nat;
  granted : nat;
}.

Definition set_call (id : nat) (p : phase) (s : State) : State :=
  mkState (tokens s) (slots s) (queueDepth s) (<[id := p]> (calls s)) (metrics s) (refills s) (granted s).
Definition set_tokens (n : nat) (s : State) : State :=
  mkState n (slots s) (queueDepth s) (calls s) (metrics s) (refills s) (granted s).
Definition set_slots (n : nat) (s : State) : State :=
  mkState (tokens s) n (queueDepth s) (calls s) (metrics s) (refills s) (granted s).
Definition map_metrics (f : Collector → Collector) (s : State) : State :=
  mkState (tokens s) (slots s) (queueDepth s) (calls s) (f (metrics s)) (refills s) (granted s).
Definition count_refill (s : State) : State :=
  mkState (tokens s) (slots s) (queueDepth s) (calls s) (metrics s) (S (refills s)) (granted s).
Definition count_grant (s : State) : State :=
  mkState (tokens s) (slots s) (queueDepth s) (calls s) (metrics s) (refills s) (S (granted s)).

(** [updateQueueDepth]: the atomic addition, and the gauge set after it.  (There
    are fewer than [2^63] calls; the sum is not negative, see the invariant, so
    the correction to 0 never runs.) *)
Definition next_depth (delta : Z) (s : State) : Z :=
  let next := queueDepth s + delta in if next <? 0 then 0 else next.
Definition add_depth (delta : Z) (s : State) : State :=
  mkState (tokens s) (slots s) (next_depth delta s) (calls s) (metrics s) (refills s) (granted s).
Definition set_gauge (v : Z) (s : State) : State := map_metrics (SetMaxSendQueueDepth v) s.

Definition initial (l : Limits) (c : Collector) : State :=
  mkState (burst l) 0 0 ∅ (SetMaxSendQueueDepth 0 c) 0 0.

(** The steps; [e] is [ctx.Err()] of a context that is done. *)
Inductive step (l : Limits) (s : State) : State → Prop :=
  (** The refill loop: a token if there is room, and nothing otherwise. *)
  | refill : (tokens s < burst l)%nat → step l s (count_refill (set_tokens (S (tokens s)) s))
  | refill_full : (burst l ≤ tokens s)%nat → step l s s
  | call id : calls s !! id = None → step l s (set_call id Entering s)
  (** The first [select]. *)
  | enter_cancelled id e : calls s !! id = Some Entering → step l s (set_call id (Returned (Some e)) s)
  | enter_token id n : calls s !! id = Some Entering → tokens s = S n →
      step l s (set_call id (Returned None) (count_grant (set_tokens n s)))
  | enter_empty id : calls s !! id = Some Entering → tokens s = O → step l s (set_call id Queueing s)
  (** The second. *)
  | queue_slot id : calls s !! id = Some Queueing → (slots s < capacity l)%nat →
      step l s (set_call id Counting (set_slots (S (slots s)) s))
  | queue_full id : calls s !! id = Some Queueing → (capacity l ≤ slots s)%nat →
      step l s (set_call id (Returned (Some (queue_timeout 0)))
                  (map_metrics (IncMaxSendRateLimited ∘ IncMaxSendQueueDropped) s))
  | count id : calls s !! id = Some Counting →
      step l s (set_call id (Publishing (next_depth 1 s)) (add_depth 1 s))
  | publish id v : calls s !! id = Some (Publishing v) → step l s (set_call id Waiting (set_gauge v s))
  (** The third. *)
  | wait_cancelled id e : calls s !! id = Some Waiting → step l s (set_call id (Leaving (Some e)) s)
  | wait_timeout id : calls s !! id = Some Waiting →
      step l s (set_call id (Leaving (Some (queue_timeout (queueWait l))))
                  (map_metrics (IncMaxSendRateLimited ∘ IncMaxSendQueueDropped) s))
  | wait_token id n : calls s !! id = Some Waiting → tokens s = S n →
      step l s (set_call id (Leaving None)
                  (map_metrics IncMaxSendRateLimited (count_grant (set_tokens n s))))
  (** The deferred function. *)
  | leave id r n : calls s !! id = Some (Leaving r) → slots s = S n →
      step l s (set_call id (Uncounting r) (set_slots n s))
  | uncount id r : calls s !! id = Some (Uncounting r) →
      step l s (set_call id (Unpublishing r (next_depth (-1) s)) (add_depth (-1) s))
  | unpublish id r v : calls s !! id = Some (Unpublishing r v) →
      step l s (set_call id (Returned r) (set_gauge v s)).

(** ** What one call does to the collector

    How a call goes through [acquire], and what it tells the collector on its way; the
    depths it publishes depend on the other calls. *)
Inductive queue_end := GotToken | GaveUp | TimedOut.
Inductive passage :=
  | Straight                                       (** a token was free, or the context done *)
  | TurnedAway                                     (** the queue was full *)
  | Queued (depth : Z) (e : queue_end) (depth' : Z).

Definition end_marks (e : queue_end) : list (Collector → Collector) :=
  match e with
  | GotToken => [IncMaxSendRateLimited]
  | GaveUp => []
  | TimedOut => [IncMaxSendQueueDropped; IncMaxSendRateLimited]
  end.
Definition passage_marks (p : passage) : list (Collector → Collector) :=
  match p with
  | Straight => []
  | TurnedAway => [IncMaxSendQueueDropped; IncMaxSendRateLimited]
  | Queued depth e depth' => SetMaxSendQueueDepth depth :: end_marks e ++ [SetMaxSendQueueDepth depth']
  end.
Definition marked (p : passage) (c : Collector) : Collector := foldl (λ c f, f c) c (passage_marks p).

(** * Specification *)

(** A call that holds a queue slot, and one that is counted in the depth. *)
Definition holds_slot (p : phase) : bool :=
  match p with Counting | Publishing _ | Waiting | Leaving _ => true | _ => false end.
Definition in_depth (p : phase) : bool :=
  match p with Publishing _ | Waiting | Leaving _ | Uncounting _ => true | _ => false end.
(** A call that has been let through. *)
Definition passed (p : phase) : bool :=
  match p with
  | Leaving None | Uncounting None | Unpublishing None _ | Returned None => true
  | _ => false
  end.

Definition waiting (p : phase) : bool := match p with Waiting => true | _ => false end.

Definition how_many (f : phase → bool) (m : gmap nat phase) : nat :=
  size (filter (λ kv, f kv.2 = true) m).

Definition invariant (l : Limits) (s : State) : Prop :=
  (tokens s ≤ burst l)%nat ∧ (slots s ≤ capacity l)%nat ∧
  (tokens s + granted s = burst l + refills s)%nat ∧
  slots s = how_many holds_slot (calls s) ∧
  queueDepth s = Z.of_nat (how_many in_depth (calls s)) ∧
  granted s = how_many passed (calls s).

(** * Lemmas *)
Definition b2n (b : bool) : nat := if b then 1 else 0.

Lemma how_many_insert f m id p :
  m !! id = None → how_many f (<[id := p]> m) = (how_many f m + b2n (f p))%nat.
Proof.
  intros Hid. unfold how_many. destruct (f p) eqn:Hf.
  - rewrite map_filter_insert_True by done. rewrite map_size_insert_None; [simpl; lia|].
    by rewrite map_lookup_filter, Hid.
  - rewrite map_filter_insert_False by (cbn; congruence). rewrite delete_id by done. simpl. lia.
Qed.

Lemma how_many_update f m id q p :
  m !! id = Some q →
  (how_many f (<[id := p]> m) + b2n (f q) = how_many f m + b2n (f p))%nat.
Proof.
  intros Hq. rewrite <- (insert_delete_id m id q) at 2 by done. rewrite <- (insert_delete_eq m).
  rewrite !how_many_insert by apply lookup_delete_eq. lia.
Qed.

Lemma how_many_member f m id q : m !! id = Some q → f q = true → (1 ≤ how_many f m)%nat.
Proof.
  intros Hq Hf. rewrite <- (insert_delete_id m id q) by done.
  rewrite how_many_insert by apply lookup_delete_eq. rewrite Hf. simpl. lia.
Qed.

Lemma how_many_mono f g m : (∀ p, f p = true → g p = true) → (how_many f m ≤ how_many g m)%nat.
Proof.
  intros Hfg. apply map_subseteq_size. apply map_filter_subseteq_ext. intros id p _. apply Hfg.
Qed.

Lemma invariant_initial l c : invariant l (initial l c).
Proof. unfold invariant, initial, how_many. cbn. rewrite !map_filter_empty, !map_size_empty. lia. Qed.

(** What changing the phase of one call does to the three counts. *)
Ltac count_calls :=
  repeat match goal with
  | H : calls ?s !! ?id = Some ?q |- context [how_many ?f (<[?id := ?p]> (calls ?s))] =>
    let E := fresh "E" in
    pose proof (how_many_update f (calls s) id q p H) as E; cbn in E;
    generalize dependent (how_many f (<[id := p]> (calls s))); intros
  | H : calls ?s !! ?id = None |- context [how_many ?f (<[?id := ?p]> (calls ?s))] =>
    rewrite (how_many_insert f (calls s) id p H); cbn
  end.

Lemma invariant_step l s s' : invariant l s → step l s s' → invariant l s'.
Proof.
  intros (H1 & H2 & H3 & H4 & H5 & H6) Hst.
  assert (∀ id q, calls s !! id = Some q → in_depth q = true → 1 ≤ queueDepth s) as Hdepth.
  { intros id q Hq Hf. pose proof (how_many_member in_depth _ _ _ Hq Hf). lia. }
  destruct Hst; unfold invariant; cbn; unfold next_depth;
    try match goal with H : calls s !! _ = Some (Uncounting _) |- _ => pose proof (Hdepth _ _ H eq_refl) end;
    try destruct r; count_calls; try split_if; bprop; split_and!; lia.
Qed.

Lemma invariant_steps l c s : rtc (step l) (initial l c) s → invariant l s.
Proof.
  intros Hst. assert (∀ s0, invariant l s0 → rtc (step l) s0 s → invariant l s) as H.
  { clear Hst. intros s0 Hi Hst. induction Hst; [done|]. eauto using invariant_step. }
  eapply H; [apply (invariant_initial l c)|done].
Qed.

(** * Properties *)

(** C19. The limiter limits.  In every reachable state, under every interleaving of
    the calls with the refill loop, the calls let through are at most the burst
    plus the tokens added since; the bucket holds at most the burst; the slots taken
    are exactly those of the calls between getting a slot and giving it back, and at
    most [QueueCapacity], so that at most as many calls wait; and the depth counts
    exactly the calls that have entered the queue and not yet left it. *)
Theorem limiter_invariant l c s :
  rtc (step l) (initial l c) s →
  (how_many passed (calls s) ≤ burst l + refills s)%nat ∧ (tokens s ≤ burst l)%nat ∧
  slots s = how_many holds_slot (calls s) ∧ (how_many holds_slot (calls s) ≤ capacity l)%nat ∧
  (how_many waiting (calls s) ≤ capacity l)%nat ∧
  queueDepth s = Z.of_nat (how_many in_depth (calls s)).
Proof.
  intros (H1 & H2 & H3 & H4 & H5 & H6)%invariant_steps.
  pose proof (how_many_mono waiting holds_slot (calls s) ltac:(by intros [])) as Hm.
  split_and!; lia.
Qed.

(** ** Runs of single calls, for the witnesses *)
Lemma run_to_waiting l s id :
  calls s !! id = None → tokens s = O → (slots s < capacity l)%nat → 0 ≤ queueDepth s →
  ∃ s', rtc (step l) s s' ∧ calls s' = <[id := Waiting]> (calls s) ∧ slots s' = S (slots s) ∧
    tokens s' = O ∧ queueDepth s' = queueDepth s + 1.
Proof.
  intros Hid Ht Hs Hq. eexists. split.
  - eapply rtc_l; [by apply (call _ _ id)|].
    eapply rtc_l; [apply (enter_empty _ _ id); [apply lookup_insert_eq|done]|].
    eapply rtc_l; [apply (queue_slot _ _ id); [apply lookup_insert_eq|done]|].
    eapply rtc_l; [apply (count _ _ id), lookup_insert_eq|].
    eapply rtc_l; [eapply (publish _ _ id), lookup_insert_eq|]. reflexivity.
  - cbn. unfold next_depth. cbn. rewrite !insert_insert_eq. split_and!; try done. split_if; bprop; lia.
Qed.

Lemma run_to_unpublishing l s id e n :
  calls s !! id = Some Waiting → slots s = S n → 1 ≤ queueDepth s →
  ∃ s', rtc (step l) s s' ∧ slots s' = n ∧ queueDepth s' = queueDepth s - 1 ∧
    calls s' = <[id := Unpublishing (Some e) (queueDepth s - 1)]> (calls s).
Proof.
  intros Hid Hs Hq. eexists. split.
  - eapply rtc_l; [by apply (wait_cancelled _ _ id e)|].
    eapply rtc_l; [apply (leave _ _ id (Some e) n); [apply lookup_insert_eq|done]|].
    eapply rtc_l; [apply (uncount _ _ id (Some e)), lookup_insert_eq|]. reflexivity.
  - cbn. unfold next_depth. cbn. rewrite !insert_insert_eq.
    replace (queueDepth s + -1) with (queueDepth s - 1) by lia.
    destruct (Z.ltb_spec (queueDepth s - 1) 0); [lia|]. by split_and!.
Qed.

(** Call 0 takes the only token. *)
Definition first_taken (l : Limits) : State :=
  let s := set_call 0 Entering (initial l NewCollector) in
  set_call 0 (Returned None) (count_grant (set_tokens 0 s)).
Lemma run_first_taken l :
  burst l = 1%nat → rtc (step l) (initial l NewCollector) (first_taken l).
Proof.
  intros Hb. eapply rtc_l; [by apply (call _ _ 0%nat)|]. apply rtc_once.
  apply (enter_token _ _ 0%nat 0%nat); [apply lookup_insert_eq|done].
Qed.

Definition wit_limits : Limits := mkLimits 1 2 Second Second.

(** Then call 1 waits and gets the next token. *)
Lemma wit_run : ∃ s,
  rtc (step wit_limits) (initial wit_limits NewCollector) s ∧
  calls s !! 0%nat = Some (Returned None) ∧ calls s !! 1%nat = Some (Leaving None).
Proof.
  destruct (run_to_waiting wit_limits (first_taken wit_limits) 1) as (s & Hrun & Hc & _ & Ht & _);
    [done|done|simpl; lia|done|].
  eexists. split.
  - etrans; [by apply (run_first_taken wit_limits)|]. etrans; [exact Hrun|].
    eapply rtc_l; [apply refill; rewrite Ht; simpl; lia|]. apply rtc_once.
    apply (wait_token _ _ 1%nat (tokens s)); [|done]. cbn. rewrite Hc. apply lookup_insert_eq.
  - cbn. rewrite Hc. split; [done|apply lookup_insert_eq].
Qed.

Lemma limiter_invariant_witness :
  ∃ s, calls s !! 0%nat = Some (Returned None) ∧ calls s !! 1%nat = Some (Leaving None) ∧
    (how_many passed (calls s) ≤ burst wit_limits + refills s)%nat.
Proof.
  destruct wit_run as (s & Hrun & H0 & H1). exists s.
  destruct (limiter_invariant wit_limits NewCollector s Hrun) as [Hp _].
  exact (conj H0 (conj H1 Hp)).
Defined.

(** C20. No call is stuck.  Every call in progress can take a step of its own in
    every reachable state; in particular giving back a queue slot never blocks. *)
Theorem calls_progress l c s id p :
  rtc (step l) (initial l c) s → calls s !! id = Some p → (∀ r, p ≠ Returned r) →
  ∃ s' p', step l s s' ∧ calls s' !! id = Some p' ∧ p' ≠ p.
Proof.
  intros Hinv%invariant_steps Hp Hr. destruct Hinv as (_ & _ & _ & H4 & _).
  destruct p as [| | |v| |r|r|r v|r].
  - destruct (tokens s) as [|n] eqn:Ht.
    + exists (set_call id Queueing s), Queueing. split_and!; [by apply enter_empty|apply lookup_insert_eq|done].
    + eexists _, (Returned None). split_and!; [by eapply enter_token|apply lookup_insert_eq|done].
  - destruct (decide (slots s < capacity l)%nat).
    + eexists _, Counting. split_and!; [by apply queue_slot|apply lookup_insert_eq|done].
    + eexists _, (Returned _). split_and!; [apply queue_full; [done|lia]|apply lookup_insert_eq|done].
  - eexists _, (Publishing _). split_and!; [by apply count|apply lookup_insert_eq|done].
  - eexists _, Waiting. split_and!; [by eapply publish|apply lookup_insert_eq|done].
  - eexists _, (Leaving _). split_and!; [by apply wait_timeout|apply lookup_insert_eq|done].
  - pose proof (how_many_member holds_slot _ _ _ Hp eq_refl) as Hm.
    destruct (slots s) as [|n] eqn:Hs; [lia|].
    eexists _, (Uncounting r). split_and!; [by eapply leave|apply lookup_insert_eq|done].
  - eexists _, (Unpublishing r _). split_and!; [by apply uncount|apply lookup_insert_eq|done].
  - eexists _, (Returned r). split_and!; [by eapply unpublish|apply lookup_insert_eq|done].
  - by destruct (Hr r).
Qed.

Lemma calls_progress_witness :
  ∃ s s' p', step wit_limits s s' ∧ calls s' !! 1%nat = Some p' ∧ p' ≠ Leaving None.
Proof.
  destruct wit_run as (s & Hrun & _ & H1).
  destruct (calls_progress wit_limits NewCollector s 1%nat (Leaving None) Hrun H1) as (s' & p' & Hs).
  { discriminate. }
  exact (ex_intro _ s (ex_intro _ s' (ex_intro _ p' Hs))).
Defined.

(** The depth gauge can go stale: the depth is changed and the gauge is set in
    two steps, and two calls can set it in the other order than they changed
    it.  Here two calls leave the queue, nobody is in it any more, and the gauge
    says 1 until another call queues. *)
Theorem gauge_can_go_stale :
  ∃ s, rtc (step wit_limits) (initial wit_limits NewCollector) s ∧
    map_Forall (λ _ p, ∃ r, p = Returned r) (calls s) ∧ queueDepth s = 0 ∧
    counters (metrics s) maxSendQueueDepth = 1.
Proof.
  destruct (run_to_waiting wit_limits (first_taken wit_limits) 1) as (s1 & R1 & C1 & S1 & T1 & Q1);
    [done|done|simpl; lia|done|].
  destruct (run_to_waiting wit_limits s1 2) as (s2 & R2 & C2 & S2 & T2 & Q2);
    [by rewrite C1|done|rewrite S1; simpl; lia|rewrite Q1; done|].
  rewrite S1 in S2. rewrite Q1 in Q2. rewrite C1 in C2. cbn in S2, Q2.
  destruct (run_to_unpublishing wit_limits s2 1 "canceled" 1) as (s3 & R3 & S3 & Q3 & C3);
    [by rewrite C2|done|rewrite Q2; done|].
  rewrite Q2 in Q3, C3. rewrite C2 in C3.
  destruct (run_to_unpublishing wit_limits s3 2 "canceled" 0) as (s4 & R4 & S4 & Q4 & C4);
    [by rewrite C3|done|rewrite Q3; done|].
  rewrite Q3 in Q4, C4. rewrite C3 in C4. cbn in Q4, C4.
  eexists. split_and!.
  - etrans; [by apply (run_first_taken wit_limits)|]. etrans; [exact R1|]. etrans; [exact R2|].
    etrans; [exact R3|]. etrans; [exact R4|].
    eapply rtc_l; [apply (unpublish _ _ 2%nat (Some "canceled") 0); by rewrite C4|].
    apply rtc_once. apply (unpublish _ _ 1%nat (Some "canceled") 1). cbn. by rewrite C4.
  - cbn. rewrite C4. intros [|[|[|id]]] p Hp; simplify_map_eq; by eexists.
  - exact Q4.
  - reflexivity.
Qed.

(** The configured limits are sensible whatever the configuration: a burst of at
    least one token and a positive refill interval. *)
Lemma limits_of_positive cfg l :
  limits_of cfg = Some l → (1 ≤ burst l)%nat ∧ 0 < refill_interval l ∧ 0 < queueWait l.
Proof.
  unfold limits_of. destruct (RPS cfg <=? 0); [done|]. intros [= <-]. cbn [burst refill_interval queueWait].
  split_and!; split_if; bprop; try lia; reflexivity.
Qed.
