(* ===== verification/World.v ===== *)
(** * The running program: its shared state and its environment

    The relay service, the queue worker, the bot and the SMTP sessions work on
    the same queue store, alias table, metrics collector and MAX account.  A
    [World] holds these; a component's operation is a computation [M A] made of
    atomic actions on it.

    What the environment decides (the clock, random bytes, the outcome of each
    file-system call and of each call to MAX, the cancellation of a context) is
    an [Env] of oracles.  Every use of an oracle takes the next [tick], so two
    uses may answer differently; the theorems hold for every [Env]. *)
From S2P Require Import Prelude GoStrings GoRuntime GoJson Recipient DlqStore Metrics Email Confirm.
From S2P Require RateLimiter.

Open Scope Z_scope.
Open Scope go_scope.

(** A call to [max.Sender]: [SendText] or [SendFile]. *)
Inductive payload :=
  | PText (text : bytes)
  | PFile (a : Attachment).
Record send := mkSend { s_chat : bytes; s_payload : payload; s_silent : bool }.

Record World := mkWorld {
  tick : nat;
  store : FileStore;
  recipients : parser;
  alias_file : read_result json;
  metrics : Collector;
  pendingConfirm : confirm_table;
  (** The calls to the sender so far with their outcomes, oldest first. *)
  sent : list (send * option bytes);
}.

Record Env := mkEnv {
  runtime : GoRuntime;
  tables : UnicodeTables;
  clock : nat → time;
  random : nat → bytes;
  (** [rand.Read] for a confirmation token; [None] if it fails. *)
  confirm_random : nat → option bytes;
  store_io : nat → persist_io;
  alias_io : nat → SaveIO;
  (** How a call of the sender goes through the limiter, if there is one, and what it
      returns; [None] is success. *)
  limiter_passage : nat → RateLimiter.passage;
  send_result : nat → send → option bytes;
  (** Waiting: [Some e] if the context is done before the time has passed, with
      [e = ctx.Err()]. *)
  cancelled : nat → duration → option bytes;
  (** [rand.Int63n(n)] *)
  jitter : nat → Z → Z;
}.

(** ** Computations

    A computation is a sequence of atomic actions on the world, each chosen by the
    results of those before: what a goroutine does when no other runs is [exec],
    and [Threads] interleaves the actions of several. *)
Inductive M (A : Type) : Type :=
  | Ret (a : A)
  | Act {X : Type} (f : World → X * World) (k : X → M A).
Arguments Ret {A} a.
Arguments Act {A X} f k.

Fixpoint exec {A} (m : M A) (w : World) : A * World :=
  match m with
  | Ret a => (a, w)
  | Act f k => let '(x, w') := f w in exec (k x) w'
  end.
Coercion exec : M >-> Funclass.

#[export] Instance M_ret : MRet M := @Ret.
#[export] Instance M_bind : MBind M := λ A B f,
  fix bind m := match m with Ret a => f a | Act g k => Act g (λ x, bind (k x)) end.
#[export] Instance M_fmap : FMap M := λ A B f m, m ≫= (λ a, Ret (f a)).
Definition act {A} (f : World → A * World) : M A := Act f Ret.

Lemma exec_bind {A B} (m : M A) (k : A → M B) w :
  (m ≫= k) w = let '(a, w') := m w in k a w'.
Proof.
  revert w. induction m as [a|X f g IH]; intros w; [done|]. cbn. destruct (f w) as [x w']. apply IH.
Qed.
Lemma exec_fmap {A B} (f : A → B) (m : M A) w : (f <$> m) w = let '(a, w') := m w in (f a, w').
Proof. unfold fmap, M_fmap. rewrite exec_bind. by destruct (m w). Qed.
Lemma exec_act {A} (f : World → A * World) w : act f w = f w.
Proof. cbn. by destruct (f w). Qed.

Definition set_tick (n : nat) (w : World) : World :=
  mkWorld n (store w) (recipients w) (alias_file w) (metrics w) (pendingConfirm w) (sent w).
Definition set_store (s : FileStore) (w : World) : World :=
  mkWorld (tick w) s (recipients w) (alias_file w) (metrics w) (pendingConfirm w) (sent w).
Definition set_recipients (p : parser) (w : World) : World :=
  mkWorld (tick w) (store w) p (alias_file w) (metrics w) (pendingConfirm w) (sent w).
Definition set_alias_file (f : read_result json) (w : World) : World :=
  mkWorld (tick w) (store w) (recipients w) f (metrics w) (pendingConfirm w) (sent w).
Definition set_metrics (c : Collector) (w : World) : World :=
  mkWorld (tick w) (store w) (recipients w) (alias_file w) c (pendingConfirm w) (sent w).
Definition set_confirms (m : confirm_table) (w : World) : World :=
  mkWorld (tick w) (store w) (recipients w) (alias_file w) (metrics w) m (sent w).
Definition add_sent (x : send * option bytes) (w : World) : World :=
  mkWorld (tick w) (store w) (recipients w) (alias_file w) (metrics w) (pendingConfirm w) (sent w ++ [x]).

(** Read a component of the world. *)
Definition gets {A} (f : World → A) : M A := act (λ w, (f w, w)).
(** Apply a function to the collector. *)
Definition observe (f : Collector → Collector) : M unit := act (λ w, (tt, set_metrics (f (metrics w)) w)).
(** Use an oracle. *)
Definition ask {A} (f : nat → A) : M A := act (λ w, (f (tick w), set_tick (S (tick w)) w)).

(** Run an operation of the store on the world's store. *)
Definition with_store {A} (f : FileStore → A * FileStore) : M A := act (λ w,
  let '(r, s) := f (store w) in (r, set_store s w)).

(** The same for the alias table, its file and the confirmations. *)
Definition with_recipients (f : parser → parser) : M unit := act (λ w,
  (tt, set_recipients (f (recipients w)) w)).
Definition with_alias_file {A} (f : read_result json → A * read_result json) : M A := act (λ w,
  let '(r, file) := f (alias_file w) in (r, set_alias_file file w)).
Definition with_confirms {A} (f : confirm_table → A * confirm_table) : M A := act (λ w,
  let '(r, m) := f (pendingConfirm w) in (r, set_confirms m w)).

Section calls.
Context (E : Env).

(** [time.Now()] *)
Definition now : M time := ask (clock E).

(** [select { case <-ctx.Done(): ... case <-time.After(d): ... }] *)
Definition wait (d : duration) : M (option bytes) := ask (λ n, cancelled E n d).

(** A call to the configured [max.Sender]: what the limiter tells the collector, then
    the outcome. *)
Fixpoint observe_each (l : list (Collector → Collector)) : M unit :=
  match l with [] => mret tt | f :: l => _ ← observe f; observe_each l end.
Definition limited : M unit :=
  p ← ask (limiter_passage E); observe_each (RateLimiter.passage_marks p).
Definition call_sender (x : send) : M (option bytes) :=
  _ ← limited;
  act (λ w, let r := send_result E (tick w) x in (r, add_sent (x, r) (set_tick (S (tick w)) w))).
Definition SendText (chatID text : bytes) (silent : bool) : M (option bytes) :=
  call_sender (mkSend chatID (PText text) silent).
Definition SendFile (chatID : bytes) (a : Attachment) (silent : bool) : M (option bytes) :=
  call_sender (mkSend chatID (PFile a) silent).

(** The store's methods, each taking its own look at the clock. *)
Definition store_Enqueue (recipient raw : bytes) (lastErr : option bytes) : M (res Item) :=
  t ← now; rnd ← ask (random E); io ← ask (store_io E);
  with_store (λ s, Enqueue (H:=runtime E) t rnd io s recipient raw lastErr).
Definition store_PickDue (limit : Z) (t : time) : M (res (list Item)) :=
  io ← ask (store_io E); with_store (λ s, PickDue (H:=runtime E) io s limit t).
Definition store_MarkDone (id : bytes) : M (option bytes) :=
  t ← now; io ← ask (store_io E); with_store (λ s, MarkDone (H:=runtime E) t io s id).
Definition store_MarkRetry (id : bytes) (next : time) (lastErr : option bytes) (maxRetries : Z) :
    M (option bytes) :=
  t ← now; io ← ask (store_io E);
  with_store (λ s, MarkRetry (H:=runtime E) t io s id next lastErr maxRetries).
End calls.

Lemma exec_ret {A} (a : A) w : (mret a : M A) w = (a, w).
Proof. done. Qed.
Lemma exec_gets {A} (f : World → A) w : gets f w = (f w, w).
Proof. done. Qed.
Lemma exec_ask {A} (f : nat → A) w : ask f w = (f (tick w), set_tick (S (tick w)) w).
Proof. done. Qed.
Lemma exec_now E w : now E w = (clock E (tick w), set_tick (S (tick w)) w).
Proof. done. Qed.

Lemma exec_observe_each l w : observe_each l w = (tt, set_metrics (foldl (λ c f, f c) (metrics w) l) w).
Proof. revert w. induction l as [|f l IH]; intros w; [by destruct w|]. cbn [observe_each]. rewrite exec_bind. cbn. by rewrite IH. Qed.
(** A send when nothing else runs. *)
Lemma exec_call_sender E x w :
  call_sender E x w =
  let r := send_result E (S (tick w)) x in
  (r, add_sent (x, r) (set_tick (S (S (tick w)))
        (set_metrics (RateLimiter.marked (limiter_passage E (tick w)) (metrics w)) w))).
Proof. unfold call_sender, limited. rewrite !exec_bind, exec_ask, exec_observe_each. done. Qed.

(** What the store's methods do when nothing else runs. *)
Lemma exec_store_Enqueue E r m e w :
  store_Enqueue E r m e w =
  let '(x, s) := Enqueue (H:=runtime E) (clock E (tick w)) (random E (S (tick w))) (store_io E (S (S (tick w))))
                   (store w) r m e in
  (x, set_store s (set_tick (S (S (S (tick w)))) w)).
Proof. cbn. by destruct (Enqueue _ _ _ _ _ _ _). Qed.
Lemma exec_store_PickDue E limit t w :
  store_PickDue E limit t w =
  let '(x, s) := PickDue (H:=runtime E) (store_io E (tick w)) (store w) limit t in
  (x, set_store s (set_tick (S (tick w)) w)).
Proof. cbn. by destruct (PickDue _ _ _ _). Qed.
Lemma exec_store_MarkDone E id w :
  store_MarkDone E id w =
  let '(x, s) := MarkDone (H:=runtime E) (clock E (tick w)) (store_io E (S (tick w))) (store w) id in
  (x, set_store s (set_tick (S (S (tick w))) w)).
Proof. cbn. by destruct (MarkDone _ _ _ _). Qed.
Lemma exec_store_MarkRetry E id next e n w :
  store_MarkRetry E id next e n w =
  let '(x, s) := MarkRetry (H:=runtime E) (clock E (tick w)) (store_io E (S (tick w))) (store w) id next e n in
  (x, set_store s (set_tick (S (S (tick w))) w)).
Proof. cbn. by destruct (MarkRetry _ _ _ _ _ _ _). Qed.

Create Rewrite HintDb exec.
#[export] Hint Rewrite @exec_bind @exec_fmap @exec_ret @exec_gets @exec_ask exec_now exec_store_Enqueue
  exec_store_PickDue exec_store_MarkDone exec_store_MarkRetry : exec.
(** Run the first actions of the computations in the goal. *)
Ltac executing := autorewrite with exec; cbn [fst snd] in *.

(** ** Reasoning

    [frame f m]: running [m] does not change the component [f]. *)
Definition frame {A B} (f : World → B) (m : M A) : Prop := ∀ w, f (m w).2 = f w.

Lemma frame_ret {A B} (f : World → B) (a : A) : frame f (mret a : M A).
Proof. by intros w. Qed.
Lemma frame_bind {A A' B} (f : World → B) (m : M A) (k : A → M A') :
  frame f m → (∀ a, frame f (k a)) → frame f (m ≫= k).
Proof.
  intros Hm Hk w. rewrite exec_bind. specialize (Hm w). destruct (m w) as [a w'].
  rewrite Hk. exact Hm.
Qed.
Lemma frame_fmap {A A' B} (f : World → B) (g : A → A') (m : M A) : frame f m → frame f (g <$> m).
Proof. intros Hm w. rewrite exec_fmap. specialize (Hm w). by destruct (m w). Qed.
Lemma frame_gets {A B} (f : World → B) (g : World → A) : frame f (gets g).
Proof. by intros w. Qed.
Lemma frame_if {A B} (f : World → B) (b : bool) (m1 m2 : M A) :
  frame f m1 → frame f m2 → frame f (if b then m1 else m2).
Proof. by destruct b. Qed.
Lemma frame_option {A B X} (f : World → B) (o : option X) (m1 : X → M A) (m2 : M A) :
  (∀ x, frame f (m1 x)) → frame f m2 → frame f (match o with Some x => m1 x | None => m2 end).
Proof. by destruct o. Qed.

(** The components an oracle use, an observation or a send leave alone. *)
Lemma frame_ask_store {A} (g : nat → A) : frame store (ask g).
Proof. by intros w. Qed.
Lemma frame_ask_sent {A} (g : nat → A) : frame sent (ask g).
Proof. by intros w. Qed.
Lemma frame_ask_metrics {A} (g : nat → A) : frame metrics (ask g).
Proof. by intros w. Qed.
Lemma frame_ask_recipients {A} (g : nat → A) : frame recipients (ask g).
Proof. by intros w. Qed.
Lemma frame_observe_store g : frame store (observe g).
Proof. by intros w. Qed.
Lemma frame_observe_sent g : frame sent (observe g).
Proof. by intros w. Qed.
Lemma frame_observe_recipients g : frame recipients (observe g).
Proof. by intros w. Qed.
Lemma frame_confirms_store {A} (g : confirm_table → A * confirm_table) : frame store (with_confirms g).
Proof. intros w. unfold with_confirms. rewrite exec_act. by destruct (g _). Qed.
Lemma frame_aliases_store g : frame store (with_recipients g).
Proof. by intros w. Qed.
Lemma frame_alias_file_store {A} (g : read_result json → A * read_result json) : frame store (with_alias_file g).
Proof. intros w. unfold with_alias_file. rewrite exec_act. by destruct (g _). Qed.
Lemma frame_send_store E x : frame store (call_sender E x).
Proof. intros w. by rewrite exec_call_sender. Qed.
Lemma frame_send_recipients E x : frame recipients (call_sender E x).
Proof. intros w. by rewrite exec_call_sender. Qed.
Lemma frame_store_sent {A} (g : FileStore → A * FileStore) : frame sent (with_store g).
Proof. intros w. unfold with_store. rewrite exec_act. by destruct (g _). Qed.
Lemma frame_PickDue_sent E limit t : frame sent (store_PickDue E limit t).
Proof. apply frame_bind; [apply frame_ask_sent|]. intros io. apply frame_store_sent. Qed.
Lemma frame_MarkDone_sent E id : frame sent (store_MarkDone E id).
Proof. do 2 (apply frame_bind; [apply frame_ask_sent|]; intros ?). apply frame_store_sent. Qed.
Lemma frame_MarkRetry_sent E id next e n : frame sent (store_MarkRetry E id next e n).
Proof. do 2 (apply frame_bind; [apply frame_ask_sent|]; intros ?). apply frame_store_sent. Qed.
#[export] Hint Resolve frame_PickDue_sent frame_MarkDone_sent frame_MarkRetry_sent : go.
#[export] Hint Resolve frame_ret frame_gets frame_confirms_store frame_aliases_store frame_alias_file_store frame_ask_store frame_ask_sent frame_ask_metrics
  frame_ask_recipients frame_observe_store frame_observe_sent frame_observe_recipients
  frame_send_store frame_send_recipients : go.

(** Discharge a framing goal by the structure of the computation. *)
Ltac framed :=
  repeat first
    [ progress intros
    | apply frame_bind
    | apply frame_fmap
    | apply frame_if
    | apply frame_option
    | solve [eauto with go]
    | match goal with |- frame _ (if ?d then _ else _) => destruct d end
    | match goal with |- frame _ (let '_ := ?p in _) => destruct p end
    | match goal with |- frame _ (match ?d with _ => _ end) => destruct d end ].

(** The store after [MarkDone] and [MarkRetry], whatever the file system does. *)
Lemma store_MarkDone_items E id w it :
  items (store w) !! id = Some it →
  ∃ t, items (store (store_MarkDone E id w).2) =
    <[id := with_updated t (with_status StatusDone it)]> (items (store w)).
Proof.
  intros Hit. unfold store_MarkDone, now, ask, with_store, mbind, M_bind. simpl. unfold MarkDone. rewrite Hit.
  eexists. match goal with |- context [persistLocked (H:=?rt) ?io ?s] =>
    pose proof (persistLocked_items (H:=rt) io s) as [Hi _]; destruct (persistLocked (H:=rt) io s) as [o s'] end.
  exact Hi.
Qed.

Lemma store_MarkRetry_items E id next e n w it :
  items (store w) !! id = Some it →
  ∃ t, items (store (store_MarkRetry E id next e n w).2) =
    <[id := retry_item t next e n it]> (items (store w)).
Proof.
  intros Hit. unfold store_MarkRetry, now, ask, with_store, mbind, M_bind. simpl. unfold MarkRetry. rewrite Hit.
  eexists. match goal with |- context [persistLocked (H:=?rt) ?io ?s] =>
    pose proof (persistLocked_items (H:=rt) io s) as [Hi _]; destruct (persistLocked (H:=rt) io s) as [o s'] end.
  exact Hi.
Qed.

Lemma retry_item_error now next e n it :
  LastError (retry_item now next (Some e) n it) = e ∧
  Attempt (retry_item now next (Some e) n it) = wrap64 (Attempt it + 1) ∧
  status (retry_item now next (Some e) n it) =
    if (0 <? n) && (n <=? wrap64 (Attempt it + 1)) then StatusFailed else StatusPending.
Proof. unfold retry_item. cbn -[wrap64 Z.leb Z.ltb]. split_if; by split_and!. Qed.
