(* ===== verification/Threads.v ===== *)
(** * Goroutines

    The sessions, the worker and the bot run concurrently.  A goroutine is a
    computation; the others act between any two of its atomic actions.  Its own
    actions are its [events], each the world before and after; [traces] are the
    events it can perform whatever the others do, [pool_run] an interleaving of
    many goroutines.  [wp] verifies a goroutine against a guarantee that each of its
    actions must give, and [pool_guarantee] is its soundness. *)
From S2P Require Import Prelude GoStrings GoRuntime GoJson Recipient DlqStore Metrics Email Confirm World.

Open Scope Z_scope.

Definition event : Type := World * World.

(** ** Traces of one goroutine *)
Fixpoint traces {A} (m : M A) (t : list event) (a : A) : Prop :=
  match m with
  | Ret b => t = [] ∧ a = b
  | Act f k => ∃ w t', t = (w, (f w).2) :: t' ∧ traces (k (f w).1) t' a
  end.

(** [m] ends only with traces and results in [P]. *)
Definition post {A} (m : M A) (P : list event → A → Prop) : Prop := ∀ t a, traces m t a → P t a.

Lemma traces_bind {A B} (m : M A) (k : A → M B) t b :
  traces (m ≫= k) t b ↔ ∃ t1 t2 a, t = t1 ++ t2 ∧ traces m t1 a ∧ traces (k a) t2 b.
Proof.
  revert t. induction m as [a|X f g IH]; intros t; cbn.
  - split; [by exists [], t, a|]. by intros (? & t2 & ? & -> & [-> ->] & Hk).
  - split.
    + intros (w & t' & -> & (t1 & t2 & a & -> & H1 & H2)%IH). exists ((w, (f w).2) :: t1), t2, a.
      split_and!; [done|by exists w, t1|done].
    + intros (? & t2 & a & -> & (w & t1 & -> & H1) & H2). exists w, (t1 ++ t2).
      split; [done|]. apply IH. by exists t1, t2, a.
Qed.

Lemma post_ret {A} (a : A) (P : list event → A → Prop) : P [] a → post (mret a) P.
Proof. by intros HP t b [-> ->]. Qed.
Lemma post_bind {A B} (m : M A) (k : A → M B) (P : list event → A → Prop) Q :
  post m P → (∀ t1 a, P t1 a → post (k a) (λ t2 b, Q (t1 ++ t2) b)) → post (m ≫= k) Q.
Proof. intros Hm Hk t b (t1 & t2 & a & -> & H1 & H2)%traces_bind. by apply (Hk t1 a (Hm _ _ H1)). Qed.
Lemma post_mono {A} (m : M A) (P Q : list event → A → Prop) :
  post m P → (∀ t a, P t a → Q t a) → post m Q.
Proof. intros Hm HPQ t a Ht. by apply HPQ, Hm. Qed.
Lemma post_act {A} (f : World → A * World) (P : list event → A → Prop) :
  (∀ w, P [(w, (f w).2)] (f w).1) → post (act f) P.
Proof. intros HP t a (w & t' & -> & [-> ->]). apply HP. Qed.

(** Alone, a goroutine performs one of its traces. *)
Lemma exec_traces {A} (m : M A) w : ∃ t, traces m t (m w).1.
Proof.
  revert w. induction m as [a|X f k IH]; intros w; [by exists []|]. cbn. specialize (IH (f w).1 (f w).2).
  destruct IH as [t Ht]. destruct (f w) as [x w'] eqn:Ef. exists ((w, w') :: t), w, t. by rewrite Ef.
Qed.

(** ** Interleavings *)

(** The goroutines still running; a finished one stays as [Ret tt]. *)
Abbreviation pool := (list (M unit)).
(** The events of a run, each with the goroutine that acted. *)
Abbreviation log := (list (nat * event)).

(** [new] says which goroutines may be started. *)
Inductive pool_run (new : M unit → Prop) : World → pool → log → Prop :=
  | run_end w ts : pool_run new w ts []
  | run_act w ts i X (f : World → X * World) k g :
      ts !! i = Some (Act f k) → pool_run new (f w).2 (<[i := k (f w).1]> ts) g →
      pool_run new w ts ((i, (w, (f w).2)) :: g)
  | run_start w ts m g : new m → pool_run new w (ts ++ [m]) g → pool_run new w ts g.

(** The world after a run; what one goroutine did. *)
Definition world_after (w : World) (g : log) : World := default w ((λ ie, ie.2.2) <$> last g).
Definition events_of (i : nat) (g : log) : list event := (filter (λ ie, ie.1 = i) g).*2.

(** Every event starts in the world the one before ended in. *)
Fixpoint chained (w : World) (g : log) : Prop :=
  match g with [] => True | (_, (w1, w2)) :: g => w1 = w ∧ chained w2 g end.

Lemma world_after_cons w ie g : world_after w (ie :: g) = world_after ie.2.2 g.
Proof. unfold world_after. destruct g as [|ie' g]; [done|]. rewrite last_cons_cons. by destruct (last_is_Some (ie' :: g)) as [_ [x ->]]. Qed.
Lemma world_after_app w g1 g2 : world_after w (g1 ++ g2) = world_after (world_after w g1) g2.
Proof. revert w. induction g1 as [|ie g1 IH]; intros w; [done|]. cbn [app]. by rewrite !world_after_cons. Qed.
Lemma chained_app w g1 g2 : chained w (g1 ++ g2) ↔ chained w g1 ∧ chained (world_after w g1) g2.
Proof.
  revert w. induction g1 as [|[i [w1 w2]] g1 IH]; intros w; cbn; [tauto|].
  rewrite world_after_cons, IH. cbn. tauto.
Qed.
Lemma events_of_app i g1 g2 : events_of i (g1 ++ g2) = events_of i g1 ++ events_of i g2.
Proof. unfold events_of. by rewrite filter_app, fmap_app. Qed.
Lemma elem_of_events_of i e g : e ∈ events_of i g ↔ (i, e) ∈ g.
Proof.
  unfold events_of. rewrite list_elem_of_fmap. split.
  - intros ([j e'] & -> & [Hj Hin]%list_elem_of_filter). cbn in *. by subst.
  - intros Hin. exists (i, e). split; [done|]. by apply list_elem_of_filter.
Qed.

(** A split of what one goroutine did is a split of the run. *)
Lemma events_of_split i g t1 t2 :
  events_of i g = t1 ++ t2 → ∃ g1 g2, g = g1 ++ g2 ∧ events_of i g1 = t1 ∧ events_of i g2 = t2.
Proof.
  revert t1. induction g as [|[j e] g IH]; intros t1 Ht.
  - symmetry in Ht. apply app_eq_nil in Ht as [-> ->]. by exists [], [].
  - destruct t1 as [|e1 t1]; [by exists [], ((j, e) :: g)|].
    unfold events_of in Ht. rewrite filter_cons in Ht. case_decide as Hj; cbn in Ht, Hj.
    + injection Ht as -> Ht. destruct (IH t1 Ht) as (g1 & g2 & -> & <- & <-).
      exists ((j, e1) :: g1), g2. split_and!; [done| |done]. unfold events_of. by rewrite filter_cons_True.
    + destruct (IH (e1 :: t1) Ht) as (g1 & g2 & -> & H1 & <-).
      exists ((j, e) :: g1), g2. split_and!; [done| |done]. rewrite <- H1. unfold events_of. by rewrite filter_cons_False.
Qed.

Lemma pool_chained new w ts g : pool_run new w ts g → chained w g.
Proof. induction 1; [done| |done]. by split. Qed.

(** Every action of a run is in [P] if those of its goroutines are. *)
Fixpoint always {A} (P : World → World → Prop) (m : M A) : Prop :=
  match m with
  | Ret _ => True
  | Act f k => (∀ w, P w (f w).2) ∧ ∀ x, always P (k x)
  end.

Lemma always_bind {A B} P (m : M A) (k : A → M B) :
  always P m → (∀ a, always P (k a)) → always P (m ≫= k).
Proof. intros Hm Hk. induction m as [a|X f g IH]; cbn; [apply Hk|]. destruct Hm as [Hf Hg]. split; auto. Qed.
Lemma always_mono {A} (P Q : World → World → Prop) (m : M A) :
  (∀ w w', P w w' → Q w w') → always P m → always Q m.
Proof. intros HPQ. induction m as [a|X f g IH]; cbn; [done|]. intros [Hf Hg]. split; auto. Qed.

Lemma pool_always (P : World → World → Prop) new w ts g :
  pool_run new w ts g → (∀ m, new m → always P m) → Forall (always P) ts →
  Forall (λ ie, P ie.2.1 ie.2.2) g.
Proof.
  intros Hrun Hnew. induction Hrun as [w ts|w ts i X f k g Hi _ IH|w ts m g Hm _ IH]; intros Hts; [done| |].
  - destruct (proj1 (Forall_lookup _ _) Hts _ _ Hi) as [Hf Hk]. constructor; [apply Hf|]. apply IH.
    apply Forall_insert; [done|apply Hk].
  - apply IH, Forall_app. auto.
Qed.

(** Each goroutine may have a role [r], its actions being in [P r]. *)
Lemma pool_roles {R} (P : R → World → World → Prop) new w ts g rs :
  pool_run new w ts g → (∀ m, new m → ∃ r, always (P r) m) → Forall2 (λ r, always (P r)) rs ts →
  ∃ roles, rs `prefix_of` roles ∧ ∀ i e, (i, e) ∈ g → ∃ r, roles !! i = Some r ∧ P r e.1 e.2.
Proof.
  intros Hrun Hnew. revert rs. induction Hrun as [w ts|w ts i X f k g Hi _ IH|w ts m g Hm _ IH]; intros rs Hts.
  - exists rs. split; [done|]. intros i e He. by apply elem_of_nil in He.
  - destruct (Forall2_lookup_r _ _ _ _ _ Hts Hi) as (r & Hr & Hf & Hk).
    destruct (IH rs) as (roles & Hp & Hg).
    { rewrite <- (list_insert_id rs i r) by done. apply Forall2_insert; [done|apply Hk]. }
    exists roles. split; [done|]. intros j e [[= -> ->]|He]%elem_of_cons; [|by apply Hg].
    exists r. split; [by eapply prefix_lookup_Some|apply Hf].
  - destruct (Hnew m Hm) as [r Hr]. destruct (IH (rs ++ [r])) as (roles & Hp & Hg).
    { apply Forall2_app; [done|by constructor]. }
    exists roles. split; [|done]. etrans; [by eexists|exact Hp].
Qed.

(** Alone, a goroutine stays in any relation its actions are in. *)
Lemma exec_always {A} (P R : World → World → Prop) (m : M A) w :
  (∀ x, R x x) → (∀ x y z, R x y → R y z → R x z) → (∀ x y, P x y → R x y) → always P m → R w (m w).2.
Proof.
  intros Hrefl Htrans HPR. revert w. induction m as [a|X f k IH]; intros w; cbn; [done|]. intros [Hf Hk].
  specialize (Hf w). destruct (f w) as [x w1]. eapply Htrans; [by apply HPR|]. by apply IH.
Qed.

(** A scheduler: [sched] says who acts. *)
Fixpoint pool_exec (sched : list nat) (w : World) (ts : pool) : log :=
  match sched with
  | [] => []
  | i :: sched =>
    match ts !! i with
    | Some (Act f k) => let '(x, w') := f w in (i, (w, w')) :: pool_exec sched w' (<[i := k x]> ts)
    | _ => pool_exec sched w ts
    end
  end.

Lemma pool_exec_run new sched w ts : pool_run new w ts (pool_exec sched w ts).
Proof.
  revert w ts. induction sched as [|i sched IH]; intros w ts; cbn [pool_exec]; [apply run_end|].
  destruct (ts !! i) as [[a|X f k]|] eqn:Ei; [apply IH| |apply IH].
  rewrite (surjective_pairing (f w)). by apply (run_act _ _ _ _ _ f k).
Qed.
Lemma pool_run_starts new w ts ms g : Forall new ms → pool_run new w (ts ++ ms) g → pool_run new w ts g.
Proof.
  intros Hms. revert ts. induction Hms as [|m ms Hm _ IH]; intros ts; [by rewrite app_nil_r|].
  intros Hrun. apply (run_start _ _ _ m); [done|]. apply IH. by rewrite <- app_assoc.
Qed.

(** ** Verifying goroutines

    [G t w w'] must hold of every action, [t] being what the goroutine did before;
    [I] holds of the world whenever it acts. *)
Section wp.
Context (I : World → Prop) (G : list event → World → World → Prop).

Fixpoint wp {A} (m : M A) (t : list event) (Q : list event → A → Prop) : Prop :=
  match m with
  | Ret a => Q t a
  | Act f k => ∀ w, I w → G t w (f w).2 ∧ wp (k (f w).1) (t ++ [(w, (f w).2)]) Q
  end.

Lemma wp_mono {A} (m : M A) t (P Q : list event → A → Prop) :
  wp m t P → (∀ t' a, P t' a → Q t' a) → wp m t Q.
Proof.
  intros Hm HPQ. revert t Hm. induction m as [a|X f k IH]; intros t; cbn; [apply HPQ|].
  intros Hw w Hi. destruct (Hw w Hi) as [HG Hk]. split; [done|]. by apply IH.
Qed.

Lemma wp_bind {A B} (m : M A) (k : A → M B) t Q :
  wp m t (λ t' a, wp (k a) t' Q) → wp (m ≫= k) t Q.
Proof.
  revert t. induction m as [a|X f g IH]; intros t; cbn; [done|].
  intros Hw w Hi. destruct (Hw w Hi) as [HG Hk]. split; [done|]. by apply IH.
Qed.

(** What was done stays done. *)
Lemma wp_extends {A} (m : M A) t Q : wp m t Q → wp m t (λ t' a, Q t' a ∧ t `prefix_of` t').
Proof.
  revert t. induction m as [a|X f k IH]; intros t; cbn; [done|]. intros Hw w Hi. destruct (Hw w Hi) as [HG Hk].
  split; [done|]. eapply wp_mono; [apply IH, Hk|]. intros t' a [HQ Hp]. split; [done|].
  etrans; [|exact Hp]. by eexists.
Qed.

(** A goroutine whose actions are all in [G] whatever it did. *)
Lemma wp_always {A} (m : M A) P t Q :
  always P m → (∀ t' w w', I w → P w w' → G t' w w') →
  (∀ t' a, traces m t' a → Q (t ++ t') a) → wp m t Q.
Proof.
  intros Hm HP. revert t. induction m as [a|X f k IH]; intros t HQ; cbn.
  - rewrite <- (app_nil_r t). by apply HQ.
  - intros w Hi. destruct Hm as [Hf Hk]. split; [by apply HP|]. apply IH; [by apply Hk|].
    intros t' a Ht. rewrite <- app_assoc. apply HQ. by exists w, t'.
Qed.

(** [wp] is sound for interleavings: every action of a run gives the guarantee, with
    respect to what its own goroutine did before. *)
Context (HI : ∀ t w w', I w → G t w w' → I w').

Lemma pool_guarantee_from new w ts g (h : nat → list event) :
  pool_run new w ts g → I w →
  (∀ m, new m → wp m [] (λ _ _, True)) →
  (∀ i m, ts !! i = Some m → wp m (h i) (λ _ _, True)) →
  (∀ i, ts !! i = None → h i = []) →
  ∀ g1 i e g2, g = g1 ++ (i, e) :: g2 → I e.1 ∧ G (h i ++ events_of i g1) e.1 e.2.
Proof using HI.
  intros Hrun Hi Hnew. revert h Hi. induction Hrun as [w ts|w ts j X f k g Hj _ IH|w ts m g Hm _ IH];
    intros h Hi Hts Hout g1 i e g2 Hg; [by destruct g1| |].
  - destruct (Hts _ _ Hj w Hi) as [HG Hk].
    destruct g1 as [|ie g1]; [injection Hg as <- <- _; by rewrite app_nil_r|].
    injection Hg as <- ->.
    pose (h' := λ i', if decide (i' = j) then h j ++ [(w, (f w).2)] else h i').
    destruct (IH h') with g1 i e g2 as [H1 H2]; [by eapply HI| | |done|].
    + intros i' m. unfold h'. case_decide as Hi'; [subst|].
      * rewrite list_lookup_insert_eq by by eapply lookup_lt_Some. by intros [= <-].
      * rewrite list_lookup_insert_ne by done. apply Hts.
    + intros i' Hn. rewrite lookup_ge_None, length_insert, <- lookup_ge_None in Hn. unfold h'.
      case_decide as Hi'; [subst; congruence|]. by apply Hout.
    + split; [done|]. unfold h', events_of in *. rewrite filter_cons. cbn. revert H2.
      repeat case_decide; subst; try congruence. cbn. by rewrite <- app_assoc.
  - apply (IH h) with (g2 := g2); [done| | |done].
    + intros i' m'. rewrite lookup_app. destruct (ts !! i') as [x|] eqn:Ex; [intros [= <-]; by apply Hts|].
      intros Hs. rewrite (Hout i' Ex). destruct (i' - length ts)%nat as [|n']; [injection Hs as <-; by apply Hnew|by destruct n'].
    + intros i' Hn. apply Hout. rewrite lookup_app in Hn. by destruct (ts !! i').
Qed.

Lemma pool_guarantee new w g :
  pool_run new w [] g → I w → (∀ m, new m → wp m [] (λ _ _, True)) →
  ∀ g1 i e g2, g = g1 ++ (i, e) :: g2 → I e.1 ∧ G (events_of i g1) e.1 e.2.
Proof using HI. intros Hrun Hi Hnew. by apply (pool_guarantee_from new w [] g (λ _, [])). Qed.
End wp.
