(* ===== verification/Relay.v ===== *)
(** * The relay service: [internal/relay/service.go]

    One e-mail for one SMTP recipient: resolve the recipient to chats, parse the
    message, send the text in chunks and each attachment to each chat with
    retries, and put the message in the dead-letter queue when a send fails. *)
From S2P Require Import Prelude GoStrings GoRuntime GoJson Recipient DlqStore Metrics Email Trace World.

Open Scope Z_scope.
Open Scope go_scope.

Definition maxTextMessageBytes : Z := 4000.

(** [Recipients] is the world's alias table, [Sender] and [DLQ] its sender and
    store. *)
Record Service := mkService {
  EmailParse : bytes → res ParsedEmail;
  MaxSendRetries : Z;
  RetryBaseDelay : duration;
  has_metrics : bool;
  has_dlq : bool;
}.

(** ** Text *)
Definition fallback (v def : bytes) : bytes := if decide (trim_space v = []) then def else v.

(** The replacer of [stripHTMLBasic], its argument pairs in order; [skip] bytes
    of a tag already replaced remain to be dropped. *)
Fixpoint replace_tags (skip : nat) (s : bytes) : bytes :=
  match s with
  | [] => []
  | a :: s' =>
    match skip with
    | S k => replace_tags k s'
    | O =>
      if has_prefix s "<br>" then byte_of 10 :: replace_tags 3 s'
      else if has_prefix s "<br/>" then byte_of 10 :: replace_tags 4 s'
      else if has_prefix s "<p>" then byte_of 10 :: replace_tags 2 s'
      else if has_prefix s "</p>" then byte_of 10 :: replace_tags 3 s'
      else a :: replace_tags 0 s'
    end
  end.

(** [strings.ReplaceAll(s, string(c), "")] *)
Definition remove_byte (c : ascii) (s : bytes) : bytes := filter (λ a, a ≠ c) s.

Definition stripHTMLBasic (s : bytes) : bytes :=
  trim_space (remove_byte ">"%char (remove_byte "<"%char (replace_tags 0 s))).

(** The last index of a byte of ["\n\r\t "]. *)
Definition blank (a : ascii) : bool :=
  (code a =? 10) || (code a =? 13) || (code a =? 9) || (code a =? 32).
Fixpoint last_index_blank (s : bytes) : option nat :=
  match s with
  | [] => None
  | a :: s =>
    match last_index_blank s with
    | Some i => Some (S i)
    | None => if blank a then Some 0%nat else None
    end
  end.

(** [for cut > 0 && cut < len(text) && !utf8.RuneStart(text[cut]) { cut-- }] *)
Fixpoint back_to_rune_start (text : bytes) (cut : nat) : nat :=
  match cut with
  | O => O
  | S c =>
    match text !! cut with
    | Some a => if rune_start a then cut else back_to_rune_start text c
    | None => cut
    end
  end.

Definition bestTextSplit (text : bytes) (maxBytes : nat) : nat :=
  if (length text <=? maxBytes)%nat then length text else
  let cut := back_to_rune_start text maxBytes in
  let cut := if (cut =? 0)%nat then maxBytes else cut in
  match last_index_blank (take cut text) with
  | Some idx => if (maxBytes / 2 <=? idx)%nat then S idx else cut
  | None => cut
  end.

(** The loop of [splitTextMessage]; each round removes at least one byte, so
    [length text] rounds are enough. *)
Fixpoint split_text_loop (fuel : nat) (text : bytes) (maxBytes : nat) : list bytes :=
  if (maxBytes <? length text)%nat then
    match fuel with
    | O => []
    | S fuel =>
      let cut := bestTextSplit text maxBytes in
      take cut text :: split_text_loop fuel (drop cut text) maxBytes
    end
  else if decide (text ≠ []) then [text] else [].

Definition splitTextMessage (text : bytes) (maxBytes : Z) : list bytes :=
  if (maxBytes <=? 0) || (Z.of_nat (length text) <=? maxBytes) then [text]
  else split_text_loop (length text) text (Z.to_nat maxBytes).

(** ** Sending *)
Section relay.
Context (E : Env) (svc : Service).

Definition metric (f : Collector → Collector) : M unit :=
  if has_metrics svc then observe f else mret tt.

Definition observe_latency (stage : bytes) (startedAt : time) : M unit :=
  if has_metrics svc then
    t ← now E; observe (ObserveLatency (H:=tables E) stage (time_sub t startedAt))
  else mret tt.

Definition observe_delivery (rcpt : bytes) (delivered : bool) (chat name : bytes) : M unit :=
  if has_metrics svc then
    t ← now E; observe (ObserveDelivery (H:=tables E) t rcpt delivered chat name)
  else mret tt.

(** The loop of [sendWithRetry]; [retries] is [maxRetries - attempt]. *)
Fixpoint send_attempts (retries : nat) (delay : duration) (fn : M (option bytes)) : M (option bytes) :=
  err ← fn;
  match err with
  | None => mret None
  | Some e =>
    match retries with
    | O => mret (Some e)
    | S retries =>
      c ← wait E delay;
      match c with
      | Some ce => mret (Some ce)
      | None => send_attempts retries delay fn
      end
    end
  end.

Definition sendWithRetry (fn : M (option bytes)) : M (option bytes) :=
  let maxRetries := if MaxSendRetries svc <? 0 then 0 else MaxSendRetries svc in
  let delay := if RetryBaseDelay svc <=? 0 then 300 * Millisecond else RetryBaseDelay svc in
  send_attempts (Z.to_nat maxRetries) delay fn.

(** What [Relay] does with a failed send: count it, queue the message unless the
    context says not to, and return the error. [what] is ["text"] or the file. *)
Definition send_failed (ctx : Ctx) (rcpt raw : bytes) (chat label what err : bytes) : M bytes :=
  _ ← metric IncFailed;
  _ ← observe_delivery rcpt false chat label;
  if has_dlq svc && negb (shouldBypassDLQ ctx) then
    q ← store_Enqueue E rcpt raw (Some err);
    match q with
    | Err qerr => mret ("send " ++ what ++ ": " ++ err ++ " (dlq enqueue: " ++ qerr ++ ")")
    | Ok _ => _ ← metric IncDLQEnqueued; mret ("send " ++ what ++ ": " ++ err)
    end
  else mret ("send " ++ what ++ ": " ++ err).

(** Send one piece, with its latency; on failure the error [Relay] returns. *)
Definition send_piece (ctx : Ctx) (rcpt raw label what : bytes) (target : RecipientTarget)
    (p : payload) : M (option bytes) :=
  sendStartedAt ← now E;
  err ← sendWithRetry (call_sender E (mkSend (ChatID target) p (Silent target)));
  _ ← observe_latency "max_send" sendStartedAt;
  match err with
  | None => mret None
  | Some e => r ← send_failed ctx rcpt raw (ChatID target) label what e; mret (Some r)
  end.

Fixpoint send_chunks (ctx : Ctx) (rcpt raw label : bytes) (target : RecipientTarget)
    (chunks : list bytes) : M (option bytes) :=
  match chunks with
  | [] => mret None
  | chunk :: chunks =>
    r ← send_piece ctx rcpt raw label "text" target (PText chunk);
    match r with
    | Some e => mret (Some e)
    | None => send_chunks ctx rcpt raw label target chunks
    end
  end.

Fixpoint send_files (ctx : Ctx) (rcpt raw label : bytes) (target : RecipientTarget)
    (atts : list Attachment) : M (option bytes) :=
  match atts with
  | [] => mret None
  | a :: atts =>
    r ← send_piece ctx rcpt raw label ("file " ++ Filename a) target (PFile a);
    match r with
    | Some e => mret (Some e)
    | None => _ ← metric IncFilesSent; send_files ctx rcpt raw label target atts
    end
  end.

(** The loop over the targets. *)
Fixpoint deliver (ctx : Ctx) (rcpt raw label text : bytes) (atts : list Attachment)
    (targets : list RecipientTarget) : M (option bytes) :=
  match targets with
  | [] => mret None
  | target :: targets =>
    r ← send_chunks ctx rcpt raw label target (splitTextMessage text maxTextMessageBytes);
    match r with
    | Some e => mret (Some e)
    | None =>
      _ ← metric IncTextSent;
      r ← send_files ctx rcpt raw label target atts;
      match r with
      | Some e => mret (Some e)
      | None =>
        _ ← metric IncRelayed;
        _ ← observe_delivery rcpt true (ChatID target) label;
        deliver ctx rcpt raw label text atts targets
      end
    end
  end.

Definition message_text (em : ParsedEmail) : bytes :=
  let body := if decide (trim_space (TextBody em) = []) then stripHTMLBasic (HTMLBody em)
              else TextBody em in
  "📧 " ++ fallback (Subject em) "(без темы)" ++ [byte_of 10] ++ "От: " ++ From em ++
  [byte_of 10; byte_of 10] ++ body.

(** [Relay] without the deferred latency observation. *)
Definition relay_body (ctx : Ctx) (rcpt raw : bytes) : M (option bytes) :=
  _ ← metric IncReceived;
  p ← gets recipients;
  match Recipient.Parse (H:=tables E) p rcpt with
  | Err e =>
    _ ← metric IncFailed;
    _ ← observe_delivery rcpt false [] [];
    mret (Some ("parse recipient: " ++ e))
  | Ok pr =>
    parseStartedAt ← now E;
    let em := EmailParse svc raw in
    _ ← observe_latency "email_parse" parseStartedAt;
    match em with
    | Err e =>
      _ ← metric IncFailed;
      _ ← observe_delivery rcpt false (from_option ChatID [] (head (Targets pr))) (SourceLocal pr);
      mret (Some ("parse email: " ++ e))
    | Ok em =>
      deliver ctx rcpt raw (SourceLocal pr) (message_text em) (Attachments em) (Targets pr)
    end
  end.

Definition Relay (ctx : Ctx) (rcpt raw : bytes) : M (option bytes) :=
  startedAt ← now E;
  r ← relay_body ctx rcpt raw;
  _ ← observe_latency "relay_total" startedAt;
  mret r.
End relay.

(** * Text: lemmas *)

Lemma code_space_ascii a : blank a = true → (code a <? 128) = true.
Proof. unfold blank. rewrite !orb_true_iff, !Z.eqb_eq. lia. Qed.

Lemma ascii_rune_start a : (code a <? 128) = true → rune_start a = true.
Proof. unfold rune_start, cont_byte. intros H%Z.ltb_lt. rewrite negb_true_iff, andb_false_iff. lia. Qed.

(** The bytes of an encoded rune after the first are continuation bytes. *)
Lemma encode_rune_cont r i a :
  encode_rune r !! S i = Some a → rune_start a = false.
Proof.
  unfold encode_rune. set (q := if valid_rune r then r else RuneError).
  assert (valid_rune q = true) as Hq by (unfold q; by destruct (valid_rune r) eqn:?).
  clearbody q. clear r. unfold valid_rune in Hq. bprop. unfold encode_valid.
  assert (∀ z, 0 ≤ z < 64 → rune_start (byte_of (0x80 + z)) = false) as Hc.
  { intros z Hz. unfold rune_start, cont_byte. rewrite code_byte_of by lia.
    rewrite negb_false_iff, andb_true_iff. lia. }
  intros Hi. repeat split_if_in Hi; bprop; destruct i as [|[|[|i]]]; simplify_eq/=;
    try done; apply Hc; match goal with |- 0 ≤ ?x mod 64 < 64 => apply Z.mod_pos_bound; lia end.
Qed.

Lemma encode_rune_start r : ∃ a s, encode_rune r = a :: s ∧ rune_start a = true ∧ (length s ≤ 3)%nat.
Proof.
  unfold encode_rune. set (q := if valid_rune r then r else RuneError).
  assert (valid_rune q = true) as Hq by (unfold q; by destruct (valid_rune r) eqn:?).
  clearbody q. clear r. unfold valid_rune in Hq. bprop. unfold encode_valid.
  repeat split_if; bprop; eexists _, _; (split_and!; [done| |simpl; lia]);
    unfold rune_start, cont_byte; (rewrite code_byte_of; [|Z.to_euclidean_division_equations; lia]);
    rewrite negb_true_iff, andb_false_iff, !Z.leb_gt; Z.to_euclidean_division_equations; lia.
Qed.

(** Cutting an encoding where no rune continues cuts between runes. *)
Lemma encode_cut rs i :
  (∀ a, encode rs !! i = Some a → rune_start a = true) →
  ∃ k, take i (encode rs) = encode (take k rs) ∧ drop i (encode rs) = encode (drop k rs).
Proof.
  revert i. induction rs as [|r rs IH]; intros i Hi; [exists 0%nat; by destruct i|].
  rewrite encode_cons in *. destruct i as [|i]; [by exists 0%nat|].
  destruct (decide (S i < length (encode_rune r))%nat) as [Hlt|Hge].
  - exfalso. destruct (lookup_lt_is_Some_2 _ _ Hlt) as [a Ha].
    pose proof (encode_rune_cont _ _ _ Ha) as Hc. rewrite (Hi a) in Hc; [done|].
    by rewrite lookup_app_l.
  - destruct (IH (S i - length (encode_rune r))%nat) as (k & Ht & Hd).
    { intros a Ha. apply Hi. rewrite lookup_app_r by lia. done. }
    exists (S k). rewrite take_app_ge, drop_app_ge, Ht, Hd by lia. done.
Qed.

Lemma valid_utf8_runes s : valid_utf8 s → ∃ rs, s = encode rs ∧ Forall (λ r, valid_rune r = true) rs.
Proof. intros H. exists (runes s). split; [by symmetry|apply runes_valid]. Qed.

Lemma valid_cut s i :
  valid_utf8 s → (∀ a, s !! i = Some a → rune_start a = true) →
  valid_utf8 (take i s) ∧ valid_utf8 (drop i s).
Proof.
  intros (rs & -> & Hrs)%valid_utf8_runes Hi. destruct (encode_cut rs i Hi) as (k & -> & ->).
  split; apply valid_utf8_encode; [by apply Forall_take | by apply Forall_drop].
Qed.

Lemma valid_utf8_app s t : valid_utf8 s → valid_utf8 t → valid_utf8 (s ++ t).
Proof.
  intros (rs & -> & Hrs)%valid_utf8_runes (rs' & -> & Hrs')%valid_utf8_runes.
  unfold encode. rewrite <- concat_app, <- fmap_app. apply valid_utf8_encode. by apply Forall_app.
Qed.

(** A rune starts at most three bytes before any byte. *)
Lemma encode_start_near rs i :
  (i < length (encode rs))%nat →
  ∃ j a, (j ≤ i ≤ j + 3)%nat ∧ encode rs !! j = Some a ∧ rune_start a = true.
Proof.
  revert i. induction rs as [|r rs IH]; intros i; [simpl; lia|]. rewrite encode_cons, length_app. intros Hi.
  destruct (encode_rune_start r) as (a & s & Hr & Ha & Hs).
  assert (length (encode_rune r) ≤ 4)%nat as Hlen by (rewrite Hr; simpl; lia).
  destruct (decide (i < length (encode_rune r))%nat) as [Hlt|Hge].
  - exists 0%nat, a. rewrite Hr. split_and!; [lia|lia|done|done].
  - destruct (IH (i - length (encode_rune r))%nat) as (j & b & Hj & Hb & Hbs); [lia|].
    exists (length (encode_rune r) + j)%nat, b. rewrite lookup_app_r by lia.
    replace (length (encode_rune r) + j - length (encode_rune r))%nat with j by lia.
    split_and!; [lia|lia|done|done].
Qed.

Lemma last_index_blank_Some s i :
  last_index_blank s = Some i → ∃ a, s !! i = Some a ∧ blank a = true.
Proof.
  revert i. induction s as [|a s IH]; intros i; [done|]. cbn.
  destruct (last_index_blank s) as [j|]; [intros [= <-]; by apply IH|].
  destruct (blank a) eqn:Hb; [|done]. intros [= <-]. by exists a.
Qed.

Lemma back_to_rune_start_spec text cut :
  (back_to_rune_start text cut ≤ cut)%nat ∧
  (∀ a, text !! back_to_rune_start text cut = Some a → back_to_rune_start text cut ≠ 0%nat → rune_start a = true) ∧
  (∀ j a, (j ≤ cut)%nat → text !! j = Some a → rune_start a = true → (j ≤ back_to_rune_start text cut)%nat).
Proof.
  induction cut as [|c (IH1 & IH2 & IH3)]; cbn; [split_and!; [lia|done|intros; lia]|].
  destruct (text !! S c) as [b|] eqn:Hc; [destruct (rune_start b) eqn:Hb|].
  - split_and!; [lia|congruence|intros; lia].
  - split_and!; [lia|done|]. intros j a Hj Ha Hs. destruct (decide (j = S c)) as [->|]; [congruence|].
    apply (IH3 j a); [lia|done|done].
  - split_and!; [lia|congruence|intros; lia].
Qed.

Lemma bestTextSplit_bounds text m :
  (m < length text)%nat → (0 < m)%nat → (0 < bestTextSplit text m ≤ m)%nat.
Proof.
  intros Hl Hm. unfold bestTextSplit. rewrite (proj2 (Nat.leb_gt _ _)) by lia.
  pose proof (back_to_rune_start_spec text m) as (Hb & _).
  set (cut := if (back_to_rune_start text m =? 0)%nat then m else back_to_rune_start text m).
  assert (0 < cut ≤ m)%nat as Hcut.
  { unfold cut. destruct (Nat.eqb_spec (back_to_rune_start text m) 0); lia. }
  destruct (last_index_blank (take cut text)) as [i|] eqn:Hi; [|lia].
  destruct (m / 2 <=? i)%nat; [|lia]. apply last_index_blank_Some in Hi as (a & Ha & _).
  apply lookup_take_Some in Ha as [_ ?]. lia.
Qed.

Lemma bestTextSplit_boundary text m :
  valid_utf8 text → (m < length text)%nat → (4 ≤ m)%nat →
  valid_utf8 (take (bestTextSplit text m) text) ∧ valid_utf8 (drop (bestTextSplit text m) text).
Proof.
  intros Hv Hl Hm. unfold bestTextSplit. rewrite (proj2 (Nat.leb_gt _ _)) by lia.
  pose proof (back_to_rune_start_spec text m) as (Hb & Hs & Hmax).
  set (b := back_to_rune_start text m) in *.
  assert (b ≠ 0)%nat as Hne.
  { destruct (valid_utf8_runes text Hv) as (rs & Hrs & _). rewrite Hrs in Hl.
    destruct (encode_start_near rs m Hl) as (j & a & Hj & Ha & Has). rewrite <- Hrs in Ha.
    specialize (Hmax j a ltac:(lia) Ha Has). lia. }
  rewrite (proj2 (Nat.eqb_neq _ _)) by done.
  assert (∀ a, text !! b = Some a → rune_start a = true) as Hst by eauto.
  destruct (last_index_blank (take b text)) as [i|] eqn:Hi; [|by apply valid_cut].
  destruct (m / 2 <=? i)%nat; [|by apply valid_cut].
  apply last_index_blank_Some in Hi as (a & Ha & Hbl). apply lookup_take_Some in Ha as [Ha _].
  pose proof (code_space_ascii a Hbl) as Hasc.
  assert (∀ c, text !! i = Some c → rune_start c = true) as Hci.
  { intros c Hc. simplify_eq. by apply ascii_rune_start. }
  destruct (valid_cut text i Hv Hci) as [Hv1 Hv2].
  rewrite (drop_S text a i Ha) in Hv2. rewrite (take_S_r text i a Ha).
  pose proof Hv2 as Hv3. unfold valid_utf8, to_valid_utf8, runes in Hv3.
  rewrite segs_ascii_cons in Hv3 by done. cbn [fmap list_fmap fst] in Hv3. rewrite encode_cons in Hv3.
  assert (encode_rune (code a) = [a]) as Hea.
  { pose proof (encode_ascii [a]) as He. cbn in He. rewrite app_nil_r in He. apply He. by rewrite Hasc. }
  rewrite Hea in Hv3. injection Hv3 as Hv3. split; [|exact Hv3].
  apply valid_utf8_app; [done|]. apply valid_utf8_ascii. simpl. by rewrite Hasc.
Qed.

Lemma split_text_loop_spec fuel text m :
  (0 < m)%nat → (length text ≤ fuel)%nat →
  concat (split_text_loop fuel text m) = text ∧
  Forall (λ c, c ≠ [] ∧ (length c ≤ m)%nat) (split_text_loop fuel text m) ∧
  ((4 ≤ m)%nat → valid_utf8 text → Forall valid_utf8 (split_text_loop fuel text m)).
Proof.
  intros Hm. revert text. induction fuel as [|fuel IH]; intros text Hf; cbn [split_text_loop];
    destruct (Nat.ltb_spec m (length text)) as [Hl|Hl].
  - lia.
  - destruct text; [|simpl in Hf; lia]. rewrite decide_False by (intros H; by destruct H). by repeat constructor.
  - pose proof (bestTextSplit_bounds text m Hl Hm) as Hb. set (cut := bestTextSplit text m) in *.
    destruct (IH (drop cut text)) as (H1 & H2 & H3); [rewrite length_drop; lia|].
    cbn [concat]. rewrite H1, take_drop. split_and!; [done| |].
    + constructor; [|done]. split; [|rewrite length_take; lia].
      intros E%(f_equal length). rewrite length_take in E. simpl in E. lia.
    + intros H4 Hv. destruct (bestTextSplit_boundary text m Hv Hl H4). constructor; [done|]. by apply H3.
  - case_decide as Hne; [|subst; by repeat constructor].
    cbn. rewrite app_nil_r. split_and!; [done| |]; repeat constructor; done || lia.
Qed.

(** C24. Splitting a text for MAX loses and invents nothing: the chunks joined are
    the text, no chunk of a split text is empty or longer than the limit, and
    (for a limit of at least four bytes, as the 4000 in use) the chunks of a
    valid UTF-8 text are valid UTF-8: no character is cut in two. *)
Theorem splitTextMessage_spec text maxBytes :
  0 < maxBytes →
  let chunks := splitTextMessage text maxBytes in
  concat chunks = text ∧ chunks ≠ [] ∧
  Forall (λ c, Z.of_nat (length c) ≤ maxBytes) chunks ∧
  (text ≠ [] → Forall (λ c, c ≠ []) chunks) ∧
  (4 ≤ maxBytes → valid_utf8 text → Forall valid_utf8 chunks).
Proof.
  intros Hm chunks. unfold chunks, splitTextMessage.
  destruct (Z.leb_spec maxBytes 0); [lia|]. cbn [orb].
  destruct (Z.leb_spec (Z.of_nat (length text)) maxBytes) as [Hl|Hl].
  { cbn [concat]. rewrite app_nil_r. split_and!; try done; intros; repeat constructor; done. }
  destruct (split_text_loop_spec (length text) text (Z.to_nat maxBytes)) as (H1 & H2 & H3); [lia|lia|].
  split_and!; [done| | | |].
  - intros E. rewrite E in H1. rewrite <- H1 in Hl. simpl in Hl. lia.
  - eapply Forall_impl; [exact H2|]. simpl. intros c [_ ?]. lia.
  - intros _. eapply Forall_impl; [exact H2|]. by intros c [? _].
  - intros H4. apply H3. lia.
Qed.

Lemma splitTextMessage_spec_witness :
  0 < 4 ∧ splitTextMessage "почта" 4 = ["по"; "чт"; "а"] ∧
  concat (splitTextMessage "почта" 4) = "почта" ∧ Forall valid_utf8 (splitTextMessage "почта" 4).
Proof.
  destruct (splitTextMessage_spec "почта" 4) as (H1 & _ & _ & _ & H5); [done|].
  split_and!; [done|vm_compute; reflexivity|exact H1|].
  apply H5; [done|]. vm_compute. reflexivity.
Defined.

(** ** HTML *)
Lemma remove_byte_notin c s : c ∉ remove_byte c s.
Proof. unfold remove_byte. rewrite list_elem_of_filter. tauto. Qed.

Lemma remove_byte_id c s : c ∉ s → remove_byte c s = s.
Proof.
  unfold remove_byte. induction s as [|a s IH]; [done|]. intros Hc.
  rewrite filter_cons, decide_True by set_solver. f_equal. apply IH. set_solver.
Qed.

Lemma trim_space_subset s a : a ∈ trim_space s → a ∈ s.
Proof.
  unfold trim_space. intros Ha.
  destruct (trim_both_infix seg_space (segs s)) as (k1 & k2 & Hs).
  rewrite <- (unsegs_segs s), Hs, !unsegs_app, !elem_of_app. tauto.
Qed.

(** The fallback body made of an HTML part has no angle bracket left, and a
    text without angle brackets is only trimmed. *)
Theorem stripHTMLBasic_spec s :
  "<"%char ∉ stripHTMLBasic s ∧ ">"%char ∉ stripHTMLBasic s ∧
  ("<"%char ∉ s → ">"%char ∉ s → stripHTMLBasic s = trim_space s).
Proof.
  unfold stripHTMLBasic. split_and!.
  - intros Hin%trim_space_subset. unfold remove_byte in Hin. rewrite !list_elem_of_filter in Hin. tauto.
  - intros Hin%trim_space_subset. by apply remove_byte_notin in Hin.
  - intros H1 H2. f_equal.
    assert (replace_tags 0 s = s) as ->.
    { clear H2. induction s as [|a s IH]; [done|].
      assert (a ≠ "<"%char) by set_solver. cbn [replace_tags].
      assert (∀ p, has_prefix (a :: s) ("<"%char :: p) = false) as Hp.
      { intros p. cbn [has_prefix]. by rewrite bool_decide_eq_false_2. }
      rewrite !Hp. f_equal. apply IH. set_solver. }
    by rewrite (remove_byte_id "<"%char s), (remove_byte_id ">"%char s) by done.
Qed.

(** * Delivery: specification *)

(** Calls to the sender with their outcomes. *)
Abbreviation send_log := (list (send * option bytes)).

(** The calls made for one piece [x], at most [n] of them repetitions: failures,
    then a success; or failures only, with the error that is reported. *)
Inductive tries (n : nat) (x : send) : send_log → option bytes → Prop :=
  | tries_done fails :
      (length fails ≤ n)%nat → tries n x (((λ e, (x, Some e)) <$> fails) ++ [(x, None)]) None
  | tries_failed fails e :
      (1 ≤ length fails ≤ S n)%nat → tries n x ((λ e, (x, Some e)) <$> fails) (Some e).

(** The calls that deliver all the pieces, in order. *)
Inductive deliveries (n : nat) : list send → send_log → Prop :=
  | deliveries_nil : deliveries n [] []
  | deliveries_cons x xs l1 l2 :
      tries n x l1 None → deliveries n xs l2 → deliveries n (x :: xs) (l1 ++ l2).

(** The successful calls of a log. *)
Definition successes (l : send_log) : list send := (filter (λ c, c.2 = None) l).*1.

(** The pieces one target gets, and those of a whole message. *)
Definition target_sends (text : bytes) (atts : list Attachment) (t : RecipientTarget) : list send :=
  ((λ c, mkSend (ChatID t) (PText c) (Silent t)) <$> splitTextMessage text maxTextMessageBytes) ++
  ((λ a, mkSend (ChatID t) (PFile a) (Silent t)) <$> atts).

Definition retries (svc : Service) : nat :=
  Z.to_nat (if MaxSendRetries svc <? 0 then 0 else MaxSendRetries svc).

Definition dlq_active (svc : Service) (ctx : Ctx) : bool := has_dlq svc && negb (shouldBypassDLQ ctx).

(** What a failed send with error [e] does to the store. *)
Inductive queued (E : Env) (svc : Service) (ctx : Ctx) (rcpt raw e : bytes) (s : FileStore) :
    FileStore → Prop :=
  | not_queued : dlq_active svc ctx = false → queued E svc ctx rcpt raw e s s
  | queued_once i j k :
      dlq_active svc ctx = true →
      queued E svc ctx rcpt raw e s
        (Enqueue (H:=runtime E) (clock E i) (random E j) (store_io E k) s rcpt raw (Some e)).2.

(** The outcome of delivering [xs]: everything was delivered and the store is
    as before; or the pieces before some [x] were delivered, [x] was not, those
    after it were not tried, and the message was queued (if the queue is
    active). *)
Inductive outcome (E : Env) (svc : Service) (ctx : Ctx) (rcpt raw : bytes) (xs : list send)
    (s : FileStore) : option bytes → send_log → FileStore → Prop :=
  | all_delivered log :
      deliveries (retries svc) xs log → outcome E svc ctx rcpt raw xs s None log s
  | one_failed done x rest l1 l2 e msg s' :
      xs = done ++ x :: rest → deliveries (retries svc) done l1 → tries (retries svc) x l2 (Some e) →
      queued E svc ctx rcpt raw e s s' →
      outcome E svc ctx rcpt raw xs s (Some msg) (l1 ++ l2) s'.

Lemma tries_cons n x e log r : tries n x log r → tries (S n) x ((x, Some e) :: log) r.
Proof.
  intros [fails Hl|fails e' Hl].
  - apply (tries_done (S n) x (e :: fails)). simpl. lia.
  - apply (tries_failed (S n) x (e :: fails)). simpl. lia.
Qed.

Lemma deliveries_app n xs ys l1 l2 :
  deliveries n xs l1 → deliveries n ys l2 → deliveries n (xs ++ ys) (l1 ++ l2).
Proof. induction 1; [done|]. rewrite <- app_assoc. by constructor; auto. Qed.

Lemma successes_app l1 l2 : successes (l1 ++ l2) = successes l1 ++ successes l2.
Proof. unfold successes. by rewrite filter_app, fmap_app. Qed.

Lemma successes_fails x fails : successes ((λ e, (x, Some e)) <$> fails) = [].
Proof.
  unfold successes. induction fails as [|e fails IH]; [done|]. rewrite fmap_cons, filter_cons.
  by rewrite decide_False.
Qed.

Lemma deliveries_successes n xs l : deliveries n xs l → successes l = xs.
Proof.
  induction 1 as [|x xs l1 l2 Ht _ IH]; [done|]. rewrite successes_app, IH.
  inversion Ht; subst. by rewrite successes_app, successes_fails.
Qed.

Section proofs.
Context (E : Env) (svc : Service) (ctx : Ctx) (rcpt raw : bytes).
Abbreviation outcome := (outcome E svc ctx rcpt raw).

(** [m] sends and stores as [P] says, [P] being given the alias table, the store
    before, the result, the calls made and the store after. *)
Definition effect (P : parser → FileStore → option bytes → send_log → FileStore → Prop)
    (m : M (option bytes)) : Prop := ∀ w,
  ∃ log, sent (m w).2 = sent w ++ log ∧ recipients (m w).2 = recipients w ∧
    P (recipients w) (store w) (m w).1 log (store (m w).2).

(** [m] delivers [xs]. *)
Definition delivers (xs : list send) : M (option bytes) → Prop := effect (λ _, outcome xs).

(** [m] touches at most the clock and the metrics. *)
Definition quiet {A} (m : M A) : Prop := frame store m ∧ frame sent m ∧ frame recipients m.

Lemma quiet_ret {A} (a : A) : quiet (mret a : M A).
Proof. done. Qed.
Lemma quiet_ask {A} (f : nat → A) : quiet (ask f).
Proof. done. Qed.
Lemma quiet_observe f : quiet (observe f).
Proof. done. Qed.
Lemma quiet_bind {A B} (m : M A) (k : A → M B) : quiet m → (∀ a, quiet (k a)) → quiet (m ≫= k).
Proof.
  intros (?&?&?) Hk. split_and!; apply frame_bind; try done; intros a; by destruct (Hk a) as (?&?&?).
Qed.
Lemma quiet_metric f : quiet (metric svc f).
Proof. unfold metric. by destruct (has_metrics svc). Qed.
Lemma quiet_latency stage t : quiet (observe_latency E svc stage t).
Proof. unfold observe_latency. destruct (has_metrics svc); [|done]. by apply quiet_bind. Qed.
Lemma quiet_delivery r b c n : quiet (observe_delivery E svc r b c n).
Proof. unfold observe_delivery. destruct (has_metrics svc); [|done]. by apply quiet_bind. Qed.
Lemma quiet_now : quiet (now E).
Proof. apply quiet_ask. Qed.
#[local] Hint Resolve quiet_ret quiet_ask quiet_observe quiet_metric quiet_latency quiet_delivery
  quiet_now : core.

Lemma outcome_cons_fail xs ys s msg log s' :
  outcome xs s (Some msg) log s' → outcome (xs ++ ys) s (Some msg) log s'.
Proof.
  inversion 1 as [|done x rest l1 l2 e]; subst.
  apply (one_failed _ _ _ _ _ _ _ done x (rest ++ ys) l1 l2 e); [|done..]. by rewrite <- app_assoc.
Qed.

Lemma outcome_app xs ys s s1 r l1 l2 s2 :
  outcome xs s None l1 s1 → outcome ys s1 r l2 s2 → outcome (xs ++ ys) s r (l1 ++ l2) s2.
Proof.
  intros H1 H2. inversion H1; subst. inversion H2 as [|done x rest l3 l4 e]; subst.
  - apply all_delivered. by apply deliveries_app.
  - rewrite (app_assoc l1). apply (one_failed _ _ _ _ _ _ _ (xs ++ done) x rest _ l4 e);
      [by rewrite <- app_assoc|by apply deliveries_app|done|done].
Qed.

Lemma delivers_ret : delivers [] (mret None).
Proof.
  intros w. exists []. rewrite app_nil_r. split_and!; [done|done|]. apply all_delivered. constructor.
Qed.

Lemma delivers_bind xs ys (m k : M (option bytes)) :
  delivers xs m → delivers ys k →
  delivers (xs ++ ys) (r ← m; match r with Some e => mret (Some e) | None => k end).
Proof.
  intros Hm Hk w. destruct (Hm w) as (l1 & Hs & Hr & Ho). rewrite exec_bind.
  destruct (m w) as [[e|] w1]; simpl in *.
  - exists l1. split_and!; [done|done|]. by apply outcome_cons_fail.
  - destruct (Hk w1) as (l2 & Hs2 & Hr2 & Ho2). exists (l1 ++ l2).
    rewrite Hs2, Hs, Hr2, app_assoc. split_and!; [done|done|]. by eapply outcome_app.
Qed.

Lemma effect_quiet {A} P (q : M A) (k : A → M (option bytes)) :
  quiet q → (∀ a, effect P (k a)) → effect P (q ≫= k).
Proof.
  intros (H1 & H2 & H3) Hk w. rewrite exec_bind. specialize (H1 w). specialize (H2 w). specialize (H3 w).
  destruct (q w) as [a w1]. simpl in *. rewrite <- H1, <- H2, <- H3. apply Hk.
Qed.

Lemma effect_after {A} P (m : M (option bytes)) (q : M A) :
  effect P m → quiet q → effect P (r ← m; _ ← q; mret r).
Proof.
  intros Hm (H1 & H2 & H3) w. rewrite exec_bind. specialize (Hm w). destruct (m w) as [r w1].
  rewrite exec_bind. specialize (H1 w1). specialize (H2 w1). specialize (H3 w1). destruct (q w1) as [a w2].
  simpl in *. by rewrite H1, H2, H3.
Qed.

Lemma effect_read P (k : parser → M (option bytes)) :
  (∀ p, effect (λ p' s r log s', p' = p → P p s r log s') (k p)) → effect P (p ← gets recipients; k p).
Proof.
  intros Hk w. rewrite exec_bind. cbn [exec gets act]. destruct (Hk (recipients w) w) as (log & ? & ? & HP).
  exists log. auto.
Qed.

Lemma effect_ret (P : parser → FileStore → option bytes → send_log → FileStore → Prop) r :
  (∀ p s, P p s r [] s) → effect P (mret r).
Proof. intros HP w. exists []. by rewrite app_nil_r. Qed.

Lemma effect_weaken (P Q : parser → FileStore → option bytes → send_log → FileStore → Prop) m :
  (∀ p s r log s', P p s r log s' → Q p s r log s') → effect P m → effect Q m.
Proof. intros HPQ Hm w. destruct (Hm w) as (log & ? & ? & ?). exists log. auto. Qed.

(** ** The operations *)
Lemma send_attempts_tries n d x w :
  ∃ log, sent (send_attempts E n d (call_sender E x) w).2 = sent w ++ log ∧
    store (send_attempts E n d (call_sender E x) w).2 = store w ∧
    recipients (send_attempts E n d (call_sender E x) w).2 = recipients w ∧
    tries n x log (send_attempts E n d (call_sender E x) w).1.
Proof.
  revert w. induction n as [|n IH]; intros w; cbn [send_attempts]; rewrite exec_bind, exec_call_sender;
    cbv zeta; destruct (send_result E (S (tick w)) x) as [e|] eqn:Er; cbn [exec mret M_ret fst snd].
  - exists [(x, Some e)]. split_and!; [done..|]. apply (tries_failed 0 x [e]). simpl. lia.
  - exists [(x, None)]. split_and!; [done..|]. apply (tries_done 0 x []). simpl. lia.
  - rewrite exec_bind. cbn [exec act ask wait]. destruct (cancelled E _ d) as [ce|] eqn:Ec.
    + exists [(x, Some e)]. split_and!; [done..|]. apply (tries_failed (S n) x [e]). simpl. lia.
    + set (w1 := set_tick _ _). destruct (IH w1) as (log & Hs & Hst & Hr & Ht).
      exists ((x, Some e) :: log). rewrite Hs, Hst, Hr. unfold w1. cbn. rewrite <- app_assoc.
      split_and!; [done..|]. by apply tries_cons.
  - exists [(x, None)]. split_and!; [done..|]. apply (tries_done (S n) x []). simpl. lia.
Qed.

Lemma send_failed_spec chat label what e w :
  sent (send_failed E svc ctx rcpt raw chat label what e w).2 = sent w ∧
  recipients (send_failed E svc ctx rcpt raw chat label what e w).2 = recipients w ∧
  queued E svc ctx rcpt raw e (store w)
    (store (send_failed E svc ctx rcpt raw chat label what e w).2).
Proof.
  unfold send_failed. executing.
  destruct (quiet_metric IncFailed) as (A1 & A2 & A3). specialize (A1 w). specialize (A2 w). specialize (A3 w).
  destruct (metric svc IncFailed w) as [[] w1]. executing.
  destruct (quiet_delivery rcpt false chat label) as (B1 & B2 & B3).
  specialize (B1 w1). specialize (B2 w1). specialize (B3 w1).
  destruct (observe_delivery _ _ _ _ _ _ w1) as [[] w2]. cbn [fst snd] in *.
  rewrite <- A1, <- B1, <- A2, <- B2, <- A3, <- B3. fold (dlq_active svc ctx).
  destruct (dlq_active svc ctx) eqn:Hd; [|by split_and!; [done..|constructor]]. executing.
  pose proof (queued_once E svc ctx rcpt raw e (store w2) (tick w2) (S (tick w2)) (S (S (tick w2))) Hd) as Hq.
  destruct (Enqueue _ _ _ _ _ _ _) as [[it|q] s']; cbn [fst snd] in *; [|by split_and!].
  destruct (quiet_metric IncDLQEnqueued) as (C1 & C2 & C3).
  set (w3 := set_store _ _). specialize (C1 w3). specialize (C2 w3). specialize (C3 w3).
  executing. destruct (metric svc IncDLQEnqueued w3) as [[] w4]. executing. rewrite C1, C2, C3. by split_and!.
Qed.

Lemma send_piece_delivers label what target p :
  delivers [mkSend (ChatID target) p (Silent target)] (send_piece E svc ctx rcpt raw label what target p).
Proof.
  unfold send_piece. apply effect_quiet; [done|]. intros t0 w. unfold sendWithRetry. cbv zeta.
  set (x := mkSend _ _ _). set (d := if _ <=? 0 then _ else _). fold (retries svc). executing.
  destruct (send_attempts_tries (retries svc) d x w) as (log & Hs & Hst & Hr & Ht).
  destruct (send_attempts _ _ _ _ w) as [err w1]. executing.
  destruct (quiet_latency "max_send" t0) as (B1 & B2 & B3).
  specialize (B1 w1). specialize (B2 w1). specialize (B3 w1).
  destruct (observe_latency _ _ _ _ w1) as [[] w2]. cbn [fst snd] in *.
  exists log. destruct err as [e|]; executing.
  - destruct (send_failed_spec (ChatID target) label what e w2) as (C1 & C2 & C3).
    destruct (send_failed _ _ _ _ _ _ _ _ _ w2) as [msg w3]. executing.
    rewrite C1, C2, B2, B3, Hs, Hr. split_and!; [done|done|].
    rewrite B1, Hst in C3. apply (one_failed _ _ _ _ _ _ _ [] x [] [] log e); [done|constructor|done|done].
  - rewrite B1, B2, B3, Hs, Hr, Hst. split_and!; [done|done|]. apply all_delivered.
    rewrite <- (app_nil_r log). constructor; [done|constructor].
Qed.

Lemma send_chunks_delivers label target chunks :
  delivers ((λ c, mkSend (ChatID target) (PText c) (Silent target)) <$> chunks)
    (send_chunks E svc ctx rcpt raw label target chunks).
Proof.
  induction chunks as [|c chunks IH]; [apply delivers_ret|]. cbn [send_chunks fmap list_fmap].
  apply (delivers_bind [_]); [apply send_piece_delivers|exact IH].
Qed.

Lemma send_files_delivers label target atts :
  delivers ((λ a, mkSend (ChatID target) (PFile a) (Silent target)) <$> atts)
    (send_files E svc ctx rcpt raw label target atts).
Proof.
  induction atts as [|a atts IH]; [apply delivers_ret|]. cbn [send_files fmap list_fmap].
  apply (delivers_bind [_]); [apply send_piece_delivers|]. by apply effect_quiet.
Qed.

Lemma deliver_delivers label text atts targets :
  delivers (concat (target_sends text atts <$> targets)) (deliver E svc ctx rcpt raw label text atts targets).
Proof.
  induction targets as [|t targets IH]; [apply delivers_ret|]. cbn [deliver fmap list_fmap concat].
  unfold target_sends at 1. rewrite <- app_assoc.
  apply delivers_bind; [apply send_chunks_delivers|]. apply effect_quiet; [done|]. intros [].
  apply delivers_bind; [apply send_files_delivers|]. apply effect_quiet; [done|]. intros [].
  by apply effect_quiet.
Qed.
End proofs.

(** What [Relay] has to send for a message. *)
Definition planned (pr : ParsedRecipient) (em : ParsedEmail) : list send :=
  concat (target_sends (message_text em) (Attachments em) <$> Targets pr).

(** The effect of [Relay] on the sender and the store. *)
Definition relay_effect (E : Env) (svc : Service) (ctx : Ctx) (rcpt raw : bytes)
    (p : parser) (s : FileStore) (r : option bytes) (log : send_log) (s' : FileStore) : Prop :=
  match Recipient.Parse (H:=tables E) p rcpt, EmailParse svc raw with
  | Err e, _ => r = Some ("parse recipient: " ++ e) ∧ log = [] ∧ s' = s
  | Ok _, Err e => r = Some ("parse email: " ++ e) ∧ log = [] ∧ s' = s
  | Ok pr, Ok em => outcome E svc ctx rcpt raw (planned pr em) s r log s'
  end.

Lemma Relay_effect E svc ctx rcpt raw : effect (relay_effect E svc ctx rcpt raw) (Relay E svc ctx rcpt raw).
Proof.
  unfold Relay. apply effect_quiet; [apply quiet_now|]. intros t0.
  apply effect_after; [|apply quiet_latency].
  unfold relay_body. apply effect_quiet; [apply quiet_metric|]. intros [].
  apply effect_read. intros p. unfold relay_effect.
  destruct (Recipient.Parse p rcpt) as [pr|e].
  - apply effect_quiet; [apply quiet_now|]. intros t1. cbv zeta.
    apply effect_quiet; [apply quiet_latency|]. intros [].
    destruct (EmailParse svc raw) as [em|e].
    + eapply effect_weaken; [|apply deliver_delivers]. by intros ????? H _.
    + apply effect_quiet; [apply quiet_metric|]. intros [].
      apply effect_quiet; [apply quiet_delivery|]. intros []. by apply effect_ret.
  - apply effect_quiet; [apply quiet_metric|]. intros [].
    apply effect_quiet; [apply quiet_delivery|]. intros []. by apply effect_ret.
Qed.

(** ** A concrete environment and world, for the witnesses *)
Definition demo_env (result : nat → send → option bytes) : Env := {|
  runtime := stable_runtime; tables := basic_unicode;
  clock := λ n, unix_epoch + Z.of_nat n * Second;
  random := λ n, "rnd" ++ format_int (Z.of_nat n); confirm_random := λ n, Some ("tok" ++ format_int (Z.of_nat n));
  store_io := λ _, PersistOk; alias_io := λ _, SaveOk;
  limiter_passage := λ _, RateLimiter.Straight; send_result := result; cancelled := λ _ _, None; jitter := λ _ _, 0;
|}.
Definition demo_world : World := {|
  tick := 0; store := empty_store "/data/dlq.json";
  recipients := mkParser "relay.local" {[ "ops" := ["chatid1"; "chatid2.silent"] ]};
  alias_file := NotExist; metrics := NewCollector; pendingConfirm := ∅; sent := [];
|}.
Definition demo_email (raw : bytes) : res ParsedEmail :=
  Ok (mkEmail "hi" "a@b" [] raw [] [mkAttachment "f.txt" "text/plain" 1 "x"] []).
Definition demo_service : Service := mkService demo_email 1 0 true true.
(** MAX accepts chat 1 and refuses chat 2 for the first 30 ticks. *)
Definition chat2_down (n : nat) (x : send) : option bytes :=
  if bool_decide (s_chat x = "2") && (n <? 30)%nat then Some "timeout" else None.

(** * Properties *)

(** C1. What [Relay] does.  If the recipient or the message does not parse,
    nothing is sent or queued and the error says so.  Otherwise the calls to the
    sender are exactly these: the pieces of the message (its text in chunks, then
    its attachments, for each target in turn) are tried in order, each at most
    [MaxSendRetries] times again; either every piece is delivered and the store
    is untouched, or the first piece that is not delivered ends the run with an
    error and the message is queued once, unless the queue is off or bypassed. *)
Theorem Relay_delivers E svc ctx rcpt raw w :
  let r := (Relay E svc ctx rcpt raw w).1 in
  let w' := (Relay E svc ctx rcpt raw w).2 in
  ∃ log, sent w' = sent w ++ log ∧ recipients w' = recipients w ∧
  match Recipient.Parse (H:=tables E) (recipients w) rcpt, EmailParse svc raw with
  | Err e, _ => r = Some ("parse recipient: " ++ e) ∧ log = [] ∧ store w' = store w
  | Ok _, Err e => r = Some ("parse email: " ++ e) ∧ log = [] ∧ store w' = store w
  | Ok pr, Ok em => outcome E svc ctx rcpt raw (planned pr em) (store w) r log (store w')
  end.
Proof. apply (Relay_effect E svc ctx rcpt raw w). Qed.

Lemma outcome_bypass E svc ctx rcpt raw xs s r log s' :
  dlq_active svc ctx = false → outcome E svc ctx rcpt raw xs s r log s' → s' = s.
Proof. intros Hd [|? ? ? ? ? ? ? ? _ _ _ [|]]; [done|done|congruence]. Qed.

(** A replay (its context bypasses the queue) leaves the store alone. *)
Lemma Relay_bypass_store E svc ctx rcpt raw :
  dlq_active svc ctx = false → frame store (Relay E svc ctx rcpt raw).
Proof.
  intros Hd w. destruct (Relay_effect E svc ctx rcpt raw w) as (log & _ & _ & H). revert H.
  unfold relay_effect. destruct (Recipient.Parse _ _), (EmailParse svc raw); try tauto.
  intros H. by eapply outcome_bypass.
Qed.

Lemma Enqueue_live `{GoRuntime} t rnd io s r m e :
  store_wf s → items s !! new_item_id t rnd m = None →
  live_ids (payloadFingerprint r m) (Enqueue t rnd io s r m e).2 ≠ ∅.
Proof.
  intros Hwf Hfr. destruct (Enqueue_put t rnd io s r m e Hwf Hfr) as (it & E & Hfp & Hl & _).
  rewrite E. intros Hemp. assert (ID it ∈ live_ids (payloadFingerprint r m)
    (persist_and_return io (put_item s (ID it) it) it).2) as Hin; [|by rewrite Hemp in Hin].
  apply elem_of_live_ids. exists it.
  destruct (persist_and_return_items io (put_item s (ID it) it) it) as [-> _].
  split_and!; [apply lookup_insert_eq|done|done].
Qed.

(** C2. No message is lost.  With the queue active, a message whose recipient and
    content parse is either delivered completely, each piece exactly once and
    in order, or reported as failed and then live in the queue, even if the
    queue could not be written to disk.  (Ids of queue items do not collide.) *)
Theorem Relay_no_loss E svc ctx rcpt raw w pr em :
  store_wf (store w) →
  (∀ i j, items (store w) !! new_item_id (clock E i) (random E j) raw = None) →
  Recipient.Parse (H:=tables E) (recipients w) rcpt = Ok pr → EmailParse svc raw = Ok em →
  dlq_active svc ctx = true →
  let r := (Relay E svc ctx rcpt raw w).1 in
  let w' := (Relay E svc ctx rcpt raw w).2 in
  ∃ log, sent w' = sent w ++ log ∧
  ((r = None ∧ successes log = planned pr em ∧ store w' = store w) ∨
   (∃ msg rest, r = Some msg ∧ rest ≠ [] ∧ planned pr em = successes log ++ rest ∧
      live_ids (payloadFingerprint rcpt raw) (store w') ≠ ∅)).
Proof.
  cbv zeta. intros Hwf Hfr Hp He Hd. destruct (Relay_effect E svc ctx rcpt raw w) as (log & Hs & _ & H).
  exists log. split; [done|]. revert H. unfold relay_effect. rewrite Hp, He.
  intros [l Hl|done x rest l1 l2 e msg s' Hx H1 H2 Hq].
  - left. by rewrite (deliveries_successes _ _ _ Hl).
  - right. exists msg, (x :: rest). split_and!; [done|done| |].
    + rewrite successes_app, (deliveries_successes _ _ _ H1). inversion H2; subst.
      by rewrite successes_fails, app_nil_r.
    + destruct Hq as [|i j k]; [congruence|]. by apply Enqueue_live.
Qed.

Lemma Relay_no_loss_witness :
  let w' := (Relay (demo_env chat2_down) demo_service Background "Ops@relay.local" "hello" demo_world).2 in
  live_ids (payloadFingerprint "Ops@relay.local" "hello") (store w') ≠ ∅.
Proof.
  intros w'.
  destruct (Relay_no_loss (demo_env chat2_down) demo_service Background "Ops@relay.local" "hello" demo_world
    (mkParsed [mkTarget "1" false "chatid1"; mkTarget "2" true "chatid2.silent"]
       "chatid1,chatid2.silent" "Ops@relay.local" "ops" true)
    (mkEmail "hi" "a@b" [] "hello" [] [mkAttachment "f.txt" "text/plain" 1 "x"] []))
    as (log & _ & [(Hr & _)|(msg & _ & _ & _ & _ & Hl)]).
  - apply empty_store_wf.
  - intros i j. apply lookup_empty.
  - vm_compute. reflexivity.
  - reflexivity.
  - reflexivity.
  - exfalso. revert Hr. clear. vm_compute. discriminate.
  - exact Hl.
Defined.

(** The pieces MAX got for chat [c]. *)
Definition received_by (c : bytes) (w : World) : list payload :=
  s_payload <$> filter (λ x, s_chat x = c) (successes (sent w)).

(** A replay repeats what had been delivered: the queue keeps the message for
    the recipient address and not what is left to do.  Here chat 2 of an alias
    is down at first; the message waits in the queue, the replay succeeds, and
    chat 1 has the text and the attachment twice. *)
Theorem replay_repeats_delivered :
  let E := demo_env chat2_down in
  let w1 := (Relay E demo_service Background "ops@relay.local" "hello" demo_world).2 in
  let w2 := set_tick 100 w1 in
  let '(r, w3) := Relay E demo_service (WithDLQBypass Background) "ops@relay.local" "hello" w2 in
  r = None ∧
  received_by "1" w1 = [PText ("📧 hi" ++ [byte_of 10] ++ "От: a@b" ++ [byte_of 10; byte_of 10] ++ "hello");
                        PFile (mkAttachment "f.txt" "text/plain" 1 "x")] ∧
  received_by "1" w3 = received_by "1" w1 ++ received_by "1" w1 ∧ received_by "2" w3 = received_by "1" w1.
Proof. vm_compute. split_and!; reflexivity. Qed.
