(* ===== verification/Backoff.v ===== *)
(** * Retry delays: [nextDelay] of [internal/dlq/worker.go] and [admin.go]

    Exponential backoff on int64 nanoseconds, where [base << (attempt - 1)] may
    wrap around. *)
From S2P Require Import Prelude GoStrings GoRuntime.

Open Scope Z_scope.

(** The defaults both functions apply to their configuration. *)
Definition delay_base (base : duration) : duration := if base <=? 0 then Second else base.
Definition delay_max (max : duration) : duration := if max <=? 0 then 5 * Minute else max.
Definition delay_attempt (attempt : Z) : Z := if attempt <? 1 then 1 else attempt.

(** [nextDelay] of [admin.go]. *)
Definition nextDelay (attempt : Z) (base max : duration) : duration :=
  let base := delay_base base in
  let max := delay_max max in
  let attempt := delay_attempt attempt in
  let d := shl64 base (attempt - 1) in
  if (d <? base) || (max <? d) then max else d.

(** The worker's [nextDelay] before its jitter, and with jitter [j]. *)
Definition worker_backoff (attempt : Z) (base max : duration) : duration :=
  let base := delay_base base in
  let max := delay_max max in
  let attempt := delay_attempt attempt in
  let d := shl64 base (attempt - 1) in
  let d := if d <? base then max else d in
  if max <? d then max else d.
Definition jitter_bound (randomJitter : duration) : duration :=
  if randomJitter <=? 0 then 250 * Millisecond else randomJitter.
Definition worker_nextDelay (attempt : Z) (base max : duration) (j : duration) : duration :=
  wrap64 (worker_backoff attempt base max + j).

(** * Lemmas *)
Lemma delay_base_pos b : 0 < delay_base b.
Proof. unfold delay_base. split_if; bprop; [reflexivity|lia]. Qed.
Lemma delay_max_pos b : 0 < delay_max b.
Proof. unfold delay_max. split_if; bprop; [reflexivity|lia]. Qed.
Lemma delay_attempt_pos n : 1 ≤ delay_attempt n.
Proof. unfold delay_attempt. split_if; bprop; lia. Qed.

Lemma worker_backoff_nextDelay n b m : worker_backoff n b m = nextDelay n b m.
Proof.
  unfold worker_backoff, nextDelay. cbv zeta. destruct (_ <? delay_base b); cbn [orb]; [|done].
  by rewrite Z.ltb_irrefl.
Qed.

Lemma nextDelay_eq n b m :
  nextDelay n b m = let d := shl64 (delay_base b) (delay_attempt n - 1) in
                    if d <? delay_base b then delay_max m else Z.min d (delay_max m).
Proof.
  unfold nextDelay. cbv zeta. destruct (Z.ltb_spec (shl64 (delay_base b) (delay_attempt n - 1)) (delay_base b));
    cbn [orb]; [done|]. split_if; bprop; lia.
Qed.

(** A wrapped product that is divisible by [2^k] and at least 1 is at least [2^k]. *)
Lemma wrap64_multiple k x : 0 ≤ k ≤ 63 → (2 ^ k | x) → 0 < wrap64 x → 2 ^ k ≤ wrap64 x.
Proof.
  intros Hk [q ->] Hpos. destruct (wrap64_cong (q * 2 ^ k)) as [c Hc].
  assert (2 ^ 64 = 2 ^ (64 - k) * 2 ^ k) as H64 by (rewrite <- Z.pow_add_r by lia; f_equal; lia).
  assert (wrap64 (q * 2 ^ k) = (q - c * 2 ^ (64 - k)) * 2 ^ k) as E
    by (rewrite Z.mul_sub_distr_r, <- Z.mul_assoc, <- H64; lia).
  assert (0 < 2 ^ k) by (apply Z.pow_pos_nonneg; lia). rewrite E in Hpos |- *.
  apply Z.mul_pos_cancel_r in Hpos; [|done]. nia.
Qed.

(** * Properties *)

(** Every delay lies between the smaller of base and maximum and the maximum, whatever
    the attempt number, even where the shift overflows. *)
Lemma nextDelay_between attempt base max :
  Z.min (delay_base base) (delay_max max) ≤ nextDelay attempt base max ≤ delay_max max.
Proof. rewrite nextDelay_eq. cbv zeta. split_if; bprop; lia. Qed.

(** Without an overflow the delay doubles with each attempt up to the maximum. *)
Lemma nextDelay_doubles attempt base max :
  delay_base base * 2 ^ (delay_attempt attempt - 1) ≤ int64_max →
  nextDelay attempt base max = Z.min (delay_base base * 2 ^ (delay_attempt attempt - 1)) (delay_max max).
Proof.
  intros Hle. rewrite nextDelay_eq. cbv zeta. pose proof (delay_base_pos base). pose proof (delay_attempt_pos attempt).
  unfold shl64. rewrite Z.shiftl_mul_pow2 by lia.
  assert (0 < 2 ^ (delay_attempt attempt - 1)) by (apply Z.pow_pos_nonneg; lia).
  rewrite wrap64_id by (unfold in_int64, int64_min, int64_max in *; nia).
  destruct (Z.ltb_spec (delay_base base * 2 ^ (delay_attempt attempt - 1)) (delay_base base)); [nia|done].
Qed.

(** Exponential backoff: as long as the product of base and maximum stays
    below [2^63] times the power of two that divides the base, the delay before
    attempt [n] is exactly [min (base * 2^(n-1)) max] for every [n]: an overflow
    of the shift is always noticed.  (Durations are nanoseconds; a base in
    milliseconds is divisible by [2^6].) *)
Theorem nextDelay_exponential attempt base max z :
  0 < base ≤ int64_max → 0 < max ≤ int64_max → 0 ≤ z → (2 ^ z | base) →
  base * max < 2 ^ (63 + z) → 1 ≤ attempt →
  nextDelay attempt base max = Z.min (base * 2 ^ (attempt - 1)) max.
Proof.
  intros Hb Hm Hz Hdiv Hprod Hn. rewrite nextDelay_eq. cbv zeta.
  assert (delay_base base = base ∧ delay_max max = max ∧ delay_attempt attempt = attempt) as (-> & -> & ->).
  { unfold delay_base, delay_max, delay_attempt. split_and!; split_if; bprop; lia. }
  set (k := attempt - 1). assert (0 ≤ k) by (unfold k; lia).
  unfold shl64. rewrite Z.shiftl_mul_pow2 by done.
  assert (0 < 2 ^ k) as H2k by (apply Z.pow_pos_nonneg; lia).
  destruct (decide (base * 2 ^ k ≤ int64_max)) as [Hle|Hgt].
  { rewrite wrap64_id by (unfold in_int64, int64_min, int64_max in *; nia).
    destruct (Z.ltb_spec (base * 2 ^ k) base); [nia|done]. }
  rewrite (Z.min_r (base * 2 ^ k)) by lia.
  destruct (Z.ltb_spec (wrap64 (base * 2 ^ k)) base) as [|Hge]; [done|].
  apply Z.min_r. destruct (decide (64 ≤ z + k)) as [Hbig|Hsmall].
  { exfalso. assert (wrap64 (base * 2 ^ k) = 0); [|lia].
    destruct Hdiv as [q ->]. rewrite <- Z.mul_assoc, <- Z.pow_add_r by lia.
    replace (2 ^ (z + k)) with (2 ^ (z + k - 64) * 2 ^ 64) by (rewrite <- Z.pow_add_r by lia; f_equal; lia).
    unfold wrap64. rewrite Z.mul_assoc, Z.add_comm, Z.mod_add by lia. done. }
  destruct (decide (z + k = 64)) as [?|?]; [lia|].
  assert (2 ^ (z + k) ≤ wrap64 (base * 2 ^ k)) as Hlow.
  { apply wrap64_multiple; [lia| |lia]. rewrite Z.pow_add_r by lia. by apply Z.mul_divide_mono_r. }
  assert (2 ^ 63 ≤ base * 2 ^ k) by (unfold int64_max in *; lia).
  assert (2 ^ (63 + z) ≤ base * 2 ^ (z + k)) by (rewrite !Z.pow_add_r by lia; nia).
  nia.
Qed.

Lemma nextDelay_exponential_witness :
  (2 ^ 9 | Second) ∧ nextDelay 100 Second (5 * Minute) = 5 * Minute ∧ nextDelay 4 Second (5 * Minute) = 8 * Second.
Proof.
  assert (2 ^ 9 | Second) as Hd by (exists 1953125; reflexivity).
  split_and!; [exact Hd| |].
  - rewrite (nextDelay_exponential 100 Second (5 * Minute) 9); done.
  - rewrite (nextDelay_exponential 4 Second (5 * Minute) 9); done.
Defined.

(** Without such a bound the test [d < base] misses overflows: the 34th delay of a
    base of about 2.1 s is 8.6 s, although the 9th was already the maximum. *)
Lemma overflow_guard_incomplete :
  let base := 2 ^ 31 + 1 in
  nextDelay 9 base (5 * Minute) = 5 * Minute ∧ nextDelay 34 base (5 * Minute) = 2 ^ 33 ∧
  2 ^ 33 < 9 * Second.
Proof. by vm_compute. Qed.
