(* ===== verification/DlqWorker.v ===== *)
(** * The queue worker: [internal/dlq/worker.go]

    At every tick the worker takes the due items, relays each again and records
    the result.  It knows the relay only by an interface. *)
From S2P Require Import Prelude GoStrings GoRuntime GoJson Recipient DlqStore Metrics Email Trace World.
From S2P Require Import Backoff.

Open Scope Z_scope.
Open Scope go_scope.

(** ** The interface of the relay

    [relay] is a [RelayFunc]; called with a replaying context it leaves the
    queue to its caller. *)
Class Replayer := {
  relay : Ctx → bytes → bytes → M (option bytes);
  replaying : Ctx → Prop;
  relay_keeps_store ctx rcpt raw : replaying ctx → frame store (relay ctx rcpt raw);
}.

(** [Store], [Relay] are not nil; [AttemptTimeout] acts through the contexts. *)
Record Worker := mkWorker {
  Interval : duration;
  BaseDelay : duration;
  MaxDelay : duration;
  MaxRetries : Z;
  BatchSize : Z;
  WithReplay : option (Ctx → Ctx);
  has_metrics : bool;
  RandomJitter : duration;
}.

Definition replay_ctx (w : Worker) (ctx : Ctx) : Ctx :=
  match WithReplay w with Some f => f ctx | None => ctx end.

Section worker.
Context `{Replayer} (E : Env) (w : Worker).

Definition metric (f : Collector → Collector) : M unit :=
  if has_metrics w then observe f else mret tt.

Definition randInt63n (n : Z) : M Z := if n <=? 0 then mret 0 else ask (λ i, jitter E i n).

(** [nextDelay] with its jitter drawn. *)
Definition next_delay (attempt : Z) : M duration :=
  j ← randInt63n (jitter_bound (RandomJitter w));
  mret (worker_nextDelay attempt (BaseDelay w) (MaxDelay w) j).

(** The body of the loop over the items. *)
Definition replay_item (ctx : Ctx) (item : Item) : M unit :=
  err ← relay (replay_ctx w ctx) (DlqStore.Recipient item) (RawMessage item);
  match err with
  | None =>
    _ ← store_MarkDone E (ID item);
    metric IncDLQReplayed
  | Some e =>
    t ← now E;
    d ← next_delay (wrap64 (Attempt item + 1));
    _ ← store_MarkRetry E (ID item) (time_add t d) (Some e) (MaxRetries w);
    metric IncDLQReplayFailed
  end.

Fixpoint replay_items (ctx : Ctx) (items : list Item) : M unit :=
  match items with
  | [] => mret tt
  | item :: items => _ ← replay_item ctx item; replay_items ctx items
  end.

Definition updateBacklogMetrics : M unit :=
  if negb (has_metrics w) then mret tt else
  st ← gets (λ x, DlqStore.Stats (H:=runtime E) (store x));
  t ← now E;
  age ← gets (λ x, OldestPendingAge (H:=runtime E) (store x) t);
  observe (SetDLQBacklog (Pending st) (Failed st) (Done st)
    (match age with Some d => uint64_of_float (Seconds d) | None => 0 end)).

(** The deferred update runs in both cases. *)
Definition runOnce (ctx : Ctx) : M unit :=
  t ← now E;
  items ← store_PickDue E (BatchSize w) t;
  _ ← match items with
      | Err _ => mret tt
      | Ok items => replay_items ctx items
      end;
  updateBacklogMetrics.

(** [Run]: a round per tick of the ticker, until the context is done; [n] is the
    number of ticks that come first. *)
Definition interval : duration := if Interval w <=? 0 then 2 * Second else Interval w.

Fixpoint Run (ctx : Ctx) (n : nat) : M unit :=
  match n with
  | O => mret tt
  | S n => _ ← runOnce ctx; Run ctx n
  end.
End worker.

(** * Specification *)

(** What a round does with an item whose relay ended with [r]. *)
Definition settled (maxRetries : Z) (r : option bytes) (it it' : Item) : Prop :=
  same_message it it' ∧
  match r with
  | None => status it' = StatusDone ∧ Attempt it' = Attempt it
  | Some e =>
    LastError it' = e ∧ Attempt it' = wrap64 (Attempt it + 1) ∧
    status it' = if (0 <? maxRetries) && (maxRetries <=? wrap64 (Attempt it + 1))
                 then StatusFailed else StatusPending
  end.

(** The relays of a round, one per item in turn: each is called once, with the item
    still being processed, and nothing is sent between them, before the first or
    after the last. *)
Inductive relays_each `{Replayer} (ctx : Ctx) : World → list Item → list (option bytes) → World → Prop :=
  | relays_none x y : sent y = sent x → relays_each ctx x [] [] y
  | relays_next x y it its r rs y1 z :
      sent y = sent x → items (store y) !! ID it = Some it →
      relay ctx (DlqStore.Recipient it) (RawMessage it) y = (r, y1) →
      relays_each ctx y1 its rs z → relays_each ctx x (it :: its) (r :: rs) z.

Lemma relays_each_from `{Replayer} ctx x x' its rs z :
  sent x' = sent x → relays_each ctx x' its rs z → relays_each ctx x its rs z.
Proof. intros Hx. destruct 1; [apply relays_none; congruence|by eapply relays_next; [etrans; [done|exact Hx]|..]]. Qed.
Lemma relays_each_until `{Replayer} ctx x its rs z z' :
  sent z' = sent z → relays_each ctx x its rs z → relays_each ctx x its rs z'.
Proof. intros Hz. induction 1; [apply relays_none; congruence|eapply relays_next; eauto]. Qed.
Lemma relays_each_head `{Replayer} ctx x it its r rs z :
  relays_each ctx x (it :: its) (r :: rs) z → ∃ y, r = (relay ctx (DlqStore.Recipient it) (RawMessage it) y).1.
Proof. inversion 1 as [|? y ? ? ? ? ? ? _ _ Hr _]; subst. exists y. by rewrite Hr. Qed.

Section proofs.
Context `{Replayer} (E : Env) (w : Worker) (ctx : Ctx).
Context (Hreplay : replaying (replay_ctx w ctx)).

(** The store after one step of the loop: only the item is settled, by the result
    of its relay. *)
Lemma replay_item_spec item x s0 it :
  items (store x) !! ID item = Some it → store x = s0 →
  ∃ it', items (store (replay_item E w ctx item x).2) = <[ID item := it']> (items s0) ∧
    settled (MaxRetries w)
      (relay (replay_ctx w ctx) (DlqStore.Recipient item) (RawMessage item) x).1 it it'.
Proof using Hreplay.
  intros Hit <-. unfold replay_item. rewrite exec_bind.
  pose proof (relay_keeps_store (replay_ctx w ctx) (DlqStore.Recipient item) (RawMessage item) Hreplay x) as Hst.
  destruct (relay _ _ _ x) as [[e|] x1]; cbn [fst snd] in *.
  - rewrite exec_bind, exec_now. cbv iota beta.
    assert (frame store (next_delay E w (wrap64 (Attempt item + 1)))) as Hnd by (unfold next_delay, randInt63n; framed).
    specialize (Hnd (set_tick (S (tick x1)) x1)). rewrite exec_bind.
    destruct (next_delay _ _ _ _) as [d x2]. cbn [fst snd store set_tick] in Hnd.
    rewrite <- Hst, <- Hnd in Hit |- *. rewrite exec_bind.
    destruct (store_MarkRetry_items E _ (time_add (clock E (tick x1)) d) (Some e) (MaxRetries w) x2 it Hit) as [t Hi].
    destruct (store_MarkRetry _ _ _ _ _ x2) as [o x3]. cbn [snd] in Hi. eexists. split.
    { unfold metric. destruct (has_metrics w); exact Hi. }
    split; [apply retry_item_same|apply retry_item_error].
  - rewrite <- Hst in Hit |- *. rewrite exec_bind. destruct (store_MarkDone_items E _ x1 it Hit) as [t Hi].
    destruct (store_MarkDone _ _ x1) as [o x3]. cbn [snd] in Hi. eexists. split.
    { unfold metric. destruct (has_metrics w); exact Hi. }
    by split.
Qed.
(** One step of the loop sends what its one relay sends. *)
Lemma replay_item_sent item x :
  sent (replay_item E w ctx item x).2 =
  sent (relay (replay_ctx w ctx) (DlqStore.Recipient item) (RawMessage item) x).2.
Proof using Type.
  unfold replay_item. rewrite exec_bind. destruct (relay _ _ _ x) as [r x1]. cbn [snd].
  assert (∀ f, frame sent (metric w f)) as Hm by (intros f; unfold metric; framed).
  assert (∀ n, frame sent (next_delay E w n)) as Hd by (intros n; unfold next_delay, randInt63n; framed).
  destruct r as [e|].
  - apply (frame_bind sent (now E)); [apply frame_ask_sent|]. intros t. apply frame_bind; [apply Hd|]. intros d.
    apply frame_bind; [apply frame_MarkRetry_sent|]. intros _. apply Hm.
  - apply (frame_bind sent (store_MarkDone E (ID item))); [apply frame_MarkDone_sent|]. intros _. apply Hm.
Qed.
Lemma replay_items_spec its x :
  NoDup (ID <$> its) → (∀ it, it ∈ its → items (store x) !! ID it = Some it) →
  ∃ rs, relays_each (replay_ctx w ctx) x its rs (replay_items E w ctx its x).2 ∧
    Forall2 (λ it r, ∃ it', items (store (replay_items E w ctx its x).2) !! ID it = Some it' ∧
      settled (MaxRetries w) r it it') its rs ∧
    ∀ id, id ∉ ID <$> its →
      items (store (replay_items E w ctx its x).2) !! id = items (store x) !! id.
Proof using Hreplay.
  revert x. induction its as [|it its IH]; intros x; [exists []; by split_and!; [constructor|..]|].
  cbn [fmap list_fmap]. intros [Hid Hnd]%NoDup_cons Hits. cbn [replay_items]. rewrite exec_bind.
  destruct (replay_item_spec it x _ it (Hits it ltac:(left)) eq_refl) as (it' & Hst & Hset).
  pose proof (replay_item_sent it x) as Hse.
  destruct (replay_item E w ctx it x) as [[] x1]. cbn [snd] in Hst, Hse.
  destruct (IH x1 Hnd) as (rs & Hrel & Hrs & Hother).
  { intros j Hj. rewrite Hst, lookup_insert_ne; [apply Hits; by right|].
    intros Eid. apply Hid. rewrite Eid. by apply list_elem_of_fmap_2. }
  eexists (_ :: rs). split_and!.
  - eapply relays_next; [done|apply Hits; left|apply surjective_pairing|].
    by eapply relays_each_from; [|exact Hrel].
  - constructor; [|exact Hrs]. exists it'. split; [|exact Hset].
    rewrite Hother by done. rewrite Hst. apply lookup_insert_eq.
  - intros id Hn. rewrite Hother by set_solver. rewrite Hst. apply lookup_insert_ne. set_solver.
Qed.

Lemma exec_runOnce x :
  runOnce E w ctx x =
  let '(r, s1) := PickDue (H:=runtime E) (store_io E (S (tick x))) (store x) (BatchSize w) (clock E (tick x)) in
  let '(_, x2) := (match r with Err _ => mret tt | Ok items => replay_items E w ctx items end : M unit)
                    (set_store s1 (set_tick (S (S (tick x))) x)) in
  updateBacklogMetrics E w x2.
Proof using Type.
  unfold runOnce. executing. cbn [tick set_tick store]. destruct (PickDue _ _ _ _) as [r s1]. by rewrite exec_bind.
Qed.

Lemma updateBacklogMetrics_sent : frame sent (updateBacklogMetrics E w).
Proof.
  unfold updateBacklogMetrics. destruct (negb _); [apply frame_ret|].
  repeat (apply frame_bind; [done|]; intros ?). done.
Qed.
Lemma updateBacklogMetrics_store : frame store (updateBacklogMetrics E w).
Proof.
  unfold updateBacklogMetrics. destruct (negb _); [apply frame_ret|].
  repeat (apply frame_bind; [done|]; intros ?). done.
Qed.
End proofs.

(** * Properties *)

(** C15. A round of the worker relays every item it takes exactly once, in the order
    taken, while the item is marked as being processed, and sends nothing else; and
    it settles the item by the result of that relay: it is done if that succeeded,
    and otherwise has one more attempt, the error, and is pending or, its budget used
    up, failed.  No other item changes; if taking the items fails, nothing is sent. *)
Theorem runOnce_settles `{Replayer} E w ctx x :
  store_wf (store x) → replaying (replay_ctx w ctx) →
  let picked := PickDue (H:=runtime E) (store_io E (S (tick x))) (store x) (BatchSize w) (clock E (tick x)) in
  let w' := (runOnce E w ctx x).2 in
  let s' := store w' in
  match picked.1 with
  | Err _ => s' = picked.2 ∧ sent w' = sent x
  | Ok its =>
    (∃ rs, relays_each (replay_ctx w ctx) x its rs w' ∧
       Forall2 (λ it r, ∃ it', items s' !! ID it = Some it' ∧ settled (MaxRetries w) r it it') its rs) ∧
    (∀ id, id ∉ ID <$> its → items s' !! id = items (store x) !! id)
  end.
Proof.
  intros Hwf Hrep. cbv zeta. rewrite exec_runOnce. destruct (PickDue _ _ _ _) as [r s1] eqn:Ep. cbn [fst snd].
  set (x1 := set_store s1 _).
  assert (∀ (m : M unit), let w' := (let '(_, w') := m x1 in updateBacklogMetrics E w w').2 in
    store w' = store (m x1).2 ∧ sent w' = sent (m x1).2) as Hback.
  { intros m. destruct (m x1) as [[] x2]. split; [apply updateBacklogMetrics_store|apply updateBacklogMetrics_sent]. }
  destruct r as [its|e]; [|destruct (Hback (mret tt)) as [-> ->]; done].
  destruct (Hback (replay_items E w ctx its)) as [Hst Hse]. rewrite Hst.
  destruct (PickDue_out (H:=runtime E) _ _ _ _ _ _ Hwf Ep) as (Hnd & Hits & Hother).
  destruct (replay_items_spec E w ctx Hrep its x1 Hnd) as (rs & Hrel & Hrs & Hoth).
  { intros it Hit. by apply Hits. }
  split.
  - exists rs. split; [|exact Hrs]. apply (relays_each_from _ x x1 _ _ _ eq_refl).
    by apply (relays_each_until _ _ _ _ (replay_items E w ctx its x1).2).
  - intros id Hid. rewrite Hoth by done. by apply Hother.
Qed.

(** C37. The worker's delay before a retry.  With the defaults for what is not positive
    (1 s, 5 min, 250 ms), it is a backoff plus one draw of the jitter below its bound:
    the backoff is the base doubled once per attempt after the first and at most the
    maximum, as long as the product of base and power fits int64, and for every
    attempt whatever if base and maximum are moderate (their product is below [2^63]
    times the power of two dividing the base); it always lies between the smaller of
    base and maximum and the maximum; and the administration's [nextDelay] is the
    same backoff without the jitter.  [rand.Int63n(n)] is in [0, n). *)
Theorem next_delay_spec E w attempt x :
  let or_else v dflt := if 0 <? v then v else dflt in
  let base := or_else (BaseDelay w) Second in
  let max := or_else (MaxDelay w) (5 * 60 * Second) in
  let bound := or_else (RandomJitter w) (250 * Millisecond) in
  let power := 2 ^ (Z.max 1 attempt - 1) in
  (∀ i n, 0 < n → 0 ≤ jitter E i n < n) → base ≤ int64_max → max + bound ≤ int64_max →
  ∃ backoff j, (next_delay E w attempt x).1 = backoff + j ∧
    0 ≤ j < bound ∧ j = jitter E (tick x) bound ∧
    Z.min base max ≤ backoff ≤ max ∧
    (base * power ≤ int64_max → backoff = Z.min (base * power) max) ∧
    (∀ z, 0 ≤ z → (2 ^ z | base) → base * max < 2 ^ (63 + z) → backoff = Z.min (base * power) max) ∧
    backoff = nextDelay attempt (BaseDelay w) (MaxDelay w).
Proof.
  intros or_else base max bound power Hj Hb Hm.
  assert (delay_base (BaseDelay w) = base ∧ delay_max (MaxDelay w) = max ∧ jitter_bound (RandomJitter w) = bound ∧
    delay_attempt attempt = Z.max 1 attempt) as (Eb & Em & Ej & En).
  { unfold base, max, bound, or_else, delay_base, delay_max, jitter_bound, delay_attempt, Minute.
    split_and!; repeat split_if; bprop; lia. }
  pose proof (delay_base_pos (BaseDelay w)). pose proof (delay_max_pos (MaxDelay w)).
  assert (0 < bound) as Hbound by (unfold bound, or_else; split_if; bprop; [lia|reflexivity]).
  pose proof (nextDelay_between attempt (BaseDelay w) (MaxDelay w)) as Hbetween.
  pose proof (nextDelay_doubles attempt (BaseDelay w) (MaxDelay w)) as Hdoubles.
  rewrite Eb, Em in *. rewrite En in Hdoubles. fold power in Hdoubles.
  specialize (Hj (tick x) bound Hbound) as Hjx.
  exists (nextDelay attempt (BaseDelay w) (MaxDelay w)), (jitter E (tick x) bound). split_and!; try done; try lia.
  - unfold next_delay, randInt63n. rewrite Ej. destruct (Z.leb_spec bound 0); [lia|].
    rewrite exec_bind, exec_ask. cbn [fst exec mret M_ret]. unfold worker_nextDelay. rewrite worker_backoff_nextDelay.
    apply wrap64_id. unfold in_int64, int64_min, int64_max in *. lia.
  - intros z Hz Hd Hp. assert (nextDelay attempt (BaseDelay w) (MaxDelay w) = nextDelay (Z.max 1 attempt) base max) as ->.
    { rewrite !nextDelay_eq. rewrite Eb, Em, En.
      assert (delay_base base = base ∧ delay_max max = max ∧ delay_attempt (Z.max 1 attempt) = Z.max 1 attempt) as (-> & -> & ->);
        [|done].
      unfold delay_base, delay_max, delay_attempt. split_and!; split_if; bprop; lia. }
    apply (nextDelay_exponential _ _ _ z); lia || done.
Qed.

(** A relay that refuses every message. *)
Definition refusing : Replayer := {|
  relay := λ _ _ _, mret (Some "timeout" : option bytes);
  replaying := λ _, True;
  relay_keeps_store := λ _ _ _ _, frame_ret store _;
|}.
Definition wit_worker : Worker := mkWorker 0 Second (5 * Minute) 1 10 None true 0.
Definition wit_env : Env := {|
  runtime := stable_runtime; tables := basic_unicode; clock := λ _, unix_epoch;
  random := λ _, []; confirm_random := λ _, None; store_io := λ _, PersistOk; alias_io := λ _, SaveOk;
  limiter_passage := λ _, RateLimiter.Straight; send_result := λ _ _, None; cancelled := λ _ _, None; jitter := λ _ _, 0;
|}.
Definition wit_world : World :=
  mkWorld 0 one_item_store (mkParser "relay.local" ∅) NotExist NewCollector ∅ [].

Lemma wit_pick :
  (PickDue (H:=runtime wit_env) (store_io wit_env (S (tick wit_world))) (store wit_world)
     (BatchSize wit_worker) (clock wit_env (tick wit_world))).1 = Ok [mark_processing unix_epoch one_item].
Proof. vm_compute. reflexivity. Qed.

Lemma runOnce_settles_witness :
  ∃ it', items (store (runOnce (H:=refusing) wit_env wit_worker Background wit_world).2) !! one_item_id = Some it' ∧
    status it' = StatusFailed ∧ LastError it' = "timeout".
Proof.
  pose proof (runOnce_settles (H:=refusing) wit_env wit_worker Background wit_world one_item_store_wf I) as Hw.
  cbv zeta in Hw. rewrite wit_pick in Hw. destruct Hw as [(rs & Hrel & Hrs) _].
  inversion Hrs as [|it r its' rs' (it' & Hi & _ & Hset) Hrest]; subst.
  apply relays_each_head in Hrel as [y ->].
  exists it'. cbn in Hset. split; [exact Hi|]. split; apply Hset.
Defined.

(** The default worker at its fifth attempt. *)
Lemma next_delay_spec_witness :
  ∃ backoff j, (next_delay wit_env wit_worker 5 wit_world).1 = backoff + j ∧ 0 ≤ j < 250 * Millisecond ∧
    backoff = 16 * Second.
Proof.
  destruct (next_delay_spec wit_env wit_worker 5 wit_world) as (b & j & H1 & H2 & _ & _ & H3 & _).
  - intros i n Hn. cbn. lia.
  - discriminate.
  - discriminate.
  - exists b, j. split; [exact H1|]. split; [exact H2|]. apply H3. discriminate.
Defined.
