(* ===== verification/DlqAdmin.v ===== *)
(** * Queue administration: [internal/dlq/admin.go]

    The commands of the administrator on the queue: they answer with a text, and
    [Replay] and [ReplayBatch] relay items again.  [Store] and [Relay] are not
    nil, as [main] sets them. *)
From S2P Require Import Prelude GoStrings GoRuntime GoTime GoJson Recipient DlqStore Metrics Email Trace.
From S2P Require Import World Backoff DlqWorker.

Open Scope Z_scope.
Open Scope go_scope.

Record Admin := mkAdmin {
  (** [DryRun] reads the program's state; it answers a text or an error. *)
  DryRun : option (World → bytes → bytes → res bytes);
  AdminWithReplay : option (Ctx → Ctx);
  AdminMaxRetries : Z;
  AdminBaseDelay : duration;
  AdminMaxDelay : duration;
}.

Definition admin_ctx (a : Admin) (ctx : Ctx) : Ctx :=
  match AdminWithReplay a with Some f => f ctx | None => ctx end.

Definition shortID (id : bytes) : bytes := if (length id <=? 12)%nat then id else take 12 id.
Definition fallback (v def : bytes) : bytes := if decide (trim_space v = []) then def else v.
Definition newline : bytes := [byte_of 10].

(** The statuses a mode selects. *)
Definition parseReplayBatchMode `{UnicodeTables} (mode : bytes) : res (Status → bool) :=
  let v := trim_space (to_lower mode) in
  if decide (v = [] ∨ v = "only_pending") then Ok (λ st, bool_decide (st = StatusPending))
  else if decide (v = "only_failed") then Ok (λ st, bool_decide (st = StatusFailed))
  else Err "Использование: /replay_batch <limit> [only_failed|only_pending]".

Section admin.
Context `{Replayer} (E : Env) (a : Admin).

Definition Summary : M bytes :=
  st ← gets (λ w, DlqStore.Stats (H:=runtime E) (store w));
  t ← now E;
  age ← gets (λ w, OldestPendingAge (H:=runtime E) (store w) t);
  let oldest := match age with
                | Some d => duration_string (Round d Second)
                | None => "нет"
                end in
  mret ("DLQ: pending=" ++ format_int (Pending st) ++ " failed=" ++ format_int (Failed st) ++
        " done=" ++ format_int (Done st) ++ " oldest_pending=" ++ oldest).

Definition list_line (item : Item) : bytes :=
  "- id=" ++ shortID (ID item) ++ " status=" ++ status item ++ " attempts=" ++
  format_int (Attempt item) ++ " updated=" ++ rfc3339 (UpdatedAt item) ++ " err=" ++
  fallback (LastError item) "-".

(** The list the store returns is sorted once more. *)
Definition List (limit : Z) : M bytes :=
  items ← gets (λ w, ListItems (H:=runtime E) (store w) limit);
  if decide (items = []) then mret ("DLQ пуст" : bytes) else
  let items := @sort_slice (runtime E) _ (λ x y, after (UpdatedAt x) (UpdatedAt y)) items in
  mret (join newline ("Последние элементы DLQ:" :: (list_line <$> items))).

Definition Replay (ctx : Ctx) (id : bytes) : M bytes :=
  let id := trim_space id in
  if decide (id = []) then mret ("Использование: /replay <id>" : bytes) else
  item ← gets (λ w, Get (store w) id);
  match item with
  | None => mret ("Элемент DLQ не найден: " ++ id)
  | Some item =>
    r ← relay (admin_ctx a ctx) (DlqStore.Recipient item) (RawMessage item);
    match r with
    | Some err =>
      t ← now E;
      let next := time_add t (nextDelay (wrap64 (Attempt item + 1)) (AdminBaseDelay a) (AdminMaxDelay a)) in
      m ← store_MarkRetry E (ID item) next (Some err) (AdminMaxRetries a);
      match m with
      | Some markErr =>
        mret ("Replay не удался: " ++ err ++ " (и не удалось обновить DLQ: " ++ markErr ++ ")")
      | None => mret ("Replay не удался: " ++ err)
      end
    | None =>
      m ← store_MarkDone E (ID item);
      match m with
      | Some err => mret ("Replay отправлен, но не удалось обновить DLQ: " ++ err)
      | None => mret ("Replay успешно выполнен: " ++ id)
      end
    end
  end.

Definition Show (id : bytes) : M bytes :=
  let id := trim_space id in
  if decide (id = []) then mret ("Использование: /dlq_show <id>" : bytes) else
  item ← gets (λ w, Get (store w) id);
  match item with
  | None => mret ("Элемент DLQ не найден: " ++ id)
  | Some item =>
    mret (join newline
      ["DLQ item " ++ ID item; "- recipient: " ++ DlqStore.Recipient item; "- status: " ++ status item;
       "- attempts: " ++ format_int (Attempt item); "- last_error: " ++ fallback (LastError item) "-";
       "- next_retry_at: " ++ rfc3339 (NextRetryAt item); "- created_at: " ++ rfc3339 (CreatedAt item);
       "- updated_at: " ++ rfc3339 (UpdatedAt item)])
  end.

Definition ReplayDry (id : bytes) : M bytes :=
  match DryRun a with
  | None => mret ("DLQ dry-run недоступен" : bytes)
  | Some dryRun =>
    let id := trim_space id in
    if decide (id = []) then mret ("Использование: /replay_dry <id>" : bytes) else
    item ← gets (λ w, Get (store w) id);
    match item with
    | None => mret ("Элемент DLQ не найден: " ++ id)
    | Some item =>
      r ← gets (λ w, dryRun w (DlqStore.Recipient item) (RawMessage item));
      match r with
      | Err e => mret ("Dry-run не прошёл: " ++ e)
      | Ok msg => mret ("Dry-run OK для " ++ id ++ ": " ++ msg)
      end
    end
  end.

(** The loop that selects at most [limit] items, stopping at the last. *)
Fixpoint select_items (want : Status → bool) (limit : nat) (l : list Item) : list Item :=
  match l, limit with
  | item :: l, S k => if want (status item) then item :: select_items want k l else select_items want limit l
  | _, _ => []
  end.

Definition success_prefix : bytes := "Replay успешно выполнен:".

(** The loop over the selected items, counting successes and failures. *)
Fixpoint replay_selected (ctx : Ctx) (l : list Item) (okCount failCount : Z) : M (Z * Z) :=
  match l with
  | [] => mret (okCount, failCount)
  | item :: l =>
    r ← Replay ctx (ID item);
    if has_prefix r success_prefix then replay_selected ctx l (okCount + 1) failCount
    else replay_selected ctx l okCount (failCount + 1)
  end.

Definition batch_report (n ok fail : Z) : bytes :=
  "Replay batch завершён: всего=" ++ format_int n ++ " ok=" ++ format_int ok ++ " failed=" ++ format_int fail.

(** The code first makes room for [limit] items; a limit for which there is none
    panics, see [allocatable]. *)
Definition ReplayBatch (ctx : Ctx) (limit : Z) (mode : bytes) : M bytes :=
  if limit <=? 0 then mret ("Использование: /replay_batch <limit> [only_failed|only_pending]" : bytes) else
  match parseReplayBatchMode (H:=tables E) mode with
  | Err e => mret e
  | Ok want =>
    items ← gets (λ w, ListItems (H:=runtime E) (store w) 1000000);
    let selected := select_items want (Z.to_nat limit) items in
    if decide (selected = []) then mret ("Нет элементов для replay_batch" : bytes) else
    c ← replay_selected ctx selected 0 0;
    mret (batch_report (Z.of_nat (length selected)) c.1 c.2)
  end.
End admin.

(** * Lemmas *)
Section proofs.
Context `{Replayer} (E : Env) (a : Admin) (ctx : Ctx).
Context (Hreplay : replaying (admin_ctx a ctx)).

(** A replay of a stored item: its effect on the store and its answer. *)
Lemma Replay_item id item w :
  trim_space id ≠ [] → items (store w) !! trim_space id = Some item → ID item = trim_space id →
  let r := (relay (admin_ctx a ctx) (DlqStore.Recipient item) (RawMessage item) w).1 in
  ∃ it', items (store (Replay E a ctx id w).2) = <[trim_space id := it']> (items (store w)) ∧
    settled (AdminMaxRetries a) r item it' ∧
    (r ≠ None → has_prefix (Replay E a ctx id w).1 success_prefix = false).
Proof using Hreplay.
  intros Hne Hit Hid. cbv zeta. unfold Replay. cbv zeta. rewrite decide_False by done.
  rewrite exec_bind, exec_gets. unfold Get. rewrite Hit. rewrite exec_bind.
  pose proof (relay_keeps_store (admin_ctx a ctx) (DlqStore.Recipient item) (RawMessage item) Hreplay w) as Hst.
  destruct (relay _ _ _ w) as [[e|] w1]; cbn [fst snd] in *; rewrite <- Hst in Hit |- *; rewrite <- Hid in *.
  - rewrite exec_bind, exec_now. cbv zeta. set (next := time_add _ _). set (w2 := set_tick _ w1). rewrite exec_bind.
    destruct (store_MarkRetry_items E (ID item) next (Some e) (AdminMaxRetries a) w2 item Hit) as [t Hi].
    destruct (store_MarkRetry _ _ _ _ _ w2) as [m w3]. cbn [snd] in Hi.
    exists (retry_item t next (Some e) (AdminMaxRetries a) item).
    destruct m; cbn [exec mret M_ret fst snd]; (split; [exact Hi|]; split;
      [split; [apply retry_item_same|apply retry_item_error]|reflexivity]).
  - rewrite exec_bind. destruct (store_MarkDone_items E (ID item) w1 item Hit) as [t Hi].
    destruct (store_MarkDone _ _ w1) as [m w3]. cbn [snd] in Hi.
    exists (with_updated t (with_status StatusDone item)).
    destruct m; cbn [exec mret M_ret fst snd]; (split; [exact Hi|]; split; [by split|done]).
Qed.
End proofs.

Lemma select_items_take want limit l :
  select_items want limit l = take limit (filter (λ it, want (status it) = true) l).
Proof.
  revert limit. induction l as [|it l IH]; intros [|k]; cbn [select_items]; try done.
  rewrite filter_cons. destruct (want (status it)) eqn:Hw; case_decide; try congruence; by rewrite IH.
Qed.

(** * Specification of a batch *)

(** [make([]Item, 0, limit)] does not panic: an [Item] has 184 bytes, and an
    allocation at most [2^48]. *)
Definition allocatable (limit : Z) : Prop := 184 * limit ≤ 2 ^ 48.

Definition batch_mode `{UnicodeTables} (mode : bytes) (wanted : Status) : Prop :=
  let word := trim_space (to_lower mode) in
  word = [] ∧ wanted = StatusPending ∨ word = "only_pending" ∧ wanted = StatusPending ∨
  word = "only_failed" ∧ wanted = StatusFailed.

(** An answer that reports success. *)
Definition reports_success (ans : bytes) : Prop := ("Replay успешно выполнен:" : bytes) `prefix_of` ans.
#[export] Instance reports_success_dec ans : Decision (reports_success ans).
Proof. unfold reports_success. apply _. Defined.

(** The items are replayed one after the other, each once and as it is in the store;
    the outcomes are what the relay returned and what [Replay] answered. *)
Inductive replays `{Replayer} (E : Env) (a : Admin) (ctx : Ctx) :
    World → list Item → list (option bytes * bytes) → World → Prop :=
  | replays_none w : replays E a ctx w [] [] w
  | replays_next w it its r ans w1 outcomes z :
      items (store w) !! ID it = Some it →
      r = (relay (admin_ctx a ctx) (DlqStore.Recipient it) (RawMessage it) w).1 →
      Replay E a ctx (ID it) w = (ans, w1) →
      replays E a ctx w1 its outcomes z → replays E a ctx w (it :: its) ((r, ans) :: outcomes) z.

Lemma parseReplayBatchMode_spec `{UnicodeTables} mode wanted :
  batch_mode mode wanted → ∃ want, parseReplayBatchMode mode = Ok want ∧ ∀ st, want st = bool_decide (st = wanted).
Proof.
  unfold batch_mode, parseReplayBatchMode. cbv zeta.
  intros [[-> ->]|[[-> ->]|[-> ->]]]; by eexists.
Qed.

Lemma has_success_prefix ans : has_prefix ans success_prefix = bool_decide (reports_success ans).
Proof.
  apply eq_true_iff_eq. rewrite bool_decide_eq_true. apply has_prefix_spec.
Qed.

Lemma replay_selected_spec `{Replayer} E a ctx l ok fail w :
  replaying (admin_ctx a ctx) → NoDup (ID <$> l) →
  Forall (λ it, items (store w) !! ID it = Some it ∧ ID it ≠ [] ∧ trim_space (ID it) = ID it) l →
  ∃ outcomes w', replays E a ctx w l outcomes w' ∧
    replay_selected E a ctx l ok fail w =
      ((ok + Z.of_nat (length (filter reports_success outcomes.*2)),
        fail + Z.of_nat (length (filter (λ ans, ¬ reports_success ans) outcomes.*2))), w') ∧
    Forall2 (λ it o, ∃ it', items (store w') !! ID it = Some it' ∧ settled (AdminMaxRetries a) o.1 it it' ∧
      (reports_success o.2 → o.1 = None)) l outcomes ∧
    (∀ id, id ∉ ID <$> l → items (store w') !! id = items (store w) !! id).
Proof.
  intros Hrep. revert ok fail w. induction l as [|it l IH]; intros ok fail w Hnd Hl.
  { exists [], w. cbn. rewrite !Z.add_0_r. by split_and!; [constructor|..|constructor|]. }
  cbn [fmap list_fmap] in Hnd. apply NoDup_cons in Hnd as [Hid Hnd].
  apply Forall_cons in Hl as [(Hit & Hne & Htrim) Hl]. cbn [replay_selected]. rewrite exec_bind.
  destruct (Replay_item E a ctx Hrep (ID it) it w) as (it' & Hst & Hset & Hfail); [by rewrite ?Htrim..|].
  rewrite Htrim in Hst. destruct (Replay E a ctx (ID it) w) as [ans w1] eqn:Hans. cbn [fst snd] in *.
  rewrite has_success_prefix in Hfail |- *.
  set (r := (relay (admin_ctx a ctx) (DlqStore.Recipient it) (RawMessage it) w).1) in *.
  destruct (IH (ok + (if bool_decide (reports_success ans) then 1 else 0))
    (fail + (if bool_decide (reports_success ans) then 0 else 1)) w1 Hnd) as (outcomes & w' & Hreps & Hrun & Hset' & Hoth).
  { apply Forall_forall. intros j Hj. rewrite Forall_forall in Hl. destruct (Hl j Hj) as [Hi Hj']. split; [|done].
    rewrite Hst, lookup_insert_ne; [done|]. intros Heq. apply Hid. rewrite Heq. by apply list_elem_of_fmap_2. }
  exists ((r, ans) :: outcomes), w'. split_and!.
  - by eapply replays_next.
  - cbn [fmap list_fmap snd]. rewrite !filter_cons.
    destruct (bool_decide (reports_success ans)) eqn:Hb; bprop.
    + rewrite decide_True, decide_False by naive_solver. rewrite Z.add_0_r in Hrun. rewrite Hrun. cbn [length].
      do 2 f_equal; lia.
    + rewrite decide_False, decide_True by naive_solver. rewrite Z.add_0_r in Hrun. rewrite Hrun. cbn [length].
      do 2 f_equal; lia.
  - constructor; [|done]. exists it'. rewrite Hoth, Hst, lookup_insert_eq by done. split_and!; [done|done|].
    cbn. intros Hs%(bool_decide_eq_true_2 _). destruct r; [|done]. by rewrite Hfail in Hs.
  - intros id Hn. rewrite Hoth by set_solver. rewrite Hst. apply lookup_insert_ne. set_solver.
Qed.

(** * Properties *)

(** Replaying an item by hand relays it once and settles it as the worker
    does: done if the relay succeeded, and otherwise one more attempt with the
    error, pending or failed by the budget; no other item changes; and the
    answer reports success only if the relay succeeded. *)
Theorem Replay_settles `{Replayer} E a ctx id item w :
  replaying (admin_ctx a ctx) → store_wf (store w) →
  trim_space id ≠ [] → items (store w) !! trim_space id = Some item →
  let r := (relay (admin_ctx a ctx) (DlqStore.Recipient item) (RawMessage item) w).1 in
  ∃ it', items (store (Replay E a ctx id w).2) = <[trim_space id := it']> (items (store w)) ∧
    settled (AdminMaxRetries a) r item it' ∧
    (has_prefix (Replay E a ctx id w).1 success_prefix = true → r = None ∧ status it' = StatusDone).
Proof.
  intros Hrep Hwf Hne Hit r.
  destruct (Replay_item E a ctx Hrep id item w Hne Hit (Hwf _ _ Hit)) as (it' & Hi & Hset & Hfail).
  exists it'. split_and!; [done|done|]. intros Hok. fold r in Hset, Hfail. destruct r as [e|].
  - by rewrite Hfail in Hok.
  - split; [done|]. by destruct Hset as (_ & Hs & _).
Qed.

Definition wit_admin : Admin := mkAdmin None None 1 Second (5 * Minute).

Lemma Replay_settles_witness :
  ∃ it', items (store (Replay (H:=refusing) wit_env wit_admin Background one_item_id wit_world).2) !! one_item_id = Some it' ∧
    status it' = StatusFailed.
Proof.
  assert (trim_space one_item_id = one_item_id) as Ht by (apply trim_space_plain, hex_plain).
  destruct (Replay_settles (H:=refusing) wit_env wit_admin Background one_item_id one_item wit_world I
    one_item_store_wf) as (it' & Hi & (_ & _ & _ & Hs) & _).
  - rewrite Ht. vm_compute. discriminate.
  - rewrite Ht. exact one_item_store_lookup.
  - exists it'. rewrite Hi, Ht. split; [apply lookup_insert_eq|exact Hs].
Defined.

(** C38. A batch replay.  It takes the items of the wanted status, pending or failed by
    the mode, in the order the store lists them (last changed first), at most [limit]
    of them and none twice; it replays each once, in that order, and settles it by the
    result of its relay, leaving every other item as it is; and its report says how
    many items there were, how many of the answers report success, which they do only
    if the relay succeeded, and how many do not. *)
Theorem ReplayBatch_accounts `{Replayer} E a ctx limit mode wanted w :
  0 < limit → allocatable limit → batch_mode (H:=tables E) mode wanted → replaying (admin_ctx a ctx) → store_wf (store w) →
  map_Forall (λ id _, id ≠ [] ∧ trim_space id = id) (items (store w)) →
  let selected := take (Z.to_nat limit) (filter (λ it, status it = wanted) (ListItems (H:=runtime E) (store w) 1000000)) in
  selected ≠ [] →
  ∃ outcomes w', replays E a ctx w selected outcomes w' ∧
    ReplayBatch E a ctx limit mode w =
      ("Replay batch завершён: всего=" ++ format_int (Z.of_nat (length selected)) ++
       " ok=" ++ format_int (Z.of_nat (length (filter reports_success outcomes.*2))) ++
       " failed=" ++ format_int (Z.of_nat (length (filter (λ ans, ¬ reports_success ans) outcomes.*2))), w') ∧
    NoDup (ID <$> selected) ∧
    Forall2 (λ it o, ∃ it', items (store w') !! ID it = Some it' ∧ settled (AdminMaxRetries a) o.1 it it' ∧
      (reports_success o.2 → o.1 = None)) selected outcomes ∧
    (∀ id, id ∉ ID <$> selected → items (store w') !! id = items (store w) !! id).
Proof.
  intros Hl _ (want & Hm & Hw)%parseReplayBatchMode_spec Hrep Hwf Hids selected Hne.
  unfold ReplayBatch. destruct (Z.leb_spec limit 0); [lia|].
  rewrite Hm, exec_bind, exec_gets. cbv zeta. rewrite select_items_take.
  assert (filter (λ it, want (status it) = true) (ListItems (H:=runtime E) (store w) 1000000) =
    filter (λ it, status it = wanted) (ListItems (H:=runtime E) (store w) 1000000)) as ->.
  { apply list_filter_iff. intros it. by rewrite Hw, bool_decide_eq_true. }
  fold selected. rewrite decide_False by done. rewrite exec_bind.
  assert (sublist selected (ListItems (H:=runtime E) (store w) 1000000)) as Hsub.
  { unfold selected. etrans; [apply sublist_take|apply sublist_filter]. }
  assert (NoDup (ID <$> selected)) as Hnd.
  { eapply sublist_NoDup; [apply (NoDup_ListItems (H:=runtime E)), Hwf|]. by apply fmap_sublist. }
  destruct (replay_selected_spec E a ctx selected 0 0 w Hrep Hnd) as (outcomes & w' & Hreps & Hrun & Hset & Hoth).
  { apply Forall_forall. intros it Hit.
    assert (∃ id, items (store w) !! id = Some it) as [id Hi].
    { eapply elem_of_ListItems, elem_of_sublist; [exact Hit|exact Hsub]. }
    pose proof (Hwf _ _ Hi) as Heq. simpl in Heq. subst id. split; [exact Hi|]. exact (Hids _ _ Hi). }
  exists outcomes, w'. rewrite Hrun. split_and!; done.
Qed.

Lemma one_item_ids : map_Forall (λ id _, id ≠ [] ∧ trim_space id = id) (items (store wit_world)).
Proof.
  intros id it Hi. cbn [store wit_world] in Hi. destruct (decide (id = one_item_id)) as [->|Hne].
  - split; [vm_compute; discriminate|]. apply trim_space_plain, hex_plain.
  - exfalso. revert Hi. rewrite one_item_store_items, lookup_singleton_ne by done. discriminate.
Qed.
Lemma ReplayBatch_accounts_witness :
  ∃ w', ReplayBatch (H:=refusing) wit_env wit_admin Background 7 "only_pending" wit_world =
    ("Replay batch завершён: всего=1 ok=0 failed=1", w').
Proof.
  destruct (ReplayBatch_accounts (H:=refusing) wit_env wit_admin Background 7 "only_pending" StatusPending wit_world)
    as (outcomes & w' & _ & Hr & _ & Hset & _).
  - reflexivity.
  - unfold allocatable. lia.
  - right; left. split; [vm_compute; reflexivity|reflexivity].
  - exact I.
  - exact one_item_store_wf.
  - exact one_item_ids.
  - vm_compute. discriminate.
  - exists w'. assert ((ReplayBatch (H:=refusing) wit_env wit_admin Background 7 "only_pending" wit_world).1 =
      "Replay batch завершён: всего=1 ok=0 failed=1") as Hans by (vm_compute; reflexivity).
    rewrite Hr in Hans |- *. exact (f_equal (λ ans, (ans, w')) Hans).
Defined.

(** A store whose one item has been delivered. *)
Definition done_store : FileStore :=
  (MarkDone (H:=stable_runtime) unix_epoch PersistOk one_item_store one_item_id).2.

(** [Replay] does not look at the status: the administrator can replay an item
    that has been delivered, and if that replay fails the item is pending again,
    so that the worker will deliver the message a second time. *)
Theorem Replay_revives_done :
  let w := set_store done_store wit_world in
  let a := mkAdmin None None 10 Second (5 * Minute) in
  (status <$> items done_store !! one_item_id = Some StatusDone) ∧
  (status <$> items (store (Replay (H:=refusing) wit_env a Background one_item_id w).2) !! one_item_id
     = Some StatusPending) ∧
  due_ids (H:=stable_runtime) (unix_epoch + Hour) done_store = [] ∧
  due_ids (H:=stable_runtime) (unix_epoch + Hour)
    (store (Replay (H:=refusing) wit_env a Background one_item_id w).2) = [one_item_id].
Proof. vm_compute. split_and!; reflexivity. Qed.
