(* ===== verification/Smtp.v ===== *)
(** * The SMTP server: [internal/smtp/server.go]

    A session reads lines and answers them.  Its input is the list of what its calls
    of [ReadString] give, one after the other: complete lines, each with its line
    feed, and errors, after which reading can go on (a deadline that has passed);
    the end of the list is [io.EOF]. *)
From S2P Require Import Prelude GoStrings GoRuntime GoJson Recipient DlqStore Metrics Email Trace World.
From S2P Require Import Relay.

Open Scope Z_scope.
Open Scope go_scope.

Record Server := mkServer {
  domain : bytes;
  maxBytes : Z;
}.

(** What a call of [ReadString] gives: a line, or an error other than [io.EOF]. *)
Inductive line_read := Line (line : bytes) | ReadFailed (err : bytes).

Definition lf : bytes := [byte_of 10].
Definition crlf : bytes := [byte_of 13; byte_of 10].

(** [extractSMTPPath] *)
Definition extractSMTPPath (v : bytes) : bytes :=
  trim_space (trim_cutset "<>" (trim_space v)).

Definition isAllowedRecipient `{UnicodeTables} (addr allowedDomain : bytes) : bool :=
  let a := trim_cutset "<>" (trim_space (to_lower addr)) in
  has_suffix a ("@" ++ to_lower (trim_space allowedDomain)).

Definition end_of_data (line : bytes) : bool :=
  bool_decide (line = "." ++ crlf) || bool_decide (line = "." ++ lf).

(** The loop of [readData], with the buffer so far; what is not read remains. *)
Fixpoint readData (max : Z) (buf : bytes) (input : list line_read) : res bytes * list line_read :=
  match input with
  | [] => (Err "EOF", [])
  | ReadFailed err :: rest => (Err err, rest)
  | Line line :: rest =>
    if end_of_data line then (Ok buf, rest) else
    let line := if has_prefix line ".." then drop 1 line else line in
    if max <? Z.of_nat (length buf + length line) then (Err "too large", rest)
    else readData max (buf ++ line) rest
  end.

Record Session := mkSession {
  rcpts : list bytes;
  authenticated : bool;
}.

(** What a command leads to: the lines written, the session, the input left, and
    whether the connection stays open. *)
Record Step := mkStep {
  replies : list bytes;
  session : Session;
  rest : list line_read;
  open : bool;
}.

Section server.
Context (E : Env) (svc : Service) (srv : Server) (ctx : Ctx).

(** The loop over the recipients, until a relay fails. *)
Fixpoint relay_all (raw : bytes) (rs : list bytes) : M bool :=
  match rs with
  | [] => mret true
  | rcpt :: rs =>
    r ← Relay E svc ctx rcpt raw;
    match r with
    | Some _ => mret false
    | None => relay_all raw rs
    end
  end.

Definition reply (l : list bytes) (s : Session) (input : list line_read) : Step := mkStep l s input true.

(** The body of the command loop, for the line just read. *)
Definition handle_command (s : Session) (line : bytes) (input : list line_read) : M Step :=
  let cmd := trim_space line in
  let ucmd := to_upper (H:=tables E) cmd in
  if has_prefix ucmd "EHLO" then
    mret (reply ["250-Hello"; "250-AUTH PLAIN"; "250 SIZE " ++ format_int (maxBytes srv)] s input)
  else if has_prefix ucmd "HELO" then mret (reply ["250 Hello"] s input)
  else if has_prefix ucmd "AUTH PLAIN" then
    mret (reply ["235 2.7.0 Authentication successful"] (mkSession (rcpts s) true) input)
  else if has_prefix ucmd "MAIL FROM:" then
    mret (reply ["250 OK"] (mkSession [] (authenticated s)) input)
  else if has_prefix ucmd "RCPT TO:" then
    let addr := extractSMTPPath (drop (length ("RCPT TO:" : bytes)) cmd) in
    if decide (addr = []) then mret (reply ["501 bad recipient"] s input) else
    if negb (isAllowedRecipient (H:=tables E) addr (domain srv)) then
      mret (reply ["550 recipient domain is not allowed"] s input)
    else
    p ← gets recipients;
    match Recipient.Parse (H:=tables E) p addr with
    | Err _ => mret (reply ["550 recipient is invalid"] s input)
    | Ok _ => mret (reply ["250 OK"] (mkSession (rcpts s ++ [addr]) (authenticated s)) input)
    end
  else if decide (ucmd = "DATA") then
    if decide (rcpts s = []) then mret (reply ["503 need RCPT TO first"] s input) else
    let go_ahead : bytes := "354 End data with <CR><LF>.<CR><LF>" in
    match readData (maxBytes srv) ([] : bytes) input with
    | (Err _, input) => mret (reply [go_ahead; "552 message exceeds fixed maximum message size"] s input)
    | (Ok raw, input) =>
      ok ← relay_all raw (rcpts s);
      mret (reply [go_ahead; if (ok : bool) then "250 OK" else "451 relay failure"] s input)
    end
  else if decide (ucmd = "RSET") then mret (reply ["250 OK"] (mkSession [] (authenticated s)) input)
  else if decide (ucmd = "NOOP") then mret (reply ["250 OK"] s input)
  else if decide (ucmd = "QUIT") then mret (mkStep ["221 Bye"] s input false)
  else mret (reply ["502 command not implemented"] s input).

(** The command loop; every round reads, so as many rounds as the input is long are
    enough.  [None]: out of fuel. *)
Fixpoint command_loop (fuel : nat) (s : Session) (input : list line_read) : M (option (list bytes)) :=
  match input with
  | [] => mret (Some [])
  | ReadFailed _ :: _ => mret (Some ["421 read error"])
  | Line line :: input =>
    match fuel with
    | O => mret None
    | S fuel =>
      st ← handle_command s line input;
      if open (st : Step) then
        l ← command_loop fuel (session st) (rest st);
        mret (app (replies st) <$> l)
      else mret (Some (replies st))
    end
  end.

(** [handleConn], with the context of the session; the lines it writes. *)
Definition handleConn (input : list line_read) : M (list bytes) :=
  l ← command_loop (length input) (mkSession [] false) input;
  mret ("220 smtp-to-max-relay ESMTP" :: default [] l).
End server.

Definition session_ctx (ctx : Ctx) (sessionID : Z) : Ctx :=
  WithRequestID ctx ("smtp-" ++ format_int sessionID).

(** * Specification and lemmas *)

(** What a conforming client makes of a line: one that starts with a dot gets
    another. *)
Definition stuff (line : bytes) : bytes := if has_prefix line "." then "." ++ line else line.

(** A reply line: three digits, then a space or a hyphen. *)
Definition smtp_reply (r : bytes) : Prop :=
  match r with
  | a :: b :: c :: d :: _ =>
    forallb (λ x, is_digit (code x)) [a; b; c] = true ∧ (d = " "%char ∨ d = "-"%char)
  | _ => False
  end.

Lemma readData_rest max buf input :
  (length (readData max buf input).2 ≤ length input)%nat ∧ (readData max buf input).2 `suffix_of` input.
Proof.
  revert buf. induction input as [|[line|err] input IH]; intros buf; cbn [readData];
    [done| |split; [simpl; lia|by exists [ReadFailed err]]].
  destruct (end_of_data line); [split; [simpl; lia|by exists [Line line]]|].
  split_if; [split; [simpl; lia|by exists [Line line]]|].
  match goal with |- context [readData max ?b input] => destruct (IH b) as [H1 [k H2]] end.
  split; [simpl; lia|]. exists (Line line :: k). simpl. by rewrite <- H2.
Qed.

Section proofs.
Context (E : Env) (svc : Service) (srv : Server) (ctx : Ctx).

(** What has to be sent for one recipient; nothing if it does not parse. *)
Definition planned_for (p : parser) (raw rcpt : bytes) : list send :=
  match Recipient.Parse (H:=tables E) p rcpt, EmailParse svc raw with
  | Ok pr, Ok em => planned pr em
  | _, _ => []
  end.
Definition deliverable (p : parser) (raw rcpt : bytes) : Prop :=
  is_ok (Recipient.Parse (H:=tables E) p rcpt) = true ∧ is_ok (EmailParse svc raw) = true.

Lemma Relay_successes rcpt raw w :
  let r := (Relay E svc ctx rcpt raw w).1 in
  let w' := (Relay E svc ctx rcpt raw w).2 in
  ∃ log, sent w' = sent w ++ log ∧ recipients w' = recipients w ∧
    (r = None → deliverable (recipients w) raw rcpt ∧ store w' = store w ∧
       successes log = planned_for (recipients w) raw rcpt) ∧
    successes log `prefix_of` planned_for (recipients w) raw rcpt.
Proof.
  destruct (Relay_effect E svc ctx rcpt raw w) as (log & H1 & H2 & H). cbv zeta.
  exists log. split; [done|]. split; [done|]. revert H. unfold relay_effect, planned_for, deliverable.
  destruct (Recipient.Parse _ _) as [pr|e], (EmailParse svc raw) as [em|e'];
    try (intros (Hr & -> & _); rewrite Hr; split; [done|apply prefix_nil]).
  intros [l Hl|done x rest l1 l2 e msg s' Hx Hd1 Hd2 Hq].
  - rewrite (deliveries_successes _ _ _ Hl). done.
  - split; [done|]. rewrite Hx, successes_app, (deliveries_successes _ _ _ Hd1).
    inversion Hd2; subst. rewrite successes_fails, app_nil_r. by eexists.
Qed.

Lemma relay_all_spec raw rs w :
  let ok := (relay_all E svc ctx raw rs w).1 in
  let w' := (relay_all E svc ctx raw rs w).2 in
  ∃ log, sent w' = sent w ++ log ∧ recipients w' = recipients w ∧
    (if ok then
       Forall (deliverable (recipients w) raw) rs ∧ store w' = store w ∧
       successes log = concat (planned_for (recipients w) raw <$> rs)
     else ∃ done r rest part,
       rs = done ++ r :: rest ∧ Forall (deliverable (recipients w) raw) done ∧
       successes log = concat (planned_for (recipients w) raw <$> done) ++ part ∧
       part `prefix_of` planned_for (recipients w) raw r).
Proof.
  cbv zeta. revert w. induction rs as [|rcpt rs IH]; intros w; cbn [relay_all].
  { exists []. rewrite app_nil_r. split_and!; try done; constructor. }
  rewrite exec_bind. destruct (Relay_successes rcpt raw w) as (l1 & Hs & Hr & Hok & Hpre).
  destruct (Relay _ _ _ _ _ w) as [[e|] w1]; cbn [fst snd] in *.
  - exists l1. split_and!; [done|done|]. exists [], rcpt, rs, (successes l1). by split_and!.
  - destruct (Hok eq_refl) as (Hd & Hst & Hsucc).
    destruct (IH w1) as (l2 & Hs2 & Hr2 & H2). rewrite Hr in Hr2, H2.
    exists (l1 ++ l2). rewrite Hs2, Hs, app_assoc, successes_app, Hsucc. split_and!; [done|done|].
    destruct (relay_all _ _ _ _ _ w1) as [[] w2]; cbn [fst snd] in *.
    + destruct H2 as (Hf & Hst2 & Hl2). rewrite Hst2, Hst, Hl2. by split_and!; [constructor|..].
    + destruct H2 as (done & r & rest & part & -> & Hf & Hl2 & Hp).
      exists (rcpt :: done), r, rest, part. rewrite Hl2. cbn [fmap list_fmap concat]. rewrite app_assoc.
      by split_and!; [..|constructor| |].
Qed.

(** A recipient the server may accept with alias table [p]. *)
Definition acceptable (p : parser) (addr : bytes) : Prop :=
  addr ≠ [] ∧ isAllowedRecipient (H:=tables E) addr (domain srv) = true ∧
  is_ok (Recipient.Parse (H:=tables E) p addr) = true.

Lemma handle_command_inv s line input w :
  let st := (handle_command E svc srv ctx s line input w).1 in
  let w' := (handle_command E svc srv ctx s line input w).2 in
  recipients w' = recipients w ∧
  (Forall (acceptable (recipients w)) (rcpts s) → Forall (acceptable (recipients w)) (rcpts (session st))) ∧
  (length (rest st) ≤ length input)%nat ∧ rest st `suffix_of` input ∧
  replies st ≠ [] ∧ Forall smtp_reply (replies st).
Proof.
  cbv zeta. unfold handle_command. cbv zeta.
  repeat match goal with
  | |- context [if ?b then _ else _] => destruct b eqn:?
  end; try (by split_and!; [..|repeat constructor]).
  - rewrite exec_bind, exec_gets.
    set (addr := extractSMTPPath _) in *. destruct (Recipient.Parse _ addr) as [pr|e] eqn:Hp;
      cbn [exec mret M_ret fst snd reply session rest replies rcpts]; split_and!; try done; try (by repeat constructor).
    intros Hs. apply Forall_app. split; [done|]. constructor; [|done]. apply negb_false_iff in Heqb4.
    by split_and!; [..|rewrite Hp].
  - pose proof (readData_rest (maxBytes srv) [] input) as [Hlen Hsuf].
    destruct (readData (maxBytes srv) [] input) as [[raw|err] rest']; cbn [fst snd] in *;
      [|by split_and!; [..|repeat constructor]].
    rewrite exec_bind. destruct (relay_all_spec raw (rcpts s) w) as (log & _ & Hr & _).
    destruct (relay_all _ _ _ _ _ w) as [ok w1]. cbn [exec mret M_ret fst snd reply session rest replies] in *.
    split_and!; try done. destruct ok; by repeat constructor.
Qed.
End proofs.

(** ** A session as its transcript

    What a session writes, said command by command and without the order in which
    the code looks at them: which lines are commands, what each is answered, which
    recipients it leaves, where a message ends and how a session does. *)
Section transcript.
Context (E : Env) (svc : Service) (srv : Server) (ctx : Ctx).

Definition command (line : bytes) : bytes := to_upper (H:=tables E) (trim_space line).
Definition starts (line verb : bytes) : Prop := ∃ arg, command line = verb ++ arg.
Definition unknown (line : bytes) : Prop :=
  (∀ verb, verb ∈ ["EHLO"; "HELO"; "AUTH PLAIN"; "MAIL FROM:"; "RCPT TO:"] → ¬ starts line verb) ∧
  command line ∉ (["DATA"; "RSET"; "NOOP"; "QUIT"] : list bytes).
Definition path_of (line : bytes) : bytes := extractSMTPPath (drop 8 (trim_space line)).

(** The lines of a message: none is the end mark; a line that starts with two dots
    loses one; and all of them together have at most the maximum size. *)
Definition end_mark (line : bytes) : Prop := line = "." ++ crlf ∨ line = "." ++ lf.
Definition unstuff (line : bytes) : bytes := if has_prefix line ".." then drop 1 line else line.
Definition content (body : list bytes) : bytes := concat (unstuff <$> body).
Definition fits (body : list bytes) : Prop := body = [] ∨ Z.of_nat (length (content body)) ≤ maxBytes srv.

(** A message is read up to its end mark. *)
Definition message_read (input : list line_read) (raw : bytes) (tail : list line_read) : Prop :=
  ∃ body mark, input = (Line <$> body) ++ Line mark :: tail ∧ Forall (λ l, ¬ end_mark l) body ∧ end_mark mark ∧
    fits body ∧ raw = content body.
(** Or it is given up at the line that makes it too long, at a read error or at the
    end of the input. *)
Definition message_refused (input tail : list line_read) : Prop :=
  ∃ body, Forall (λ l, ¬ end_mark l) body ∧ fits body ∧
    ((∃ line, input = (Line <$> body) ++ Line line :: tail ∧ ¬ end_mark line ∧ ¬ fits (body ++ [line])) ∨
     (∃ err, input = (Line <$> body) ++ ReadFailed err :: tail) ∨
     (input = Line <$> body ∧ tail = [])).

(** The recipients are relayed to in order, up to the first failure. *)
Inductive relayed (raw : bytes) : list bytes → World → bool → World → Prop :=
  | relayed_all w : relayed raw [] w true w
  | relayed_next rcpt rs w w1 ok w2 :
      Relay E svc ctx rcpt raw w = (None, w1) → relayed raw rs w1 ok w2 → relayed raw (rcpt :: rs) w ok w2
  | relayed_failed rcpt rs w e w1 :
      Relay E svc ctx rcpt raw w = (Some e, w1) → relayed raw (rcpt :: rs) w false w1.

(** [command_run rs line input w out rs' input' w']: with the recipients [rs] the
    command is answered by [out] and leaves the recipients [rs']. *)
Inductive command_run (rs : list bytes) (line : bytes) (input : list line_read) (w : World) :
    list bytes → list bytes → list line_read → World → Prop :=
  | run_ehlo : starts line "EHLO" → command_run rs line input w
      ["250-Hello"; "250-AUTH PLAIN"; "250 SIZE " ++ format_int (maxBytes srv)] rs input w
  | run_helo : starts line "HELO" → command_run rs line input w ["250 Hello"] rs input w
  | run_auth : starts line "AUTH PLAIN" →
      command_run rs line input w ["235 2.7.0 Authentication successful"] rs input w
  | run_mail : starts line "MAIL FROM:" → command_run rs line input w ["250 OK"] [] input w
  | run_rcpt_ok : starts line "RCPT TO:" → acceptable E srv (recipients w) (path_of line) →
      command_run rs line input w ["250 OK"] (rs ++ [path_of line]) input w
  | run_rcpt_empty : starts line "RCPT TO:" → path_of line = [] →
      command_run rs line input w ["501 bad recipient"] rs input w
  | run_rcpt_foreign : starts line "RCPT TO:" → path_of line ≠ [] →
      isAllowedRecipient (H:=tables E) (path_of line) (domain srv) = false →
      command_run rs line input w ["550 recipient domain is not allowed"] rs input w
  | run_rcpt_invalid : starts line "RCPT TO:" → path_of line ≠ [] →
      isAllowedRecipient (H:=tables E) (path_of line) (domain srv) = true →
      is_ok (Recipient.Parse (H:=tables E) (recipients w) (path_of line)) = false →
      command_run rs line input w ["550 recipient is invalid"] rs input w
  | run_data_early : command line = "DATA" → rs = [] → command_run rs line input w ["503 need RCPT TO first"] rs input w
  | run_data_refused tail : command line = "DATA" → rs ≠ [] → message_refused input tail →
      command_run rs line input w
        ["354 End data with <CR><LF>.<CR><LF>"; "552 message exceeds fixed maximum message size"] rs tail w
  | run_data_ok raw tail w' : command line = "DATA" → rs ≠ [] → message_read input raw tail → relayed raw rs w true w' →
      command_run rs line input w ["354 End data with <CR><LF>.<CR><LF>"; "250 OK"] rs tail w'
  | run_data_failed raw tail w' : command line = "DATA" → rs ≠ [] → message_read input raw tail → relayed raw rs w false w' →
      command_run rs line input w ["354 End data with <CR><LF>.<CR><LF>"; "451 relay failure"] rs tail w'
  | run_rset : command line = "RSET" → command_run rs line input w ["250 OK"] [] input w
  | run_noop : command line = "NOOP" → command_run rs line input w ["250 OK"] rs input w
  | run_unknown : unknown line → command_run rs line input w ["502 command not implemented"] rs input w.

(** A session goes on until [QUIT], a read error or the end of the input. *)
Inductive session_run : list bytes → list line_read → World → list bytes → World → Prop :=
  | run_end rs w : session_run rs [] w [] w
  | run_error rs err input w : session_run rs (ReadFailed err :: input) w ["421 read error"] w
  | run_quit rs line input w : command line = "QUIT" → session_run rs (Line line :: input) w ["221 Bye"] w
  | run_command rs line input w out rs' input' w' out' w'' :
      command_run rs line input w out rs' input' w' → session_run rs' input' w' out' w'' →
      session_run rs (Line line :: input) w (out ++ out') w''.

Lemma end_of_data_spec line : end_of_data line = true ↔ end_mark line.
Proof. unfold end_of_data, end_mark. by rewrite orb_true_iff, !bool_decide_eq_true. Qed.
Lemma end_of_data_false line : end_of_data line = false ↔ ¬ end_mark line.
Proof. rewrite <- end_of_data_spec. by destruct (end_of_data line). Qed.
Lemma content_app a b : content (a ++ b) = content a ++ content b.
Proof. unfold content. by rewrite fmap_app, concat_app. Qed.
Lemma content_snoc a line : content (a ++ [line]) = content a ++ unstuff line.
Proof. rewrite content_app. unfold content at 2. cbn. by rewrite app_nil_r. Qed.
Lemma fits_app a b : fits (a ++ b) → fits a.
Proof.
  intros [Hn|Hl]; [left; by apply app_eq_nil in Hn as [-> _]|right].
  rewrite content_app, length_app in Hl. lia.
Qed.
Lemma fits_snoc a line : fits (a ++ [line]) ↔ Z.of_nat (length (content a) + length (unstuff line)) ≤ maxBytes srv.
Proof.
  unfold fits. rewrite content_snoc, length_app. split; [|by right]. by intros [Hn|Hl]; [destruct a|].
Qed.

(** A line in the middle of a message. *)
Lemma readData_line pre line input :
  ¬ end_mark line →
  readData (maxBytes srv) (content pre) (Line line :: input) =
  if maxBytes srv <? Z.of_nat (length (content pre) + length (unstuff line)) then (Err "too large", input)
  else readData (maxBytes srv) (content (pre ++ [line])) input.
Proof. intros Hl%end_of_data_false. cbn [readData]. by rewrite Hl, content_snoc. Qed.

Lemma readData_finds pre input :
  Forall (λ l, ¬ end_mark l) pre → fits pre →
  match readData (maxBytes srv) (content pre) input with
  | (Ok raw, tail) => message_read ((Line <$> pre) ++ input) raw tail
  | (Err _, tail) => message_refused ((Line <$> pre) ++ input) tail
  end.
Proof.
  revert pre. induction input as [|[line|err] input IH]; intros pre Hpre Hfit.
  - exists pre. split_and!; [done|done|]. right; right. by rewrite app_nil_r.
  - destruct (end_of_data line) eqn:He.
    + cbn [readData]. rewrite He. exists pre, line. by rewrite <- end_of_data_spec.
    + apply end_of_data_false in He. rewrite readData_line by done.
      destruct (Z.ltb_spec (maxBytes srv) (Z.of_nat (length (content pre) + length (unstuff line)))) as [Hm|Hm].
      * exists pre. split_and!; [done|done|]. left. exists line. split_and!; [done|done|]. rewrite fits_snoc. lia.
      * replace ((Line <$> pre) ++ Line line :: input) with ((Line <$> pre ++ [line]) ++ input)
          by (by rewrite fmap_app, <- app_assoc).
        apply IH; [apply Forall_app; by split; [|constructor]|by apply fits_snoc].
  - cbn [readData]. exists pre. split_and!; [done|done|]. right; left. by exists err.
Qed.

Lemma readData_body pre body input :
  Forall (λ l, ¬ end_mark l) body → fits (pre ++ body) →
  readData (maxBytes srv) (content pre) ((Line <$> body) ++ input) = readData (maxBytes srv) (content (pre ++ body)) input.
Proof.
  revert pre. induction body as [|line body IH]; intros pre Hb Hf; [by rewrite app_nil_r|].
  apply Forall_cons in Hb as [Hl Hb]. rewrite cons_middle, app_assoc in Hf |- *.
  cbn [fmap list_fmap app]. rewrite readData_line by done. pose proof (fits_app _ _ Hf) as Hl'%fits_snoc.
  destruct (Z.ltb_spec (maxBytes srv) (Z.of_nat (length (content pre) + length (unstuff line)))); [lia|].
  by apply IH.
Qed.
Lemma message_read_readData input raw tail :
  message_read input raw tail → readData (maxBytes srv) [] input = (Ok raw, tail).
Proof.
  intros (body & mark & -> & Hb & Hm & Hf & ->). rewrite (readData_body [] body) by done. cbn [readData app].
  by apply end_of_data_spec in Hm as ->.
Qed.
Lemma message_refused_readData input tail :
  message_refused input tail → ∃ e, readData (maxBytes srv) [] input = (Err e, tail).
Proof.
  intros (body & Hb & Hf & [(line & -> & Hl & Hnf)|[(err & ->)|[-> ->]]]).
  - rewrite (readData_body [] body) by done. rewrite readData_line by done. cbn [app].
    rewrite fits_snoc in Hnf. eexists. destruct (Z.ltb_spec (maxBytes srv) (Z.of_nat (length (content body) + length (unstuff line))));
      [reflexivity|lia].
  - rewrite (readData_body [] body) by done. by eexists.
  - rewrite <- (app_nil_r (Line <$> body)), (readData_body [] body) by done. by eexists.
Qed.

Lemma relayed_relay_all raw rs w ok w' : relayed raw rs w ok w' ↔ relay_all E svc ctx raw rs w = (ok, w').
Proof.
  split.
  - induction 1 as [|rcpt rs w w1 ok w2 Hr _ IH|rcpt rs w e w1 Hr]; [done|..];
      cbn [relay_all]; rewrite exec_bind, Hr; [exact IH|done].
  - revert w. induction rs as [|rcpt rs IH]; intros w; cbn [relay_all].
    { intros [= <- <-]. constructor. }
    rewrite exec_bind. destruct (Relay E svc ctx rcpt raw w) as [[e|] w1] eqn:Hr.
    + intros [= <- <-]. by eapply relayed_failed.
    + intros H%IH. by eapply relayed_next.
Qed.

Lemma starts_prefix line verb : starts line verb ↔ has_prefix (command line) verb = true.
Proof. split; [intros [arg ->]; apply has_prefix_app|apply has_prefix_inv]. Qed.

(** What the code does with a line is what the transcript says, [QUIT] apart. *)
Lemma command_runs s line input w :
  let st := (handle_command E svc srv ctx s line input w).1 in
  let w' := (handle_command E svc srv ctx s line input w).2 in
  open st = true ∧ command_run (rcpts s) line input w (replies st) (rcpts (session st)) (rest st) w' ∨
  command line = "QUIT" ∧ open st = false ∧ replies st = ["221 Bye"] ∧ w' = w.
Proof.
  cbv zeta. unfold handle_command. cbv zeta. fold (command line). fold (path_of line).
  do 4 (match goal with |- context [if ?b then _ else _] => destruct b eqn:?Hv end; [left; split; [done|]; by constructor; apply starts_prefix|]).
  match goal with |- context [if ?b then _ else _] => destruct b eqn:Hrcpt end.
  { left. apply starts_prefix in Hrcpt. change (extractSMTPPath _) with (path_of line).
    case_decide as Hn; [by split; [|apply run_rcpt_empty]|].
    destruct (isAllowedRecipient _ _) eqn:Ha; cbn [negb]; [|by split; [|apply run_rcpt_foreign]].
    rewrite exec_bind, exec_gets. destruct (Recipient.Parse _ _) eqn:Hp; cbn; (split; [done|]).
    - apply run_rcpt_ok; [done|]. split_and!; [done..|by rewrite Hp].
    - apply run_rcpt_invalid; [done..|by rewrite Hp]. }
  case_decide as Hdata.
  { left. case_decide as Hn; [by split; [|apply run_data_early]|].
    pose proof (readData_finds [] input (Forall_nil_2 _) (or_introl eq_refl)) as Hr. cbn [content fmap list_fmap concat app] in Hr.
    destruct (readData _ _ _) as [[raw|e] tail]; [|by split; [|apply run_data_refused]].
    rewrite exec_bind. destruct (relay_all _ _ _ _ _ w) as [ok w'] eqn:Hl. apply relayed_relay_all in Hl. cbn.
    split; [done|]. destruct ok; [by eapply run_data_ok|by eapply run_data_failed]. }
  case_decide; [left; by split; [|apply run_rset]|]. case_decide; [left; by split; [|apply run_noop]|].
  case_decide; [by right|]. left. split; [done|]. apply run_unknown. split.
  - intros verb Hin Hs%starts_prefix. rewrite !elem_of_cons, elem_of_nil in Hin. naive_solver congruence.
  - rewrite !elem_of_cons, elem_of_nil. naive_solver.
Qed.

(** Computes which verb a given command is. *)
#[local] Ltac verbs :=
  repeat match goal with
  | |- context [has_prefix (?p ++ _) ?p] => rewrite has_prefix_app
  | |- context [has_prefix ?v ?p] =>
    lazymatch v with command _ => fail | _ => idtac end;
    let b := eval lazy in (has_prefix v p) in
    match b with false => idtac end; change (has_prefix v p) with b; cbv iota
  | |- context [decide (?v = ?k)] =>
    lazymatch v with command _ => fail | path_of _ => fail | rcpts _ => fail | _ => idtac end;
    lazymatch eval lazy in (decide (v = k)) with
    | left _ => rewrite (decide_True (P:=v = k)) by done
    | right _ => rewrite (decide_False (P:=v = k)) by done
    end
  end.

(** And the transcript leaves it no choice. *)
Lemma command_run_det s line input w out rs' input' w' :
  command_run (rcpts s) line input w out rs' input' w' →
  ∃ s', handle_command E svc srv ctx s line input w = (mkStep out s' input' true, w') ∧ rcpts s' = rs'.
Proof.
  intros Hrun. unfold handle_command. cbv zeta. fold (command line).
  change (extractSMTPPath _) with (path_of line).
  destruct Hrun as [Hc|Hc|Hc|Hc|Hc (Hne & Ha & Hp)|Hc Hp|Hc Hp Ha|Hc Hp Ha Hi
    |Hc Hn|tail Hc Hn Hm|raw tail w' Hc Hn Hm Hl|raw tail w' Hc Hn Hm Hl|Hc|Hc|[Hv Hw]];
    try match goal with Hs : starts _ _ |- _ => destruct Hs as [a Hs] end; try rewrite Hc; verbs; try by eexists.
  - rewrite decide_False, Ha by done. cbn [negb]. rewrite exec_bind, exec_gets. destruct (Recipient.Parse _ _); [by eexists|done].
  - rewrite decide_True by done. by eexists.
  - rewrite decide_False, Ha by done. by eexists.
  - rewrite decide_False, Ha by done. cbn [negb]. rewrite exec_bind, exec_gets. destruct (Recipient.Parse _ _); [done|by eexists].
  - rewrite (decide_True (P:=rcpts s = [])) by done. by eexists.
  - rewrite (decide_False (P:=rcpts s = [])) by done. apply message_refused_readData in Hm as [e ->]. by eexists.
  - rewrite (decide_False (P:=rcpts s = [])) by done. rewrite (message_read_readData _ _ _ Hm), exec_bind.
    apply relayed_relay_all in Hl as ->. by eexists.
  - rewrite (decide_False (P:=rcpts s = [])) by done. rewrite (message_read_readData _ _ _ Hm), exec_bind.
    apply relayed_relay_all in Hl as ->. by eexists.
  - assert (∀ verb, verb ∈ ["EHLO"; "HELO"; "AUTH PLAIN"; "MAIL FROM:"; "RCPT TO:"] → has_prefix (command line) verb = false) as Hpre.
    { intros verb Hin. apply not_true_is_false. rewrite <- starts_prefix. by apply Hv. }
    rewrite !Hpre by set_solver. rewrite !not_elem_of_cons in Hw. destruct Hw as (? & ? & ? & ? & _).
    rewrite !decide_False by done. by eexists.
Qed.

Lemma command_loop_runs fuel s input w :
  (length input ≤ fuel)%nat →
  ∃ out w', command_loop E svc srv ctx fuel s input w = (Some out, w') ∧ session_run (rcpts s) input w out w'.
Proof.
  revert s input w. induction fuel as [|fuel IH]; intros s [|[line|err] input] w Hl; cbn [command_loop length] in *;
    try lia; try (eexists _, _; split; [done|constructor]).
  rewrite exec_bind. pose proof (command_runs s line input w) as Hc.
  destruct (handle_command_inv E svc srv ctx s line input w) as (_ & _ & Hlen & _).
  destruct (handle_command _ _ _ _ _ _ _ w) as [st w1]. cbn [fst snd] in *.
  destruct Hc as [[-> Hrun]|(Hq & -> & -> & ->)]; [|eexists _, _; split; [done|by constructor]].
  destruct (IH (session st) (rest st) w1) as (out & w2 & E2 & Hr); [lia|].
  rewrite exec_bind, E2. eexists _, _. split; [done|]. by econstructor.
Qed.

Lemma session_run_det rs input w out w' :
  session_run rs input w out w' → ∀ s fuel, rcpts s = rs → (length input ≤ fuel)%nat →
  command_loop E svc srv ctx fuel s input w = (Some out, w').
Proof.
  induction 1 as [|rs err input w|rs line input w Hq|rs line input w out rs' input' w1 out' w2 Hc Hr IH]; intros s fuel <- Hl.
  - by destruct fuel.
  - by destruct fuel.
  - destruct fuel as [|fuel]; cbn [length] in Hl; [lia|]. cbn [command_loop]. rewrite exec_bind.
    unfold handle_command. cbv zeta. fold (command line). by rewrite Hq.
  - destruct fuel as [|fuel]; cbn [length] in Hl; [lia|]. cbn [command_loop]. rewrite exec_bind.
    destruct (handle_command_inv E svc srv ctx s line input w) as (_ & _ & Hlen & _).
    apply command_run_det in Hc as (s' & Hc & <-). rewrite Hc in Hlen |- *. cbn in Hlen |- *.
    rewrite exec_bind, IH by (done || lia). done.
Qed.
End transcript.

(** * Properties *)

(** C31. Dot stuffing.  Whatever lines a conforming client sends as a message no
    longer than the limit, the server receives exactly these lines, and goes on
    reading after the end mark. *)
Theorem readData_roundtrip max body tail :
  Z.of_nat (length (concat body)) ≤ max →
  readData max [] ((Line ∘ stuff <$> body) ++ Line ("." ++ crlf) :: tail) = (Ok (concat body), tail).
Proof.
  intros Hmax.
  assert (∀ buf, Z.of_nat (length (buf ++ concat body)) ≤ max →
    readData max buf ((Line ∘ stuff <$> body) ++ Line ("." ++ crlf) :: tail) = (Ok (buf ++ concat body), tail)) as H;
    [|by apply (H [])].
  clear Hmax. induction body as [|line body IH]; intros buf Hb; [by rewrite app_nil_r|].
  cbn [fmap list_fmap app concat compose] in *. cbn [readData].
  assert (end_of_data (stuff line) = false ∧
    (if has_prefix (stuff line) ".." then drop 1 (stuff line) else stuff line) = line) as [-> ->].
  { unfold stuff, end_of_data. destruct (has_prefix line ".") eqn:Hd.
    - apply has_prefix_inv in Hd as [k ->]. by destruct k.
    - destruct line as [|a line]; [done|]. cbn [has_prefix] in *.
      assert (has_prefix line [] = true) as Hnil by by destruct line.
      rewrite Hnil, andb_true_r in Hd. rewrite Hd. apply bool_decide_eq_false_1 in Hd.
      split; [|done]. rewrite orb_false_iff, !bool_decide_eq_false. split; intros [= ??]; congruence. }
  rewrite !length_app in Hb. destruct (Z.ltb_spec max (Z.of_nat (length buf + length line))); [lia|].
  rewrite IH; [by rewrite <- app_assoc|]. rewrite !length_app. lia.
Qed.

Lemma readData_roundtrip_witness :
  readData 20 [] ((Line ∘ stuff <$> ["a" ++ crlf; "." ++ crlf; "..b" ++ crlf]) ++ Line ("." ++ crlf) :: [Line ("QUIT" ++ crlf)]) =
  (Ok ("a" ++ crlf ++ "." ++ crlf ++ "..b" ++ crlf), [Line ("QUIT" ++ crlf)]).
Proof. rewrite readData_roundtrip; [reflexivity|]. vm_compute. discriminate. Defined.

(** C32. Only valid recipients.  Whatever commands are sent, the recipients of the
    session are non-empty, of the server's domain, and resolve to chats under
    the alias table; each command is answered by at least one well-formed reply
    line; and the input left is a suffix of the input. *)
Theorem session_recipients_valid E svc srv ctx s line input w :
  Forall (acceptable E srv (recipients w)) (rcpts s) →
  let st := (handle_command E svc srv ctx s line input w).1 in
  let w' := (handle_command E svc srv ctx s line input w).2 in
  Forall (acceptable E srv (recipients w')) (rcpts (session st)) ∧
  replies st ≠ [] ∧ Forall smtp_reply (replies st) ∧ rest st `suffix_of` input.
Proof.
  intros Hs. destruct (handle_command_inv E svc srv ctx s line input w) as (Hr & Hf & _ & Hsuf & Hne & Hrep).
  cbv zeta. rewrite Hr. by split_and!; [apply Hf|..].
Qed.

(** C11. What the answer to a message means.  After [DATA], [250 OK] says that the
    message was within the limit and every piece of it was delivered to every
    recipient, in order and once; [451] says that it was delivered to the
    recipients before some [r], that the pieces for [r] stop short, and that
    the later recipients got nothing; [552] says that nothing was sent. *)
Theorem DATA_reply E svc srv ctx s line input w :
  to_upper (H:=tables E) (trim_space line) = "DATA" → rcpts s ≠ [] →
  let st := (handle_command E svc srv ctx s line input w).1 in
  let w' := (handle_command E svc srv ctx s line input w).2 in
  ∃ final log, replies st = ["354 End data with <CR><LF>.<CR><LF>"; final] ∧
  session st = s ∧ sent w' = sent w ++ log ∧
  match readData (maxBytes srv) [] input with
  | (Err _, tail) => final = "552 message exceeds fixed maximum message size" ∧ rest st = tail ∧ w' = w
  | (Ok raw, tail) => rest st = tail ∧
    (final = "250 OK" ∧ Forall (deliverable E svc (recipients w) raw) (rcpts s) ∧ store w' = store w ∧
       successes log = concat (planned_for E svc (recipients w) raw <$> rcpts s) ∨
     final = "451 relay failure" ∧ ∃ done r later part, rcpts s = done ++ r :: later ∧
       Forall (deliverable E svc (recipients w) raw) done ∧
       successes log = concat (planned_for E svc (recipients w) raw <$> done) ++ part ∧
       part `prefix_of` planned_for E svc (recipients w) raw r)
  end.
Proof.
  intros Hc Hne. unfold handle_command. cbv zeta. rewrite Hc.
  repeat match goal with |- context [has_prefix "DATA" ?p] =>
    change (has_prefix "DATA" p) with false; cbv iota end.
  rewrite (decide_True (P:="DATA" = "DATA")), decide_False by done.
  destruct (readData (maxBytes srv) [] input) as [[raw|e] tail].
  - rewrite exec_bind. destruct (relay_all_spec E svc ctx raw (rcpts s) w) as (log & Hl & Hr & H).
    destruct (relay_all _ _ _ _ _ w) as [ok w1]. cbn [exec mret M_ret fst snd reply session rest replies] in *.
    eexists _, log. split_and!; [done|done|done|done|]. destruct ok; [left|right]; (split; [reflexivity|exact H]).
  - eexists _, []. cbn. by rewrite app_nil_r.
Qed.

(** ** Concrete sessions *)
Definition demo_server : Server := mkServer "relay.local" 40.
Definition line_of (s : bytes) : bytes := s ++ crlf.
Definition up (n : nat) (x : send) : option bytes := None.
Definition demo_session (input : list bytes) : list bytes * World :=
  handleConn (demo_env up) demo_service demo_server (session_ctx Background 1)
    (Line ∘ line_of <$> input) demo_world.

Lemma session_recipients_valid_witness :
  let st := (handle_command (demo_env up) demo_service demo_server Background (mkSession [] false)
               (line_of "rcpt to:<OPS@relay.local>") [] demo_world).1 in
  rcpts (session st) = ["OPS@relay.local"] ∧
  Forall (acceptable (demo_env up) demo_server (recipients demo_world)) (rcpts (session st)).
Proof.
  intros st. split; [vm_compute; reflexivity|].
  apply (session_recipients_valid (demo_env up) demo_service demo_server Background (mkSession [] false)
    (line_of "rcpt to:<OPS@relay.local>") [] demo_world). constructor.
Defined.

Lemma DATA_reply_witness :
  ∃ log, sent (handle_command (demo_env chat2_down) demo_service demo_server Background
      (mkSession ["chatid1@relay.local"; "chatid2@relay.local"] false) (line_of "data")
      [Line (line_of "hello"); Line (line_of ".")] demo_world).2 = sent demo_world ++ log ∧
    ∃ done r later part, ["chatid1@relay.local"; "chatid2@relay.local"] = done ++ r :: later ∧
      successes log = concat (planned_for (demo_env chat2_down) demo_service (recipients demo_world)
        ("hello" ++ crlf) <$> done) ++ part.
Proof.
  destruct (DATA_reply (demo_env chat2_down) demo_service demo_server Background
    (mkSession ["chatid1@relay.local"; "chatid2@relay.local"] false) (line_of "data")
    [Line (line_of "hello"); Line (line_of ".")] demo_world) as (final & log & Hrep & _ & Hs & H).
  - vm_compute. reflexivity.
  - discriminate.
  - exists log. split; [exact Hs|].
    change (readData _ _ _) with (Ok ("hello" ++ crlf) : res bytes, [] : list line_read) in H.
    destruct H as [_ [[Hf _]|[_ (done & r & later & part & H1 & _ & H2 & _)]]].
    + exfalso. clear -Hrep Hf. subst final. revert Hrep. vm_compute. discriminate.
    + exists done, r, later, part. exact (conj H1 H2).
Defined.

(** C39. A session, whole.  Whatever comes from the client, the session ends, and what
    it writes and does is what the transcript [session_run] says and nothing else:
    each command gets the answer and leaves the recipients the transcript gives it, a
    message goes up to its end mark or is given up exactly when it is too long or
    reading fails, each recipient is relayed to in order up to the first failure, and
    the session ends exactly at [QUIT], at a read error or at the end of the input. *)
Theorem session_transcript E svc srv ctx input w :
  ∃ out w', handleConn E svc srv ctx input w = ("220 smtp-to-max-relay ESMTP" :: out, w') ∧
    session_run E svc srv ctx [] input w out w' ∧
    ∀ out2 w2, session_run E svc srv ctx [] input w out2 w2 → out2 = out ∧ w2 = w'.
Proof.
  destruct (command_loop_runs E svc srv ctx (length input) (mkSession [] false) input w) as (out & w' & Hl & Hr); [lia|].
  exists out, w'. split; [unfold handleConn; by rewrite exec_bind, Hl|]. split; [exact Hr|].
  intros out2 w2 H2. eapply session_run_det with (s := mkSession [] false) (fuel := length input) in H2; [|done|lia].
  rewrite Hl in H2. by injection H2.
Qed.

(** After a message over the size limit is refused with [552], the rest of the
    message is not skipped: its lines are read as commands.  Here one message
    that is too long carries, in its body, a second message that the client did
    not send as such, and that is delivered. *)
Theorem oversize_data_becomes_commands :
  let '(out, w) := demo_session
    ["EHLO x"; "MAIL FROM:<a@b>"; "RCPT TO:<chatid1@relay.local>"; "DATA";
     "this one line is longer than forty bytes allow"; 
     "RSET"; "RCPT TO:<chatid7@relay.local>"; "DATA"; "smuggled"; "."; "QUIT"] in
  drop 6 out = ["354 End data with <CR><LF>.<CR><LF>"; "552 message exceeds fixed maximum message size";
                "250 OK"; "250 OK"; "354 End data with <CR><LF>.<CR><LF>"; "250 OK"; "221 Bye"] ∧
  (s_chat <$> successes (sent w)) = ["7"; "7"].
Proof. vm_compute. split; reflexivity. Qed.

(** A message's recipients outlive it: after a delivery the recipient list is
    not emptied, so a second [DATA] without [MAIL] and [RCPT] is accepted and
    goes to the recipients of the first. *)
Theorem recipients_survive_data :
  let '(out, w) := demo_session
    ["MAIL FROM:<a@b>"; "RCPT TO:<chatid1@relay.local>"; "DATA"; "one"; "."; "DATA"; "two"; "."; "QUIT"] in
  out = ["220 smtp-to-max-relay ESMTP"; "250 OK"; "250 OK"; "354 End data with <CR><LF>.<CR><LF>"; "250 OK";
         "354 End data with <CR><LF>.<CR><LF>"; "250 OK"; "221 Bye"] ∧
  (s_chat <$> successes (sent w)) = ["1"; "1"; "1"; "1"].
Proof. vm_compute. split; reflexivity. Qed.

(** A message answered with [451], which asks the client to send it again, is in
    the queue as well, so that it can be delivered twice. *)
Lemma refused_and_queued :
  let '(out, w) := handleConn (demo_env chat2_down) demo_service demo_server (session_ctx Background 1)
    (Line ∘ line_of <$> ["RCPT TO:<chatid2@relay.local>"; "DATA"; "x"; "."]) demo_world in
  last out = Some "451 relay failure" ∧
  (RawMessage <$> (map_to_list (items (store w))).*2) = ["x" ++ crlf].
Proof. vm_compute. split; reflexivity. Qed.
