(* ===== verification/Listener.v ===== *)
(** * The SMTP listener: [NewServer] and [ListenAndServe] of
    [internal/smtp/server.go]

    The accept loop and the session goroutines as a transition system.  A step is
    what one goroutine does between two synchronisations: the semaphore
    [s.concurrency] (a buffered channel), the wait group and [Accept]. *)
From S2P Require Import Prelude GoStrings Trace Smtp.

Open Scope Z_scope.
Open Scope go_scope.

(** Where the accept loop is; the connection accepted is in hand from [Accepted]
    to the start of its goroutine. *)
Inductive accept_phase :=
  | Accepting
  | Accepted
  | SlotTaken
  (** The deferred [wg.Wait()]; then [ListenAndServe] has returned. *)
  | Draining (r : option bytes)
  | Returned (r : option bytes).

(** A session's goroutine: in [handleConn], or after [<-s.concurrency]. *)
Inductive stage := Serving | Released.
#[export] Instance stage_eq_dec : EqDecision stage.
Proof. solve_decision. Defined.

Record Listener := mkListener {
  (** The elements in the channel. *)
  concurrency : nat;
  sessionSeq : Z;
  wg : nat;
  goroutines : list (Z * stage);
  loop : accept_phase;
}.

(** [ListenAndServe] up to the loop. *)
Definition listen (err : option bytes) : Listener :=
  mkListener 0 0 0 [] (match err with Some e => Returned (Some ("listen: " ++ e)) | None => Accepting end).

(** After a failed [Accept]: [ctx.Err() != nil], and whether the error is a
    temporary [net.Error]. *)
Definition accept_failed (ctx_done temporary : bool) (e : bytes) : accept_phase :=
  if ctx_done then Draining None
  else if temporary then Accepting
  else Draining (Some ("accept: " ++ e)).

Definition next_session (seq : Z) : Z := (seq + 1) mod 2 ^ 64.

(** [capacity] is [maxConcurrentSessions]. *)
Inductive listener_step (capacity : nat) : Listener → Listener → Prop :=
  | accept_step c q g l : listener_step capacity (mkListener c q g l Accepting) (mkListener c q g l Accepted)
  | accept_error_step c q g l ctx_done temporary e :
      listener_step capacity (mkListener c q g l Accepting)
        (mkListener c q g l (accept_failed ctx_done temporary e))
  | admit_step c q g l :
      (c < capacity)%nat →
      listener_step capacity (mkListener c q g l Accepted) (mkListener (S c) q g l SlotTaken)
  | start_step c q g l :
      listener_step capacity (mkListener c q g l SlotTaken)
        (mkListener c (next_session q) (S g) (l ++ [(next_session q, Serving)]) Accepting)
  | release_step c q g l1 l2 id p :
      listener_step capacity (mkListener (S c) q g (l1 ++ (id, Serving) :: l2) p)
        (mkListener c q g (l1 ++ (id, Released) :: l2) p)
  | done_step c q g l1 l2 id p :
      listener_step capacity (mkListener c q (S g) (l1 ++ (id, Released) :: l2) p)
        (mkListener c q g (l1 ++ l2) p)
  | drained_step c q l r :
      listener_step capacity (mkListener c q 0 l (Draining r)) (mkListener c q 0 l (Returned r)).

(** The sessions in [handleConn]. *)
Definition serving (l : list (Z * stage)) : list Z := (filter (λ x, x.2 = Serving) l).*1.

(** * The invariant *)
Definition slot_taken (p : accept_phase) : nat := match p with SlotTaken => 1 | _ => 0 end.

Record listener_wf (capacity : nat) (s : Listener) : Prop := {
  wf_slots : concurrency s = (length (serving (goroutines s)) + slot_taken (loop s))%nat;
  wf_capacity : (concurrency s ≤ capacity)%nat;
  wf_wg : wg s = length (goroutines s);
  wf_returned : match loop s with Returned _ => goroutines s = [] | _ => True end;
}.

Lemma serving_app l1 l2 : serving (l1 ++ l2) = serving l1 ++ serving l2.
Proof. unfold serving. by rewrite filter_app, fmap_app. Qed.

Lemma serving_Serving id l : serving ((id, Serving) :: l) = id :: serving l.
Proof. unfold serving. by rewrite filter_cons_True. Qed.
Lemma serving_Released id l : serving ((id, Released) :: l) = serving l.
Proof. unfold serving. by rewrite filter_cons_False. Qed.
Lemma length_serving_insert id st l1 l2 :
  length (serving (l1 ++ (id, st) :: l2)) =
  (length (serving (l1 ++ l2)) + match st with Serving => 1 | Released => 0 end)%nat.
Proof.
  rewrite !serving_app. destruct st; rewrite ?serving_Serving, ?serving_Released, !length_app; cbn; lia.
Qed.

Lemma listen_wf capacity err : listener_wf capacity (listen err).
Proof. split; destruct err; cbn; try done; lia. Qed.

Lemma listener_step_wf capacity s s' : listener_wf capacity s → listener_step capacity s s' → listener_wf capacity s'.
Proof.
  intros [H1 H2 H3 H4] Hst.
  destruct Hst as [c q g l|c q g l cd tmp e|c q g l Hc|c q g l|c q g l1 l2 id p|c q g l1 l2 id p|c q l r];
    cbn [concurrency sessionSeq wg goroutines loop slot_taken] in *.
  - by split.
  - unfold accept_failed. by destruct cd, tmp; split.
  - split; cbn [concurrency wg goroutines loop slot_taken]; [lia|lia|done|done].
  - split; cbn [concurrency wg goroutines loop slot_taken]; [|done|rewrite length_app; cbn; lia|done].
    rewrite length_serving_insert, app_nil_r. cbn. lia.
  - rewrite length_serving_insert in H1.
    split; cbn [concurrency wg goroutines loop]; [|lia|rewrite length_app in *; cbn in *; lia|].
    + rewrite length_serving_insert. cbn in *. lia.
    + destruct p; try done. by destruct l1.
  - rewrite length_serving_insert in H1.
    split; cbn [concurrency wg goroutines loop]; [|done|rewrite length_app in *; cbn in *; lia|].
    + cbn in H1. lia.
    + destruct p; try done. by destruct l1.
  - split; cbn; try done. by apply nil_length_inv.
Qed.

Lemma listener_steps_wf capacity s s' :
  listener_wf capacity s → rtc (listener_step capacity) s s' → listener_wf capacity s'.
Proof. intros Hwf. induction 1; eauto using listener_step_wf. Qed.

(** Session numbers: fresh until the counter wraps around. *)
Definition numbered (n : nat) (s : Listener) : Prop :=
  0 ≤ sessionSeq s ≤ Z.of_nat n ∧ NoDup (goroutines s).*1 ∧
  Forall (λ id, 0 < id ≤ sessionSeq s) (goroutines s).*1.

Lemma listener_step_numbered capacity n s s' :
  Z.of_nat n + 1 < 2 ^ 64 → numbered n s → listener_step capacity s s' → numbered (S n) s'.
Proof.
  intros Hn ((Hq0 & Hq) & Hnd & Hall) Hst.
  destruct Hst as [c q g l|c q g l cd tmp e|c q g l Hc|c q g l|c q g l1 l2 id p|c q g l1 l2 id p|c q l r];
    unfold numbered; cbn [concurrency sessionSeq wg goroutines loop] in *;
    try (split_and!; [lia|lia|done|done]).
  - unfold next_session. rewrite Z.mod_small by lia. rewrite fmap_app. cbn.
    split_and!; [lia|lia| |].
    + apply NoDup_app. split_and!; [done| |apply NoDup_singleton].
      intros id Hid ->%list_elem_of_singleton. rewrite Forall_forall in Hall. apply Hall in Hid. lia.
    + apply Forall_app. split; [|by constructor; [lia|]].
      eapply Forall_impl; [exact Hall|]. intros id. cbn. lia.
  - rewrite !fmap_app in *. cbn in *. split_and!; [lia|lia|done|done].
  - rewrite fmap_app in *. cbn in *. split_and!; [lia|lia| |].
    + apply NoDup_app in Hnd as (? & Hd & [? ?]%NoDup_cons). apply NoDup_app. split_and!; [done| |done].
      intros x Hx Hx'. apply (Hd x Hx). by right.
    + apply Forall_app in Hall as [? [? ?]%Forall_cons]. by apply Forall_app.
Qed.

Lemma listener_steps_numbered capacity n err s :
  Z.of_nat n < 2 ^ 64 → nsteps (listener_step capacity) n (listen err) s → numbered n s.
Proof.
  intros Hn Hst. revert n s Hn Hst. induction n as [|n IH]; intros s Hn Hst.
  - inversion Hst; subst. unfold numbered. cbn. split_and!; [lia|lia|constructor|constructor].
  - apply nsteps_inv_r in Hst as (s1 & H1 & H2). eapply listener_step_numbered; [lia| |exact H2]. apply IH; [lia|done].
Qed.

(** * Properties *)

(** C23. The semaphore bounds the load: at every moment at most
    [maxConcurrentSessions] connections are being served, under every
    interleaving of the accept loop and the sessions; and [ListenAndServe]
    returns, for whatever reason, only once every session it started has
    ended. *)
Theorem sessions_bounded capacity err s :
  rtc (listener_step capacity) (listen err) s →
  (length (serving (goroutines s)) ≤ capacity)%nat ∧ (∀ r, loop s = Returned r → goroutines s = []).
Proof.
  intros Hst. destruct (listener_steps_wf capacity _ _ (listen_wf capacity err) Hst) as [H1 H2 _ H4].
  split; [lia|]. intros r Hr. by rewrite Hr in H4.
Qed.

(** One session let in and served, with a capacity of one. *)
Definition one_session : Listener := mkListener 1 1 1 [(1, Serving)] Accepting.
Lemma one_session_steps : nsteps (listener_step 1) 3 (listen None) one_session.
Proof.
  eapply nsteps_l; [apply accept_step|]. eapply nsteps_l; [apply admit_step; lia|].
  eapply nsteps_l; [apply start_step|]. constructor.
Qed.
Lemma sessions_bounded_witness : serving (goroutines one_session) = [1] ∧ (length (serving (goroutines one_session)) ≤ 1)%nat.
Proof.
  split; [reflexivity|]. apply (sessions_bounded 1 None one_session). apply rtc_nsteps. exists 3%nat. exact one_session_steps.
Defined.

Lemma session_request_id ctx id : RequestID (session_ctx ctx id) = "smtp-" ++ format_int id.
Proof.
  assert (trim_space ("smtp-" ++ format_int id) = "smtp-" ++ format_int id) as Ht.
  { apply trim_space_plain. rewrite forallb_app, format_int_plain. reflexivity. }
  unfold RequestID, session_ctx, WithRequestID. rewrite Ht. cbv zeta. by rewrite decide_False.
Qed.

(** Two sessions alive at the same time never carry the same request id, as long
    as the server has made fewer than 2^63 steps. *)
Theorem request_ids_distinct capacity n err s ctx i j a b :
  Z.of_nat n < 2 ^ 63 → nsteps (listener_step capacity) n (listen err) s →
  goroutines s !! i = Some a → goroutines s !! j = Some b →
  RequestID (session_ctx ctx a.1) = RequestID (session_ctx ctx b.1) → i = j.
Proof.
  intros Hn Hst Ha Hb. rewrite !session_request_id. intros Heq%app_inj_1; [|done].
  destruct (listener_steps_numbered capacity n err s) as ((_ & Hq) & Hnd & Hall); [lia|done|].
  apply (list_lookup_fmap_Some_2 fst) in Ha, Hb. rewrite Forall_lookup in Hall.
  assert (in_int64 a.1 ∧ in_int64 b.1) as [Ha64 Hb64].
  { apply Hall in Ha, Hb. unfold in_int64, int64_min, int64_max. lia. }
  apply (NoDup_lookup _ i j a.1 Hnd Ha).
  assert (a.1 = b.1) as ->; [|exact Hb].
  destruct Heq as [_ Heq]. apply (f_equal parse_int) in Heq. rewrite !parse_format_int in Heq by done. congruence.
Qed.

Definition two_sessions : Listener := mkListener 2 2 2 [(1, Serving); (2, Serving)] Accepting.
Lemma two_sessions_steps : nsteps (listener_step 2) 6 (listen None) two_sessions.
Proof.
  do 2 (eapply nsteps_l; [apply accept_step|]; eapply nsteps_l; [apply admit_step; lia|];
    eapply nsteps_l; [apply start_step|]). constructor.
Qed.
Lemma request_ids_distinct_witness :
  RequestID (session_ctx Background 1) ≠ RequestID (session_ctx Background 2).
Proof.
  intros Heq.
  assert (0%nat = 1%nat); [|discriminate].
  apply (request_ids_distinct 2 6 None two_sessions Background 0 1 (1, Serving) (2, Serving));
    [reflexivity|exact two_sessions_steps|reflexivity|reflexivity|exact Heq].
Defined.
