(* ===== verification/Version.v ===== *)
(** * The version: [internal/version/version.go]

    The linker may set the two variables. *)
From S2P Require Import Prelude GoStrings.

Open Scope go_scope.

Definition baseVersion : bytes := "0.2".
Record Build := mkBuild { BuildNumber : bytes; BuildSuffix : bytes }.
Definition default_build : Build := mkBuild "0" "".

Definition BotVersion (b : Build) : bytes :=
  let build := trim_space (BuildNumber b) in
  let build := if decide (build = []) then "0" else build in
  let version := baseVersion ++ "." ++ build in
  let suffix := trim_space (BuildSuffix b) in
  if decide (suffix ≠ []) then version ++ "-" ++ suffix else version.
