(* ===== verification/BotHelp.v ===== *)
(** * Commands and help texts: [internal/max/bot_help.go] *)
From S2P Require Import Prelude GoStrings Version.

Open Scope Z_scope.
Open Scope go_scope.

(** ** A format with indexed string verbs, [%[n]s] *)
Inductive piece := Lit (s : bytes) | Arg (i : nat).

Definition sprintf (template : list piece) (args : list bytes) : bytes :=
  concat ((λ p, match p with Lit s => s | Arg i => default [] (args !! i) end) <$> template).

Definition nl : bytes := [byte_of 10].
Definition Quote : piece := Lit [dquote].

Definition infoReplyTemplate : list piece :=
  [Lit "Привет! Я бот для доставки сообщений в MAX через email 📩"; Lit nl;
   Lit nl;
   Arg 0; Lit nl;
   Lit nl;
   Lit "Отправь письмо на один из адресов:"; Lit nl;
   Lit "- "; Arg 1; Lit "@"; Arg 2; Lit nl;
   Lit "- "; Arg 1; Lit ".silent@"; Arg 2; Lit nl;
   Lit nl;
   Arg 3; Lit ": "; Arg 4; Lit nl;
   Lit nl;
   Lit "И я перешлю сообщение сюда. "; Lit nl;
   Lit nl;
   Lit "Версия бота: "; Arg 5; Lit nl;
   Lit nl;
   Lit "Я могу слать сообщения как напрямую тебе так и в групповой чат, для этого нужно добавить меня администратором в групповой чат с доступом к чтению сообщений, после чего в чат отправить сообщение /help, затем я пришлю информацию с email после меня можно из администраторов чата убрать."; Lit nl;
   Lit nl;
   Lit "Команды бота:"; Lit nl;
   Lit "- /start — показать персональный адрес"; Lit nl;
   Lit "- /hello или /help — показать адрес текущего чата"; Lit nl;
   Lit "- /alias <name> <chatid...|число> — (admin) добавить/обновить alias"; Lit nl;
   Lit "- /unalias <name> — (admin) удалить alias"; Lit nl;
   Lit "- /stats7d — (admin) статистика relay за 7 дней"; Lit nl;
   Lit "- /stats30d — (admin) статистика relay за 30 дней"; Lit nl;
   Lit "- /aliases — (admin) показать список алиасов и chatid"; Lit nl;
   Lit nl;
   Lit "Технические параметры (если настраиваешь отправку вручную):"; Lit nl;
   Lit "SMTP: "; Arg 2; Lit nl;
   Lit "Порт: 25"; Lit nl;
   Lit "Авторизация: не требуется (можно указать любые логин/пароль)"; Lit nl;
   Lit nl;
   Lit "Примеры отправки:"; Lit nl;
   Lit nl;
   Lit "PowerShell:"; Lit nl;
   Lit "Send-MailMessage -SmtpServer "; Quote; Arg 2; Quote; Lit " -Port 25 -From "; Quote; Lit "test@test.loc"; Quote; Lit " -To "; Quote; Arg 1; Lit "@"; Arg 2; Quote; Lit " -Subject "; Quote; Lit "Test"; Quote; Lit " -Body "; Quote; Lit "Message text"; Quote; Lit nl;
   Lit nl;
   Lit "curl:"; Lit nl;
   Lit "curl smtp://"; Arg 2; Lit ":25 --mail-from "; Quote; Lit "test@test.loc"; Quote; Lit " --mail-rcpt "; Quote; Arg 1; Lit "@"; Arg 2; Quote; Lit " --upload-file - <<EOF"; Lit nl;
   Lit "Subject: Test"; Lit nl;
   Lit "From: test@test.loc"; Lit nl;
   Lit "To: "; Arg 1; Lit "@"; Arg 2; Lit nl;
   Lit nl;
   Lit "Message text"; Lit nl;
   Lit "EOF"; Lit nl;
   Lit nl;
   Lit "Используй для уведомлений, интеграций и автоматических сообщений."; Lit nl].

(** ** Commands *)
Section commands.
Context `{UnicodeTables}.

Definition normalizeBotUsername (username : bytes) : bytes :=
  trim_prefix (trim_space (to_lower username)) "@".

(** The command without its slash, and the bot it is addressed to. *)
Definition ExtractCommandParts (text : bytes) : bytes * bytes :=
  let t := trim_space (to_lower text) in
  if decide (t = []) then ([], []) else
  let cmd := default [] (head (fields t)) in
  if negb (has_prefix cmd "/") then ([], []) else
  let cmd := trim_prefix cmd "/" in
  match index_byte "@"%char cmd with
  | Some at_ => (take at_ cmd, normalizeBotUsername (drop (S at_) cmd))
  | None => (cmd, [])
  end.

Definition ExtractCommand (text : bytes) : bytes := (ExtractCommandParts text).1.

Definition CommandTargetsBot (text botUsername : bytes) : bool :=
  let target := (ExtractCommandParts text).2 in
  bool_decide (target = []) || bool_decide (target = normalizeBotUsername botUsername).

Definition MessageMentionsBot (text botUsername : bytes) : bool :=
  let username := normalizeBotUsername botUsername in
  if decide (username = []) then false else
  let t := to_lower (trim_space text) in
  if decide (t = []) then false else
  contains t ("@" ++ username) || has_prefix t (username ++ " ") ||
  has_prefix t (username ++ ",") || has_prefix t (username ++ ":").
End commands.

(** ** Help texts *)
Section help.
Context (build : Build).

Definition chatAddressLocalPart (id : bytes) : bytes :=
  let value := trim_space id in
  if decide (value = [] ∨ value = "<unknown>") then "chatidunknown" else "chatid" ++ value.

Definition buildInfoReply (title localPart domain idLabel idValue : bytes) : bytes :=
  sprintf infoReplyTemplate [title; localPart; domain; idLabel; idValue; BotVersion build].

(** The defaults both replies apply. *)
Definition or_unknown (s : bytes) : bytes :=
  let id := trim_space s in if decide (id = []) then "<unknown>" else id.
Definition or_relay_local (s : bytes) : bytes :=
  let domain := trim_space s in if decide (domain = []) then "relay.local" else domain.

Definition BuildUserInfoReply (userID allowedDomain : bytes) : bytes :=
  buildInfoReply "Твой личный адрес для доставки сообщений через relay:"
    (chatAddressLocalPart (or_unknown userID)) (or_relay_local allowedDomain) "Ваш ID" (or_unknown userID).

Definition BuildChatInfoReply (chatID allowedDomain : bytes) : bytes :=
  buildInfoReply "Адрес этого чата для доставки сообщений через relay:"
    (chatAddressLocalPart (or_unknown chatID)) (or_relay_local allowedDomain) "ID этого чата" (or_unknown chatID).
End help.

Example command_of_bot : ExtractCommandParts (H:=basic_unicode) "  /Help@Relay_Bot now" = ("help", "relay_bot").
Proof. vm_compute. reflexivity. Qed.
Example mention : MessageMentionsBot (H:=basic_unicode) "Relay_bot, привет" "@relay_bot" = true.
Proof. vm_compute. reflexivity. Qed.
