(* ===== verification/BotSender.v ===== *)
(** * The MAX sender: [internal/max/bot_sender.go], [internal/max/sender.go]

    [BotSender] sends through the MAX client library.  The library is a
    parameter: what it answers, call by call.  A computation appends the calls it
    makes to the list of calls so far. *)
From S2P Require Import Prelude GoStrings GoRuntime Email.

Open Scope Z_scope.
Open Scope go_scope.

Definition attachmentReadyMaxAttempts : nat := 5.
Definition attachmentReadyRetryDelay : duration := 300 * Millisecond.

Definition parseChatID `{UnicodeTables} (chatID : bytes) : res Z :=
  match parse_int (trim_space chatID) with
  | Some id => Ok id
  | None => Err ("invalid chat_id " ++ quote chatID ++ ": " ++ num_error "ParseInt" (trim_space chatID))
  end.

(** ** The client library

    An error of [Messages.Send]: its text, and whether [errors.As] finds an
    [APIError] in it for which [IsAttachmentNotReady] holds. *)
Record ApiError := mkApiError { error_text : bytes; not_ready : bool }.

Class MaxApi := {
  (** [schemes.UploadedInfo] *)
  UploadedInfo : Type;
}.

(** [maxbot.Message], with what the sender sets. *)
Record OutMessage `{MaxApi} := mkOutMessage {
  m_chat : Z;
  m_text : option bytes;
  m_notify : bool;
  m_file : option UploadedInfo;
}.

(** A call to the library, or a wait, with its outcome; a wait ends early with
    [ctx.Err()]. *)
Inductive api_event `{MaxApi} :=
  | EvSend (msg : OutMessage) (r : option ApiError)
  | EvUpload (name data : bytes) (r : res UploadedInfo)
  | EvWait (d : duration) (r : option bytes).

(** The answers, by the number of calls before. *)
Class MaxOracle `{MaxApi} := {
  on_send : nat → OutMessage → option ApiError;
  on_upload : nat → bytes → bytes → res UploadedInfo;
  on_wait : nat → duration → option bytes;
}.

Definition T `{MaxApi} (A : Type) : Type := list api_event → A * list api_event.
#[export] Instance T_ret `{MaxApi} : MRet T := λ A a l, (a, l).
#[export] Instance T_bind `{MaxApi} : MBind T := λ A B f m l, let '(a, l') := m l in f a l'.

(** The options of [NewBotSender]. *)
Record ClientOptions := mkClientOptions {
  HTTPClientTimeout : duration;
  ApiTimeout : duration;
  BaseURL : option bytes;
}.

Definition NewBotSender {Api : Type} (New : bytes → ClientOptions → res Api) (baseURL token : bytes)
    (sendTimeout : duration) : res Api :=
  let clientTimeout := 35 * Second in
  let withMargin := wrap64 (sendTimeout + 5 * Second) in
  let clientTimeout := if (0 <? sendTimeout) && (clientTimeout <? withMargin) then withMargin else clientTimeout in
  let opts := mkClientOptions clientTimeout (30 * Second)
    (if decide (trim_space baseURL ≠ []) then Some baseURL else None) in
  match New token opts with
  | Err e => Err ("create bot api client: " ++ e)
  | Ok api => Ok api
  end.

Section sender.
Context `{UnicodeTables, MaxOracle}.

Definition api_send (msg : OutMessage) : T (option ApiError) := λ l,
  let r := on_send (length l) msg in (r, l ++ [EvSend msg r]).
Definition api_upload (name data : bytes) : T (res UploadedInfo) := λ l,
  let r := on_upload (length l) name data in (r, l ++ [EvUpload name data r]).
Definition api_wait (d : duration) : T (option bytes) := λ l,
  let r := on_wait (length l) d in (r, l ++ [EvWait d r]).

Definition BotSender_SendText (chatID text : bytes) (silent : bool) : T (option bytes) :=
  match parseChatID chatID with
  | Err e => mret (Some e)
  | Ok chatIDInt =>
    err ← api_send (mkOutMessage _ chatIDInt (Some text) (negb silent) None);
    mret (match err with
          | Some e => Some ("send text message: " ++ error_text e)
          | None => None
          end)
  end.

(** The loop; [n] is the number of attempts left. *)
Fixpoint send_file_attempts (n : nat) (delay : duration) (msg : OutMessage) : T (option bytes) :=
  match n with
  | O => mret (Some ("send file message: exhausted retries" : bytes))
  | S n =>
    err ← api_send msg;
    match err with
    | None => mret None
    | Some e =>
      if negb (not_ready e) || (n =? 0)%nat then mret (Some ("send file message: " ++ error_text e)) else
      c ← api_wait delay;
      match c with
      | Some ctxErr => mret (Some ("send file message: " ++ ctxErr))
      | None => send_file_attempts n (if delay <? 2 * Second then wrap64 (delay * 2) else delay) msg
      end
    end
  end.

Definition sendFileMessage (msg : OutMessage) : T (option bytes) :=
  send_file_attempts attachmentReadyMaxAttempts attachmentReadyRetryDelay msg.

(** The name a file is sent under. *)
Definition upload_name (a : Attachment) : bytes :=
  let fileName := trim_space (Filename a) in
  if decide (fileName = []) then "attachment.bin" else fileName.

Definition BotSender_SendFile (chatID : bytes) (a : Attachment) (silent : bool) : T (option bytes) :=
  match parseChatID chatID with
  | Err e => mret (Some e)
  | Ok chatIDInt =>
    let fileName := upload_name a in
    uploaded ← api_upload fileName (Data a);
    match uploaded with
    | Err e => mret (Some ("upload attachment " ++ quote fileName ++ ": " ++ e))
    | Ok uploaded => sendFileMessage (mkOutMessage _ chatIDInt None (negb silent) (Some uploaded))
    end
  end.
End sender.

(** ** [StubSender]: the line printed; the error is always nil *)
Definition StubSender_SendText `{UnicodeTables} (chatID text : bytes) (silent : bool) : bytes * option bytes :=
  ("[MAX:TEXT] chat=" ++ chatID ++ " silent=" ++ (if silent then "true" else "false") ++ " text=" ++
   quote text ++ [byte_of 10], None).
Definition StubSender_SendFile (chatID : bytes) (a : Attachment) (silent : bool) : bytes * option bytes :=
  ("[MAX:FILE] chat=" ++ chatID ++ " silent=" ++ (if silent then "true" else "false") ++ " file=" ++
   Filename a ++ " size=" ++ format_int (SizeBytes a) ++ [byte_of 10], None).

Lemma parseChatID_format `{UnicodeTables} z : in_int64 z → parseChatID (format_int z) = Ok z.
Proof.
  intros Hz. unfold parseChatID. rewrite trim_space_plain by apply format_int_plain. by rewrite parse_format_int.
Qed.

(** * Specification and lemmas *)
Section proofs.
Context `{UnicodeTables, MaxOracle} (msg : OutMessage).

(** The wait after the [k]-th refusal, from 0: 300, 600, 1200, 2400 ms. *)
Definition ready_delay (k : nat) : duration := attachmentReadyRetryDelay * 2 ^ Z.of_nat k.

(** The calls for refusals that are followed by another attempt. *)
Fixpoint retries (k : nat) (early : list ApiError) : list api_event :=
  match early with
  | [] => []
  | e :: early => EvSend msg (Some e) :: EvWait (ready_delay k) None :: retries (S k) early
  end.

(** The last calls, after [k] such refusals, and the result. *)
Inductive ending (k : nat) : list api_event → option bytes → Prop :=
  | ending_accepted : ending k [EvSend msg None] None
  | ending_refused e :
      not_ready e = false ∨ k = 4%nat →
      ending k [EvSend msg (Some e)] (Some ("send file message: " ++ error_text e))
  | ending_cancelled e c :
      not_ready e = true → (k < 4)%nat →
      ending k [EvSend msg (Some e); EvWait (ready_delay k) (Some c)] (Some ("send file message: " ++ c)).

Lemma send_file_attempts_step n delay l :
  send_file_attempts (S n) delay msg l =
  let r := on_send (length l) msg in
  let l1 := l ++ [EvSend msg r] in
  match r with
  | None => (None, l1)
  | Some e =>
    if negb (not_ready e) || (n =? 0)%nat then (Some ("send file message: " ++ error_text e), l1) else
    let c := on_wait (length l1) delay in
    let l2 := l1 ++ [EvWait delay c] in
    match c with
    | Some ctxErr => (Some ("send file message: " ++ ctxErr), l2)
    | None => send_file_attempts n (if delay <? 2 * Second then wrap64 (delay * 2) else delay) msg l2
    end
  end.
Proof.
  cbn [send_file_attempts]. unfold mbind, T_bind, mret, T_ret, api_send, api_wait. cbv zeta beta.
  destruct (on_send _ _) as [e|]; [|done]. destruct (_ || _); [done|]. by destruct (on_wait _ _).
Qed.

Lemma send_file_attempts_spec n delay k l :
  (S n + k = 5)%nat → delay = ready_delay k ∨ k = 4%nat →
  let '(r, l') := send_file_attempts (S n) delay msg l in
  ∃ early last, l' = l ++ retries k early ++ last ∧ Forall (λ e, not_ready e = true) early ∧
    (k + length early ≤ 4)%nat ∧ ending (k + length early) last r.
Proof.
  revert delay k l. induction n as [|n IH]; intros delay k l Hk Hd; rewrite send_file_attempts_step; cbv zeta.
  all: destruct (on_send _ _) as [e|];
    [|exists [], [EvSend msg None]; cbn [length retries]; split_and!; [done|constructor|lia|constructor]].
  all: match goal with |- context [if ?b then _ else _] => destruct b eqn:Hn end;
    [exists [], [EvSend msg (Some e)]; cbn [length retries]; rewrite Nat.add_0_r;
     split_and!; [done|constructor|lia|]; apply ending_refused|].
  - right. lia.
  - by rewrite orb_true_r in Hn.
  - left. rewrite orb_false_r in Hn. by apply negb_true_iff.
  - apply orb_false_iff in Hn as [He%negb_false_iff _]. destruct Hd as [->|]; [|lia].
    destruct (on_wait _ _) as [c|].
    + exists [], [EvSend msg (Some e); EvWait (ready_delay k) (Some c)]. cbn [length retries]. rewrite Nat.add_0_r.
      split_and!; [by rewrite <- app_assoc|constructor|lia|]. apply ending_cancelled; [done|lia].
    + match goal with |- context [send_file_attempts (S n) ?d msg ?x] => specialize (IH d (S k) x) end.
      destruct (send_file_attempts (S n) _ _ _) as [r l'].
      destruct IH as (early & last & -> & Hf & Hlen & Hend); [lia| |].
      { assert (k = 0 ∨ k = 1 ∨ k = 2 ∨ k = 3)%nat as [->|[->|[->| ->]]] by lia; auto. }
      exists (e :: early), last. cbn [length retries]. rewrite Nat.add_succ_r.
      split_and!; [by rewrite <- !app_assoc|by constructor|lia|done].
Qed.

(** The time the calls wait. *)
Definition waits (l : list api_event) : duration :=
  foldr Z.add 0 ((λ x, match x with EvWait d _ => d | _ => 0 end) <$> l).
(** The messages for which the library's [Send] returned [nil].  (MAX has accepted
    these, and may have accepted one whose answer the library could not decode, see
    [accepted_but_failed] in [MaxClient].) *)
Definition accepted (l : list api_event) : list OutMessage :=
  omap (λ x, match x with EvSend m None => Some m | _ => None end) l.

Lemma waits_app l1 l2 : waits (l1 ++ l2) = waits l1 + waits l2.
Proof. unfold waits. induction l1 as [|x l1 IH]; cbn in *; [done|]. rewrite IH. lia. Qed.
Lemma accepted_retries k early : accepted (retries k early) = [].
Proof. revert k. induction early as [|e early IH]; intros k; [done|]. apply IH. Qed.
Lemma waits_retries k early :
  waits (retries k early) = attachmentReadyRetryDelay * (2 ^ Z.of_nat (k + length early) - 2 ^ Z.of_nat k).
Proof.
  revert k. induction early as [|e early IH]; intros k; cbn [retries length].
  { rewrite Nat.add_0_r. unfold waits. cbn. lia. }
  change (waits (_ :: EvWait (ready_delay k) None :: retries (S k) early))
    with (0 + (ready_delay k + waits (retries (S k) early))).
  rewrite IH, Nat.add_succ_r. unfold ready_delay. rewrite !Nat2Z.inj_succ, !Z.pow_succ_r by lia. cbn [Nat.add].
  rewrite !Nat2Z.inj_succ, !Z.pow_succ_r by lia. lia.
Qed.
Lemma ending_bounds k early last r :
  (k ≤ 4)%nat → length early = k → ending k last r →
  waits (retries 0 early ++ last) ≤ 4500 * Millisecond ∧
  accepted (retries 0 early ++ last) = (if decide (r = None) then [msg] else []).
Proof.
  intros Hk Hl He. unfold accepted. rewrite omap_app. fold (accepted (retries 0 early)).
  rewrite accepted_retries, waits_app, waits_retries, Hl. cbn [Nat.add].
  assert (k = 0 ∨ k = 1 ∨ k = 2 ∨ k = 3 ∨ k = 4)%nat as Hc by lia.
  destruct He as [|e _|e c _ Hlt]; (split; [|done]);
    unfold waits, ready_delay; cbn; destruct Hc as [->|[->|[->|[->| ->]]]]; try lia; vm_compute; done.
Qed.
End proofs.

(** * Properties *)

(** C21. Sending a file uploads it once and then posts the message until the library's
    [Send] succeeds: at most five attempts, each error that is retried being that
    the attachment is not ready, with waits of 300, 600, 1200 and 2400 ms between;
    another error, the fifth failure or the end of the context stops it, with
    that error.  So [Send] succeeds at most once, exactly if the result is success;
    the waits take at most 4.5 s in all; and a chat number that does not parse makes
    no call. *)
Theorem SendFile_attempts `{UnicodeTables, MaxOracle} chatID a silent l :
  let '(r, l') := BotSender_SendFile chatID a silent l in
  match parseChatID chatID with
  | Err e => r = Some e ∧ l' = l
  | Ok id =>
    let name := upload_name a in
    match on_upload (length l) name (Data a) with
    | Err e => r = Some ("upload attachment " ++ quote name ++ ": " ++ e) ∧ l' = l ++ [EvUpload name (Data a) (Err e)]
    | Ok info =>
      let msg := mkOutMessage _ id None (negb silent) (Some info) in
      ∃ early last, l' = l ++ [EvUpload name (Data a) (Ok info)] ++ retries msg 0 early ++ last ∧
        Forall (λ e, not_ready e = true) early ∧ (length early ≤ 4)%nat ∧ ending msg (length early) last r ∧
        waits (retries msg 0 early ++ last) ≤ 4500 * Millisecond ∧
        accepted (retries msg 0 early ++ last) = (if decide (r = None) then [msg] else [])
    end
  end.
Proof.
  unfold BotSender_SendFile. destruct (parseChatID chatID) as [id|e]; [|done]. cbv zeta.
  unfold api_upload, mbind, T_bind. destruct (on_upload _ _ _) as [info|e]; [|done].
  set (msg := mkOutMessage _ _ _ _ _). unfold sendFileMessage. set (l1 := l ++ _).
  pose proof (send_file_attempts_spec msg 4 attachmentReadyRetryDelay 0 l1 eq_refl (or_introl eq_refl)) as Hs.
  unfold attachmentReadyMaxAttempts. destruct (send_file_attempts _ _ _ _) as [r l'].
  destruct Hs as (early & last & -> & Hf & Hlen & Hend). cbn [Nat.add] in *.
  exists early, last. destruct (ending_bounds msg _ early last r Hlen eq_refl Hend) as [Hw Ha].
  split_and!; try done. unfold l1. by rewrite <- app_assoc.
Qed.
