(* ===== verification/Bot.v ===== *)
(** * The bot: [internal/max/bot_runtime.go]

    The bot answers messages in MAX: anyone can ask for an address, and the
    administrator's chat has commands for the aliases, the statistics and the
    queue.  [AliasAdmin] is the alias table, [StatsReporter] the collector and
    [DLQAdmin] the queue administration, as [main] passes them. *)
From S2P Require Import Prelude GoStrings GoRuntime GoJson Recipient DlqStore Metrics Email Trace Confirm.
From S2P Require Import World DlqWorker DlqAdmin Version BotHelp BotSender.

Open Scope Z_scope.
Open Scope go_scope.

(** ** Updates, as the bot API client delivers them *)
Record User := mkUser { UserId : Z; IsBot : bool }.
Record Message := mkMessage { Sender : option User; ChatId : Z; BodyText : bytes }.
(** [None] is a nil pointer. *)
Inductive Update :=
  | MessageCreatedUpdate (upd : option Message)
  | OtherUpdate.

Record Bot := mkBot {
  build : Build;
  botUserID : Z;
  botUsername : bytes;
  bot_domain : bytes;
  has_aliases : bool;      (** [aliasAdmin] is not nil *)
  has_stats : bool;        (** [statsReporter] is not nil *)
  dlqAdmin : option Admin;
  adminChatID : Z;
}.

(** ** Arguments *)
Section arguments.
Context `{UnicodeTables}.

Definition alias_rune (r : Z) : bool :=
  ((97 <=? r) && (r <=? 122)) || ((48 <=? r) && (r <=? 57)) || (r =? 46) || (r =? 95) || (r =? 45).
Definition normalizeAliasName (value : bytes) : bytes :=
  let v := trim_space (to_lower value) in
  if forallb alias_rune (runes v) then v else [].

(** [^-?\d+(\.silent)?$] *)
Definition numericAliasTargetPattern (s : bytes) : bool :=
  let body := if has_suffix s ".silent" then take (length s - length (".silent" : bytes)) s else s in
  let ds := trim_prefix body "-" in
  bool_decide (ds ≠ []) && all_digits ds.

Definition normalizeAliasTarget (value : bytes) : res bytes :=
  let target := to_lower (trim_space value) in
  if decide (target = []) then Err "target алиаса пустой"
  else if has_prefix target "chatid" then Ok target
  else if numericAliasTargetPattern target then Ok ("chatid" ++ target)
  else Err "target алиаса должен быть chatid..., либо числом (например 260920412 или -73211480961715.silent)".

(** The loop keeps the first of equal targets. *)
Definition normalizeAliasTargetsArg (value : bytes) : res (list bytes) :=
  l ← mapM normalizeAliasTarget (split ","%char value);
  let targets := dedup l in
  if decide (targets = []) then Err "нужен хотя бы один target алиаса" else Ok targets.

Definition extractChatIDFromAliasTarget (target : bytes) : bytes :=
  let v := trim_space (to_lower target) in
  let v := match index_byte "."%char v with Some idx => take idx v | None => v end in
  let v := if has_prefix v "chatid" then trim_prefix v "chatid" else v in
  if decide (v = []) then "unknown" else v.

Definition alias_line (kv : bytes * list bytes) : bytes :=
  "- " ++ kv.1 ++ " -> " ++ join "," (extractChatIDFromAliasTarget <$> kv.2) ++
  " -> (название чата недоступно через Bot API)".
Definition buildAliasesListReply (aliases : gmap bytes (list bytes)) : bytes :=
  if decide (aliases = ∅) then "Список алиасов пуст" else
  join nl ("Алиасы (имя -> chatid -> чат):" :: (alias_line <$> sorted_entries aliases)).

Definition replyForMessageText (build : Build) (text chatID : bytes) (sender : option User)
    (botUsername allowedDomain : bytes) : option bytes :=
  let cmd := ExtractCommand text in
  if bool_decide (cmd ≠ []) && negb (CommandTargetsBot text botUsername) then None else
  if decide (cmd = "hello" ∨ cmd = "help") then Some (BuildChatInfoReply build chatID allowedDomain) else
  if decide (cmd = "start") then
    let userID := match sender with
                  | Some u => if UserId u =? 0 then [] else format_int (UserId u)
                  | None => []
                  end in
    Some (BuildUserInfoReply build userID allowedDomain)
  else if MessageMentionsBot text botUsername then Some (BuildChatInfoReply build chatID allowedDomain)
  else None.
End arguments.

(** ** Handlers *)
Section bot.
Context `{Replayer} (E : Env) (bot : Bot).
#[local] Instance bot_tables : UnicodeTables := tables E.

(** [registerConfirm] *)
Definition confirm_register (chatID : Z) (ttl : duration) (x : confirm_execute) : M bytes :=
  rnd ← ask (confirm_random E);
  token ← (match rnd with
           | Some _ => mret (randomToken rnd 0)
           | None => t ← now E; mret (randomToken None t)
           end : M bytes);
  t ← now E;
  with_confirms (λ m, (token, registerConfirm t chatID token ttl x m)).

(** [consumeConfirm] up to the call of the action. *)
Definition confirm_take (chatID : Z) (token : bytes) : M (option confirm_execute) :=
  t ← now E;
  with_confirms (consumeConfirm t chatID token).

(** The stored action. *)
Definition run_action (ctx : Ctx) (a : Admin) (x : confirm_execute) : M bytes :=
  match x with
  | ExecReplay id => Replay E a ctx id
  | ExecReplayBatch limit mode => ReplayBatch E a ctx limit mode
  end.

(** Change the alias table, and save it; the reply says whether it was saved. *)
Definition update_aliases (f : parser → parser) (saved not_saved : bytes) : M bytes :=
  _ ← with_recipients f;
  p ← gets recipients;
  io ← ask (alias_io E);
  err ← with_alias_file (λ file, SaveAliases io file (SnapshotAliases p));
  mret (match err with Some e => not_saved ++ ": " ++ e | None => saved end).

Definition report (days : Z) : M bytes :=
  t ← now E; gets (λ w, BuildLastDaysReport (H:=runtime E) t days (metrics w)).

Definition confirm_reply (token : bytes) : bytes :=
  "Требуется подтверждение: /confirm " ++ token ++ " (действует 5 минут)".
Definition bad_name : bytes := "Имя алиаса должно состоять из букв/цифр/._-".
Definition no_dlq : bytes := "DLQ недоступен".
Definition no_aliases : bytes := "Управление алиасами недоступно".

(** [/alias_group], [/alias_add], [/alias_remove]: one operation on a list of
    targets. *)
Definition group_command (parts : list bytes) (usage : bytes) (op : bytes → list bytes → parser → parser)
    (saved not_saved : bytes) : M bytes :=
  if negb (has_aliases bot) then mret no_aliases else
  match parts with
  | [_; a; b] =>
    let name := normalizeAliasName a in
    if decide (name = []) then mret bad_name else
    match normalizeAliasTargetsArg b with
    | Err e => mret e
    | Ok targets =>
      update_aliases (op name targets) (saved ++ name ++ " -> " ++ join "," targets) not_saved
    end
  | _ => mret usage
  end.

Definition replay_batch_usage : bytes := "Использование: /replay_batch <limit> [only_failed|only_pending]".

(** [/alias] *)
Definition alias_command (parts : list bytes) : M bytes :=
  if negb (has_aliases bot) then mret no_aliases else
  match parts with
  | [_; a; b] =>
    let name := normalizeAliasName a in
    if decide (name = []) then mret bad_name else
    match normalizeAliasTarget b with
    | Err e => mret e
    | Ok target =>
      match ValidateAliasTarget target with
      | Some e => mret ("Некорректный target алиаса: " ++ e)
      | None =>
        update_aliases (λ p, SetAliasGroup p name [target])
          ("Алиас сохранён: " ++ name ++ " -> " ++ target)
          "Алиас сохранён в памяти, но не записан в файл"
      end
    end
  | _ => mret ("Использование: /alias <имя> <chatid...>" : bytes)
  end.

(** [/unalias] *)
Definition unalias_command (parts : list bytes) : M bytes :=
  if negb (has_aliases bot) then mret no_aliases else
  match parts with
  | [_; a] =>
    let name := normalizeAliasName a in
    if decide (name = []) then mret bad_name else
    update_aliases (λ p, DeleteAlias p name) ("Алиас удалён: " ++ name)
      "Алиас удалён из памяти, но не записан в файл"
  | _ => mret ("Использование: /unalias <имя>" : bytes)
  end.

(** [/aliases] *)
Definition aliases_command : M bytes :=
  if negb (has_aliases bot) then mret no_aliases
  else gets (λ w, buildAliasesListReply (SnapshotAliases (recipients w))).

(** [maybeHandleAdminAliasCommandWithDLQ] after its guards: the command by its
    lower-cased name. *)
Definition admin_command (ctx : Ctx) (chatID : Z) (command : bytes) (parts : list bytes) : M (option bytes) :=
  let dlq (k : Admin → M bytes) : M (option bytes) :=
    Some <$> match dlqAdmin bot with None => mret no_dlq | Some a => k a end in
  if decide (command = "/dlq") then dlq (λ a, Summary E)
  else if decide (command = "/dlq_list") then dlq (λ a,
    match parts with
    | [_; n] =>
      match parse_int n with
      | Some n => if n <=? 0 then mret ("Использование: /dlq_list <limit>" : bytes) else DlqAdmin.List E n
      | None => mret ("Использование: /dlq_list <limit>" : bytes)
      end
    | _ => DlqAdmin.List E 10
    end)
  else if decide (command = "/dlq_show") then dlq (λ a,
    match parts with [_; id] => Show id | _ => mret ("Использование: /dlq_show <id>" : bytes) end)
  else if decide (command = "/replay_dry") then dlq (λ a,
    match parts with [_; id] => ReplayDry a id | _ => mret ("Использование: /replay_dry <id>" : bytes) end)
  else if decide (command = "/replay") then dlq (λ a,
    match parts with
    | [_; id] => confirm_reply <$> confirm_register chatID (5 * Minute) (ExecReplay id)
    | _ => mret ("Использование: /replay <id>" : bytes)
    end)
  else if decide (command = "/replay_batch") then dlq (λ a,
    match parts with
    | _ :: n :: ([] | [_]) =>
      match parse_int n with
      | Some limit =>
        if limit <=? 0 then mret replay_batch_usage else
        let mode := default [] (parts !! 2%nat) in
        confirm_reply <$> confirm_register chatID (5 * Minute) (ExecReplayBatch limit mode)
      | None => mret replay_batch_usage
      end
    | _ => mret replay_batch_usage
    end)
  else if decide (command = "/confirm") then Some <$>
    match parts with
    | [_; token] =>
      x ← confirm_take chatID token;
      match x, dlqAdmin bot with
      | Some x, Some a => run_action ctx a x
      | _, _ => mret ("Токен подтверждения не найден или истёк" : bytes)
      end
    | _ => mret ("Использование: /confirm <token>" : bytes)
    end
  else if decide (command = "/stats7d") then
    Some <$> (if has_stats bot then report 7 else mret ("Статистика недоступна" : bytes))
  else if decide (command = "/stats30d") then
    Some <$> (if has_stats bot then report 30 else mret ("Статистика недоступна" : bytes))
  else if decide (command = "/alias") then Some <$> alias_command parts
  else if decide (command = "/alias_group") then Some <$>
    group_command parts "Использование: /alias_group <имя> <chatid1,chatid2,...>"
      (λ name targets p, SetAliasGroup p name targets)
      "Группа алиаса сохранена: " "Группа алиаса сохранена в памяти, но не записана в файл"
  else if decide (command = "/alias_add") then Some <$>
    group_command parts "Использование: /alias_add <имя> <chatid...>"
      (λ name targets p, AddAliasTargets p name targets)
      "Target'ы добавлены: " "Target'ы добавлены в памяти, но не записаны в файл"
  else if decide (command = "/alias_remove") then Some <$>
    group_command parts "Использование: /alias_remove <имя> <chatid...>"
      (λ name targets p, RemoveAliasTargets p name targets)
      "Target'ы удалены: " "Target'ы удалены в памяти, но не записаны в файл"
  else if decide (command = "/unalias") then Some <$> unalias_command parts
  else if decide (command = "/aliases") then Some <$> aliases_command
  else mret None.

Definition maybeHandleAdminAliasCommandWithDLQ (ctx : Ctx) (text : bytes) (sender : option User)
    (chatID : Z) : M (option bytes) :=
  if adminChatID bot =? 0 then mret None else
  if bool_decide (sender = None) || negb (chatID =? adminChatID bot) then mret None else
  match fields (trim_space text) with
  | [] => mret None
  | p0 :: parts => admin_command ctx chatID (to_lower p0) (p0 :: parts)
  end.

(** A message by a bot, this one included. *)
Definition from_bot (m : Message) : bool :=
  match Sender m with
  | Some u => IsBot u || (negb (botUserID bot =? 0) && (UserId u =? botUserID bot))
  | None => false
  end.

Definition handleMessageCreatedUpdate (ctx : Ctx) (upd : option Message) : M unit :=
  match upd with
  | None => mret tt
  | Some m =>
    if from_bot m then mret tt else
    let chatID := ChatId m in
    if chatID =? 0 then mret tt else
    reply ← (match replyForMessageText (build bot) (BodyText m) (format_int chatID) (Sender m)
                     (botUsername bot) (bot_domain bot) with
             | Some r => mret (Some r)
             | None => maybeHandleAdminAliasCommandWithDLQ ctx (BodyText m) (Sender m) chatID
             end : M (option bytes));
    match reply with
    | None => mret tt
    | Some r => _ ← SendText E (format_int chatID) r true; mret tt
    end
  end.

Definition handleBotUpdate (ctx : Ctx) (upd : Update) : M unit :=
  match upd with
  | MessageCreatedUpdate m => handleMessageCreatedUpdate ctx m
  | OtherUpdate => mret tt
  end.

(** [RunBotLoopWithUsername] until the context is done or the channel closed:
    the updates received. *)
Fixpoint bot_loop (ctx : Ctx) (updates : list Update) : M unit :=
  match updates with
  | [] => mret tt
  | upd :: updates => _ ← handleBotUpdate ctx upd; bot_loop ctx updates
  end.

Definition SendStartupNotification : M (option bytes) :=
  if adminChatID bot =? 0 then mret None else
  SendText E (format_int (adminChatID bot))
    ("✅ smtp-to-max-relay запущен. Версия бота: " ++ BotVersion (build bot)) true.
End bot.

(** The repository's examples. *)
Example alias_targets : normalizeAliasTargetsArg (H:=basic_unicode) " ChatID1, -5.silent,chatid1" =
  Ok ["chatid1"; "chatid-5.silent"].
Proof. vm_compute. reflexivity. Qed.
Example bad_target : is_ok (normalizeAliasTarget (H:=basic_unicode) "12a") = false.
Proof. vm_compute. reflexivity. Qed.
Definition wit_bot : Bot := mkBot default_build 0 "relay_bot" "relay.local" true true (Some wit_admin) 7.
Definition wit_message (text : bytes) : Message := mkMessage (Some (mkUser 5 false)) 7 text.
Example batch_mode :
  (map_to_list (pendingConfirm (handleBotUpdate (H:=refusing) wit_env wit_bot Background
     (MessageCreatedUpdate (Some (wit_message "/replay_batch 5 only_failed"))) wit_world).2)).*2 =
  [mkConfirm (unix_epoch + 5 * Minute) (ExecReplayBatch 5 "only_failed")].
Proof. vm_compute. reflexivity. Qed.

(** * Lemmas *)
Section proofs.
Context `{Replayer} (E : Env) (bot : Bot) (ctx : Ctx).

(** Every command but [/confirm] leaves the queue alone. *)
Lemma admin_command_store chatID command parts :
  command ≠ "/confirm" → frame store (admin_command E bot ctx chatID command parts).
Proof.
  intros Hc. unfold admin_command. cbv zeta.
  repeat match goal with |- frame _ (if decide (command = ?s) then _ else _) =>
    destruct (decide (command = s)); [try done|] end.
  all: unfold alias_command, unalias_command, aliases_command, group_command, update_aliases, Bot.report, confirm_register, Summary, DlqAdmin.List, Show, ReplayDry,
    now; framed.
Qed.
End proofs.

(** ** Addresses *)
Section address.
Context `{UnicodeTables}.

Lemma to_lower_plain_app s d : forallb plain_byte s = true → to_lower (s ++ d) = s ++ to_lower d.
Proof.
  intros Hs. pose proof (plain_ascii s Hs) as Ha. unfold to_lower at 1.
  rewrite runes_ascii_app, fmap_app by done. unfold encode at 1. rewrite fmap_app, concat_app.
  f_equal. rewrite <- (to_lower_plain s Hs) at 2. unfold to_lower. by rewrite runes_ascii.
Qed.

Lemma norm_address s d :
  s ≠ [] → forallb plain_byte s = true → valid_utf8 d → norm (s ++ trim_space d) = s ++ norm d.
Proof.
  intros Hne Hs Hd. unfold norm at 1. rewrite to_lower_plain_app, to_lower_trim_space by done.
  assert (s ++ norm d = norm (s ++ norm d)) as E by (rewrite norm_plain_app; [done..|apply norm_idemp]).
  rewrite E. apply trim_space_norm.
Qed.

Lemma digits_chat_id z : chat_id_syntax (format_int z).
Proof.
  unfold format_int. destruct (Z.ltb_spec z 0).
  - destruct (fmt_nat_spec (- z)) as (Hd & Hne & _); [lia|]. by apply chat_id_neg.
  - destruct (fmt_nat_spec z) as (Hd & Hne & _); [lia|]. by apply chat_id_pos.
Qed.

Lemma format_int_no (a : ascii) z : is_digit (code a) = false → a ≠ "-"%char → a ∉ format_int z.
Proof.
  intros Ha Hm Hin. unfold format_int in Hin.
  assert (∀ n, 0 ≤ n → a ∉ fmt_nat n) as Hno.
  { intros n Hn Hi. destruct (fmt_nat_spec n Hn) as (Hd & _). unfold all_digits in Hd.
    rewrite forallb_forall in Hd. specialize (Hd _ (proj1 (list_elem_of_In _ _) Hi)). congruence. }
  destruct (Z.ltb_spec z 0).
  - apply elem_of_cons in Hin as [Hin|Hin]; [done|]. apply (Hno (- z)); [lia|done].
  - by apply (Hno z).
Qed.

Lemma sprintf_app t1 t2 args : sprintf (t1 ++ t2) args = sprintf t1 args ++ sprintf t2 args.
Proof. unfold sprintf. by rewrite fmap_app, concat_app. Qed.
Lemma sprintf_lit s t args : sprintf (Lit s :: t) args = s ++ sprintf t args.
Proof. done. Qed.
Lemma sprintf_arg i t args : sprintf (Arg i :: t) args = default [] (args !! i) ++ sprintf t args.
Proof. done. Qed.

(** The address a help text shows, plain or silent. *)
Definition shown_local (id : bytes) (silent : bool) : bytes :=
  chatAddressLocalPart (or_unknown id) ++ (if silent then ".silent" else []).

Lemma or_unknown_id z : or_unknown (format_int z) = format_int z.
Proof.
  unfold or_unknown. rewrite trim_space_plain by apply format_int_plain. cbv zeta.
  destruct (digits_chat_id z); by rewrite decide_False.
Qed.

Lemma shown_local_id z silent :
  shown_local (format_int z) silent = "chatid" ++ format_int z ++ (if silent then ".silent" else []).
Proof.
  unfold shown_local, chatAddressLocalPart. rewrite or_unknown_id, trim_space_plain by apply format_int_plain.
  cbv zeta. rewrite decide_False; [by rewrite <- app_assoc|].
  intros [E|E]; pose proof (digits_chat_id z) as Hs; rewrite E in Hs; inversion Hs; subst; try done.
Qed.

Lemma shown_in_reply b id d silent :
  ∃ before after, BuildChatInfoReply b id d =
    before ++ "- " ++ shown_local id silent ++ "@" ++ or_relay_local d ++ nl ++ after.
Proof.
  unfold BuildChatInfoReply, buildInfoReply. set (args := [_; _; _; _; _; _]).
  destruct silent.
  - exists (sprintf (take 13 infoReplyTemplate) args), (sprintf (drop 18 infoReplyTemplate) args).
    replace infoReplyTemplate with (take 13 infoReplyTemplate ++
      Lit "- " :: Arg 1 :: Lit ".silent@" :: Arg 2 :: Lit nl :: drop 18 infoReplyTemplate) at 1 by reflexivity.
    rewrite sprintf_app, !sprintf_lit, !sprintf_arg, !sprintf_lit. unfold shown_local. by rewrite <- !app_assoc.
  - exists (sprintf (take 8 infoReplyTemplate) args), (sprintf (drop 13 infoReplyTemplate) args).
    replace infoReplyTemplate with (take 8 infoReplyTemplate ++
      Lit "- " :: Arg 1 :: Lit "@" :: Arg 2 :: Lit nl :: drop 13 infoReplyTemplate) at 1 by reflexivity.
    rewrite sprintf_app, !sprintf_lit, !sprintf_arg, !sprintf_lit. unfold shown_local. by rewrite app_nil_r.
Qed.
End address.

(** A message the administrator's commands may come from. *)
Definition is_admin_message (bot : Bot) (m : Message) : Prop :=
  adminChatID bot ≠ 0 ∧ Sender m ≠ None ∧ ChatId m = adminChatID bot.

(** The answer anyone gets. *)
Definition public_reply (E : Env) (bot : Bot) (m : Message) : option bytes :=
  replyForMessageText (H:=tables E) (build bot) (BodyText m) (format_int (ChatId m)) (Sender m)
    (botUsername bot) (bot_domain bot).

Section handling.
Context `{Replayer} (E : Env) (bot : Bot) (ctx : Ctx).

Lemma maybe_stranger text sender chatID w :
  ¬ (adminChatID bot ≠ 0 ∧ sender ≠ None ∧ chatID = adminChatID bot) →
  maybeHandleAdminAliasCommandWithDLQ E bot ctx text sender chatID w = (None, w).
Proof.
  intros Hn. unfold maybeHandleAdminAliasCommandWithDLQ.
  destruct (Z.eqb_spec (adminChatID bot) 0); [done|].
  destruct (bool_decide_reflect (sender = None)); [done|].
  destruct (Z.eqb_spec chatID (adminChatID bot)); [naive_solver|done].
Qed.

(** The administrator's command of a message. *)
Definition command_of (m : Message) : option (bytes * list bytes) :=
  match fields (trim_space (BodyText m)) with
  | [] => None
  | p0 :: parts => Some (to_lower (H:=tables E) p0, p0 :: parts)
  end.

Lemma maybe_admin m w :
  is_admin_message bot m →
  maybeHandleAdminAliasCommandWithDLQ E bot ctx (BodyText m) (Sender m) (ChatId m) w =
  match command_of m with
  | None => (None, w)
  | Some (c, parts) => admin_command E bot ctx (ChatId m) c parts w
  end.
Proof.
  intros (H1 & H2 & H3). unfold maybeHandleAdminAliasCommandWithDLQ, command_of.
  rewrite (proj2 (Z.eqb_neq _ _) H1), bool_decide_eq_false_2, (proj2 (Z.eqb_eq _ _) H3) by done.
  simpl. by destruct (fields _).
Qed.

(** The update of a message, by its reply. *)
Lemma handle_message m w :
  handleBotUpdate E bot ctx (MessageCreatedUpdate (Some m)) w =
  if from_bot bot m || (ChatId m =? 0) then (tt, w) else
  let '(r, w1) := match public_reply E bot m with
                  | Some r => (Some r, w)
                  | None => maybeHandleAdminAliasCommandWithDLQ E bot ctx (BodyText m) (Sender m) (ChatId m) w
                  end in
  match r with
  | None => (tt, w1)
  | Some r => (tt, (SendText E (format_int (ChatId m)) r true w1).2)
  end.
Proof.
  unfold handleBotUpdate, handleMessageCreatedUpdate, public_reply.
  destruct (from_bot bot m); [done|]. cbn [orb]. cbv zeta. destruct (ChatId m =? 0); [done|].
  assert (∀ r w1, exec (_ ← SendText E (format_int (ChatId m)) r true; mret tt) w1 =
    (tt, (SendText E (format_int (ChatId m)) r true w1).2)) as Hs
    by (intros r w1; rewrite exec_bind; by destruct (SendText _ _ _ _ w1)).
  rewrite exec_bind. destruct (replyForMessageText _ _ _ _ _ _) as [r|]; [apply Hs|].
  destruct (maybeHandleAdminAliasCommandWithDLQ _ _ _ _ _ _ w) as [[r|] w1]; [apply Hs|done].
Qed.

(** What a text changes: the log, the clock, and the limiter's part of the collector. *)
Lemma exec_SendText chat text silent w :
  ∃ n o p, (SendText E chat text silent w).2 =
    add_sent (mkSend chat (PText text) silent, o) (set_tick n (set_metrics (RateLimiter.marked p (metrics w)) w)).
Proof. unfold SendText. rewrite exec_call_sender. by eexists _, _, _. Qed.
End handling.

Lemma exec_confirm_take E chatID token w :
  confirm_take E chatID token w =
  let '(x, m) := consumeConfirm (clock E (tick w)) chatID token (pendingConfirm w) in
  (x, set_confirms m (set_tick (S (tick w)) w)).
Proof. cbn. by destruct (consumeConfirm _ _ _ _). Qed.

(** ** Alias commands *)
Section aliases.
Context `{UnicodeTables}.
Lemma alias_rune_plain r : alias_rune r = true → ∃ a, r = code a ∧ plain_byte a = true ∧ a ≠ "@"%char.
Proof.
  unfold alias_rune. rewrite !orb_true_iff, !andb_true_iff, !Z.leb_le, !Z.eqb_eq. intros Hr.
  assert (0 ≤ r < 256) as Hb by lia. exists (byte_of r). rewrite code_byte_of by lia.
  split; [done|]. split.
  - unfold plain_byte. rewrite code_byte_of by lia. lia.
  - intros E. assert (code (byte_of r) = 64) as E2 by by rewrite E. rewrite code_byte_of in E2 by lia. lia.
Qed.

(** A name that is accepted is a normal form of plain characters. *)
Lemma normalizeAliasName_spec value :
  let name := normalizeAliasName value in
  norm name = name ∧ forallb plain_byte name = true ∧ "@"%char ∉ name.
Proof.
  cbv zeta. unfold normalizeAliasName. fold (norm value).
  destruct (forallb alias_rune (runes (norm value))) eqn:Hf; [|by split_and!; [..|intros ?%elem_of_nil]].
  rewrite forallb_forall in Hf. split; [apply norm_idemp|].
  assert (is_ascii (norm value) = true) as Ha.
  { apply runes_small_ascii. apply Forall_forall. intros r Hr.
    apply list_elem_of_In, Hf, alias_rune_plain in Hr as (a & -> & Hp & _).
    assert (is_ascii [a] = true) as Hx by (apply plain_ascii; simpl; by rewrite Hp).
    unfold is_ascii in Hx. simpl in Hx. rewrite andb_true_r in Hx. lia. }
  rewrite runes_ascii in Hf by done.
  assert (∀ a, a ∈ norm value → plain_byte a = true ∧ a ≠ "@"%char) as Hall.
  { intros a Hin. destruct (alias_rune_plain (code a)) as (b & Eb%code_inj & Hp & Hne); [|by subst].
    apply Hf, list_elem_of_In, list_elem_of_fmap. by exists a. }
  split; [|intros Hin; by destruct (Hall _ Hin)].
  apply forallb_forall. intros a Hin. by apply Hall, list_elem_of_In.
Qed.

(** A validated target names a chat. *)
Lemma ValidateAliasTarget_names target :
  ValidateAliasTarget target = None → ∃ t, names_target (norm target) t.
Proof.
  unfold ValidateAliasTarget. fold (norm target). cbv zeta. case_decide as Hne; [done|].
  destruct (split_flags_spec (norm target)) as (base & flags & -> & Hb & Hl). simpl.
  destruct (parseChatIDBase base (norm target)) as [id|e] eqn:Ep; [|done]. intros _.
  apply parseChatIDBase_Ok in Ep as (rest & -> & <- & Hid). eexists.
  apply (names_target_intro _ rest flags); [set_solver| |exact Hid].
  by rewrite <- app_assoc in Hl.
Qed.
End aliases.

(** [update_aliases] on the world. *)
Lemma update_aliases_world E f saved not_saved w :
  let w' := (update_aliases E f saved not_saved w).2 in
  recipients w' = f (recipients w) ∧ store w' = store w ∧
  alias_file w' = (SaveAliases (alias_io E (tick w)) (alias_file w) (aliases (f (recipients w)))).2.
Proof.
  unfold update_aliases. cbn.
  unfold SnapshotAliases. by destruct (SaveAliases _ _ _) as [[e|] file].
Qed.

(** * Properties *)

(** C40. The advertised addresses work.  The help text for a chat shows its address
    and its silent address; mail to either, as it is shown, resolves to that very
    chat and to nothing else, silent exactly for the silent one, and the sender
    reads the chat number back. *)
Theorem advertised_address_resolves `{UnicodeTables} b z d p silent :
  in_int64 z → valid_utf8 d → trim_space d ≠ [] → "@"%char ∉ norm d → allowedDomain p = norm d →
  aliases p !! shown_local (format_int z) silent = None →
  let address := shown_local (format_int z) silent ++ "@" ++ or_relay_local d in
  (∃ before after, BuildChatInfoReply b (format_int z) d = before ++ "- " ++ address ++ nl ++ after) ∧
  ∃ pr t, Recipient.Parse p address = Ok pr ∧ Targets pr = [t] ∧ ChatID t = format_int z ∧
    Silent t = silent ∧ parseChatID (ChatID t) = Ok z.
Proof.
  intros Hz Hd Hne Hat Hdom Hal address. split.
  { destruct (shown_in_reply b (format_int z) d silent) as (x & y & E). exists x, y. rewrite E.
    unfold address. by rewrite <- !app_assoc. }
  rewrite shown_local_id in Hal. unfold address. rewrite shown_local_id.
  set (local := "chatid" ++ _) in *.
  assert (forallb plain_byte (local ++ "@") = true) as Hplain.
  { unfold local. rewrite !forallb_app, format_int_plain. by destruct silent. }
  assert (norm (local ++ "@" ++ or_relay_local d) = local ++ "@" ++ allowedDomain p) as Hn.
  { unfold or_relay_local. cbv zeta. rewrite decide_False by done.
    rewrite app_assoc, norm_address by (try done; by destruct local). by rewrite Hdom, <- app_assoc. }
  assert ("@"%char ∉ local) as Hl.
  { unfold local. rewrite !elem_of_app. intros [Hin|[Hin|Hin]].
    - revert Hin. by apply (bool_decide_eq_true_1 ("@"%char ∉ ("chatid" : bytes))).
    - by apply (format_int_no "@" z) in Hin.
    - destruct silent; [|by apply elem_of_nil in Hin]. revert Hin.
      by apply (bool_decide_eq_true_1 ("@"%char ∉ (".silent" : bytes))). }
  assert ("."%char ∉ format_int z) as Hdot by by apply format_int_no.
  assert (trim_space (format_int z) = format_int z) as Ht by (apply trim_space_plain, format_int_plain).
  set (flags := if silent then "silent" : bytes else []).
  assert (names_target local (mkTarget (format_int z)
    (bool_decide (("silent" : bytes) ∈ trim_space <$> split "."%char flags)) local)) as Hnt.
  { rewrite <- Ht. apply names_target_intro; [done| |by rewrite Ht; apply digits_chat_id].
    unfold local, flags. destruct silent; [by right|left]. by rewrite app_nil_r. }
  set (t := mkTarget _ _ _) in Hnt. eexists _, t.
  split; [apply resolves_Parse, (resolves_intro p _ local [local] [t])|]; try done.
  - by rewrite Hdom.
  - by rewrite Hal.
  - by constructor.
  - cbn [Targets ChatID Silent]. split_and!; [done..| |by apply parseChatID_format].
    unfold flags. by destruct silent.
Qed.

Lemma advertised_address_resolves_witness :
  ∃ pr t, Recipient.Parse (H:=basic_unicode) (mkParser "relay.local" ∅) "chatid-73211480961715.silent@Relay.local" = Ok pr ∧
    Targets pr = [t] ∧ ChatID t = "-73211480961715" ∧ Silent t = true ∧ parseChatID (H:=basic_unicode) (ChatID t) = Ok (-73211480961715).
Proof.
  refine (proj2 (advertised_address_resolves (H:=basic_unicode) default_build (-73211480961715) " Relay.local"
    (mkParser "relay.local" ∅) true _ _ _ _ _ _)).
  - unfold in_int64, int64_min, int64_max. lia.
  - vm_compute. reflexivity.
  - vm_compute. discriminate.
  - vm_compute. intros H. repeat (apply elem_of_cons in H as [H|H]; [discriminate|]). by apply elem_of_nil in H.
  - vm_compute. reflexivity.
  - apply lookup_empty.
Defined.

(** C29. Strangers only get help.  A message that is not the administrator's (another
    chat, no sender, or no administrator configured) changes neither aliases nor
    their file, the queue or the confirmations.  Either it has no effect at all, as
    messages of bots, this one included, never have; or a public reply is sent, one
    silent text to the chat it came from, and of the statistics only what the
    limiter counts for that text changes. *)
Theorem strangers_only_get_help `{Replayer} E bot ctx m w :
  ¬ is_admin_message bot m ∨ from_bot bot m = true →
  let w' := (handleBotUpdate E bot ctx (MessageCreatedUpdate (Some m)) w).2 in
  store w' = store w ∧ recipients w' = recipients w ∧ alias_file w' = alias_file w ∧
  pendingConfirm w' = pendingConfirm w ∧
  (w' = w ∨ from_bot bot m = false ∧ ∃ r o, public_reply E bot m = Some r ∧
     sent w' = sent w ++ [(mkSend (format_int (ChatId m)) (PText r) true, o)] ∧
     metrics w' = RateLimiter.marked (limiter_passage E (tick w)) (metrics w)).
Proof.
  intros Hs. cbv zeta. rewrite handle_message.
  destruct (from_bot bot m) eqn:Hf; [by split_and!; [..|left]|].
  destruct Hs as [Hs|Hs]; [|done]. cbn [orb]. destruct (ChatId m =? 0); [by split_and!; [..|left]|].
  destruct (public_reply E bot m) as [r|].
  - unfold SendText. rewrite exec_call_sender. split_and!; try done. right. split; [done|]. by eexists r, _.
  - rewrite maybe_stranger by exact Hs. by split_and!; [..|left].
Qed.

Lemma strangers_only_get_help_witness :
  let m := mkMessage (Some (mkUser 5 false)) 8 "/unalias ops" in
  (handleBotUpdate (H:=refusing) wit_env wit_bot Background (MessageCreatedUpdate (Some m)) wit_world).2 = wit_world.
Proof.
  intros m. destruct (strangers_only_get_help (H:=refusing) wit_env wit_bot Background m wit_world)
    as (_ & _ & _ & _ & [Hw|(_ & r & o & Hr & _)]).
  - left. intros (_ & _ & E). revert E. vm_compute. discriminate.
  - exact Hw.
  - exfalso. revert Hr. clear. vm_compute. discriminate.
Defined.

(** C28. Nothing is replayed without a confirmation.  An update changes the queue only
    if it is the administrator's [/confirm] with a token that is registered for
    this chat, not expired, and not used before. *)
Theorem replay_needs_confirmation `{Replayer} E bot ctx u w :
  let w' := (handleBotUpdate E bot ctx u w).2 in
  store w' = store w ∨
  ∃ m c token x, u = MessageCreatedUpdate (Some m) ∧ is_admin_message bot m ∧ from_bot bot m = false ∧
    command_of E m = Some ("/confirm", [c; token]) ∧
    (consumeConfirm (clock E (tick w)) (adminChatID bot) token (pendingConfirm w)).1 = Some x.
Proof.
  cbv zeta. destruct u as [[m|]|]; [|by left|by left]. rewrite handle_message.
  destruct (from_bot bot m) eqn:Hf; [by left|]. cbn [orb]. destruct (ChatId m =? 0); [by left|].
  destruct (public_reply E bot m) as [r|]; [left; apply frame_send_store|].
  assert ((adminChatID bot ≠ 0 ∧ Sender m ≠ None ∧ ChatId m = adminChatID bot) ∨
    ¬ (adminChatID bot ≠ 0 ∧ Sender m ≠ None ∧ ChatId m = adminChatID bot)) as [Ha|Ha].
  { destruct (decide (adminChatID bot = 0)), (decide (ChatId m = adminChatID bot)), (Sender m); naive_solver. }
  2: { rewrite maybe_stranger by done. by left. }
  rewrite maybe_admin by exact Ha. destruct (command_of E m) as [[c parts]|] eqn:Hc; [|by left].
  assert (∀ (p : option bytes * World), store
    (let '(r, w1) := p in match r with
       | Some r => (tt, (SendText E (format_int (ChatId m)) r true w1).2)
       | None => (tt, w1) end).2 = store p.2) as Hsend by (intros [[r|] w1]; [apply frame_send_store|done]).
  rewrite Hsend. destruct (decide (c = "/confirm")) as [->|Hne].
  2: { left. by apply (admin_command_store E bot ctx (ChatId m) c parts). }
  revert Hc. unfold admin_command. cbv zeta.
  repeat match goal with |- context [decide (?s = ?t :> bytes)] =>
    first [rewrite (decide_False (P := s = t)) by done | rewrite (decide_True (P := s = t)) by done] end.
  intros Hc. destruct parts as [|p0 [|token [|]]]; try by left.
  rewrite exec_fmap, exec_bind, exec_confirm_take. destruct Ha as (H1 & H2 & H3). rewrite H3.
  destruct (consumeConfirm _ _ _ _) as [[x|] m'] eqn:Hx; [|by left].
  destruct (dlqAdmin bot) as [a|]; [|by left]. right.
  exists m, p0, token, x. split_and!; [done|done|done|done|]. by rewrite Hx.
Qed.

(** C27. [/alias] makes an address.  After the administrator's command with an
    acceptable name and target, the alias has exactly that target; mail to the
    alias at the relay's domain resolves to the target's chat alone; nothing
    changes in the queue; and if the file could be written, a restart loads the
    very table. *)
Theorem alias_command_effective `{Replayer} E bot ctx m c a b target w :
  is_admin_message bot m → from_bot bot m = false → public_reply E bot m = None → has_aliases bot = true →
  command_of E m = Some ("/alias", [c; a; b]) →
  normalizeAliasName (H:=tables E) a ≠ [] → normalizeAliasTarget (H:=tables E) b = Ok target →
  ValidateAliasTarget (H:=tables E) target = None →
  let p := recipients w in
  "@"%char ∉ allowedDomain p → norm (H:=tables E) (allowedDomain p) = allowedDomain p →
  let name := normalizeAliasName (H:=tables E) a in
  let w' := (handleBotUpdate E bot ctx (MessageCreatedUpdate (Some m)) w).2 in
  aliases (recipients w') = <[name := [norm (H:=tables E) target]]> (aliases p) ∧ store w' = store w ∧
  (∃ pr t, Recipient.Parse (H:=tables E) (recipients w') (name ++ "@" ++ allowedDomain p) = Ok pr ∧
     Targets pr = [t] ∧ names_target (norm (H:=tables E) target) t ∧ AliasUsed pr = true) ∧
  (alias_io E (tick w) = SaveOk → aliases_wf (H:=tables E) (aliases p) →
     LoadAliases (H:=tables E) (H0:=runtime E) (alias_file w') = Ok (aliases (recipients w'))).
Proof.
  intros Ha Hf Hpub Hal Hc Hname Htarget Hvalid p Hat Hdom name w'.
  destruct (normalizeAliasName_spec (H:=tables E) a) as (Hnn & Hplain & Hnat). cbv zeta in *. fold name in Hnn, Hplain, Hnat.
  destruct (ValidateAliasTarget_names (H:=tables E) _ Hvalid) as [t Ht].
  assert (norm (H:=tables E) target ≠ []) as Htne by (intros E0; rewrite E0 in Ht; by inversion Ht as [? ? ? [[? ?]|?]]).
  assert (SetAliasGroup (H:=tables E) p name [target] =
    set_aliases p (<[name := [norm (H:=tables E) target]]> (aliases p))) as Hset.
  { unfold SetAliasGroup. cbv zeta. fold (norm (H:=tables E) name). rewrite Hnn.
    assert (normalizeAliasTargets (H:=tables E) [target] = [norm (H:=tables E) target]) as ->.
    { unfold normalizeAliasTargets. cbn [fmap list_fmap]. rewrite filter_cons, decide_True by done.
      apply dedup_NoDup, NoDup_singleton. }
    by rewrite !decide_False by first [exact Hname|discriminate|intros [E0|E0]; [by apply Hname|discriminate E0]]. }
  assert (recipients w' = set_aliases p (<[name := [norm (H:=tables E) target]]> (aliases p)) ∧
    store w' = store w ∧
    alias_file w' = (SaveAliases (alias_io E (tick w)) (alias_file w) (aliases (recipients w'))).2) as (Hr & Hs & Hfile).
  { unfold w'. rewrite handle_message, Hf, Hpub. assert (ChatId m =? 0 = false) as -> by (destruct Ha as (? & _ & ->); by apply Z.eqb_neq).
    cbn [orb]. rewrite maybe_admin by done. rewrite Hc.
    unfold admin_command, alias_command, bot_tables. cbv zeta.
    repeat match goal with |- context [decide (?s = ?t :> bytes)] =>
      first [rewrite (decide_False (P := s = t)) by done | rewrite (decide_True (P := s = t)) by done] end.
    rewrite Hal. cbn [negb]. cbv beta iota. fold name. rewrite Htarget, Hvalid.
    rewrite <- Hset, exec_fmap.
    match goal with |- context [exec (update_aliases E ?f ?x ?y) w] =>
      destruct (update_aliases_world E f x y w) as (U1 & U2 & U3); destruct (update_aliases E f x y w) as [r w1] end.
    cbn [snd] in *. destruct (exec_SendText E (format_int (ChatId m)) r true w1) as (n & o & q & Hsend).
    rewrite Hsend. cbn. by rewrite U1. }
  rewrite Hr in *. split; [done|]. split; [done|]. split.
  - eexists _, t. split; [apply resolves_Parse, (resolves_intro (H:=tables E) _ _ name [norm (H:=tables E) target] [t])|]; try done.
    + rewrite app_assoc. rewrite norm_plain_app; [by rewrite <- app_assoc|by destruct name|..|done].
      by rewrite forallb_app, Hplain.
    + cbn. by rewrite lookup_insert_eq.
    + by constructor.
    + split_and!; [done|done|]. cbn. by rewrite lookup_insert_eq.
  - intros Hio Hwf. rewrite Hfile, Hio. apply LoadAliases_saved.
    rewrite <- Hset. apply (apply_op_wf (H:=tables E) p (OpSet name [target])). exact Hwf.
Qed.

Lemma alias_command_effective_witness :
  let w' := (handleBotUpdate (H:=refusing) wit_env wit_bot Background
    (MessageCreatedUpdate (Some (wit_message "/Alias Alerts -5.silent"))) wit_world).2 in
  aliases (recipients w') = {[ "alerts" := ["chatid-5.silent"] ]}.
Proof.
  destruct (alias_command_effective (H:=refusing) wit_env wit_bot Background (wit_message "/Alias Alerts -5.silent")
    "/Alias" "Alerts" "-5.silent" "chatid-5.silent" wit_world) as (Ha & _).
  - split_and!; vm_compute; discriminate || reflexivity.
  - reflexivity.
  - vm_compute. reflexivity.
  - reflexivity.
  - vm_compute. reflexivity.
  - vm_compute. discriminate.
  - vm_compute. reflexivity.
  - vm_compute. reflexivity.
  - refine (bool_decide_eq_true_1 ("@"%char ∉ allowedDomain (recipients wit_world)) _). vm_compute. reflexivity.
  - vm_compute. reflexivity.
  - exact Ha.
Defined.

(** [/alias_group] and [/alias_add] do not validate their targets as [/alias]
    does: one bad target is stored, and then mail to the alias is refused for
    all of its targets. *)
Theorem group_targets_unvalidated :
  let send text w := (handleBotUpdate (H:=refusing) wit_env wit_bot Background
    (MessageCreatedUpdate (Some (wit_message text))) w).2 in
  let w1 := send "/alias ops 1" wit_world in
  let w2 := send "/alias_add ops chatidx" w1 in
  let parse w := is_ok (Recipient.Parse (H:=basic_unicode) (recipients w) "ops@relay.local") in
  ValidateAliasTarget (H:=basic_unicode) "chatidx" ≠ None ∧ parse w1 = true ∧ parse w2 = false.
Proof. cbv zeta. split_and!; vm_compute; [discriminate|reflexivity|reflexivity]. Qed.
