(* ===== verification/Config.v ===== *)
(** * Configuration: [internal/config/config.go]

    [Load] reads the environment, a function from names to values; an unset
    variable reads as the empty string, as [os.Getenv] says. *)
From S2P Require Import Prelude GoStrings GoRuntime.

Open Scope Z_scope.
Open Scope go_scope.

Record Config := mkConfig {
  SMTPListenAddr : bytes;
  SMTPMaxMessageBytes : Z;
  SMTPMaxSessions : Z;
  SMTPAllowedDomain : bytes;
  AliasFilePath : bytes;
  AdminChatID : Z;
  MaxSenderMode : bytes;
  MaxAPIBaseURL : bytes;
  MaxBotToken : bytes;
  MaxSendTimeout : duration;
  MaxSendRPS : Z;
  MaxBurst : Z;
  MaxQueueCapacity : Z;
  MaxQueueWait : duration;
  RelayMaxRetries : Z;
  RelayRetryDelay : duration;
  MetricsListenAddr : bytes;
  DLQEnabled : bool;
  DLQFilePath : bytes;
  DLQWorkerInterval : duration;
  DLQMaxRetries : Z;
  DLQBaseDelay : duration;
  DLQMaxDelay : duration;
}.

(** [strconv.ParseBool] *)
Definition parse_bool (v : bytes) : option bool :=
  if decide (v ∈ (["1"; "t"; "T"; "TRUE"; "true"; "True"] : list bytes)) then Some true
  else if decide (v ∈ (["0"; "f"; "F"; "FALSE"; "false"; "False"] : list bytes)) then Some false
  else None.

Section load.
Context `{UnicodeTables} (Getenv : bytes → bytes).

Definition getEnv (key def : bytes) : bytes :=
  let v := Getenv key in if decide (v ≠ []) then v else def.

Definition getEnvInteger (fn key : bytes) (def : Z) : res Z :=
  let v := Getenv key in
  if decide (v = []) then Ok def else
  match parse_int v with
  | Some n => Ok n
  | None => Err (key ++ " must be a valid integer: " ++ num_error fn v)
  end.
(** [int] and [int64] are the same 64 bits. *)
Definition getEnvInt : bytes → Z → res Z := getEnvInteger "Atoi".
Definition getEnvInt64 : bytes → Z → res Z := getEnvInteger "ParseInt".

Definition getEnvBool (key : bytes) (def : bool) : res bool :=
  let v := Getenv key in
  if decide (v = []) then Ok def else
  match parse_bool v with
  | Some b => Ok b
  | None => Err (key ++ " must be a valid boolean: strconv.ParseBool: parsing " ++ quote v ++ ": invalid syntax")
  end.

(** [time.Duration(n) * unit], on 64 bits. *)
Definition in_units (n : Z) (unit : duration) : duration := wrap64 (n * unit).

(** The checks at the end of [Load], in order: the first that fails. *)
Definition check (b : bool) (msg : bytes) : res unit := if b then Err msg else Ok tt.
Definition validate (cfg : Config) : res unit :=
  _ ← check (bool_decide (SMTPAllowedDomain cfg = [])) "SMTP_ALLOWED_RCPT_DOMAIN must not be empty";
  _ ← check (SMTPMaxMessageBytes cfg <=? 0) "SMTP_MAX_MESSAGE_BYTES must be positive";
  _ ← check (SMTPMaxSessions cfg <=? 0) "SMTP_MAX_CONCURRENT_SESSIONS must be positive";
  _ ← check (bool_decide (MaxSenderMode cfg ≠ "stub") && bool_decide (MaxSenderMode cfg ≠ "botapi"))
        "MAX_SENDER_MODE must be one of: stub, botapi";
  _ ← check (bool_decide (MaxSenderMode cfg ≠ "stub") && bool_decide (MaxBotToken cfg = []))
        ("MAX_BOT_TOKEN must not be empty when MAX_SENDER_MODE=" ++ MaxSenderMode cfg);
  _ ← check (RelayMaxRetries cfg <? 0) "RELAY_MAX_RETRIES must be >= 0";
  _ ← check (RelayRetryDelay cfg <? 0) "RELAY_RETRY_DELAY_MS must be >= 0";
  _ ← check (AdminChatID cfg <? 0) "ADMIN_CHAT_ID must be >= 0";
  _ ← check (MaxSendRPS cfg <? 0) "MAX_SEND_RPS must be >= 0";
  _ ← check (MaxBurst cfg <? 0) "MAX_BURST must be >= 0";
  _ ← check (MaxQueueCapacity cfg <? 0) "MAX_QUEUE_CAPACITY must be >= 0";
  _ ← check (MaxQueueWait cfg <? 0) "MAX_QUEUE_WAIT_MS must be >= 0";
  _ ← check (DLQWorkerInterval cfg <? 0) "DLQ_WORKER_INTERVAL_MS must be >= 0";
  _ ← check (DLQMaxRetries cfg <? 0) "DLQ_MAX_RETRIES must be >= 0";
  _ ← check (DLQBaseDelay cfg <? 0) "DLQ_BASE_DELAY_MS must be >= 0";
  check (DLQMaxDelay cfg <? 0) "DLQ_MAX_DELAY_MS must be >= 0".

Definition Load : res Config :=
  smtpMaxMessageBytes ← getEnvInt64 "SMTP_MAX_MESSAGE_BYTES" (15 * 1024 * 1024);
  smtpMaxSessions ← getEnvInt "SMTP_MAX_CONCURRENT_SESSIONS" 200;
  maxSendTimeoutSec ← getEnvInt "MAX_SEND_TIMEOUT_SEC" 15;
  maxSendRPS ← getEnvInt "MAX_SEND_RPS" 20;
  maxBurst ← getEnvInt "MAX_BURST" 40;
  maxQueueCapacity ← getEnvInt "MAX_QUEUE_CAPACITY" 200;
  maxQueueWaitMS ← getEnvInt "MAX_QUEUE_WAIT_MS" 1000;
  relayMaxRetries ← getEnvInt "RELAY_MAX_RETRIES" 2;
  relayRetryDelayMS ← getEnvInt "RELAY_RETRY_DELAY_MS" 300;
  adminChatID ← getEnvInt64 "ADMIN_CHAT_ID" 0;
  dlqEnabled ← getEnvBool "DLQ_ENABLED" true;
  dlqWorkerIntervalMS ← getEnvInt "DLQ_WORKER_INTERVAL_MS" 2000;
  dlqMaxRetries ← getEnvInt "DLQ_MAX_RETRIES" 10;
  dlqBaseDelayMS ← getEnvInt "DLQ_BASE_DELAY_MS" 1000;
  dlqMaxDelayMS ← getEnvInt "DLQ_MAX_DELAY_MS" 300000;
  let cfg := {|
    SMTPListenAddr := getEnv "SMTP_LISTEN_ADDR" ":25";
    SMTPMaxMessageBytes := smtpMaxMessageBytes;
    SMTPMaxSessions := smtpMaxSessions;
    SMTPAllowedDomain := getEnv "SMTP_ALLOWED_RCPT_DOMAIN" "relay.local";
    AliasFilePath := getEnv "ALIAS_FILE_PATH" "./config/aliases.json";
    AdminChatID := adminChatID;
    MaxSenderMode := getEnv "MAX_SENDER_MODE" "stub";
    MaxAPIBaseURL := getEnv "MAX_API_BASE_URL" [];
    MaxBotToken := getEnv "MAX_BOT_TOKEN" [];
    MaxSendTimeout := in_units maxSendTimeoutSec Second;
    MaxSendRPS := maxSendRPS;
    MaxBurst := maxBurst;
    MaxQueueCapacity := maxQueueCapacity;
    MaxQueueWait := in_units maxQueueWaitMS Millisecond;
    RelayMaxRetries := relayMaxRetries;
    RelayRetryDelay := in_units relayRetryDelayMS Millisecond;
    MetricsListenAddr := getEnv "METRICS_LISTEN_ADDR" ":9090";
    DLQEnabled := dlqEnabled;
    DLQFilePath := getEnv "DLQ_FILE_PATH" "./data/dlq.json";
    DLQWorkerInterval := in_units dlqWorkerIntervalMS Millisecond;
    DLQMaxRetries := dlqMaxRetries;
    DLQBaseDelay := in_units dlqBaseDelayMS Millisecond;
    DLQMaxDelay := in_units dlqMaxDelayMS Millisecond |} in
  _ ← validate cfg;
  Ok cfg.
End load.

(** * Specification: what the rest of the program relies on *)
Definition config_ok (cfg : Config) : Prop :=
  SMTPAllowedDomain cfg ≠ [] ∧ 0 < SMTPMaxMessageBytes cfg ∧ 0 < SMTPMaxSessions cfg ∧
  (MaxSenderMode cfg = "stub" ∨ MaxSenderMode cfg = "botapi" ∧ MaxBotToken cfg ≠ []) ∧
  0 ≤ RelayMaxRetries cfg ∧ 0 ≤ RelayRetryDelay cfg ∧ 0 ≤ AdminChatID cfg ∧
  0 ≤ MaxSendRPS cfg ∧ 0 ≤ MaxBurst cfg ∧ 0 ≤ MaxQueueCapacity cfg ∧ 0 ≤ MaxQueueWait cfg ∧
  0 ≤ DLQWorkerInterval cfg ∧ 0 ≤ DLQMaxRetries cfg ∧ 0 ≤ DLQBaseDelay cfg ∧ 0 ≤ DLQMaxDelay cfg.

(** The value of an integer variable: the default if it is unset. *)
Definition integer_value (Getenv : bytes → bytes) (key : bytes) (def z : Z) : Prop :=
  Getenv key = [] ∧ z = def ∨ Getenv key ≠ [] ∧ parse_int (Getenv key) = Some z.

Definition integer_fields (cfg : Config) : list (bytes * Z * Z) :=
  [ ("SMTP_MAX_MESSAGE_BYTES" : bytes, 15 * 1024 * 1024, SMTPMaxMessageBytes cfg);
    ("SMTP_MAX_CONCURRENT_SESSIONS" : bytes, 200, SMTPMaxSessions cfg);
    ("MAX_SEND_RPS" : bytes, 20, MaxSendRPS cfg); ("MAX_BURST" : bytes, 40, MaxBurst cfg);
    ("MAX_QUEUE_CAPACITY" : bytes, 200, MaxQueueCapacity cfg);
    ("RELAY_MAX_RETRIES" : bytes, 2, RelayMaxRetries cfg); ("ADMIN_CHAT_ID" : bytes, 0, AdminChatID cfg);
    ("DLQ_MAX_RETRIES" : bytes, 10, DLQMaxRetries cfg) ].

Definition duration_fields (cfg : Config) : list (bytes * Z * duration * duration) :=
  [ ("MAX_SEND_TIMEOUT_SEC" : bytes, 15, Second, MaxSendTimeout cfg);
    ("MAX_QUEUE_WAIT_MS" : bytes, 1000, Millisecond, MaxQueueWait cfg);
    ("RELAY_RETRY_DELAY_MS" : bytes, 300, Millisecond, RelayRetryDelay cfg);
    ("DLQ_WORKER_INTERVAL_MS" : bytes, 2000, Millisecond, DLQWorkerInterval cfg);
    ("DLQ_BASE_DELAY_MS" : bytes, 1000, Millisecond, DLQBaseDelay cfg);
    ("DLQ_MAX_DELAY_MS" : bytes, 300000, Millisecond, DLQMaxDelay cfg) ].

Definition string_fields (cfg : Config) : list (bytes * bytes * bytes) :=
  [ ("SMTP_LISTEN_ADDR" : bytes, ":25" : bytes, SMTPListenAddr cfg);
    ("SMTP_ALLOWED_RCPT_DOMAIN" : bytes, "relay.local" : bytes, SMTPAllowedDomain cfg);
    ("ALIAS_FILE_PATH" : bytes, "./config/aliases.json" : bytes, AliasFilePath cfg);
    ("MAX_SENDER_MODE" : bytes, "stub" : bytes, MaxSenderMode cfg);
    ("MAX_API_BASE_URL" : bytes, [], MaxAPIBaseURL cfg); ("MAX_BOT_TOKEN" : bytes, [], MaxBotToken cfg);
    ("METRICS_LISTEN_ADDR" : bytes, ":9090" : bytes, MetricsListenAddr cfg);
    ("DLQ_FILE_PATH" : bytes, "./data/dlq.json" : bytes, DLQFilePath cfg) ].

(** The configuration the environment describes: every variable has its value
    or its default, and durations are the numbers times the unit on 64 bits. *)
Definition describes (Getenv : bytes → bytes) (cfg : Config) : Prop :=
  Forall (λ '(k, d, z), integer_value Getenv k d z) (integer_fields cfg) ∧
  Forall (λ '(k, d, u, v), ∃ n, integer_value Getenv k d n ∧ v = wrap64 (n * u)) (duration_fields cfg) ∧
  Forall (λ '(k, d, v), v = if decide (Getenv k = []) then d else Getenv k) (string_fields cfg) ∧
  (Getenv "DLQ_ENABLED" = [] ∧ DLQEnabled cfg = true ∨
   Getenv "DLQ_ENABLED" ≠ [] ∧ parse_bool (Getenv "DLQ_ENABLED") = Some (DLQEnabled cfg)).

(** * Lemmas *)
Lemma bind_Ok {A B} (x : res A) (f : A → res B) y : x ≫= f = Ok y ↔ ∃ a, x = Ok a ∧ f a = Ok y.
Proof. destruct x; cbn; naive_solver. Qed.

Lemma check_Ok b msg u : check b msg = Ok u ↔ b = false.
Proof. unfold check. destruct b, u; done. Qed.

Lemma check_then {B} b msg (f : unit → res B) y : check b msg ≫= f = Ok y ↔ b = false ∧ f tt = Ok y.
Proof. unfold check. destruct b; cbn; naive_solver. Qed.

Lemma bool_decide_not {P : Prop} `{Decision P} : bool_decide (¬ P) = false ↔ P.
Proof. rewrite bool_decide_eq_false. destruct (decide P); tauto. Qed.

Lemma mode_ok m token :
  (m = "stub" ∨ m = "botapi") ∧ (m = "stub" ∨ token ≠ []) ↔ m = "stub" ∨ m = "botapi" ∧ token ≠ ([] : bytes).
Proof. split; [tauto|]. intros [->|[-> H]]; split; auto. Qed.

Lemma validate_Ok cfg : validate cfg = Ok tt ↔ config_ok cfg.
Proof.
  unfold validate, config_ok. rewrite !check_then, check_Ok.
  rewrite !andb_false_iff, !bool_decide_not, !bool_decide_eq_false, !Z.ltb_ge, !Z.leb_gt.
  rewrite <- mode_ok. tauto.
Qed.

Section lemmas.
Context `{UnicodeTables} (Getenv : bytes → bytes).

Lemma getEnvInteger_Ok fn key def z :
  getEnvInteger Getenv fn key def = Ok z ↔ integer_value Getenv key def z.
Proof.
  unfold getEnvInteger, integer_value. cbv zeta. case_decide as Hv; [naive_solver|].
  destruct (parse_int (Getenv key)); naive_solver.
Qed.

Lemma getEnvBool_Ok key def b :
  getEnvBool Getenv key def = Ok b ↔
  Getenv key = [] ∧ b = def ∨ Getenv key ≠ [] ∧ parse_bool (Getenv key) = Some b.
Proof.
  unfold getEnvBool. cbv zeta. case_decide as Hv; [naive_solver|].
  destruct (parse_bool (Getenv key)); naive_solver.
Qed.

Lemma getEnv_value key def : getEnv Getenv key def = if decide (Getenv key = []) then def else Getenv key.
Proof. unfold getEnv. repeat case_decide; done. Qed.
End lemmas.

(** * Properties *)

Lemma Load_iff `{UnicodeTables} Getenv cfg :
  Load Getenv = Ok cfg ↔ describes Getenv cfg ∧ config_ok cfg.
Proof.
  unfold Load, getEnvInt, getEnvInt64. split.
  - intros HL. repeat (apply bind_Ok in HL as (? & ?%getEnvInteger_Ok & HL)).
    apply bind_Ok in HL as (b & Hb%getEnvBool_Ok & HL).
    repeat (apply bind_Ok in HL as (? & ?%getEnvInteger_Ok & HL)).
    apply bind_Ok in HL as ([] & Hv%validate_Ok & HL). injection HL as <-.
    split; [|exact Hv]. unfold describes, integer_fields, duration_fields, string_fields, in_units. cbn.
    rewrite !Forall_cons, !Forall_nil, <- !getEnv_value. split_and!; try done; by eexists.
  - intros [(Hi & Hd & Hs & Hb) Hok]. destruct cfg.
    unfold integer_fields, duration_fields, string_fields in Hi, Hd, Hs. cbn in Hi, Hd, Hs, Hb.
    rewrite !Forall_cons in Hi. rewrite !Forall_cons in Hd. rewrite !Forall_cons in Hs. destruct_and!.
    repeat match goal with Hx : ∃ _, _ |- _ => destruct Hx as (? & ? & ?) end.
    repeat match goal with Hx : integer_value _ ?k ?d ?z |- context [getEnvInteger _ ?fn ?k ?d] =>
      rewrite (proj2 (getEnvInteger_Ok Getenv fn k d z) Hx); cbn [mbind res_bind] end.
    rewrite (proj2 (getEnvBool_Ok Getenv _ _ _) Hb). cbn [mbind res_bind].
    repeat match goal with Hx : integer_value _ ?k ?d ?z |- context [getEnvInteger _ ?fn ?k ?d] =>
      rewrite (proj2 (getEnvInteger_Ok Getenv fn k d z) Hx); cbn [mbind res_bind] end.
    rewrite !getEnv_value. unfold in_units. subst.
    match goal with |- context [validate ?c] => rewrite (proj2 (validate_Ok c)) end; [done|exact Hok].
Qed.

(** The metrics server cannot be turned off: an empty [METRICS_LISTEN_ADDR] is taken for
    a missing one and gives the default address, although the README says [set empty
    to disable] and [main] tests for an empty address. *)
Lemma metrics_always_on `{UnicodeTables} Getenv cfg :
  Load Getenv = Ok cfg →
  MetricsListenAddr cfg ≠ [] ∧ (Getenv "METRICS_LISTEN_ADDR" = [] → MetricsListenAddr cfg = ":9090").
Proof.
  intros [(_ & _ & Hs & _) _]%Load_iff. unfold string_fields in Hs. rewrite !Forall_cons in Hs. destruct_and!.
  match goal with Hm : context [MetricsListenAddr cfg] |- _ => revert Hm end.
  cbn. destruct (decide (Getenv "METRICS_LISTEN_ADDR" = [])) as [He|He]; intros ->; by split.
Qed.

(** C33. [Load] returns a configuration exactly when the environment describes it and
    it is one the program can run with: a domain, positive limits, a known mode
    with its token, and no negative number or duration.  A variable that is empty
    counts as missing: so the metrics address is never empty, and what the README says
    of it, that empty disables the metrics, does not hold. *)
Theorem Load_spec `{UnicodeTables} Getenv cfg :
  (Load Getenv = Ok cfg ↔ describes Getenv cfg ∧ config_ok cfg) ∧
  (Load Getenv = Ok cfg → MetricsListenAddr cfg ≠ [] ∧
     (Getenv "METRICS_LISTEN_ADDR" = [] → MetricsListenAddr cfg = ":9090")).
Proof. split; [apply Load_iff|apply metrics_always_on]. Qed.

(** With nothing set, the defaults. *)
Example Load_defaults : is_ok (Load (H:=basic_unicode) (λ _, [])) = true.
Proof. vm_compute. reflexivity. Qed.

(** The product of number and unit wraps around before it is checked: a retry
    delay of 584 years becomes less than half a millisecond. *)
Theorem Load_duration_wraps :
  RelayRetryDelay <$> Load (H:=basic_unicode)
    (λ k, if decide (k = "RELAY_RETRY_DELAY_MS") then "18446744073710" else []) = Ok 448384.
Proof. vm_compute. reflexivity. Qed.
