(* ===== verification/MaxClient.v ===== *)
(** * The MAX client library: [third_party/max-bot-api-client-go]

    The HTTP client of the MAX API that the sender and the bot use.  A computation
    appends what it does to the list of what was done so far; what the server
    answers, and whether a context is done, is an oracle.  [encoding/json] works on
    documents ([GoJson]); its parser of texts, and [net/url], are parameters. *)
From S2P Require Import Prelude GoStrings GoRuntime GoJson Recipient DlqStore Metrics Email Trace.
From S2P Require Import Confirm World Backoff DlqWorker DlqAdmin Version BotHelp BotSender Bot.

Open Scope Z_scope.
Open Scope go_scope.

(** ** Go's libraries *)
Class JsonText := {
  (** [json.Unmarshal] of a whole text, and [Decoder.Decode] of the first value of a
      stream: the document or the syntax error. *)
  json_unmarshal : bytes → res json;
  json_decode : bytes → res json;
  (** The text of the first type error when a document is decoded. *)
  json_type_error : json → bytes;
}.
Class NetUrl := {
  Url : Type;
  url_parse : bytes → res Url;
  url_path : Url → bytes;
  (** [u.String()] once its path, and its query if one is given, are replaced. *)
  url_string : Url → bytes → option bytes → bytes;
}.

(** [path.Clean] and [path.Join] *)
Fixpoint clean_go (rooted : bool) (l stack : list bytes) : list bytes :=
  match l with
  | [] => reverse stack
  | c :: l =>
    if decide (c = [] ∨ c = ".") then clean_go rooted l stack
    else if decide (c = "..") then
      match stack with
      | top :: stack' => if decide (top = "..") then clean_go rooted l (c :: stack) else clean_go rooted l stack'
      | [] => clean_go rooted l (if rooted then [] else [c])
      end
    else clean_go rooted l (c :: stack)
  end.
Definition path_clean (p : bytes) : bytes :=
  let rooted := has_prefix p "/" in
  let s := (if rooted then "/" else []) ++ join "/" (clean_go rooted (split "/"%char p) []) in
  if decide (s = []) then "." else s.
Definition path_join (a b : bytes) : bytes :=
  match filter (λ s, s ≠ []) [a; b] with [] => [] | l => path_clean (join "/" l) end.

(** [filepath.Base] *)
Definition path_base (p : bytes) : bytes :=
  if decide (p = []) then "." else
  let p := rdrop_while (λ a, bool_decide (a = "/"%char)) p in
  let p := default [] (last (split "/"%char p)) in
  if decide (p = []) then "/" else p.

(** [url.Values] with one value per key, and its [Encode]. *)
Abbreviation Values := (gmap bytes bytes).
Definition unreserved (a : ascii) : bool :=
  is_digit (code a) || ((65 <=? code a) && (code a <=? 90)) || ((97 <=? code a) && (code a <=? 122)) ||
  bool_decide (a ∈ (["-"%char; "_"%char; "."%char; "~"%char])).
Definition upper_hex_digit (d : Z) : ascii := byte_of (if d <? 10 then 48 + d else 55 + d).
Definition query_escape (s : bytes) : bytes :=
  s ≫= λ a, if unreserved a then [a]
            else if decide (a = " "%char) then "+"
            else ["%"%char; upper_hex_digit (code a / 16); upper_hex_digit (code a mod 16)].
Definition values_encode (v : Values) : bytes :=
  join "&" ((λ kv, query_escape kv.1 ++ "=" ++ query_escape kv.2) <$> sorted_entries v).

(** ** [schemes] *)
Record schemes_User := mkSchemesUser { su_UserId : Z; su_FirstName : bytes; su_Username : bytes; su_IsBot : bool }.
Record BotInfo := mkBotInfo {
  bi_UserId : Z; bi_FirstName : bytes; bi_Username : bytes; bi_IsBot : bool; bi_Description : bytes }.
Record schemes_Recipient := mkSchemesRecipient { sr_UserId : Z; sr_ChatId : Z }.
Record MessageBody := mkMessageBody { mb_Mid : bytes; mb_Text : bytes }.
Record schemes_Message := mkSchemesMessage {
  sm_Sender : option schemes_User; sm_Recipient : schemes_Recipient; sm_Timestamp : Z; sm_Body : MessageBody }.
Record MessageCreated := mkMessageCreated {
  mc_UpdateType : bytes; mc_Timestamp : Z; mc_Message : schemes_Message; mc_UserLocale : option bytes }.
Record UploadInfo := mkUploadInfo { ui_Token : bytes }.
Record UploadEndpoint := mkUploadEndpoint { ue_URL : bytes; ue_Token : bytes }.
Record APIError := mkAPIError { Code : bytes; ErrMessage : bytes; Details : bytes; ErrStatusCode : Z }.

Definition decode_user : decoder schemes_User := decode_struct [
  field "user_id" su_UserId (λ x u, mkSchemesUser x (su_FirstName u) (su_Username u) (su_IsBot u)) decode_int64;
  field "first_name" su_FirstName (λ x u, mkSchemesUser (su_UserId u) x (su_Username u) (su_IsBot u)) decode_string;
  field "username" su_Username (λ x u, mkSchemesUser (su_UserId u) (su_FirstName u) x (su_IsBot u)) decode_string;
  field "is_bot" su_IsBot (λ x u, mkSchemesUser (su_UserId u) (su_FirstName u) (su_Username u) x) decode_bool].
Definition decode_bot_info : decoder BotInfo := decode_struct [
  field "user_id" bi_UserId
    (λ x b, mkBotInfo x (bi_FirstName b) (bi_Username b) (bi_IsBot b) (bi_Description b)) decode_int64;
  field "first_name" bi_FirstName
    (λ x b, mkBotInfo (bi_UserId b) x (bi_Username b) (bi_IsBot b) (bi_Description b)) decode_string;
  field "username" bi_Username
    (λ x b, mkBotInfo (bi_UserId b) (bi_FirstName b) x (bi_IsBot b) (bi_Description b)) decode_string;
  field "is_bot" bi_IsBot
    (λ x b, mkBotInfo (bi_UserId b) (bi_FirstName b) (bi_Username b) x (bi_Description b)) decode_bool;
  field "description" bi_Description
    (λ x b, mkBotInfo (bi_UserId b) (bi_FirstName b) (bi_Username b) (bi_IsBot b) x) decode_string].
Definition decode_recipient : decoder schemes_Recipient := decode_struct [
  field "user_id" sr_UserId (λ x r, mkSchemesRecipient x (sr_ChatId r)) decode_int64;
  field "chat_id" sr_ChatId (λ x r, mkSchemesRecipient (sr_UserId r) x) decode_int64].
Definition decode_body : decoder MessageBody := decode_struct [
  field "mid" mb_Mid (λ x b, mkMessageBody x (mb_Text b)) decode_string;
  field "text" mb_Text (λ x b, mkMessageBody (mb_Mid b) x) decode_string].
Definition zero_user : schemes_User := mkSchemesUser 0 [] [] false.
Definition decode_message : decoder schemes_Message := decode_struct [
  field "sender" sm_Sender (λ x m, mkSchemesMessage x (sm_Recipient m) (sm_Timestamp m) (sm_Body m))
    (decode_pointer zero_user decode_user);
  field "recipient" sm_Recipient (λ x m, mkSchemesMessage (sm_Sender m) x (sm_Timestamp m) (sm_Body m)) decode_recipient;
  field "timestamp" sm_Timestamp (λ x m, mkSchemesMessage (sm_Sender m) (sm_Recipient m) x (sm_Body m)) decode_int64;
  field "body" sm_Body (λ x m, mkSchemesMessage (sm_Sender m) (sm_Recipient m) (sm_Timestamp m) x) decode_body].
Definition zero_message : schemes_Message :=
  mkSchemesMessage None (mkSchemesRecipient 0 0) 0 (mkMessageBody [] []).
(** The fields of the embedded [Update] are fields of the update. *)
Definition decode_message_created : decoder MessageCreated := decode_struct [
  field "update_type" mc_UpdateType
    (λ x u, mkMessageCreated x (mc_Timestamp u) (mc_Message u) (mc_UserLocale u)) decode_string;
  field "timestamp" mc_Timestamp
    (λ x u, mkMessageCreated (mc_UpdateType u) x (mc_Message u) (mc_UserLocale u)) decode_int64;
  field "message" mc_Message
    (λ x u, mkMessageCreated (mc_UpdateType u) (mc_Timestamp u) x (mc_UserLocale u)) decode_message;
  field "user_locale" mc_UserLocale
    (λ x u, mkMessageCreated (mc_UpdateType u) (mc_Timestamp u) (mc_Message u) x) (decode_pointer [] decode_string)].
Definition zero_message_created : MessageCreated := mkMessageCreated [] 0 zero_message None.
Definition decode_header : decoder bytes := decode_struct [field "update_type" id (λ x _, x) decode_string].
Definition decode_message_response : decoder schemes_Message := decode_struct [field "message" id (λ x _, x) decode_message].
Definition decode_upload_info : decoder UploadInfo := decode_struct [
  field "token" ui_Token (λ x _, mkUploadInfo x) decode_string].
Definition decode_endpoint : decoder UploadEndpoint := decode_struct [
  field "url" ue_URL (λ x e, mkUploadEndpoint x (ue_Token e)) decode_string;
  field "token" ue_Token (λ x e, mkUploadEndpoint (ue_URL e) x) decode_string].
Definition decode_api_error : decoder APIError := decode_struct [
  field "code" Code (λ x e, mkAPIError x (ErrMessage e) (Details e) (ErrStatusCode e)) decode_string;
  field "message" ErrMessage (λ x e, mkAPIError (Code e) x (Details e) (ErrStatusCode e)) decode_string;
  field "details" Details (λ x e, mkAPIError (Code e) (ErrMessage e) x (ErrStatusCode e)) decode_string].

(** ** Errors *)
Definition APIError_Error (e : APIError) : bytes :=
  match filter (λ s, s ≠ []) [Code e; ErrMessage e; Details e] with
  | [] => "max api error status=" ++ format_int (ErrStatusCode e)
  | parts => join ": " parts
  end.
Definition IsAttachmentNotReady `{UnicodeTables} (e : APIError) : bool :=
  let text := to_lower (Code e ++ " " ++ ErrMessage e ++ " " ++ Details e) in
  contains text "attachment.not.ready" || contains text "not.ready" || contains text "not.processed".

(** An error of the library: an [*APIError], or another. *)
Inductive client_error :=
  | ApiErr (e : APIError)
  | OtherErr (e : bytes).
Definition client_error_text (e : client_error) : bytes :=
  match e with ApiErr e => APIError_Error e | OtherErr e => e end.
Definition result (A : Type) : Type := (A + client_error)%type.

(** ** Requests *)
Inductive request_body :=
  | NoBody
  | JsonBody (v : json)
  (** A multipart form with one file. *)
  | FormFile (field_name file_name data : bytes).
Record Request := mkRequest { Method : bytes; r_url : bytes; Authorization : bytes; r_body : request_body }.
Record Response := mkResponse { StatusCode : Z; Payload : bytes }.

(** What the library does. *)
Inductive client_event :=
  (** [httpClient.Do] *)
  | EvHttp (req : Request) (r : res Response)
  (** [ctx.Done()] is looked at. *)
  | EvContext (done : bool)
  (** The pause before another request, or the end of the context. *)
  | EvPause (done : bool)
  (** An update is received from the channel, or the context ends. *)
  | EvUpdate (u : MessageCreated) (done : bool)
  (** An error is put in the channel of errors, or dropped since it is full. *)
  | EvError (e : bytes) (dropped : bool).

(** The answers, by the number of events before. *)
Class ClientOracle := {
  on_http : nat → Request → res Response;
  on_done : nat → bool;
  on_full : nat → bool;
}.

Definition C (A : Type) : Type := list client_event → A * list client_event.
#[export] Instance C_ret : MRet C := λ A a l, (a, l).
#[export] Instance C_bind : MBind C := λ A B f m l, let '(a, l') := m l in f a l'.

Section client.
Context `{UnicodeTables, JsonText, NetUrl, ClientOracle}.

(** [client] and [Api]; [httpClient] is a client with a timeout, or nil. *)
Record client := mkClient { baseURL : option Url; httpClient : option duration; api_token : bytes }.
Record Api := mkApi { api_client : client; pollTimeout : duration; pauseDelay : duration }.

Inductive Option_ :=
  | WithBaseURL (baseURL : bytes)
  | WithHTTPClient (httpClient : option duration)
  | WithApiTimeout (timeout : duration).
Definition apply_option (a : Api) (o : Option_) : Api :=
  let c := api_client a in
  match o with
  | WithBaseURL s =>
    match url_parse s with
    | Err _ => a
    | Ok u => mkApi (mkClient (Some u) (httpClient c) (api_token c)) (pollTimeout a) (pauseDelay a)
    end
  | WithHTTPClient h => mkApi (mkClient (baseURL c) h (api_token c)) (pollTimeout a) (pauseDelay a)
  | WithApiTimeout t => mkApi c t (pauseDelay a)
  end.

Definition ErrEmptyToken : bytes := "bot token is empty".
Definition ErrInvalidURL : bytes := "invalid API URL".
Definition default_base_url : bytes := "https://platform-api.max.ru".
Definition default_http_client : option duration := Some (35 * Second).

Definition New (token : bytes) (opts : list Option_) : res Api :=
  if decide (trim_space token = []) then Err ErrEmptyToken else
  match url_parse default_base_url with
  | Err _ => Err ErrInvalidURL
  | Ok base =>
    let api := mkApi (mkClient (Some base) default_http_client token) (30 * Second) Second in
    let api := foldl apply_option api opts in
    let c := api_client api in
    if decide (is_Some (baseURL c)) then
      Ok (mkApi (mkClient (baseURL c) (match httpClient c with None => default_http_client | h => h end) (api_token c))
            (if pollTimeout api <=? 0 then 30 * Second else pollTimeout api)
            (if pauseDelay api <=? 0 then Second else pauseDelay api))
    else Err ErrInvalidURL
  end.

(** ** [client.go] *)
Definition newRequest (c : client) (method endpoint : bytes) (values : Values) (body : option json) : res Request :=
  match baseURL c with
  | None => Err ErrInvalidURL
  | Some base =>
    let u := url_string base (path_join (url_path base) endpoint)
               (if decide (values = ∅) then None else Some (values_encode values)) in
    match url_parse u with
    | Err e => Err ("create " ++ method ++ " " ++ endpoint ++ " request: " ++ e)
    | Ok _ => Ok (mkRequest method u (api_token c) (match body with Some v => JsonBody v | None => NoBody end))
    end
  end.

(** The error of a response that is not a success. *)
Definition response_error (resp : Response) : APIError :=
  let e := mkAPIError [] [] [] (StatusCode resp) in
  if decide (Payload resp = []) then e else
  let e := match json_unmarshal (Payload resp) with Ok v => (decode_api_error v e).1 | Err _ => e end in
  if decide (ErrMessage e = [] ∧ Code e = []) then
    mkAPIError (Code e) (trim_space (Payload resp)) (Details e) (ErrStatusCode e)
  else e.
Definition success (status : Z) : bool := (200 <=? status) && (status <? 300).

(** The first document of a stream, decoded. *)
Definition decode_payload {A} (d : decoder A) (zero : A) (payload : bytes) : res A :=
  match json_decode payload with
  | Err e => Err e
  | Ok v => let '(a, ok) := d v zero in if (ok : bool) then Ok a else Err (json_type_error v)
  end.

(** What [requestJSON] makes of the outcome of [Do]; every caller gives an [out],
    into which [d] decodes. *)
Definition outcome {A} (method endpoint : bytes) (d : decoder A) (zero : A) (r : res Response) : result A :=
  match r with
  | Err e => inr (OtherErr (method ++ " " ++ endpoint ++ ": " ++ e))
  | Ok resp =>
    if negb (success (StatusCode resp)) then inr (ApiErr (response_error resp)) else
    match decode_payload d zero (Payload resp) with
    | Err e => inr (OtherErr ("decode " ++ method ++ " " ++ endpoint ++ " response: " ++ e))
    | Ok a => inl a
    end
  end.

Definition Do (req : Request) : C (res Response) := λ l,
  let r := on_http (length l) req in (r, l ++ [EvHttp req r]).

Definition requestJSON {A} (c : client) (method endpoint : bytes) (values : Values) (body : option json)
    (d : decoder A) (zero : A) : C (result A) :=
  match newRequest c method endpoint values body with
  | Err e => mret (inr (OtherErr e))
  | Ok req => r ← Do req; mret (outcome method endpoint d zero r)
  end.

(** ** [bots.go], [message.go], [messages.go] *)
Definition zero_bot_info : BotInfo := mkBotInfo 0 [] [] false [].
Definition GetBot (c : client) : C (result BotInfo) :=
  requestJSON c "GET" "me" ∅ None decode_bot_info zero_bot_info.

(** [AttachmentRequest] with an [UploadedInfo]. *)
Record maxMessage := mkMaxMessage {
  mm_userID : Z; mm_chatID : Z; mm_Text : bytes; mm_Attachments : list (bytes * UploadInfo); mm_Notify : bool }.
Definition NewMessage : maxMessage := mkMaxMessage 0 0 [] [] true.
Definition SetUser (userID : Z) (m : maxMessage) : maxMessage :=
  mkMaxMessage userID (mm_chatID m) (mm_Text m) (mm_Attachments m) (mm_Notify m).
Definition SetChat (chatID : Z) (m : maxMessage) : maxMessage :=
  mkMaxMessage (mm_userID m) chatID (mm_Text m) (mm_Attachments m) (mm_Notify m).
Definition SetText (text : bytes) (m : maxMessage) : maxMessage :=
  mkMaxMessage (mm_userID m) (mm_chatID m) text (mm_Attachments m) (mm_Notify m).
Definition SetNotify (notify : bool) (m : maxMessage) : maxMessage :=
  mkMaxMessage (mm_userID m) (mm_chatID m) (mm_Text m) (mm_Attachments m) notify.
Definition AddFile (file : option UploadInfo) (m : maxMessage) : maxMessage :=
  match file with
  | None => m
  | Some f => mkMaxMessage (mm_userID m) (mm_chatID m) (mm_Text m) (mm_Attachments m ++ [("file", f)]) (mm_Notify m)
  end.

(** [json.Marshal] of the [NewMessageBody]: empty fields are omitted. *)
Definition attachment_json (a : bytes * UploadInfo) : json :=
  JObj [("type", marshal_string a.1); ("payload", JObj [("token", marshal_string (ui_Token a.2))])].
Definition message_json (m : maxMessage) : json :=
  JObj ((if decide (mm_Text m = []) then [] else [("text", marshal_string (mm_Text m))]) ++
        (if decide (mm_Attachments m = []) then [] else [("attachments", JArr (attachment_json <$> mm_Attachments m))]) ++
        [("notify", JBool (mm_Notify m))]).

Definition recipient_values (m : maxMessage) : Values :=
  let v : Values := if mm_chatID m =? 0 then ∅ else {[ "chat_id" := format_int (mm_chatID m) ]} in
  if mm_userID m =? 0 then v else <[ "user_id" := format_int (mm_userID m) ]> v.

Definition Send (c : client) (message : option maxMessage) : C (option client_error) :=
  match message with
  | None => mret (Some (OtherErr "message is nil"))
  | Some m =>
    if (mm_chatID m =? 0) && (mm_userID m =? 0) then mret (Some (OtherErr "chat or user recipient is required")) else
    r ← requestJSON c "POST" "messages" (recipient_values m) (Some (message_json m)) decode_message_response zero_message;
    mret (match r with inl _ => None | inr e => Some e end)
  end.

(** ** [uploads.go] *)
Definition getUploadURL (c : client) (uploadType : bytes) : C (result UploadEndpoint) :=
  r ← requestJSON c "POST" "uploads" {[ "type" := uploadType ]} None decode_endpoint (mkUploadEndpoint [] []);
  mret (match r with
        | inl e => if decide (trim_space (ue_URL e) = []) then inr (OtherErr "empty upload url") else inl e
        | inr err => inr err
        end).

Definition upload_file_name (name : bytes) : bytes :=
  let fileName := trim_space name in
  path_base (if decide (fileName = []) then "attachment.bin" else fileName).

(** What the upload makes of the outcome of its second request; reading the file and
    writing the form, both in memory, do not fail. *)
Definition upload_outcome (endpoint : UploadEndpoint) (r : res Response) : result UploadInfo :=
  match r with
  | Err e => inr (OtherErr ("upload media: " ++ e))
  | Ok resp =>
    if negb (success (StatusCode resp)) then
      inr (ApiErr (mkAPIError [] (trim_space (Payload resp)) [] (StatusCode resp))) else
    match decode_payload decode_upload_info (mkUploadInfo []) (Payload resp) with
    | Err e => inr (OtherErr ("decode upload response: " ++ e))
    | Ok uploaded =>
      let uploaded := if decide (trim_space (ui_Token uploaded) = [] ∧ trim_space (ue_Token endpoint) ≠ [])
                      then mkUploadInfo (ue_Token endpoint) else uploaded in
      if decide (trim_space (ui_Token uploaded) = []) then inr (OtherErr "upload response does not contain token")
      else inl uploaded
    end
  end.

Definition UploadMediaFromReaderWithName (c : client) (uploadType data name : bytes) : C (result UploadInfo) :=
  e ← getUploadURL c uploadType;
  match e with
  | inr err => mret (inr err)
  | inl endpoint =>
    match url_parse (ue_URL endpoint) with
    | Err err => mret (inr (OtherErr ("create upload request: " ++ err)))
    | Ok _ =>
      r ← Do (mkRequest "POST" (ue_URL endpoint) (api_token c) (FormFile "data" (upload_file_name name) data));
      mret (upload_outcome endpoint r)
    end
  end.

(** ** [api.go]: polling for updates *)
Definition UpdateTypeMessageCreated : bytes := "message_created".

(** [decodeUpdate]: [None] for an update of another type. *)
Definition decodeUpdate (raw : json) : res (option MessageCreated) :=
  let '(update_type, ok) := decode_header raw [] in
  if negb ok then Err (json_type_error raw)
  else if decide (update_type = UpdateTypeMessageCreated) then
    let '(u, ok) := decode_message_created raw zero_message_created in
    if (ok : bool) then Ok (Some u) else Err (json_type_error raw)
  else Ok None.

Record updatesEnvelope := mkUpdatesEnvelope { env_Updates : list json; env_Marker : option Z }.
Definition decode_envelope : decoder updatesEnvelope := decode_struct [
  field "updates" env_Updates (λ x e, mkUpdatesEnvelope x (env_Marker e)) decode_raw_list;
  field "marker" env_Marker (λ x e, mkUpdatesEnvelope (env_Updates e) x) (decode_pointer 0 decode_int64)].
Definition zero_envelope : updatesEnvelope := mkUpdatesEnvelope [] None.

Definition notifyError (e : bytes) : C unit := λ l, (tt, l ++ [EvError e (on_full (length l))]).
(** [select] with [ctx.Done()]. *)
Definition done_now : C bool := λ l, let b := on_done (length l) in (b, l ++ [EvContext b]).
Definition pause : C bool := λ l, let b := on_done (length l) in (b, l ++ [EvPause b]).
(** [ch <- upd], which the context's end interrupts: the update is in the bot's channel,
    a buffer of 100; what is still in it when the program ends is not read. *)
Definition deliver_update (u : MessageCreated) : C bool := λ l,
  let b := on_done (length l) in (b, l ++ [EvUpdate u b]).

(** The loop over the updates of a page: those that decode; the others are
    reported. *)
Fixpoint decode_updates (raws : list json) : C (list MessageCreated) :=
  match raws with
  | [] => mret []
  | raw :: raws =>
    match decodeUpdate raw with
    | Err e => _ ← notifyError ("decode update: " ++ e); decode_updates raws
    | Ok None => decode_updates raws
    | Ok (Some u) => us ← decode_updates raws; mret (u :: us)
    end
  end.

Definition updates_values (api : Api) (marker : option Z) : Values :=
  let v : Values := <[ "limit" := "100" ]>
    (<[ "timeout" := format_int (uint64_of_float (Seconds (pollTimeout api))) ]>
       {[ "types" := UpdateTypeMessageCreated ]}) in
  match marker with Some m => <[ "marker" := format_int m ]> v | None => v end.

Definition getUpdatesPage (api : Api) (marker : option Z) :
    C (result (list MessageCreated * option Z)) :=
  r ← requestJSON (api_client api) "GET" "updates" (updates_values api marker) None decode_envelope zero_envelope;
  match r with
  | inr e => mret (inr e)
  | inl env => us ← decode_updates (env_Updates env); mret (inl (us, env_Marker env))
  end.

(** The loop over the updates: whether the context ended. *)
Fixpoint deliver_updates (us : list MessageCreated) : C bool :=
  match us with
  | [] => mret false
  | u :: us => stop ← deliver_update u; if (stop : bool) then mret true else deliver_updates us
  end.

(** The goroutine of [GetUpdates], for at most [n] rounds. *)
Fixpoint poll (api : Api) (n : nat) (marker : option Z) : C unit :=
  match n with
  | O => mret tt
  | S n =>
    stop ← done_now;
    if (stop : bool) then mret tt else
    r ← getUpdatesPage api marker;
    match r with
    | inr e =>
      _ ← notifyError (client_error_text e);
      stop ← pause;
      if (stop : bool) then mret tt else poll api n marker
    | inl (us, marker) =>
      stop ← deliver_updates us;
      if (stop : bool) then mret tt else poll api n marker
    end
  end.

(** [GetUpdates]: the channel of the running goroutine, or a new one, which is to be
    started; the goroutine takes it back when it ends. *)
Record updates_state := mkUpdatesState { updatesCh : option nat; channels : nat }.
Definition GetUpdates (s : updates_state) : nat * bool * updates_state :=
  match updatesCh s with
  | Some ch => (ch, false, s)
  | None => (channels s, true, mkUpdatesState (Some (channels s)) (S (channels s)))
  end.
Definition polling_ended (s : updates_state) : updates_state := mkUpdatesState None (channels s).
End client.

(** ** The sender over the client *)
#[export] Instance max_api : MaxApi := {| UploadedInfo := UploadInfo |}.

Section sender.
Context `{UnicodeTables, JsonText, NetUrl}.

(** The message the sender builds. *)
Definition built (msg : OutMessage) : maxMessage :=
  let m := SetChat (m_chat msg) NewMessage in
  let m := match m_text msg with Some t => SetText t m | None => m end in
  AddFile (m_file msg) (SetNotify (m_notify msg) m).

(** What [errors.As] finds. *)
Definition sender_error (e : client_error) : ApiError :=
  mkApiError (client_error_text e) (match e with ApiErr e => IsAttachmentNotReady e | OtherErr _ => false end).

(** The library's answers to the sender: [http n k] is the outcome of the [k]-th request
    that the [n]-th call makes. *)
Definition call_oracle (http : nat → Request → res Response) : ClientOracle :=
  {| on_http := http; on_done _ := false; on_full _ := false |}.
Definition client_oracle (api : Api) (http : nat → nat → Request → res Response)
    (wait : nat → duration → option bytes) : MaxOracle := {|
  on_send n msg :=
    sender_error <$> (Send (H2:=call_oracle (http n)) (api_client api) (Some (built msg)) []).1;
  on_upload n name data :=
    match (UploadMediaFromReaderWithName (H2:=call_oracle (http n)) (api_client api) "file" data name []).1 with
    | inl info => Ok info
    | inr e => Err (client_error_text e)
    end;
  on_wait := wait;
|}.

(** [New] as [NewBotSender] calls it. *)
Definition sender_client (token : bytes) (o : ClientOptions) : res Api :=
  New token (WithHTTPClient (Some (HTTPClientTimeout o)) :: WithApiTimeout (ApiTimeout o) ::
             match BaseURL o with Some u => [WithBaseURL u] | None => [] end).
End sender.

(** The update as the bot sees it. *)
Definition bot_message (m : schemes_Message) : Message :=
  mkMessage ((λ u, mkUser (su_UserId u) (su_IsBot u)) <$> sm_Sender m) (sr_ChatId (sm_Recipient m)) (mb_Text (sm_Body m)).
Definition bot_update (u : MessageCreated) : Update := MessageCreatedUpdate (Some (bot_message (mc_Message u))).

(** * Specification and lemmas *)
Section polling.
Context `{UnicodeTables, JsonText, NetUrl, ClientOracle}.
Context (api : Api).

(** What a response to a request for updates is: a page, or an error. *)
Definition page_of (r : res Response) : result updatesEnvelope :=
  outcome "GET" "updates" decode_envelope zero_envelope r.
Definition good_updates (raws : list json) : list MessageCreated :=
  omap (λ raw, match decodeUpdate raw with Ok o => o | Err _ => None end) raws.
Definition page_updates (r : res Response) : list MessageCreated :=
  match page_of r with inl env => good_updates (env_Updates env) | inr _ => [] end.
Definition marker_after (m : option Z) (r : res Response) : option Z :=
  match page_of r with inl env => env_Marker env | inr _ => m end.

(** The updates MAX has sent, and those put in the bot's channel. *)
Definition received (l : list client_event) : list MessageCreated :=
  l ≫= λ e, match e with EvHttp _ r => page_updates r | _ => [] end.
Definition delivered (l : list client_event) : list MessageCreated :=
  omap (λ e, match e with EvUpdate u false => Some u | _ => None end) l.
(** The context has not ended. *)
Definition running (l : list client_event) : bool :=
  forallb (λ e, match e with EvContext b | EvPause b | EvUpdate _ b => negb b | _ => true end) l.

(** Each request asks for what follows the last page; after a failure comes a report
    and a pause. *)
Fixpoint requests_follow (m : option Z) (l : list client_event) : Prop :=
  match l with
  | [] => True
  | EvHttp req r :: l =>
    newRequest (api_client api) "GET" "updates" (updates_values api m) None = Ok req ∧
    (∀ e, page_of r = inr e → ∃ d b l', l = EvError (client_error_text e) d :: EvPause b :: l') ∧
    requests_follow (marker_after m r) l
  | _ :: l => requests_follow m l
  end.
Definition last_marker (m : option Z) (l : list client_event) : option Z :=
  foldl (λ m e, match e with EvHttp _ r => marker_after m r | _ => m end) m l.

Lemma requests_follow_app m l1 l2 :
  requests_follow m l1 → requests_follow (last_marker m l1) l2 → requests_follow m (l1 ++ l2).
Proof.
  revert m. induction l1 as [|e l1 IH]; intros m; cbn; [done|]. destruct e as [req r| | | |]; try apply IH.
  intros (Ha & Hb & Hc) Hd. split_and!; [done| |by apply IH].
  intros e He. destruct (Hb e He) as (d & b & l' & ->). by exists d, b, (l' ++ l2).
Qed.

Lemma delivered_app k1 k2 : delivered (k1 ++ k2) = delivered k1 ++ delivered k2.
Proof. apply omap_app. Qed.
Lemma received_app k1 k2 : received (k1 ++ k2) = received k1 ++ received k2.
Proof. apply bind_app. Qed.
Lemma running_app k1 k2 : running (k1 ++ k2) = running k1 && running k2.
Proof. apply forallb_app. Qed.
Lemma last_marker_app m k1 k2 : last_marker m (k1 ++ k2) = last_marker (last_marker m k1) k2.
Proof. apply foldl_app. Qed.

(** A piece of the goroutine's run, from the marker [m]. *)
Record polled (m : option Z) (k : list client_event) : Prop := {
  p_prefix : delivered k `prefix_of` received k;
  p_all : running k = true → delivered k = received k;
  p_requests : requests_follow m k;
}.

Lemma polled_app m k1 k2 :
  delivered k1 = received k1 → requests_follow m k1 → polled (last_marker m k1) k2 → polled m (k1 ++ k2).
Proof.
  intros Hd Hr [Hp Ha Hq]. split; rewrite ?delivered_app, ?received_app, ?Hd.
  - by apply prefix_app.
  - rewrite running_app. intros [_ Hk]%andb_true_iff. by rewrite Ha.
  - by apply requests_follow_app.
Qed.

Lemma decode_updates_spec raws l :
  ∃ es, decode_updates raws l = (good_updates raws, l ++ es) ∧ Forall (λ e, ∃ x d, e = EvError x d) es.
Proof.
  revert l. induction raws as [|raw raws IH]; intros l; cbn [decode_updates].
  { exists []. by rewrite app_nil_r. }
  unfold good_updates. cbn [omap list_omap]. fold (good_updates raws).
  destruct (decodeUpdate raw) as [[u|]|e]; [| |].
  - unfold mbind, C_bind. destruct (IH l) as (es & -> & Hes). by exists es.
  - apply IH.
  - unfold mbind, C_bind, notifyError. destruct (IH (l ++ [EvError ("decode update: " ++ e) (on_full (length l))])) as (es & -> & Hes).
    exists (EvError ("decode update: " ++ e) (on_full (length l)) :: es). rewrite <- app_assoc. split; [done|].
    constructor; [by eexists _, _|done].
Qed.

Lemma deliver_updates_spec us l :
  ∃ stop us1 last, deliver_updates us l = (stop, l ++ ((λ u, EvUpdate u false) <$> us1) ++ last) ∧
    (if (stop : bool) then us1 `prefix_of` us ∧ ∃ u, last = [EvUpdate u true] else us1 = us ∧ last = []).
Proof.
  revert l. induction us as [|u us IH]; intros l; cbn [deliver_updates].
  { exists false, [], []. by rewrite app_nil_r. }
  unfold mbind, C_bind, deliver_update. destruct (on_done (length l)).
  - exists true, [], [EvUpdate u true]. split; [done|]. split; [apply prefix_nil|by exists u].
  - destruct (IH (l ++ [EvUpdate u false])) as (stop & us1 & last & -> & Hs).
    exists stop, (u :: us1), last. rewrite <- app_assoc. split; [done|]. destruct stop.
    + destruct Hs as [Hp Hl]. split; [by apply prefix_cons|done].
    + by destruct Hs as [-> ->].
Qed.

Lemma errors_silent es m :
  Forall (λ e, ∃ x d, e = EvError x d) es →
  delivered es = [] ∧ received es = [] ∧ running es = true ∧ requests_follow m es ∧ last_marker m es = m.
Proof. induction 1 as [|e es (x & d & ->) _ IH]; [done|]. exact IH. Qed.
Lemma delivered_updates us : delivered ((λ u, EvUpdate u false) <$> us) = us.
Proof. induction us as [|u us IH]; [done|]. unfold delivered in *. cbn. by rewrite IH. Qed.
Lemma updates_requests us m rest :
  received ((λ u, EvUpdate u false) <$> us) = [] ∧
  last_marker m ((λ u, EvUpdate u false) <$> us) = m ∧
  (requests_follow m rest → requests_follow m (((λ u, EvUpdate u false) <$> us) ++ rest)).
Proof. induction us as [|u us IH]; [done|]. exact IH. Qed.

Lemma polled_nil m : polled m [].
Proof. by split. Qed.
Lemma polled_silent m k :
  delivered k = [] → received k = [] → requests_follow m k → polled m k.
Proof. intros Hd Hr Hq. split; rewrite ?Hd, ?Hr; done. Qed.

Lemma getUpdatesPage_spec m l :
  (∃ e, getUpdatesPage api m l = (inr (OtherErr e), l)) ∨
  ∃ req r es, newRequest (api_client api) "GET" "updates" (updates_values api m) None = Ok req ∧
    getUpdatesPage api m l =
      (match page_of r with inl env => inl (good_updates (env_Updates env), env_Marker env) | inr e => inr e end,
       l ++ EvHttp req r :: es) ∧
    Forall (λ e, ∃ x d, e = EvError x d) es ∧ (∀ e, page_of r = inr e → es = []).
Proof.
  unfold getUpdatesPage, requestJSON. destruct (newRequest _ _ _ _ _) as [req|e]; [right|left; by exists e].
  unfold Do, mbind, C_bind, mret, C_ret. set (r := on_http (length l) req). exists req, r.
  fold (page_of r). destruct (page_of r) as [env|e].
  - destruct (decode_updates_spec (env_Updates env) (l ++ [EvHttp req r])) as (es & Heq & Hes).
    exists es. rewrite Heq, <- app_assoc. by split_and!.
  - exists []. by split_and!.
Qed.

(** The events of a round after its request, until the next. *)
Lemma page_polled m req r es us1 last k :
  newRequest (api_client api) "GET" "updates" (updates_values api m) None = Ok req →
  Forall (λ e, ∃ x d, e = EvError x d) es →
  ∀ env, page_of r = inl env →
  (us1 = good_updates (env_Updates env) ∧ last = [] ∧ polled (env_Marker env) k ∨
   us1 `prefix_of` good_updates (env_Updates env) ∧ (∃ u, last = [EvUpdate u true]) ∧ k = []) →
  polled m (EvContext false :: EvHttp req r :: es ++ ((λ u, EvUpdate u false) <$> us1) ++ last ++ k).
Proof.
  intros Hreq Hes env Hpage Hk.
  destruct (errors_silent es (env_Marker env) Hes) as (Ed & Er & Ert & Eq & Em).
  assert (requests_follow m (EvContext false :: EvHttp req r :: es)) as Hq.
  { cbn. split_and!; [done|by rewrite Hpage|]. unfold marker_after. by rewrite Hpage. }
  assert (last_marker m (EvContext false :: EvHttp req r :: es) = env_Marker env) as Hm.
  { cbn. unfold marker_after. rewrite Hpage. exact Em. }
  assert (received (EvContext false :: EvHttp req r :: es) = good_updates (env_Updates env)) as Hrec.
  { unfold received. cbn. fold (received es). rewrite Er, app_nil_r. unfold page_updates. by rewrite Hpage. }
  assert (delivered (EvContext false :: EvHttp req r :: es) = []) as Hdel by exact Ed.
  rewrite !app_comm_cons. destruct Hk as [(-> & -> & Hk)|(Hp & (u & ->) & ->)].
  - rewrite app_assoc. destruct (updates_requests (good_updates (env_Updates env)) (env_Marker env) []) as (Hr2 & Hm2 & Hq2).
    apply polled_app.
    + by rewrite delivered_app, received_app, Hdel, Hrec, Hr2, delivered_updates, app_nil_r.
    + apply requests_follow_app; [done|]. rewrite Hm. rewrite app_nil_r in Hq2. by apply Hq2.
    + by rewrite last_marker_app, Hm, Hm2.
  - destruct (updates_requests us1 (env_Marker env) [EvUpdate u true]) as (Hr2 & Hm2 & Hq2).
    rewrite (app_nil_r [EvUpdate u true]).
    split; rewrite ?delivered_app, ?received_app, ?running_app, ?Hdel, ?Hrec, ?Hr2, ?delivered_updates.
    + cbn. by rewrite !app_nil_r.
    + change (running [EvUpdate u true]) with false. rewrite !andb_false_r. discriminate.
    + apply requests_follow_app; [done|]. rewrite Hm. by apply Hq2.
Qed.

Lemma failure_polled m l1 e d b k :
  delivered l1 = [] → received l1 = [] → last_marker m l1 = m →
  requests_follow m (l1 ++ [EvError e d; EvPause b]) → polled m k → polled m ((l1 ++ [EvError e d; EvPause b]) ++ k).
Proof.
  intros Hd Hr Hm Hq Hk. apply polled_app; [|done|].
  - by rewrite delivered_app, received_app, Hd, Hr.
  - by rewrite last_marker_app, Hm.
Qed.

Lemma poll_polled n m l : ∃ k, (poll api n m l).2 = l ++ k ∧ polled m k.
Proof.
  revert m l. induction n as [|n IH]; intros m l; cbn [poll].
  { exists []. rewrite app_nil_r. split; [done|apply polled_nil]. }
  unfold mbind, C_bind, done_now, mret, C_ret. destruct (on_done (length l)).
  { exists [EvContext true]. split; [done|]. by apply polled_silent. }
  set (l1 := l ++ [EvContext false]).
  assert (∀ e l2 k1, l2 = l ++ k1 → delivered k1 = [] → received k1 = [] → last_marker m k1 = m →
    (∀ d b, requests_follow m (k1 ++ [EvError (client_error_text e) d; EvPause b])) →
    ∃ k, (let '(_, l') := notifyError (client_error_text e) l2 in
          let '(a, l'0) := pause l' in (if (a : bool) then λ l, (tt, l) else poll api n m) l'0).2 = l ++ k ∧ polled m k)
    as Hfail.
  { intros e l2 k1 -> Hd Hr Hm Hq. unfold notifyError, pause. rewrite <- !app_assoc.
    match goal with |- context [EvPause ?b] => set (done := b) end.
    match goal with |- context [EvError ?e ?d] => set (dropped := d) end. destruct done.
    - exists ((k1 ++ [EvError (client_error_text e) dropped; EvPause true]) ++ []).
      split; [by rewrite app_nil_r|]. apply failure_polled; auto using polled_nil.
    - destruct (IH m (l ++ k1 ++ [EvError (client_error_text e) dropped] ++ [EvPause false])) as (k & Hk & Hp).
      exists ((k1 ++ [EvError (client_error_text e) dropped; EvPause false]) ++ k).
      split; [rewrite Hk; by rewrite <- !app_assoc|]. by apply failure_polled. }
  destruct (getUpdatesPage_spec m l1) as [[e ->]|(req & r & es & Hreq & -> & Hes & Hnil)].
  { by apply (Hfail (OtherErr e) l1 [EvContext false]). }
  destruct (page_of r) as [env|e] eqn:Hpage.
  - destruct (deliver_updates_spec (good_updates (env_Updates env)) (l1 ++ EvHttp req r :: es))
      as (stop & us1 & last & -> & Hs). destruct stop.
    + destruct Hs as [Hp Hl]. eexists. split.
      2: { eapply (page_polled m req r es us1 last []); eauto. }
      unfold l1. by rewrite app_nil_r, <- !app_assoc.
    + destruct Hs as [-> ->].
      match goal with |- context [poll api n ?m' ?l'] => destruct (IH m' l') as (k & Hk & Hp) end.
      eexists. split; [|eapply (page_polled m req r es _ [] k); eauto].
      rewrite Hk. unfold l1. by rewrite app_nil_r, <- !app_assoc.
  - rewrite (Hnil e eq_refl) in *. apply (Hfail e _ [EvContext false; EvHttp req r]).
    + unfold l1. by rewrite <- app_assoc.
    + done.
    + unfold received. cbn. unfold page_updates. by rewrite Hpage.
    + cbn. unfold marker_after. by rewrite Hpage.
    + intros d b. cbn. split_and!; [done| |done]. intros e' [= <-]%(eq_trans (eq_sym Hpage)). by exists d, b, [].
Qed.
End polling.

(** ** The requests of the sender *)
Lemma format_int_unreserved z : forallb unreserved (format_int z) = true.
Proof.
  apply forallb_forall. intros a Ha%list_elem_of_In. unfold unreserved.
  destruct (is_digit (code a)) eqn:Hd; [done|]. destruct (decide (a = "-"%char)) as [->|Hne]; [done|].
  exfalso. by apply (format_int_no a z Hd Hne).
Qed.
Lemma query_escape_unreserved s : forallb unreserved s = true → query_escape s = s.
Proof.
  unfold query_escape. induction s as [|a s IH]; cbn; [done|]. intros [-> Hs]%andb_true_iff. cbn.
  f_equal. by apply IH.
Qed.
Lemma values_encode_one k z : forallb unreserved k = true →
  values_encode {[ k := format_int z ]} = k ++ "=" ++ format_int z.
Proof.
  intros Hk. unfold values_encode, sorted_entries. rewrite map_to_list_singleton. cbn.
  by rewrite !query_escape_unreserved by (done || apply format_int_unreserved).
Qed.

Section requests.
Context `{UnicodeTables, JsonText, NetUrl}.
(** MAX has accepted a message. *)
Definition posted_ok (answer : res Response) : Prop :=
  ∃ resp v, answer = Ok resp ∧ success (StatusCode resp) = true ∧
    json_decode (Payload resp) = Ok v ∧ (decode_message_response v zero_message).2 = true.

(** A message of the sender makes at most one request.  For chat 0 it makes none and
    fails.  For any other chat it is a POST to [messages] with the token and the chat
    in the query, and it succeeds exactly if MAX has accepted it. *)
Definition send_spec `{ClientOracle} (c : client) (msg : OutMessage) (l : list client_event)
    (r : option client_error) (l' : list client_event) : Prop :=
  if decide (m_chat msg = 0) then r = Some (OtherErr "chat or user recipient is required") ∧ l' = l else
  (∃ e, r = Some (OtherErr e) ∧ l' = l ∧
     newRequest c "POST" "messages" {[ "chat_id" := format_int (m_chat msg) ]} (Some (message_json (built msg))) = Err e) ∨
  ∃ base req answer, baseURL c = Some base ∧ answer = on_http (length l) req ∧ l' = l ++ [EvHttp req answer] ∧
    Method req = "POST" ∧ Authorization req = api_token c ∧ r_body req = JsonBody (message_json (built msg)) ∧
    r_url req = url_string base (path_join (url_path base) "messages") (Some ("chat_id=" ++ format_int (m_chat msg))) ∧
    (r = None ↔ posted_ok answer).

Lemma Send_meets_spec `{ClientOracle} c msg l :
  send_spec c msg l (Send c (Some (built msg)) l).1 (Send c (Some (built msg)) l).2.
Proof.
  assert (mm_chatID (built msg) = m_chat msg ∧ mm_userID (built msg) = 0) as [Hchat Huser].
  { unfold built. by destruct (m_text msg), (m_file msg). }
  unfold send_spec, Send. rewrite Hchat, Huser. cbn [Z.eqb andb]. case_decide as Hz.
  { by rewrite Hz. }
  destruct (Z.eqb_spec (m_chat msg) 0) as [|_]; [done|]. cbn [andb]. unfold requestJSON, recipient_values.
  rewrite Hchat, Huser. destruct (Z.eqb_spec (m_chat msg) 0) as [|_]; [done|]. cbn [Z.eqb].
  destruct (newRequest c "POST" "messages" _ _) as [req|e] eqn:Hreq; [|left; by exists e]. right.
  unfold newRequest in Hreq. destruct (baseURL c) as [base|]; [|done].
  rewrite decide_False in Hreq by apply map_non_empty_singleton.
  rewrite values_encode_one in Hreq by done. destruct (url_parse _) as [u|]; [|done]. injection Hreq as <-.
  unfold Do, mbind, C_bind, mret, C_ret. eexists base, _, _. split_and!; [done..|].
  unfold outcome, posted_ok. destruct (on_http _ _) as [resp|e]; [|split; [done|by intros (? & ? & ? & _)]].
  destruct (success (StatusCode resp)) eqn:Hs; cbn [negb].
  - unfold decode_payload. destruct (json_decode (Payload resp)) as [v|e] eqn:Hv.
    + destruct (decode_message_response v zero_message) as [m [|]] eqn:Hd.
      * split; [|done]. intros _. exists resp, v. by rewrite Hd.
      * split; [done|]. intros (resp' & v' & [= <-] & _ & Hv' & Hd'). rewrite Hv in Hv'. injection Hv' as <-.
        by rewrite Hd in Hd'.
    + split; [done|]. intros (resp' & v' & [= <-] & _ & Hv' & _). congruence.
  - split; [done|]. intros (resp' & v' & [= <-] & Hs' & _). congruence.
Qed.
End requests.

(** * Properties *)
Section properties.
Context `{UnicodeTables, JsonText, NetUrl}.

(** C22. Polling loses and repeats nothing: as long as the context has not ended, what
    was put in the bot's channel is exactly the updates that MAX's successful answers
    hold and that decode, in order, and when it ends a prefix of them; every request
    asks for what follows the last successful answer, whatever failed in between, and
    every failure is reported and followed by a pause. *)
Theorem polling_delivers `{ClientOracle} api n marker l :
  ∃ k, (poll api n marker l).2 = l ++ k ∧
    delivered k `prefix_of` received k ∧
    (running k = true → delivered k = received k) ∧
    requests_follow api marker k.
Proof. destruct (poll_polled api n marker l) as (k & Hk & [Hp Ha Hq]). by exists k. Qed.
End properties.

(** A server for the examples: texts and their documents, URLs as they are. *)
Definition example_update (text : bytes) : json :=
  JObj [("update_type", JStr "message_created"); ("timestamp", JNum 1);
        ("message", JObj [("sender", JObj [("user_id", JNum 5); ("name", JStr "a")]);
                          ("recipient", JObj [("chat_id", JNum 7)]); ("body", JObj [("Text", JStr text)])])].
Definition example_page : json :=
  JObj [("updates", JArr [example_update "hello"; JObj [("update_type", JStr "bot_added")];
                          JObj [("update_type", JNum 3)]; example_update "bye"]); ("marker", JNum 9)].
Definition example_json : JsonText := {|
  json_unmarshal p := if decide (p = "page") then Ok example_page else Err "unexpected end of JSON input";
  json_decode p := if decide (p = "page") then Ok example_page else Err "EOF";
  json_type_error v := "json: cannot unmarshal number";
|}.
Definition example_url : NetUrl := {|
  Url := bytes; url_parse s := if has_prefix s "http" then Ok s else Err "missing protocol scheme"; url_path _ := [];
  url_string base p q := base ++ "/" ++ p ++ match q with Some q => "?" ++ q | None => [] end;
|}.
#[local] Existing Instances basic_unicode example_json example_url.

(** The first request fails, the second gets the page, then the context ends. *)
Definition example_oracle : ClientOracle := {|
  on_http n _ := if (n <? 4)%nat then Ok (mkResponse 502 "bad gateway") else Ok (mkResponse 200 "page");
  on_done n := (8 <? n)%nat; on_full _ := false |}.
Definition example_api : Api := mkApi (mkClient (Some ("https://max" : bytes)) None "t") (30 * Second) Second.
Example polling_example :
  let k := (poll (H2:=example_oracle) example_api 5 None []).2 in
  (mb_Text ∘ sm_Body ∘ mc_Message <$> delivered k) = ["hello"; "bye"] ∧
  omap (λ e, match e with EvHttp req _ => Some (r_url req) | _ => None end) k =
    ["https://max/updates?limit=100&timeout=30&types=message_created";
     "https://max/updates?limit=100&timeout=30&types=message_created"] ∧
  omap (λ e, match e with EvError e _ => Some e | _ => None end) k =
    ["bad gateway"; "decode update: json: cannot unmarshal number"].
Proof. vm_compute. done. Qed.

(** ** Findings *)

(** RCPT accepts the address of chat 0 and numbers beyond an [int64], but no message
    can be sent to them. *)
Definition chat_ids (addr : bytes) : list bytes :=
  ChatID <$> ok_or [] (Targets <$> Recipient.Parse (H:=basic_unicode) (mkParser "relay.local" ∅) addr).
Theorem chat_number_undeliverable `{JsonText, NetUrl} api http wait text silent l :
  chat_ids "chatid0@relay.local" = ["0"] ∧
  (BotSender_SendText (H:=basic_unicode) (H1:=client_oracle (H:=basic_unicode) api http wait) "0" text silent l).1 =
    Some "send text message: chat or user recipient is required" ∧
  chat_ids "chatid99999999999999999999@relay.local" = ["99999999999999999999"] ∧
  ∃ e, BotSender_SendText (H:=basic_unicode) (H1:=client_oracle (H:=basic_unicode) api http wait)
         "99999999999999999999" text silent l = (Some e, l).
Proof. split; [vm_compute; reflexivity|]. split; [done|]. split; [vm_compute; reflexivity|]. eexists. by vm_compute. Qed.

(** A base URL that does not parse is ignored: the client uses the default server. *)
Theorem bad_base_url_ignored `{NetUrl} token timeout api_timeout url e :
  url_parse url = Err e →
  sender_client token (mkClientOptions timeout api_timeout (Some url)) =
  sender_client token (mkClientOptions timeout api_timeout None).
Proof.
  intros He. unfold sender_client, New. cbn [BaseURL HTTPClientTimeout ApiTimeout].
  destruct (decide _); [done|]. destruct (url_parse default_base_url); [|done]. cbn [foldl apply_option].
  by rewrite He.
Qed.

(** A message that MAX has accepted counts as failed if the body of the answer is no
    document, and the relay sends it again. *)
Theorem accepted_but_failed :
  let oracle : ClientOracle := {| on_http _ _ := Ok (mkResponse 200 []); on_done _ := false; on_full _ := false |} in
  client_error_text <$> (Send (H2:=oracle) (api_client example_api) (Some (built (mkOutMessage _ 7 (Some "hi") true None))) []).1 =
    Some "decode POST messages response: EOF".
Proof. vm_compute. reflexivity. Qed.
