(* ===== verification/Sending.v ===== *)
(** * A call to the sender, down to HTTP

    [main] puts the limiter of [internal/max/limited_sender.go] around the sender.
    A call first waits for its turn and then goes to [BotSender], which goes to the
    MAX client.  This file composes the three and says what the relay's success
    means at the server. *)
From S2P Require Import Prelude GoStrings GoRuntime GoJson Recipient DlqStore Metrics Email Trace.
From S2P Require RateLimiter.
From S2P Require Import Confirm World Backoff DlqWorker DlqAdmin Version BotHelp BotSender Bot MaxClient.

Open Scope Z_scope.
Open Scope go_scope.

Section sending.
Context `{UnicodeTables, JsonText, NetUrl}.

(** [RateLimitedSender.SendText] and [SendFile], [acquired] being what [acquire]
    returns (see [RateLimiter]) and [next] the call of the sender behind. *)
Definition limited `{MaxApi} (acquired : option bytes) (next : T (option bytes)) : T (option bytes) :=
  match acquired with Some err => mret (Some err) | None => next end.

(** [BotSender] *)
Definition bot_send `{MaxOracle} (x : send) : T (option bytes) :=
  match s_payload x with
  | PText text => BotSender_SendText (s_chat x) text (s_silent x)
  | PFile a => BotSender_SendFile (s_chat x) a (s_silent x)
  end.

(** The world outside for the sender: how the call answered at tick [n] goes through
    [acquire] and what that returns, what the server answers to the [k]-th request of its [j]-th call to the library, and
    whether the context ends during its waits. *)
Record Network := mkNetwork {
  acquire_passage : nat → RateLimiter.passage;
  acquire_result : nat → option bytes;
  server_answer : nat → nat → nat → Request → res Response;
  wait_result : nat → nat → duration → option bytes;
}.

Definition network_result (api : Api) (net : Network) (n : nat) (x : send) : option bytes :=
  (limited (acquire_result net n)
     (bot_send (H3:=client_oracle api (server_answer net n) (wait_result net n)) x) []).1.

(** The environment with this sender. *)
Definition with_network (E : Env) (api : Api) (net : Network) : Env := {|
  runtime := runtime E; tables := tables E; clock := clock E; random := random E;
  confirm_random := confirm_random E; store_io := store_io E; alias_io := alias_io E;
  limiter_passage := λ n, acquire_passage net (S n); send_result := network_result api net; cancelled := cancelled E; jitter := jitter E;
|}.

(** The request that posts [msg]. *)
Definition posts (api : Api) (msg : OutMessage) (req : Request) : Prop :=
  ∃ base, baseURL (api_client api) = Some base ∧
    Method req = "POST" ∧ Authorization req = api_token (api_client api) ∧
    r_url req = url_string base (path_join (url_path base) "messages") (Some ("chat_id=" ++ format_int (m_chat msg))) ∧
    r_body req = JsonBody (message_json (built msg)).

(** The body of such a request, written out. *)
Definition text_body (text : bytes) (silent : bool) : json :=
  JObj ((if decide (text = []) then [] else [("text", JStr (to_valid_utf8 text))]) ++ [("notify", JBool (negb silent))]).
Definition file_body (token : bytes) (silent : bool) : json :=
  JObj [("attachments", JArr [JObj [("type", JStr "file"); ("payload", JObj [("token", JStr (to_valid_utf8 token))])]]);
        ("notify", JBool (negb silent))].

(** A call to the library that succeeds has posted its message, and MAX has
    answered with success. *)
Lemma on_send_posts api http wait n msg :
  on_send (MaxOracle := client_oracle api http wait) n msg = None →
  m_chat msg ≠ 0 ∧ ∃ req resp, posts api msg req ∧ http n 0%nat req = Ok resp ∧ success (StatusCode resp) = true.
Proof.
  cbn [on_send client_oracle]. intros Hn%fmap_None.
  pose proof (Send_meets_spec (H2:=call_oracle (http n)) (api_client api) msg []) as Hs. rewrite Hn in Hs.
  unfold send_spec in Hs. case_decide as Hz; [by destruct Hs|].
  destruct Hs as [(e & Hs & _)|(base & req & answer & Hb & Ha & _ & Hm & Hau & Hbody & Hu & [Hok _])]; [done|].
  destruct (Hok eq_refl) as (resp & v & -> & Hsucc & _). split; [done|]. exists req, resp.
  split_and!; [exists base; by split_and!|done|done].
Qed.

Lemma send_file_success `{MaxOracle} n delay msg l :
  (send_file_attempts n delay msg l).1 = None → ∃ j, on_send j msg = None.
Proof.
  revert delay l. induction n as [|n IH]; intros delay l; [done|]. rewrite send_file_attempts_step. cbv zeta.
  destruct (on_send (length l) msg) as [e|] eqn:Hs; [|by exists (length l)].
  destruct (_ || _); [done|]. destruct (on_wait _ _); [done|]. apply IH.
Qed.

(** * Properties *)

(** C9. What the relay takes for success was accepted by MAX: if a call to the limited
    sender succeeds, the chat is a number other than 0, the limiter let the call
    pass, and one of its requests was a POST to [messages] with the bot's token, that
    chat in the query and in its JSON body the text (left out if empty), or one
    attachment of type [file] with the token of the upload, and whether to notify,
    which MAX answered with a 2xx status. *)
Theorem success_means_posted E api net n x :
  send_result (with_network E api net) n x = None →
  acquire_result net n = None ∧
  ∃ id msg req resp, parseChatID (s_chat x) = Ok id ∧ id ≠ 0 ∧ m_chat msg = id ∧ m_notify msg = negb (s_silent x) ∧
    (match s_payload x with
     | PText text => m_text msg = Some text ∧ m_file msg = None ∧ r_body req = JsonBody (text_body text (s_silent x))
     | PFile a => m_text msg = None ∧ ∃ j info, m_file msg = Some info ∧ r_body req = JsonBody (file_body (ui_Token info) (s_silent x)) ∧
         on_upload (MaxOracle := client_oracle api (server_answer net n) (wait_result net n)) j (upload_name a) (Data a) = Ok info
     end) ∧
    posts api msg req ∧
    (∃ j, server_answer net n j 0%nat req = Ok resp) ∧ success (StatusCode resp) = true.
Proof.
  cbn [send_result with_network]. unfold network_result, limited. destruct (acquire_result net n) as [e|]; [done|].
  intros Hn. split; [done|]. revert Hn. unfold bot_send. destruct (s_payload x) as [text|a].
  - unfold BotSender_SendText. destruct (parseChatID (s_chat x)) as [id|e]; [|done].
    unfold mbind, T_bind, api_send. destruct (on_send _ _) as [e|] eqn:Hs; [done|]. intros _.
    apply on_send_posts in Hs as (Hid & req & resp & Hp & Ha & Hok).
    exists id, (mkOutMessage _ id (Some text) (negb (s_silent x)) None), req, resp.
    split_and!; [done|exact Hid|done|done|done|done| |exact Hp|by eexists|done].
    destruct Hp as (_ & _ & _ & _ & _ & ->). unfold message_json, text_body. cbn. by destruct (decide (text = [])).
  - unfold BotSender_SendFile. destruct (parseChatID (s_chat x)) as [id|e]; [|done]. cbv zeta.
    unfold mbind, T_bind, api_upload. destruct (on_upload _ _ _) as [info|e] eqn:Hu; [|done].
    unfold sendFileMessage. intros (j & Hs)%send_file_success.
    apply on_send_posts in Hs as (Hid & req & resp & Hp & Ha & Hok).
    exists id, (mkOutMessage _ id None (negb (s_silent x)) (Some info)), req, resp.
    split_and!; [done|exact Hid|done|done|done| |exact Hp|by eexists|done]. exists 0%nat, info.
    split_and!; [done| |done]. by destruct Hp as (_ & _ & _ & _ & _ & ->).
Qed.
End sending.

(** A text for chat 7, and a server that accepts it. *)
#[local] Existing Instances basic_unicode example_json example_url.
Definition example_network : Network := {|
  acquire_result _ := None; acquire_passage _ := RateLimiter.Straight; server_answer _ _ _ _ := Ok (mkResponse 200 "page"); wait_result _ _ _ := None |}.
Definition example_send : send := mkSend "7" (PText "hi") true.

Lemma success_means_posted_witness : ∃ msg req, posts example_api msg req ∧ m_chat msg = 7 ∧ m_text msg = Some ("hi" : bytes).
Proof.
  destruct (success_means_posted wit_env example_api example_network 0 example_send)
    as (_ & id & msg & req & resp & Hid & _ & Hc & _ & (Ht & _ & _) & Hp & _); [vm_compute; reflexivity|].
  exists msg, req. split; [exact Hp|]. split; [|exact Ht]. rewrite Hc. vm_compute in Hid. by injection Hid.
Defined.
Example posted_request :
  newRequest (api_client example_api) "POST" "messages" {[ "chat_id" := "7" ]}
    (Some (message_json (built (mkOutMessage _ 7 (Some "hi") false None)))) =
  Ok (mkRequest "POST" "https://max/messages?chat_id=7" "t" (JsonBody (JObj [("text", JStr "hi"); ("notify", JBool false)]))).
Proof. vm_compute. reflexivity. Qed.
