(* ===== verification/Main.v ===== *)
(** * The program: [cmd/smtp-to-max-relay/main.go]

    How [main] builds the parts from the configuration.  [EmailParse] is the
    e-mail parser ([Email.Parse] with the size limit and the MIME library
    applied); the bot's own id and name come from MAX. *)
From S2P Require Import Prelude GoStrings GoRuntime GoJson Recipient DlqStore Metrics Email RateLimiter.
From S2P Require Import Trace Confirm World Relay Backoff DlqWorker DlqAdmin Smtp Version BotHelp Bot.
From S2P Require Import MaxClient Config BotSender.

Open Scope Z_scope.
Open Scope go_scope.

Section main.
Context (cfg : Config) (EmailParse : bytes → res ParsedEmail).

(** [relaySvc], with its [DLQ] set when the queue is enabled. *)
Definition relaySvc : Service :=
  mkService EmailParse (RelayMaxRetries cfg) (RelayRetryDelay cfg) true (DLQEnabled cfg).

(** The limiter around either sender. *)
Definition limiter : RateLimiterConfig :=
  RateLimiter.mkConfig (MaxSendRPS cfg) (MaxBurst cfg) (MaxQueueCapacity cfg) (MaxQueueWait cfg).

(** [dlqWorker]; its [AttemptTimeout] is [MaxSendTimeout]. *)
Definition dlqWorker : Worker := {|
  Interval := DLQWorkerInterval cfg; BaseDelay := DLQBaseDelay cfg; MaxDelay := DLQMaxDelay cfg;
  MaxRetries := DLQMaxRetries cfg; BatchSize := 10; WithReplay := Some WithDLQBypass;
  DlqWorker.has_metrics := true; RandomJitter := 0;
|}.

(** [%+v] of a [ParsedRecipient]. *)
Definition show_target (t : RecipientTarget) : bytes :=
  "{ChatID:" ++ ChatID t ++ " Silent:" ++ boolLabel (Silent t) ++ " Local:" ++ Local t ++ "}".
Definition show_route (pr : ParsedRecipient) : bytes :=
  "{Targets:[" ++ join " " (show_target <$> Targets pr) ++ "] RawLocal:" ++ RawLocal pr ++
  " RawAddr:" ++ RawAddr pr ++ " SourceLocal:" ++ SourceLocal pr ++
  " AliasUsed:" ++ boolLabel (AliasUsed pr) ++ "}".

(** The [DryRun] of [dlqAdmin]. *)
Definition dry_run (E : Env) (w : World) (rcpt raw : bytes) : res bytes :=
  parsedRecipient ← Recipient.Parse (H:=tables E) (recipients w) rcpt;
  parsedEmail ← EmailParse raw;
  Ok ("маршрут валиден: route=" ++ show_route parsedRecipient ++ ", attachments=" ++
      format_int (Z.of_nat (length (Attachments parsedEmail)))).

Definition dlq_admin (E : Env) : Admin := {|
  DryRun := Some (dry_run E); AdminWithReplay := Some WithDLQBypass;
  AdminMaxRetries := DLQMaxRetries cfg; AdminBaseDelay := DLQBaseDelay cfg;
  AdminMaxDelay := DLQMaxDelay cfg;
|}.

Definition server : Server := mkServer (SMTPAllowedDomain cfg) (SMTPMaxMessageBytes cfg).

Definition the_bot (E : Env) (build : Build) (botUserID : Z) (botUsername : bytes) : Bot := {|
  Bot.build := build; Bot.botUserID := botUserID; Bot.botUsername := botUsername;
  bot_domain := SMTPAllowedDomain cfg; has_aliases := true; has_stats := true;
  dlqAdmin := if DLQEnabled cfg then Some (dlq_admin E) else None; adminChatID := AdminChatID cfg;
|}.

(** The state [main] starts with, from the alias file and the directory of the
    queue file; an error ends the program. *)
Definition initial_world (E : Env) (alias_file : read_result json) (read_err : option bytes)
    (d : gmap bytes (file_content (list Item))) : res World :=
  aliases ← LoadAliases (H:=tables E) (H0:=runtime E) alias_file;
  store ← (if DLQEnabled cfg then NewFileStore read_err (DLQFilePath cfg) d
           else Ok (mkStore (DLQFilePath cfg) ∅ d));
  Ok {| tick := 0; store := store; recipients := NewParser (H:=tables E) (SMTPAllowedDomain cfg) aliases;
        World.alias_file := alias_file; metrics := NewCollector; pendingConfirm := ∅; sent := [] |}.
End main.

(** [main] up to the goroutines it starts.  An error ends the program with its text;
    [bot_info] is what [GetBot] answers, which may fail. *)
Definition fatal {A} (what : bytes) (r : res A) : res A :=
  match r with Ok a => Ok a | Err e => Err (what ++ " error: " ++ e) end.

Record Program `{NetUrl} := mkProgram {
  p_config : Config;
  p_world : World;
  (** [nil] unless the sender's mode is ["botapi"]. *)
  p_api : option Api;
  p_botUserID : Z;
  p_botUsername : bytes;
}.

Definition main `{NetUrl} (E : Env) (getenv : bytes → bytes) (alias_file : read_result json)
    (read_err : option bytes) (d : gmap bytes (file_content (list Item))) (bot_info : result BotInfo) : res Program :=
  cfg ← fatal "config" (Load (H:=tables E) getenv);
  aliases ← fatal "aliases" (LoadAliases (H:=tables E) (H0:=runtime E) alias_file);
  api ← (if decide (MaxSenderMode cfg = "botapi") then
           Some <$> fatal "max sender" (NewBotSender sender_client (MaxAPIBaseURL cfg) (MaxBotToken cfg) (MaxSendTimeout cfg))
         else Ok None);
  let bot := match api, bot_info with Some _, inl info => (bi_UserId info, bi_Username info) | _, _ => (0, []) end in
  store ← (if DLQEnabled cfg then fatal "dlq init" (NewFileStore read_err (DLQFilePath cfg) d)
           else Ok (mkStore (DLQFilePath cfg) ∅ d));
  Ok {| p_config := cfg;
        p_world := {| tick := 0; store := store; recipients := NewParser (H:=tables E) (SMTPAllowedDomain cfg) aliases;
                      World.alias_file := alias_file; metrics := NewCollector; pendingConfirm := ∅; sent := [] |};
        p_api := api; p_botUserID := bot.1; p_botUsername := bot.2 |}.

(** A start that succeeds gives the initial world of its configuration, which passed
    the checks; it fails exactly if one of the four steps does. *)
Lemma main_initial `{NetUrl} E getenv alias_file read_err d bot_info p :
  main E getenv alias_file read_err d bot_info = Ok p →
  Load (H:=tables E) getenv = Ok (p_config p) ∧
  initial_world (p_config p) E alias_file read_err d = Ok (p_world p) ∧
  (is_Some (p_api p) ↔ MaxSenderMode (p_config p) = "botapi").
Proof.
  unfold main, fatal, initial_world. destruct (Load _) as [cfg|]; [|done]. cbn [mbind res_bind].
  destruct (LoadAliases _) as [aliases|]; [|done]. cbn [mbind res_bind].
  destruct (decide (MaxSenderMode cfg = "botapi")) as [Hm|Hm].
  - destruct (NewBotSender _ _ _ _) as [api|]; [|done]. cbn.
    destruct (DLQEnabled cfg) eqn:Hd; [destruct (NewFileStore _ _ _) as [s|] eqn:Hs; [|done]|]; cbn;
      intros [= <-]; cbn; rewrite Hd, ?Hs; (split_and!; [done|done|]); split; eauto.
  - cbn. destruct (DLQEnabled cfg) eqn:Hd; [destruct (NewFileStore _ _ _) as [s|] eqn:Hs; [|done]|]; cbn;
      intros [= <-]; cbn; rewrite Hd, ?Hs; (split_and!; [done|done|]); (split; [by intros []|done]).
Qed.

(** The relay as its clients see it: a replaying context leaves the queue alone. *)
#[export] Instance relay_replayer (E : Env) (svc : Service) : Replayer := {|
  relay := Relay E svc;
  replaying ctx := dlq_active svc ctx = false;
  relay_keeps_store ctx rcpt raw := Relay_bypass_store E svc ctx rcpt raw;
|}.

(** The contexts [main] gives to the worker and to the administration bypass the
    queue. *)
Lemma worker_replays E cfg parse ctx :
  replaying (Replayer := relay_replayer E (relaySvc cfg parse)) (replay_ctx (dlqWorker cfg) ctx).
Proof. cbn. unfold dlq_active, shouldBypassDLQ. cbn. by rewrite andb_false_r. Qed.
Lemma admin_replays E cfg parse ctx :
  replaying (Replayer := relay_replayer E (relaySvc cfg parse)) (admin_ctx (dlq_admin cfg parse E) ctx).
Proof. cbn. unfold dlq_active, shouldBypassDLQ. cbn. by rewrite andb_false_r. Qed.

Section run.
Context (cfg : Config) (EmailParse : bytes → res ParsedEmail) (E : Env) (build : Build).

(** What [main] starts: the notification, which it sends itself, the worker and the
    bot; the listener starts the sessions. *)
Definition started `{NetUrl} (p : Program) (ticks : nat) (updates : list Update) : list (M unit) :=
  let bot := the_bot cfg EmailParse E build (p_botUserID p) (p_botUsername p) in
  (if decide (MaxSenderMode cfg = "botapi") then [(_ ← SendStartupNotification E bot; mret tt : M unit)] else []) ++
  (if DLQEnabled cfg then [Run (H:=relay_replayer E (relaySvc cfg EmailParse)) E (dlqWorker cfg) Background ticks] else []) ++
  (match p_api p with
   | Some _ => [bot_loop (H:=relay_replayer E (relaySvc cfg EmailParse)) E bot Background updates]
   | None => []
   end).

(** The goroutines of the program: [main] itself up to the listener, the worker,
    the bot and the sessions, each with what the world outside gives it (the number
    of ticks, the updates, what reading from the client gives). *)
Inductive program_thread : M unit → Prop :=
  | startup_thread botUserID botUsername :
      MaxSenderMode cfg = "botapi" →
      program_thread (_ ← SendStartupNotification E (the_bot cfg EmailParse E build botUserID botUsername); mret tt)
  | worker_thread n :
      DLQEnabled cfg = true →
      program_thread (Run (H:=relay_replayer E (relaySvc cfg EmailParse)) E (dlqWorker cfg) Background n)
  | bot_thread botUserID botUsername updates :
      MaxSenderMode cfg = "botapi" →
      program_thread (bot_loop (H:=relay_replayer E (relaySvc cfg EmailParse)) E
        (the_bot cfg EmailParse E build botUserID botUsername) Background updates)
  | session_thread sessionID input :
      program_thread (_ ← handleConn E (relaySvc cfg EmailParse) (server cfg)
        (session_ctx Background sessionID) input; mret tt).

Lemma started_threads `{NetUrl} (p : Program) ticks updates :
  (is_Some (p_api p) ↔ MaxSenderMode cfg = "botapi") → Forall program_thread (started p ticks updates).
Proof.
  intros Hapi. unfold started. repeat (apply Forall_app; split); repeat case_match; repeat constructor; try done.
  apply Hapi. by eexists.
Qed.
End run.
