(* ===== verification/System.v ===== *)
(** * The whole program: every interleaving of its parts

    The sessions, the worker and the bot run concurrently on one [World].  Each of
    them acts on it only by the atomic actions below (the store's methods and
    the alias table's run under their mutexes, the counters are atomic).  The
    first theorem says that every event of every interleaving of the program's
    goroutines is one of these actions that its role may do, the second what every run
    guarantees. *)
From S2P Require Import Prelude GoStrings GoRuntime GoJson Recipient DlqStore Metrics Email RateLimiter Trace.
From S2P Require Import Confirm World Threads Relay Backoff DlqWorker DlqAdmin Smtp Version BotHelp BotSender Bot.
From S2P Require Import Config Main.

Open Scope Z_scope.
Open Scope go_scope.

(** ** Who may do what

    Anybody may read, send, count and ask the clock; the rest takes a power: to pick
    messages of the queue, to mark them as done, to retry them, to enqueue, to edit
    the alias table and its file, to register and use confirmations. *)
Inductive power := Picking | Finishing | Retrying | Adding | Editing | Confirming.
Abbreviation powers := (power → bool).
Definition every_power : powers := λ _, true.

Inductive role := StartupRole | WorkerRole | BotRole | SessionRole.
Definition may (r : role) : powers := λ k,
  match r, k with
  | WorkerRole, (Picking | Finishing | Retrying) => true
  | BotRole, (Finishing | Retrying | Editing | Confirming) => true
  | SessionRole, Adding => true
  | _, _ => false
  end.

(** ** Atomic actions *)
Section actions.
Context (E : Env) (P : powers).

(** The store's operations but [Enqueue]. *)
Definition plain_op (o : store_op) : Prop :=
  match o with
  | OpEnqueue _ _ _ _ => False
  | OpPickDue _ => P Picking = true
  | OpMarkDone _ => P Finishing = true
  | OpMarkRetry _ _ _ _ => P Retrying = true
  end.

(** The actions; [Enqueue] comes with the id it gives to a new item. *)
Inductive action (w : World) : option bytes → World → Prop :=
  | act_read : action w None w
  | act_oracle : action w None (set_tick (S (tick w)) w)
  | act_metrics f : action w None (set_metrics (f (metrics w)) w)
  | act_send x :
      action w None (add_sent (x, send_result E (tick w) x) (set_tick (S (tick w)) w))
  | act_store t io o : plain_op o → action w None (set_store (run_op (runtime E) t io (store w) o) w)
  | act_Enqueue t io rnd r m e :
      P Adding = true →
      action w (Some (new_item_id t rnd m))
        (set_store (run_op (runtime E) t io (store w) (OpEnqueue rnd r m e)) w)
  | act_alias o : P Editing = true → action w None (set_recipients (Recipient.apply_op (H:=tables E) (recipients w) o) w)
  | act_save io m : P Editing = true → action w None (set_alias_file (SaveAliases io (alias_file w) m).2 w)
  | act_confirm {A} (f : confirm_table → A * confirm_table) :
      P Confirming = true → action w None (set_confirms (f (pendingConfirm w)).2 w).

Definition acting_step (w w' : World) : Prop := ∃ d, action w d w'.

(** [m] acts only by actions. *)
Definition acts {A} (m : M A) : Prop := always acting_step m.

Lemma acts_ret {A} (a : A) : acts (mret a).
Proof. done. Qed.
Lemma acts_bind {A B} (m : M A) (k : A → M B) : acts m → (∀ a, acts (k a)) → acts (m ≫= k).
Proof. apply always_bind. Qed.
Lemma acts_fmap {A B} (f : A → B) (m : M A) : acts m → acts (f <$> m).
Proof. intros Hm. by apply always_bind. Qed.
Lemma acts_act {A} (f : World → A * World) : (∀ w, acting_step w (f w).2) → acts (act f).
Proof. by split. Qed.
Lemma acts_gets {A} (f : World → A) : acts (gets f).
Proof. apply acts_act. intros w. eexists. apply act_read. Qed.
Lemma acts_ask {A} (f : nat → A) : acts (ask f).
Proof. apply acts_act. intros w. eexists. apply act_oracle. Qed.
Lemma acts_observe f : acts (observe f).
Proof. apply acts_act. intros w. eexists. apply act_metrics. Qed.
Lemma acts_observe_each l : acts (observe_each l).
Proof. induction l as [|f l IH]; [done|]. apply acts_bind; [apply acts_observe|]. intros _. exact IH. Qed.
Lemma acts_send x : acts (call_sender E x).
Proof.
  apply acts_bind.
  - apply acts_bind; [apply acts_ask|]. intros p. apply acts_observe_each.
  - intros _. apply acts_act. intros w. eexists. apply act_send.
Qed.
Lemma acts_confirms {A} (f : confirm_table → A * confirm_table) : P Confirming = true → acts (with_confirms f).
Proof. intros H. apply acts_act. intros w. eexists. rewrite (surjective_pairing (f _)). by apply act_confirm. Qed.
Lemma acts_save io m : P Editing = true → acts (with_alias_file (λ file, SaveAliases io file m)).
Proof. intros H. apply acts_act. intros w. eexists. rewrite (surjective_pairing (SaveAliases _ _ _)). by apply act_save. Qed.
Lemma acts_alias o : P Editing = true → acts (with_recipients (λ p, Recipient.apply_op (H:=tables E) p o)).
Proof. intros H. apply acts_act. intros w. eexists. by apply act_alias. Qed.

(** A store operation is the last of a method's actions. *)
Lemma acts_with_store {A} t io o (f : FileStore → A * FileStore) :
  (∀ s, (f s).2 = run_op (runtime E) t io s o) → plain_op o → acts (with_store f).
Proof.
  intros Hf Ho. apply acts_act. intros w. eexists. rewrite (surjective_pairing (f _)). cbn. rewrite Hf. by apply act_store.
Qed.
Lemma acts_PickDue limit t : P Picking = true → acts (store_PickDue E limit t).
Proof. intros H. apply acts_bind; [apply acts_ask|]. intros io. by apply (acts_with_store t io (OpPickDue limit)). Qed.
Lemma acts_MarkDone id : P Finishing = true → acts (store_MarkDone E id).
Proof.
  intros Hm. apply acts_bind; [apply acts_ask|]. intros t. apply acts_bind; [apply acts_ask|]. intros io.
  by apply (acts_with_store t io (OpMarkDone id)).
Qed.
Lemma acts_MarkRetry id next e n : P Retrying = true → acts (store_MarkRetry E id next e n).
Proof.
  intros H. apply acts_bind; [apply acts_ask|]. intros t. apply acts_bind; [apply acts_ask|]. intros io.
  by apply (acts_with_store t io (OpMarkRetry id next e n)).
Qed.
Lemma acts_Enqueue r m e : P Adding = true → acts (store_Enqueue E r m e).
Proof.
  intros Ha. do 3 (apply acts_bind; [apply acts_ask|]; intros ?). apply acts_act. intros w. eexists.
  rewrite (surjective_pairing (Enqueue _ _ _ _ _ _ _)). by apply (act_Enqueue w).
Qed.
End actions.

Lemma action_mono E (P P' : powers) w d w' :
  (∀ k, P k = true → P' k = true) → action E P w d w' → action E P' w d w'.
Proof. intros HP Hact. destruct Hact; constructor; auto. destruct o; cbn in *; auto. Qed.
Lemma acts_mono {A} E (P P' : powers) (c : M A) :
  (∀ k, P k = true → P' k = true) → acts E P c → acts E P' c.
Proof. intros HP. apply always_mono. intros w w' [d Hd]. exists d. by eapply action_mono. Qed.
(** What an action sends is answered by the sender. *)
Definition answered (E : Env) (e : send * option bytes) : Prop := ∃ n, e.2 = send_result E n e.1.
Lemma action_sends E P w d w' :
  action E P w d w' → ∃ log, sent w' = sent w ++ log ∧ Forall (answered E) log.
Proof.
  intros Ha. destruct Ha; try by exists []; cbn; rewrite app_nil_r.
  eexists. split; [reflexivity|]. constructor; [|constructor]. by eexists.
Qed.
(** What does not enqueue draws no id. *)
Lemma action_no_id E P w d w' : P Adding = false → action E P w d w' → d = None.
Proof. intros HP. destruct 1; congruence. Qed.

Create HintDb acts discriminated.
#[export] Hint Constants Opaque : acts.
#[export] Hint Transparent bot_tables : acts.
#[export] Hint Resolve acts_ret acts_gets acts_ask acts_observe acts_send acts_PickDue acts_MarkDone
  acts_MarkRetry acts_confirms acts_save acts_alias acts_Enqueue : acts.
#[export] Hint Extern 1 (_ = true) => reflexivity : acts.

(** Discharge [acts] by the structure of the computation. *)
Ltac acting :=
  repeat first
    [ match goal with |- ∀ _, _ => intros end
    | solve [eauto with acts]
    | apply acts_fmap
    | apply acts_bind
    | match goal with
      | |- acts _ _ (if ?d then _ else _) => destruct d
      | |- acts _ _ (let '_ := ?p in _) => destruct p
      | |- acts _ _ (match ?d with _ => _ end) => destruct d
      end ].

(** ** The parts *)
Section parts.
Context (E : Env) (P : powers) (svc : Service).

Lemma acts_metric f : acts E P (Relay.metric svc f).
Proof. unfold Relay.metric. acting. Qed.
Lemma acts_latency stage t : acts E P (observe_latency E svc stage t).
Proof. unfold observe_latency, now. acting. Qed.
Lemma acts_delivery r b c n : acts E P (observe_delivery E svc r b c n).
Proof. unfold observe_delivery, now. acting. Qed.
#[local] Hint Resolve acts_metric acts_latency acts_delivery : acts.

Lemma acts_send_attempts n d x : acts E P (send_attempts E n d (call_sender E x)).
Proof. induction n as [|n IH]; cbn [send_attempts]; unfold wait; acting; exact IH. Qed.
#[local] Hint Resolve acts_send_attempts : acts.

Section relay.
Context (ctx : Ctx) (Hadds : P Adding = true ∨ dlq_active svc ctx = false).

Lemma acts_send_failed rcpt raw chat label what e : acts E P (send_failed E svc ctx rcpt raw chat label what e).
Proof using Hadds.
  unfold send_failed. fold (dlq_active svc ctx).
  destruct Hadds as [Ha| ->]; [destruct (dlq_active svc ctx)|]; acting.
Qed.
#[local] Hint Resolve acts_send_failed : acts.
Lemma acts_send_piece rcpt raw label what t p : acts E P (send_piece E svc ctx rcpt raw label what t p).
Proof using Hadds. unfold send_piece, sendWithRetry, now. cbv zeta. acting. Qed.
#[local] Hint Resolve acts_send_piece : acts.
Lemma acts_send_chunks rcpt raw label t chunks : acts E P (send_chunks E svc ctx rcpt raw label t chunks).
Proof using Hadds. induction chunks; cbn [send_chunks]; acting. Qed.
Lemma acts_send_files rcpt raw label t atts : acts E P (send_files E svc ctx rcpt raw label t atts).
Proof using Hadds. induction atts; cbn [send_files]; acting. Qed.
#[local] Hint Resolve acts_send_chunks acts_send_files : acts.
Lemma acts_deliver rcpt raw label text atts ts : acts E P (deliver E svc ctx rcpt raw label text atts ts).
Proof using Hadds. induction ts; cbn [deliver]; acting. Qed.
#[local] Hint Resolve acts_deliver : acts.
Lemma acts_Relay rcpt raw : acts E P (Relay E svc ctx rcpt raw).
Proof using Hadds. unfold Relay, relay_body, now. cbv zeta. acting. Qed.
#[local] Hint Resolve acts_Relay : acts.
Lemma acts_relay_all raw rs : acts E P (relay_all E svc ctx raw rs).
Proof using Hadds. induction rs; cbn [relay_all]; acting. Qed.
#[local] Hint Resolve acts_relay_all : acts.
Lemma acts_handle_command srv s line input : acts E P (handle_command E svc srv ctx s line input).
Proof using Hadds. unfold handle_command. cbv zeta. acting. Qed.
#[local] Hint Resolve acts_handle_command : acts.
Lemma acts_handleConn srv input : acts E P (handleConn E svc srv ctx input).
Proof using Hadds.
  unfold handleConn. apply acts_bind; [|intros; acting]. generalize (mkSession [] false), (length input).
  intros s n. revert s input. induction n; intros s input; destruct input as [|[]]; cbn [command_loop]; acting.
Qed.
End relay.

Context (Hedit : P Editing = true).
Lemma acts_update_aliases o saved not_saved :
  acts E P (update_aliases E (λ p, Recipient.apply_op (H:=tables E) p o) saved not_saved).
Proof using Hedit. unfold update_aliases. acting. Qed.
Lemma acts_set_alias name ts saved not_saved :
  acts E P (update_aliases E (λ p, SetAliasGroup (H:=tables E) p name ts) saved not_saved).
Proof using Hedit. apply (acts_update_aliases (OpSet name ts)). Qed.
Lemma acts_delete_alias name saved not_saved :
  acts E P (update_aliases E (λ p, DeleteAlias (H:=tables E) p name) saved not_saved).
Proof using Hedit. apply (acts_update_aliases (OpDelete name)). Qed.
#[local] Hint Resolve acts_set_alias acts_delete_alias : acts.
Lemma acts_group_command bot parts usage (op : bytes → list bytes → alias_op) saved not_saved :
  acts E P (group_command E bot parts usage (λ a ts p, Recipient.apply_op (H:=tables E) p (op a ts)) saved not_saved).
Proof using Hedit.
  unfold group_command. cbv zeta. acting; apply acts_update_aliases.
Qed.
End parts.
#[export] Hint Resolve acts_metric acts_latency acts_delivery acts_Relay acts_handleConn acts_update_aliases
  acts_set_alias acts_delete_alias acts_group_command : acts.

(** The clients of the relay, with contexts that keep it from queueing. *)
Section clients.
Context (E : Env) (svc : Service) (ctx : Ctx).
#[local] Existing Instance relay_replayer.

Section worker.
Context (wk : Worker) (Hwk : dlq_active svc (replay_ctx wk ctx) = false).
Lemma acts_replay_items its : acts E (may WorkerRole) (replay_items (H:=relay_replayer E svc) E wk ctx its).
Proof using Hwk.
  induction its as [|it its IH]; cbn [replay_items]; [acting|].
  unfold replay_item, DlqWorker.metric, next_delay, randInt63n, now. cbn [relay relay_replayer]. acting.
Qed.
#[local] Hint Resolve acts_replay_items : acts.
Lemma acts_updateBacklogMetrics P : acts E P (updateBacklogMetrics E wk).
Proof using Type. unfold updateBacklogMetrics, now. acting. Qed.
#[local] Hint Resolve acts_updateBacklogMetrics : acts.
Lemma acts_runOnce : acts E (may WorkerRole) (runOnce (H:=relay_replayer E svc) E wk ctx).
Proof using Hwk. unfold runOnce, now. acting. Qed.
#[local] Hint Resolve acts_runOnce : acts.
Lemma acts_Run n : acts E (may WorkerRole) (Run (H:=relay_replayer E svc) E wk ctx n).
Proof using Hwk. induction n; cbn [Run]; acting. Qed.
End worker.

Section bot.
Context (P : powers) (Hretry : P Retrying = true) (Hedit : P Editing = true) (Hconfirm : P Confirming = true).
Context (bot : Bot) (Hbot : ∀ a, dlqAdmin bot = Some a → dlq_active svc (admin_ctx a ctx) = false).

Lemma acts_Replay a id :
  P Finishing = true → dlq_active svc (admin_ctx a ctx) = false → acts E P (Replay (H:=relay_replayer E svc) E a ctx id).
Proof using Hretry. intros Hf Ha. unfold Replay, now. cbv zeta. cbn [relay relay_replayer]. acting. Qed.
#[local] Hint Resolve acts_Replay : acts.
Lemma acts_replay_selected a l ok fail :
  P Finishing = true → dlq_active svc (admin_ctx a ctx) = false →
  acts E P (replay_selected (H:=relay_replayer E svc) E a ctx l ok fail).
Proof using Hretry. intros Hf Ha. revert ok fail. induction l; intros; cbn [replay_selected]; acting. Qed.
#[local] Hint Resolve acts_replay_selected : acts.
Lemma acts_run_action a x :
  P Finishing = true → dlqAdmin bot = Some a → acts E P (run_action (H:=relay_replayer E svc) E ctx a x).
Proof using Hretry Hbot. intros Hf Ha%Hbot. destruct x; cbn [run_action]; unfold ReplayBatch; cbv zeta; acting. Qed.
#[local] Hint Resolve acts_run_action : acts.

(** Only a confirmed replay marks items. *)
Lemma acts_admin_command chatID command parts :
  P Finishing = true ∨ command ≠ "/confirm" →
  acts E P (admin_command (H:=relay_replayer E svc) E bot ctx chatID command parts).
Proof using Hretry Hedit Hconfirm Hbot.
  intros Hm. unfold admin_command. cbv zeta.
  repeat match goal with |- acts _ _ (if decide (command = ?s) then _ else _) =>
    destruct (decide (command = s)); [|try done] end.
  all: try match goal with H : _ = "/confirm" |- _ => destruct Hm as [Hf|Hm]; [|done] end.
  all: try apply acts_fmap.
  all: try match goal with |- acts _ _ (group_command _ _ _ _ ?f _ _) =>
    match f with
    | context [SetAliasGroup] => apply (acts_group_command _ _ Hedit _ _ _ OpSet)
    | context [AddAliasTargets] => apply (acts_group_command _ _ Hedit _ _ _ OpAdd)
    | context [RemoveAliasTargets] => apply (acts_group_command _ _ Hedit _ _ _ OpRemove)
    end
  end.
  all: unfold alias_command, unalias_command, aliases_command, Bot.report, confirm_register, confirm_take, Summary, DlqAdmin.List, Show, ReplayDry, now.
  all: case_eq (dlqAdmin bot); intros; acting.
Qed.
#[local] Hint Resolve acts_admin_command : acts.

Lemma acts_handleBotUpdate u :
  P Finishing = true → acts E P (handleBotUpdate (H:=relay_replayer E svc) E bot ctx u).
Proof using Hretry Hedit Hconfirm Hbot.
  intros Hf.
  unfold handleBotUpdate, handleMessageCreatedUpdate, maybeHandleAdminAliasCommandWithDLQ, SendText.
  cbv zeta. acting.
Qed.
#[local] Hint Resolve acts_handleBotUpdate : acts.
Lemma acts_bot_loop us :
  P Finishing = true → acts E P (bot_loop (H:=relay_replayer E svc) E bot ctx us).
Proof using Hretry Hedit Hconfirm Hbot. intros Hf. induction us; cbn [bot_loop]; acting. Qed.
End bot.

Lemma acts_startup P bot : acts E P (SendStartupNotification E bot).
Proof using Type. unfold SendStartupNotification, SendText. acting. Qed.
End clients.
#[export] Hint Resolve acts_Run acts_bot_loop acts_startup acts_updateBacklogMetrics : acts.

(** Every goroutine of the program has a role, and acts within its powers. *)
Lemma program_thread_acts cfg EmailParse E build m :
  program_thread cfg EmailParse E build m → ∃ r, acts E (may r) m.
Proof.
  destruct 1.
  - exists StartupRole. acting.
  - exists WorkerRole. apply acts_Run, (worker_replays E cfg EmailParse).
  - exists BotRole. apply acts_bot_loop; [done..| |done]. intros a. cbn. destruct (DLQEnabled cfg); [|done].
    intros [= <-]. apply (admin_replays E cfg EmailParse).
  - exists SessionRole. acting.
Qed.

(** ** What actions guarantee *)
Section guarantees.
Context (E : Env).

Lemma run_op_no_new rt now io s o id :
  store_wf s → (∀ rnd r m e, o ≠ OpEnqueue rnd r m e) → items s !! id = None →
  items (run_op rt now io s o) !! id = None.
Proof.
  intros Hwf Ho Hi.
  assert (op_fresh now s o) as Hfr by (destruct o as [rnd r m e| | |]; [by destruct (Ho rnd r m e)|done..]).
  pose proof (run_op_change rt now io s o id Hwf Hfr) as Hc. rewrite Hi in Hc.
  inversion Hc; subst; [done|]. exfalso. by eapply Ho.
Qed.

(** The ids an action may add are those it draws. *)
Record guarantees (ids : list bytes) (w w' : World) : Prop := {
  g_store : rtc (store_step (λ _, True)) (store w) (store w');
  g_new id : items (store w) !! id = None → id ∉ ids → items (store w') !! id = None;
  g_sent : sent w `prefix_of` sent w';
  g_aliases : aliases_wf (H:=tables E) (aliases (recipients w)) →
              aliases_wf (H:=tables E) (aliases (recipients w'));
  g_domain : allowedDomain (recipients w') = allowedDomain (recipients w);
}.

Lemma guarantees_refl w : guarantees [] w w.
Proof. by split. Qed.
Lemma guarantees_trans ids1 ids2 w w1 w2 :
  guarantees ids1 w w1 → guarantees ids2 w1 w2 → guarantees (ids1 ++ ids2) w w2.
Proof.
  intros [] []. split; [by etrans| |by etrans|auto|congruence].
  intros id Hn Hid. apply not_elem_of_app in Hid as [??]. auto.
Qed.

Lemma apply_op_domain p o : allowedDomain (Recipient.apply_op (H:=tables E) p o) = allowedDomain p.
Proof.
  destruct o; cbn; unfold SetAliasGroup, AddAliasTargets, RemoveAliasTargets, DeleteAlias; cbv zeta;
    repeat case_match; done.
Qed.

(** One action. *)
Lemma action_guarantees d w w' :
  store_wf (store w) → (∀ id, d = Some id → items (store w) !! id = None) →
  action E every_power w d w' → guarantees (option_list d) w w'.
Proof.
  intros Hwf Hfr Ha. destruct Ha as [| |f|x|t io o Ho|t io rnd r m e _|o _|io m _|A f _];
    try (by split; cbn; try done; by eexists).
  - assert (∀ rnd r m e, o ≠ OpEnqueue rnd r m e) as Hne by (by intros rnd r m e ->).
    split; cbn [store set_store sent recipients]; try done.
    + apply rtc_once, store_step_op; [done|]. by destruct o.
    + intros id Hi _. by apply run_op_no_new.
  - split; cbn [store set_store sent recipients]; try done.
    + apply rtc_once, store_step_op; [done|]. by apply Hfr.
    + intros id Hi Hne. apply Enqueue_new_id; [done|done|]. cbn in Hne. set_solver.
  - split; cbn; [done|done|done|apply apply_op_wf|apply apply_op_domain].
Qed.

(** [ds] are the ids drawn by the events of [g]. *)
Definition certified (g : log) (ds : list (option bytes)) : Prop :=
  Forall2 (λ ie d, action E every_power ie.2.1 d ie.2.2) g ds.
Definition drawn (ds : list (option bytes)) : list bytes := omap id ds.
(** No id is drawn twice, nor is one of the queue. *)
Definition ids_fresh (w : World) (ds : list (option bytes)) : Prop :=
  NoDup (drawn ds) ∧ ∀ id, id ∈ drawn ds → items (store w) !! id = None.

Lemma certified_exists g : Forall (λ ie, acting_step E every_power ie.2.1 ie.2.2) g → ∃ ds, certified g ds.
Proof.
  induction 1 as [|ie g [d Hd] _ [ds IH]]; [exists []; constructor|]. exists (d :: ds). by constructor.
Qed.
(** Goroutines that do not enqueue draw nothing. *)
Definition adds_nothing (w w' : World) : Prop := ∃ P : powers, P Adding = false ∧ acting_step E P w w'.
Lemma certified_none g :
  Forall (λ ie, adds_nothing ie.2.1 ie.2.2) g → certified g (replicate (length g) None).
Proof.
  induction 1 as [|ie g (P & HP & d & Hd) _ IH]; constructor; [|exact IH].
  pose proof (action_no_id _ _ _ _ _ HP Hd) as ->. by apply (action_mono E P).
Qed.
Lemma fresh_none w n : ids_fresh w (replicate n None).
Proof.
  assert (drawn (replicate n None) = []) as Hd by (induction n; [done|exact IHn]).
  unfold ids_fresh. rewrite Hd. split; [constructor|]. by intros id ?%elem_of_nil.
Qed.

Lemma drawn_app ds1 ds2 : drawn (ds1 ++ ds2) = drawn ds1 ++ drawn ds2.
Proof. apply omap_app. Qed.

Lemma log_guarantees w g ds :
  chained w g → certified g ds → store_wf (store w) → ids_fresh w ds →
  guarantees (drawn ds) w (world_after w g).
Proof.
  intros Hch Hc. revert w Hch. induction Hc as [|[i [w1 w2]] d g ds Ha _ IH]; intros w; [intros; apply guarantees_refl|].
  intros [-> Hch] Hwf [Hnd Hfr]. rewrite world_after_cons. cbn [fst snd] in *.
  change (drawn (d :: ds)) with (drawn ([d] ++ ds)) in *. rewrite drawn_app in *. apply NoDup_app in Hnd as (Hnd1 & Hdis & Hnd2).
  assert (drawn [d] = option_list d) as Hd by by destruct d.
  assert (guarantees (drawn [d]) w w2) as Hg.
  { rewrite Hd. apply action_guarantees; [done| |done]. intros id ->. apply Hfr. set_solver. }
  eapply guarantees_trans; [exact Hg|]. apply IH; [done|by eapply store_steps_wf, g_store|].
  split; [done|]. intros id Hid. eapply g_new; [exact Hg|apply Hfr; set_solver|].
  intros Hid1. by apply (Hdis id).
Qed.

(** The same from the middle of a run on. *)
Lemma log_guarantees_from w g1 g2 ds1 ds2 :
  chained w (g1 ++ g2) → certified g1 ds1 → certified g2 ds2 → store_wf (store w) → ids_fresh w (ds1 ++ ds2) →
  guarantees (drawn ds1) w (world_after w g1) ∧
  guarantees (drawn ds2) (world_after w g1) (world_after w (g1 ++ g2)).
Proof.
  intros [Hc1 Hc2]%chained_app H1 H2 Hwf [Hnd Hfr]. rewrite drawn_app in *. apply NoDup_app in Hnd as (Hnd1 & Hdis & Hnd2).
  assert (guarantees (drawn ds1) w (world_after w g1)) as Hg.
  { apply log_guarantees; [done..|]. split; [done|]. intros; apply Hfr; set_solver. }
  split; [exact Hg|]. rewrite world_after_app. apply log_guarantees; [done|done|by eapply store_steps_wf, g_store|].
  split; [done|]. intros id Hid. eapply g_new; [exact Hg|apply Hfr; set_solver|]. intros Hid1. by apply (Hdis id).
Qed.
Lemma ids_fresh_prefix w ds1 ds2 : ids_fresh w (ds1 ++ ds2) → ids_fresh w ds1.
Proof. unfold ids_fresh. rewrite drawn_app. intros [(? & _ & _)%NoDup_app Hfr]. split; [done|]. set_solver. Qed.

(** An item stays in the queue with its message. *)
Lemma log_keeps w g1 g2 g3 ds id it :
  chained w (g1 ++ g2 ++ g3) → certified (g1 ++ g2 ++ g3) ds → store_wf (store w) → ids_fresh w ds →
  items (store (world_after w g1)) !! id = Some it →
  ∃ it', items (store (world_after w (g1 ++ g2))) !! id = Some it' ∧ same_message it it'.
Proof.
  rewrite app_assoc. intros [Hch _]%chained_app (ds12 & ds3 & H12 & _ & ->)%Forall2_app_inv_l Hwf Hfr%ids_fresh_prefix Hi.
  apply Forall2_app_inv_l in H12 as (ds1 & ds2 & H1 & H2 & ->).
  destruct (log_guarantees_from w g1 g2 ds1 ds2) as [G1 G2]; [done..|].
  destruct (store_steps_keep (λ _, True) (store (world_after w g1)) (store (world_after w (g1 ++ g2)))) with id it
    as (it' & Hi' & Hm & _); [by eapply store_steps_wf, g_store|by eapply g_store|done|]. by exists it'.
Qed.
End guarantees.

(** The state [main] starts with. *)
Lemma initial_world_ok cfg E alias_file read_err d w :
  initial_world cfg E alias_file read_err d = Ok w →
  store_wf (store w) ∧ aliases_wf (H:=tables E) (aliases (recipients w)) ∧
  allowedDomain (recipients w) = to_lower (H:=tables E) (trim_space (SMTPAllowedDomain cfg)).
Proof.
  unfold initial_world. destruct (LoadAliases alias_file) as [m|] eqn:Em; [|done]. cbn [mbind res_bind].
  apply (LoadAliases_wf (H:=tables E)) in Em.
  destruct (if DLQEnabled cfg then _ else _) as [s|] eqn:Es; [|done]. cbn [mbind res_bind].
  intros [= <-]. split; [|by split]. cbn. destruct (DLQEnabled cfg); simplify_eq.
  - by eapply NewFileStore_wf.
  - apply map_Forall_empty.
Qed.

(** * Properties *)

(** C7. The program acts on its shared state only by atomic actions, and each part
    only within its powers.  In every interleaving each goroutine has a role (the
    startup message, the worker, the bot or a session), and every event of it is
    one operation of the store, the alias table or its file, the sender, the
    counters or the confirmations that the role may do: only sessions enqueue, only
    the worker picks, only the worker and the bot mark items, only the bot edits
    aliases or uses confirmations; and the next event starts where it ended. *)
Theorem program_acts cfg EmailParse E build w g :
  pool_run (program_thread cfg EmailParse E build) w [] g →
  chained w g ∧ ∃ roles : list role, ∀ i e, (i, e) ∈ g →
    ∃ r, roles !! i = Some r ∧ acting_step E (may r) e.1 e.2.
Proof.
  intros Hrun. split; [by eapply pool_chained|].
  destruct (pool_roles (λ r, acting_step E (may r)) _ _ _ _ [] Hrun) as (roles & _ & H); [|constructor|by exists roles].
  intros m Hm. by eapply program_thread_acts.
Qed.

Lemma program_certified cfg EmailParse E build w g :
  pool_run (program_thread cfg EmailParse E build) w [] g → ∃ ds, certified E g ds.
Proof.
  intros Hrun. apply certified_exists. eapply (pool_always (acting_step E every_power)); [exact Hrun| |done].
  intros m [r Hr]%program_thread_acts. by apply (acts_mono E (may r)).
Qed.

(** C8. What every run of the program guarantees from the state it starts with, for
    any interleaving of the actions of its goroutines and any outcome of the file
    system and of MAX, provided that no two queue items draw the same id: an item
    once in the queue is never lost nor altered; what is sent is never unsent; the
    queue file is at every moment the one the program started with or one from
    which a restart recovers a state the queue was in; the alias table stays well
    formed and the domain fixed. *)
Theorem run_safe cfg EmailParse E build file read_err d w0 g1 g2 ds :
  initial_world cfg E file read_err d = Ok w0 → ids_valid (store w0) →
  pool_run (program_thread cfg EmailParse E build) w0 [] (g1 ++ g2) →
  certified E (g1 ++ g2) ds → ids_fresh w0 ds →
  let w1 := world_after w0 g1 in
  let w2 := world_after w0 (g1 ++ g2) in
  (∀ id it, items (store w1) !! id = Some it →
     ∃ it', items (store w2) !! id = Some it' ∧ same_message it it') ∧
  sent w1 `prefix_of` sent w2 ∧
  (disk (store w2) !! path (store w0) = disk (store w0) !! path (store w0) ∨
   ∃ s1 s2, rtc (store_step (λ _, True)) (store w0) s1 ∧ rtc (store_step (λ _, True)) s1 (store w2) ∧
     NewFileStore None (path (store w0)) (disk (store w2)) = Ok s2 ∧ items s2 = recover <$> items s1) ∧
  aliases_wf (H:=tables E) (aliases (recipients w2)) ∧
  allowedDomain (recipients w2) = to_lower (H:=tables E) (trim_space (SMTPAllowedDomain cfg)).
Proof.
  intros H0 Hv Hch%pool_chained Hc Hfr w1 w2.
  pose proof Hc as (ds1 & ds2 & H1 & H2 & ->)%Forall2_app_inv_l.
  destruct (initial_world_ok _ _ _ _ _ _ H0) as (Hwf & Ha & Hd).
  destruct (log_guarantees_from E w0 g1 g2 ds1 ds2) as [G1 G2]; [done..|]. fold w1 w2 in G1, G2.
  destruct (guarantees_trans _ _ _ _ _ _ G1 G2) as [Hs _ _ Hal Hdom]. split_and!; [|apply G2|..].
  - intros id it Hi. rewrite <- (app_nil_r g2) in Hch, Hc. by eapply log_keeps.
  - by apply store_steps_crash.
  - by apply Hal.
  - by rewrite Hdom.
Qed.

(** A restart with one message in the queue file; the worker and the bot take
    turns. *)
Definition example_config : Config :=
  match Load (H:=basic_unicode) (λ k,
    if decide (k = "DLQ_FILE_PATH") then "/tmp/dlq.json"
    else if decide (k = "MAX_SENDER_MODE") then "botapi"
    else if decide (k = "MAX_BOT_TOKEN") then "token" else []) with
  | Ok cfg => cfg
  | Err _ => Config.mkConfig [] 0 0 [] [] 0 [] [] [] 0 0 0 0 0 0 0 [] false [] 0 0 0 0
  end.
Definition queued_item : Item := fresh_item unix_epoch [] "chatid1@relay.local" "mail" None.
Definition queued_id : bytes := ID queued_item.
Definition queue_file : gmap bytes (file_content (list Item)) := {[ DLQFilePath example_config := Doc [queued_item] ]}.
Definition start_world : World :=
  {| tick := 0; store := mkStore (DLQFilePath example_config) {[ queued_id := queued_item ]} queue_file;
     recipients := mkParser "relay.local" ∅; alias_file := NotExist; metrics := NewCollector;
     pendingConfirm := ∅; sent := [] |}.
Lemma start_world_initial : initial_world example_config wit_env NotExist None queue_file = Ok start_world.
Proof. vm_compute. reflexivity. Qed.

Definition example_threads : list (M unit) :=
  [Run (H:=relay_replayer wit_env (relaySvc example_config demo_email)) wit_env (dlqWorker example_config) Background 1;
   bot_loop (H:=relay_replayer wit_env (relaySvc example_config demo_email)) wit_env
     (the_bot example_config demo_email wit_env default_build 1 "relay_bot") Background
     [MessageCreatedUpdate (Some (wit_message "/help"))]].
Lemma example_threads_program : Forall (program_thread example_config demo_email wit_env default_build) example_threads.
Proof. constructor; [by apply worker_thread|]. constructor; [by apply bot_thread|constructor]. Qed.
Lemma example_run sched :
  pool_run (program_thread example_config demo_email wit_env default_build) start_world []
    (pool_exec sched start_world example_threads).
Proof. apply (pool_run_starts _ _ [] _ _ example_threads_program), pool_exec_run. Qed.
Lemma example_certified sched :
  let g := pool_exec sched start_world example_threads in certified wit_env g (replicate (length g) None).
Proof.
  apply certified_none. eapply (pool_always (adds_nothing wit_env) (λ _, False)); [apply pool_exec_run|done|].
  constructor; [|constructor; [|constructor]].
  - eapply always_mono; [intros w w' Ha; exists (may WorkerRole); split; [done|exact Ha]|].
    apply acts_Run, (worker_replays wit_env example_config demo_email).
  - eapply always_mono; [intros w w' Ha; exists (may BotRole); split; [done|exact Ha]|].
    apply acts_bot_loop; [done..| |done]. intros a. cbn. intros [= <-].
    apply (admin_replays wit_env example_config demo_email).
Qed.
(** The worker and the bot take turns. *)
Definition example_log : log := pool_exec [0; 1; 1; 0; 0]%nat start_world example_threads.

Lemma run_safe_witness :
  length example_log = 5%nat ∧ sent (world_after start_world example_log) ≠ [] ∧
  ∃ it', items (store (world_after start_world example_log)) !! queued_id = Some it' ∧ RawMessage it' = "mail".
Proof.
  split; [vm_compute; reflexivity|]. split; [vm_compute; discriminate|].
  pose proof (run_safe example_config demo_email wit_env default_build NotExist None queue_file start_world
    [] example_log (replicate (length example_log) None)) as Hsafe. cbv zeta in Hsafe.
  destruct Hsafe as [Hkeep _].
  - exact start_world_initial.
  - apply map_Forall_singleton. apply new_item_id_valid.
  - apply example_run.
  - apply example_certified.
  - apply fresh_none.
  - destruct (Hkeep queued_id queued_item) as (it' & Hi' & (_ & _ & _ & Hm & _)); [apply lookup_singleton_eq|].
    exists it'. split; [exact Hi'|]. rewrite Hm. reflexivity.
Defined.

Lemma program_acts_witness : length example_log = 5%nat ∧ ∃ roles : list role, ∀ i e, (i, e) ∈ example_log →
  ∃ r, roles !! i = Some r ∧ acting_step wit_env (may r) e.1 e.2.
Proof.
  split; [vm_compute; reflexivity|].
  apply (program_acts example_config demo_email wit_env default_build start_world). apply example_run.
Defined.
