(* ===== verification/Delivery.v ===== *)
(** * Queued messages are delivered

    An item of the queue is marked as done only once its message has been relayed
    completely.  A goroutine that marks an item has seen it in the queue and has
    since relayed its message; between any two of its actions the others may act
    and change the queue and the alias table.  The parts that never mark an item
    come for free from the actions of [System]. *)
From S2P Require Import Prelude GoStrings GoRuntime GoJson Recipient DlqStore Metrics Email RateLimiter Trace.
From S2P Require Import Confirm World Threads Relay Backoff DlqWorker DlqAdmin Smtp Version BotHelp BotSender Bot.
From S2P Require Import Config Main System.

Open Scope Z_scope.
Open Scope go_scope.

(** ** What a goroutine sends *)
Definition event_sends (e : event) : send_log := drop (length (sent e.1)) (sent e.2).
Definition sends (t : list event) : send_log := t ≫= event_sends.

Lemma sends_app t1 t2 : sends (t1 ++ t2) = sends t1 ++ sends t2.
Proof. apply bind_app. Qed.

(** [m] sends nothing. *)
Definition silent {A} (m : M A) : Prop := post m (λ t _, sends t = []).
(** [m] delivers [xs] if it ends well. *)
Definition delivers_all (xs : list send) (m : M (option bytes)) : Prop :=
  post m (λ t r, r = None → successes (sends t) = xs).

Lemma silent_ret {A} (a : A) : silent (mret a).
Proof. by apply post_ret. Qed.
Lemma silent_act {A} (f : World → A * World) : (∀ w, sent (f w).2 = sent w) → silent (act f).
Proof. intros Hf. apply post_act. intros w. cbn. unfold event_sends. cbn. by rewrite Hf, drop_all. Qed.
Lemma silent_bind {A B} (m : M A) (k : A → M B) : silent m → (∀ a, silent (k a)) → silent (m ≫= k).
Proof.
  intros Hm Hk. apply (post_bind _ _ _ _ Hm). intros t1 a H1. apply (post_mono _ _ _ (Hk a)).
  intros t2 b H2. by rewrite sends_app, H1, H2.
Qed.
Lemma silent_ask {A} (f : nat → A) : silent (ask f).
Proof. by apply silent_act. Qed.
Lemma silent_observe f : silent (observe f).
Proof. by apply silent_act. Qed.
Lemma silent_Enqueue E r m e : silent (store_Enqueue E r m e).
Proof.
  do 3 (apply silent_bind; [apply silent_ask|]; intros ?). apply silent_act. intros w. by destruct (Enqueue _ _ _ _ _ _ _).
Qed.

Lemma delivers_silent {A} xs (q : M A) k :
  silent q → (∀ a, delivers_all xs (k a)) → delivers_all xs (q ≫= k).
Proof.
  intros Hq Hk. apply (post_bind _ _ _ _ Hq). intros t1 a H1. apply (post_mono _ _ _ (Hk a)).
  intros t2 r H2 Hr. rewrite sends_app, H1. by apply H2.
Qed.
Lemma delivers_after {A} xs m (q : M A) :
  delivers_all xs m → silent q → delivers_all xs (r ← m; _ ← q; mret r).
Proof.
  intros Hm Hq. apply (post_bind _ _ _ _ Hm). intros t1 r H1. apply (post_bind _ _ _ _ Hq). intros t2 a H2.
  apply post_ret. intros ->. by rewrite app_nil_r, sends_app, H2, app_nil_r, H1.
Qed.
Lemma delivers_then xs ys (m k : M (option bytes)) :
  delivers_all xs m → delivers_all ys k →
  delivers_all (xs ++ ys) (r ← m; match r with Some e => mret (Some e) | None => k end).
Proof.
  intros Hm Hk. apply (post_bind _ _ _ _ Hm). intros t1 [e|] H1; [by apply post_ret|].
  apply (post_mono _ _ _ Hk). intros t2 r H2 Hr. by rewrite sends_app, successes_app, (H1 eq_refl), (H2 Hr).
Qed.

(** ** What makes an item done *)
(** An operation that marks nothing makes no item done. *)
Lemma run_op_done rt now io s o id it' :
  store_wf s → op_fresh now s o → o ≠ OpMarkDone id →
  items (run_op rt now io s o) !! id = Some it' → status it' = StatusDone →
  ∃ it, items s !! id = Some it ∧ status it = StatusDone ∧ same_message it it'.
Proof.
  intros Hwf Hfr Ho Hi Hs. pose proof (run_op_change rt now io s o id Hwf Hfr) as Hc. rewrite Hi in Hc.
  inversion Hc as [|? ? ? ? ? ? ? Eit|? ? it Hl|? it Hd|? it Eo|? ? e n it]; subst.
  - by exists it'.
  - exfalso. pose proof (fresh_item_spec now0 rnd r m e) as (_ & _ & _ & Hp & _). by rewrite Hp in Hs.
  - exfalso. destruct (with_last_error_same e it) as (_ & Hst & _). cbn in Hs. rewrite Hst in Hs.
    apply live_spec in Hl. rewrite Hs in Hl. naive_solver.
  - done.
  - by destruct Ho.
  - exfalso. revert Hs. unfold retry_item. cbv zeta. by destruct e; split_if.
Qed.

(** [Enqueue] writes one item, a live one. *)
Lemma Enqueue_writes rt t io s rnd r m e :
  ∃ it, live it = true ∧ items (run_op rt t io s (OpEnqueue rnd r m e)) = <[ID it := it]> (items s).
Proof.
  cbn [run_op]. destruct (Enqueue_cases (H:=rt) t rnd io s r m e)
    as [(k & it & _ & Hl & _ & Eq)|[_ Eq]]; cbv zeta in Eq; rewrite Eq;
    match goal with |- context [persist_and_return ?io ?x ?y] =>
      destruct (persist_and_return_items (H:=rt) io x y) as [Hi _]; destruct (persist_and_return io x y); exists y
    end; (split; [|exact Hi]).
  - destruct (with_last_error_same e it) as (_ & Hs & _). apply live_spec. cbn. rewrite Hs. by apply live_spec.
  - apply fresh_item_spec.
Qed.

(** ** A relay as one goroutine among others *)
Section delivery.
Context (E : Env) (svc : Service).

Lemma silent_metric f : silent (Relay.metric svc f).
Proof. unfold Relay.metric. destruct (Relay.has_metrics svc); [apply silent_observe|apply silent_ret]. Qed.
Lemma silent_latency stage t : silent (observe_latency E svc stage t).
Proof.
  unfold observe_latency. destruct (Relay.has_metrics svc); [|apply silent_ret].
  apply silent_bind; [apply silent_ask|]. intros. apply silent_observe.
Qed.
Lemma silent_delivery r b c n : silent (observe_delivery E svc r b c n).
Proof.
  unfold observe_delivery. destruct (Relay.has_metrics svc); [|apply silent_ret].
  apply silent_bind; [apply silent_ask|]. intros. apply silent_observe.
Qed.

Lemma silent_limited : silent (limited E).
Proof.
  apply silent_bind; [apply silent_ask|]. intros p.
  induction (RateLimiter.passage_marks p) as [|f l IH]; [apply silent_ret|].
  apply silent_bind; [apply silent_observe|]. intros _. exact IH.
Qed.
Lemma delivers_call x : post (call_sender E x) (λ t r, sends t = [(x, r)]).
Proof.
  apply (post_bind _ _ _ _ silent_limited). intros t1 [] H1. apply post_act. intros w.
  rewrite sends_app, H1. cbn. unfold event_sends. cbn. by rewrite drop_app_length.
Qed.

Lemma delivers_attempts n d x : delivers_all [x] (send_attempts E n d (call_sender E x)).
Proof.
  induction n as [|n IH]; cbn [send_attempts]; apply (post_bind _ _ _ _ (delivers_call x)); intros t1 [e|] H1.
  - by apply post_ret.
  - apply post_ret. intros _. by rewrite app_nil_r, H1.
  - apply (post_bind _ _ _ _ (silent_ask _)). intros t2 [ce|] H2; [by apply post_ret|].
    apply (post_mono _ _ _ IH). intros t3 r H3 Hr. rewrite !sends_app, !successes_app, H1, H2, (H3 Hr). reflexivity.
  - apply post_ret. intros _. by rewrite app_nil_r, H1.
Qed.

Section relay.
Context (ctx : Ctx) (rcpt raw : bytes).

Lemma delivers_piece label what t p :
  delivers_all [mkSend (ChatID t) p (Silent t)] (send_piece E svc ctx rcpt raw label what t p).
Proof.
  unfold send_piece, sendWithRetry. cbv zeta. apply delivers_silent; [apply silent_ask|]. intros t0.
  apply (post_bind _ _ _ _ (delivers_attempts _ _ _)). intros t1 r H1.
  apply (post_bind _ _ _ _ (silent_latency _ _)). intros t2 [] H2. destruct r as [e|].
  - intros t3 r (? & ? & msg & -> & _ & [-> ->])%traces_bind. discriminate.
  - apply post_ret. intros _. by rewrite app_nil_r, sends_app, H2, app_nil_r, H1.
Qed.
Lemma delivers_chunks label t chunks :
  delivers_all ((λ c, mkSend (ChatID t) (PText c) (Silent t)) <$> chunks)
    (send_chunks E svc ctx rcpt raw label t chunks).
Proof.
  induction chunks as [|c chunks IH]; [by apply post_ret|]. cbn [send_chunks fmap list_fmap].
  apply (delivers_then [_]); [apply delivers_piece|exact IH].
Qed.
Lemma delivers_files label t atts :
  delivers_all ((λ a, mkSend (ChatID t) (PFile a) (Silent t)) <$> atts)
    (send_files E svc ctx rcpt raw label t atts).
Proof.
  induction atts as [|a atts IH]; [by apply post_ret|]. cbn [send_files fmap list_fmap].
  apply (delivers_then [_]); [apply delivers_piece|]. by apply delivers_silent; [apply silent_metric|].
Qed.
Lemma delivers_targets label text atts targets :
  delivers_all (concat (target_sends text atts <$> targets)) (deliver E svc ctx rcpt raw label text atts targets).
Proof.
  induction targets as [|t targets IH]; [by apply post_ret|]. cbn [deliver fmap list_fmap concat].
  unfold target_sends at 1. rewrite <- app_assoc.
  apply delivers_then; [apply delivers_chunks|]. apply delivers_silent; [apply silent_metric|]. intros _.
  apply delivers_then; [apply delivers_files|]. apply delivers_silent; [apply silent_metric|]. intros _.
  by apply delivers_silent; [apply silent_delivery|].
Qed.
End relay.

(** In [t] every piece of the message was accepted by MAX, in order, for the
    targets the alias table gave at one of its events. *)
Definition relayed (t : list event) (rcpt raw : bytes) : Prop := ∃ e,
  e ∈ t ∧ deliverable E svc (recipients e.1) raw rcpt ∧
  successes (sends t) = planned_for E svc (recipients e.1) raw rcpt.

Lemma relayed_silent t1 t2 t3 rcpt raw :
  sends t1 = [] → sends t3 = [] → relayed t2 rcpt raw → relayed (t1 ++ t2 ++ t3) rcpt raw.
Proof.
  intros H1 H3 (e & He & Hd & Hs). exists e. rewrite !sends_app, H1, H3, app_nil_r.
  split_and!; [set_solver|done|done].
Qed.

(** A relay that ends well has relayed its message, whatever the other goroutines
    do in the meantime. *)
Lemma relay_body_trace ctx rcpt raw :
  post (relay_body E svc ctx rcpt raw) (λ t r, r = None → relayed t rcpt raw).
Proof.
  unfold relay_body. apply (post_bind _ _ _ _ (silent_metric _)). intros t1 [] H1.
  apply (post_bind _ _ (λ t p, ∃ w, t = [(w, w)] ∧ p = recipients w)); [apply post_act; intros w; by exists w|].
  intros ? p (w & -> & ->).
  destruct (Recipient.Parse _ _) as [pr|e] eqn:Hp.
  2: { intros t r (? & ? & ? & -> & _ & (? & ? & ? & -> & _ & [-> ->])%traces_bind)%traces_bind. discriminate. }
  destruct (EmailParse svc raw) as [em|e] eqn:Hm.
  2: { intros t r (? & ? & ? & -> & _ & (? & ? & ? & -> & _ & (? & ? & ? & -> & _ & (? & ? & ? & -> & _ &
         [-> ->])%traces_bind)%traces_bind)%traces_bind)%traces_bind. discriminate. }
  assert (delivers_all (planned pr em) (parseStartedAt ← now E; _ ← observe_latency E svc "email_parse" parseStartedAt;
    deliver E svc ctx rcpt raw (SourceLocal pr) (message_text em) (Attachments em) (Targets pr))) as Hd.
  { apply delivers_silent; [apply silent_ask|]. intros t0. apply delivers_silent; [apply silent_latency|]. intros [].
    apply delivers_targets. }
  apply (post_mono _ _ _ Hd). intros t r Ht Hr. exists (w, w). split; [set_solver|].
  unfold deliverable, planned_for. cbn [fst]. rewrite Hp, Hm. split; [done|].
  rewrite !sends_app, H1. cbn [sends mbind list_bind]. unfold event_sends at 1. cbn [fst snd].
  rewrite drop_all. by apply Ht.
Qed.
Lemma Relay_trace ctx rcpt raw : post (Relay E svc ctx rcpt raw) (λ t r, r = None → relayed t rcpt raw).
Proof.
  unfold Relay. apply (post_bind _ _ _ _ (silent_ask _)). intros t1 t0 H1.
  apply (post_bind _ _ _ _ (relay_body_trace _ _ _)). intros t2 r H2.
  apply (post_bind _ _ _ _ (silent_latency _ _)). intros t3 [] H3. apply post_ret. intros Hr.
  rewrite app_nil_r. by apply relayed_silent; [| |apply H2].
Qed.


(** ** Marking an item *)

(** The goroutine saw [it] in the queue. *)
Definition saw (t : list event) (id : bytes) (it : Item) : Prop := ∃ e,
  e ∈ t ∧ (items (store e.1) !! id = Some it ∨ items (store e.2) !! id = Some it).
(** It saw the item and has relayed its message since. *)
Definition justified (t : list event) (id : bytes) : Prop := ∃ t1 t2 t3 it,
  t = t1 ++ t2 ++ t3 ∧ saw t1 id it ∧ relayed t2 (DlqStore.Recipient it) (RawMessage it).

(** An action makes no item done but those the goroutine has relayed. *)
Record honest_action (t : list event) (w w' : World) : Prop := {
  h_wf : store_wf (store w');
  h_done id it' : items (store w') !! id = Some it' → status it' = StatusDone →
    (∃ it, items (store w) !! id = Some it ∧ status it = StatusDone) ∨ justified t id;
}.
Definition honest_from {A} (t : list event) (m : M A) : (list event → A → Prop) → Prop :=
  wp (λ w, store_wf (store w)) honest_action m t.
Definition honest {A} (m : M A) : Prop := ∀ t, honest_from t m (λ _ _, True).

Lemma saw_prefix t t' id it : t `prefix_of` t' → saw t id it → saw t' id it.
Proof. intros [t2 ->] (e & He & H). exists e. split; [set_solver|done]. Qed.
Lemma justified_app t t' id : justified t id → justified (t ++ t') id.
Proof.
  intros (t1 & t2 & t3 & it & -> & H). exists t1, t2, (t3 ++ t'), it. by rewrite <- !app_assoc.
Qed.

Lemma honest_same t w w' : store_wf (store w) → store w' = store w → honest_action t w w'.
Proof. intros Hwf Hs. split; rewrite Hs; [done|]. intros id it Hi Hd. left. by exists it. Qed.

(** An action that marks nothing. *)
Definition not_finishing : powers := λ k, match k with Finishing => false | _ => true end.
Lemma action_honest t w d w' :
  store_wf (store w) → action E not_finishing w d w' → honest_action t w w'.
Proof.
  intros Hwf [| |f|x|now io o Ho|now io rnd r m e _|o _|io m _|A f _]; try by apply honest_same.
  - assert (op_fresh now (store w) o) as Hfr by by destruct o.
    split; cbn [store set_store].
    + eapply store_step_wf; [done|]. by apply (store_step_op (λ _, True)).
    + intros id it' Hi Hs. left. destruct (run_op_done (runtime E) now io (store w) o id it' Hwf Hfr) as (it & ? & ? & _);
        [by intros ->|done..|by exists it].
  - destruct (Enqueue_writes (runtime E) now io (store w) rnd r m e) as (it & Hl & Hi). split; cbn [store set_store].
    + unfold store_wf. rewrite Hi. by apply map_Forall_insert_2.
    + intros id it'. rewrite Hi. intros [[<- ->]|[_ Hi']]%lookup_insert_Some Hs; [|left; by exists it'].
      exfalso. apply live_spec in Hl. rewrite Hs in Hl. naive_solver.
Qed.

Lemma from_acts {A} (m : M A) t (Q : list event → A → Prop) :
  acts E not_finishing m → (∀ t' a, traces m t' a → Q (t ++ t') a) → honest_from t m Q.
Proof.
  intros Hm HQ. apply (wp_always _ _ _ (acting_step E not_finishing)); [done| |done].
  intros t' w w' Hwf [d Ha]. by eapply action_honest.
Qed.
Lemma from_bind {A B} (m : M A) (k : A → M B) t Q :
  honest_from t m (λ t' a, honest_from t' (k a) Q) → honest_from t (m ≫= k) Q.
Proof. apply wp_bind. Qed.
Lemma from_mono {A} (m : M A) t (P Q : list event → A → Prop) :
  honest_from t m P → (∀ t' a, P t' a → Q t' a) → honest_from t m Q.
Proof. apply wp_mono. Qed.
Lemma honest_acts {A} (m : M A) : acts E not_finishing m → honest m.
Proof. intros Hm t. by eapply from_acts. Qed.
Lemma honest_bind {A B} (m : M A) (k : A → M B) : honest m → (∀ a, honest (k a)) → honest (m ≫= k).
Proof. intros Hm Hk t. apply from_bind. eapply from_mono; [apply Hm|]. intros t' a _. apply Hk. Qed.
Lemma honest_fmap {A B} (f : A → B) (m : M A) : honest m → honest (f <$> m).
Proof. intros Hm. by apply honest_bind. Qed.
Lemma from_then {A B} (m : M A) (k : A → M B) t (P : list event → A → Prop) :
  honest_from t m P → (∀ t' a, P t' a → honest_from t' (k a) (λ _ _, True)) →
  honest_from t (m ≫= k) (λ _ _, True).
Proof. intros Hm Hk. apply from_bind. by eapply from_mono. Qed.

(** The operations of the store, after the oracles they use. *)
Lemma from_ask {A B} (f : nat → A) (k : A → M B) t Q :
  (∀ e a, honest_from (t ++ [e]) (k a) Q) → honest_from t (ask f ≫= k) Q.
Proof. intros Hk w Hwf. split; [by apply honest_same|]. apply Hk. Qed.
Lemma from_with_store {A} (f : FileStore → A * FileStore) t (Q : list event → A → Prop) :
  (∀ w, store_wf (store w) → let w' := set_store (f (store w)).2 w in
     honest_action t w w' ∧ Q (t ++ [(w, w')]) (f (store w)).1) →
  honest_from t (with_store f) Q.
Proof. intros Hf w Hwf. specialize (Hf w Hwf). by rewrite (surjective_pairing (f _)). Qed.

(** [MarkDone] by a goroutine that may. *)
Lemma from_MarkDone id t : justified t id → honest_from t (store_MarkDone E id) (λ _ _, True).
Proof.
  intros Hj. apply from_ask. intros e1 n. apply from_ask. intros e2 i. apply from_with_store. intros w H w'.
  split; [|done]. rewrite <- app_assoc. unfold w'.
  change ((DlqStore.MarkDone n i (store w) id).2) with (run_op (runtime E) n i (store w) (OpMarkDone id)).
  split; cbn [store set_store].
  - eapply store_step_wf; [done|]. by apply (store_step_op (λ _, True)).
  - intros id' it' Hi Hs. destruct (decide (id' = id)) as [->|Hne]; [right; by apply justified_app|left].
    destruct (run_op_done (runtime E) n i (store w) (OpMarkDone id) id' it' H I) as (it & ? & ? & _);
      [congruence|done|done|by exists it].
Qed.

(** ** The goroutines that mark *)
#[local] Existing Instance relay_replayer.

(** A relay of an item seen in the queue: if it ends well, the item may be marked. *)
Lemma from_relay {B} ctx id it t (k : option bytes → M B) :
  saw t id it →
  (∀ t' r, (r = None → justified t' id) → honest_from t' (k r) (λ _ _, True)) →
  honest_from t (Relay E svc ctx (DlqStore.Recipient it) (RawMessage it) ≫= k) (λ _ _, True).
Proof.
  intros Hsaw Hk. eapply (from_then _ _ _ (λ t' r, r = None → justified t' id)); [|done].
  eapply from_acts; [apply acts_Relay; by left|]. intros t' r Ht Hr.
  exists t, t', [], it. rewrite app_nil_r. split_and!; [done|done|]. by apply (Relay_trace _ _ _ _ _ Ht).
Qed.

(** One step of a loop over items seen in the queue. *)
Lemma from_next {A B} (m : M A) (k : A → M B) (its : list Item) t :
  honest_from t m (λ _ _, True) → (∀ it, it ∈ its → saw t (ID it) it) →
  (∀ t' a, (∀ it, it ∈ its → saw t' (ID it) it) → honest_from t' (k a) (λ _ _, True)) →
  honest_from t (m ≫= k) (λ _ _, True).
Proof.
  intros Hm Hits Hk. eapply from_then; [apply wp_extends, Hm|]. intros t' a [_ Hp]. apply Hk.
  intros it Hit. eapply saw_prefix; [exact Hp|by apply Hits].
Qed.

Section worker.
Context (wk : Worker) (ctx : Ctx).

Lemma from_replay_item it t :
  saw t (ID it) it → honest_from t (replay_item (H:=relay_replayer E svc) E wk ctx it) (λ _ _, True).
Proof.
  intros Hsaw. unfold replay_item. cbn [relay relay_replayer]. eapply from_relay; [exact Hsaw|].
  intros t' [e|] Hr.
  - eapply honest_acts. unfold DlqWorker.metric, next_delay, randInt63n, now. acting.
  - eapply from_then; [by apply from_MarkDone, Hr|]. intros t2 r _.
    eapply honest_acts. unfold DlqWorker.metric. acting.
Qed.
Lemma from_replay_items its t :
  (∀ it, it ∈ its → saw t (ID it) it) →
  honest_from t (replay_items (H:=relay_replayer E svc) E wk ctx its) (λ _ _, True).
Proof.
  revert t. induction its as [|it its IH]; intros t Hits; cbn [replay_items]; [done|].
  apply (from_next _ _ its); [apply from_replay_item, Hits; by left|intros j Hj; apply Hits; by right|].
  intros t' _. apply IH.
Qed.

Lemma from_PickDue limit now t :
  honest_from t (store_PickDue E limit now)
    (λ t' r, match r with Ok its => ∀ it, it ∈ its → saw t' (ID it) it | Err _ => True end).
Proof.
  apply from_ask. intros e io. apply from_with_store. intros w Hwf w'. unfold w'.
  destruct (PickDue (H:=runtime E) io (store w) limit now) as [r s'] eqn:Ep. cbn [fst snd]. split.
  - apply (action_honest _ _ None); [done|].
    replace s' with (run_op (runtime E) now io (store w) (OpPickDue limit)) by (cbn; by rewrite Ep).
    by apply act_store.
  - destruct r as [its|err]; [|done]. destruct (PickDue_out (H:=runtime E) _ _ _ _ _ _ Hwf Ep) as (_ & Hits & _).
    intros it Hit. exists (w, set_store s' w). split; [set_solver|]. right. by apply Hits.
Qed.

Lemma honest_runOnce : honest (runOnce (H:=relay_replayer E svc) E wk ctx).
Proof.
  unfold runOnce. apply honest_bind; [by apply honest_acts, acts_ask|]. intros now t.
  eapply from_then; [apply from_PickDue|]. intros t1 r Hr.
  eapply (from_then _ _ _ (λ _ _, True)).
  - destruct r as [its|e]; [by apply from_replay_items|done].
  - intros t2 [] _. apply honest_acts. acting.
Qed.
Lemma honest_Run n : honest (Run (H:=relay_replayer E svc) E wk ctx n).
Proof.
  induction n as [|n IH]; cbn [Run]; [by apply honest_acts, acts_ret|].
  apply honest_bind; [apply honest_runOnce|]. intros _. exact IH.
Qed.
End worker.

Section bot.
Context (bot : Bot) (ctx : Ctx).

Lemma from_Get id t :
  honest_from t (gets (λ w, Get (store w) id))
    (λ t' r, match r with Some it => saw t' (ID it) it | None => True end).
Proof.
  intros w Hwf. split; [by apply honest_same|]. cbn. destruct (Get (store w) id) as [it|] eqn:Eg; [|done].
  pose proof (Hwf _ _ Eg) as Hid. exists (w, w). split; [set_solver|]. left. by rewrite Hid.
Qed.
Lemma honest_Replay a id : honest (Replay (H:=relay_replayer E svc) E a ctx id).
Proof.
  intros t. unfold Replay. cbv zeta. case_decide; [done|].
  eapply from_then; [apply from_Get|]. intros t1 [it|] Hsaw; [|done]. cbn [relay relay_replayer].
  eapply from_relay; [exact Hsaw|]. intros t2 [e|] Hr.
  - apply honest_acts. unfold now. acting.
  - eapply from_then; [by apply from_MarkDone, Hr|]. intros t3 [e|] _; done.
Qed.
Lemma honest_replay_selected a l ok fail : honest (replay_selected (H:=relay_replayer E svc) E a ctx l ok fail).
Proof.
  revert ok fail. induction l as [|it l IH]; intros ok fail; cbn [replay_selected]; [by intros t|].
  apply honest_bind; [apply honest_Replay|]. intros r. by destruct (has_prefix _ _).
Qed.
Lemma honest_run_action a x : honest (run_action (H:=relay_replayer E svc) E ctx a x).
Proof.
  destruct x as [id|limit mode]; cbn [run_action]; [apply honest_Replay|].
  unfold ReplayBatch. destruct (limit <=? 0); [by intros t|].
  destruct (parseReplayBatchMode mode) as [want|e]; [|by intros t].
  apply honest_bind; [apply honest_acts; acting|]. intros its. cbv zeta.
  case_decide; [by intros t|].
  apply honest_bind; [apply honest_replay_selected|]. by intros c t.
Qed.

(** Only [/confirm] can mark. *)
Lemma honest_admin_command chatID command parts :
  (∀ a, dlqAdmin bot = Some a → dlq_active svc (admin_ctx a ctx) = false) →
  honest (admin_command (H:=relay_replayer E svc) E bot ctx chatID command parts).
Proof.
  intros Hbot. destruct (decide (command = "/confirm")) as [->|Hc].
  2: { apply honest_acts, acts_admin_command; [done..|by right]. }
  unfold admin_command. cbv zeta.
  repeat match goal with |- context [decide ("/confirm" = ?s)] =>
    first [rewrite (decide_False (P := ("/confirm" : bytes) = s)) by done
          |rewrite (decide_True (P := ("/confirm" : bytes) = s)) by done] end.
  apply honest_fmap. destruct parts as [|? [|token [|? ?]]]; try by intros t.
  apply honest_bind; [apply honest_acts; unfold confirm_take, now; acting|].
  intros [x|]; [|by intros t]. destruct (dlqAdmin bot); [apply honest_run_action|by intros t].
Qed.

Context (Hbot : ∀ a, dlqAdmin bot = Some a → dlq_active svc (admin_ctx a ctx) = false).
Lemma honest_handleBotUpdate u : honest (handleBotUpdate (H:=relay_replayer E svc) E bot ctx u).
Proof using Hbot.
  destruct u as [[m|]|]; cbn [handleBotUpdate handleMessageCreatedUpdate]; try by intros t.
  destruct (from_bot bot m); [by intros t|]. cbv zeta. destruct (ChatId m =? 0); [by intros t|].
  apply honest_bind; [|intros r; apply honest_acts; unfold SendText; acting].
  destruct (replyForMessageText _ _ _ _ _ _); [by intros t|].
  unfold maybeHandleAdminAliasCommandWithDLQ. destruct (adminChatID bot =? 0); [by intros t|].
  destruct (_ || _); [by intros t|]. destruct (fields _) as [|p0 parts]; [by intros t|]. by apply honest_admin_command.
Qed.
Lemma honest_bot_loop us : honest (bot_loop (H:=relay_replayer E svc) E bot ctx us).
Proof using Hbot.
  induction us as [|u us IH]; cbn [bot_loop]; [by intros t|]. apply honest_bind; [apply honest_handleBotUpdate|].
  intros _. exact IH.
Qed.
End bot.
End delivery.

(** Every goroutine of the program. *)
Lemma program_thread_honest cfg EmailParse E build m :
  program_thread cfg EmailParse E build m → honest E (relaySvc cfg EmailParse) m.
Proof.
  destruct 1.
  - apply honest_acts. acting.
  - apply honest_Run.
  - apply honest_bot_loop. intros a. cbn. destruct (DLQEnabled cfg); [|done]. intros [= <-].
    apply (admin_replays E cfg EmailParse).
  - apply honest_acts. acting.
Qed.

(** ** The runs *)
Section runs.
Context (E : Env) (svc : Service).

(** What a goroutine sends in a run is answered by the sender. *)
Lemma log_answered g ds i : certified E g ds → Forall (answered E) (sends (events_of i g)).
Proof.
  intros Hc. apply Forall_forall. intros x (e & Hx & He)%list_elem_of_bind. apply elem_of_events_of in He.
  apply list_elem_of_lookup_1 in He as [j Hj]. destruct (Forall2_lookup_l _ _ _ _ _ Hc Hj) as (d & _ & Ha).
  apply action_sends in Ha as (log & Hs & Hf). unfold event_sends in Hx. cbn [snd] in Hs. rewrite Hs, drop_app_length in Hx.
  rewrite Forall_forall in Hf. by apply Hf.
Qed.

(** In the run [g] from [w0], the item [it] was done at the start or some goroutine
    relayed its message. *)
Definition accounted (w0 : World) (g : log) (id : bytes) (it : Item) : Prop :=
  (∃ it0, items (store w0) !! id = Some it0 ∧ status it0 = StatusDone ∧ same_message it0 it) ∨
  ∃ i g1 g2 g3, g = g1 ++ g2 ++ g3 ∧
    relayed E svc (events_of i g2) (DlqStore.Recipient it) (RawMessage it).

Lemma accounted_app w0 g e id it it' :
  accounted w0 g id it → same_message it it' → accounted w0 (g ++ [e]) id it'.
Proof.
  intros [(it0 & Hi & Hs & Hm)|(i & g1 & g2 & g3 & -> & Hr)] Hm'.
  - left. exists it0. split_and!; [done|done|by etrans].
  - right. exists i, g1, g2, (g3 ++ [e]). destruct Hm' as (_ & _ & -> & -> & _). by rewrite <- !app_assoc.
Qed.

(** What a goroutine saw at [g1] is in the queue ever after, with its message. *)
Lemma saw_kept w0 g1 g2 g3 ds i id it :
  chained w0 (g1 ++ g2 ++ g3) → certified E (g1 ++ g2 ++ g3) ds → store_wf (store w0) → ids_fresh w0 ds →
  saw (events_of i g1) id it →
  ∃ it', items (store (world_after w0 (g1 ++ g2))) !! id = Some it' ∧ same_message it it'.
Proof.
  intros Hch Hc Hwf Hfr ([w1 w2] & He & Hi). apply elem_of_events_of in He.
  apply list_elem_of_split in He as (k1 & k2 & ->). rewrite <- app_assoc in *. cbn [app] in *.
  assert (w1 = world_after w0 k1) as Hw1 by (apply chained_app in Hch as [_ [-> _]]; done).
  assert (w2 = world_after w0 (k1 ++ [(i, (w1, w2))])) as Hw2 by by rewrite world_after_app.
  cbn [fst snd] in Hi. destruct Hi as [Hi|Hi].
  - rewrite Hw1 in Hi. destruct (log_keeps E w0 k1 ((i, (w1, w2)) :: k2 ++ g2) g3 ds id it) as (it' & H); try done.
    1,2: by rewrite <- ?app_comm_cons, <- ?app_assoc. by exists it'.
  - rewrite Hw2 in Hi. destruct (log_keeps E w0 (k1 ++ [(i, (w1, w2))]) (k2 ++ g2) g3 ds id it) as (it' & H); try done.
    1,2: by rewrite <- !app_assoc. exists it'. by rewrite <- app_assoc in H.
Qed.

Lemma honest_run_accounted w0 g ds :
  chained w0 g → certified E g ds → store_wf (store w0) → ids_fresh w0 ds →
  (∀ g1 i e g2, g = g1 ++ (i, e) :: g2 → honest_action E svc (events_of i g1) e.1 e.2) →
  ∀ ga gb, g = ga ++ gb →
  ∀ id it, items (store (world_after w0 ga)) !! id = Some it → status it = StatusDone → accounted w0 ga id it.
Proof.
  intros Hch Hc Hwf Hfr Hh. induction ga as [|[i [w1 w2]] ga IH] using rev_ind; intros gb Hg id it Hi Hs.
  { left. exists it. by split_and!. }
  rewrite <- app_assoc in Hg. cbn [app] in Hg.
  subst g.
  assert (w1 = world_after w0 ga) as Hw1 by (apply chained_app in Hch as [_ [-> _]]; done).
  pose proof (Hh ga i (w1, w2) gb eq_refl) as [_ Hdone]. cbn [fst snd] in Hdone.
  rewrite world_after_app in Hi. change (world_after _ [_]) with w2 in Hi.
  destruct (Hdone id it Hi Hs) as [(it1 & Hi1 & Hs1)|(t1 & t2 & t3 & it1 & Ht & Hsaw & Hrel)].
  - rewrite Hw1 in Hi1. destruct (log_keeps E w0 ga [(i, (w1, w2))] gb ds id it1) as (it' & Hi' & Hm); [done..|].
    rewrite world_after_app in Hi'. change (world_after _ [_]) with w2 in Hi'. rewrite Hi in Hi'. injection Hi' as <-.
    eapply accounted_app; [by eapply IH|exact Hm].
  - apply events_of_split in Ht as (h1 & h' & -> & <- & Ht). apply events_of_split in Ht as (h2 & h3 & -> & <- & <-).
    destruct (saw_kept w0 h1 ((h2 ++ h3) ++ [(i, (w1, w2))]) gb ds i id it1) as (it' & Hi' & Hm); try done.
    1,2: rewrite <- !app_assoc in *; done.
    rewrite app_assoc, world_after_app in Hi'. change (world_after _ [_]) with w2 in Hi'. rewrite Hi in Hi'. injection Hi' as <-.
    right. exists i, h1, h2, (h3 ++ [(i, (w1, w2))]). destruct Hm as (_ & _ & -> & -> & _). by rewrite <- !app_assoc.
Qed.
End runs.

(** * Properties *)

(** C3. Done means delivered: whatever the sessions, the worker and the
    administrator do, and however their actions interleave, an item of the queue
    that is marked as done was so from the start, or some goroutine has relayed its
    message since: between two moments of the run every piece of it that the
    goroutine sent was accepted by MAX, in order, for exactly the targets that the
    alias table, which the goroutine read meanwhile, gave to the item's address.  (Every
    outcome is one the sender gave; what its success means at the server is
    [Sending.success_means_posted].) *)
Theorem done_means_delivered cfg EmailParse E build w0 g ds :
  store_wf (store w0) → pool_run (program_thread cfg EmailParse E build) w0 [] g →
  certified E g ds → ids_fresh w0 ds →
  ∀ id it, items (store (world_after w0 g)) !! id = Some it → status it = StatusDone →
  (∃ it0, items (store w0) !! id = Some it0 ∧ status it0 = StatusDone ∧ same_message it0 it) ∨
  ∃ i g1 g2 g3, g = g1 ++ g2 ++ g3 ∧
    relayed E (relaySvc cfg EmailParse) (events_of i g2) (DlqStore.Recipient it) (RawMessage it) ∧
    Forall (answered E) (sends (events_of i g2)).
Proof.
  intros Hwf Hrun Hc Hfr id it Hi Hs. cut (accounted E (relaySvc cfg EmailParse) w0 g id it).
  { intros [H0|(i & g1 & g2 & g3 & -> & Hr)]; [by left|right]. exists i, g1, g2, g3. split_and!; [done|done|].
    apply Forall2_app_inv_l in Hc as (ds1 & ds' & _ & Hc & _). apply Forall2_app_inv_l in Hc as (ds2 & _ & Hc & _).
    by eapply log_answered. }
  revert id it Hi Hs. intros id it.
  apply (honest_run_accounted E (relaySvc cfg EmailParse) w0 g ds) with (gb := []);
    [by eapply pool_chained|done..| |by rewrite app_nil_r].
  intros g1 i e g2 Hg.
  eapply (pool_guarantee (λ w, store_wf (store w)) (honest_action E (relaySvc cfg EmailParse)));
    [by intros t w w' _ []|exact Hrun|done| |exact Hg].
  intros m Hm. by eapply program_thread_honest.
Qed.

(** The run of [System], carried on until the worker has delivered the message. *)
Definition delivered_log : log := pool_exec ([0; 1] ++ replicate 60 0)%nat start_world example_threads.

Lemma done_means_delivered_witness : ∃ i g1 g2 g3, delivered_log = g1 ++ g2 ++ g3 ∧
  relayed wit_env (relaySvc example_config demo_email) (events_of i g2) "chatid1@relay.local" "mail" ∧
  Forall (answered wit_env) (sends (events_of i g2)).
Proof.
  assert (∃ it, items (store (world_after start_world delivered_log)) !! queued_id = Some it ∧
    status it = StatusDone ∧ DlqStore.Recipient it = "chatid1@relay.local" ∧ RawMessage it = "mail")
    as (it & Hi & Hs & Hrc & Hraw).
  { eexists. split_and!; vm_compute; reflexivity. }
  destruct (done_means_delivered example_config demo_email wit_env default_build start_world delivered_log
    (replicate (length delivered_log) None)) with queued_id it as [(it0 & Hi0 & Hs0 & _)|Hd].
  - apply (map_Forall_singleton (λ id it, ID it = id)). reflexivity.
  - apply example_run.
  - apply example_certified.
  - apply fresh_none.
  - exact Hi.
  - exact Hs.
  - exfalso. cbn in Hi0. rewrite lookup_singleton_eq in Hi0. injection Hi0 as <-. discriminate Hs0.
  - rewrite Hrc, Hraw in Hd. exact Hd.
Defined.
