(* ===== verification/Acceptance.v ===== *)
(** * What the reply to DATA promises

    [Smtp] says what a session answers when nothing else runs.  Here the worker, the
    bot and the other sessions act between any two of its actions, so the alias table
    and the queue may be different at each: an accepted message has been relayed to
    every recipient, and a refused one has been relayed to those before the recipient
    that failed, for whom it was put in the queue or could not be parsed. *)
From S2P Require Import Prelude GoStrings GoRuntime GoJson Recipient DlqStore Metrics Email RateLimiter Trace.
From S2P Require Import Confirm World Threads Relay Smtp Config Main System Delivery.

Open Scope Z_scope.
Open Scope go_scope.

Section acceptance.
Context (E : Env) (svc : Service).

(** An event of [t] left the message in the queue, still to be delivered. *)
Definition in_queue (t : list event) (rcpt raw : bytes) : Prop :=
  ∃ e, e ∈ t ∧ live_ids (payloadFingerprint rcpt raw) (store e.2) ≠ ∅.
(** Recipient and message did not both parse, with the alias table of an event of [t]. *)
Definition refused (t : list event) (rcpt raw : bytes) : Prop :=
  ∃ e, e ∈ t ∧ ¬ deliverable E svc (recipients e.1) raw rcpt.

(** The recipients are served in order up to the first failure. *)
Inductive settled (raw : bytes) : list bytes → list event → bool → Prop :=
  | settled_all : settled raw [] [] true
  | settled_stop r later t : in_queue t r raw ∨ refused t r raw → settled raw (r :: later) t false
  | settled_next r later t1 t2 ok :
      relayed E svc t1 r raw → settled raw later t2 ok → settled raw (r :: later) (t1 ++ t2) ok.

(** ** A failure to send is in_queue *)
Section keeps.
Context (rcpt raw : bytes).

Definition keeps (m : M (option bytes)) : Prop := post m (λ t r, r = None ∨ in_queue t rcpt raw).

Lemma in_queue_app t1 t2 : in_queue t1 rcpt raw ∨ in_queue t2 rcpt raw → in_queue (t1 ++ t2) rcpt raw.
Proof. intros [(e & He & H)|(e & He & H)]; exists e; (split; [set_solver|done]). Qed.

Lemma keeps_ret : keeps (mret None).
Proof. apply post_ret. by left. Qed.
Lemma keeps_bind {A} (q : M A) k : (∀ a, keeps (k a)) → keeps (q ≫= k).
Proof.
  intros Hk. apply (post_bind _ _ (λ _ _, True)); [done|]. intros t1 a _. apply (post_mono _ _ _ (Hk a)).
  intros t2 r [?|?]; [by left|right]. apply in_queue_app. by right.
Qed.
Lemma keeps_then m k :
  keeps m → keeps k → keeps (r ← m; match r with Some e => mret (Some e) | None => k end).
Proof.
  intros Hm Hk. apply (post_bind _ _ _ _ Hm). intros t1 [e|] H1.
  - apply post_ret. destruct H1 as [?|H1]; [done|right]. apply in_queue_app. by left.
  - apply (post_mono _ _ _ Hk). intros t2 r [?|?]; [by left|right]. apply in_queue_app. by right.
Qed.

(** [Enqueue] leaves a live item of the message, whatever the store was. *)
Lemma Enqueue_queues t io s rnd e :
  live_ids (payloadFingerprint rcpt raw) (Enqueue (H:=runtime E) t rnd io s rcpt raw e).2 ≠ ∅.
Proof.
  assert (∃ it, live it = true ∧ Fingerprint it = payloadFingerprint rcpt raw ∧
    items (Enqueue (H:=runtime E) t rnd io s rcpt raw e).2 !! ID it = Some it) as (it & Hl & Hf & Hi).
  { destruct (Enqueue_cases (H:=runtime E) t rnd io s rcpt raw e) as [(k & it & _ & Hl & Hf & ->)|[_ ->]];
      cbv zeta; match goal with |- context [persist_and_return ?io ?x ?y] =>
        exists y; destruct (persist_and_return_items (H:=runtime E) io x y) as [-> _] end.
    - destruct (with_last_error_same e it) as ((_ & Hf' & _) & Hst & _). split_and!; [|cbn; congruence|apply lookup_insert_eq].
      apply live_spec. cbn. rewrite Hst. by apply live_spec.
    - destruct (fresh_item_spec t rnd rcpt raw e) as (_ & Hf & Hl & _). split_and!; [done..|apply lookup_insert_eq]. }
  intros Hemp. assert (ID it ∈ live_ids (payloadFingerprint rcpt raw) (Enqueue (H:=runtime E) t rnd io s rcpt raw e).2) as Hin;
    [apply elem_of_live_ids; by exists it|by rewrite Hemp in Hin].
Qed.
Lemma queues_Enqueue e : post (store_Enqueue E rcpt raw e) (λ t _, in_queue t rcpt raw).
Proof.
  unfold store_Enqueue. do 3 (apply (post_bind _ _ (λ _ _, True)); [done|]; intros ? ? _).
  apply post_act. intros w. apply in_queue_app. right. apply in_queue_app. right. apply in_queue_app. right.
  eexists. split; [by left|]. rewrite (surjective_pairing (Enqueue _ _ _ _ _ _ _)). apply Enqueue_queues.
Qed.

Context (ctx : Ctx) (Hdlq : dlq_active svc ctx = true).
Lemma queues_send_failed chat label what err :
  post (send_failed E svc ctx rcpt raw chat label what err) (λ t _, in_queue t rcpt raw).
Proof using Hdlq.
  unfold send_failed. fold (dlq_active svc ctx). rewrite Hdlq.
  do 2 (apply (post_bind _ _ (λ _ _, True)); [done|]; intros ? ? _).
  apply (post_bind _ _ _ _ (queues_Enqueue _)). intros t3 q Hq t4 r _.
  apply in_queue_app. right. apply in_queue_app. right. apply in_queue_app. by left.
Qed.

Lemma keeps_piece label what t p : keeps (send_piece E svc ctx rcpt raw label what t p).
Proof using Hdlq.
  unfold send_piece. do 3 (apply keeps_bind; intros ?). destruct a0 as [e|]; [|apply keeps_ret].
  apply (post_bind _ _ _ _ (queues_send_failed _ _ _ _)). intros t1 r H1. apply post_ret. right.
  apply in_queue_app. by left.
Qed.
Lemma keeps_chunks label t chunks : keeps (send_chunks E svc ctx rcpt raw label t chunks).
Proof using Hdlq.
  induction chunks as [|c chunks IH]; cbn [send_chunks]; [apply keeps_ret|].
  apply keeps_then; [apply keeps_piece|exact IH].
Qed.
Lemma keeps_files label t atts : keeps (send_files E svc ctx rcpt raw label t atts).
Proof using Hdlq.
  induction atts as [|a atts IH]; cbn [send_files]; [apply keeps_ret|].
  apply keeps_then; [apply keeps_piece|]. by apply keeps_bind.
Qed.
Lemma keeps_targets label text atts targets : keeps (deliver E svc ctx rcpt raw label text atts targets).
Proof using Hdlq.
  induction targets as [|t targets IH]; cbn [deliver]; [apply keeps_ret|].
  apply keeps_then; [apply keeps_chunks|]. apply keeps_bind. intros _.
  apply keeps_then; [apply keeps_files|]. do 2 (apply keeps_bind; intros _). exact IH.
Qed.
End keeps.

(** ** A relay, and the relays of a session *)
Section relay.
Definition accounted (rcpt raw : bytes) (t : list event) (r : option bytes) : Prop :=
  match r with None => relayed E svc t rcpt raw | Some _ => in_queue t rcpt raw ∨ refused t rcpt raw end.

Lemma refused_app t1 t2 r raw : refused t1 r raw ∨ refused t2 r raw → refused (t1 ++ t2) r raw.
Proof. intros [(e & He & H)|(e & He & H)]; exists e; (split; [set_solver|done]). Qed.

Context (ctx : Ctx) (Hdlq : dlq_active svc ctx = true).
Lemma relay_body_stops rcpt raw :
  post (relay_body E svc ctx rcpt raw) (λ t r, r = None ∨ in_queue t rcpt raw ∨ refused t rcpt raw).
Proof using Hdlq.
  unfold relay_body. apply (post_bind _ _ (λ _ _, True)); [done|]. intros t1 [] _.
  apply (post_bind _ _ (λ t p, ∃ w, t = [(w, w)] ∧ p = recipients w)); [apply post_act; intros w; by exists w|].
  intros ? p (w & -> & ->).
  assert (¬ deliverable E svc (recipients w) raw rcpt → ∀ t2, refused (t1 ++ [(w, w)] ++ t2) rcpt raw) as Href.
  { intros Hd t2. apply refused_app. right. exists (w, w). split; [set_solver|exact Hd]. }
  unfold deliverable in Href.
  destruct (Recipient.Parse _ _) as [pr|e] eqn:Hp; [destruct (EmailParse svc raw) as [em|e] eqn:Hm|].
  - assert (keeps rcpt raw (parseStartedAt ← now E; _ ← observe_latency E svc "email_parse" parseStartedAt;
      deliver E svc ctx rcpt raw (SourceLocal pr) (message_text em) (Attachments em) (Targets pr))) as Hk.
    { do 2 (apply keeps_bind; intros ?). by apply keeps_targets. }
    apply (post_mono _ _ _ Hk). intros t r [?|?]; [by left|right; left]. do 2 (apply in_queue_app; right). done.
  - intros t r _. right; right. apply Href. rewrite ?Hp, ?Hm. by intros [? ?].
  - intros t r _. right; right. apply Href. rewrite ?Hp, ?Hm. by intros [? ?].
Qed.

Lemma Relay_accounted rcpt raw : post (Relay E svc ctx rcpt raw) (accounted rcpt raw).
Proof using Hdlq.
  intros t r Ht. pose proof (Relay_trace E svc ctx rcpt raw t r Ht) as Hok. destruct r as [e|]; [|by apply Hok].
  clear Hok. revert Ht. cut (post (Relay E svc ctx rcpt raw)
    (λ t r, r = None ∨ in_queue t rcpt raw ∨ refused t rcpt raw)).
  { intros H Ht. destruct (H _ _ Ht) as [?|?]; done. }
  unfold Relay. apply (post_bind _ _ (λ _ _, True)); [done|]. intros t1 t0 _.
  apply (post_bind _ _ _ _ (relay_body_stops rcpt raw)). intros t2 r2 H2.
  apply (post_bind _ _ (λ _ _, True)); [done|]. intros t3 [] _. apply post_ret.
  destruct H2 as [?|[?|?]]; [by left|right; left|right; right].
  - apply in_queue_app. right. apply in_queue_app. by left.
  - apply refused_app. right. apply refused_app. by left.
Qed.

Lemma relay_all_settled raw rs : post (relay_all E svc ctx raw rs) (settled raw rs).
Proof using Hdlq.
  induction rs as [|rcpt rs IH]; cbn [relay_all]; [apply post_ret; constructor|].
  apply (post_bind _ _ _ _ (Relay_accounted rcpt raw)). intros t1 [e|] H1.
  - apply post_ret. constructor. by rewrite app_nil_r.
  - apply (post_mono _ _ _ IH). intros t2 ok H2. by apply settled_next.
Qed.
End relay.
End acceptance.

(** C6. What the reply to DATA promises, whatever the other goroutines do in the
    meantime.  With the queue enabled, after [250 OK] every piece of the message
    was accepted by MAX for every recipient of the session, in order; after
    [451] that is true of the recipients before one for whom the message was put
    in the queue, or could not be parsed; after [552] nothing was done. *)
Theorem data_settled E svc srv ctx s line input t st :
  to_upper (H:=tables E) (trim_space line) = "DATA" → rcpts s ≠ [] → dlq_active svc ctx = true →
  traces (handle_command E svc srv ctx s line input) t st →
  session st = s ∧ rest st = (readData (maxBytes srv) [] input).2 ∧
  match (readData (maxBytes srv) [] input).1 with
  | Err _ => replies st = ["354 End data with <CR><LF>.<CR><LF>"; "552 message exceeds fixed maximum message size"] ∧ t = []
  | Ok raw => ∃ ok : bool, settled E svc raw (rcpts s) t ok ∧
      replies st = ["354 End data with <CR><LF>.<CR><LF>"; if ok then "250 OK" else "451 relay failure"]
  end.
Proof.
  intros Hc Hne Hd. unfold handle_command. cbv zeta. rewrite Hc.
  repeat match goal with |- context [has_prefix "DATA" ?p] =>
    change (has_prefix "DATA" p) with false; cbv iota end.
  rewrite (decide_True (P:="DATA" = "DATA")), decide_False by done.
  destruct (readData (maxBytes srv) [] input) as [[raw|e] tail]; cbn [fst snd].
  - intros (t1 & t2 & ok & -> & H1%(relay_all_settled E svc ctx Hd raw) & [-> ->])%traces_bind.
    rewrite app_nil_r. split_and!; [done..|]. by exists ok.
  - intros [-> ->]. done.
Qed.

(** Chat 2 is down: the session is told [451], and the message has been relayed
    to the first recipient and is in the queue for the second. *)
Lemma data_settled_witness :
  let two := ["chatid1@relay.local"; "chatid2@relay.local"] : list bytes in
  ∃ t, traces (handle_command (demo_env chat2_down) demo_service demo_server Background
      (mkSession two false) (line_of "data") [Line (line_of "hello"); Line (line_of ".")]) t
      (mkStep ["354 End data with <CR><LF>.<CR><LF>"; "451 relay failure"] (mkSession two false) [] true) ∧
    settled (demo_env chat2_down) demo_service ("hello" ++ crlf) two t false.
Proof.
  intros two.
  destruct (exec_traces (handle_command (demo_env chat2_down) demo_service demo_server Background
    (mkSession two false) (line_of "data") [Line (line_of "hello"); Line (line_of ".")]) demo_world) as [t Ht].
  match type of Ht with traces _ _ ?st =>
    assert (st = mkStep ["354 End data with <CR><LF>.<CR><LF>"; "451 relay failure"] (mkSession two false) [] true) as Est
      by (vm_compute; reflexivity) end.
  rewrite Est in Ht. exists t. split; [exact Ht|].
  pose proof (data_settled (demo_env chat2_down) demo_service demo_server Background (mkSession two false)
    (line_of "data") [Line (line_of "hello"); Line (line_of ".")] t
    (mkStep ["354 End data with <CR><LF>.<CR><LF>"; "451 relay failure"] (mkSession two false) [] true)) as H.
  destruct H as (_ & _ & H).
  - vm_compute. reflexivity.
  - discriminate.
  - reflexivity.
  - exact Ht.
  - change (readData _ _ _) with (Ok ("hello" ++ crlf) : res bytes, [] : list line_read) in H.
    cbn [fst] in H. destruct H as ([|] & H & Hr); [exfalso; clear -Hr; revert Hr; vm_compute; discriminate|exact H].
Defined.
