(* ===== verification/Drain.v ===== *)
(** * The queue drains

    While MAX accepts what is sent and the queue file can be written, the worker
    empties the queue: after enough rounds every item that was pending is done. *)
From S2P Require Import Prelude GoStrings GoRuntime GoJson Recipient DlqStore Metrics Email RateLimiter Trace.
From S2P Require Import Confirm World Threads Relay Backoff DlqWorker DlqAdmin Smtp Version BotHelp BotSender Bot.
From S2P Require Import Config Main System.

Open Scope Z_scope.
Open Scope go_scope.

(** ** What is sent is answered by the sender *)
Lemma exec_sends {A} E P (m : M A) w :
  acts E P m → ∃ log, sent (m w).2 = sent w ++ log ∧ Forall (answered E) log.
Proof.
  intros Hm. apply (exec_always _ (λ w w', ∃ log, sent w' = sent w ++ log ∧ Forall (answered E) log) _ w) in Hm;
    [done| | |].
  - intros x. exists []. by rewrite app_nil_r.
  - intros x y z (l1 & H1 & F1) (l2 & H2 & F2). exists (l1 ++ l2). rewrite H2, H1, <- app_assoc.
    split; [done|by apply Forall_app].
  - intros x y [d Ha]. by eapply action_sends.
Qed.

(** ** A relay succeeds while MAX accepts everything *)
Lemma Relay_succeeds E svc ctx rcpt raw w :
  (∀ n x, send_result E n x = None) → deliverable E svc (recipients w) raw rcpt →
  (Relay E svc ctx rcpt raw w).1 = None.
Proof.
  intros Hsend [Hp He]. destruct (Relay_effect E svc ctx rcpt raw w) as (log & Hs & _ & H).
  destruct (exec_sends E every_power (Relay E svc ctx rcpt raw) w) as (log' & Hs' & Hf); [apply acts_Relay; by left|].
  rewrite Hs in Hs'. apply app_inv_head in Hs' as <-.
  clear Hs. revert H Hf. unfold relay_effect. destruct (Recipient.Parse _ _) as [pr|]; [|done].
  destruct (EmailParse svc raw) as [em|]; [|done].
  intros [|before x rest l1 l2 e msg s' _ _ Ht _] Hf; [done|]. exfalso.
  inversion Ht as [|fails e' Hl]; subst. destruct fails as [|e0 fails]; [simpl in Hl; lia|].
  apply Forall_app in Hf as [_ Hf]. apply Forall_cons in Hf as [[n Hn] _]. by rewrite Hsend in Hn.
Qed.

(** ** Persisting succeeds *)
Definition times_ok (s : FileStore) : Prop := map_Forall (λ _ it, item_times_ok it = true) (items s).

Lemma persist_succeeds `{GoRuntime} {A} s (a : A) : times_ok s → (persist_and_return PersistOk s a).1 = Ok a.
Proof.
  intros Ht. unfold persist_and_return, persistLocked, marshal_items.
  match goal with |- context [forallb ?f ?l] => assert (forallb f l = true) as ->; [|done] end.
  apply forallb_forall. intros it Hit%list_elem_of_In. apply elem_of_sort_slice, list_elem_of_fmap in Hit as ([id x] & -> & Hx).
  apply elem_of_map_range in Hx. by apply Ht in Hx.
Qed.

Lemma PickDue_succeeds `{GoRuntime} s limit now :
  times_ok (PickDue PersistOk s limit now).2 → ∃ out, (PickDue PersistOk s limit now).1 = Ok out.
Proof.
  rewrite PickDue_eq. destruct (pick_items _ _ _) as [out s']. case_decide; [by eexists|].
  intros Ht. exists out. apply persist_succeeds. intros id it Hi. apply (Ht id).
  by destruct (persist_and_return_items PersistOk s' out) as [-> _].
Qed.

(** A due item is left for later only if the batch is full. *)
Lemma PickDue_full `{GoRuntime} io s limit now out s' id it :
  store_wf s → PickDue io s limit now = (Ok out, s') →
  items s !! id = Some it → is_due now it = true → id ∉ ID <$> out → length out = effective_limit 10 limit.
Proof.
  intros Hwf E Hi Hd Hid. rewrite (PickDue_result_ids io s limit now out s' Hwf E) in Hid.
  rewrite (PickDue_result io s limit now out s' E), length_fmap.
  destruct (picked_mem s limit now id) as [?|Hdrop]; [apply elem_of_due_ids; by eauto|done|].
  change (picked_ids s limit now) with (take (effective_limit 10 limit)
    (sort_slice (λ i j, before (NextRetryAt (get_item s i)) (NextRetryAt (get_item s j))) (due_ids now s))).
  apply list_elem_of_lookup_1 in Hdrop as (k & Hk). rewrite lookup_drop in Hk. apply lookup_lt_Some in Hk.
  rewrite length_take. lia.
Qed.

(** ** Rounds of the worker *)

(** Between [w] and [w'] every piece of the item's message was accepted by MAX. *)
Definition sent_for (E : Env) (svc : Service) (p : parser) (w w' : World) (it : Item) : Prop := ∃ l1 log l2,
  sent w' = sent w ++ l1 ++ log ++ l2 ∧
  successes log = planned_for E svc p (RawMessage it) (DlqStore.Recipient it).

Lemma sent_for_extend E svc p w0 w w' w1 it :
  sent w0 `prefix_of` sent w → sent w' `prefix_of` sent w1 → sent_for E svc p w w' it → sent_for E svc p w0 w1 it.
Proof.
  intros [k1 H0] [k2 H1] (l1 & log & l2 & Hs & Hd). exists (k1 ++ l1), log, (l2 ++ k2).
  rewrite H1, Hs, H0, <- !app_assoc. by split.
Qed.
Lemma sent_for_same E svc p w w' it it' : same_message it it' → sent_for E svc p w w' it' → sent_for E svc p w w' it.
Proof. intros (_ & _ & Hr & Hm & _) (l1 & log & l2 & Hs & Hd). exists l1, log, l2. by rewrite <- Hr, <- Hm. Qed.

Definition outstanding (s : FileStore) : gset bytes :=
  dom (filter (λ kv : bytes * Item, status kv.2 ≠ StatusDone) (items s)).

Lemma elem_of_outstanding s id :
  id ∈ outstanding s ↔ ∃ it, items s !! id = Some it ∧ status it ≠ StatusDone.
Proof.
  unfold outstanding. rewrite elem_of_dom. split.
  - intros [it [Hi Hs]%map_lookup_filter_Some]. by exists it.
  - intros (it & Hi & Hs). exists it. by apply map_lookup_filter_Some.
Qed.

(** Every item that is not done is pending, due, and can be relayed. *)
Record drainable (E : Env) (svc : Service) (w : World) : Prop := {
  d_wf : store_wf (store w);
  d_times : times_ok (store w);
  d_items id it :
    items (store w) !! id = Some it → status it ≠ StatusDone →
    status it = StatusPending ∧ (∀ n, NextRetryAt it ≤ clock E n) ∧
    deliverable E svc (recipients w) (RawMessage it) (DlqStore.Recipient it);
}.

Section drain.
Context (E : Env) (svc : Service) (wk : Worker) (ctx : Ctx).
Context (Hreplay : dlq_active svc (replay_ctx wk ctx) = false).
Context (Hsend : ∀ n x, send_result E n x = None).
Context (Hio : ∀ n, store_io E n = PersistOk).
Context (Hclock : ∀ n, json_time_ok (clock E n) = true).
#[local] Existing Instance relay_replayer.

Definition done_at (n : nat) (it : Item) : Item := with_updated (clock E n) (with_status StatusDone it).

Lemma exec_prefix {A} (m : M A) w : acts E (may WorkerRole) m → sent w `prefix_of` sent (m w).2.
Proof using Type. intros (log & -> & _)%(exec_sends _ _ _ w). by eexists. Qed.

Lemma replay_item_done it w :
  items (store w) !! ID it = Some it →
  deliverable E svc (recipients w) (RawMessage it) (DlqStore.Recipient it) →
  let w' := (replay_item (H:=relay_replayer E svc) E wk ctx it w).2 in
  recipients w' = recipients w ∧ (∃ n, items (store w') = <[ID it := done_at n it]> (items (store w))) ∧
  sent_for E svc (recipients w) w w' it.
Proof using Hreplay Hsend.
  intros Hit Hdel w'. subst w'. unfold replay_item. cbn [relay relay_replayer].
  pose proof (Relay_succeeds E svc (replay_ctx wk ctx) (DlqStore.Recipient it) (RawMessage it) w Hsend Hdel) as Hr.
  destruct (Relay_successes E svc (replay_ctx wk ctx) (DlqStore.Recipient it) (RawMessage it) w)
    as (log & Hs & Hrec & Hok & _). destruct (Hok Hr) as (_ & Hst & Hsucc). clear Hok.
  rewrite exec_bind. destruct (Relay _ _ _ _ _ w) as [r w1]. cbn [fst snd] in *. subst r.
  rewrite <- Hst in Hit |- *. rewrite <- Hrec. rewrite exec_bind, exec_store_MarkDone. unfold MarkDone. rewrite Hit.
  match goal with |- context [persistLocked (H:=?rt) ?io ?s] =>
    pose proof (persistLocked_items (H:=rt) io s) as [Hi _]; destruct (persistLocked (H:=rt) io s) as [o s'] end.
  unfold metric. destruct (has_metrics wk); (split; [done|]; split; [exists (tick w1); exact Hi|]);
    exists [], log, []; rewrite Hrec; (split; [cbn; by rewrite Hs, app_nil_r|exact Hsucc]).
Qed.

Lemma replay_items_done its w :
  NoDup (ID <$> its) →
  (∀ it, it ∈ its → items (store w) !! ID it = Some it ∧
     deliverable E svc (recipients w) (RawMessage it) (DlqStore.Recipient it)) →
  let w' := (replay_items (H:=relay_replayer E svc) E wk ctx its w).2 in
  recipients w' = recipients w ∧
  (∀ it, it ∈ its → (∃ n, items (store w') !! ID it = Some (done_at n it)) ∧ sent_for E svc (recipients w) w w' it) ∧
  (∀ id, id ∉ ID <$> its → items (store w') !! id = items (store w) !! id).
Proof using Hreplay Hsend.
  revert w. induction its as [|it its IH]; intros w; cbn [replay_items].
  { intros _ _. split_and!; [done|by intros ? ?%elem_of_nil|done]. }
  cbn [fmap list_fmap]. intros [Hid Hnd]%NoDup_cons Hits. rewrite exec_bind.
  destruct (Hits it ltac:(left)) as [Hit Hdel].
  destruct (replay_item_done it w Hit Hdel) as (Hrec & (n & Hst) & Hsent).
  pose proof (exec_prefix (replay_item (H:=relay_replayer E svc) E wk ctx it) w) as Hpre.
  destruct (replay_item _ _ _ _ w) as [[] w1]. cbn [snd] in *.
  destruct (IH w1 Hnd) as (Hrec2 & Hdone & Hother).
  { intros j Hj. rewrite Hst, Hrec, lookup_insert_ne; [apply Hits; by right|].
    intros Eid. apply Hid. rewrite Eid. by apply list_elem_of_fmap_2. }
  pose proof (exec_prefix _ w1 (acts_replay_items E svc ctx wk Hreplay its)) as Hpre2.
  rewrite Hrec in Hdone. split_and!; [congruence| |].
  - intros j [->|Hj]%elem_of_cons.
    + split; [exists n; rewrite Hother by done; rewrite Hst; apply lookup_insert_eq|].
      by eapply sent_for_extend; [| |exact Hsent].
    + destruct (Hdone j Hj) as [Hn Hj']. split; [done|]. eapply sent_for_extend; [| |exact Hj']; [apply Hpre|done].
      unfold replay_item. cbn [relay relay_replayer]. unfold DlqWorker.metric, next_delay, randInt63n, now. acting.
  - intros id [Hne Hn]%not_elem_of_cons. rewrite Hother by done. rewrite Hst. by apply lookup_insert_ne.
Qed.

Lemma updated_times_ok it n st :
  item_times_ok it = true → item_times_ok (with_updated (clock E n) (with_status st it)) = true.
Proof using Hclock. unfold item_times_ok. cbn. rewrite Hclock. rewrite !andb_true_iff. tauto. Qed.

Definition batch : nat := effective_limit 10 (BatchSize wk).

(** What taking the due items gives. *)
Lemma take_due w t s1 r :
  drainable E svc w → t = clock E (tick w) →
  PickDue (H:=runtime E) PersistOk (store w) (BatchSize wk) t = (r, s1) →
  ∃ its, r = Ok its ∧ NoDup (ID <$> its) ∧
    (∀ it, it ∈ its → items s1 !! ID it = Some it ∧ ∃ it0, items (store w) !! ID it = Some it0 ∧
       is_due t it0 = true ∧ it = mark_processing t it0) ∧
    (∀ id, id ∉ ID <$> its → items s1 !! id = items (store w) !! id) ∧
    (length its = batch ∨ outstanding (store w) ⊆ list_to_set (ID <$> its)).
Proof using Hclock.
  intros [Hwf Ht Hit] -> Ep.
  destruct (PickDue_succeeds (H:=runtime E) (store w) (BatchSize wk) (clock E (tick w))) as [its Hok].
  { intros id it. rewrite PickDue_items. case_decide as Hp; [|apply Ht]. intros [= <-].
    apply picked_is_due in Hp as (x & Hx & _). unfold get_item. rewrite Hx. apply updated_times_ok.
    by apply Ht in Hx. }
  rewrite Ep in Hok. cbn in Hok. subst r. exists its. split; [done|].
  destruct (PickDue_out (H:=runtime E) _ _ _ _ _ _ Hwf Ep) as (Hnd & Hpick & Hsame). split_and!; try done.
  destruct (decide (length its = batch)) as [|Hlen]; [by left|right].
  intros id (it & Hi & Hs)%elem_of_outstanding. apply elem_of_list_to_set.
  destruct (decide (id ∈ ID <$> its)) as [|Hn]; [done|]. destruct Hlen.
  destruct (Hit _ _ Hi Hs) as (Hp & Hdue & _).
  eapply (PickDue_full (H:=runtime E)); [exact Hwf|exact Ep|exact Hi| |exact Hn]. by apply is_due_spec.
Qed.

(** A round: the items taken are done, the others as before. *)
Lemma runOnce_done w :
  drainable E svc w →
  let w' := (runOnce (H:=relay_replayer E svc) E wk ctx w).2 in
  recipients w' = recipients w ∧ ∃ ids, NoDup ids ∧
    (∀ id, id ∈ ids → ∃ it i n, items (store w) !! id = Some it ∧ status it ≠ StatusDone ∧
       items (store w') !! id = Some (done_at n (mark_processing (clock E i) it)) ∧
       sent_for E svc (recipients w) w w' it) ∧
    (∀ id, id ∉ ids → items (store w') !! id = items (store w) !! id) ∧
    (length ids = batch ∨ outstanding (store w) ⊆ list_to_set ids).
Proof using Hreplay Hsend Hio Hclock.
  intros Hw w'. subst w'. rewrite exec_runOnce, Hio.
  destruct (PickDue (H:=runtime E) PersistOk (store w) (BatchSize wk) _) as [r s1] eqn:Ep.
  destruct (take_due w _ s1 r Hw eq_refl Ep) as (its & -> & Hnd & Hpick & Hsame & Hfull).
  set (w1 := set_store s1 _).
  destruct (replay_items_done its w1 Hnd) as (Hrec & Hdone & Hother).
  { intros it Hin. destruct (Hpick it Hin) as (Hi & it0 & H0 & Hd & ->). split; [exact Hi|].
    apply is_due_spec in Hd as [Hd _]. apply (d_items _ _ _ Hw _ _ H0). by rewrite Hd. }
  destruct (replay_items _ _ _ _ w1) as [[] w2]. cbn [snd] in *.
  rewrite (updateBacklogMetrics_store E wk w2).
  assert (recipients (updateBacklogMetrics E wk w2).2 = recipients w2) as ->.
  { unfold updateBacklogMetrics. by destruct (negb _). }
  pose proof (exec_prefix _ w2 (acts_updateBacklogMetrics E wk (may WorkerRole))) as Hpre.
  split; [exact Hrec|]. exists (ID <$> its). split_and!; [done| | |by rewrite length_fmap].
  - intros id (it & -> & Hin)%list_elem_of_fmap. destruct (Hpick it Hin) as (_ & it0 & H0 & Hd & Heq).
    destruct (Hdone it Hin) as [[n Hn] Hs]. apply is_due_spec in Hd as [Hd _]. exists it0, (tick w), n.
    split_and!; [done|by rewrite Hd|rewrite Hn; by rewrite Heq|]. subst it.
    eapply sent_for_extend; [|exact Hpre|exact Hs]. done.
  - intros id Hn. rewrite Hother by done. by apply Hsame.
Qed.

(** A round makes a batch of items done, or all there are. *)
Lemma runOnce_drains w :
  drainable E svc w →
  let w' := (runOnce (H:=relay_replayer E svc) E wk ctx w).2 in
  drainable E svc w' ∧ (size (outstanding (store w')) ≤ size (outstanding (store w)) - batch)%nat ∧
  recipients w' = recipients w ∧
  ∀ id it, items (store w) !! id = Some it → ∃ it', items (store w') !! id = Some it' ∧ same_message it it' ∧
    (status it' = status it ∨ sent_for E svc (recipients w) w w' it).
Proof using Hreplay Hsend Hio Hclock.
  intros Hw w'. destruct (runOnce_done w Hw) as (Hrec & ids & Hnd & Hin & Hout & Hfull). fold w' in Hrec, Hin, Hout.
  assert (outstanding (store w') = outstanding (store w) ∖ list_to_set ids) as Hset.
  { apply set_eq. intros id. rewrite elem_of_difference, !elem_of_outstanding, elem_of_list_to_set.
    destruct (decide (id ∈ ids)) as [Hid|Hid].
    - destruct (Hin id Hid) as (it & i & n & _ & _ & -> & _). naive_solver.
    - rewrite Hout by done. naive_solver. }
  assert (∀ id it', items (store w') !! id = Some it' → ∃ it, items (store w) !! id = Some it ∧
    (it' = it ∨ ∃ i n, it' = done_at n (mark_processing (clock E i) it))) as Hits.
  { intros id it'. destruct (decide (id ∈ ids)) as [Hid|Hid].
    - destruct (Hin id Hid) as (it & i & n & Hi & _ & -> & _). intros [= <-]. exists it. split; [done|]. right. by exists i, n.
    - rewrite Hout by done. intros Hi. exists it'. by split; [|left]. }
  destruct Hw as [Hwf Ht Hit]. split; [split|split; [|split; [exact Hrec|]]].
  - intros id it' Hi. destruct (Hits id it' Hi) as (it & H0 & [->|(i & n & ->)]); by apply (Hwf _ _ H0).
  - intros id it' Hi. destruct (Hits id it' Hi) as (it & H0 & [->|(i & n & ->)]); [by apply (Ht _ _ H0)|].
    unfold done_at, mark_processing. do 2 apply updated_times_ok. by apply (Ht _ _ H0).
  - intros id it' Hi Hs. destruct (Hits id it' Hi) as (it & H0 & [->|(i & n & ->)]); [|done].
    rewrite Hrec. by apply (Hit id).
  - rewrite Hset. destruct Hfull as [Hlen|Hsub].
    + rewrite size_difference; [rewrite size_list_to_set by done; unfold batch in *; lia|].
      intros id Hid%elem_of_list_to_set. destruct (Hin id Hid) as (it & _ & _ & Hi & Hs & _).
      apply elem_of_outstanding. by exists it.
    + assert (outstanding (store w) ∖ list_to_set ids = ∅) as -> by set_solver. rewrite size_empty. lia.
  - intros id it Hi. destruct (decide (id ∈ ids)) as [Hid|Hid].
    + destruct (Hin id Hid) as (x & i & n & Hx & _ & -> & Hs). rewrite Hi in Hx. injection Hx as <-.
      eexists. split_and!; [done|done|by right].
    + exists it. rewrite Hout by done. split_and!; [done|done|by left].
Qed.

Lemma Run_drains n w :
  drainable E svc w → (size (outstanding (store w)) ≤ batch * n)%nat →
  let w' := (Run (H:=relay_replayer E svc) E wk ctx n w).2 in
  outstanding (store w') = ∅ ∧
  ∀ id it, items (store w) !! id = Some it → ∃ it', items (store w') !! id = Some it' ∧ same_message it it' ∧
    (status it' = status it ∨ sent_for E svc (recipients w) w w' it).
Proof using Hreplay Hsend Hio Hclock.
  revert w. induction n as [|n IH]; intros w Hw Hsize; cbn [Run].
  - cbn. split; [apply leibniz_equiv, size_empty_inv; lia|]. intros id it Hi. exists it. split_and!; [done|done|by left].
  - destruct (runOnce_drains w Hw) as (Hw1 & Hsize1 & Hrec & Hdom1).
    pose proof (exec_prefix _ w (acts_runOnce E svc ctx wk Hreplay)) as Hp1. rewrite exec_bind.
    destruct (runOnce _ _ _ w) as [[] w1]. cbn [snd] in *.
    destruct (IH w1 Hw1) as [H1 H2]; [lia|]. pose proof (exec_prefix _ w1 (acts_Run E svc ctx wk Hreplay n)) as Hp2.
    split; [exact H1|]. intros id it Hi. rewrite Hrec in H2.
    destruct (Hdom1 id it Hi) as (it1 & Hi1 & Hm1 & Hs1). destruct (H2 id it1 Hi1) as (it2 & Hi2 & Hm2 & Hs2).
    exists it2. split; [done|]. split; [by etrans|].
    destruct Hs2 as [->|Hs2]; [destruct Hs1 as [->|Hs1]; [by left|right]|right].
    + by eapply sent_for_extend; [| |exact Hs1].
    + eapply sent_for_same; [exact Hm1|]. by eapply sent_for_extend; [| |exact Hs2].
Qed.
End drain.

(** * Properties *)

(** C4. The queue drains.  While MAX accepts what is sent and the queue file can be
    written, [n] rounds of the worker deliver a queue of at most [n] batches
    whose items are due and can be resolved: after them every item is done, none
    is lost, and the message of each that was not done before has been relayed
    with every piece accepted. *)
Theorem queue_drains E svc wk ctx n w :
  dlq_active svc (replay_ctx wk ctx) = false →
  (∀ i x, send_result E i x = None) → (∀ i, store_io E i = PersistOk) →
  (∀ i, json_time_ok (clock E i) = true) →
  drainable E svc w → (size (outstanding (store w)) ≤ batch wk * n)%nat →
  let w' := (Run (H:=relay_replayer E svc) E wk ctx n w).2 in
  ∀ id it, items (store w) !! id = Some it →
  ∃ it', items (store w') !! id = Some it' ∧ status it' = StatusDone ∧ same_message it it' ∧
    (status it = StatusDone ∨ sent_for E svc (recipients w) w w' it).
Proof.
  intros Hrep Hsend Hio Hclock Hw Hsize w' id it Hi.
  destruct (Run_drains E svc wk ctx Hrep Hsend Hio Hclock n w Hw Hsize) as [Hnone Hkeep]. fold w' in Hnone, Hkeep.
  destruct (Hkeep id it Hi) as (it' & Hi' & Hm & Hs). exists it'.
  assert (status it' = StatusDone) as Hs'.
  { destruct (decide (status it' = StatusDone)) as [|Hn]; [done|exfalso].
    assert (id ∈ outstanding (store w')) as Hin by (apply elem_of_outstanding; by exists it').
    rewrite Hnone in Hin. by apply elem_of_empty in Hin. }
  split_and!; [done|done|done|]. destruct Hs as [Hs|Hs]; [left; congruence|by right].
Qed.

Lemma queue_drains_witness :
  ∃ it', items (store (Run (H:=relay_replayer wit_env (relaySvc example_config demo_email)) wit_env
      (dlqWorker example_config) Background 1 start_world).2) !! queued_id = Some it' ∧ status it' = StatusDone ∧
    RawMessage it' = "mail".
Proof.
  assert (∀ id it, items (store start_world) !! id = Some it → id = queued_id ∧ it = queued_item) as Hone.
  { intros id it. cbn. by intros [<- <-]%lookup_singleton_Some. }
  destruct (queue_drains wit_env (relaySvc example_config demo_email) (dlqWorker example_config) Background 1 start_world)
    with queued_id queued_item as (it' & Hi' & Hs & (_ & _ & _ & Hr & _) & _).
  - reflexivity.
  - reflexivity.
  - reflexivity.
  - intros i. vm_compute. reflexivity.
  - split.
    + intros id it [-> ->]%Hone. reflexivity.
    + intros id it [-> ->]%Hone. vm_compute. reflexivity.
    + intros id it [-> ->]%Hone _. split; [vm_compute; reflexivity|]. split; [intros n; vm_compute; discriminate|].
      split; vm_compute; reflexivity.
  - vm_compute. lia.
  - apply lookup_singleton_eq.
  - exists it'. split; [exact Hi'|]. split; [exact Hs|]. rewrite Hr. reflexivity.
Defined.
